(* ===== verification/_CoqProject ===== *)
-Q . S2P
Prelude.v
Bytes.v
BTreeMap.v
BlockDeque.v
DequeThreads.v
Heap.v
Types.v
Prefix.v
History.v
Store.v
StoreSpec.v
Snapshot.v
WatchSpec.v
StoreTrace.v
StoreProps.v
Answers.v
Accounting.v
Wal.v
WalWorkers.v
Notify.v
Metrics.v
Timers.v
Recovery.v
Concurrent.v
Readers.v
Raft.v
Replicas.v
RaftNet.v
Peers.v
Startup.v
Cluster.v
Crash.v
KvService.v
WatchService.v
Progress.v
WatchFlow.v
Watchers.v
Tests.v
Mock.v
Services.v
Server.v
Requests.v
Stress.v
