(* ===== verification/Prelude.v ===== *)
(** * A verification development for mem_etcd (src/src/)

    mem_etcd is an in-memory server for the part of the etcd v3 API that Kubernetes uses.
    This library models the server in Rocq, definition by definition after the Rust code,
    and proves what makes it correct.

    ** The program and its parts

    - [block_deque.rs]: a growable array in blocks, indexed by revision; the values of all
      revisions that are not compacted live in it.
    - [store.rs]: the multi-version store. Each write takes the next revision; items hold
      the revisions of a key; two indexes (by key, and by prefix and suffix) share the items;
      watchers are registered by range; writes queue one notification job per revision, and
      a thread puts the jobs in order, logs them and hands them to the watchers' channels.
    - [wal.rs]: one log file per prefix, a pool of threads that write batches, and a loader
      that merges the files of a directory by revision at the start.
    - [raft.rs]: the log store and the state machine openraft drives, snapshots included, and
      the transports that carry openraft's messages between nodes.
    - [kv_service.rs], [watch_service.rs], [lease_service.rs], [maintenance_service.rs]: the
      gRPC handlers.
    - [main.rs]: the options, the start of the store and the servers.
    - Beside the server: [stress-client], a load generator, and [extern/tonic-mock], mock
      streams for the tests.

    ** Files of the library

    Shared: [Prelude] (panicking computations, machine integers, sorted-list searches,
    tactics and the hint database [etcd]), [Bytes] (byte strings, the order classes [Ord] and
    [OrdLaws], little-endian words, lossy UTF-8), [BTreeMap] (Rust's ordered map against the
    order class), [Heap] (the binary heap of an order, by what its [pop] returns), [Types]
    (the messages and values several parts use).

    - [BlockDeque]: module [Deque] has the operations of [BlockDeque<T, N>]; [ADeque] the
      abstract deque, a start offset and a list; [DequeTrace] the runs of both.
      [DequeThreads]: calls of the deque as threads, the step relation [dstep], one step per
      access to the lock, the two atomics or a slot.
    - [Prefix]: [prefix_split] and [prefix_and_range_of_key].
    - [History]: the abstract state of a store, the list of its changes; [live_at] and
      [found] say what a read of a revision sees.
    - [Store]: the record [Store] and every operation of [impl Store]. An
      [Arc<RwLock<TreeItem>>] is a location in the heap [arcs], so that both indexes see the
      same item. [StoreSpec], [Snapshot] and [WatchSpec] have the relation [store_repr]
      between a store and a history and the specification of each operation; [StoreTrace]
      the abstract store, its replies, and the simulation; [StoreProps] the theorems;
      [Answers] the types of the replies. [Accounting]: the size gauge, kept by the reference
      counts of the values' buffers. [Metrics]: the counters, as what each request adds;
      [Timers]: the latency histogram and the timers that feed it and warn.
    - [Wal]: records, batches, short writes, [fsync], file names, [append], [load_wal_dir].
      [WalWorkers]: the writer threads as the step relation [wstep], one step per access to
      shared state or system call.
    - [Notify]: the notification thread; [Recovery]: [Store::new] on a log directory.
    - [Concurrent]: [set] calls that run side by side, as the step relation [cstep], one step
      per access to shared state, the items' locks included; [exec] runs a given schedule.
      [Readers]: range reads beside them, the step relation [sstep]. [Watchers]: watches that
      are opened beside them, the step relation [wsstep]; [ws_exec] runs a given schedule.
    - [Crash]: store, notification thread, writer threads, disk and loader put together;
      [WatchFlow]: watch service, store, notification thread and channel put together.
      [Progress]: a watch stream beside the notification thread, step by step ([take_turns]).
    - [Raft]: [MemLogStore] and [StateMachineStore]. [Replicas]: several state machines on one
      committed log, with snapshots and compactions in any order ([cluster_run]); the class
      [Agreement] says what a sense of agreement has to satisfy. [RaftNet]: the in-memory router, the
      gRPC client and the two servers, against the classes [RaftTypes] and [RaftSerde] for
      what openraft and serde provide. [Peers]: [parse_peers]. [Cluster]: creating nodes, the
      members of a new cluster, waiting for a leader.
    - [Startup]: [main] from the options to the point where the services are built.
    - [KvService], [WatchService]: the handlers, in a small state-and-error monad and as a
      state machine over the inputs of the stream. [Services]: the lease and maintenance
      handlers.
    - [Server]: the rest of [main], the services on one store: [handle] takes a request to
      its handler, [serve] a sequence of them; streams stay open between requests. [handled]
      says what each kind of request is to do to the store and to answer.
    - [Requests]: the key-value handlers as programs of their calls ([kv_prog], proved to be
      the handlers when they run alone), and systems of such programs under any schedule
      ([exec]).
    - [Tests]: the repository's own tests as programs of the model, evaluated.
    - [Mock]: the body, the decoder and the loops of tonic-mock, against the class [Message]
      for what prost provides. [Stress]: the stress client against the key-value service.

    ** What the theorems show

    - The block deque refines a list with an offset ([deque_refines_list]); between threads
      that keep to the discipline its comments state, its raw writes do not race, nothing
      panics or blocks, and every push and set arrives ([deque_race_free],
      [deque_threads_result]).
    - The store refines its history for all sequences of operations
      ([store_refines_history]); on top of it, conditional writes are compare-and-set, range
      reads return exactly the live keys of the interval, a watch gets exactly its past,
      a write is announced to exactly its watchers, compaction keeps the present, metadata
      count what they should, snapshots carry the present; every reply is well formed
      ([answers_well_typed]); the size gauge is the bytes held and those it cannot know were
      released ([gauge_exact]); the counters count what they say ([counters_exact]).
    - Concurrent writers are linearizable, never stuck, and what they queue reaches the log
      and the watchers in revision order ([concurrent_writes_linearizable], [.._progress],
      [.._delivered]). A range read beside them answers from one revision and gets there
      ([concurrent_range_snapshot], [concurrent_range_progress]). Between the past a watch
      reads beside them and the notifications it gets no change of an indexed key is lost
      ([concurrent_watch_complete]).
    - Notifications leave in revision order whatever order the writers queued them in, and
      reach open channels exactly once; the progress revision is never ahead.
    - The log's format, and what the loader makes of any bytes ([wal_dir_merged]); the writer
      threads exclude each other, lose nothing, do not get stuck, and signal a waiter only
      when its record is durable ([acknowledged_is_durable]); a store started on the log of a
      run has the same history ([recovery_exact]), and on what a crash left of it exactly the
      changes that survived ([crash_recovery]); [start_store_spec] says what the server starts
      from.
    - Replicas follow the committed log whatever snapshots are built, sent and installed in
      between, and where they have applied the same entries they answer alike
      ([replicas_converge], [replicas_read_alike]); the Raft log stays contiguous; snapshots
      transfer the state; both transports carry the messages unchanged; the peer list is
      read as written; waiting for a leader ends ([wait_for_leader_terminates]).
    - The handlers: put and get, delete, update transactions, the [more] flag, refusals
      without effect, Raft mode against single-node mode. A watch stream sends exactly the
      changes of its range, from the write to the client ([watch_stream_exact]); a progress
      answer holds unless the thread overtakes it ([progress_promise]).
    - Requests side by side: their calls of the store are a legal run in the order of the
      turns, each request does what it stands for and needs two turns, whatever the others
      do ([requests_interleave]); of conditional updates on one revision exactly one wins
      ([one_update_wins], [updates_decided]).
    - The server as a whole: each request does to the store what it stands for and nothing
      else, so that the store of a running server is a run of its operations from the
      replayed log on ([server_refines_store]); watchers do not outlive their streams
      ([watchers_are_open_streams]). Mock streams are what they were made of
      ([mock_stream_roundtrip]); the stress client runs to its end
      ([stress_run_completes]).
    - Where the code does not do what it means to, an [Example] evaluates the case, and
      [replay_silences_notifications] proves one in general: after a replayed log no later
      change is logged or announced.

    ** Bounds and fuel

    Revisions, lengths and indexes are [Z] with the wrap-around of their machine type written
    out ([as_usize], [as_i64], ...); theorems bound the number of operations by [i64_max], so
    that wrap-around is reached only where the code reaches it. Fuel: [Deque.grow] is given one
    turn per block to add, [drain_spool] one per spooled job, [merge_loop] one more than the
    bytes and files left ([wal_dir_merged] shows that this is enough), lossy UTF-8 one
    per byte, [wait_for_leader_grpc] one per poll. The block size is a class parameter,
    [store_block_size] being the program's. In the threads' step relations the number of
    threads, calls and reads is arbitrary.

    ** What is not modelled

    Writers, range reads, watches and compactions of the store are interleaved, and so are
    the calls of the deque, in relations of their own: in the store's a call of the deque is
    one step, and what [deque_threads_result] says of the deque is not composed with it.
    [Readers] and [Watchers] put reads and watches beside writers, not beside each other.
    [Requests] interleaves the handlers by calls of the store, each of them one step; watch
    streams take their turns between whole requests ([Server]). Atomics are sequentially
    consistent. [unwatch], snapshots and replays are calls that run alone. In fsync mode a
    write answers when its job is queued; that the caller then waits for the mark of the job
    to be signalled is not part of [set]. The size gauge takes every value to have a buffer
    of its own. Of the metrics, the sums of seconds and the gauge of requests in flight,
    which tower keeps, are left out, and so is logging other than the warnings of the
    timers. gRPC plumbing and generated protobuf code are reduced to the messages; openraft
    (which entries are committed, who leads, when a snapshot is sent), serde's JSON, tonic's
    channels, prost's encoding and the walk order of DashMap are parameters or an arbitrary
    schedule. The cluster tests and the benchmark among the tests are not transcribed. The
    build scripts are outside. *)
From stdpp Require Export prelude gmap strings list sorting.

(** ** Notation scope of the development *)
Declare Scope etcd_scope.
Delimit Scope etcd_scope with etcd.
#[global] Open Scope Z_scope.

(** ** Automation: one hint database for the facts every component shares *)
Create HintDb etcd.

(** ** Rust's [Result], and computations that may panic *)

Inductive Result (A E : Type) : Type :=
| Ok (a : A)
| Err (e : E).
Arguments Ok {A E} a.
Arguments Err {A E} e.

(** A call either returns or unwinds with a panic message. *)
Inductive outcome (A : Type) : Type :=
| Ret (a : A)
| Panic (msg : string).
Arguments Ret {A} a.
Arguments Panic {A} msg.

#[export] Instance outcome_ret : MRet outcome := λ A a, Ret a.
#[export] Instance outcome_bind : MBind outcome := λ A B f m,
  match m with Ret a => f a | Panic msg => Panic msg end.
#[export] Instance outcome_fmap : FMap outcome := λ A B f m,
  match m with Ret a => Ret (f a) | Panic msg => Panic msg end.

Definition is_ok {A E} (r : Result A E) : bool :=
  match r with Ok _ => true | Err _ => false end.

Definition returns {A} (m : outcome A) : Prop := ∃ a, m = Ret a.

(** Indexing a slice: out of range panics. *)
Definition index_or_panic {A} (l : list A) (i : nat) : outcome A :=
  match l !! i with
  | Some a => Ret a
  | None => Panic "index out of bounds"
  end.

Definition unwrap {A} (o : option A) : outcome A :=
  match o with
  | Some a => Ret a
  | None => Panic "called `Option::unwrap()` on a `None` value"
  end.

(** ** Machine integers

    [usize], [u64], [i64] and [u32] values are integers in [Z]; the casts and the
    arithmetic that can leave the range are written with their wrap-around
    (the release profile of Cargo.toml does not enable overflow checks). *)
Definition u64_modulus : Z := 2 ^ 64.
Definition u32_modulus : Z := 2 ^ 32.
Definition i64_max : Z := 2 ^ 63 - 1.
Definition i64_min : Z := - 2 ^ 63.
Definition usize_max : Z := 2 ^ 64 - 1.

Definition as_usize (z : Z) : Z := z mod u64_modulus.
Definition as_u64 (z : Z) : Z := z mod u64_modulus.
Definition as_u32 (z : Z) : Z := z mod u32_modulus.
Definition as_i64 (z : Z) : Z := (z + 2 ^ 63) mod u64_modulus - 2 ^ 63.

Definition usize_add (a b : Z) : Z := as_usize (a + b).
Definition usize_sub (a b : Z) : Z := as_usize (a - b).
Definition i64_add (a b : Z) : Z := as_i64 (a + b).
Definition i64_sub (a b : Z) : Z := as_i64 (a - b).

Definition is_usize (z : Z) : Prop := 0 ≤ z < u64_modulus.
Definition is_i64 (z : Z) : Prop := i64_min ≤ z ≤ i64_max.

(** ** Slices of sorted integers: the two searches the store uses *)

(** [slice::partition_point]: the length of the longest prefix satisfying [p]
    (on a partitioned slice, which every call site provides). *)
Fixpoint partition_point {A} (p : A → bool) (l : list A) : nat :=
  match l with
  | [] => 0%nat
  | x :: l' => if p x then S (partition_point p l') else 0%nat
  end.

(** [slice::binary_search]: [inl i] is Rust's [Ok(i)] (found at [i]), [inr i] is
    [Err(i)] (not found, insertion point [i]). *)
Definition binary_search (l : list Z) (x : Z) : nat + nat :=
  let i := partition_point (λ v, v <? x) l in
  match l !! i with
  | Some y => if y =? x then inl i else inr i
  | None => inr i
  end.

(** Found or not, the position is that of the first element not below. *)
Lemma binary_search_pos l x :
  match binary_search l x with inl i => i | inr i => i end = partition_point (λ v, v <? x) l.
Proof. unfold binary_search. destruct (_ !! _) as [z|]; [by destruct (z =? x)|done]. Qed.

(** ** Tactics *)

(** Splits the boolean tests of the code in the context and the goal. *)
Ltac bool_cases :=
  repeat match goal with
  | H : (_ && _)%bool = true |- _ => apply andb_true_iff in H as [? ?]
  | H : (_ || _)%bool = false |- _ => apply orb_false_iff in H as [? ?]
  | H : negb _ = true |- _ => apply negb_true_iff in H
  | H : negb _ = false |- _ => apply negb_false_iff in H
  end.

(** Case analysis on the first test of the goal, keeping the equation. *)
Ltac case_test :=
  match goal with
  | |- context [if ?b then _ else _] => destruct b eqn:?
  | |- context [match ?x with _ => _ end] => destruct x eqn:?
  end.

(** Machine-integer side conditions: unfold the widths and call [lia]. *)
Ltac width_unfold :=
  unfold is_usize, is_i64, usize_max, i64_max, i64_min, u64_modulus, u32_modulus in *.
Ltac width := width_unfold; lia.

(** ** Lemmas on outcomes *)

Lemma bind_ret {A B} (a : A) (f : A → outcome B) : (Ret a ≫= f) = f a.
Proof. done. Qed.

Lemma bind_ret_inv {A B} (m : outcome A) (f : A → outcome B) b :
  (m ≫= f) = Ret b ↔ ∃ a, m = Ret a ∧ f a = Ret b.
Proof.
  destruct m as [a|msg]; cbn; split; try done.
  - eauto.
  - by intros (? & [= ->] & ?).
  - by intros (? & ? & ?).
Qed.

Lemma index_or_panic_ret {A} (l : list A) i a :
  l !! i = Some a → index_or_panic l i = Ret a.
Proof. unfold index_or_panic. by intros ->. Qed.

(** ** Lemmas on machine integers *)

Lemma as_usize_id z : is_usize z → as_usize z = z.
Proof. intros ?. apply Z.mod_small. done. Qed.

Lemma as_u64_id z : is_usize z → as_u64 z = z.
Proof. intros ?. apply Z.mod_small. done. Qed.

Lemma as_u32_id z : 0 ≤ z < u32_modulus → as_u32 z = z.
Proof. intros ?. apply Z.mod_small. done. Qed.

Lemma as_i64_id z : is_i64 z → as_i64 z = z.
Proof. intros ?. unfold as_i64. rewrite Z.mod_small; width. Qed.

Lemma as_i64_as_u64 z : is_i64 z → as_i64 (as_u64 z) = z.
Proof.
  intros ?. unfold as_i64, as_u64.
  rewrite Z.add_mod_idemp_l by (unfold u64_modulus; lia).
  rewrite Z.mod_small; width.
Qed.

Lemma usize_add_id a b : is_usize (a + b) → usize_add a b = a + b.
Proof. apply as_usize_id. Qed.

Lemma usize_sub_id a b : is_usize (a - b) → usize_sub a b = a - b.
Proof. apply as_usize_id. Qed.

Lemma i64_add_id a b : is_i64 (a + b) → i64_add a b = a + b.
Proof. apply as_i64_id. Qed.

Lemma i64_sub_id a b : is_i64 (a - b) → i64_sub a b = a - b.
Proof. apply as_i64_id. Qed.

Lemma as_usize_range z : is_usize (as_usize z).
Proof. apply Z.mod_pos_bound. by unfold u64_modulus. Qed.

#[export] Hint Resolve as_usize_range : etcd.

(** ** Lemmas on the searches *)

Lemma partition_point_le {A} (p : A → bool) l : (partition_point p l ≤ length l)%nat.
Proof. induction l; simpl; [lia | case_match; lia]. Qed.

Lemma partition_point_take {A} (p : A → bool) l :
  Forall (λ x, p x = true) (take (partition_point p l) l).
Proof. induction l; simpl; [done|]. case_match; simpl; by constructor. Qed.

Lemma partition_point_stop {A} (p : A → bool) l x :
  l !! partition_point p l = Some x → p x = false.
Proof. induction l; simpl; [done|]. case_match; simpl; naive_solver. Qed.

(** On a sorted slice nothing beyond the partition point is below the bound. *)
Lemma partition_point_drop (l : list Z) b :
  StronglySorted Z.lt l →
  Forall (λ v, b ≤ v) (drop (partition_point (λ v, v <? b) l) l).
Proof.
  induction 1 as [|x l Hs IH Hx]; simpl; [done|].
  destruct (x <? b) eqn:E; simpl; [done|].
  apply Z.ltb_ge in E. constructor; [done|].
  eapply Forall_impl; [exact Hx|]. simpl. lia.
Qed.

(** ** Lemmas on lists *)

Lemma StronglySorted_app_lt (l : list Z) x :
  StronglySorted Z.lt l → Forall (λ v, v < x) l → StronglySorted Z.lt (l ++ [x]).
Proof.
  induction 1 as [|y l Hs IH Hy]; intros Hall; simpl.
  - repeat constructor.
  - inversion Hall; subst. constructor; [by apply IH|].
    apply Forall_app; split; [done|]. by repeat constructor.
Qed.

Lemma StronglySorted_skip {A} (R : relation A) l1 x l2 :
  StronglySorted R (l1 ++ x :: l2) → StronglySorted R (l1 ++ l2).
Proof.
  induction l1 as [|y l1 IH]; simpl; [by inversion 1|].
  inversion 1 as [|?? Hs Hall]; subst. constructor; [by apply IH|].
  rewrite Forall_app, Forall_cons in *. tauto.
Qed.

Lemma StronglySorted_drop {A} (R : relation A) n l :
  StronglySorted R l → StronglySorted R (drop n l).
Proof.
  revert n. induction l as [|x l IH]; intros n H; [by rewrite drop_nil|].
  destruct n; simpl; [done|]. apply IH. by inversion H.
Qed.

Lemma lookup_insert_range {A} (l : list A) i j x :
  (i < length l)%nat → <[i:=x]> l !! j = if decide (i = j) then Some x else l !! j.
Proof.
  intros. case_decide; subst; [by apply list_lookup_insert_eq | by apply list_lookup_insert_ne].
Qed.

Section filter_facts.
Context {A : Type} (P : A → Prop) `{!∀ x, Decision (P x)}.

Lemma filter_all l : Forall P l → filter P l = l.
Proof.
  induction 1 as [|x l Hx Hl IH]; [done|]. by rewrite filter_cons_True, IH.
Qed.

Lemma filter_none l : Forall (λ x, ¬ P x) l → filter P l = [].
Proof.
  induction 1 as [|x l Hx Hl IH]; [done|]. by rewrite filter_cons_False, IH.
Qed.
End filter_facts.

(** [binary_search] on a sorted slice, as the store reads its answer: the index of
    the greatest element that is at most [x]. *)
Definition floor_index (r : nat + nat) : option nat :=
  match r with
  | inl i => Some i
  | inr O => None
  | inr (S i) => Some i
  end.

Lemma partition_point_split (l : list Z) x :
  StronglySorted Z.lt l →
  let i := partition_point (λ v, v <? x) l in
  filter (λ v, v ≤ x) (take i l) = take i l ∧
  filter (λ v, v ≤ x) (drop i l) = match l !! i with
                                   | Some y => if y =? x then [x] else []
                                   | None => []
                                   end.
Proof.
  intros Hs. simpl. set (i := partition_point _ l). split.
  - apply filter_all. eapply Forall_impl; [apply partition_point_take|]. simpl. lia.
  - pose proof (partition_point_drop l x Hs) as Hge. fold i in Hge.
    pose proof (StronglySorted_drop _ i _ Hs) as Hsd.
    rewrite <- (Nat.add_0_r i) at 2. rewrite <- lookup_drop.
    destruct (drop i l) as [|y d]; [done|]. simpl.
    inversion Hge as [|?? Hy Hd]; inversion Hsd as [|?? ? Hyd]; subst.
    assert (filter (λ v, v ≤ x) d = []) as Hnil.
    { apply filter_none. eapply Forall_impl; [exact Hyd|]. simpl. lia. }
    destruct (Z.eqb_spec y x) as [->|Hne].
    + rewrite filter_cons_True by done. by rewrite Hnil.
    + by rewrite filter_cons_False by lia.
Qed.

Lemma binary_search_floor (l : list Z) x :
  StronglySorted Z.lt l →
  (floor_index (binary_search l x) ≫= (l !!.)) = last (filter (λ v, v ≤ x) l).
Proof.
  intros Hs. unfold binary_search. set (i := partition_point _ l).
  destruct (partition_point_split l x Hs) as [Htake Hdrop]. fold i in Htake, Hdrop.
  pose proof (partition_point_le (λ v, v <? x) l) as Hle. fold i in Hle.
  assert (filter (λ v, v ≤ x) l = take i l ++ match l !! i with
      | Some y => if y =? x then [x] else [] | None => [] end) as ->.
  { rewrite <- Htake, <- Hdrop, <- filter_app. by rewrite take_drop. }
  assert (floor_index (inr i) ≫= (l !!.) = last (take i l)) as Hlast.
  { destruct i as [|i]; [done|]. simpl. rewrite last_lookup, length_take.
    rewrite lookup_take_lt by lia. f_equal. lia. }
  destruct (l !! i) as [y|] eqn:Hy.
  - destruct (Z.eqb_spec y x) as [->|]; [by rewrite last_snoc|]. by rewrite app_nil_r.
  - by rewrite app_nil_r.
Qed.

Lemma seqZ_sorted m n : StronglySorted Z.lt (seqZ m n).
Proof.
  destruct (decide (0 ≤ n)) as [Hn|]; [|rewrite seqZ_nil by lia; constructor].
  revert m. pattern n. apply natlike_ind; [|intros k Hk IH m|done].
  - intros m. rewrite seqZ_nil by lia. constructor.
  - rewrite seqZ_cons, Z.pred_succ by lia. constructor; [apply IH|].
    apply Forall_forall. intros z ?%elem_of_seqZ. lia.
Qed.
