(* ===== verification/Bytes.v ===== *)
(** * Bytes, keys and their order

    Rust's [u8] and [Vec<u8>] ([ByteArray] in store.rs and wal.rs): decidable
    equality and countability for the finite maps, the total orders that
    [BTreeMap] and the comparisons of the code use, little-endian words, the hex
    names of the WAL files, and the splitting of keys at a separator. *)
From S2P Require Import Prelude.
From Stdlib Require Strings.Byte.

(** ** Bytes *)

Abbreviation byte := Init.Byte.byte.
Abbreviation ByteArray := (list Init.Byte.byte).

Definition byte_val (b : byte) : Z := Z.of_N (Byte.to_N b).
Definition byte_of (z : Z) : byte := default Byte.x00 (Byte.of_N (Z.to_N (z mod 256))).

#[export] Instance byte_eq_dec : EqDecision byte := Byte.byte_eq_dec.
#[export] Instance byte_countable : Countable byte.
Proof.
  refine (inj_countable' Byte.to_N (λ n, default Byte.x00 (Byte.of_N n)) _).
  intros b. by rewrite Byte.of_to_N.
Defined.

(** A byte-string literal, [b"..."]. *)
Definition bytes (s : string) : ByteArray := String.list_byte_of_string s.

(** ** Total orders, as the [Ord] trait *)

Class Ord (A : Type) := cmp : A → A → comparison.

Class OrdLaws (A : Type) `{!Ord A} : Prop := {
  cmp_eq : ∀ x y : A, cmp x y = Eq ↔ x = y;
  cmp_opp : ∀ x y : A, cmp y x = CompOpp (cmp x y);
  cmp_trans : ∀ x y z : A, cmp x y = Lt → cmp y z = Lt → cmp x z = Lt;
}.

Definition olt {A} `{!Ord A} (x y : A) : Prop := cmp x y = Lt.
Definition ole {A} `{!Ord A} (x y : A) : Prop := cmp x y ≠ Gt.
Definition oltb {A} `{!Ord A} (x y : A) : bool :=
  match cmp x y with Lt => true | _ => false end.
Definition oleb {A} `{!Ord A} (x y : A) : bool :=
  match cmp x y with Gt => false | _ => true end.

#[export] Instance Z_ord : Ord Z := Z.compare.
#[export] Instance byte_ord : Ord byte := λ x y, N.compare (Byte.to_N x) (Byte.to_N y).

(** Lexicographic order of pairs and of slices. *)
#[export] Instance pair_ord {A B} `{!Ord A, !Ord B} : Ord (A * B) := λ x y,
  match cmp x.1 y.1 with Eq => cmp x.2 y.2 | c => c end.

Fixpoint list_cmp {A} `{!Ord A} (x y : list A) : comparison :=
  match x, y with
  | [], [] => Eq
  | [], _ :: _ => Lt
  | _ :: _, [] => Gt
  | a :: x', b :: y' => match cmp a b with Eq => list_cmp x' y' | c => c end
  end.
#[export] Instance list_ord {A} `{!Ord A} : Ord (list A) := list_cmp.

(** ** Slice operations on keys *)

(** [slice::starts_with] *)
Fixpoint starts_with (l p : ByteArray) {struct p} : bool :=
  match p, l with
  | [], _ => true
  | _ :: _, [] => false
  | a :: p', b :: l' => bool_decide (a = b) && starts_with l' p'
  end.

(** [slice::splitn(n, |v| *v == sep)]: at most [n] segments, the last one holding
    the rest. *)
Fixpoint splitn (n : nat) (sep : byte) (l : ByteArray) : list ByteArray :=
  match n with
  | O => []
  | S O => [l]
  | S n' =>
      let fix go (acc rest : ByteArray) : list ByteArray :=
        match rest with
        | [] => [acc]
        | b :: rest' =>
            if bool_decide (b = sep) then acc :: splitn n' sep rest'
            else go (acc ++ [b]) rest'
        end in
      go [] l
  end.

(** ** Little-endian words: [to_le_bytes] and [from_le_bytes] *)

Fixpoint to_le_bytes (n : nat) (z : Z) : ByteArray :=
  match n with
  | O => []
  | S n' => byte_of z :: to_le_bytes n' (z / 256)
  end.

Fixpoint from_le_bytes (l : ByteArray) : Z :=
  match l with
  | [] => 0
  | b :: l' => byte_val b + 256 * from_le_bytes l'
  end.

(** ** [String::from_utf8_lossy] *)

Definition in_byte_range (lo hi b : Z) : bool := (lo <=? b) && (b <=? hi).
Definition is_continuation (b : Z) : bool := in_byte_range 128 191 b.

(** One decoding step of the standard library: the number of bytes inspected and
    whether they form a character; a missing byte is read as 0. *)
Definition utf8_step (l : ByteArray) : nat * bool :=
  let at_ i := from_option byte_val 0 (l !! i) in
  let b := at_ 0%nat in
  let b1 := at_ 1%nat in
  if b <? 128 then (1%nat, true)
  else if in_byte_range 194 223 b then
    if is_continuation b1 then (2%nat, true) else (1%nat, false)
  else if in_byte_range 224 239 b then
    if (if b =? 224 then in_byte_range 160 191 b1
        else if b =? 237 then in_byte_range 128 159 b1
        else is_continuation b1)
    then if is_continuation (at_ 2%nat) then (3%nat, true) else (2%nat, false)
    else (1%nat, false)
  else if in_byte_range 240 244 b then
    if (if b =? 240 then in_byte_range 144 191 b1
        else if b =? 244 then in_byte_range 128 143 b1
        else is_continuation b1)
    then if is_continuation (at_ 2%nat)
         then if is_continuation (at_ 3%nat) then (4%nat, true) else (3%nat, false)
         else (2%nat, false)
    else (1%nat, false)
  else (1%nat, false).

(** The replacement character U+FFFD. *)
Definition replacement : ByteArray := [Byte.xef; Byte.xbf; Byte.xbd].

Fixpoint utf8_lossy (fuel : nat) (l : ByteArray) : ByteArray :=
  match fuel with
  | O => []
  | S fuel' =>
      match l with
      | [] => []
      | _ =>
          let '(n, ok) := utf8_step l in
          (if ok then take n l else replacement) ++ utf8_lossy fuel' (drop n l)
      end
  end.

(** Every step consumes a byte, so the length is enough fuel. *)
Definition from_utf8_lossy (l : ByteArray) : ByteArray := utf8_lossy (length l) l.

(** ** Lemmas: bytes *)

Lemma byte_val_bound b : 0 ≤ byte_val b < 256.
Proof.
  unfold byte_val. pose proof (Byte.to_N_bounded b). lia.
Qed.

Lemma byte_val_of z : byte_val (byte_of z) = z mod 256.
Proof.
  unfold byte_val, byte_of.
  pose proof (Z.mod_pos_bound z 256 ltac:(lia)) as Hb.
  destruct (Byte.of_N (Z.to_N (z mod 256))) as [b|] eqn:E; simpl.
  - apply Byte.to_of_N in E. lia.
  - apply Byte.of_N_None_iff in E. lia.
Qed.

Lemma byte_val_inj b1 b2 : byte_val b1 = byte_val b2 → b1 = b2.
Proof.
  unfold byte_val. intros H%N2Z.inj.
  apply (f_equal Byte.of_N) in H. rewrite !Byte.of_to_N in H. congruence.
Qed.

Lemma byte_of_val b : byte_of (byte_val b) = b.
Proof.
  apply byte_val_inj. rewrite byte_val_of. apply Z.mod_small, byte_val_bound.
Qed.

(** ** Lemmas: orders *)

#[export] Instance Z_ord_laws : OrdLaws Z.
Proof.
  split; unfold cmp, Z_ord.
  - apply Z.compare_eq_iff.
  - intros. apply Z.compare_antisym.
  - intros x y z. rewrite !Z.compare_lt_iff. lia.
Qed.

#[export] Instance byte_ord_laws : OrdLaws byte.
Proof.
  split; unfold cmp, byte_ord.
  - intros x y. rewrite N.compare_eq_iff. split; [|by intros ->].
    intros H. apply byte_val_inj. unfold byte_val. by rewrite H.
  - intros. apply N.compare_antisym.
  - intros x y z. rewrite !N.compare_lt_iff. lia.
Qed.

Section order_facts.
Context {A : Type} `{!Ord A, !OrdLaws A}.
Implicit Types x y z : A.

Lemma cmp_refl x : cmp x x = Eq.
Proof. by apply cmp_eq. Qed.

Lemma olt_irrefl x : ¬ olt x x.
Proof. unfold olt. by rewrite cmp_refl. Qed.

Lemma olt_trans x y z : olt x y → olt y z → olt x z.
Proof. apply cmp_trans. Qed.

Lemma olt_antisym x y : olt x y → olt y x → False.
Proof. intros ??. eapply olt_irrefl, olt_trans; eauto. Qed.

Lemma olt_ne x y : olt x y → x ≠ y.
Proof. intros H ->. by apply olt_irrefl in H. Qed.

Lemma cmp_gt x y : cmp x y = Gt ↔ olt y x.
Proof.
  unfold olt. rewrite (cmp_opp x y). by destruct (cmp x y).
Qed.

Lemma ole_not_lt x y : ole x y ↔ ¬ olt y x.
Proof. unfold ole. by rewrite cmp_gt. Qed.

Lemma olt_total x y : olt x y ∨ x = y ∨ olt y x.
Proof.
  destruct (cmp x y) eqn:E.
  - right; left. by apply cmp_eq.
  - by left.
  - right; right. by apply cmp_gt.
Qed.

Lemma ole_lt_trans x y z : ole x y → olt y z → olt x z.
Proof.
  rewrite ole_not_lt. intros Hxy Hyz.
  destruct (olt_total x y) as [?|[->|?]]; [by eapply olt_trans | done | done].
Qed.

Lemma olt_le_trans x y z : olt x y → ole y z → olt x z.
Proof.
  rewrite ole_not_lt. intros Hxy Hyz.
  destruct (olt_total y z) as [?|[<-|?]]; [by eapply olt_trans | done | done].
Qed.

Lemma ole_refl x : ole x x.
Proof. unfold ole. by rewrite cmp_refl. Qed.

Lemma oltb_spec x y : reflect (olt x y) (oltb x y).
Proof.
  unfold oltb, olt. destruct (cmp x y) eqn:?; constructor; congruence.
Qed.

Lemma oleb_spec x y : reflect (ole x y) (oleb x y).
Proof.
  unfold oleb, ole. destruct (cmp x y) eqn:?; constructor; congruence.
Qed.

Lemma oltb_lt x y : oltb x y = true ↔ olt x y.
Proof. destruct (oltb_spec x y); naive_solver. Qed.

Lemma oleb_le x y : oleb x y = true ↔ ole x y.
Proof. destruct (oleb_spec x y); naive_solver. Qed.

Lemma oltb_oleb x y : oltb x y = negb (oleb y x).
Proof.
  unfold oltb, oleb. rewrite (cmp_opp x y). by destruct (cmp x y).
Qed.

#[global] Instance list_ord_laws : OrdLaws (list A).
Proof.
  split; unfold cmp, list_ord.
  - induction x as [|a x IH]; intros [|b y]; simpl; try done.
    destruct (cmp a b) eqn:E.
    + apply cmp_eq in E as ->. rewrite IH. naive_solver.
    + split; [done|]. intros [= -> _]. by rewrite cmp_refl in E.
    + split; [done|]. intros [= -> _]. by rewrite cmp_refl in E.
  - induction x as [|a x IH]; intros [|b y]; simpl; try done.
    rewrite (cmp_opp a b). destruct (cmp a b); simpl; auto.
  - induction x as [|a x IH]; intros [|b y] [|c z]; simpl; try done.
    destruct (cmp a b) eqn:E1; try done.
    + apply cmp_eq in E1 as ->. destruct (cmp b c); try done. apply IH.
    + intros _. destruct (cmp b c) eqn:E2; try done.
      * apply cmp_eq in E2 as ->. by rewrite E1.
      * by rewrite (cmp_trans a b c).
Qed.

(** Appending a common prefix does not change the order. *)
Lemma list_cmp_app (p x y : list A) : cmp (p ++ x) (p ++ y) = cmp x y.
Proof.
  unfold cmp, list_ord. induction p as [|a p IH]; simpl; [done|].
  by rewrite cmp_refl.
Qed.

Lemma list_cmp_nil_l (x : list A) : ole [] x.
Proof. by destruct x. Qed.

(** What lies between two strings with a common prefix has that prefix. *)
Lemma list_between_prefix (p x y k : list A) :
  ole (p ++ x) k → olt k (p ++ y) → ∃ z : list A, k = p ++ z.
Proof.
  revert k. induction p as [|a p IH]; intros k Hx Hy; [by exists k|].
  destruct k as [|b k]; [done|].
  unfold ole, olt, cmp, list_ord in *. simpl in *.
  destruct (cmp a b) eqn:E; [|rewrite (cmp_opp a b), E in Hy; simpl in Hy; done|done].
  apply cmp_eq in E as ->. rewrite cmp_refl in Hy.
  destruct (IH k) as [z ->]; [done..|]. by exists z.
Qed.
End order_facts.

#[export] Instance pair_ord_laws {A B} `{!Ord A, !Ord B, !OrdLaws A, !OrdLaws B} :
  OrdLaws (A * B).
Proof.
  split; unfold cmp, pair_ord.
  - intros [a b] [a' b']; simpl. destruct (cmp a a') eqn:E.
    + apply cmp_eq in E as ->. rewrite cmp_eq. naive_solver.
    + split; [done|]. intros [= -> _]. by rewrite cmp_refl in E.
    + split; [done|]. intros [= -> _]. by rewrite cmp_refl in E.
  - intros [a b] [a' b']; simpl. rewrite (cmp_opp a a').
    destruct (cmp a a'); simpl; [apply cmp_opp | done..].
  - intros [a b] [a' b'] [a'' b'']; simpl.
    destruct (cmp a a') eqn:E1; try done.
    + apply cmp_eq in E1 as ->. destruct (cmp a' a''); try done. apply cmp_trans.
    + intros _. destruct (cmp a' a'') eqn:E2; try done.
      * apply cmp_eq in E2 as ->. by rewrite E1.
      * by rewrite (cmp_trans a a' a'').
Qed.

#[export] Hint Resolve olt_irrefl olt_trans olt_ne ole_refl : etcd.

(** ** Lemmas: slices *)

Lemma starts_with_spec l p : starts_with l p = true ↔ ∃ r, l = p ++ r.
Proof.
  revert l. induction p as [|a p IH]; intros l; simpl.
  { split; [by exists l | done]. }
  destruct l as [|b l].
  { split; [done|]. by intros [r ?]. }
  rewrite andb_true_iff, bool_decide_eq_true, IH. split.
  - intros (-> & r & ->). by exists r.
  - intros (r & [= -> ->]). eauto.
Qed.

Lemma starts_with_app p r : starts_with (p ++ r) p = true.
Proof. apply starts_with_spec. eauto. Qed.

(** ** Lemmas: words *)

Lemma to_le_bytes_length n z : length (to_le_bytes n z) = n.
Proof. revert z. induction n; intros; simpl; auto. Qed.

Lemma from_to_le_bytes n z :
  from_le_bytes (to_le_bytes n z) = z mod 256 ^ Z.of_nat n.
Proof.
  revert z. induction n as [|n IH]; intros z.
  - by rewrite Z.mod_1_r.
  - cbn [to_le_bytes from_le_bytes]. rewrite IH, byte_val_of.
    rewrite Nat2Z.inj_succ, Z.pow_succ_r by lia.
    rewrite Z.rem_mul_r by lia. lia.
Qed.

Lemma from_le_bytes_bound l : 0 ≤ from_le_bytes l < 256 ^ Z.of_nat (length l).
Proof.
  induction l as [|b l IH]; cbn [from_le_bytes length]; [done|].
  rewrite Nat2Z.inj_succ, Z.pow_succ_r by lia.
  pose proof (byte_val_bound b). lia.
Qed.

Lemma to_from_le_bytes l : to_le_bytes (length l) (from_le_bytes l) = l.
Proof.
  induction l as [|b l IH]; cbn [from_le_bytes length to_le_bytes]; [done|].
  pose proof (byte_val_bound b).
  f_equal.
  - apply byte_val_inj. rewrite byte_val_of.
    rewrite (Z.mul_comm 256), Z.mod_add, Z.mod_small; lia.
  - rewrite (Z.mul_comm 256), Z.div_add, Z.div_small by lia. by rewrite Z.add_0_l.
Qed.

(** ** Lemmas: text *)

(** ASCII text is unchanged by the lossy conversion. *)
Lemma from_utf8_lossy_ascii l : Forall (λ b, byte_val b < 128) l → from_utf8_lossy l = l.
Proof.
  unfold from_utf8_lossy. induction 1 as [|b l Hb Hl IH]; simpl; [done|].
  unfold utf8_step. simpl. rewrite (proj2 (Z.ltb_lt _ _)) by done. simpl.
  by rewrite drop_0, IH.
Qed.
