(* ===== verification/BTreeMap.v ===== *)
(** * [std::collections::BTreeMap]

    The ordered map of Rust's standard library, as the list of its entries in
    increasing key order: [get], [insert], [remove], [clear], iteration and
    [range] with its bounds and its panics. The store keeps one per prefix
    ([PrefixMapItem::btree]) and one for the watchers; the Raft log and the two
    routers are such maps too. *)
From S2P Require Import Prelude Bytes.

Abbreviation BTreeMap K V := (list (K * V)).

Inductive Bound (K : Type) : Type :=
| Included (k : K)
| Excluded (k : K)
| Unbounded.
Arguments Included {K} k.
Arguments Excluded {K} k.
Arguments Unbounded {K}.

(** ** Operations *)

Section operations.
Context {K V : Type} `{!Ord K}.

Fixpoint bt_get (m : BTreeMap K V) (k : K) : option V :=
  match m with
  | [] => None
  | (k', v) :: m' =>
      match cmp k k' with
      | Eq => Some v
      | Lt => None
      | Gt => bt_get m' k
      end
  end.

(** [insert]: an existing key keeps its place and takes the new value. *)
Fixpoint bt_insert (m : BTreeMap K V) (k : K) (v : V) : BTreeMap K V :=
  match m with
  | [] => [(k, v)]
  | (k', v') :: m' =>
      match cmp k k' with
      | Eq => (k, v) :: m'
      | Lt => (k, v) :: (k', v') :: m'
      | Gt => (k', v') :: bt_insert m' k v
      end
  end.

Fixpoint bt_remove (m : BTreeMap K V) (k : K) : BTreeMap K V :=
  match m with
  | [] => []
  | (k', v') :: m' =>
      match cmp k k' with
      | Eq => m'
      | Lt => (k', v') :: m'
      | Gt => (k', v') :: bt_remove m' k
      end
  end.

Definition above (lo : Bound K) (k : K) : bool :=
  match lo with
  | Included b => oleb b k
  | Excluded b => oltb b k
  | Unbounded => true
  end.

Definition below (hi : Bound K) (k : K) : bool :=
  match hi with
  | Included b => oleb k b
  | Excluded b => oltb k b
  | Unbounded => true
  end.

Definition in_bounds (r : Bound K * Bound K) (k : K) : bool := above r.1 k && below r.2 k.

(** The bounds on which [range] panics: a start beyond the end, or two equal
    excluded bounds. *)
Definition bad_bounds (r : Bound K * Bound K) : bool :=
  match r with
  | (Excluded s, Excluded e) => oleb e s
  | (Included s, Excluded e) | (Included s, Included e) | (Excluded s, Included e) => oltb e s
  | _ => false
  end.

Definition bt_range (m : BTreeMap K V) (r : Bound K * Bound K) : outcome (BTreeMap K V) :=
  match m with
  | [] => Ret []
  | _ =>
      if bad_bounds r then Panic "range start is greater than range end in BTreeMap"
      else Ret (filter (λ kv, in_bounds r kv.1 = true) m)
  end.

(** The keys in increasing order, without repetition: what every operation keeps. *)
Definition bt_wf (m : BTreeMap K V) : Prop := StronglySorted olt m.*1.
End operations.

(** ** Lemmas *)

Section lemmas.
Context {K V : Type} `{!Ord K, !OrdLaws K}.
Implicit Types (m : BTreeMap K V) (k : K) (v : V).

Lemma bt_wf_nil : bt_wf (K:=K) (V:=V) [].
Proof. constructor. Qed.

Lemma bt_wf_keys_distinct (m : BTreeMap K V) : bt_wf m → NoDup m.*1.
Proof.
  unfold bt_wf. induction 1 as [|k ks _ IH Hk]; constructor; [|exact IH].
  intros Hin. rewrite Forall_forall in Hk. by apply (olt_irrefl k), Hk.
Qed.

Lemma bt_wf_cons k v m :
  bt_wf ((k, v) :: m) ↔ bt_wf m ∧ Forall (olt k) m.*1.
Proof.
  unfold bt_wf; simpl. split.
  - inversion 1; subst. done.
  - intros [??]. by constructor.
Qed.

Lemma bt_get_below m k : bt_wf m → Forall (olt k) m.*1 → bt_get m k = None.
Proof.
  destruct m as [|[k' v'] m]; simpl; [done|].
  intros _ H. inversion H as [|?? Hlt]; subst. by rewrite Hlt.
Qed.

Lemma bt_get_Some_elem m k v : bt_wf m → bt_get m k = Some v ↔ (k, v) ∈ m.
Proof.
  induction m as [|[k' v'] m IH]; simpl.
  { intros _. split; [done|]. by intros ?%elem_of_nil. }
  rewrite bt_wf_cons, elem_of_cons. intros [Hm Hall].
  destruct (cmp k k') eqn:E.
  - apply cmp_eq in E as ->. split; [intros [= ->]; by left|].
    intros [[= ->]|Hin]; [done|].
    rewrite Forall_fmap, Forall_forall in Hall.
    apply Hall in Hin. by apply olt_irrefl in Hin.
  - split; [done|]. intros [[= -> ->]|Hin]; [by rewrite cmp_refl in E|].
    rewrite Forall_fmap, Forall_forall in Hall. apply Hall in Hin. simpl in Hin.
    exfalso. eapply olt_antisym; eauto.
  - rewrite IH by done. split; [by right|]. intros [[= -> ->]|?]; [|done].
    by rewrite cmp_refl in E.
Qed.

Lemma bt_insert_keys m k v x : x ∈ (bt_insert m k v).*1 ↔ x = k ∨ x ∈ m.*1.
Proof.
  induction m as [|[k' v'] m IH]; simpl.
  { rewrite list_elem_of_singleton. split; [by left|]. intros [?|?%elem_of_nil]; done. }
  destruct (cmp k k') eqn:E; simpl; rewrite ?elem_of_cons, ?IH; [|naive_solver..].
  apply cmp_eq in E as ->. naive_solver.
Qed.

Lemma bt_insert_wf m k v : bt_wf m → bt_wf (bt_insert m k v).
Proof.
  induction m as [|[k' v'] m IH]; simpl.
  { intros _. apply bt_wf_cons. by split; [constructor|]. }
  intros Hw. pose proof Hw as Hw'. rewrite bt_wf_cons in Hw. destruct Hw as [Hm Hall].
  destruct (cmp k k') eqn:E.
  - apply cmp_eq in E as ->. by apply bt_wf_cons.
  - apply bt_wf_cons. split; [done|]. simpl. constructor; [done|].
    eapply Forall_impl; [exact Hall|]. intros x Hx. by eapply olt_trans.
  - apply bt_wf_cons. split; [by apply IH|].
    apply Forall_forall. intros x [->|Hx]%bt_insert_keys; [by apply cmp_gt|].
    by rewrite Forall_forall in Hall; apply Hall.
Qed.

Lemma bt_get_insert m k v k' :
  bt_wf m → bt_get (bt_insert m k v) k' = match cmp k' k with Eq => Some v | _ => bt_get m k' end.
Proof.
  induction m as [|[j w] m IH]; simpl.
  { intros _. by destruct (cmp k' k). }
  rewrite bt_wf_cons. intros [Hm Hall].
  destruct (cmp k j) eqn:E; simpl.
  - apply cmp_eq in E as ->. by destruct (cmp k' j).
  - destruct (cmp k' k) eqn:E'; try done.
    assert (cmp k' j = Lt) as -> by (by eapply olt_trans). done.
  - rewrite IH by done. destruct (cmp k' j) eqn:E'.
    + apply cmp_eq in E' as ->. by rewrite (cmp_opp k j), E.
    + destruct (cmp k' k) eqn:E''; try done.
      apply cmp_eq in E'' as ->. congruence.
    + done.
Qed.

Lemma bt_get_insert_eq m k v : bt_wf m → bt_get (bt_insert m k v) k = Some v.
Proof. intros. by rewrite bt_get_insert, cmp_refl. Qed.

Lemma bt_get_insert_ne m k v k' :
  bt_wf m → k ≠ k' → bt_get (bt_insert m k v) k' = bt_get m k'.
Proof.
  intros. rewrite bt_get_insert by done.
  destruct (cmp k' k) eqn:E; try done. by apply cmp_eq in E as ->.
Qed.

Lemma bt_remove_keys m k x : x ∈ (bt_remove m k).*1 → x ∈ m.*1.
Proof.
  induction m as [|[k' v'] m IH]; simpl; [done|].
  destruct (cmp k k'); simpl; rewrite ?elem_of_cons; naive_solver.
Qed.

Lemma bt_remove_wf m k : bt_wf m → bt_wf (bt_remove m k).
Proof.
  induction m as [|[k' v'] m IH]; simpl; [done|].
  intros Hw. pose proof Hw as Hw'. rewrite bt_wf_cons in Hw. destruct Hw as [Hm Hall].
  destruct (cmp k k'); [done|done|].
  apply bt_wf_cons. split; [by apply IH|].
  apply Forall_forall. intros x Hx%bt_remove_keys. by rewrite Forall_forall in Hall; apply Hall.
Qed.

Lemma bt_get_remove m k k' :
  bt_wf m → bt_get (bt_remove m k) k' = match cmp k' k with Eq => None | _ => bt_get m k' end.
Proof.
  induction m as [|[j w] m IH]; simpl.
  { intros _. by destruct (cmp k' k). }
  rewrite bt_wf_cons. intros [Hm Hall].
  destruct (cmp k j) eqn:E; simpl.
  - apply cmp_eq in E as ->. destruct (cmp k' j) eqn:E'; try done.
    + apply cmp_eq in E' as ->. by apply bt_get_below.
    + apply bt_get_below; [done|]. eapply Forall_impl; [exact Hall|].
      intros x Hx. by eapply olt_trans.
  - destruct (cmp k' k) eqn:E'; try done. apply cmp_eq in E' as ->. by rewrite E.
  - rewrite IH by done. destruct (cmp k' j) eqn:E'; try done.
    + apply cmp_eq in E' as ->. by rewrite (cmp_opp k j), E.
    + destruct (cmp k' k) eqn:E''; try done.
Qed.

Lemma bt_filter_wf (P : K * V → Prop) `{!∀ x, Decision (P x)} m :
  bt_wf m → bt_wf (filter P m).
Proof.
  induction m as [|[k v] m IH]; [done|].
  rewrite bt_wf_cons. intros [Hm Hall]. rewrite filter_cons.
  case_decide; [|by apply IH]. apply bt_wf_cons. split; [by apply IH|].
  rewrite Forall_fmap, Forall_forall in *. intros x Hx.
  apply Hall. by apply list_elem_of_filter in Hx as [_ Hx].
Qed.

(** An entry is in the answer of [range] iff it is in the map and within bounds. *)
Lemma bt_range_elem m r l k v :
  bt_range m r = Ret l → (k, v) ∈ l ↔ (k, v) ∈ m ∧ in_bounds r k = true.
Proof.
  unfold bt_range. destruct m as [|e m].
  { intros [= <-]. split; [by intros ?%elem_of_nil | by intros [?%elem_of_nil _]]. }
  destruct (bad_bounds r); [done|]. intros [= <-].
  rewrite list_elem_of_filter. simpl. tauto.
Qed.

Lemma bt_range_wf m r l : bt_wf m → bt_range m r = Ret l → bt_wf l.
Proof.
  unfold bt_range. destruct m as [|e m]; [by intros ? [= <-]|].
  destruct (bad_bounds r); [done|]. intros ? [= <-]. by apply bt_filter_wf.
Qed.

Lemma bt_range_ret m r : bad_bounds r = false → ∃ l, bt_range m r = Ret l.
Proof. intros Hr. unfold bt_range. destruct m; [eauto|]. rewrite Hr. eauto. Qed.

(** Two well-formed maps with the same lookups are the same list. *)
Lemma bt_ext m1 m2 :
  bt_wf m1 → bt_wf m2 → (∀ k, bt_get m1 k = bt_get m2 k) → m1 = m2.
Proof.
  revert m2. induction m1 as [|[k1 v1] m1 IH]; intros [|[k2 v2] m2] H1 H2 He; [done|..].
  - specialize (He k2). simpl in He. by rewrite cmp_refl in He.
  - specialize (He k1). simpl in He. by rewrite cmp_refl in He.
  - rewrite bt_wf_cons in H1, H2. destruct H1 as [H1 A1], H2 as [H2 A2].
    assert (k1 = k2) as <-.
    { pose proof (He k1) as E1. pose proof (He k2) as E2. simpl in E1, E2.
      rewrite cmp_refl in E1, E2. rewrite (cmp_opp k1 k2) in E2.
      destruct (cmp k1 k2) eqn:E; [by apply cmp_eq in E | done | done]. }
    pose proof (He k1) as E1. simpl in E1. rewrite cmp_refl in E1. injection E1 as ->.
    f_equal. apply IH; [done..|]. intros k. specialize (He k). simpl in He.
    destruct (cmp k k1) eqn:E; [| |done].
    + apply cmp_eq in E as ->. by rewrite !bt_get_below.
    + rewrite (bt_get_below m1), (bt_get_below m2); try done;
        (eapply Forall_impl; [eassumption|]; intros x Hx; by eapply olt_trans).
Qed.
End lemmas.

#[export] Hint Resolve bt_wf_nil bt_insert_wf bt_remove_wf : etcd.
