(* ===== verification/BlockDeque.v ===== *)
(** * The block deque (src/block_deque.rs)

    The concurrent, append-only array that maps a revision to its value: a vector
    of fixed-size blocks of optional slots, the offset of the first live index and
    the number of live elements. [push] is modelled as the two critical sections
    it has (the fast path under the read lock and the slow path under the write
    lock). The abstract deque is a start offset and the list of live elements;
    [dq_repr] relates the two, and every operation is shown to implement its
    abstract counterpart without panicking. *)
From S2P Require Import Prelude.

(** The [const BLOCK_SIZE: usize] parameter. *)
Class BlockSize := {
  BLOCK_SIZE : Z;
  BLOCK_SIZE_pos : 0 < BLOCK_SIZE;
}.

(** The instance of [Store::values_by_revision]. *)
Definition store_block_size : BlockSize := {| BLOCK_SIZE := 1048576; BLOCK_SIZE_pos := eq_refl |}.

Record BlockDeque (T : Type) := mkBlockDeque {
  blocks : list (list (option T));
  start_offset : Z;
  dq_length : Z;
}.
Arguments mkBlockDeque {T}.
Arguments blocks {T}.
Arguments start_offset {T}.
Arguments dq_length {T}.

Module Deque.
Section operations.
Context {T : Type} `{!BlockSize}.
Implicit Types d : BlockDeque T.

Definition new : BlockDeque T :=
  {| blocks := []; start_offset := 0; dq_length := 0 |}.

Definition len d : Z := dq_length d.

Definition earliest_revision d : Z := start_offset d.

Definition latest_revision d : Z := usize_add (dq_length d) (start_offset d).

Definition block_index_of (index start : Z) : Z :=
  usize_sub (index / BLOCK_SIZE) (start / BLOCK_SIZE).

(** [the_block[offset] = Some(value)] *)
Definition write_slot (bs : list (list (option T))) (block_index offset : Z) (value : T) :
    outcome (list (list (option T))) :=
  the_block ← index_or_panic bs (Z.to_nat block_index);
  _ ← index_or_panic the_block (Z.to_nat offset);
  Ret (<[Z.to_nat block_index := <[Z.to_nat offset := Some value]> the_block]> bs).

(** The section of [push] under the read lock: it reserves the index and, when the
    block exists, stores the value and returns ([inl index]); otherwise the index
    and its offset are carried to the slow path ([inr]). *)
Definition push_read d (value : T) : outcome (BlockDeque T * (Z + Z * Z)) :=
  let start := start_offset d in
  let index := usize_add (dq_length d) start in
  let d' := {| blocks := blocks d; start_offset := start; dq_length := usize_add (dq_length d) 1 |} in
  let block_index := block_index_of index start in
  let offset := index mod BLOCK_SIZE in
  if block_index <? Z.of_nat (length (blocks d)) then
    bs ← write_slot (blocks d) block_index offset value;
    Ret ({| blocks := bs; start_offset := start; dq_length := dq_length d' |}, inl index)
  else Ret (d', inr (index, offset)).

Definition empty_block : list (option T) := replicate (Z.to_nat BLOCK_SIZE) None.

(** [while block_index >= blocks.len() { blocks.push(empty block) }]; the fuel is
    the number of iterations, [block_index + 1 - blocks.len()]. *)
Fixpoint grow (fuel : nat) (block_index : Z) (bs : list (list (option T))) :
    list (list (option T)) :=
  match fuel with
  | O => bs
  | S fuel' =>
      if Z.of_nat (length bs) <=? block_index then grow fuel' block_index (bs ++ [empty_block])
      else bs
  end.

(** The section of [push] under the write lock. *)
Definition push_write d (index offset : Z) (value : T) : outcome (Z * BlockDeque T) :=
  let block_index := block_index_of index (start_offset d) in
  let fuel := Z.to_nat (block_index + 1 - Z.of_nat (length (blocks d))) in
  let bs := grow fuel block_index (blocks d) in
  bs' ← write_slot bs block_index offset value;
  Ret (index, {| blocks := bs'; start_offset := start_offset d; dq_length := dq_length d |}).

Definition push d (value : T) : outcome (Z * BlockDeque T) :=
  r ← push_read d value;
  match r with
  | (d', inl index) => Ret (index, d')
  | (d', inr (index, offset)) => push_write d' index offset value
  end.

Definition set d (index : Z) (value : T) : outcome (bool * BlockDeque T) :=
  let start := start_offset d in
  if usize_add (dq_length d) start <=? index then Ret (false, d)
  else if index <? start then Ret (false, d)
  else
    bs ← write_slot (blocks d) (block_index_of index start) (index mod BLOCK_SIZE) value;
    Ret (true, {| blocks := bs; start_offset := start; dq_length := dq_length d |}).

Definition get_with {R} d (index : Z) (f : option T → R) : outcome R :=
  let start := start_offset d in
  if usize_add (dq_length d) start <=? index then Ret (f None)
  else if index <? start then Ret (f None)
  else
    the_block ← index_or_panic (blocks d) (Z.to_nat (block_index_of index start));
    slot ← index_or_panic the_block (Z.to_nat (index mod BLOCK_SIZE));
    Ret (f slot).

(** [Err(())] is [None]. *)
Definition get d (index : Z) : outcome (option T) := get_with d index id.

(** [while i >= BLOCK_SIZE { blocks.remove(0); i -= BLOCK_SIZE; start_offset = 0 }] *)
Fixpoint remove_blocks (bs : list (list (option T))) (i start : Z) :
    outcome (list (list (option T)) * Z * Z) :=
  if BLOCK_SIZE <=? i then
    match bs with
    | [] => Panic "removal index (is 0) should be < len (is 0)"
    | _ :: bs' => remove_blocks bs' (i - BLOCK_SIZE) 0
    end
  else Ret (bs, i, start).

(** [the_block[from..to].fill(None)] *)
Definition fill_none (l : list (option T)) (from to : Z) : outcome (list (option T)) :=
  if (to <? from) || (Z.of_nat (length l) <? to) then Panic "slice index out of range"
  else Ret (take (Z.to_nat from) l ++ replicate (Z.to_nat (to - from)) None ++ drop (Z.to_nat to) l).

(** [if i > 0 { blocks.first_mut().unwrap()[start_offset % BLOCK_SIZE..i].fill(None) }] *)
Definition clear_first_block (bs : list (list (option T))) (i start : Z) :
    outcome (list (list (option T))) :=
  if 0 <? i then
    match bs with
    | [] => Panic "called `Option::unwrap()` on a `None` value"
    | b :: bs0 => b' ← fill_none b (start mod BLOCK_SIZE) i; Ret (b' :: bs0)
    end
  else Ret bs.

Definition remove_before d (idx : Z) : outcome (Result unit unit * BlockDeque T) :=
  let start := start_offset d in
  if usize_add start (dq_length d) <? idx then Ret (Err (), d)
  else if idx <? start then Ret (Err (), d)
  else
    let length' := usize_sub (dq_length d) (usize_sub idx start) in
    let i := usize_sub idx (usize_sub start (start mod BLOCK_SIZE)) in
    r ← remove_blocks (blocks d) i start;
    let '(bs, i', start') := r in
    bs' ← clear_first_block bs i' start';
    Ret (Ok (), {| blocks := bs'; start_offset := idx; dq_length := length' |}).

Definition clear d : BlockDeque T :=
  {| blocks := []; start_offset := 0; dq_length := 0 |}.
End operations.
End Deque.

(** ** The abstract deque *)

(** The live elements [l] and the padding of the last block: the blocks, read one
    after the other, are the emptied slots of the first block, the elements, and
    less than a block of unused slots. *)
Record dq_repr {T} `{!BlockSize} (d : BlockDeque T) (l : list T) : Prop := {
  dq_start_nonneg : 0 ≤ start_offset d;
  dq_bound : start_offset d + Z.of_nat (length l) ≤ i64_max;
  dq_length_eq : dq_length d = Z.of_nat (length l);
  dq_block_length : Forall (λ b, length b = Z.to_nat BLOCK_SIZE) (blocks d);
  dq_flat : ∃ pad, (pad < Z.to_nat BLOCK_SIZE)%nat ∧
    concat (blocks d) =
      replicate (Z.to_nat (start_offset d mod BLOCK_SIZE)) None ++ (Some <$> l) ++ replicate pad None;
}.

Module ADeque.
Section spec.
Context {T : Type}.

Record t := mk { first : Z; elems : list T }.

Definition new : t := mk 0 [].
Definition latest (a : t) : Z := first a + Z.of_nat (length (elems a)).
Definition push (a : t) (x : T) : Z * t := (latest a, mk (first a) (elems a ++ [x])).
Definition get (a : t) (i : Z) : option T :=
  if i <? first a then None else elems a !! Z.to_nat (i - first a).
Definition set (a : t) (i : Z) (x : T) : bool * t :=
  if (i <? first a) || (latest a <=? i) then (false, a)
  else (true, mk (first a) (<[Z.to_nat (i - first a) := x]> (elems a))).
Definition remove_before (a : t) (i : Z) : Result unit unit * t :=
  if (i <? first a) || (latest a <? i) then (Err (), a)
  else (Ok (), mk i (drop (Z.to_nat (i - first a)) (elems a))).
Definition clear (a : t) : t := mk 0 [].
End spec.
Arguments t : clear implicits.
End ADeque.

(** ** Lists of equal-sized blocks *)

Lemma concat_lookup_block {A} (n : nat) (bs : list (list A)) q r :
  Forall (λ b, length b = n) bs → (r < n)%nat →
  concat bs !! (q * n + r)%nat = (bs !! q) ≫= (λ b, b !! r).
Proof.
  intros Hb Hr. revert q. induction Hb as [|b bs Hlen Hb IH]; intros q; simpl.
  - by rewrite !lookup_nil.
  - destruct q as [|q]; simpl.
    + by rewrite lookup_app_l by lia.
    + rewrite lookup_app_r by lia. rewrite <- IH. f_equal. lia.
Qed.

Lemma concat_insert_block {A} (n : nat) (bs : list (list A)) q r b x :
  Forall (λ b, length b = n) bs → (r < n)%nat → bs !! q = Some b →
  concat (<[q := <[r := x]> b]> bs) = <[(q * n + r)%nat := x]> (concat bs).
Proof.
  intros Hb Hr. revert q. induction Hb as [|b' bs Hlen Hb IH]; intros q; simpl; [done|].
  destruct q as [|q]; simpl.
  - intros [= <-]. by rewrite insert_app_l by lia.
  - intros Hq. rewrite IH by done.
    rewrite insert_app_r_alt by lia. do 2 f_equal. lia.
Qed.

Lemma concat_length_block {A} (n : nat) (bs : list (list A)) :
  Forall (λ b, length b = n) bs → length (concat bs) = (length bs * n)%nat.
Proof. induction 1 as [|b bs Hlen Hb IH]; simpl; [done|]. rewrite length_app. lia. Qed.

(** ** Index arithmetic *)

Section arithmetic.
Context `{!BlockSize}.

Lemma block_div_mod i :
  i = BLOCK_SIZE * (i / BLOCK_SIZE) + i mod BLOCK_SIZE ∧ 0 ≤ i mod BLOCK_SIZE < BLOCK_SIZE.
Proof.
  pose proof BLOCK_SIZE_pos as HB. split; [apply Z.div_mod; lia | by apply Z.mod_pos_bound].
Qed.

Lemma block_index_of_eq index start :
  0 ≤ start ≤ index → index ≤ i64_max →
  Deque.block_index_of index start = index / BLOCK_SIZE - start / BLOCK_SIZE.
Proof.
  intros ??. pose proof BLOCK_SIZE_pos.
  assert (0 ≤ start / BLOCK_SIZE) by (apply Z.div_pos; lia).
  assert (start / BLOCK_SIZE ≤ index / BLOCK_SIZE) by (apply Z.div_le_mono; lia).
  assert (index / BLOCK_SIZE ≤ index).
  { transitivity (index / 1); [|by rewrite Z.div_1_r].
    apply Z.div_le_compat_l; lia. }
  apply usize_sub_id. width.
Qed.

(** The position of an index in the concatenated blocks. *)
Lemma flat_position index start :
  0 ≤ start ≤ index → index ≤ i64_max →
  (Z.to_nat (Deque.block_index_of index start) * Z.to_nat BLOCK_SIZE
     + Z.to_nat (index mod BLOCK_SIZE))%nat
  = (Z.to_nat (start mod BLOCK_SIZE) + Z.to_nat (index - start))%nat.
Proof.
  intros Hs Hi. pose proof BLOCK_SIZE_pos as HB.
  rewrite block_index_of_eq by done.
  destruct (block_div_mod index) as [? ?], (block_div_mod start) as [? ?].
  assert (start / BLOCK_SIZE ≤ index / BLOCK_SIZE) by (apply Z.div_le_mono; lia).
  rewrite <- Z2Nat.inj_mul, <- !Z2Nat.inj_add by nia. f_equal. nia.
Qed.

Lemma offset_lt index : (Z.to_nat (index mod BLOCK_SIZE) < Z.to_nat BLOCK_SIZE)%nat.
Proof.
  destruct (block_div_mod index). lia.
Qed.
End arithmetic.

(** ** The slots *)

Section slots.
Context {T : Type} `{!BlockSize}.
Implicit Types (bs : list (list (option T))) (d : BlockDeque T) (l : list T).

Definition sized bs : Prop := Forall (λ b, length b = Z.to_nat BLOCK_SIZE) bs.

Lemma write_slot_spec bs bi off v :
  sized bs → (Z.to_nat off < Z.to_nat BLOCK_SIZE)%nat →
  (Z.to_nat bi * Z.to_nat BLOCK_SIZE + Z.to_nat off < length (concat bs))%nat →
  ∃ bs', Deque.write_slot bs bi off v = Ret bs' ∧ sized bs' ∧
    concat bs' = <[(Z.to_nat bi * Z.to_nat BLOCK_SIZE + Z.to_nat off)%nat := Some v]> (concat bs).
Proof.
  intros Hs Hoff Hlt. rewrite (concat_length_block _ _ Hs) in Hlt.
  assert (Z.to_nat bi < length bs)%nat as Hbi by nia.
  apply lookup_lt_is_Some in Hbi as [b Hb].
  assert (length b = Z.to_nat BLOCK_SIZE) as Hlb by (by eapply (Forall_lookup_1 _ _ _ _ Hs)).
  destruct (lookup_lt_is_Some_2 b (Z.to_nat off)) as [o Ho]; [lia|].
  unfold Deque.write_slot. rewrite (index_or_panic_ret _ _ _ Hb), bind_ret.
  rewrite (index_or_panic_ret _ _ _ Ho), bind_ret.
  eexists. split; [done|]. split.
  - apply Forall_insert; [done|]. by rewrite length_insert.
  - by apply concat_insert_block.
Qed.

(** Reading a slot is reading the concatenated blocks. *)
Lemma slot_lookup bs bi off :
  sized bs → (Z.to_nat off < Z.to_nat BLOCK_SIZE)%nat →
  (Z.to_nat bi * Z.to_nat BLOCK_SIZE + Z.to_nat off < length (concat bs))%nat →
  ∃ b s, bs !! Z.to_nat bi = Some b ∧ b !! Z.to_nat off = Some s ∧
    concat bs !! (Z.to_nat bi * Z.to_nat BLOCK_SIZE + Z.to_nat off)%nat = Some s.
Proof.
  intros Hs Hoff Hlt. destruct (lookup_lt_is_Some_2 _ _ Hlt) as [s Hcs].
  pose proof Hcs as Hb. rewrite concat_lookup_block in Hb by done.
  apply bind_Some in Hb as (b & ? & ?). eauto.
Qed.

Lemma dq_repr_latest d l :
  dq_repr d l → Deque.latest_revision d = start_offset d + Z.of_nat (length l).
Proof.
  intros [? Hb Hl ? ?]. unfold Deque.latest_revision. rewrite Hl, usize_add_id; width.
Qed.

Lemma dq_repr_concat_length d l :
  dq_repr d l →
  (Z.to_nat (start_offset d mod BLOCK_SIZE) + length l ≤ length (concat (blocks d)))%nat.
Proof.
  intros [? ? ? ? (pad & _ & ->)]. rewrite !length_app, length_fmap, !length_replicate. lia.
Qed.

Lemma dq_repr_new : dq_repr (T:=T) Deque.new [].
Proof.
  pose proof BLOCK_SIZE_pos.
  split; simpl; [lia|width|done|constructor|]. exists 0%nat. split; [lia|done].
Qed.

Lemma insert_middle {A} (x y z : list A) i a :
  (i < length y)%nat → <[(length x + i)%nat := a]> (x ++ y ++ z) = x ++ <[i := a]> y ++ z.
Proof.
  intros. rewrite insert_app_r. f_equal. by rewrite insert_app_l.
Qed.

Lemma sized_app_empty bs : sized bs → sized (bs ++ [Deque.empty_block]).
Proof.
  intros. apply Forall_app; split; [done|]. constructor; [|done].
  apply length_replicate.
Qed.

(** Storing into the first unused slot appends an element. *)
Lemma flat_append n l pad v :
  <[(n + length l)%nat := Some v]>
    (replicate n None ++ (Some <$> l) ++ replicate (S pad) None)
  = replicate n None ++ (Some <$> (l ++ [v])) ++ replicate pad (None : option T).
Proof.
  replace (n + length l)%nat with (length (replicate n (None : option T)) + length l)%nat
    by (by rewrite length_replicate).
  rewrite insert_app_r. f_equal.
  replace (length l) with (length (Some <$> l) + 0)%nat by (rewrite length_fmap; lia).
  rewrite insert_app_r, fmap_app, <- app_assoc. done.
Qed.

Lemma dq_push d l v :
  dq_repr d l → Deque.latest_revision d < i64_max →
  ∃ d', Deque.push d v = Ret (Deque.latest_revision d, d') ∧
    dq_repr d' (l ++ [v]) ∧ start_offset d' = start_offset d.
Proof.
  intros Hr. pose proof (dq_repr_latest _ _ Hr) as Hlat. rewrite Hlat. intros Hlt.
  destruct Hr as [Hs Hb Hl Hsz (pad & Hpad & Hflat)].
  set (start := start_offset d) in *. set (index := start + Z.of_nat (length l)) in *.
  assert (usize_add (dq_length d) start = index) as Hidx
    by (rewrite Hl, usize_add_id; width).
  assert (usize_add (dq_length d) 1 = Z.of_nat (length (l ++ [v]))) as Hlen'.
  { rewrite Hl, usize_add_id, length_app; simpl; width. }
  pose proof (flat_position index start ltac:(lia) ltac:(lia)) as Hpos.
  replace (index - start) with (Z.of_nat (length l)) in Hpos by lia.
  rewrite Nat2Z.id in Hpos.
  pose proof (offset_lt index) as Hoff.
  pose proof (f_equal length Hflat) as Hcl.
  rewrite !length_app, length_fmap, !length_replicate in Hcl.
  pose proof (concat_length_block _ _ Hsz) as Hcl'.
  unfold Deque.push, Deque.push_read. fold start. rewrite Hidx.
  set (bi := Deque.block_index_of index start) in *.
  set (off := index mod BLOCK_SIZE) in *.
  assert (0 ≤ bi) as Hbi0 by apply as_usize_range.
  destruct (bi <? Z.of_nat (length (blocks d))) eqn:Hfast.
  - apply Z.ltb_lt in Hfast.
    destruct pad as [|pad]; [exfalso; nia|].
    destruct (write_slot_spec (blocks d) bi off v Hsz) as (bs' & -> & Hsz' & Hc); [done|lia|].
    rewrite !bind_ret. eexists. split; [done|]. split; [|done].
    split; simpl; [done|rewrite length_app; simpl; lia|done|done|].
    exists pad. split; [lia|]. rewrite Hc, Hflat, Hpos. apply flat_append.
  - apply Z.ltb_ge in Hfast. rewrite !bind_ret. unfold Deque.push_write. simpl. fold start bi.
    assert (pad = 0)%nat as -> by nia.
    assert (bi = Z.of_nat (length (blocks d))) as Hbi by nia.
    replace (Z.to_nat (bi + 1 - Z.of_nat (length (blocks d)))) with 1%nat by lia.
    simpl. rewrite (proj2 (Z.leb_le _ _)) by lia.
    destruct (write_slot_spec (blocks d ++ [Deque.empty_block]) bi off v) as (bs' & -> & Hsz' & Hc);
      [by apply sized_app_empty|done| |].
    { rewrite concat_app, length_app, concat_length_block with (n := Z.to_nat BLOCK_SIZE) by done.
      simpl. rewrite app_nil_r. unfold Deque.empty_block. rewrite length_replicate. nia. }
    rewrite !bind_ret. eexists. split; [done|]. split; [|done].
    split; simpl; [done|rewrite length_app; simpl; lia|done|done|].
    exists (Z.to_nat BLOCK_SIZE - 1)%nat. split; [lia|].
    rewrite Hc, Hpos, concat_app, Hflat. simpl. rewrite !app_nil_r.
    unfold Deque.empty_block.
    destruct (Z.to_nat BLOCK_SIZE) as [|n] eqn:EB; [lia|].
    rewrite <- app_assoc, flat_append. do 3 f_equal. lia.
Qed.

(** The index tests of [get_with] and [set], resolved by the abstract bounds. *)
Lemma dq_get_with {R} d l i (f : option T → R) :
  dq_repr d l →
  Deque.get_with d i f = Ret (f (ADeque.get (ADeque.mk (start_offset d) l) i)).
Proof.
  intros Hr. pose proof (dq_repr_latest _ _ Hr) as Hlat. unfold Deque.latest_revision in Hlat.
  pose proof (dq_repr_concat_length _ _ Hr) as Hcl.
  destruct Hr as [Hs Hb Hl Hsz (pad & Hpad & Hflat)].
  unfold Deque.get_with, ADeque.get. rewrite Hlat. simpl.
  destruct (_ <=? i) eqn:E1.
  { apply Z.leb_le in E1. rewrite (proj2 (Z.ltb_ge _ _)) by lia.
    by rewrite lookup_ge_None_2 by lia. }
  destruct (i <? start_offset d) eqn:E2; [done|].
  apply Z.leb_gt in E1. apply Z.ltb_ge in E2.
  pose proof (flat_position i (start_offset d) ltac:(lia) ltac:(lia)) as Hpos.
  destruct (slot_lookup (blocks d) (Deque.block_index_of i (start_offset d)) (i mod BLOCK_SIZE))
    as (b & o & Hb1 & Ho & Hc); [done|apply offset_lt|lia|].
  rewrite (index_or_panic_ret _ _ _ Hb1), bind_ret.
  rewrite (index_or_panic_ret _ _ _ Ho), bind_ret.
  rewrite Hpos, Hflat, lookup_app_r in Hc by (rewrite length_replicate; lia).
  rewrite length_replicate, lookup_app_l in Hc by (rewrite length_fmap; lia).
  rewrite list_lookup_fmap in Hc.
  replace (_ + _ - _)%nat with (Z.to_nat (i - start_offset d)) in Hc by lia.
  destruct (l !! _) as [x|] eqn:Hx; simpl in Hc; [by injection Hc as <-|done].
Qed.

Lemma dq_get d l i :
  dq_repr d l → Deque.get d i = Ret (ADeque.get (ADeque.mk (start_offset d) l) i).
Proof. intros. unfold Deque.get. by rewrite (dq_get_with _ l). Qed.

Lemma dq_set_in d l i v :
  dq_repr d l → start_offset d ≤ i < Deque.latest_revision d →
  ∃ d', Deque.set d i v = Ret (true, d') ∧
    dq_repr d' (<[Z.to_nat (i - start_offset d) := v]> l) ∧ start_offset d' = start_offset d.
Proof.
  intros Hr. pose proof (dq_repr_latest _ _ Hr) as Hlat. rewrite Hlat. intros Hi.
  unfold Deque.latest_revision in Hlat.
  pose proof (dq_repr_concat_length _ _ Hr) as Hcl.
  destruct Hr as [Hs Hb Hl Hsz (pad & Hpad & Hflat)].
  pose proof (flat_position i (start_offset d) ltac:(lia) ltac:(lia)) as Hpos.
  unfold Deque.set. rewrite Hlat, (proj2 (Z.leb_gt _ _)), (proj2 (Z.ltb_ge _ _)) by lia.
  destruct (write_slot_spec (blocks d) (Deque.block_index_of i (start_offset d))
    (i mod BLOCK_SIZE) v Hsz) as (bs' & -> & Hsz' & Hc); [apply offset_lt|lia|].
  rewrite bind_ret. eexists. split; [done|]. split; [|done].
  split; simpl; [done|by rewrite length_insert|by rewrite length_insert|done|].
  exists pad. split; [done|]. rewrite Hc, Hpos, Hflat, list_fmap_insert.
  set (n := Z.to_nat (start_offset d mod BLOCK_SIZE)).
  replace (n + Z.to_nat (i - start_offset d))%nat
    with (length (replicate n (None : option T)) + Z.to_nat (i - start_offset d))%nat
    by (by rewrite length_replicate).
  apply insert_middle. rewrite length_fmap. lia.
Qed.

Lemma dq_set_out d l i v :
  dq_repr d l → i < start_offset d ∨ Deque.latest_revision d ≤ i → Deque.set d i v = Ret (false, d).
Proof.
  intros Hr Hi. unfold Deque.set. fold (Deque.latest_revision d).
  destruct (_ <=? i) eqn:E; [done|]. apply Z.leb_gt in E.
  by rewrite (proj2 (Z.ltb_lt _ _)) by lia.
Qed.

(** The loop of [remove_before] drops [i / BLOCK_SIZE] blocks. *)
Lemma remove_blocks_spec bs i start :
  sized bs → 0 ≤ i → (Z.to_nat i ≤ length (concat bs))%nat →
  ∃ bs', Deque.remove_blocks bs i start =
      Ret (bs', i mod BLOCK_SIZE, if i <? BLOCK_SIZE then start else 0) ∧
    sized bs' ∧ drop (Z.to_nat (i mod BLOCK_SIZE)) (concat bs') = drop (Z.to_nat i) (concat bs) ∧
    (i < BLOCK_SIZE → bs' = bs).
Proof.
  pose proof BLOCK_SIZE_pos as HB.
  revert i start. induction bs as [|b bs IH]; intros i start Hsz Hi Hle; simpl.
  - simpl in Hle. assert (i = 0) as -> by lia. rewrite (proj2 (Z.leb_gt _ _)) by lia.
    rewrite (proj2 (Z.ltb_lt _ _)), Z.mod_0_l by lia. eauto.
  - destruct (BLOCK_SIZE <=? i) eqn:E.
    + apply Z.leb_le in E. inversion Hsz as [|?? Hb Hbs]; subst.
      simpl in Hle. rewrite length_app in Hle.
      destruct (IH (i - BLOCK_SIZE) 0) as (bs' & -> & Hs' & Hd & _); [done|lia|lia|].
      assert ((i - BLOCK_SIZE) mod BLOCK_SIZE = i mod BLOCK_SIZE) as Hm.
      { rewrite <- (Z.mod_add (i - BLOCK_SIZE) 1 BLOCK_SIZE) by lia. f_equal. lia. }
      rewrite Hm in *. exists bs'.
      rewrite (proj2 (Z.ltb_ge i BLOCK_SIZE)) by lia.
      destruct (i - BLOCK_SIZE <? BLOCK_SIZE);
        (split; [done|]; split; [done|]; split; [|lia];
         rewrite Hd, drop_app_ge by lia; f_equal; lia).
    + apply Z.leb_gt in E. exists (b :: bs).
      rewrite (proj2 (Z.ltb_lt _ _)), (Z.mod_small i) by lia. done.
Qed.

Lemma fill_none_front (b : list (option T)) from to :
  0 ≤ from ≤ to → (Z.to_nat to ≤ length b)%nat →
  take (Z.to_nat from) b = replicate (Z.to_nat from) None →
  Deque.fill_none b from to = Ret (replicate (Z.to_nat to) None ++ drop (Z.to_nat to) b).
Proof.
  intros Hf Ht Htake. unfold Deque.fill_none.
  rewrite (proj2 (Z.ltb_ge _ _)), (proj2 (Z.ltb_ge _ _)) by lia. simpl.
  rewrite Htake, app_assoc, <- replicate_add. do 3 f_equal. lia.
Qed.

Lemma clear_first_block_spec bs i start :
  sized bs → 0 ≤ i < BLOCK_SIZE → (0 < i → bs ≠ []) → 0 ≤ start mod BLOCK_SIZE ≤ i →
  take (Z.to_nat (start mod BLOCK_SIZE)) (concat bs)
    = replicate (Z.to_nat (start mod BLOCK_SIZE)) None →
  ∃ bs', Deque.clear_first_block bs i start = Ret bs' ∧ sized bs' ∧
    concat bs' = replicate (Z.to_nat i) None ++ drop (Z.to_nat i) (concat bs).
Proof.
  intros Hsz Hi Hne Hstart Htake. unfold Deque.clear_first_block.
  destruct (0 <? i) eqn:Ei.
  2: { apply Z.ltb_ge in Ei. exists bs. by replace i with 0 by lia. }
  apply Z.ltb_lt in Ei. destruct bs as [|b bs0]; [by destruct (Hne Ei)|].
  inversion Hsz as [|?? Hlb Hbs0]; subst. simpl in Htake. rewrite take_app_le in Htake by lia.
  rewrite fill_none_front by (done || lia). rewrite bind_ret.
  eexists. split; [done|]. split.
  - constructor; [|done]. rewrite length_app, length_replicate, length_drop. lia.
  - simpl. rewrite drop_app_le by lia. by rewrite app_assoc.
Qed.

(** What remains of the concatenated blocks once [idx - start] elements are dropped. *)
Lemma dq_flat_drop d l pad idx :
  concat (blocks d) = replicate (Z.to_nat (start_offset d mod BLOCK_SIZE)) None
    ++ (Some <$> l) ++ replicate pad None →
  start_offset d ≤ idx ≤ start_offset d + Z.of_nat (length l) →
  drop (Z.to_nat (start_offset d mod BLOCK_SIZE + (idx - start_offset d))) (concat (blocks d))
  = (Some <$> drop (Z.to_nat (idx - start_offset d)) l) ++ replicate pad None.
Proof.
  intros Hflat Hi. destruct (block_div_mod (start_offset d)) as [_ Hmod].
  rewrite Z2Nat.inj_add, Hflat, <- drop_drop by lia.
  rewrite drop_app_length', drop_app_le by (rewrite ?length_fmap, ?length_replicate; lia).
  by rewrite fmap_drop.
Qed.

Lemma dq_remove_before_in d l idx :
  dq_repr d l → start_offset d ≤ idx ≤ Deque.latest_revision d →
  ∃ d', Deque.remove_before d idx = Ret (Ok (), d') ∧
    dq_repr d' (drop (Z.to_nat (idx - start_offset d)) l) ∧ start_offset d' = idx.
Proof.
  intros Hr. rewrite (dq_repr_latest _ _ Hr). intros Hi.
  destruct Hr as [Hs Hb Hl Hsz (pad & Hpad & Hflat)].
  pose proof (dq_flat_drop _ _ _ _ Hflat Hi) as Hdrop.
  set (start := start_offset d) in *. set (n := Z.to_nat (idx - start)) in *.
  destruct (block_div_mod start) as [Hdm Hmod], (block_div_mod idx) as [Hdm' Hmod'].
  pose proof BLOCK_SIZE_pos as HB.
  assert (0 ≤ start / BLOCK_SIZE) by (apply Z.div_pos; lia).
  unfold Deque.remove_before. fold start. rewrite Hl.
  rewrite (usize_add_id start) by width.
  rewrite (proj2 (Z.ltb_ge _ _)), (proj2 (Z.ltb_ge idx start)) by lia.
  rewrite (usize_sub_id idx start), (usize_sub_id start), (usize_sub_id idx) by (width_unfold; nia).
  rewrite usize_sub_id by width.
  replace (idx - (start - start mod BLOCK_SIZE)) with (start mod BLOCK_SIZE + (idx - start)) by lia.
  set (i := start mod BLOCK_SIZE + (idx - start)) in *.
  assert (i mod BLOCK_SIZE = idx mod BLOCK_SIZE) as Him.
  { replace i with (idx + (- (start / BLOCK_SIZE)) * BLOCK_SIZE) by nia. by apply Z.mod_add; lia. }
  destruct (remove_blocks_spec (blocks d) i start Hsz) as (bs & -> & Hbs & Hd & Hno).
  { lia. } { rewrite Hflat, !length_app, length_fmap, !length_replicate. lia. }
  rewrite Him, Hdrop in Hd. rewrite bind_ret, Him.
  destruct (clear_first_block_spec bs (idx mod BLOCK_SIZE) (if i <? BLOCK_SIZE then start else 0))
    as (bs' & -> & Hsz' & Hc); [done|done|..].
  - (* a partly emptied block is still there *)
    intros Hpos ->. simpl in Hd. rewrite drop_nil in Hd.
    apply (f_equal length) in Hdrop. rewrite <- Hd, length_drop in Hdrop. simpl in Hdrop.
    assert (Z.to_nat i = length (concat (blocks d))) as Hlen.
    { rewrite Hflat, !length_app, length_fmap, !length_replicate in Hdrop |- *. lia. }
    rewrite (concat_length_block _ _ Hsz) in Hlen.
    assert (i = Z.of_nat (length (blocks d)) * BLOCK_SIZE) as Heq by nia.
    rewrite Heq, Z.mod_mul in Him by lia. lia.
  - destruct (i <? BLOCK_SIZE) eqn:E; [|rewrite Z.mod_0_l; lia].
    apply Z.ltb_lt in E. rewrite Z.mod_small in Him by lia. lia.
  - destruct (i <? BLOCK_SIZE) eqn:E; [|by rewrite Z.mod_0_l by lia].
    apply Z.ltb_lt in E. rewrite (Hno E), Hflat.
    by rewrite take_app_length' by (by rewrite length_replicate).
  - rewrite bind_ret. eexists. split; [done|]. split; [|done].
    split; simpl; [lia|rewrite length_drop; lia|rewrite length_drop; lia|done|].
    exists pad. split; [done|]. by rewrite Hc, Hd.
Qed.

Lemma dq_remove_before_out d l idx :
  dq_repr d l → idx < start_offset d ∨ Deque.latest_revision d < idx →
  Deque.remove_before d idx = Ret (Err (), d).
Proof.
  intros Hr Hi. unfold Deque.remove_before.
  replace (usize_add (start_offset d) (dq_length d)) with (Deque.latest_revision d)
    by (unfold Deque.latest_revision, usize_add; f_equal; lia).
  destruct (_ <? idx) eqn:E; [done|]. apply Z.ltb_ge in E.
  by rewrite (proj2 (Z.ltb_lt _ _)) by lia.
Qed.
End slots.

#[export] Hint Resolve dq_repr_new : etcd.

(** ** Sequences of operations *)

Module DequeTrace.
Section trace.
Context {T : Type} `{!BlockSize}.

Inductive op :=
| OpPush (v : T)
| OpSet (i : Z) (v : T)
| OpGet (i : Z)
| OpRemoveBefore (i : Z)
| OpClear.

Inductive reply :=
| RIndex (i : Z)
| RBool (b : bool)
| RValue (o : option T)
| RStatus (r : Result unit unit)
| RUnit.

Definition step (d : BlockDeque T) (o : op) : outcome (reply * BlockDeque T) :=
  match o with
  | OpPush v => r ← Deque.push d v; Ret (RIndex r.1, r.2)
  | OpSet i v => r ← Deque.set d i v; Ret (RBool r.1, r.2)
  | OpGet i => r ← Deque.get d i; Ret (RValue r, d)
  | OpRemoveBefore i => r ← Deque.remove_before d i; Ret (RStatus r.1, r.2)
  | OpClear => Ret (RUnit, Deque.clear d)
  end.

Definition spec_step (a : ADeque.t T) (o : op) : reply * ADeque.t T :=
  match o with
  | OpPush v => let r := ADeque.push a v in (RIndex r.1, r.2)
  | OpSet i v => let r := ADeque.set a i v in (RBool r.1, r.2)
  | OpGet i => (RValue (ADeque.get a i), a)
  | OpRemoveBefore i => let r := ADeque.remove_before a i in (RStatus r.1, r.2)
  | OpClear => (RUnit, ADeque.clear a)
  end.

Fixpoint run (d : BlockDeque T) (ops : list op) : outcome (list reply * BlockDeque T) :=
  match ops with
  | [] => Ret ([], d)
  | o :: ops' =>
      r ← step d o;
      rest ← run r.2 ops';
      Ret (r.1 :: rest.1, rest.2)
  end.

Fixpoint spec_run (a : ADeque.t T) (ops : list op) : list reply * ADeque.t T :=
  match ops with
  | [] => ([], a)
  | o :: ops' =>
      let r := spec_step a o in
      let rest := spec_run r.2 ops' in
      (r.1 :: rest.1, rest.2)
  end.

(** The abstract deque a concrete one represents. *)
Definition implements (d : BlockDeque T) (a : ADeque.t T) : Prop :=
  dq_repr d (ADeque.elems a) ∧ start_offset d = ADeque.first a.

Lemma dq_step_implements d a o :
  implements d a → ADeque.latest a < i64_max →
  ∃ d', step d o = Ret ((spec_step a o).1, d') ∧ implements d' (spec_step a o).2.
Proof.
  intros [Hr Hs] Hlt. destruct a as [st l]; simpl in *.
  pose proof (dq_repr_latest _ _ Hr) as Hlat. rewrite Hs in Hlat.
  unfold ADeque.latest in *; simpl in *. destruct o as [v|i v|i|i|]; simpl.
  - destruct (dq_push d l v Hr) as (d' & -> & Hr' & Hs'); [lia|].
    rewrite bind_ret, Hlat. exists d'. split; [done|]. split; cbn; [done|congruence].
  - unfold ADeque.set, ADeque.latest; simpl.
    destruct (_ || _) eqn:E.
    + rewrite (dq_set_out d l) by (done || lia). rewrite bind_ret. by exists d.
    + bool_cases. destruct (dq_set_in d l i v Hr) as (d' & -> & Hr' & Hs'); [lia|].
      rewrite bind_ret. exists d'. rewrite Hs in Hr'. split; [done|]. split; cbn; [done|congruence].
  - rewrite (dq_get d l) by done. rewrite bind_ret, Hs. by exists d.
  - unfold ADeque.remove_before, ADeque.latest; simpl.
    destruct (_ || _) eqn:E.
    + rewrite (dq_remove_before_out d l) by (done || lia). rewrite bind_ret. by exists d.
    + bool_cases. destruct (dq_remove_before_in d l i Hr) as (d' & -> & Hr' & Hs'); [lia|].
      rewrite bind_ret. exists d'. rewrite Hs in Hr'. split; [done|]. by split.
  - exists (Deque.clear d). split; [done|]. split; [apply dq_repr_new|done].
Qed.

Lemma spec_step_latest (a : ADeque.t T) o :
  0 ≤ ADeque.first a →
  0 ≤ ADeque.first (spec_step a o).2 ∧ ADeque.latest (spec_step a o).2 ≤ ADeque.latest a + 1.
Proof.
  destruct a as [st l]. unfold ADeque.latest. simpl. intros Hst.
  destruct o as [v|i v|i|i|]; simpl; [rewrite length_app; simpl; lia| | lia | | lia].
  - unfold ADeque.set. destruct (_ || _); simpl; [lia|]. rewrite length_insert. lia.
  - unfold ADeque.remove_before. destruct (_ || _) eqn:E; simpl; [lia|].
    unfold ADeque.latest in E; simpl in E. bool_cases. rewrite length_drop. lia.
Qed.

Lemma dq_run_implements ops d a :
  implements d a → ADeque.latest a + Z.of_nat (length ops) ≤ i64_max →
  ∃ d', run d ops = Ret ((spec_run a ops).1, d') ∧ implements d' (spec_run a ops).2.
Proof.
  revert d a. induction ops as [|o ops IH]; intros d a Hi Hb; simpl; [by exists d|].
  simpl in Hb.
  destruct (dq_step_implements d a o Hi) as (d1 & -> & Hi1); [lia|]. rewrite bind_ret; simpl.
  destruct Hi as [Hr Hs].
  destruct (spec_step_latest a o) as [_ Hle]; [rewrite <- Hs; apply Hr|].
  destruct (IH d1 _ Hi1) as (d2 & -> & Hi2); [lia|]. by exists d2.
Qed.
End trace.
Arguments op : clear implicits.
Arguments reply : clear implicits.
End DequeTrace.

(** ** Properties *)

(** C23: the block deque implements the abstract deque. Whatever sequence of [push],
    [set], [get], [remove_before] and [clear] is run on a new deque, for every block
    size, no call panics and every reply is the one of the abstract deque (a start
    offset and a list), as long as fewer than 2^63 operations are run. *)
Theorem deque_refines_list {T} `{!BlockSize} (ops : list (DequeTrace.op T)) :
  Z.of_nat (length ops) ≤ i64_max →
  ∃ d, DequeTrace.run Deque.new ops = Ret ((DequeTrace.spec_run ADeque.new ops).1, d) ∧
    DequeTrace.implements d (DequeTrace.spec_run ADeque.new ops).2.
Proof.
  intros Hlen. apply DequeTrace.dq_run_implements; [split; [apply dq_repr_new | done]|].
  exact Hlen.
Qed.

Definition block_size_2 : BlockSize := {| BLOCK_SIZE := 2; BLOCK_SIZE_pos := eq_refl |}.

Lemma deque_refines_list_witness :
  ∃ d, DequeTrace.run (H:=block_size_2) Deque.new
         [DequeTrace.OpPush 10; DequeTrace.OpPush 11; DequeTrace.OpPush 12;
          DequeTrace.OpRemoveBefore 1; DequeTrace.OpGet 0; DequeTrace.OpSet 2 13; DequeTrace.OpGet 2]
       = Ret ([DequeTrace.RIndex 0; DequeTrace.RIndex 1; DequeTrace.RIndex 2;
               DequeTrace.RStatus (Ok ()); DequeTrace.RValue None; DequeTrace.RBool true;
               DequeTrace.RValue (Some 13)], d).
Proof.
  destruct (@deque_refines_list Z block_size_2
    [DequeTrace.OpPush 10; DequeTrace.OpPush 11; DequeTrace.OpPush 12;
     DequeTrace.OpRemoveBefore 1; DequeTrace.OpGet 0; DequeTrace.OpSet 2 13; DequeTrace.OpGet 2])
    as (d & Hd & _); [vm_compute; discriminate|].
  exists d. exact Hd.
Defined.
