(* ===== verification/DequeThreads.v ===== *)
(** * The block deque between threads (src/block_deque.rs)

    [push], [set], [get_with], [remove_before], [clear] and [latest_revision] as threads run them: one
    step per atomic access, with the read and the write side of the lock on the blocks. The
    fast path of [push] and [set] write their slots through raw pointers under the read lock
    only; the comments there give the reason why that is safe, and the theorems here check it. *)
From stdpp Require Import relations.
From S2P Require Import Prelude BlockDeque.

(** ** Deques with slots that are not stored yet *)

Section slots.
Context {T : Type} `{!BlockSize}.
Implicit Types (d : BlockDeque T) (m : gmap Z T).

(** The index of the first slot of the first block. *)
Definition base d : Z := start_offset d - start_offset d mod BLOCK_SIZE.

Definition allocated d : Z := base d + Z.of_nat (length (concat (blocks d))).

(** The blocks hold the values of [m] at their indexes and nothing else. *)
Record slots_at d m : Prop := {
  sa_start : 0 ≤ start_offset d;
  sa_sized : sized (blocks d);
  sa_stored : ∀ i v, m !! i = Some v → start_offset d ≤ i < allocated d;
  sa_flat : ∀ j, (j < length (concat (blocks d)))%nat →
    concat (blocks d) !! j = Some (m !! (base d + Z.of_nat j));
}.

Definition with_blocks d bs : BlockDeque T :=
  {| blocks := bs; start_offset := start_offset d; dq_length := dq_length d |}.

Lemma base_bounds d : base d ≤ start_offset d < base d + BLOCK_SIZE.
Proof. unfold base. destruct (block_div_mod (start_offset d)). lia. Qed.

(** The position of an index in the blocks. *)
Lemma slot_position d i :
  0 ≤ start_offset d ≤ i → i ≤ i64_max →
  (Z.to_nat (Deque.block_index_of i (start_offset d)) * Z.to_nat BLOCK_SIZE
     + Z.to_nat (i mod BLOCK_SIZE))%nat = Z.to_nat (i - base d).
Proof.
  intros Hs Hi. rewrite flat_position by lia. unfold base.
  destruct (block_div_mod (start_offset d)). rewrite <- Z2Nat.inj_add by lia. f_equal. lia.
Qed.

Lemma slots_write d m i v :
  slots_at d m → start_offset d ≤ i < allocated d → i ≤ i64_max →
  ∃ bs, Deque.write_slot (blocks d) (Deque.block_index_of i (start_offset d)) (i mod BLOCK_SIZE) v = Ret bs ∧
    slots_at (with_blocks d bs) (<[i := v]> m) ∧ length (concat bs) = length (concat (blocks d)).
Proof.
  intros [Hs Hsz Hst Hfl] Hi Hmax. pose proof (base_bounds d) as Hb.
  pose proof (slot_position d i ltac:(lia) Hmax) as Hpos. unfold allocated in *.
  destruct (write_slot_spec (blocks d) (Deque.block_index_of i (start_offset d)) (i mod BLOCK_SIZE) v Hsz)
    as (bs & -> & Hsz' & Hc); [apply offset_lt|lia|]. rewrite Hpos in Hc.
  assert (length (concat bs) = length (concat (blocks d))) as Hlen by (by rewrite Hc, length_insert).
  exists bs. split; [done|]. split; [|done]. split; simpl; try done.
  - unfold allocated, base in *. simpl. rewrite Hlen. intros i' v' [[<- <-]|[_ Hv]]%lookup_insert_Some; [lia|].
    by eapply Hst.
  - unfold base in *. simpl. intros j Hj. rewrite Hc. rewrite Hlen in Hj.
    destruct (decide (j = Z.to_nat (i - (start_offset d - start_offset d mod BLOCK_SIZE)))) as [->|Hne].
    + rewrite list_lookup_insert_eq by done. rewrite Z2Nat.id by lia.
      replace (start_offset d - start_offset d mod BLOCK_SIZE + (i - (start_offset d - start_offset d mod BLOCK_SIZE)))
        with i by lia. by rewrite lookup_insert_eq.
    + rewrite list_lookup_insert_ne by done. rewrite lookup_insert_ne by lia. by apply Hfl.
Qed.

Lemma slots_read d m i :
  slots_at d m → start_offset d ≤ i < allocated d → i ≤ i64_max →
  ∃ b, index_or_panic (blocks d) (Z.to_nat (Deque.block_index_of i (start_offset d))) = Ret b ∧
    index_or_panic b (Z.to_nat (i mod BLOCK_SIZE)) = Ret (m !! i).
Proof.
  intros [Hs Hsz Hst Hfl] Hi Hmax. pose proof (base_bounds d) as Hb.
  pose proof (slot_position d i ltac:(lia) Hmax) as Hpos. unfold allocated in *.
  destruct (slot_lookup (blocks d) (Deque.block_index_of i (start_offset d)) (i mod BLOCK_SIZE) Hsz)
    as (b & o & Hb' & Ho & Hc); [apply offset_lt|lia|].
  exists b. rewrite (index_or_panic_ret _ _ _ Hb'), (index_or_panic_ret _ _ _ Ho). split; [done|].
  rewrite Hpos, Hfl in Hc by lia. injection Hc as <-. f_equal. f_equal. lia.
Qed.

(** Whether a block for the index exists. *)
Lemma block_exists d i :
  sized (blocks d) → 0 ≤ start_offset d ≤ i → i ≤ i64_max →
  Deque.block_index_of i (start_offset d) < Z.of_nat (length (blocks d)) ↔ i < allocated d.
Proof.
  intros Hsz Hs Hi. unfold allocated. rewrite (concat_length_block _ _ Hsz).
  pose proof (slot_position d i Hs Hi) as Hpos. pose proof (base_bounds d) as Hb.
  assert (0 ≤ Deque.block_index_of i (start_offset d)) as H0 by apply as_usize_range.
  pose proof (offset_lt i) as Hoff. pose proof BLOCK_SIZE_pos. split; intros; nia.
Qed.

Lemma slots_app_empty d m :
  slots_at d m → (∀ i, allocated d ≤ i → m !! i = None) →
  slots_at (with_blocks d (blocks d ++ [Deque.empty_block])) m.
Proof.
  intros [Hs Hsz Hst Hfl] Hnone.
  assert (concat (blocks d ++ [Deque.empty_block]) = concat (blocks d) ++ Deque.empty_block) as Hc
    by (rewrite concat_app; simpl; by rewrite app_nil_r).
  split; simpl; try done.
  - by apply sized_app_empty.
  - intros i v Hv. specialize (Hst _ _ Hv). unfold allocated, base in *. simpl. rewrite Hc, length_app. lia.
  - unfold base, allocated in *. simpl. intros j. rewrite Hc, length_app. intros Hj.
    destruct (decide (j < length (concat (blocks d)))%nat) as [Hlt|Hge].
    + rewrite lookup_app_l by done. by apply Hfl.
    + rewrite lookup_app_r by lia. unfold Deque.empty_block in *. rewrite length_replicate in Hj.
      rewrite lookup_replicate_2 by lia. rewrite Hnone; [done|]. unfold base. lia.
Qed.

(** The loop of the slow path adds blocks until the index has one. *)
Lemma slots_grow fuel d m bi :
  slots_at d m → (Z.to_nat (bi + 1 - Z.of_nat (length (blocks d))) ≤ fuel)%nat →
  let bs := Deque.grow fuel bi (blocks d) in
  slots_at (with_blocks d bs) m ∧ bi < Z.of_nat (length bs) ∧
  (length (blocks d) ≤ length bs)%nat ∧ Z.of_nat (length bs) ≤ Z.max (Z.of_nat (length (blocks d))) (bi + 1).
Proof.
  revert d. induction fuel as [|fuel IH]; intros d Hd Hf; simpl.
  - split; [by destruct d|]. lia.
  - destruct (Z.of_nat (length (blocks d)) <=? bi) eqn:E; [|split; [by destruct d|lia]].
    assert (slots_at (with_blocks d (blocks d ++ [Deque.empty_block])) m) as Hd'.
    { apply slots_app_empty; [done|]. intros i Hi. destruct (m !! i) eqn:Em; [|done].
      apply (sa_stored _ _ Hd) in Em. lia. }
    destruct (IH _ Hd') as (Hs & Hlt & Hle & Hmax); simpl in *; rewrite ?length_app in *; simpl in *; [lia|].
    split; [exact Hs|]. lia.
Qed.

(** The section of [push] under the write lock, for an index whose slot is free. *)
Lemma slots_push_write d m i v :
  slots_at d m → start_offset d ≤ i ≤ i64_max →
  ∃ bs, Deque.push_write d i (i mod BLOCK_SIZE) v = Ret (i, with_blocks d bs) ∧
    slots_at (with_blocks d bs) (<[i := v]> m) ∧
    allocated d ≤ allocated (with_blocks d bs) ≤ Z.max (allocated d) (i + BLOCK_SIZE).
Proof.
  intros Hd Hi. pose proof (sa_start _ _ Hd) as Hs. pose proof (sa_sized _ _ Hd) as Hsz.
  unfold Deque.push_write. set (bi := Deque.block_index_of i (start_offset d)).
  destruct (slots_grow (Z.to_nat (bi + 1 - Z.of_nat (length (blocks d)))) d m bi Hd ltac:(lia))
    as (Hd' & Hlt & Hle & Hmax).
  set (bs := Deque.grow _ bi (blocks d)) in *. pose proof (sa_sized _ _ Hd') as Hsz'. simpl in Hsz'.
  pose proof (slot_position d i ltac:(lia) ltac:(lia)) as Hpos. fold bi in Hpos.
  assert (0 ≤ bi) by apply as_usize_range. pose proof (offset_lt i). pose proof BLOCK_SIZE_pos.
  pose proof (base_bounds d) as Hb.
  assert (allocated d ≤ allocated (with_blocks d bs) ≤ Z.max (allocated d) (i + BLOCK_SIZE) ∧
    i < allocated (with_blocks d bs)) as [Hal Hia].
  { unfold allocated. change (base (with_blocks d bs)) with (base d). simpl.
    rewrite (concat_length_block _ _ Hsz), (concat_length_block _ _ Hsz'). split; [|nia].
    split; [nia|]. destruct (Z.max_spec (Z.of_nat (length (blocks d))) (bi + 1)) as [[? E]|[? E]];
      rewrite E in Hmax; nia. }
  destruct (slots_write _ _ i v Hd') as (bs' & Hw & Hd'' & Hlen); [simpl; lia|lia|].
  simpl in Hw. fold bi in Hw. rewrite Hw, bind_ret. exists bs'. split; [done|]. split; [exact Hd''|].
  unfold allocated in *. change (base (with_blocks d bs')) with (base d). simpl in *. rewrite Hlen. exact Hal.
Qed.

(** The part of [remove_before] after [length.fetch_sub]. *)
Definition remove_rest d (idx : Z) : outcome (BlockDeque T) :=
  let start := start_offset d in
  let i := usize_sub idx (usize_sub start (start mod BLOCK_SIZE)) in
  r ← Deque.remove_blocks (blocks d) i start;
  let '(bs, i', start') := r in
  bs' ← Deque.clear_first_block bs i' start';
  Ret {| blocks := bs'; start_offset := idx; dq_length := dq_length d |}.

(** The part before it: [None] when the index is out of range. *)
Definition remove_begin d (idx : Z) : option (BlockDeque T) :=
  let start := start_offset d in
  if usize_add start (dq_length d) <? idx then None
  else if idx <? start then None
  else Some {| blocks := blocks d; start_offset := start;
               dq_length := usize_sub (dq_length d) (usize_sub idx start) |}.

Lemma remove_before_parts d idx :
  Deque.remove_before d idx =
    match remove_begin d idx with
    | None => Ret (Err (), d)
    | Some d' => r ← remove_rest d' idx; Ret (Ok (), r)
    end.
Proof.
  unfold Deque.remove_before, remove_begin, remove_rest.
  destruct (_ <? idx); [done|]. destruct (idx <? _); [done|]. simpl.
  destruct (Deque.remove_blocks _ _ _) as [[[bs i] st]|msg]; [|done]. rewrite !bind_ret.
  by destruct (Deque.clear_first_block _ _ _).
Qed.

Lemma slots_front d m : slots_at d m →
  take (Z.to_nat (start_offset d mod BLOCK_SIZE)) (concat (blocks d))
    = replicate (length (take (Z.to_nat (start_offset d mod BLOCK_SIZE)) (concat (blocks d)))) None.
Proof.
  intros [Hs Hsz Hst Hfl]. apply list_eq_same_length with (length (take (Z.to_nat (start_offset d mod BLOCK_SIZE)) (concat (blocks d))));
    [by rewrite length_replicate|done|]. intros j x y Hj Hx Hy.
  apply lookup_replicate in Hy as [-> _]. apply lookup_take_Some in Hx as [Hx Hlt].
  rewrite length_take in Hj. rewrite Hfl in Hx by lia. injection Hx as <-.
  destruct (m !! _) as [v|] eqn:Em; [|done]. apply Hst in Em as [Em _]. unfold base in Em. lia.
Qed.

Lemma slots_remove d m idx :
  slots_at d m → start_offset d ≤ idx ≤ allocated d → idx ≤ i64_max →
  ∃ d', remove_rest d idx = Ret d' ∧ start_offset d' = idx ∧ dq_length d' = dq_length d ∧
    slots_at d' (filter (λ p, idx ≤ p.1) m) ∧ allocated d' = allocated d.
Proof.
  intros Hd Hidx Hmax. pose proof Hd as [Hs Hsz Hst Hfl]. pose proof (slots_front d m Hd) as Hfront.
  destruct (block_div_mod (start_offset d)) as [Hdm Hmod], (block_div_mod idx) as [Hdm' Hmod'].
  pose proof BLOCK_SIZE_pos as HB. assert (0 ≤ start_offset d / BLOCK_SIZE) by (apply Z.div_pos; lia).
  unfold allocated, base in *. set (start := start_offset d) in *. unfold remove_rest. fold start.
  rewrite (usize_sub_id start), (usize_sub_id idx) by (width_unfold; nia).
  set (i := idx - (start - start mod BLOCK_SIZE)) in *.
  assert (i mod BLOCK_SIZE = idx mod BLOCK_SIZE) as Him.
  { replace i with (idx + (- (start / BLOCK_SIZE)) * BLOCK_SIZE) by nia. by apply Z.mod_add; lia. }
  destruct (remove_blocks_spec (blocks d) i start Hsz) as (bs & -> & Hbs & Hdrop & Hno); [lia..|].
  rewrite Him in Hdrop. rewrite bind_ret, Him.
  pose proof (f_equal length Hdrop) as Hlen. rewrite !length_drop in Hlen.
  assert (idx mod BLOCK_SIZE ≤ Z.of_nat (length (concat bs))) as Hfits.
  { rewrite (concat_length_block _ _ Hbs) in Hlen |- *. rewrite (concat_length_block _ _ Hsz) in *.
    destruct (decide (length bs = 0%nat)) as [E|]; [|nia]. rewrite E in *. simpl in *.
    assert (i = Z.of_nat (length (blocks d)) * BLOCK_SIZE) as Heq by nia.
    rewrite Heq, Z.mod_mul in Him by lia. lia. }
  destruct (clear_first_block_spec bs (idx mod BLOCK_SIZE) (if i <? BLOCK_SIZE then start else 0))
    as (bs' & -> & Hsz' & Hc); [done|done|..].
  - intros Hpos ->. simpl in Hfits. lia.
  - destruct (i <? BLOCK_SIZE) eqn:E; [|rewrite Z.mod_0_l; lia].
    apply Z.ltb_lt in E. rewrite Z.mod_small in Him by lia. lia.
  - destruct (i <? BLOCK_SIZE) eqn:E; [|by rewrite Z.mod_0_l by lia].
    apply Z.ltb_lt in E. rewrite (Hno E), Hfront. f_equal. rewrite length_take. lia.
  - rewrite bind_ret. eexists. split; [done|]. split; [done|]. split; [done|].
    assert (length (concat bs') = (Z.to_nat (idx mod BLOCK_SIZE) + (length (concat (blocks d)) - Z.to_nat i))%nat) as Hlen'.
    { rewrite Hc, length_app, length_replicate, length_drop. lia. }
    split; [|unfold allocated, base; simpl; rewrite Hlen'; lia].
    split; simpl; [lia|done| |].
    + intros j v [Hj Hle]%map_lookup_filter_Some. simpl in Hle. apply Hst in Hj.
      unfold allocated, base. simpl. rewrite Hlen'. lia.
    + unfold base. simpl. intros j Hj. rewrite Hc. rewrite Hlen' in Hj.
      destruct (decide (j < Z.to_nat (idx mod BLOCK_SIZE))%nat) as [Hlt|Hge].
      * rewrite lookup_app_l by (rewrite length_replicate; lia). rewrite lookup_replicate_2 by lia.
        rewrite (proj2 (map_lookup_filter_None _ _ _)); [done|]. right. intros v _. simpl. lia.
      * rewrite lookup_app_r, length_replicate, Hdrop, lookup_drop by (rewrite length_replicate; lia).
        rewrite Hfl by lia.
        replace (start - start mod BLOCK_SIZE + Z.of_nat (Z.to_nat i + (j - Z.to_nat (idx mod BLOCK_SIZE))))
          with (idx - idx mod BLOCK_SIZE + Z.of_nat j) by lia.
        f_equal. destruct (m !! _) as [v|] eqn:Em; symmetry.
        -- apply map_lookup_filter_Some. split; [done|simpl; lia].
        -- apply map_lookup_filter_None. by left.
Qed.

(** ** Deques with all slots stored *)

Lemma slots_of_repr d l :
  dq_repr d l → slots_at d (map_seqZ (start_offset d) l) ∧
    start_offset d + Z.of_nat (length l) ≤ allocated d < start_offset d + Z.of_nat (length l) + BLOCK_SIZE.
Proof.
  intros [Hs Hb Hl Hsz (pad & Hpad & Hflat)]. destruct (block_div_mod (start_offset d)) as [_ Hmod].
  pose proof (f_equal length Hflat) as Hlen. rewrite !length_app, length_fmap, !length_replicate in Hlen.
  split; [|unfold allocated, base; lia]. split; try done.
  - intros i v Hi%lookup_map_seqZ_Some. destruct Hi as [? Hi%lookup_lt_Some]. unfold allocated, base. lia.
  - intros j Hj. unfold base. rewrite lookup_map_seqZ, Hflat.
    destruct (decide (j < Z.to_nat (start_offset d mod BLOCK_SIZE))%nat) as [Hlt|Hge].
    + rewrite lookup_app_l by (rewrite length_replicate; lia). rewrite lookup_replicate_2 by lia.
      by rewrite option_guard_False by lia.
    + rewrite lookup_app_r, length_replicate by (rewrite length_replicate; lia).
      rewrite option_guard_True by lia.
      replace (Z.to_nat (start_offset d - start_offset d mod BLOCK_SIZE + Z.of_nat j - start_offset d))
        with (j - Z.to_nat (start_offset d mod BLOCK_SIZE))%nat by lia.
      set (k := (j - Z.to_nat (start_offset d mod BLOCK_SIZE))%nat) in *.
      destruct (decide (k < length l)%nat).
      * rewrite lookup_app_l by (rewrite length_fmap; lia). rewrite list_lookup_fmap.
        by destruct (lookup_lt_is_Some_2 l k) as [v ->].
      * rewrite lookup_app_r, length_fmap by (rewrite length_fmap; lia).
        rewrite lookup_replicate_2 by lia. by rewrite lookup_ge_None_2 by lia.
Qed.

Lemma repr_of_slots d m l :
  slots_at d m → m = map_seqZ (start_offset d) l → dq_length d = Z.of_nat (length l) →
  start_offset d + Z.of_nat (length l) ≤ i64_max →
  start_offset d + Z.of_nat (length l) ≤ allocated d < start_offset d + Z.of_nat (length l) + BLOCK_SIZE →
  dq_repr d l.
Proof.
  intros Hd -> Hlen Hmax Hal. pose proof (slots_front _ _ Hd) as Hfront. destruct Hd as [Hs Hsz Hst Hfl].
  destruct (block_div_mod (start_offset d)) as [_ Hmod]. unfold allocated, base in *.
  split; [done|done|done|done|].
  set (n := Z.to_nat (start_offset d mod BLOCK_SIZE)) in *.
  exists (length (concat (blocks d)) - n - length l)%nat. split; [lia|].
  apply list_eq_same_length with (length (concat (blocks d)));
    [rewrite !length_app, length_fmap, !length_replicate; lia|done|].
  intros j x y Hj Hx Hy. rewrite Hfl, lookup_map_seqZ in Hx by done. injection Hx as <-.
  destruct (decide (j < n)%nat) as [Hlt|Hge].
  - rewrite lookup_app_l in Hy by (rewrite length_replicate; lia). apply lookup_replicate in Hy as [-> _].
    by rewrite option_guard_False by lia.
  - rewrite lookup_app_r, length_replicate in Hy by (rewrite length_replicate; lia).
    rewrite option_guard_True by lia.
    replace (Z.to_nat (start_offset d - start_offset d mod BLOCK_SIZE + Z.of_nat j - start_offset d))
      with (j - n)%nat by lia.
    destruct (decide (j - n < length l)%nat).
    + rewrite lookup_app_l, list_lookup_fmap in Hy by (rewrite length_fmap; lia).
      by apply fmap_Some in Hy as (v & -> & ->).
    + rewrite lookup_app_r, length_fmap in Hy by (rewrite length_fmap; lia).
      apply lookup_replicate in Hy as [-> _]. by rewrite lookup_ge_None_2 by lia.
Qed.
End slots.

(** ** Threads *)

Module Threads.

Inductive DCall (T : Type) :=
| CPush (v : T)
| CSet (i : Z) (v : T)
| CGet (i : Z)
| CLatest
| CRemove (idx : Z)
| CClear.

Inductive DReply (T : Type) :=
| RIndex (i : Z)
| RStored (b : bool)
| RGot (o : option T)
| RLatest (z : Z)
| RRemoved (r : Result unit unit)
| RCleared.

(** Where a thread is. It holds the read lock from [PushLoaded] to [PushIndexed], from
    [SetLength] to [SetLoaded] and from [GetLength] to [GetLoaded], and the write lock at
    [RemoveHalf], where the length is reduced and the start is not moved yet, and at
    [ClearHalf], where the blocks are gone and the start is reset but not the length. *)
Inductive DPc (T : Type) :=
| DStart
| PushLoaded (start : Z)
| PushIndexed (start index : Z)
| PushWaiting (index : Z)
| SetLength (len : Z)
| SetLoaded (len start : Z)
| GetLength (len : Z)
| GetLoaded (len start : Z)
| LatestLength (len : Z)
| RemoveHalf
| ClearHalf
| DDone (r : DReply T).

#[global] Arguments CPush {T}.
#[global] Arguments CSet {T}.
#[global] Arguments CGet {T}.
#[global] Arguments CLatest {T}.
#[global] Arguments CRemove {T}.
#[global] Arguments CClear {T}.
#[global] Arguments RIndex {T}.
#[global] Arguments RStored {T}.
#[global] Arguments RGot {T}.
#[global] Arguments RLatest {T}.
#[global] Arguments RRemoved {T}.
#[global] Arguments RCleared {T}.
#[global] Arguments DStart {T}.
#[global] Arguments PushLoaded {T}.
#[global] Arguments PushIndexed {T}.
#[global] Arguments PushWaiting {T}.
#[global] Arguments SetLength {T}.
#[global] Arguments SetLoaded {T}.
#[global] Arguments GetLength {T}.
#[global] Arguments GetLoaded {T}.
#[global] Arguments LatestLength {T}.
#[global] Arguments RemoveHalf {T}.
#[global] Arguments ClearHalf {T}.
#[global] Arguments DDone {T}.

Section threads.
Context {T : Type} `{!BlockSize}.
Implicit Types (d : BlockDeque T) (c : DCall T) (pc : DPc T) (ps : list (DPc T)).

Definition reading pc : bool :=
  match pc with
  | PushLoaded _ | PushIndexed _ _ | SetLength _ | SetLoaded _ _ | GetLength _ | GetLoaded _ _ => true
  | _ => false
  end.

Definition writing pc : bool := match pc with RemoveHalf | ClearHalf => true | _ => false end.

(** [self.blocks.read()] and [self.blocks.write()] can be taken. *)
Definition can_read ps : bool := forallb (λ pc, negb (writing pc)) ps.
Definition can_write ps : bool := forallb (λ pc, negb (writing pc) && negb (reading pc)) ps.

Definition with_length d (n : Z) : BlockDeque T :=
  {| blocks := blocks d; start_offset := start_offset d; dq_length := n |}.

Definition out_of_range (len start i : Z) : bool := (usize_add len start <=? i) || (i <? start).

(** The next step of a thread: [None] when it waits for a lock or has ended. *)
Definition thread_step d (ps : list (DPc T)) c pc : option (outcome (BlockDeque T * DPc T)) :=
  match c, pc with
  | CPush v, DStart => if can_read ps then Some (Ret (d, PushLoaded (start_offset d))) else None
  | CPush v, PushLoaded start =>
      Some (Ret (with_length d (usize_add (dq_length d) 1), PushIndexed start (usize_add (dq_length d) start)))
  | CPush v, PushIndexed start index =>
      if Deque.block_index_of index start <? Z.of_nat (length (blocks d)) then
        Some (bs ← Deque.write_slot (blocks d) (Deque.block_index_of index start) (index mod BLOCK_SIZE) v;
              Ret (with_blocks d bs, DDone (RIndex index)))
      else Some (Ret (d, PushWaiting index))
  | CPush v, PushWaiting index =>
      if can_write ps then
        Some (r ← Deque.push_write d index (index mod BLOCK_SIZE) v; Ret (r.2, DDone (RIndex r.1)))
      else None
  | CSet i v, DStart => if can_read ps then Some (Ret (d, SetLength (dq_length d))) else None
  | CSet i v, SetLength len => Some (Ret (d, SetLoaded len (start_offset d)))
  | CSet i v, SetLoaded len start =>
      if out_of_range len start i then Some (Ret (d, DDone (RStored false)))
      else Some (bs ← Deque.write_slot (blocks d) (Deque.block_index_of i start) (i mod BLOCK_SIZE) v;
                 Ret (with_blocks d bs, DDone (RStored true)))
  | CGet i, DStart => if can_read ps then Some (Ret (d, GetLength (dq_length d))) else None
  | CGet i, GetLength len => Some (Ret (d, GetLoaded len (start_offset d)))
  | CGet i, GetLoaded len start =>
      if out_of_range len start i then Some (Ret (d, DDone (RGot None)))
      else Some (the_block ← index_or_panic (blocks d) (Z.to_nat (Deque.block_index_of i start));
                 slot ← index_or_panic the_block (Z.to_nat (i mod BLOCK_SIZE));
                 Ret (d, DDone (RGot slot)))
  | CLatest, DStart => Some (Ret (d, LatestLength (dq_length d)))
  | CLatest, LatestLength len => Some (Ret (d, DDone (RLatest (usize_add len (start_offset d)))))
  | CRemove idx, DStart =>
      if can_write ps then
        match remove_begin d idx with
        | None => Some (Ret (d, DDone (RRemoved (Err ()))))
        | Some d' => Some (Ret (d', RemoveHalf))
        end
      else None
  | CRemove idx, RemoveHalf => Some (d' ← remove_rest d idx; Ret (d', DDone (RRemoved (Ok ()))))
  | CClear, DStart =>
      if can_write ps then Some (Ret ({| blocks := []; start_offset := 0; dq_length := dq_length d |}, ClearHalf))
      else None
  | CClear, ClearHalf => Some (Ret (with_length d 0, DDone RCleared))
  | _, _ => None
  end.

Record Shared := mkShared { dq : BlockDeque T; dpcs : list (DPc T) }.

Inductive dstep (calls : list (DCall T)) (y : Shared) : Shared → Prop :=
| thread_moves i c pc d' pc' :
    calls !! i = Some c → dpcs y !! i = Some pc →
    thread_step (dq y) (dpcs y) c pc = Some (Ret (d', pc')) →
    dstep calls y (mkShared d' (<[i := pc']> (dpcs y))).

Definition dstart d (calls : list (DCall T)) : Shared := mkShared d (replicate (length calls) DStart).

(** A schedule names the thread that moves next. *)
Fixpoint dexec (calls : list (DCall T)) (y : Shared) (schedule : list nat) : option (outcome Shared) :=
  match schedule with
  | [] => Some (Ret y)
  | i :: rest =>
      c ← calls !! i;
      pc ← dpcs y !! i;
      r ← thread_step (dq y) (dpcs y) c pc;
      match r with
      | Ret (d', pc') => dexec calls (mkShared d' (<[i := pc']> (dpcs y))) rest
      | Panic msg => Some (Panic msg)
      end
  end.

Lemma dexec_sound calls schedule y y' :
  dexec calls y schedule = Some (Ret y') → rtc (dstep calls) y y'.
Proof.
  revert y. induction schedule as [|i rest IH]; intros y; simpl; [by intros [= ->]|].
  intros (c & Hc & (pc & Hpc & (r & Hr & Hrest)%bind_Some)%bind_Some)%bind_Some.
  destruct r as [[d' pc']|msg]; [|done]. eapply rtc_l; [by eapply thread_moves|by apply IH].
Qed.

Definition is_done pc : Prop := match pc with DDone _ => True | _ => False end.

#[export] Instance is_done_dec pc : Decision (is_done pc).
Proof. destruct pc; apply _. Defined.
End threads.
#[global] Arguments Shared : clear implicits.


(** ** The steps make up the calls *)

Section alone.
Context {T : Type} `{!BlockSize}.

(** A thread that runs with no other. *)
Fixpoint alone (fuel : nat) (d : BlockDeque T) (c : DCall T) (pc : DPc T) :
    option (outcome (BlockDeque T * DReply T)) :=
  match pc, fuel with
  | DDone r, _ => Some (Ret (d, r))
  | _, O => None
  | _, S fuel' =>
      r ← thread_step d [pc] c pc;
      match r with
      | Ret (d', pc') => alone fuel' d' c pc'
      | Panic msg => Some (Panic msg)
      end
  end.

Lemma push_alone d v :
  alone 4 d (CPush v) DStart = Some (r ← Deque.push d v; Ret (r.2, RIndex r.1)).
Proof.
  cbn -[Deque.push_write Deque.write_slot Deque.block_index_of]. unfold Deque.push, Deque.push_read.
  destruct (_ <? _); cbn -[Deque.push_write Deque.write_slot Deque.block_index_of].
  - by destruct (Deque.write_slot _ _ _ _).
  - by destruct (Deque.push_write _ _ _ _) as [[i d']|msg].
Qed.

Lemma set_alone d i v :
  alone 3 d (CSet i v) DStart = Some (r ← Deque.set d i v; Ret (r.2, RStored r.1)).
Proof.
  cbn -[Deque.write_slot Deque.block_index_of]. unfold Deque.set, out_of_range.
  destruct (_ <=? i); [done|]. destruct (i <? _); [done|].
  cbn -[Deque.write_slot Deque.block_index_of]. by destruct (Deque.write_slot _ _ _ _).
Qed.

Lemma get_alone d i :
  alone 3 d (CGet i) DStart = Some (o ← Deque.get d i; Ret (d, RGot o)).
Proof.
  cbn -[Deque.block_index_of]. unfold Deque.get, Deque.get_with, out_of_range.
  destruct (_ <=? i); [done|]. destruct (i <? _); [done|]. cbn -[Deque.block_index_of].
  destruct (index_or_panic (blocks d) _) as [b|]; [|done]. simpl. by destruct (index_or_panic b _).
Qed.

Lemma latest_alone d :
  alone 2 d CLatest DStart = Some (Ret (d, RLatest (Deque.latest_revision d))).
Proof. done. Qed.

Lemma remove_alone d idx :
  alone 2 d (CRemove idx) DStart = Some (r ← Deque.remove_before d idx; Ret (r.2, RRemoved r.1)).
Proof.
  rewrite remove_before_parts. simpl. destruct (remove_begin d idx) as [d'|]; simpl; [|done].
  by destruct (remove_rest d' idx).
Qed.

Lemma clear_alone d : alone 2 d CClear DStart = Some (Ret (Deque.clear d, RCleared)).
Proof. done. Qed.
End alone.

(** ** The invariant *)

(** The index a push has taken. *)
Definition ticket {T} (pc : DPc T) : option Z :=
  match pc with
  | PushIndexed _ i | PushWaiting i | DDone (RIndex i) => Some i
  | _ => None
  end.

Section tickets.
Context {A B : Type} (f : A → option B).

Lemma omap_length_le (l : list A) : (length (omap f l) ≤ length l)%nat.
Proof. induction l as [|a l IH]; csimpl; [lia|]. destruct (f a); simpl; lia. Qed.

Lemma omap_insert_same (l : list A) i x x' : l !! i = Some x → f x' = f x → omap f (<[i := x']> l) = omap f l.
Proof.
  intros Hi Hf. rewrite (insert_take_drop l i x') by (by eapply lookup_lt_Some).
  rewrite <- (take_drop_middle l i x Hi) at 3. rewrite !omap_app. simpl. by rewrite Hf.
Qed.

Lemma omap_insert_new (l : list A) i x x' y :
  l !! i = Some x → f x = None → f x' = Some y → omap f (<[i := x']> l) ≡ₚ omap f l ++ [y].
Proof.
  intros Hi Hx Hx'. rewrite (insert_take_drop l i x') by (by eapply lookup_lt_Some).
  rewrite <- (take_drop_middle l i x Hi) at 3. rewrite !omap_app. simpl. rewrite Hx, Hx'.
  rewrite <- app_assoc. apply Permutation_app_head. by rewrite Permutation_cons_append.
Qed.

(** Two places with the same image are one, when the images are distinct. *)
Lemma omap_inj (l : list A) i j x x' y :
  NoDup (omap f l) → l !! i = Some x → l !! j = Some x' → f x = Some y → f x' = Some y → i = j.
Proof.
  revert i j. induction l as [|a l IH]; intros i j Hnd Hi Hj Hx Hx'; [done|].
  assert (∀ k z, l !! k = Some z → f z = Some y → y ∈ omap f l) as Hin.
  { intros k z Hk Hz. apply list_elem_of_omap. exists z. split; [by eapply list_elem_of_lookup_2|done]. }
  simpl in Hnd. destruct i as [|i], j as [|j]; simpl in *; simplify_eq; [done| | |].
  - rewrite Hx in Hnd. apply NoDup_cons in Hnd as [Hn _]. by destruct Hn; eapply Hin.
  - rewrite Hx' in Hnd. apply NoDup_cons in Hnd as [Hn _]. by destruct Hn; eapply Hin.
  - f_equal. apply (IH i j); try done. destruct (f a); [by apply NoDup_cons in Hnd as [_ ?]|done].
Qed.
End tickets.

Section measures.
Context {T : Type} `{!BlockSize}.

(** Steps a thread has left at most. *)
Definition weight (pc : DPc T) : nat :=
  match pc with
  | DStart => 4
  | PushLoaded _ | SetLength _ | GetLength _ => 3
  | PushIndexed _ _ | SetLoaded _ _ | GetLoaded _ _ => 2
  | PushWaiting _ | LatestLength _ | RemoveHalf | ClearHalf => 1
  | DDone _ => 0
  end.

Lemma thread_step_weight d ps c pc d' pc' :
  thread_step d ps c pc = Some (Ret (d', pc')) → (weight pc' < weight pc)%nat.
Proof.
  destruct c, pc as [| | | | | | | | | | |[]]; simpl; try done; repeat case_match; intros Hs; simplify_eq;
    try (simpl; lia).
  all: repeat (apply bind_ret_inv in Hs as (? & _ & Hs)); simplify_eq; simpl; lia.
Qed.

(** The values of a full interval. *)
Lemma omap_seqZ (m : gmap Z T) a n :
  (∀ i, a ≤ i < a + n → is_Some (m !! i)) → 0 ≤ n →
  length (omap (λ i, m !! i) (seqZ a n)) = Z.to_nat n ∧
  ∀ k, (k < Z.to_nat n)%nat → omap (λ i, m !! i) (seqZ a n) !! k = m !! (a + Z.of_nat k).
Proof.
  intros Hs Hn. revert a Hs. pattern n. revert n Hn. apply natlike_ind.
  - intros a _. split; [done|]. intros k Hk. simpl in Hk. lia.
  - intros n Hn IH a Hs. rewrite seqZ_cons by lia. csimpl.
    destruct (Hs a ltac:(lia)) as [v Hv]. rewrite Hv, Z.pred_succ.
    destruct (IH (Z.succ a)) as [IH1 IH2]; [intros i Hi; apply Hs; lia|]. split; [simpl; lia|].
    intros [|k] Hk; simpl; [by rewrite Z.add_0_r|]. rewrite IH2 by lia. f_equal. lia.
Qed.

End measures.

Section invariant.
Context {T : Type} `{!BlockSize} (calls : list (DCall T)) (d0 : BlockDeque T) (l0 : list T).

(** One past the last index at the start. *)
Definition L0 : Z := start_offset d0 + Z.of_nat (length l0).

(** What the callers promise: [set] and [get] only of elements that were stored before, at
    most one [set] of each and no [get] beside it, no removal of elements that are being
    pushed, and no [clear]. The store keeps the first two with the locks of its items. *)
Record disciplined : Prop := {
  di_set : ∀ j i v, calls !! j = Some (CSet i v) → 0 ≤ i < L0;
  di_get : ∀ j i, calls !! j = Some (CGet i) → 0 ≤ i < L0;
  di_remove : ∀ j idx, calls !! j = Some (CRemove idx) → 0 ≤ idx ≤ L0;
  di_sets : ∀ j j' i v v', calls !! j = Some (CSet i v) → calls !! j' = Some (CSet i v') → j = j';
  di_gets : ∀ j j' i v, calls !! j = Some (CSet i v) → calls !! j' = Some (CGet i) → False;
  di_clear : ∀ j, calls !! j ≠ Some CClear;
}.

Definition latest_of_threads (y : Shared T) : Z := L0 + Z.of_nat (length (omap ticket (dpcs y))).

(** What a thread knows where it is. *)
Definition fits (y : Shared T) (c : DCall T) (pc : DPc T) : Prop :=
  let start := start_offset (dq y) in
  match c, pc with
  | CPush _, (DStart | PushWaiting _ | DDone (RIndex _)) => True
  | CPush _, PushLoaded s => s = start
  | CPush _, PushIndexed s _ => s = start
  | CSet _ _, DStart => True
  | CSet _ _, SetLength len => L0 ≤ len + start ≤ latest_of_threads y
  | CSet _ _, SetLoaded len s => s = start ∧ L0 ≤ len + start ≤ latest_of_threads y
  | CSet i _, DDone (RStored b) => b = false → i < start
  | CGet _, DStart => True
  | CGet _, GetLength len => L0 ≤ len + start ≤ latest_of_threads y
  | CGet _, GetLoaded len s => s = start ∧ L0 ≤ len + start ≤ latest_of_threads y
  | CGet i, DDone (RGot o) => o = l0 !! Z.to_nat (i - start_offset d0) ∧ start_offset d0 ≤ i ∨ o = None ∧ i < start
  | CLatest, (DStart | LatestLength _ | DDone (RLatest _)) => True
  | CRemove _, (DStart | DDone (RRemoved _)) => True
  | CRemove idx, RemoveHalf => start ≤ idx ≤ L0 ∧ idx + dq_length (dq y) = latest_of_threads y
  | CClear, DStart => True
  | _, _ => False
  end.

(** What the slots hold. *)
Record holds (y : Shared T) (m : gmap Z T) : Prop := {
  ho_dom : ∀ i, is_Some (m !! i) ↔ start_offset (dq y) ≤ i ∧
    (i < L0 ∨ ∃ j, dpcs y !! j = Some (DDone (RIndex i)));
  ho_pushed : ∀ j i v, calls !! j = Some (CPush v) → dpcs y !! j = Some (DDone (RIndex i)) → m !! i = Some v;
  ho_set : ∀ j i v, calls !! j = Some (CSet i v) → dpcs y !! j = Some (DDone (RStored true)) →
    start_offset (dq y) ≤ i → m !! i = Some v;
  ho_old : ∀ i, start_offset (dq y) ≤ i < L0 →
    (∀ j v, calls !! j = Some (CSet i v) → dpcs y !! j ≠ Some (DDone (RStored true))) →
    m !! i = l0 !! Z.to_nat (i - start_offset d0);
}.

Record tinv (y : Shared T) : Prop := {
  ti_length : length (dpcs y) = length calls;
  ti_fits : ∀ i c pc, calls !! i = Some c → dpcs y !! i = Some pc → fits y c pc;
  ti_excl : ∀ i j pc, dpcs y !! i = Some RemoveHalf → dpcs y !! j = Some pc → i ≠ j →
    reading pc = false ∧ writing pc = false;
  ti_tickets : omap ticket (dpcs y) ≡ₚ seqZ L0 (Z.of_nat (length (omap ticket (dpcs y))));
  ti_latest : can_read (dpcs y) = true →
    start_offset (dq y) + dq_length (dq y) = latest_of_threads y;
  ti_start : start_offset d0 ≤ start_offset (dq y) ≤ L0;
  ti_allocated : L0 ≤ allocated (dq y) < latest_of_threads y + BLOCK_SIZE;
  ti_slots : ∃ m, slots_at (dq y) m ∧ holds y m;
}.

Hypothesis Hrepr : dq_repr d0 l0.

Lemma tinv_start : tinv (dstart d0 calls).
Proof.
  destruct (slots_of_repr d0 l0 Hrepr) as [Hsl Hal].
  assert (omap ticket (replicate (length calls) (DStart : DPc T)) = []) as Ht.
  { clear. induction (length calls); [done|]. done. }
  assert (∀ j pc, dpcs (dstart d0 calls) !! j = Some pc → pc = DStart) as Hst
    by (by intros j pc [-> _]%lookup_replicate).
  split; unfold latest_of_threads; simpl; rewrite ?Ht; simpl; rewrite ?Z.add_0_r.
  - apply length_replicate.
  - intros i c pc _ ->%Hst. by destruct c.
  - intros i j pc [=]%Hst.
  - done.
  - intros _. unfold L0. by rewrite (dq_length_eq _ _ Hrepr).
  - unfold L0. lia.
  - unfold L0. lia.
  - exists (map_seqZ (start_offset d0) l0). split; [done|]. split; simpl.
    + intros i. rewrite lookup_map_seqZ_is_Some. unfold L0. split; [lia|].
      intros [? [?|(j & [=]%Hst)]]; lia.
    + by intros j i v _ [=]%Hst.
    + by intros j i v _ [=]%Hst.
    + intros i Hi _. by rewrite lookup_map_seqZ, option_guard_True by lia.
Qed.

(** ** How a move changes what is known *)

Lemma done_insert (ps : list (DPc T)) i pc pc' j r :
  ps !! i = Some pc → ¬ is_done pc →
  <[i := pc']> ps !! j = Some (DDone r) ↔ (j = i ∧ pc' = DDone r) ∨ ps !! j = Some (DDone r).
Proof.
  intros Hi Hn. destruct (decide (j = i)) as [->|Hne].
  - rewrite list_lookup_insert_eq by (by eapply lookup_lt_Some). rewrite Hi. split; [naive_solver|].
    intros [[_ ->]|[= ->]]; [done|]. by destruct Hn.
  - rewrite list_lookup_insert_ne by done. naive_solver.
Qed.

Lemma can_read_insert (ps : list (DPc T)) i pc pc' :
  ps !! i = Some pc → writing pc' = writing pc → can_read (<[i := pc']> ps) = can_read ps.
Proof.
  intros Hi Hw. unfold can_read. rewrite (insert_take_drop ps i pc') by (by eapply lookup_lt_Some).
  rewrite <- (take_drop_middle ps i pc Hi) at 3. rewrite !forallb_app. simpl. by rewrite Hw.
Qed.

Lemma can_read_lookup (ps : list (DPc T)) j : can_read ps = true → ps !! j ≠ Some RemoveHalf.
Proof.
  unfold can_read. rewrite forallb_forall. intros Hall Hj.
  by specialize (Hall _ (proj1 (list_elem_of_In _ _) (list_elem_of_lookup_2 _ _ _ Hj))).
Qed.

Lemma can_write_lookup (ps : list (DPc T)) j pc :
  can_write ps = true → ps !! j = Some pc → writing pc = false ∧ reading pc = false.
Proof.
  unfold can_write. rewrite forallb_forall. intros Hall Hj.
  specialize (Hall _ (proj1 (list_elem_of_In _ _) (list_elem_of_lookup_2 _ _ _ Hj))).
  by destruct (writing pc), (reading pc).
Qed.

Lemma can_write_read (ps : list (DPc T)) : can_write ps = true → can_read ps = true.
Proof.
  unfold can_write, can_read. rewrite !forallb_forall. intros Hall pc Hin.
  specialize (Hall pc Hin). by destruct (writing pc).
Qed.

(** No deque is being cleared. *)
Lemma no_clear_half y j : tinv y → dpcs y !! j ≠ Some ClearHalf.
Proof.
  intros Hinv Hj. destruct (lookup_lt_is_Some_2 calls j) as [c Hc].
  { rewrite <- (ti_length _ Hinv). by eapply lookup_lt_Some. }
  pose proof (ti_fits _ Hinv _ _ _ Hc Hj) as Hf. by destruct c.
Qed.

(** A reader keeps writers out. *)
Lemma reader_no_writer y i pc :
  tinv y → dpcs y !! i = Some pc → reading pc = true → can_read (dpcs y) = true.
Proof.
  intros Hinv Hi Hr. unfold can_read. apply forallb_forall. intros q Hq%list_elem_of_In.
  apply list_elem_of_lookup in Hq as [j Hj]. destruct q; try done; [|by apply no_clear_half in Hj].
  destruct (decide (j = i)) as [->|Hne]; [by rewrite Hi in Hj; injection Hj as ->|].
  destruct (ti_excl _ Hinv j i pc Hj Hi Hne). congruence.
Qed.

Lemma excl_insert y i pc pc' :
  tinv y → dpcs y !! i = Some pc → writing pc' = false →
  (reading pc' = true → reading pc = true ∨ can_read (dpcs y) = true) →
  ∀ j k q, <[i := pc']> (dpcs y) !! j = Some RemoveHalf → <[i := pc']> (dpcs y) !! k = Some q → j ≠ k →
    reading q = false ∧ writing q = false.
Proof.
  intros Hinv Hi Hw Hr j k q Hj Hk Hne.
  apply list_lookup_insert_Some in Hj as [(<- & -> & _)|[Hij Hj]]; [done|].
  apply list_lookup_insert_Some in Hk as [(<- & <- & _)|[_ Hk]]; [|by eapply (ti_excl _ Hinv j k)].
  split; [|done]. destruct (reading pc') eqn:E; [|done]. destruct (Hr eq_refl) as [Hpc|Hc].
  - by destruct (can_read_lookup _ j (reader_no_writer _ _ _ Hinv Hi Hpc)).
  - by destruct (can_read_lookup _ j Hc).
Qed.

(** A move that leaves the deque and the indexes alone. *)
Lemma tinv_quiet y i c pc pc' :
  tinv y → calls !! i = Some c → dpcs y !! i = Some pc → ¬ is_done pc →
  ticket pc' = ticket pc → writing pc = false → writing pc' = false →
  (reading pc' = true → reading pc = true ∨ can_read (dpcs y) = true) →
  pc' ≠ DDone (RStored true) → (∀ k, pc' ≠ DDone (RIndex k)) → fits y c pc' →
  tinv (mkShared (dq y) (<[i := pc']> (dpcs y))).
Proof.
  intros Hinv Hc Hi Hnd Ht Hw Hw' Hr Hns Hni Hfit.
  pose proof Hinv as [Hlen Hfits Hexcl Htk Hlat Hst Hal (m & Hsl & Hho)].
  assert (latest_of_threads (mkShared (dq y) (<[i := pc']> (dpcs y))) = latest_of_threads y) as Hl.
  { unfold latest_of_threads. simpl. by rewrite (omap_insert_same _ _ _ pc) by done. }
  split; rewrite ?Hl; simpl.
  - by rewrite length_insert.
  - intros j c' q Hc' [(<- & <- & _)|[_ Hj]]%list_lookup_insert_Some.
    + assert (c' = c) as -> by congruence. unfold fits in *. by rewrite Hl.
    + unfold fits in *. rewrite Hl. by apply (Hfits j c' q).
  - by eapply excl_insert.
  - by rewrite (omap_insert_same _ _ _ pc) by done.
  - rewrite (can_read_insert _ _ pc) by congruence. done.
  - done.
  - done.
  - exists m. split; [done|]. destruct Hho as [Hdom Hpush Hset Hold]. split; simpl.
    + intros k. rewrite Hdom. setoid_rewrite (done_insert _ i pc) at 1; [|done|done]. naive_solver.
    + intros j k v Hj. rewrite (done_insert _ i pc) by done. naive_solver.
    + intros j k v Hj. rewrite (done_insert _ i pc) by done. naive_solver.
    + intros k Hk Hno. apply Hold; [done|]. intros j v Hj Hd. apply (Hno j v Hj), (done_insert _ i pc); [done..|by right].
Qed.

Hypothesis Hdisc : disciplined.
Hypothesis Hroom : L0 + Z.of_nat (length calls) ≤ i64_max.

Lemma tickets_bound (y : Shared T) i pc :
  length (dpcs y) = length calls → dpcs y !! i = Some pc → ticket pc = None →
  (length (omap ticket (dpcs y)) < length calls)%nat.
Proof.
  intros <- Hi Ht. revert i Hi. induction (dpcs y) as [|a l IH]; intros i Hi; [done|].
  pose proof (omap_length_le ticket l) as Hle.
  destruct i as [|i]; csimpl in *.
  - injection Hi as ->. rewrite Ht. lia.
  - specialize (IH i Hi). destruct (ticket a); simpl; lia.
Qed.

Lemma latest_room y : tinv y → latest_of_threads y ≤ i64_max.
Proof.
  intros Hinv. unfold latest_of_threads. rewrite <- (ti_length _ Hinv) in Hroom.
  pose proof (omap_length_le ticket (dpcs y)). lia.
Qed.

Lemma ticket_range y i pc k :
  tinv y → dpcs y !! i = Some pc → ticket pc = Some k → L0 ≤ k < latest_of_threads y.
Proof.
  intros Hinv Hi Hk. assert (k ∈ omap ticket (dpcs y)) as Hin.
  { apply list_elem_of_omap. exists pc. split; [by eapply list_elem_of_lookup_2|done]. }
  rewrite (ti_tickets _ Hinv), elem_of_seqZ in Hin. unfold latest_of_threads. lia.
Qed.

Lemma ticket_unique y i j pc pc' k :
  tinv y → dpcs y !! i = Some pc → dpcs y !! j = Some pc' → ticket pc = Some k → ticket pc' = Some k → i = j.
Proof.
  intros Hinv. apply omap_inj. rewrite (ti_tickets _ Hinv). apply NoDup_seqZ.
Qed.

Lemma slots_with_length d m n : slots_at (T:=T) d m → slots_at (with_length d n) m.
Proof. by intros [? ? ? ?]. Qed.

(** [length.fetch_add(1)] *)
Lemma tinv_add y i v start :
  tinv y → calls !! i = Some (CPush v) → dpcs y !! i = Some (PushLoaded start) →
  tinv (mkShared (with_length (dq y) (usize_add (dq_length (dq y)) 1))
    (<[i := PushIndexed start (usize_add (dq_length (dq y)) start)]> (dpcs y))).
Proof.
  intros Hinv Hc Hi. pose proof Hinv as [Hlen Hfits Hexcl Htk Hlat Hst Hal (m & Hsl & Hho)].
  pose proof (Hfits _ _ _ Hc Hi) as Hs. simpl in Hs. subst start.
  pose proof (reader_no_writer _ _ _ Hinv Hi eq_refl) as Hrd. specialize (Hlat Hrd).
  pose proof (tickets_bound y i _ Hlen Hi eq_refl) as Hb.
  pose proof (sa_start _ _ Hsl) as H0.
  set (n := length (omap ticket (dpcs y))) in *.
  assert (latest_of_threads y = L0 + Z.of_nat n) as HL by done.
  rewrite !usize_add_id by width. replace (dq_length (dq y) + start_offset (dq y)) with (latest_of_threads y) by lia.
  set (y' := mkShared _ _).
  assert (omap ticket (dpcs y') ≡ₚ omap ticket (dpcs y) ++ [latest_of_threads y]) as Hnew
    by (by apply (omap_insert_new _ _ i (PushLoaded (start_offset (dq y))))).
  assert (length (omap ticket (dpcs y')) = S n) as Hn'.
  { rewrite Hnew, length_app. simpl. fold n. lia. }
  assert (latest_of_threads y' = latest_of_threads y + 1) as HL'.
  { unfold latest_of_threads at 1. rewrite Hn', HL. lia. }
  split; rewrite ?HL', ?Hn'; simpl.
  - by rewrite length_insert.
  - intros j c q Hc' [(<- & <- & _)|[Hne Hj]]%list_lookup_insert_Some.
    + assert (c = CPush v) as -> by congruence. done.
    + pose proof (Hfits _ _ _ Hc' Hj) as Hq. unfold fits in *. rewrite HL'. simpl.
      destruct c, q; try done; try lia.
  - eapply excl_insert; [done|done|done|by left].
  - etrans; [exact Hnew|]. rewrite Htk. replace (Z.of_nat (S n)) with (Z.of_nat n + 1) by lia.
    rewrite seqZ_app by lia. by rewrite HL.
  - rewrite (can_read_insert _ _ (PushLoaded (start_offset (dq y)))) by done. intros _. lia.
  - done.
  - change (allocated (with_length _ _)) with (allocated (dq y)). lia.
  - exists m. split; [by apply slots_with_length|]. destruct Hho as [Hdom Hpush Hset Hold].
    assert (∀ j r, <[i := PushIndexed (start_offset (dq y)) (latest_of_threads y)]> (dpcs y) !! j
      = Some (DDone r) ↔ dpcs y !! j = Some (DDone r)) as Hd.
    { intros j r. rewrite (done_insert _ i (PushLoaded (start_offset (dq y)))); [naive_solver|done|by intros []]. }
    split; simpl; setoid_rewrite Hd; done.
Qed.

(** A push has stored its value. *)
Lemma tinv_pushed y i v pc k bs m :
  tinv y → calls !! i = Some (CPush v) → dpcs y !! i = Some pc → ¬ is_done pc → ticket pc = Some k →
  holds y m → slots_at (with_blocks (dq y) bs) (<[k := v]> m) →
  allocated (dq y) ≤ allocated (with_blocks (dq y) bs) < latest_of_threads y + BLOCK_SIZE →
  tinv (mkShared (with_blocks (dq y) bs) (<[i := DDone (RIndex k)]> (dpcs y))).
Proof.
  intros Hinv Hc Hi Hnd Ht Hho Hsl Hal'. pose proof Hinv as [Hlen Hfits Hexcl Htk Hlat Hst Hal _].
  pose proof (ticket_range _ _ _ _ Hinv Hi Ht) as Hk.
  assert (writing pc = false) as Hw by (by destruct pc).
  set (y' := mkShared _ _).
  assert (latest_of_threads y' = latest_of_threads y) as HL.
  { unfold latest_of_threads. simpl. by rewrite (omap_insert_same _ _ _ pc). }
  split; rewrite ?HL; simpl; try done.
  - by rewrite length_insert.
  - intros j c q Hc' [(<- & <- & _)|[Hne Hj]]%list_lookup_insert_Some.
    + assert (c = CPush v) as -> by congruence. done.
    + pose proof (Hfits _ _ _ Hc' Hj) as Hq. unfold fits in *. by rewrite HL.
  - by eapply excl_insert.
  - by rewrite (omap_insert_same _ _ _ pc).
  - rewrite (can_read_insert _ _ pc) by (done || by rewrite Hw). done.
  - lia.
  - exists (<[k := v]> m). split; [done|]. destruct Hho as [Hdom Hpush Hset Hold]. split; simpl.
    + intros j. setoid_rewrite (done_insert _ i pc); [|done..]. destruct (decide (j = k)) as [->|Hne].
      * rewrite lookup_insert_eq. split; [|by eexists]. intros _. split; [lia|]. right. exists i. by left.
      * rewrite lookup_insert_ne, Hdom by done. naive_solver.
    + intros j k' v' Hj. rewrite (done_insert _ i pc) by done. intros [[-> [= ->]]|Hd].
      * rewrite lookup_insert_eq. congruence.
      * rewrite lookup_insert_ne; [by eapply Hpush|]. intros ->.
        assert (j = i) as -> by (by eapply ticket_unique). rewrite Hi in Hd. injection Hd as ->. by destruct Hnd.
    + intros j k' v' Hj. rewrite (done_insert _ i pc) by done. intros [[_ [=]]|Hd] Hge.
      apply (di_set Hdisc) in Hj as Hlt. rewrite lookup_insert_ne by lia. by eapply Hset.
    + intros k' Hk' Hno. rewrite lookup_insert_ne by lia. apply Hold; [done|].
      intros j v' Hj Hd. apply (Hno j v' Hj), (done_insert _ i pc); [done..|by right].
Qed.

(** A [set] has stored its value. *)
Lemma tinv_set y i k v len start bs m :
  tinv y → calls !! i = Some (CSet k v) → dpcs y !! i = Some (SetLoaded len start) →
  holds y m → start_offset (dq y) ≤ k → slots_at (with_blocks (dq y) bs) (<[k := v]> m) →
  length (concat bs) = length (concat (blocks (dq y))) →
  tinv (mkShared (with_blocks (dq y) bs) (<[i := DDone (RStored true)]> (dpcs y))).
Proof.
  intros Hinv Hc Hi Hho Hge Hsl Hlb. pose proof Hinv as [Hlen Hfits Hexcl Htk Hlat Hst Hal _].
  pose proof (di_set Hdisc _ _ _ Hc) as Hk. set (y' := mkShared _ _).
  assert (latest_of_threads y' = latest_of_threads y) as HL.
  { unfold latest_of_threads. simpl. by rewrite (omap_insert_same _ _ _ (SetLoaded len start)). }
  assert (∀ j r, <[i := DDone (RStored true)]> (dpcs y) !! j = Some (DDone r) ↔
    (j = i ∧ r = RStored true) ∨ dpcs y !! j = Some (DDone r)) as Hdone.
  { intros j r. rewrite (done_insert _ i (SetLoaded len start)); [naive_solver|done|by intros []]. }
  split; rewrite ?HL; simpl; try done.
  - by rewrite length_insert.
  - intros j c q Hc' [(<- & <- & _)|[Hne Hj]]%list_lookup_insert_Some.
    + assert (c = CSet k v) as -> by congruence. done.
    + pose proof (Hfits _ _ _ Hc' Hj) as Hq. unfold fits in *. by rewrite HL.
  - by eapply excl_insert.
  - by rewrite (omap_insert_same _ _ _ (SetLoaded len start)).
  - by rewrite (can_read_insert _ _ (SetLoaded len start)).
  - unfold allocated in *. change (base (with_blocks (dq y) bs)) with (base (dq y)). simpl. by rewrite Hlb.
  - exists (<[k := v]> m). split; [done|]. destruct Hho as [Hdom Hpush Hset Hold]. split; simpl; setoid_rewrite Hdone.
    + intros j. destruct (decide (j = k)) as [->|Hne].
      * rewrite lookup_insert_eq. split; [|by eexists]. intros _. split; [done|lia].
      * rewrite lookup_insert_ne, Hdom by done. naive_solver.
    + intros j k' v' Hj [[_ [=]]|Hd].
      pose proof (ticket_range y j _ k' Hinv Hd eq_refl). rewrite lookup_insert_ne by lia. by eapply Hpush.
    + intros j k' v' Hj Hor Hge'. destruct (decide (k' = k)) as [->|Hne].
      * rewrite lookup_insert_eq. by pose proof (di_sets Hdisc _ _ _ _ _ Hj Hc) as ->; simplify_eq.
      * rewrite lookup_insert_ne by done. destruct Hor as [[-> _]|Hd]; [congruence|by eapply Hset].
    + intros k' Hk' Hno. destruct (decide (k' = k)) as [->|Hne].
      * by destruct (Hno i v Hc); left.
      * rewrite lookup_insert_ne by done. apply Hold; [done|]. intros j v' Hj Hd. by destruct (Hno j v' Hj); right.
Qed.

Lemma remove_begin_spec d idx d' :
  remove_begin (T:=T) d idx = Some d' → 0 ≤ start_offset d → 0 ≤ dq_length d →
  start_offset d + dq_length d ≤ i64_max →
  start_offset d ≤ idx ≤ start_offset d + dq_length d ∧
  d' = with_length d (dq_length d - (idx - start_offset d)).
Proof.
  unfold remove_begin. intros Hr H0 H1 H2. rewrite usize_add_id in Hr by width.
  destruct (Z.ltb_spec (start_offset d + dq_length d) idx); [done|].
  destruct (Z.ltb_spec idx (start_offset d)); [done|]. injection Hr as <-. split; [lia|].
  unfold with_length. rewrite (usize_sub_id idx), usize_sub_id by width. done.
Qed.

(** [length.fetch_sub(..)], under the write lock *)
Lemma tinv_removing y i idx d' :
  tinv y → calls !! i = Some (CRemove idx) → dpcs y !! i = Some DStart → can_write (dpcs y) = true →
  remove_begin (dq y) idx = Some d' →
  tinv (mkShared d' (<[i := RemoveHalf]> (dpcs y))).
Proof.
  intros Hinv Hc Hi Hcw Hr. pose proof Hinv as [Hlen Hfits Hexcl Htk Hlat Hst Hal (m & Hsl & Hho)].
  specialize (Hlat (can_write_read _ Hcw)). pose proof (latest_room _ Hinv) as Hmax.
  pose proof (sa_start _ _ Hsl) as H0. pose proof (di_remove Hdisc _ _ Hc) as Hidx.
  apply remove_begin_spec in Hr as [Hin ->]; [|done|unfold latest_of_threads in *; lia|lia].
  set (y' := mkShared _ _).
  assert (latest_of_threads y' = latest_of_threads y) as HL.
  { unfold latest_of_threads. simpl. by rewrite (omap_insert_same _ _ _ DStart). }
  assert (∀ j r, <[i := RemoveHalf]> (dpcs y) !! j = Some (DDone r) ↔ dpcs y !! j = Some (DDone r)) as Hd.
  { intros j r. rewrite (done_insert _ i DStart); [naive_solver|done|by intros []]. }
  split; rewrite ?HL; simpl; try done.
  - by rewrite length_insert.
  - intros j c q Hc' [(<- & <- & _)|[Hne Hj]]%list_lookup_insert_Some.
    + assert (c = CRemove idx) as -> by congruence. unfold fits. rewrite HL. simpl. lia.
    + pose proof (Hfits _ _ _ Hc' Hj) as Hq. unfold fits in *. rewrite HL. simpl.
      destruct c, q; try done. by destruct (can_write_lookup _ j _ Hcw Hj).
  - intros j k q Hj Hk Hne. apply list_lookup_insert_Some in Hk as [(<- & <- & _)|[Hik Hk]].
    + rewrite list_lookup_insert_ne in Hj by done. by destruct (can_write_lookup _ j _ Hcw Hj).
    + destruct (can_write_lookup _ k _ Hcw Hk). done.
  - by rewrite (omap_insert_same _ _ _ DStart).
  - intros Hcr. destruct (can_read_lookup _ i Hcr). apply list_lookup_insert_eq. by eapply lookup_lt_Some.
  - exists m. split; [by apply slots_with_length|]. destruct Hho as [Hdom Hpush Hset Hold].
    split; simpl; setoid_rewrite Hd; done.
Qed.

(** [start_offset.store(idx)], at the end of the removal *)
Lemma tinv_removed y i idx d' m :
  tinv y → calls !! i = Some (CRemove idx) → dpcs y !! i = Some RemoveHalf → holds y m →
  start_offset d' = idx → dq_length d' = dq_length (dq y) → allocated d' = allocated (dq y) →
  slots_at d' (filter (λ p, idx ≤ p.1) m) →
  tinv (mkShared d' (<[i := DDone (RRemoved (Ok ()))]> (dpcs y))).
Proof.
  intros Hinv Hc Hi Hho Hs' Hl' Ha' Hsl. pose proof Hinv as [Hlen Hfits Hexcl Htk Hlat Hst Hal _].
  destruct (Hfits _ _ _ Hc Hi) as [Hidx HL']. set (y' := mkShared _ _).
  assert (latest_of_threads y' = latest_of_threads y) as HL.
  { unfold latest_of_threads. simpl. by rewrite (omap_insert_same _ _ _ RemoveHalf). }
  assert (∀ j r, (∀ q, r ≠ RRemoved q) → <[i := DDone (RRemoved (Ok ()))]> (dpcs y) !! j = Some (DDone r) ↔
    dpcs y !! j = Some (DDone r)) as Hd.
  { intros j r Hr. rewrite (done_insert _ i RemoveHalf); [naive_solver|done|by intros []]. }
  split; rewrite ?HL; simpl; rewrite ?Hs', ?Ha', ?Hl'; try done.
  - by rewrite length_insert.
  - intros j c q Hc' [(<- & <- & _)|[Hne Hj]]%list_lookup_insert_Some.
    + assert (c = CRemove idx) as -> by congruence. done.
    + pose proof (Hfits _ _ _ Hc' Hj) as Hq. destruct (Hexcl i j q Hi Hj ltac:(done)) as [Hr Hw].
      unfold fits in *. simpl. rewrite Hs'. destruct c, q as [| | | | | | | | | | |[]]; try done; simpl in *; try lia.
      * intros Hb. specialize (Hq Hb). lia.
      * destruct Hq as [?|[? ?]]; [by left|right; split; [done|lia]].
  - by eapply excl_insert.
  - by rewrite (omap_insert_same _ _ _ RemoveHalf).
  - lia.
  - exists (filter (λ p, idx ≤ p.1) m). split; [done|]. destruct Hho as [Hdom Hpush Hset Hold]. split; simpl; rewrite ?Hs'.
    + intros k. assert (∀ j, _) as Hdk by exact (λ j, Hd j (RIndex k) ltac:(done)).
      setoid_rewrite Hdk. unfold is_Some. setoid_rewrite map_lookup_filter_Some. simpl.
      specialize (Hdom k). unfold is_Some in Hdom. split.
      * intros (v & Hv & Hge). split; [done|]. by apply Hdom; exists v.
      * intros [Hge Hor]. destruct (proj2 Hdom) as [v Hv]; [split; [lia|done]|]. by exists v.
    + intros j k v Hj Hk%Hd; [|done]. apply map_lookup_filter_Some. split; [by eapply Hpush|].
      pose proof (ticket_range y j _ k Hinv Hk eq_refl). simpl. lia.
    + intros j k v Hj Hk%Hd Hge; [|done]. apply map_lookup_filter_Some. split; [|done]. eapply Hset; [done|done|lia].
    + intros k Hk Hno. specialize (Hold k ltac:(lia)).
      assert (m !! k = l0 !! Z.to_nat (k - start_offset d0)) as Hmk.
      { apply Hold. intros j v Hj Hdj. apply (Hno j v Hj). by apply Hd. }
      rewrite <- Hmk. destruct (m !! k) as [v|] eqn:E.
      * apply map_lookup_filter_Some. split; [done|simpl; lia].
      * apply map_lookup_filter_None. by left.
Qed.

(** ** Every step *)

(** The side conditions of a move that changes nothing but its thread. *)
Ltac quiet := solve [by intros [] | by left | by right].

(** A thread that moves does not panic and keeps the invariant. *)
(** What a step of a thread comes to. *)
Definition moves_on (y : Shared T) (i : nat) (r : outcome (BlockDeque T * DPc T)) : Prop :=
  ∃ d' pc', r = Ret (d', pc') ∧ tinv (mkShared d' (<[i := pc']> (dpcs y))).

Ltac step_facts :=
  intros Hinv Hc Hi Hstep; pose proof Hinv as [Hlen Hfits Hexcl Htk Hlat Hst Hal (m & Hsl & Hho)];
  pose proof (latest_room _ Hinv) as Hmax; pose proof (sa_start _ _ Hsl) as H0;
  pose proof (Hfits _ _ _ Hc Hi) as Hfit; pose proof (sa_sized _ _ Hsl) as Hsz.

Lemma push_step_ok y i v pc r :
  tinv y → calls !! i = Some (CPush v) → dpcs y !! i = Some pc →
  thread_step (dq y) (dpcs y) (CPush v) pc = Some r → moves_on y i r.
Proof.
  step_facts. destruct pc as [|s|s n|n|len|len s|len|len s|len| | |rep]; try done; simpl in Hstep, Hfit.
  - destruct (can_read _) eqn:E; [|done]. injection Hstep as <-. eexists _, _. split; [done|].
    apply (tinv_quiet y i (CPush v) DStart); try done; quiet.
  - injection Hstep as <-. eexists _, _. split; [done|]. by apply (tinv_add y i v s).
  - subst s. pose proof (ticket_range _ _ _ _ Hinv Hi eq_refl) as Hn.
    pose proof (block_exists (dq y) n Hsz ltac:(lia) ltac:(lia)) as Hbe.
    destruct (Z.ltb_spec (Deque.block_index_of n (start_offset (dq y))) (Z.of_nat (length (blocks (dq y))))) as [Hlt|Hge].
    + apply Hbe in Hlt. destruct (slots_write _ _ n v Hsl) as (bs & Hw & Hsl' & Hlb); [lia|lia|].
      rewrite Hw, bind_ret in Hstep. injection Hstep as <-. eexists _, _. split; [done|].
      apply (tinv_pushed y i v (PushIndexed (start_offset (dq y)) n) n bs m); try done; [by intros []|].
      unfold allocated in *. change (base (with_blocks (dq y) bs)) with (base (dq y)). simpl. rewrite Hlb. lia.
    + injection Hstep as <-. eexists _, _. split; [done|].
      apply (tinv_quiet y i (CPush v) (PushIndexed (start_offset (dq y)) n)); try done; quiet.
  - destruct (can_write _) eqn:E; [|done]. pose proof (ticket_range _ _ _ _ Hinv Hi eq_refl) as Hn.
    destruct (slots_push_write _ _ n v Hsl) as (bs & Hw & Hsl' & Hal'); [lia|].
    rewrite Hw, bind_ret in Hstep. injection Hstep as <-. eexists _, _. split; [done|].
    apply (tinv_pushed y i v (PushWaiting n) n bs m); try done; [by intros []|lia].
Qed.

Lemma set_step_ok y i k v pc r :
  tinv y → calls !! i = Some (CSet k v) → dpcs y !! i = Some pc →
  thread_step (dq y) (dpcs y) (CSet k v) pc = Some r → moves_on y i r.
Proof.
  step_facts. destruct pc as [|s|s n|n|len|len s|len|len s|len| | |rep]; try done; simpl in Hstep, Hfit.
  - destruct (can_read _) eqn:E; [|done]. injection Hstep as <-. eexists _, _. split; [done|].
    apply (tinv_quiet y i (CSet k v) DStart); try done; [quiet..|].
    simpl. specialize (Hlat eq_refl). unfold latest_of_threads in *. lia.
  - injection Hstep as <-. eexists _, _. split; [done|].
    apply (tinv_quiet y i (CSet k v) (SetLength len)); try done; quiet.
  - destruct Hfit as [-> Hlen']. pose proof (di_set Hdisc _ _ _ Hc) as Hk. unfold out_of_range in Hstep.
    pose proof (reader_no_writer _ _ _ Hinv Hi eq_refl) as Hrd.
    rewrite usize_add_id in Hstep by (unfold latest_of_threads in *; width).
    rewrite (proj2 (Z.leb_gt _ _)) in Hstep by lia. simpl in Hstep.
    destruct (Z.ltb_spec k (start_offset (dq y))) as [Hlt|Hge].
    + injection Hstep as <-. eexists _, _. split; [done|].
      apply (tinv_quiet y i (CSet k v) (SetLoaded len (start_offset (dq y)))); try done; quiet.
    + destruct (slots_write _ _ k v Hsl) as (bs & Hw & Hsl' & Hlb); [lia|lia|].
      rewrite Hw, bind_ret in Hstep. injection Hstep as <-. eexists _, _. split; [done|].
      by apply (tinv_set y i k v len (start_offset (dq y)) bs m).
Qed.

Lemma get_step_ok y i k pc r :
  tinv y → calls !! i = Some (CGet k) → dpcs y !! i = Some pc →
  thread_step (dq y) (dpcs y) (CGet k) pc = Some r → moves_on y i r.
Proof.
  step_facts. destruct pc as [|s|s n|n|len|len s|len|len s|len| | |rep]; try done; simpl in Hstep, Hfit.
  - destruct (can_read _) eqn:E; [|done]. injection Hstep as <-. eexists _, _. split; [done|].
    apply (tinv_quiet y i (CGet k) DStart); try done; [quiet..|].
    simpl. specialize (Hlat eq_refl). unfold latest_of_threads in *. lia.
  - injection Hstep as <-. eexists _, _. split; [done|].
    apply (tinv_quiet y i (CGet k) (GetLength len)); try done; quiet.
  - destruct Hfit as [-> Hlen']. pose proof (di_get Hdisc _ _ Hc) as Hk. unfold out_of_range in Hstep.
    rewrite usize_add_id in Hstep by (unfold latest_of_threads in *; width).
    rewrite (proj2 (Z.leb_gt _ _)) in Hstep by lia. simpl in Hstep.
    destruct (Z.ltb_spec k (start_offset (dq y))) as [Hlt|Hge].
    + injection Hstep as <-. eexists _, _. split; [done|].
      apply (tinv_quiet y i (CGet k) (GetLoaded len (start_offset (dq y)))); try done; quiet.
    + destruct (slots_read _ _ k Hsl) as (b & Hb & Hs); [lia|lia|].
      rewrite Hb, bind_ret, Hs, bind_ret in Hstep. injection Hstep as <-. eexists _, _. split; [done|].
      apply (tinv_quiet y i (CGet k) (GetLoaded len (start_offset (dq y)))); try done; [quiet|].
      left. split; [|lia]. apply (ho_old _ _ Hho); [lia|].
      intros j v Hj. by destruct (di_gets Hdisc _ _ _ _ Hj Hc).
Qed.

Lemma latest_step_ok y i pc r :
  tinv y → calls !! i = Some (CLatest) → dpcs y !! i = Some pc →
  thread_step (dq y) (dpcs y) (CLatest) pc = Some r → moves_on y i r.
Proof.
  step_facts. destruct pc as [|s|s n|n|len|len s|len|len s|len| | |rep]; try done; simpl in Hstep, Hfit.
  - injection Hstep as <-. eexists _, _. split; [done|].
    apply (tinv_quiet y i CLatest DStart); try done; quiet.
  - injection Hstep as <-. eexists _, _. split; [done|].
    apply (tinv_quiet y i CLatest (LatestLength len)); try done; quiet.
Qed.

Lemma remove_step_ok y i idx pc r :
  tinv y → calls !! i = Some (CRemove idx) → dpcs y !! i = Some pc →
  thread_step (dq y) (dpcs y) (CRemove idx) pc = Some r → moves_on y i r.
Proof.
  step_facts. destruct pc as [|s|s n|n|len|len s|len|len s|len| | |rep]; try done; simpl in Hstep, Hfit.
  - destruct (can_write _) eqn:E; [|done]. destruct (remove_begin (dq y) idx) as [d'|] eqn:Hr.
    + injection Hstep as <-. eexists _, _. split; [done|]. by apply (tinv_removing y i idx).
    + injection Hstep as <-. eexists _, _. split; [done|].
      apply (tinv_quiet y i (CRemove idx) DStart); try done; quiet.
  - destruct Hfit as [Hidx HL']. destruct (slots_remove _ _ idx Hsl) as (d' & Hr & Hs' & Hl' & Hsl' & Ha'); [lia..|].
    rewrite Hr, bind_ret in Hstep. injection Hstep as <-. eexists _, _. split; [done|].
    by apply (tinv_removed y i idx d' m).
Qed.

Lemma thread_step_ok y i c pc r :
  tinv y → calls !! i = Some c → dpcs y !! i = Some pc → thread_step (dq y) (dpcs y) c pc = Some r →
  moves_on y i r.
Proof.
  intros Hinv Hc Hi Hstep. destruct c as [v|k v|k| |idx|].
  - by eapply push_step_ok.
  - by eapply set_step_ok.
  - by eapply get_step_ok.
  - by eapply latest_step_ok.
  - by eapply remove_step_ok.
  - by destruct (di_clear Hdisc i).
Qed.

Lemma tinv_reachable y : rtc (dstep calls) (dstart d0 calls) y → tinv y.
Proof.
  apply (rtc_ind_r tinv); [exact tinv_start|]. intros x z _ [i c pc d' pc' Hc Hi Hstep] Hinv.
  destruct (thread_step_ok _ _ _ _ _ Hinv Hc Hi Hstep) as (d'' & pc'' & [= <- <-] & Ht). exact Ht.
Qed.

(** ** The end *)

Definition is_push (c : DCall T) : Prop := match c with CPush _ => True | _ => False end.

#[export] Instance is_push_dec c : Decision (is_push c).
Proof. destruct c; apply _. Defined.

Lemma done_tickets y :
  tinv y → Forall is_done (dpcs y) → length (omap ticket (dpcs y)) = length (filter is_push calls).
Proof.
  intros Hinv Hdone.
  assert (Forall2 (λ c pc, is_push c ↔ is_Some (ticket pc)) calls (dpcs y)) as Hall.
  { apply Forall2_same_length_lookup_2; [by rewrite (ti_length _ Hinv)|]. intros i c pc Hc Hi.
    pose proof (ti_fits _ Hinv _ _ _ Hc Hi) as Hf. rewrite Forall_lookup in Hdone. specialize (Hdone _ _ Hi).
    destruct pc as [| | | | | | | | | | |r]; try done. destruct c, r; simpl in *; try done; split; try done; by intros []. }
  clear Hinv Hdone Hdisc Hroom Hrepr. induction Hall as [|c pc cs ps Hcp _ IH]; [done|]. rewrite filter_cons. csimpl.
  case_decide as Hp.
  - apply Hcp in Hp as [t ->]. cbn [length]. by rewrite IH.
  - destruct (ticket pc); [|done]. destruct Hp. apply Hcp. by eexists.
Qed.

(** With every thread at its end there is no slot left to fill. *)
Lemma done_repr y :
  tinv y → Forall is_done (dpcs y) →
  ∃ l, dq_repr (dq y) l ∧ start_offset (dq y) + Z.of_nat (length l) = latest_of_threads y ∧
    ∃ m, holds y m ∧ m = map_seqZ (start_offset (dq y)) l.
Proof.
  intros Hinv Hdone. pose proof Hinv as [Hlen Hfits Hexcl Htk Hlat Hst Hal (m & Hsl & Hho)].
  assert (can_read (dpcs y) = true) as Hcr.
  { apply forallb_forall. intros pc Hpc%list_elem_of_In. rewrite Forall_forall in Hdone.
    specialize (Hdone _ Hpc). by destruct pc. }
  specialize (Hlat Hcr). pose proof (latest_room _ Hinv) as Hmax. set (start := start_offset (dq y)) in *.
  assert (∀ i, is_Some (m !! i) ↔ start ≤ i < latest_of_threads y) as Hfull.
  { intros i. rewrite (ho_dom _ _ Hho). fold start. split.
    - intros [Hge [Hlt|(j & Hj)]]; [unfold latest_of_threads; lia|].
      pose proof (ticket_range y j _ i Hinv Hj eq_refl). lia.
    - intros Hi. split; [lia|]. destruct (decide (i < L0)) as [|Hge]; [by left|right].
      assert (i ∈ omap ticket (dpcs y)) as Hin.
      { rewrite Htk. apply elem_of_seqZ. unfold latest_of_threads in Hi. lia. }
      apply list_elem_of_omap in Hin as (pc & Hpc & Ht). apply list_elem_of_lookup in Hpc as [j Hj].
      rewrite Forall_lookup in Hdone. specialize (Hdone _ _ Hj). exists j. rewrite Hj.
      destruct pc as [| | | | | | | | | | |r]; try done. destruct r; try done. by injection Ht as ->. }
  set (l := omap (λ i, m !! i) (seqZ start (latest_of_threads y - start))).
  destruct (omap_seqZ m start (latest_of_threads y - start)) as [Hl1 Hl2].
  { intros i Hi. apply Hfull. lia. } { unfold latest_of_threads in *. lia. }
  fold l in Hl1, Hl2.
  assert (start ≤ latest_of_threads y) by (unfold latest_of_threads; lia).
  assert (m = map_seqZ start l) as Hm.
  { apply map_eq. intros i. rewrite lookup_map_seqZ. destruct (decide (start ≤ i)) as [Hge|Hlt].
    - rewrite option_guard_True by done. destruct (decide (i < latest_of_threads y)) as [Hlt|Hge'].
      + rewrite Hl2 by lia. f_equal. lia.
      + rewrite lookup_ge_None_2 by lia. destruct (m !! i) eqn:E; [|done].
        assert (is_Some (m !! i)) as Hs%Hfull by (by rewrite E). lia.
    - rewrite option_guard_False by done. destruct (m !! i) eqn:E; [|done].
      assert (is_Some (m !! i)) as Hs%Hfull by (by rewrite E). lia. }
  assert (latest_of_threads y ≤ allocated (dq y)) as Hall.
  { destruct (decide (start < latest_of_threads y)) as [Hlt|]; [|lia].
    destruct (proj2 (Hfull (latest_of_threads y - 1))) as [v Hv]; [lia|].
    apply (sa_stored _ _ Hsl) in Hv. lia. }
  exists l. split; [|split; [lia|by exists m]].
  eapply repr_of_slots; [exact Hsl|exact Hm|lia|fold start; lia|fold start; lia].
Qed.

(** ** Progress *)

(** Some thread is not waiting for a lock. *)
Lemma some_thread_moves y :
  tinv y → ¬ Forall is_done (dpcs y) →
  ∃ i c pc r, calls !! i = Some c ∧ dpcs y !! i = Some pc ∧ thread_step (dq y) (dpcs y) c pc = Some r.
Proof.
  intros Hinv Hnd. pose proof (ti_fits _ Hinv) as Hfits.
  assert (∀ i pc, dpcs y !! i = Some pc → ∃ c, calls !! i = Some c) as Hcall.
  { intros i pc Hi. apply lookup_lt_is_Some. rewrite <- (ti_length _ Hinv). by eapply lookup_lt_Some. }
  destruct (can_write (dpcs y)) eqn:Hcw.
  - apply not_Forall_Exists, Exists_exists in Hnd as (pc & Hin & Hnd); [|apply _].
    apply list_elem_of_lookup in Hin as [i Hi]. destruct (Hcall _ _ Hi) as [c Hc].
    specialize (Hfits _ _ _ Hc Hi). pose proof (can_write_read _ Hcw) as Hcr.
    exists i, c, pc. destruct c, pc as [| | | | | | | | | | |]; try done; simpl; rewrite ?Hcw, ?Hcr;
      repeat case_match; try (by eexists); by destruct Hnd.
  - apply not_true_iff_false in Hcw. unfold can_write in Hcw. rewrite forallb_forall in Hcw.
    assert (Exists (λ pc, reading pc = true ∨ writing pc = true) (dpcs y)) as Hex.
    { destruct (decide (Exists (λ pc, reading pc = true ∨ writing pc = true) (dpcs y))) as [?|Hno]; [done|].
      destruct Hcw. intros pc Hin%list_elem_of_In. rewrite Exists_exists in Hno.
      destruct (writing pc) eqn:E1; [destruct Hno; exists pc; auto|].
      destruct (reading pc) eqn:E2; [destruct Hno; exists pc; auto|done]. }
    apply Exists_exists in Hex as (pc & Hin & Hl). apply list_elem_of_lookup in Hin as [i Hi].
    destruct (Hcall _ _ Hi) as [c Hc]. specialize (Hfits _ _ _ Hc Hi).
    exists i, c, pc. destruct c, pc as [| | | | | | | | | | |]; simpl in *; try done; try (by destruct Hl);
      repeat case_match; by eexists.
Qed.
End invariant.
End Threads.

(** ** Slot accesses under the read lock *)

Import Threads.

(** The slot a thread is about to write ([true]) or read through the block vector. *)
Definition access {T} `{!BlockSize} (calls : list (DCall T)) (y : Shared T) (i : nat) : option (Z * bool) :=
  c ← calls !! i;
  pc ← dpcs y !! i;
  match c, pc with
  | CPush _, PushIndexed start index =>
      if Deque.block_index_of index start <? Z.of_nat (length (blocks (dq y))) then Some (index, true) else None
  | CSet k _, SetLoaded len start => if out_of_range len start k then None else Some (k, true)
  | CGet k, GetLoaded len start => if out_of_range len start k then None else Some (k, false)
  | _, _ => None
  end.

(** ** Properties *)



(** ** A concrete run *)

(** The elements 10 and 20 in one full block. *)
Definition two_elements : BlockDeque Z := mkBlockDeque [[Some 10; Some 20]] 0 2.

Lemma two_elements_repr : dq_repr (H:=block_size_2) two_elements [10; 20].
Proof.
  split; simpl; [lia|width|done|by repeat constructor|]. exists 0%nat. split; [simpl; lia|done].
Qed.

(** Two pushes that both find no block, a [set], a [get] and a removal. *)
Definition sample_threads : list (DCall Z) := [CPush 30; CPush 40; CSet 0 11; CGet 1; CRemove 1; CLatest].

Lemma sample_disciplined : disciplined sample_threads two_elements [10; 20].
Proof.
  assert (∀ (P : nat → DCall Z → Prop), P 0%nat (CPush 30) → P 1%nat (CPush 40) → P 2%nat (CSet 0 11) →
    P 3%nat (CGet 1) → P 4%nat (CRemove 1) → P 5%nat CLatest →
    ∀ j c, sample_threads !! j = Some c → P j c) as Hall.
  { intros P H0 H1 H2 H3 H4 H5 j c Hj. do 6 (destruct j as [|j]; [by injection Hj as <-|]). done. }
  assert (L0 two_elements [10; 20] = 2) as HL by done.
  assert (∀ j i v, sample_threads !! j = Some (CSet i v) → j = 2%nat ∧ i = 0) as Hset.
  { intros j i v Hj. refine (Hall (λ j c, c = CSet i v → j = 2%nat ∧ i = 0) _ _ _ _ _ _ j _ Hj eq_refl); by intros [=]. }
  assert (∀ j i, sample_threads !! j = Some (CGet i) → i = 1) as Hget.
  { intros j i Hj. refine (Hall (λ j c, c = CGet i → i = 1) _ _ _ _ _ _ j _ Hj eq_refl); by intros [=]. }
  split; rewrite ?HL.
  - intros j i v [_ ->]%Hset. lia.
  - intros j i ->%Hget. lia.
  - intros j idx Hj.
    refine (Hall (λ j c, c = CRemove idx → 0 ≤ idx ≤ 2) _ _ _ _ _ _ j _ Hj eq_refl); intros [=]; lia.
  - intros j j' i v v' [-> _]%Hset [-> _]%Hset. done.
  - intros j j' i v [_ ->]%Hset [=]%Hget.
  - intros j Hj. by refine (Hall (λ j c, c ≠ CClear) _ _ _ _ _ _ j _ Hj eq_refl).
Qed.

(** Both pushes take their index before either adds a block. *)
Definition thread_schedule : list nat := [0; 1; 2; 0; 1; 2; 0; 1; 2; 3; 3; 3; 1; 4; 4; 0; 5; 5]%nat.

Definition after_schedule (schedule : list nat) : Shared Z :=
  match dexec (H:=block_size_2) sample_threads (dstart two_elements sample_threads) schedule with
  | Some (Ret y) => y
  | _ => dstart two_elements sample_threads
  end.

Definition sample_shared : Shared Z := after_schedule thread_schedule.

Example sample_shared_end :
  dpcs sample_shared = [DDone (RIndex 2); DDone (RIndex 3); DDone (RStored true); DDone (RGot (Some 20));
                        DDone (RRemoved (Ok ())); DDone (RLatest 4)] ∧
  dq sample_shared = mkBlockDeque [[None; Some 20]; [Some 30; Some 40]] 1 3.
Proof. vm_compute. done. Qed.

Lemma after_schedule_reached schedule :
  rtc (dstep (H:=block_size_2) sample_threads) (dstart two_elements sample_threads) (after_schedule schedule).
Proof.
  unfold after_schedule.
  destruct (dexec (H:=block_size_2) sample_threads (dstart two_elements sample_threads) schedule)
    as [[y|msg]|] eqn:E; [by apply (dexec_sound (H:=block_size_2) _ schedule)|done..].
Qed.



(** ** Without the discipline *)

(** A removal of indexes that pushes have taken but not stored finds no block to clear: it
    panics with the write lock held. In the store this is a compaction at the newest revision
    while two writers wait to add a block. *)
Example removal_overtakes_push_panics :
  dexec (H:=block_size_2) [CPush 30; CPush 40; CRemove 3]
    (dstart two_elements [CPush 30; CPush 40; CRemove 3]) [0; 0; 0; 1; 1; 1; 2; 2]%nat
  = Some (Panic "called `Option::unwrap()` on a `None` value").
Proof. vm_compute. reflexivity. Qed.

(** [latest_revision] reads the length and the start without the lock. With a removal of both
    elements in between it answers 4 when there were never more than 2 ... *)
Example latest_revision_overshoots :
  match dexec (H:=block_size_2) [CLatest; CRemove 2] (dstart two_elements [CLatest; CRemove 2]) [0; 1; 1; 0]%nat with
  | Some (Ret y) => dpcs y !! 0%nat = Some (DDone (RLatest 4))
  | _ => False
  end.
Proof. vm_compute. reflexivity. Qed.

(** ... and in the middle of the removal it answers 0 although there are 2. *)
Example latest_revision_falls_back :
  match dexec (H:=block_size_2) [CLatest; CRemove 2] (dstart two_elements [CLatest; CRemove 2]) [1; 0; 0; 1]%nat with
  | Some (Ret y) => dpcs y !! 0%nat = Some (DDone (RLatest 0))
  | _ => False
  end.
Proof. vm_compute. reflexivity. Qed.

(** [clear] gives up the write lock only when the length is reset, but [push] takes its lock
    twice. One that waits to add a block for index 2 when the deque is cleared adds it to the
    empty deque: its element is there and the length is 0, so nobody finds it, and the pushes
    that come after take the indexes before it. In the store this is a snapshot that is
    installed beside a write. *)
Example clear_beside_push_loses_the_element :
  match dexec (H:=block_size_2) [CPush 30; CClear; CGet 2; CPush 40]
          (dstart two_elements [CPush 30; CClear; CGet 2; CPush 40]) [0; 0; 0; 1; 1; 0; 2; 2; 2; 3; 3; 3]%nat with
  | Some (Ret y) =>
      dpcs y = [DDone (RIndex 2); DDone RCleared; DDone (RGot None); DDone (RIndex 0)] ∧
      dq y = mkBlockDeque [[Some 40; None]; [Some 30; None]] 0 1
  | _ => False
  end.
Proof. vm_compute. done. Qed.
