(* ===== verification/Heap.v ===== *)
(** * [std::collections::BinaryHeap]

    A heap is modelled by its elements, with the [Ord] of their type as [cmp]; [heap_pop]
    takes a greatest one. The two heaps of the program order their elements by the reverse
    of their revisions, so that [pop] yields an element of least revision. *)
From S2P Require Import Prelude.

Section heap.
Context {A : Type} (cmp : A → A → comparison).
Implicit Types (h : list A).

Definition heap_push h (x : A) : list A := x :: h.

Fixpoint heap_pop h : option (A * list A) :=
  match h with
  | [] => None
  | x :: h' =>
      match heap_pop h' with
      | None => Some (x, [])
      | Some (y, r) => match cmp x y with Lt => Some (y, x :: r) | _ => Some (x, h') end
      end
  end.

Definition heap_peek h : option A := fst <$> heap_pop h.

Lemma heap_pop_None h : heap_pop h = None ↔ h = [].
Proof.
  destruct h as [|x h]; [done|]. simpl. split; [|done].
  destruct (heap_pop h) as [[y r]|]; [|done]. by destruct (cmp x y).
Qed.

(** In the reverse order of a key, [pop] takes out one element, of least key. *)
Lemma heap_pop_Some (key : A → Z) h y r :
  (∀ x z, cmp x z = (key z ?= key x)) →
  heap_pop h = Some (y, r) → h ≡ₚ y :: r ∧ Forall (λ z, key y ≤ key z) r.
Proof.
  intros Hcmp. revert y r. induction h as [|x h IH]; intros y r; [done|]. simpl.
  destruct (heap_pop h) as [[z t]|] eqn:E.
  - destruct (IH _ _ eq_refl) as [Hp Hall]. rewrite Hcmp.
    assert (key x ≤ key z → Forall (λ z, key x ≤ key z) h) as Hx.
    { intros Hle. rewrite Hp. constructor; [done|]. eapply Forall_impl; [exact Hall|]. simpl. lia. }
    destruct (Z.compare_spec (key z) (key x)); intros [= <- <-]; try (split; [done|apply Hx; lia]).
    split; [rewrite Hp; apply Permutation_swap|]. constructor; [lia|done].
  - apply heap_pop_None in E as ->. by intros [= <- <-].
Qed.

Lemma heap_pop_is_Some h : h ≠ [] → is_Some (heap_pop h).
Proof. intros Hne. destruct (heap_pop h) eqn:E; [done|]. by apply heap_pop_None in E. Qed.
End heap.

Arguments heap_push : simpl never.
Arguments heap_pop : simpl never.
