(* ===== verification/Types.v ===== *)
(** * Shared data: gRPC statuses, key-values, stored values

    The messages of the etcd API that the store itself produces
    (mvccpb.KeyValue, the gRPC [Status] of its errors) and the stored [Value] of
    src/store.rs. *)
From S2P Require Import Prelude Bytes.

(** [mvccpb.KeyValue] *)
Record KeyValue := mkKeyValue {
  kv_key : ByteArray;
  kv_create_revision : Z;
  kv_mod_revision : Z;
  kv_version : Z;
  kv_value : ByteArray;
  kv_lease : Z;
}.

(** The [tonic::Code]s the services answer with. *)
Inductive Code :=
| Cancelled
| InvalidArgument
| NotFound
| FailedPrecondition
| OutOfRange
| Unimplemented
| Internal
| Unavailable.

(** A [tonic::Status]: its code and its message, a format string with the arguments
    it is rendered with. *)
Inductive Status := mkStatus (code : Code) (message : string) (args : list FmtArg)
with FmtArg :=
| ALossy (b : ByteArray)
| AInt (z : Z)
| ASetError (latest_rev : Z) (kv : option KeyValue)
| AStatus (s : Status)
| AText (s : string).

Definition status_code (s : Status) : Code := match s with mkStatus c _ _ => c end.

(** [store::Value] *)
Record Value := mkValue {
  create_revision : Z;
  mod_revision : Z;
  version : Z;
  value : option ByteArray;
}.

#[export] Instance KeyValue_eq_dec : EqDecision KeyValue.
Proof. solve_decision. Defined.
#[export] Instance Value_eq_dec : EqDecision Value.
Proof. solve_decision. Defined.
#[export] Instance Code_eq_dec : EqDecision Code.
Proof. solve_decision. Defined.

(** A value that is not a tombstone. *)
Definition is_live (v : Value) : bool := bool_decide (is_Some (value v)).

(** [Store::as_mvcc_key_value]: a tombstone is shown with creation revision and
    version zero. *)
Definition as_mvcc_key_value (v : Value) (key : ByteArray) : KeyValue :=
  let is_deleted := match value v with None => true | Some _ => false end in
  {| kv_key := key;
     kv_value := default [] (value v);
     kv_create_revision := if is_deleted then 0 else create_revision v;
     kv_mod_revision := mod_revision v;
     kv_version := if is_deleted then 0 else version v;
     kv_lease := 0 |}.

(** [wal::WalMode]: no log, a buffered log, or a log synced before a write returns. *)
Inductive WalMode := WalNone | WalAsync | WalSync.

#[export] Instance WalMode_eq_dec : EqDecision WalMode.
Proof. solve_decision. Defined.

Record KeyValueWithPrev := mkKeyValueWithPrev {
  prev_kv : option KeyValue;
  kv : KeyValue;
}.

#[export] Instance KeyValueWithPrev_eq_dec : EqDecision KeyValueWithPrev.
Proof. solve_decision. Defined.

Lemma is_live_spec v : is_live v = true ↔ is_Some (value v).
Proof. apply bool_decide_eq_true. Qed.

Lemma is_live_false v : is_live v = false ↔ value v = None.
Proof. unfold is_live. rewrite bool_decide_eq_false, <- eq_None_not_Some. done. Qed.
