(* ===== verification/Prefix.v ===== *)
(** * Key prefixes and ranges (src/store.rs, [prefix_split] and
    [prefix_and_range_of_key])

    The store shards its keys by a prefix computed from the key. This file holds
    the two functions and what they guarantee: splitting loses nothing, keys of
    one prefix are ordered by their suffixes, which prefixes own all of their
    extensions, and what a request's [start, end) means once translated to a range
    of suffixes. *)
From S2P Require Import Prelude Bytes BTreeMap Types.

Definition slash : byte := Byte.x2f.
Definition dot : byte := Byte.x2e.
Definition digit0 : byte := Byte.x30.
Definition nul : byte := Byte.x00.
Definition registry : ByteArray := bytes "/registry/".

(** [segments[n].as_ptr() as usize - key.as_ptr() as usize]: the segments before
    the [n]-th one, each followed by its separator. *)
Fixpoint segment_offset (segments : list ByteArray) (n : nat) {struct n} : nat :=
  match n, segments with
  | S n', s :: segments' => (length s + 1 + segment_offset segments' n')%nat
  | _, _ => 0%nat
  end.

(** [segments[2]] exists whenever the key starts with [/registry/]
    ([registry_segments] below), so its default is never used. *)
Definition prefix_split (key : ByteArray) : ByteArray * ByteArray :=
  if negb (starts_with key registry) then ([], key)
  else
    let segments := splitn 5 slash key in
    if decide (length segments = 1%nat) then ([], key)
    else
      let last_segment :=
        Nat.min (length segments - 1)
          (if starts_with key registry && bool_decide (dot ∈ default [] (segments !! 2%nat))
           then 4 else 3) in
      let prefix_end := segment_offset segments last_segment in
      (take prefix_end key, drop prefix_end key).

Definition prefix_error (start_prefix end_prefix : ByteArray) : Status :=
  mkStatus InvalidArgument "Keys must be in the same prefix: start: {}, end: {}"
    [ALossy start_prefix; ALossy end_prefix].

(** The prefix to scan and the bounds on the suffixes, or an error when the two keys
    are in different prefixes. *)
Definition prefix_and_range_of_key (start end_ : ByteArray) :
    Result (ByteArray * (Bound ByteArray * Bound ByteArray)) Status :=
  let '(start_prefix, start_suffix) := prefix_split start in
  if bool_decide (end_ = []) then
    Ok (start_prefix, (Included start_suffix, Included start_suffix))
  else if bool_decide (end_ = [nul]) then
    Ok (start_prefix, (Included start_suffix, Unbounded))
  else
    let '(end_prefix, end_suffix) := prefix_split end_ in
    if bool_decide (start_prefix ≠ end_prefix) then
      if bool_decide (end_suffix ≠ []) then
        let without_last := take (length end_suffix - 1) end_suffix in
        if (bool_decide (last end_suffix = Some digit0) || bool_decide (last end_suffix = Some nul))
           && bool_decide (start_prefix = end_prefix ++ without_last ++ [slash])
        then Ok (start_prefix, (Included start_suffix, Unbounded))
        else Err (prefix_error start_prefix end_prefix)
      else Err (prefix_error start_prefix end_prefix)
    else if bool_decide (last end_suffix = Some nul)
            && bool_decide (take (length end_suffix - 1) end_suffix = start_suffix)
    then Ok (start_prefix, (Included start_suffix, Unbounded))
    else Ok (start_prefix, (Included start_suffix, Excluded end_suffix)).

(** ** Splitting *)

Lemma prefix_split_app key : (prefix_split key).1 ++ (prefix_split key).2 = key.
Proof.
  unfold prefix_split. destruct (negb _); [done|]. case_decide; [done|].
  simpl. apply take_drop.
Qed.

Lemma prefix_split_inj k1 k2 : prefix_split k1 = prefix_split k2 → k1 = k2.
Proof. intros H. by rewrite <- (prefix_split_app k1), <- (prefix_split_app k2), H. Qed.

Lemma prefix_split_eq key p s : prefix_split key = (p, s) → key = p ++ s.
Proof. intros H. by rewrite <- (prefix_split_app key), H. Qed.

Lemma splitn_cons n sep a b :
  sep ∉ a → splitn (S (S n)) sep (a ++ sep :: b) = a :: splitn (S n) sep b.
Proof.
  intros Ha. cbn [splitn].
  match goal with |- ?go [] _ = _ => set (g := go) end.
  enough (∀ acc, g acc (a ++ sep :: b) = (acc ++ a) :: splitn (S n) sep b) as Hg by apply (Hg []).
  induction a as [|x a IH]; intros acc; simpl.
  - by rewrite bool_decide_true, app_nil_r.
  - apply not_elem_of_cons in Ha as [Hx Ha].
    rewrite bool_decide_false by done. rewrite IH by done. by rewrite <- app_assoc.
Qed.

Lemma splitn_nonempty n sep l : (0 < length (splitn (S n) sep l))%nat.
Proof.
  destruct n as [|n]; [simpl; lia|]. cbn [splitn].
  match goal with |- (_ < length (?go [] _))%nat => set (g := go) end.
  enough (∀ acc, 0 < length (g acc l))%nat by auto.
  induction l as [|x l IH]; intros acc; simpl; [lia|].
  destruct (bool_decide _); simpl; [lia | apply IH].
Qed.

Lemma splitn_nosep n sep l : sep ∉ l → splitn (S n) sep l = [l].
Proof.
  intros Hl. destruct n as [|n]; [done|]. cbn [splitn].
  match goal with |- ?go [] _ = _ => set (g := go) end.
  enough (∀ acc, g acc l = [acc ++ l]) as Hg by apply (Hg []).
  induction l as [|x l IH]; intros acc; simpl; [by rewrite app_nil_r|].
  apply not_elem_of_cons in Hl as [Hx Hl].
  rewrite bool_decide_false by done. rewrite IH by done. by rewrite <- app_assoc.
Qed.

Lemma registry_segments rest :
  splitn 5 slash (registry ++ rest) = [] :: bytes "registry" :: splitn 3 slash rest.
Proof.
  change (registry ++ rest) with ([] ++ slash :: (bytes "registry" ++ slash :: rest)).
  by rewrite splitn_cons by (by intros ?%elem_of_nil).
Qed.

(** A prefix that owns its extensions: every key that starts with it is split there,
    so that scanning this prefix sees all of them. *)
Definition owns_extensions (p : ByteArray) : Prop := ∀ z, prefix_split (p ++ z) = (p, z).

Lemma prefix_split_registry rest :
  prefix_split (registry ++ rest) =
    let segments := splitn 3 slash rest in
    let last := Nat.min (length segments + 1) (if bool_decide (dot ∈ default [] (head segments)) then 4 else 3) in
    let n := segment_offset ([] :: bytes "registry" :: segments) last in
    (take n (registry ++ rest), drop n (registry ++ rest)).
Proof.
  unfold prefix_split. rewrite starts_with_app. simpl negb. cbv iota.
  rewrite registry_segments. set (segments := splitn 3 slash rest).
  pose proof (splitn_nonempty 2 slash rest) as Hne. fold segments in Hne.
  rewrite decide_False by (simpl; lia). cbn [length andb].
  replace (S (S (length segments)) - 1)%nat with (length segments + 1)%nat by lia.
  by destruct segments.
Qed.

Lemma split_at_length (p z k : ByteArray) n :
  k = p ++ z → n = length p → (take n k, drop n k) = (p, z).
Proof. intros -> ->. by rewrite take_app_length, drop_app_length. Qed.

(** Built-in resources, [/registry/<resource>/]. *)
Lemma resource_prefix_owns seg :
  slash ∉ seg → dot ∉ seg → owns_extensions (registry ++ seg ++ [slash]).
Proof.
  intros Hs Hd z. rewrite <- !app_assoc, prefix_split_registry.
  change ([slash] ++ z) with (slash :: z). rewrite splitn_cons by done. cbn [head default]. rewrite bool_decide_false by done.
  pose proof (splitn_nonempty 1 slash z). cbn [length].
  replace (Nat.min _ 3) with 3%nat by lia.
  apply split_at_length; [by rewrite <- !app_assoc|].
  rewrite !length_app. simpl. lia.
Qed.

(** Custom resources, [/registry/<group with a dot>/<resource>/]. *)
Lemma crd_prefix_owns seg res :
  slash ∉ seg → dot ∈ seg → slash ∉ res →
  owns_extensions (registry ++ seg ++ [slash] ++ res ++ [slash]).
Proof.
  intros Hs Hd Hr z. rewrite <- !app_assoc, prefix_split_registry.
  change ([slash] ++ res ++ [slash] ++ z) with (slash :: res ++ slash :: z).
  rewrite !splitn_cons by done.
  cbn [head default]. rewrite bool_decide_true by done. cbn [length splitn].
  replace (Nat.min _ 4) with 4%nat by lia.
  apply split_at_length; [by rewrite <- !app_assoc|].
  rewrite !length_app. simpl. lia.
Qed.

(** ** Ranges *)

(** The keys a request [key, range_end) denotes (rpc.proto, RangeRequest). *)
Definition key_in_range (start end_ k : ByteArray) : Prop :=
  if bool_decide (end_ = []) then k = start
  else if bool_decide (end_ = [nul]) then ole start k
  else ole start k ∧ olt k end_.

Lemma prefix_order (p x y : ByteArray) : cmp (p ++ x) (p ++ y) = cmp x y.
Proof. apply list_cmp_app. Qed.

Lemma in_bounds_included (s x : ByteArray) : in_bounds (Included s, Included s) x = true ↔ x = s.
Proof.
  unfold in_bounds; simpl. rewrite andb_true_iff, !oleb_le, !ole_not_lt. split.
  - intros [??]. by destruct (olt_total x s) as [?|[?|?]].
  - intros ->. split; apply olt_irrefl.
Qed.

Lemma in_bounds_from (s x : ByteArray) : in_bounds (Included s, Unbounded) x = true ↔ ole s x.
Proof. unfold in_bounds; simpl. by rewrite andb_true_r, oleb_le. Qed.

Lemma in_bounds_interval (s e x : ByteArray) :
  in_bounds (Included s, Excluded e) x = true ↔ ole s x ∧ olt x e.
Proof. unfold in_bounds; simpl. by rewrite andb_true_iff, oleb_le, oltb_lt. Qed.

(** The successor convention: [X ++ "0"] bounds exactly the extensions of [X ++ "/"]. *)
Lemma successor_range (x s k : ByteArray) :
  (ole ((x ++ [slash]) ++ s) k ∧ olt k (x ++ [digit0])) ↔
  ∃ z, k = (x ++ [slash]) ++ z ∧ ole s z.
Proof.
  split.
  - intros [Hlo Hhi]. rewrite <- app_assoc in Hlo.
    destruct (list_between_prefix x ([slash] ++ s) [digit0] k Hlo Hhi) as [z ->].
    unfold ole, olt in *. rewrite prefix_order in *.
    destruct z as [|b z]; [done|]. simpl in *.
    assert (b = slash) as ->.
    { unfold cmp, list_ord in Hlo, Hhi. simpl in Hlo, Hhi.
      apply byte_val_inj. unfold cmp, byte_ord in *.
      assert (¬ (Byte.to_N b < Byte.to_N slash)%N).
      { intros Hlt. rewrite <- N.compare_gt_iff in Hlt. by rewrite Hlt in Hlo. }
      assert (Byte.to_N b < Byte.to_N digit0)%N.
      { destruct (Byte.to_N b ?= Byte.to_N digit0)%N eqn:E; [by destruct z | by apply N.compare_lt_iff | done]. }
      unfold byte_val. change (Byte.to_N slash) with 47%N in *. change (Byte.to_N digit0) with 48%N in *. lia. }
    exists z. rewrite <- app_assoc. split; [done|].
    by rewrite <- (prefix_order [slash] s z).
  - intros (z & -> & Hz). unfold ole, olt. rewrite prefix_order. split; [done|].
    rewrite <- app_assoc, prefix_order. done.
Qed.

Lemma last_without_last (l : ByteArray) b :
  last l = Some b → l = take (length l - 1) l ++ [b].
Proof.
  intros [l' ->]%last_Some. rewrite length_app. simpl.
  by rewrite Nat.add_sub, take_app_length.
Qed.

Lemma last_suffix (p s : ByteArray) b : last s = Some b → last (p ++ s) = Some b.
Proof. intros [l ->]%last_Some. by rewrite app_assoc, last_snoc. Qed.

(** What the bounds of a well-behaved request mean: the suffixes within bounds are
    those of the requested keys. *)
Lemma range_bounds_exact_aux start end_ p r :
  prefix_and_range_of_key start end_ = Ok (p, r) → last end_ ≠ Some nul →
  ∀ k, key_in_range start end_ k ↔ ∃ s, k = p ++ s ∧ in_bounds r s = true.
Proof.
  unfold prefix_and_range_of_key, key_in_range.
  destruct (prefix_split start) as [sp ss] eqn:Es. apply prefix_split_eq in Es as ->.
  case_bool_decide.
  { intros [= <- <-] _ k. setoid_rewrite in_bounds_included. naive_solver. }
  case_bool_decide as Hnul; [subst; simpl; naive_solver|].
  destruct (prefix_split end_) as [ep es] eqn:Ee. apply prefix_split_eq in Ee as ->.
  intros Hr Hlast k.
  assert (last es ≠ Some nul) as Hes by (intros ?; by apply Hlast, last_suffix).
  rewrite (bool_decide_false (last es = Some nul)) in Hr by done.
  case_bool_decide as Hp; revert Hr.
  - case_bool_decide; [|done]. rewrite orb_false_r.
    case_bool_decide as Hd; [|done]. simpl. case_bool_decide as Hsp; [|done].
    intros [= <- <-]. setoid_rewrite in_bounds_from.
    rewrite (last_without_last _ _ Hd), Hsp, !app_assoc. apply successor_range.
  - subst ep. simpl. intros [= <- <-]. setoid_rewrite in_bounds_interval.
    split.
    + intros [Hlo Hhi]. destruct (list_between_prefix _ _ _ _ Hlo Hhi) as [s ->].
      exists s. unfold ole, olt in *. by rewrite !prefix_order in *.
    + intros (s & -> & ? & ?). unfold ole, olt in *. by rewrite !prefix_order.
Qed.

(** A range is refused exactly when it leaves the prefix and is not the successor
    form of it. *)
Lemma range_refused start end_ e :
  prefix_and_range_of_key start end_ = Err e →
  end_ ≠ [] ∧ (prefix_split start).1 ≠ (prefix_split end_).1.
Proof.
  unfold prefix_and_range_of_key.
  destruct (prefix_split start) as [sp ss], (prefix_split end_) as [ep es].
  repeat case_bool_decide; simpl; try done.
Qed.

(** ** Properties *)

(** Splitting a key loses nothing, and within the prefixes Kubernetes stores its
    resources under, [/registry/<resource>/] and [/registry/<group.with.dot>/<resource>/],
    every extension of the prefix is split exactly there. *)
Theorem prefix_split_resources (seg res z : ByteArray) :
  slash ∉ seg → slash ∉ res →
  (∀ key, (prefix_split key).1 ++ (prefix_split key).2 = key) ∧
  (dot ∉ seg → prefix_split (registry ++ seg ++ [slash] ++ z) = (registry ++ seg ++ [slash], z)) ∧
  (dot ∈ seg → prefix_split (registry ++ seg ++ [slash] ++ res ++ [slash] ++ z)
               = (registry ++ seg ++ [slash] ++ res ++ [slash], z)).
Proof.
  intros Hs Hr. split; [apply prefix_split_app|]. split; intros Hd.
  - pose proof (resource_prefix_owns seg Hs Hd z) as H. by rewrite <- !app_assoc in H.
  - pose proof (crd_prefix_owns seg res Hs Hd Hr z) as H. by rewrite <- !app_assoc in H.
Qed.

Lemma prefix_split_resources_witness :
  prefix_split (bytes "/registry/pods/kube-system/foo") = (bytes "/registry/pods/", bytes "kube-system/foo") ∧
  prefix_split (bytes "/registry/apigroup-example.com/my-resources/foo")
    = (bytes "/registry/apigroup-example.com/my-resources/", bytes "foo").
Proof.
  split.
  - refine (proj1 (proj2 (prefix_split_resources (bytes "pods") [] (bytes "kube-system/foo") _ _)) _);
      apply (bool_decide_unpack _); vm_compute; exact I.
  - refine (proj2 (proj2 (prefix_split_resources (bytes "apigroup-example.com") (bytes "my-resources")
      (bytes "foo") _ _)) _); apply (bool_decide_unpack _); vm_compute; exact I.
Defined.

(** A request [start, end) that is accepted and whose end does not use the NUL
    conventions is translated exactly: a key is in the requested range iff it is the
    scanned prefix followed by a suffix within the computed bounds. *)
Theorem range_bounds_exact start end_ p r :
  prefix_and_range_of_key start end_ = Ok (p, r) → last end_ ≠ Some nul →
  ∀ k, key_in_range start end_ k ↔ ∃ s, k = p ++ s ∧ in_bounds r s = true.
Proof. apply range_bounds_exact_aux. Qed.

Lemma range_bounds_exact_witness :
  key_in_range (bytes "/registry/pods/") (bytes "/registry/pods0") (bytes "/registry/pods/a") ↔
  ∃ s, bytes "/registry/pods/a" = bytes "/registry/pods/" ++ s ∧
       in_bounds (Included [], Unbounded) s = true.
Proof.
  exact (range_bounds_exact (bytes "/registry/pods/") (bytes "/registry/pods0") _ _ eq_refl
    ltac:(discriminate) (bytes "/registry/pods/a")).
Defined.
