(* ===== verification/History.v ===== *)
(** * The abstract store: a multi-version history

    What the store promises is stated on its history: the list of all the changes,
    the change of revision [r] at position [r - 1]. A change is a key and the value
    it received; [None] stands for a revision whose change is unknown (the holes a
    snapshot import leaves). Reading a key at a revision is finding its last change
    in the prefix of that length; a compaction only forgets how to read some of
    them ([found]). *)
From S2P Require Import Prelude Bytes Types.

Abbreviation change := (option (ByteArray * Value)).
Abbreviation history := (list change).

Definition change_of (k : ByteArray) (c : change) : option Value :=
  match c with
  | Some (k', v) => if decide (k' = k) then Some v else None
  | None => None
  end.

(** The values a key received, oldest first. *)
Definition events (h : history) (k : ByteArray) : list Value := omap (change_of k) h.

Definition latest_of (h : history) (k : ByteArray) : option Value := last (events h k).

Definition value_at (h : history) (k : ByteArray) (rev : Z) : option Value :=
  latest_of (take (Z.to_nat rev) h) k.

(** The live value of a key at a revision: the reference semantics of a read. *)
Definition live_at (h : history) (k : ByteArray) (rev : Z) : option Value :=
  v ← value_at h k rev; if is_live v then Some v else None.

(** What a read finds when revisions up to [compacted] have been dropped: the values
    newer than it and the latest value of each key. *)
Definition found (h : history) (compacted : Z) (k : ByteArray) (rev : Z) : option Value :=
  v ← value_at h k rev;
  if is_live v && ((compacted <? mod_revision v) || bool_decide (latest_of h k = Some v))
  then Some v else None.

(** The changes carry their own revision. *)
Definition hist_ok (h : history) : Prop :=
  ∀ i k v, h !! i = Some (Some (k, v)) → mod_revision v = Z.of_nat i + 1.

(** ** Events *)

Lemma events_app h1 h2 k : events (h1 ++ h2) k = events h1 k ++ events h2 k.
Proof. apply omap_app. Qed.

Lemma events_snoc_eq h k v : events (h ++ [Some (k, v)]) k = events h k ++ [v].
Proof. rewrite events_app. simpl. by rewrite decide_True. Qed.

Lemma events_snoc_ne h k k' v : k' ≠ k → events (h ++ [Some (k', v)]) k = events h k.
Proof. intros. rewrite events_app. simpl. rewrite decide_False by done. apply app_nil_r. Qed.

Lemma events_snoc_none h k : events (h ++ [None]) k = events h k.
Proof. rewrite events_app. apply app_nil_r. Qed.

Lemma latest_of_snoc_eq h k v : latest_of (h ++ [Some (k, v)]) k = Some v.
Proof. unfold latest_of. by rewrite events_snoc_eq, last_snoc. Qed.

Lemma latest_of_snoc_ne h k k' v :
  k' ≠ k → latest_of (h ++ [Some (k', v)]) k = latest_of h k.
Proof. intros. unfold latest_of. by rewrite events_snoc_ne. Qed.

Lemma elem_of_events h k v : v ∈ events h k ↔ Some (k, v) ∈ h.
Proof.
  unfold events. rewrite list_elem_of_omap. split.
  - intros ([[k' v']|] & Hin & He); [|done]. simpl in He. case_decide; naive_solver.
  - intros Hin. exists (Some (k, v)). split; [done|]. simpl. by rewrite decide_True.
Qed.

Lemma hist_ok_nil : hist_ok [].
Proof. intros i k v. by rewrite lookup_nil. Qed.

Lemma hist_ok_snoc h k v :
  hist_ok h → mod_revision v = Z.of_nat (length h) + 1 → hist_ok (h ++ [Some (k, v)]).
Proof.
  intros Hh Hv i k' v' [Hi|[Hi Heq]]%lookup_app_Some; [by eapply Hh|].
  apply list_lookup_singleton_Some in Heq as [? [= <- <-]].
  rewrite Hv. f_equal. f_equal. lia.
Qed.

Lemma hist_ok_snoc_none h : hist_ok h → hist_ok (h ++ [None]).
Proof.
  intros Hh i k' v' [Hi|[Hi Heq]]%lookup_app_Some; [by eapply Hh|].
  by apply list_lookup_singleton_Some in Heq as [? ?].
Qed.

Lemma hist_ok_app_l h1 h2 : hist_ok (h1 ++ h2) → hist_ok h1.
Proof. intros Hh i k v Hi. by eapply Hh, lookup_app_l_Some. Qed.

Lemma hist_ok_take h n : hist_ok h → hist_ok (take n h).
Proof. intros Hh i k v Hi. apply lookup_take_Some in Hi as [? ?]. eauto. Qed.

(** ** The revisions of a key *)

Definition revs_of (h : history) (k : ByteArray) : list Z := mod_revision <$> events h k.

Lemma event_lookup h k v :
  hist_ok h → v ∈ events h k →
  1 ≤ mod_revision v ≤ Z.of_nat (length h) ∧
  h !! Z.to_nat (mod_revision v - 1) = Some (Some (k, v)).
Proof.
  intros Hh Hv%elem_of_events. apply list_elem_of_lookup in Hv as [i Hi].
  pose proof (Hh _ _ _ Hi) as Hm. pose proof (lookup_lt_Some _ _ _ Hi).
  rewrite Hm. split; [lia|]. by replace (Z.to_nat _) with i by lia.
Qed.

Lemma latest_of_lookup h k v :
  hist_ok h → latest_of h k = Some v →
  1 ≤ mod_revision v ≤ Z.of_nat (length h) ∧
  h !! Z.to_nat (mod_revision v - 1) = Some (Some (k, v)).
Proof.
  intros Hh Hv. apply event_lookup; [done|]. by apply last_Some_elem_of.
Qed.

Lemma revs_of_bound h k :
  hist_ok h → Forall (λ r, 1 ≤ r ≤ Z.of_nat (length h)) (revs_of h k).
Proof.
  intros Hh. apply Forall_fmap, Forall_forall. intros v Hv. by apply (event_lookup h k v).
Qed.

(** The events after the first [n] changes are newer than [n]. *)
Lemma events_drop_newer h k n v :
  hist_ok h → v ∈ events (drop n h) k → Z.of_nat n < mod_revision v.
Proof.
  intros Hh Hv%elem_of_events. apply list_elem_of_lookup in Hv as [i Hi].
  rewrite lookup_drop in Hi. rewrite (Hh _ _ _ Hi). lia.
Qed.

Lemma events_take_older h k n v :
  hist_ok h → v ∈ events (take n h) k → mod_revision v ≤ Z.of_nat n.
Proof.
  intros Hh Hv. apply event_lookup in Hv as [Hv _]; [|by apply hist_ok_take].
  rewrite length_take in Hv. lia.
Qed.

Lemma events_take_drop h k n : events h k = events (take n h) k ++ events (drop n h) k.
Proof. by rewrite <- events_app, take_drop. Qed.

(** What is drawn from the changes, in order, is in revision order. *)
Lemma omap_revs_sorted {B} (f : change → option B) (g : B → Z) h :
  (∀ c b, f c = Some b → ∃ k v, c = Some (k, v) ∧ g b = mod_revision v) →
  hist_ok h → StronglySorted Z.lt (g <$> omap f h).
Proof.
  intros Hf. induction h as [|c h IH] using rev_ind; intros Hh; [constructor|].
  pose proof (hist_ok_app_l _ _ Hh) as Hh'. rewrite omap_app, fmap_app. csimpl.
  destruct (f c) as [b|] eqn:E; csimpl; [|by rewrite app_nil_r; apply IH].
  destruct (Hf _ _ E) as (k & v & -> & ->).
  assert (mod_revision v = Z.of_nat (length h) + 1) as ->.
  { apply (Hh (length h) k v). by rewrite lookup_app_r, Nat.sub_diag by lia. }
  apply StronglySorted_app_lt; [by apply IH|]. apply Forall_fmap, Forall_forall.
  intros b' (c' & Hc' & Hb')%list_elem_of_omap. destruct (Hf _ _ Hb') as (k' & v' & -> & ?). simpl.
  apply list_elem_of_lookup in Hc' as [i Hi]. pose proof (Hh' _ _ _ Hi). apply lookup_lt_Some in Hi. lia.
Qed.

Lemma revs_of_sorted h k : hist_ok h → StronglySorted Z.lt (revs_of h k).
Proof.
  apply omap_revs_sorted. intros [[k' v']|] v; simpl; [|done]. case_decide; naive_solver.
Qed.

(** The revisions at most [rev] are those of the first [rev] changes. *)
Lemma revs_of_filter h k rev :
  hist_ok h → 0 ≤ rev →
  filter (λ r, r ≤ rev) (revs_of h k) = revs_of (take (Z.to_nat rev) h) k.
Proof.
  intros Hh Hrev. unfold revs_of at 1.
  rewrite (events_take_drop h k (Z.to_nat rev)), fmap_app, filter_app.
  rewrite (filter_all _ (mod_revision <$> events (take _ _) _)).
  - rewrite (filter_none _ (mod_revision <$> events (drop _ _) _)); [apply app_nil_r|].
    apply Forall_fmap, Forall_forall. intros v Hv. apply events_drop_newer in Hv; [simpl; lia|done].
  - apply Forall_fmap, Forall_forall. intros v Hv. apply events_take_older in Hv; [simpl; lia|done].
Qed.

Lemma value_at_last h k rev :
  mod_revision <$> value_at h k rev = last (revs_of (take (Z.to_nat rev) h) k).
Proof. unfold value_at, latest_of, revs_of. by rewrite fmap_last. Qed.

Lemma value_at_full h k rev : Z.of_nat (length h) ≤ rev → value_at h k rev = latest_of h k.
Proof. intros. unfold value_at. by rewrite take_ge by lia. Qed.

(** When the latest change is not newer than [rev], it is what [rev] sees. *)
Lemma value_at_latest h k rev v :
  hist_ok h → 0 ≤ rev → latest_of h k = Some v → mod_revision v ≤ rev → value_at h k rev = Some v.
Proof.
  intros Hh Hrev Hv Hle. unfold value_at, latest_of in *.
  rewrite (events_take_drop h k (Z.to_nat rev)) in Hv.
  destruct (events (drop _ h) k) as [|w l] eqn:E using rev_ind; [by rewrite app_nil_r in Hv|].
  clear IHl. rewrite app_assoc, last_snoc in Hv. injection Hv as ->.
  assert (v ∈ events (drop (Z.to_nat rev) h) k) as Hin by (rewrite E; set_solver).
  apply events_drop_newer in Hin; [lia|done].
Qed.

Lemma value_at_none h k rev : latest_of h k = None → value_at h k rev = None.
Proof.
  unfold value_at, latest_of. rewrite !last_None, (events_take_drop h k (Z.to_nat rev)).
  by intros [-> _]%app_nil.
Qed.

Lemma value_at_event h k rev v : value_at h k rev = Some v → v ∈ events h k.
Proof.
  intros Hv%last_Some_elem_of. rewrite (events_take_drop h k (Z.to_nat rev)). set_solver.
Qed.

Lemma value_at_lookup h k rev v :
  hist_ok h → value_at h k rev = Some v →
  1 ≤ mod_revision v ≤ Z.of_nat (length h) ∧
  h !! Z.to_nat (mod_revision v - 1) = Some (Some (k, v)).
Proof.
  intros Hh Hv%value_at_event. by apply event_lookup.
Qed.

(** With nothing compacted away a read is exact. *)
Lemma found_live_uncompacted h k rev :
  hist_ok h → found h 0 k rev = live_at h k rev.
Proof.
  intros Hh. unfold found, live_at. destruct (value_at h k rev) as [v|] eqn:E; [|done]. simpl.
  apply value_at_lookup in E as [? _]; [|done].
  by rewrite (proj2 (Z.ltb_lt 0 _)), andb_true_r by lia.
Qed.

(** At the latest revision a read is exact, whatever was compacted. *)
Lemma found_live_latest h c k rev :
  Z.of_nat (length h) ≤ rev → found h c k rev = live_at h k rev.
Proof.
  intros Hrev. unfold found, live_at. rewrite value_at_full by done.
  destruct (latest_of h k) as [v|] eqn:E; [|done]. simpl.
  by rewrite (bool_decide_true (Some v = Some v)), orb_true_r, andb_true_r by done.
Qed.
