(* ===== verification/Store.v ===== *)
(** * The store (src/store.rs)

    The state and the operations of [Store]: conditional writes and deletes, the
    WAL-replay writes, point and range reads at a revision, watch registration with
    its past changes, notification of watchers, compaction, and the export and
    import of Raft snapshots. The [Arc<RwLock<TreeItem>>] cells that [tree_map] and
    [prefix_map] share are modelled as locations in a heap of items, so that both
    indexes see one item. Metrics and timers are left out. *)
From S2P Require Import Prelude Bytes BTreeMap BlockDeque Types Prefix.

(** A location: the identity of an [Arc<RwLock<TreeItem>>]. *)
Abbreviation loc := nat.

Record TreeItem := mkTreeItem {
  item_key : ByteArray;
  revisions : list Z;
  latest_value : Value;
}.

Record PrefixMapItem := mkPrefixMapItem { btree : BTreeMap ByteArray loc }.

(** [ch] names the channel whose sender the watcher holds. *)
Record Watcher := mkWatcher {
  start_revision : Z;
  key_range_start : ByteArray;
  key_range_end : ByteArray;
  ch : nat;
}.

Record SetRequired := mkSetRequired {
  required_last_revision : option Z;
  required_version : option Z;
  compare_result : Z;
}.

Record RangeResult := mkRangeResult {
  kvs : list KeyValue;
  latest_rev : Z;
  count : Z;
}.

(** [wal_handled] is the identity of the [Notify] the writer awaits. *)
Record NotifyJob := mkNotifyJob {
  job_rev : Z;
  job_watchers : list nat;
  job_msg : KeyValueWithPrev;
  job_prefix : ByteArray;
  job_size : Z;
  wal_handled : option nat;
}.

(** A bounded [mpsc] channel: the messages enqueued and whether its receiver lives. *)
Record Channel := mkChannel { queue : list KeyValueWithPrev; rx_open : bool }.

Definition WATCH_CHANNEL_SIZE : nat := 10000.

Record Store := mkStore {
  prefix_map : gmap ByteArray PrefixMapItem;
  tree_map : gmap ByteArray loc;
  arcs : list TreeItem;
  values_by_revision : BlockDeque Value;
  watchers : BTreeMap (ByteArray * Z) Watcher;
  watch_counter : Z;
  wal : option WalMode;
  notify_tx : list NotifyJob;
  progress_rev : Z;
  channels : list Channel;
  next_notify : nat;
}.

#[export] Instance PrefixMapItem_inhabited : Inhabited PrefixMapItem := populate (mkPrefixMapItem []).

(** The value of a key that was never written. *)
Definition null_value : Value :=
  {| create_revision := 0; mod_revision := 0; version := 0; value := None |}.

(** The value pushed to reserve a revision. *)
Definition placeholder_value : Value :=
  {| create_revision := 0; mod_revision := 0; version := 1; value := None |}.

(** The error of a conditional write: the current revision and the conflicting
    key-value. *)
Abbreviation SetError := (Z * option KeyValue)%type.

(** ** State updates *)

Definition with_arcs (s : Store) (a : list TreeItem) : Store :=
  {| prefix_map := prefix_map s; tree_map := tree_map s; arcs := a;
     values_by_revision := values_by_revision s; watchers := watchers s;
     watch_counter := watch_counter s; wal := wal s; notify_tx := notify_tx s;
     progress_rev := progress_rev s; channels := channels s; next_notify := next_notify s |}.

Definition with_values (s : Store) (d : BlockDeque Value) : Store :=
  {| prefix_map := prefix_map s; tree_map := tree_map s; arcs := arcs s;
     values_by_revision := d; watchers := watchers s;
     watch_counter := watch_counter s; wal := wal s; notify_tx := notify_tx s;
     progress_rev := progress_rev s; channels := channels s; next_notify := next_notify s |}.

Definition with_index (s : Store) (pm : gmap ByteArray PrefixMapItem) (tm : gmap ByteArray loc)
    (a : list TreeItem) : Store :=
  {| prefix_map := pm; tree_map := tm; arcs := a;
     values_by_revision := values_by_revision s; watchers := watchers s;
     watch_counter := watch_counter s; wal := wal s; notify_tx := notify_tx s;
     progress_rev := progress_rev s; channels := channels s; next_notify := next_notify s |}.

Definition with_jobs (s : Store) (js : list NotifyJob) (n : nat) : Store :=
  {| prefix_map := prefix_map s; tree_map := tree_map s; arcs := arcs s;
     values_by_revision := values_by_revision s; watchers := watchers s;
     watch_counter := watch_counter s; wal := wal s; notify_tx := js;
     progress_rev := progress_rev s; channels := channels s; next_notify := n |}.

Definition with_watchers (s : Store) (w : BTreeMap (ByteArray * Z) Watcher) (c : Z)
    (chs : list Channel) : Store :=
  {| prefix_map := prefix_map s; tree_map := tree_map s; arcs := arcs s;
     values_by_revision := values_by_revision s; watchers := w;
     watch_counter := c; wal := wal s; notify_tx := notify_tx s;
     progress_rev := progress_rev s; channels := chs; next_notify := next_notify s |}.

(** ** Revisions *)

Definition current_revision (s : Store) : Z := as_i64 (Deque.latest_revision (values_by_revision s)).

Definition compacted_revision (s : Store) : Z := as_i64 (Deque.earliest_revision (values_by_revision s)).

Definition watcher_count (s : Store) : Z := Z.of_nat (length (watchers s)).

Definition progress_revision (s : Store) : Z := progress_rev s.

(** ** The empty store *)

Definition new_store (mode : option WalMode) : Store :=
  {| prefix_map := ∅; tree_map := ∅; arcs := []; values_by_revision := Deque.new;
     watchers := []; watch_counter := 0; wal := mode; notify_tx := [];
     progress_rev := 0; channels := []; next_notify := 0 |}.

(** ** The indexes *)

(** [prefix_map.entry(prefix).or_insert_with(..).btree.insert(suffix, item)] *)
Definition prefix_insert (pm : gmap ByteArray PrefixMapItem) (prefix suffix : ByteArray) (l : loc) :
    gmap ByteArray PrefixMapItem :=
  let prefix_item := default (mkPrefixMapItem []) (pm !! prefix) in
  <[prefix := mkPrefixMapItem (bt_insert (btree prefix_item) suffix l)]> pm.

(** Allocates an item and enters it in both maps under [key]. *)
Definition insert_item (s : Store) (key : ByteArray) (item : TreeItem) : Store :=
  let '(prefix, suffix) := prefix_split key in
  let l := length (arcs s) in
  with_index s (prefix_insert (prefix_map s) prefix suffix l) (<[key := l]> (tree_map s))
    (arcs s ++ [item]).

(** The [entry()] step of [set]: the existing item, or a fresh placeholder. The
    boolean is [is_new_item]. *)
Definition set_entry (s : Store) (key : ByteArray) : Store * loc * bool :=
  match tree_map s !! key with
  | Some l => (s, l, false)
  | None =>
      let item := {| item_key := key; revisions := []; latest_value := null_value |} in
      (insert_item s key item, length (arcs s), true)
  end.

(** ** Writing *)

(** The comparison of a transaction: 0 EQUAL, 1 GREATER, 2 LESS, 3 NOT_EQUAL. *)
Definition cmp_satisfied (cmp existing target : Z) : bool :=
  if cmp =? 1 then target <? existing
  else if cmp =? 2 then existing <? target
  else if cmp =? 3 then negb (existing =? target)
  else existing =? target.

Definition req_last_revision (required : option SetRequired) : Z :=
  default (-1) (required ≫= required_last_revision).
Definition req_version (required : option SetRequired) : Z :=
  default (-1) (required ≫= required_version).
Definition req_cmp (required : option SetRequired) : Z :=
  default 0 (compare_result <$> required).

(** The guards of [set] on the locked item: [Some e] is the early return [Err(e)]. *)
Definition set_guard (item : TreeItem) (new_value : option ByteArray)
    (required : option SetRequired) (latest : Z) : option SetError :=
  let last_rev := req_last_revision required in
  let ver := req_version required in
  match value (latest_value item) with
  | Some _ =>
      let ok := cmp_satisfied (req_cmp required) in
      if ((0 <=? last_rev) && negb (ok (mod_revision (latest_value item)) last_rev))
         || ((0 <=? ver) && negb (ok (version (latest_value item)) ver))
      then Some (latest, Some (as_mvcc_key_value (latest_value item) (item_key item)))
      else None
  | None =>
      if (0 <? last_rev) || (0 <? ver) then Some (latest, None)
      else match new_value with
           | None => Some (latest, None)
           | Some _ => None
           end
  end.

(** Dropping the compacted revisions of an item. *)
Definition drain_compacted (revs : list Z) (earliest : Z) : list Z :=
  if default earliest (head revs) <? earliest
  then drop (partition_point (λ v, v <? earliest) revs) revs
  else revs.

(** The value a write stores at [new_rev], given the value it replaces. *)
Definition next_value (old : Value) (new_rev : Z) (new : option ByteArray) : Value :=
  match value old with
  | Some _ =>
      {| create_revision := create_revision old; mod_revision := new_rev;
         version := i64_add (version old) 1; value := new |}
  | None =>
      {| create_revision := new_rev; mod_revision := new_rev; version := 1; value := new |}
  end.

Section operations.
Context `{!BlockSize}.

Definition get_item (s : Store) (l : loc) : outcome TreeItem := index_or_panic (arcs s) l.

(** The critical section of [set] under the item's write lock: the guards, the drain
    of compacted revisions, the reservation of the revision and the update of the
    item and of [values_by_revision]. *)
Definition set_locked (s : Store) (l : loc) (is_new_item : bool) (new : option ByteArray)
    (required : option SetRequired) (latest : Z) :
    outcome (Store * Result (Z * ByteArray * Value * option Value) SetError) :=
  existing_item ← get_item s l;
  match set_guard existing_item new required latest with
  | Some e => Ret (s, Err e)
  | None =>
      let earliest := as_i64 (Deque.earliest_revision (values_by_revision s)) in
      let revs := drain_compacted (revisions existing_item) earliest in
      pushed ← Deque.push (values_by_revision s) placeholder_value;
      let '(index, d) := pushed in
      let new_rev := i64_add (as_i64 index) 1 in
      let old := latest_value existing_item in
      let new_value := next_value old new_rev new in
      let old_value := if is_new_item then None else Some old in
      stored ← Deque.set d (usize_sub (as_usize new_rev) 1) new_value;
      let item' := {| item_key := item_key existing_item;
                      revisions := revs ++ [new_rev]; latest_value := new_value |} in
      let s' := with_values (with_arcs s (<[l := item']> (arcs s))) stored.2 in
      Ret (s', Ok (new_rev, item_key existing_item, new_value, old_value))
  end.

(** Whether a watcher is due for a change of [key] at revision [rev]. *)
Definition watcher_wants (key : ByteArray) (rev : Z) (w : Watcher) : bool :=
  (start_revision w <=? rev) &&
  (if bool_decide (key_range_end w = []) then bool_decide (key = key_range_start w)
   else oltb key (key_range_end w) && oleb (key_range_start w) key).

Definition watchers_to_notify (s : Store) (key : ByteArray) (rev : Z) : outcome (list nat) :=
  candidates ← bt_range (watchers s) (Unbounded, Excluded (key, i64_max));
  Ret (ch <$> filter (λ w, watcher_wants key rev w = true) candidates.*2).

Definition notify_watchers (s : Store) (key : ByteArray) (val : Value) (prev : option Value)
    (prefix : ByteArray) : outcome Store :=
  chans ← watchers_to_notify s key (mod_revision val);
  let kv := as_mvcc_key_value val key in
  let prev_kv := (λ v, as_mvcc_key_value v key) <$> prev in
  let size := Z.of_nat (length (kv_value kv))
              + from_option (λ p, Z.of_nat (length (kv_value p))) 0 prev_kv in
  let sync := bool_decide (wal s = Some WalSync) in
  let job := {| job_rev := mod_revision val; job_watchers := chans;
                job_msg := {| prev_kv := prev_kv; kv := kv |};
                job_prefix := from_utf8_lossy prefix; job_size := size;
                wal_handled := if sync then Some (next_notify s) else None |} in
  Ret (with_jobs s (notify_tx s ++ [job]) (if sync then S (next_notify s) else next_notify s)).

(** [Store::set]. In fsync mode the caller then waits for the [Notify] of the job. *)
Definition set (s : Store) (key : ByteArray) (new : option ByteArray)
    (required : option SetRequired) : outcome (Store * Result Z SetError) :=
  let prefix := (prefix_split key).1 in
  let latest := current_revision s in
  let '(s1, l, is_new_item) := set_entry s key in
  r ← set_locked s1 l is_new_item new required latest;
  match r with
  | (s2, Err e) => Ret (s2, Err e)
  | (s2, Ok (new_rev, wkey, wval, old_value)) =>
      s3 ← notify_watchers s2 wkey wval old_value prefix;
      Ret (s3, Ok new_rev)
  end.

Definition delete_key (s : Store) (key : ByteArray) (required : option SetRequired) :
    outcome (Store * Result Z SetError) :=
  set s key None required.

(** The update of an existing item in [set_for_replay]. *)
Definition replay_item (s : Store) (l : loc) (item : TreeItem) (new : option ByteArray) :
    outcome Store :=
  pushed ← Deque.push (values_by_revision s) placeholder_value;
  let new_rev := i64_add (as_i64 pushed.1) 1 in
  let new_value := next_value (latest_value item) new_rev new in
  stored ← Deque.set pushed.2 (usize_sub (as_usize new_rev) 1) new_value;
  let item' := {| item_key := item_key item; revisions := revisions item ++ [new_rev];
                  latest_value := new_value |} in
  Ret (with_values (with_arcs s (<[l := item']> (arcs s))) stored.2).

Definition set_for_replay (s : Store) (key : ByteArray) (new : option ByteArray) : outcome Store :=
  match tree_map s !! key with
  | Some l =>
      existing_item ← get_item s l;
      match value (latest_value existing_item) with
      | Some _ => replay_item s l existing_item new
      | None =>
          match new with
          | None => Ret s
          | Some _ => replay_item s l existing_item new
          end
      end
  | None =>
      match new with
      | None => Ret s
      | Some _ =>
          pushed ← Deque.push (values_by_revision s) placeholder_value;
          let new_rev := i64_add (as_i64 pushed.1) 1 in
          let new_value := {| create_revision := new_rev; mod_revision := new_rev;
                              version := 1; value := new |} in
          stored ← Deque.set pushed.2 (usize_sub (as_usize new_rev) 1) new_value;
          let item := {| item_key := key; revisions := [new_rev]; latest_value := new_value |} in
          Ret (insert_item (with_values s stored.2) key item)
      end
  end.

(** ** Reading *)

(** [assert!(rev > 0)] *)
Definition assert_positive (rev : Z) (msg : string) : outcome unit :=
  if 0 <? rev then Ret () else Panic msg.

(** The slot of the greatest revision of the item that is at most [rev]. *)
Definition slot_for_revision {R} (s : Store) (item : TreeItem) (rev : Z) (f : option Value → R) :
    outcome R :=
  match binary_search (revisions item) rev with
  | inl i =>
      r ← index_or_panic (revisions item) i;
      Deque.get_with (values_by_revision s) (usize_sub (as_usize r) 1) f
  | inr i =>
      if decide (0 < i)%nat then
        r ← index_or_panic (revisions item) (i - 1);
        Deque.get_with (values_by_revision s) (usize_sub (as_usize r) 1) f
      else Ret (f None)
  end.

Definition find_value_for_revision (s : Store) (item : TreeItem) (rev : Z) : outcome (option Value) :=
  _ ← assert_positive rev "find_value_for_revision called with rev == 0";
  if mod_revision (latest_value item) <=? rev then Ret (Some (latest_value item))
  else slot_for_revision s item rev id.

Definition has_value_for_revision (s : Store) (item : TreeItem) (rev : Z) : outcome bool :=
  _ ← assert_positive rev "has_value_for_revision called with rev == 0";
  if mod_revision (latest_value item) <=? rev then Ret (is_live (latest_value item))
  else slot_for_revision s item rev (from_option is_live false).

(** The scan of [range]: [count] and [results] are the loop's variables. *)
Fixpoint range_loop (s : Store) (prefix : ByteArray) (limit rev : Z)
    (entries : list (ByteArray * loc)) (count : Z) (results : list KeyValue) :
    outcome (Z * list KeyValue) :=
  match entries with
  | [] => Ret (count, results)
  | (key, l) :: entries' =>
      item ← get_item s l;
      if limit <=? count then
        has ← has_value_for_revision s item rev;
        range_loop s prefix limit rev entries' (if (has : bool) then count + 1 else count) results
      else
        found ← find_value_for_revision s item rev;
        match found with
        | Some v =>
            if is_live v then
              let results' :=
                if Z.of_nat (length results) <? limit
                then results ++ [as_mvcc_key_value v (prefix ++ key)] else results in
              range_loop s prefix limit rev entries' (count + 1) results'
            else range_loop s prefix limit rev entries' count results
        | None => range_loop s prefix limit rev entries' count results
        end
  end.

Definition future_revision : Status :=
  mkStatus OutOfRange "etcdserver: mvcc: required revision is a future revision" [].
Definition compacted : Status :=
  mkStatus OutOfRange "etcdserver: mvcc: required revision has been compacted" [].

Definition range (s : Store) (start end_ : ByteArray) (rev : Z) (limit : option Z) :
    outcome (Result RangeResult Status) :=
  let limit := default usize_max limit in
  let latest := current_revision s in
  if latest <? rev then Ret (Err future_revision)
  else if (0 <? rev) && (rev <=? as_i64 (Deque.earliest_revision (values_by_revision s)))
  then Ret (Err compacted)
  else
    let rev := if rev =? 0 then latest else rev in
    match prefix_and_range_of_key start end_ with
    | Err e => Ret (Err e)
    | Ok (prefix, bounds) =>
        match prefix_map s !! prefix with
        | Some prefix_map_item =>
            entries ← bt_range (btree prefix_map_item) bounds;
            r ← range_loop s prefix limit rev entries 0 [];
            Ret (Ok {| kvs := r.2; latest_rev := latest; count := as_i64 r.1 |})
        | None => Ret (Ok {| kvs := []; latest_rev := latest; count := 0 |})
        end
    end.

(** ** Watching *)

(** The loop of [watch] over the revisions of one item from [start_pos] on:
    [prev] is the loop's [prev_kv], [acc] the changes collected so far. *)
Fixpoint past_changes_loop (s : Store) (item : TreeItem) (want_prev_kv : bool) (start_rev : Z)
    (revs : list Z) (prev : option KeyValue) (acc : list KeyValueWithPrev) :
    outcome (list KeyValueWithPrev) :=
  match revs with
  | [] => Ret acc
  | item_rev :: revs' =>
      v ← Deque.get (values_by_revision s) (usize_sub (as_usize item_rev) 1);
      match v with
      | Some v =>
          let acc' :=
            if start_rev <=? item_rev
            then acc ++ [{| prev_kv := prev; kv := as_mvcc_key_value v (item_key item) |}]
            else acc in
          let prev' := if want_prev_kv then Some (as_mvcc_key_value v (item_key item)) else None in
          past_changes_loop s item want_prev_kv start_rev revs' prev' acc'
      | None => past_changes_loop s item want_prev_kv start_rev revs' None acc
      end
  end.

Definition item_past_changes (s : Store) (item : TreeItem) (want_prev_kv : bool) (start_rev : Z)
    (acc : list KeyValueWithPrev) : outcome (list KeyValueWithPrev) :=
  let pos := match binary_search (revisions item) start_rev with inl i => i | inr i => i end in
  let start_pos := if bool_decide (0 < pos)%nat && want_prev_kv then (pos - 1)%nat else pos in
  past_changes_loop s item want_prev_kv start_rev (drop start_pos (revisions item)) None acc.

Fixpoint past_changes (s : Store) (want_prev_kv : bool) (start_rev : Z)
    (entries : list (ByteArray * loc)) (acc : list KeyValueWithPrev) :
    outcome (list KeyValueWithPrev) :=
  match entries with
  | [] => Ret acc
  | (_, l) :: entries' =>
      item ← get_item s l;
      acc' ← item_past_changes s item want_prev_kv start_rev acc;
      past_changes s want_prev_kv start_rev entries' acc'
  end.

(** [Store::watch]: the past changes, the watcher id and the receiver's channel, or
    the compacted revision. The watcher is registered before the past is read. *)
Definition watch (s : Store) (start end_ : ByteArray) (rev : Z) (want_prev_kv : bool) :
    outcome (Store * Result (list KeyValueWithPrev * Z * nat) Z) :=
  let start_rev := if rev <=? 0 then current_revision s else rev in
  let compact_revision := as_i64 (Deque.earliest_revision (values_by_revision s)) in
  if (0 <? rev) && (rev <=? compact_revision) then Ret (s, Err compact_revision)
  else
    let watcher_id := i64_add (watch_counter s) 1 in
    let c := length (channels s) in
    let watcher := {| start_revision := start_rev; key_range_start := start;
                      key_range_end := end_; ch := c |} in
    let s' := with_watchers s (bt_insert (watchers s) (start, watcher_id) watcher) watcher_id
                (channels s ++ [{| queue := []; rx_open := true |}]) in
    if 0 <? rev then
      match prefix_and_range_of_key start end_ with
      | Ok (prefix, bounds) =>
          match prefix_map s' !! prefix with
          | Some prefix_map_item =>
              entries ← bt_range (btree prefix_map_item) bounds;
              changes ← past_changes s' want_prev_kv start_rev entries [];
              Ret (s', Ok (changes, watcher_id, c))
          | None => Ret (s', Ok ([], watcher_id, c))
          end
      | Err _ => Ret (s', Err compact_revision)
      end
    else Ret (s', Ok ([], watcher_id, c)).

Definition unwatch (s : Store) (start : ByteArray) (watcher_id : Z) : Store :=
  with_watchers s (bt_remove (watchers s) (start, watcher_id)) (watch_counter s) (channels s).

(** ** Compaction *)

Definition compact (s : Store) (rev : Z) : outcome (Store * Result unit Status) :=
  if (rev <? 1) || (current_revision s <? rev) then Ret (s, Err compacted)
  else
    r ← Deque.remove_before (values_by_revision s) (as_usize (i64_sub rev 1));
    let s' := with_values s r.2 in
    match r.1 with
    | Ok _ => Ret (s', Ok ())
    | Err _ => Ret (s', Err (mkStatus Internal "etcdserver: mvcc: compact failed" []))
    end.

(** ** Snapshots *)

(** (key, value, create_revision, mod_revision, version) *)
Record SnapshotEntry := mkSnapshotEntry {
  se_key : ByteArray;
  se_value : ByteArray;
  se_create_revision : Z;
  se_mod_revision : Z;
  se_version : Z;
}.

(** The entry of one key: its latest value unless it is a tombstone. *)
Definition export_entry (s : Store) (e : ByteArray * loc) : outcome (option SnapshotEntry) :=
  item ← get_item s e.2;
  let v := latest_value item in
  match value v with
  | Some b => Ret (Some {| se_key := e.1; se_value := b; se_create_revision := create_revision v;
                           se_mod_revision := mod_revision v; se_version := version v |})
  | None => Ret None
  end.

Fixpoint export_entries (s : Store) (es : list (ByteArray * loc)) : outcome (list SnapshotEntry) :=
  match es with
  | [] => Ret []
  | e :: es' =>
      o ← export_entry s e;
      rest ← export_entries s es';
      Ret (match o with Some x => x :: rest | None => rest end)
  end.

(** [export_snapshot_data], for the order [iter] in which the concurrent map yields
    its entries. *)
Definition export_snapshot_data (iter : gmap ByteArray loc → list (ByteArray * loc)) (s : Store) :
    outcome (list SnapshotEntry) :=
  export_entries s (iter (tree_map s)).

(** [for _ in 0..max_mod_rev { push(placeholder.clone()) }] *)
Fixpoint push_holes (n : nat) (d : BlockDeque Value) : outcome (BlockDeque Value) :=
  match n with
  | O => Ret d
  | S n' => r ← Deque.push d null_value; push_holes n' r.2
  end.

Definition import_entry (s : Store) (e : SnapshotEntry) : outcome Store :=
  let val := {| create_revision := se_create_revision e; mod_revision := se_mod_revision e;
                version := se_version e; value := Some (se_value e) |} in
  r ← Deque.set (values_by_revision s) (usize_sub (as_usize (se_mod_revision e)) 1) val;
  Ret (insert_item (with_values s r.2) (se_key e)
         {| item_key := se_key e; revisions := [se_mod_revision e]; latest_value := val |}).

Fixpoint import_entries (s : Store) (es : list SnapshotEntry) : outcome Store :=
  match es with
  | [] => Ret s
  | e :: es' => s' ← import_entry s e; import_entries s' es'
  end.

Definition max_mod_revision (es : list SnapshotEntry) : Z :=
  match es with
  | [] => 0
  | e :: es' => foldr (λ x m, Z.max (se_mod_revision x) m) (se_mod_revision e) es'
  end.

Definition import_snapshot_data (s : Store) (es : list SnapshotEntry) : outcome Store :=
  let s0 := with_values (with_index s ∅ ∅ (arcs s)) (Deque.clear (values_by_revision s)) in
  d ← push_holes (Z.to_nat (max_mod_revision es)) (values_by_revision s0);
  import_entries (with_values s0 d) es.
End operations.
