(* ===== verification/StoreSpec.v ===== *)
(** * The store implements its history

    [store_repr s h] relates a concrete store to an abstract history: the deque
    holds the values of the revisions that are not compacted, every item holds the
    latest value of its key and the tail of its revisions, and the two indexes
    agree. The lemmas of this file show that every operation of Store.v keeps this
    relation and answers as the history says. *)
From S2P Require Import Prelude Bytes BTreeMap BlockDeque Types Prefix History Store.

(** What [values_by_revision] holds for a change. *)
Definition slot (c : change) : Value :=
  match c with Some (_, v) => v | None => null_value end.

Definition first_index (s : Store) : Z := start_offset (values_by_revision s).

(** The latest value of a key, the null value when it was never written. *)
Definition latest_or_null (h : history) (k : ByteArray) : Value := default null_value (latest_of h k).

Record item_repr (h : history) (compacted : Z) (k : ByteArray) (it : TreeItem) : Prop := {
  ir_key : item_key it = k;
  ir_latest : latest_value it = latest_or_null h k;
  ir_revisions : ∃ dropped, revs_of h k = dropped ++ revisions it ∧
    Forall (λ r, r ≤ compacted) dropped;
}.

(** The location a prefix and a suffix lead to. *)
Definition prefix_lookup (pm : gmap ByteArray PrefixMapItem) (p x : ByteArray) : option loc :=
  i ← pm !! p; bt_get (btree i) x.

(** The two indexes agree, and every index entry leads to an item of that key. *)
Record index_wf (pm : gmap ByteArray PrefixMapItem) (tm : gmap ByteArray loc) : Prop := {
  iw_sorted : ∀ p i, pm !! p = Some i → bt_wf (btree i);
  iw_agree : ∀ p x l,
    prefix_lookup pm p x = Some l ↔ prefix_split (p ++ x) = (p, x) ∧ tm !! (p ++ x) = Some l;
}.

Record store_repr `{!BlockSize} (s : Store) (h : history) : Prop := {
  sr_hist : hist_ok h;
  sr_start : 0 ≤ first_index s ≤ Z.of_nat (length h);
  sr_values : dq_repr (values_by_revision s) (drop (Z.to_nat (first_index s)) (slot <$> h));
  sr_index : index_wf (prefix_map s) (tree_map s);
  sr_items : ∀ k l, tree_map s !! k = Some l →
    ∃ it, arcs s !! l = Some it ∧ item_repr h (first_index s) k it;
  sr_known : ∀ k v, latest_of h k = Some v → is_Some (tree_map s !! k);
}.

Section repr.
Context `{!BlockSize}.
Implicit Types (s : Store) (h : history).

(** ** Revisions *)

Lemma repr_latest s h :
  store_repr s h →
  Deque.latest_revision (values_by_revision s) = Z.of_nat (length h) ∧
  Z.of_nat (length h) ≤ i64_max.
Proof.
  intros [_ Hst Hd _ _ _]. rewrite (dq_repr_latest _ _ Hd).
  pose proof (dq_bound _ _ Hd) as Hb. unfold first_index in *.
  rewrite length_drop, length_fmap in *. lia.
Qed.

Lemma repr_current s h : store_repr s h → current_revision s = Z.of_nat (length h).
Proof.
  intros Hr. destruct (repr_latest s h Hr) as [Hl Hb].
  unfold current_revision. rewrite Hl. apply as_i64_id. width.
Qed.

Lemma repr_compacted s h : store_repr s h → compacted_revision s = first_index s.
Proof.
  intros Hr. destruct (repr_latest s h Hr) as [_ Hb]. pose proof (sr_start _ _ Hr).
  apply as_i64_id. unfold Deque.earliest_revision. unfold first_index in *. width.
Qed.

Lemma repr_earliest s h :
  store_repr s h → as_i64 (Deque.earliest_revision (values_by_revision s)) = first_index s.
Proof. apply repr_compacted. Qed.

(** Reading the slot of a revision. *)
Lemma repr_get s h r {R} (f : option Value → R) :
  store_repr s h → 1 ≤ r ≤ Z.of_nat (length h) →
  Deque.get_with (values_by_revision s) (usize_sub (as_usize r) 1) f
  = Ret (f (if first_index s <? r then slot <$> h !! Z.to_nat (r - 1) else None)).
Proof.
  intros Hr Hb. destruct (repr_latest s h Hr) as [_ Hmax]. destruct Hr as [_ Hst Hd _ _ _].
  rewrite as_usize_id, usize_sub_id by width.
  rewrite (dq_get_with _ _ _ _ Hd). unfold ADeque.get. simpl. fold (first_index s).
  destruct (first_index s <? r) eqn:E.
  - rewrite (proj2 (Z.ltb_ge _ _)) by lia.
    rewrite lookup_drop, list_lookup_fmap. do 4 f_equal. lia.
  - by rewrite (proj2 (Z.ltb_lt _ _)) by lia.
Qed.

(** The slots of a key that are not compacted hold its values. *)
Definition slots_readable s h (k : ByteArray) : Prop :=
  ∀ R (f : option Value → R) v, v ∈ events h k →
    Deque.get_with (values_by_revision s) (usize_sub (as_usize (mod_revision v)) 1) f
    = Ret (f (if first_index s <? mod_revision v then Some v else None)).

Lemma repr_slots s h k : store_repr s h → slots_readable s h k.
Proof.
  intros Hr R f v Hv. destruct (event_lookup h k v (sr_hist _ _ Hr) Hv) as [Hb Hl].
  rewrite (repr_get s h) by done. by rewrite Hl.
Qed.

(** ** Reading a key at a revision *)

Lemma item_revisions_sorted h c k it :
  hist_ok h → item_repr h c k it → StronglySorted Z.lt (revisions it).
Proof.
  intros Hh [_ _ (dropped & Heq & _)]. pose proof (revs_of_sorted h k Hh) as Hs.
  rewrite Heq in Hs. rewrite <- (drop_app_length dropped). by apply StronglySorted_drop.
Qed.

(** The last revision of the item at most [rev], when it is not compacted, is the one
    the history sees. *)
Lemma item_floor h c k it rev :
  hist_ok h → 0 ≤ rev → item_repr h c k it →
  match last (filter (λ r, r ≤ rev) (revisions it)) with
  | Some r => mod_revision <$> value_at h k rev = Some r
  | None => ∀ v, value_at h k rev = Some v → mod_revision v ≤ c
  end.
Proof.
  intros Hh Hrev [_ _ (dropped & Heq & Hold)].
  pose proof (revs_of_filter h k rev Hh Hrev) as Hf.
  rewrite Heq, filter_app in Hf. rewrite value_at_last, <- Hf.
  destruct (filter _ (revisions it)) as [|r l _] eqn:E using rev_ind; simpl.
  - intros v Hv. rewrite app_nil_r in Hf.
    pose proof (value_at_last h k rev) as Hm. rewrite Hv, <- Hf in Hm. simpl in Hm.
    symmetry in Hm. apply last_Some_elem_of, list_elem_of_filter in Hm as [_ Hin].
    by rewrite Forall_forall in Hold; apply Hold.
  - by rewrite app_assoc, !last_snoc.
Qed.

Lemma slot_for_revision_spec s h k it rev {R} (f : option Value → R) :
  hist_ok h → slots_readable s h k → 0 ≤ rev → item_repr h (first_index s) k it →
  slot_for_revision s it rev f
  = Ret (f (v ← value_at h k rev; if first_index s <? mod_revision v then Some v else None)).
Proof.
  intros Hh Hslots Hrev Hit.
  pose proof (item_floor h _ k it rev Hh Hrev Hit) as Hfl.
  rewrite <- binary_search_floor in Hfl by (by eapply item_revisions_sorted).
  unfold slot_for_revision.
  assert (∀ i r, revisions it !! i = Some r → mod_revision <$> value_at h k rev = Some r →
    (r ← index_or_panic (revisions it) i;
     Deque.get_with (values_by_revision s) (usize_sub (as_usize r) 1) f)
    = Ret (f (v ← value_at h k rev; if first_index s <? mod_revision v then Some v else None)))
    as Hslot.
  { intros i r Hi Hm. rewrite (index_or_panic_ret _ _ _ Hi), bind_ret.
    apply fmap_Some in Hm as (v & Hv & ->).
    rewrite Hslots by (by eapply value_at_event). by rewrite Hv. }
  assert ((∀ v, value_at h k rev = Some v → mod_revision v ≤ first_index s) →
    Ret (f None)
    = Ret (f (v ← value_at h k rev; if first_index s <? mod_revision v then Some v else None)))
    as Hnone.
  { intros Hc. destruct (value_at h k rev) as [v|]; [|done]. simpl.
    by rewrite (proj2 (Z.ltb_ge _ _)) by (by apply Hc). }
  unfold binary_search in *. set (i := partition_point _ _) in *.
  pose proof (partition_point_le (λ v, v <? rev) (revisions it)) as Hle. fold i in Hle.
  destruct (revisions it !! i) as [y|] eqn:Ei; [destruct (y =? rev)|].
  - simpl in Hfl. rewrite Ei in Hfl. by apply (Hslot i y).
  - case_decide; destruct i as [|j]; simpl in Hfl; [lia| |by apply Hnone|lia].
    destruct (lookup_lt_is_Some_2 (revisions it) j) as [z Hz]; [lia|].
    rewrite Hz in Hfl. simpl. rewrite Nat.sub_0_r. by apply (Hslot j z).
  - case_decide; destruct i as [|j]; simpl in Hfl; [lia| |by apply Hnone|lia].
    destruct (lookup_lt_is_Some_2 (revisions it) j) as [z Hz]; [lia|].
    rewrite Hz in Hfl. simpl. rewrite Nat.sub_0_r. by apply (Hslot j z).
Qed.

(** What a successful read means: the live part of its answer. *)
Definition live_part (o : option Value) : option Value :=
  v ← o; if is_live v then Some v else None.

Lemma latest_mod_lt_not_seen h k rev v :
  hist_ok h → 0 ≤ rev → rev < mod_revision (latest_or_null h k) → value_at h k rev = Some v →
  latest_of h k ≠ Some v.
Proof.
  intros Hh Hrev Hlt Hv Heq. unfold latest_or_null in Hlt. rewrite Heq in Hlt. simpl in Hlt.
  pose proof (value_at_last h k rev) as Hm. rewrite Hv in Hm. symmetry in Hm.
  apply last_Some_elem_of in Hm. rewrite <- revs_of_filter in Hm by done.
  apply list_elem_of_filter in Hm as [? _]. lia.
Qed.

Lemma found_not_latest h c k rev :
  hist_ok h → 0 ≤ rev → rev < mod_revision (latest_or_null h k) →
  found h c k rev =
    live_part (v ← value_at h k rev; if c <? mod_revision v then Some v else None).
Proof.
  intros Hh Hrev Hlt. unfold found. destruct (value_at h k rev) as [v|] eqn:Hv; [|done]. simpl.
  rewrite (bool_decide_false (latest_of h k = Some v))
    by (by eapply latest_mod_lt_not_seen).
  rewrite orb_false_r. destruct (c <? mod_revision v); simpl.
  - by rewrite andb_true_r.
  - by rewrite andb_false_r.
Qed.

Lemma found_latest h c k rev :
  hist_ok h → 0 ≤ rev → mod_revision (latest_or_null h k) ≤ rev →
  found h c k rev = live_part (Some (latest_or_null h k)).
Proof.
  intros Hh Hrev Hle. unfold latest_or_null in *. unfold found.
  destruct (latest_of h k) as [v|] eqn:Hl; simpl in *.
  - rewrite (value_at_latest h k rev v) by done. simpl.
    by rewrite (bool_decide_true (Some v = Some v)), orb_true_r, andb_true_r by done.
  - by rewrite value_at_none.
Qed.

Lemma find_value_spec s h k it rev :
  hist_ok h → slots_readable s h k → 0 < rev → item_repr h (first_index s) k it →
  ∃ o, find_value_for_revision s it rev = Ret o ∧ live_part o = found h (first_index s) k rev.
Proof.
  intros Hh Hslots Hrev Hit. unfold find_value_for_revision, assert_positive.
  rewrite (proj2 (Z.ltb_lt _ _)), bind_ret by lia. rewrite (ir_latest _ _ _ _ Hit).
  destruct (_ <=? rev) eqn:E.
  - eexists. split; [done|]. rewrite found_latest by (done || lia). done.
  - rewrite (slot_for_revision_spec s h k) by (done || lia).
    eexists. split; [done|]. by rewrite found_not_latest by (done || lia).
Qed.

Lemma has_value_spec s h k it rev :
  hist_ok h → slots_readable s h k → 0 < rev → item_repr h (first_index s) k it →
  has_value_for_revision s it rev = Ret (bool_decide (is_Some (found h (first_index s) k rev))).
Proof.
  intros Hh Hslots Hrev Hit. unfold has_value_for_revision, assert_positive.
  rewrite (proj2 (Z.ltb_lt _ _)), bind_ret by lia. rewrite (ir_latest _ _ _ _ Hit).
  assert (∀ o, from_option is_live false o = bool_decide (is_Some (live_part o))) as Hlive.
  { intros [v|]; simpl; [|done]. by destruct (is_live v). }
  destruct (_ <=? rev) eqn:E.
  - rewrite found_latest, <- Hlive by (done || lia). done.
  - rewrite (slot_for_revision_spec s h k) by (done || lia).
    by rewrite found_not_latest, Hlive by (done || lia).
Qed.

(** ** Range reads *)

(** The answer of one index entry. *)
Definition entry_answer (h : history) (c rev : Z) (p : ByteArray) (e : ByteArray * loc) :
    option KeyValue :=
  (λ v, as_mvcc_key_value v (p ++ e.1)) <$> found h c (p ++ e.1) rev.

Definition answers (h : history) (c rev : Z) (p : ByteArray) (es : list (ByteArray * loc)) :
    list KeyValue := omap (entry_answer h c rev p) es.

#[local] Arguments answers : simpl never.

Lemma answers_cons h c rev p x l es :
  answers h c rev p ((x, l) :: es) =
    match found h c (p ++ x) rev with
    | Some v => as_mvcc_key_value v (p ++ x) :: answers h c rev p es
    | None => answers h c rev p es
    end.
Proof. unfold answers. simpl. unfold entry_answer at 1. simpl. by destruct (found _ _ _ _). Qed.

(** The entries of a prefix lead to the items of their keys. *)
Definition entries_ok s (p : ByteArray) (es : list (ByteArray * loc)) : Prop :=
  Forall (λ e, tree_map s !! (p ++ e.1) = Some e.2) es.

(** One turn of the scan, in terms of what a read of its entry finds. *)
Lemma range_loop_entry s h p limit rev x l it es count results :
  hist_ok h → slots_readable s h (p ++ x) → 0 < rev →
  arcs s !! l = Some it → item_repr h (first_index s) (p ++ x) it → 0 ≤ count → 0 ≤ limit →
  (count < limit → Z.of_nat (length results) = count) →
  let o := (λ v, as_mvcc_key_value v (p ++ x)) <$> found h (first_index s) (p ++ x) rev in
  range_loop s p limit rev ((x, l) :: es) count results =
    range_loop s p limit rev es (count + Z.of_nat (length (option_list o)))
      (results ++ take (Z.to_nat (limit - count)) (option_list o)).
Proof.
  intros Hh Hslots Hrev Hit Hrepr Hc Hl Hres o. subst o. simpl.
  unfold get_item. rewrite (index_or_panic_ret _ _ _ Hit), bind_ret. destruct (limit <=? count) eqn:E.
  - rewrite (has_value_spec s h (p ++ x)), bind_ret by done.
    replace (Z.to_nat (limit - count)) with 0%nat by lia. rewrite take_0, app_nil_r.
    destruct (found h _ (p ++ x) rev) as [v|]; simpl; [done|by rewrite Z.add_0_r].
  - apply Z.leb_gt in E. specialize (Hres E).
    destruct (find_value_spec s h (p ++ x) it rev) as (o & -> & Ho); [done..|].
    rewrite bind_ret, <- Ho. destruct o as [v|]; simpl; [|by rewrite Z.add_0_r, take_nil, app_nil_r].
    destruct (is_live v) eqn:Ev; simpl; [|by rewrite Z.add_0_r, take_nil, app_nil_r].
    rewrite (proj2 (Z.ltb_lt _ _)) by lia.
    replace (Z.to_nat (limit - count)) with (S (Z.to_nat (limit - (count + 1)))) by lia. simpl.
    by rewrite take_nil.
Qed.

Lemma range_loop_spec s h p limit rev es count results :
  store_repr s h → 0 < rev → entries_ok s p es → 0 ≤ count → 0 ≤ limit →
  (count < limit → Z.of_nat (length results) = count) →
  range_loop s p limit rev es count results
  = Ret (count + Z.of_nat (length (answers h (first_index s) rev p es)),
         results ++ take (Z.to_nat (limit - count)) (answers h (first_index s) rev p es)).
Proof.
  intros Hr Hrev Hes. revert count results.
  induction Hes as [|[x l] es Hx Hes IH]; intros count results Hc Hl Hres.
  { unfold answers. simpl. by rewrite take_nil, app_nil_r, Z.add_0_r. }
  destruct (sr_items _ _ Hr _ _ Hx) as (it & Hit & Hrepr).
  rewrite (range_loop_entry s h p limit rev x l it) by (done || apply (sr_hist _ _ Hr) || by apply repr_slots).
  rewrite answers_cons. destruct (found h _ (p ++ x) rev) as [v|]; simpl.
  - destruct (decide (count < limit)) as [E|E].
    + specialize (Hres E).
      replace (Z.to_nat (limit - count)) with (S (Z.to_nat (limit - (count + 1)))) by lia. simpl.
      rewrite take_nil, IH by (rewrite ?length_app; simpl; lia). rewrite <- app_assoc. simpl.
      f_equal. f_equal. lia.
    + replace (Z.to_nat (limit - count)) with 0%nat by lia. simpl. rewrite app_nil_r, IH by lia.
      replace (Z.to_nat (limit - (count + Z.of_nat 1))) with 0%nat by lia. simpl. rewrite app_nil_r.
      f_equal. f_equal. lia.
  - rewrite take_nil, app_nil_r, Z.add_0_r. by apply IH.
Qed.

Lemma prefix_entries_ok s h p i es r :
  store_repr s h → prefix_map s !! p = Some i → bt_range (btree i) r = Ret es →
  entries_ok s p es.
Proof.
  intros Hr Hi Hes. apply Forall_forall. intros [x l] Hin. simpl.
  apply (bt_range_elem _ _ _ _ _ Hes) in Hin as [Hin _].
  destruct (sr_index _ _ Hr) as [Hwf Hag].
  rewrite <- bt_get_Some_elem in Hin by (by eapply Hwf).
  eapply (Hag p x l). unfold prefix_lookup. by rewrite Hi.
Qed.

(** Membership in the full answer, in terms of keys. *)
Lemma answers_elem s h p i es r rev kv :
  store_repr s h → prefix_map s !! p = Some i → bt_range (btree i) r = Ret es →
  kv ∈ answers h (first_index s) rev p es ↔
  ∃ x v, prefix_split (p ++ x) = (p, x) ∧ in_bounds r x = true ∧
    found h (first_index s) (p ++ x) rev = Some v ∧ kv = as_mvcc_key_value v (p ++ x).
Proof.
  intros Hr Hi Hes. unfold answers. rewrite list_elem_of_omap.
  destruct (sr_index _ _ Hr) as [Hwf Hag]. pose proof (sr_hist _ _ Hr) as Hh.
  assert (∀ x l, (x, l) ∈ es ↔ (prefix_split (p ++ x) = (p, x) ∧ tree_map s !! (p ++ x) = Some l)
    ∧ in_bounds r x = true) as Hmem.
  { intros x l. rewrite (bt_range_elem _ _ _ _ _ Hes), <- bt_get_Some_elem by (by eapply Hwf).
    rewrite <- Hag. unfold prefix_lookup. by rewrite Hi. }
  split.
  - intros ([x l] & Hin & (v & Hv & ->)%fmap_Some). apply Hmem in Hin as [[??]?].
    exists x, v. done.
  - intros (x & v & Hsp & Hb & Hf & ->).
    assert (is_Some (tree_map s !! (p ++ x))) as [l Hl].
    { unfold found in Hf. apply bind_Some in Hf as (w & Hw & _).
      destruct (latest_of h (p ++ x)) as [w'|] eqn:El; [by eapply (sr_known _ _ Hr)|].
      by rewrite value_at_none in Hw. }
    exists (x, l). split; [by apply Hmem|]. unfold entry_answer. simpl. by rewrite Hf.
Qed.

Lemma answers_sorted h c rev p (es : BTreeMap ByteArray loc) :
  bt_wf es → StronglySorted olt (kv_key <$> answers h c rev p es).
Proof.
  induction es as [|[x l] es IH]; [constructor|].
  rewrite bt_wf_cons, answers_cons. intros [Hwf Hall].
  destruct (found h c (p ++ x) rev) as [v|]; simpl; [|by apply IH].
  constructor; [by apply IH|]. apply Forall_fmap, Forall_forall.
  intros kv Hkv. unfold answers in Hkv. apply list_elem_of_omap in Hkv as ([y l'] & Hin & Hy).
  unfold entry_answer in Hy. simpl in Hy. apply fmap_Some in Hy as (w & _ & ->). simpl.
  unfold olt. rewrite prefix_order. rewrite Forall_fmap, Forall_forall in Hall.
  by apply (Hall _ Hin).
Qed.

(** A key has one answer, at its own revision: there are at most as many answers as
    revisions. *)
Lemma found_lookup h c k rev v :
  hist_ok h → found h c k rev = Some v →
  1 ≤ mod_revision v ≤ Z.of_nat (length h) ∧
  h !! Z.to_nat (mod_revision v - 1) = Some (Some (k, v)).
Proof.
  intros Hh Hf. unfold found in Hf. apply bind_Some in Hf as (w & Hw & Hif).
  destruct (is_live w && _); [|done]. injection Hif as <-. by eapply value_at_lookup.
Qed.

Lemma kvs_length h (l : list KeyValue) :
  (∀ kv, kv ∈ l → ∃ v, h !! Z.to_nat (kv_mod_revision kv - 1) = Some (Some (kv_key kv, v))) →
  StronglySorted olt (kv_key <$> l) → (length l ≤ length h)%nat.
Proof.
  set (idx := λ kv, Z.to_nat (kv_mod_revision kv - 1)). intros Hin Hs.
  rewrite <- (length_fmap idx), <- (length_seq (length h) 0). apply NoDup_incl_length.
  - induction l as [|kv l IH]; simpl; [constructor|].
    inversion Hs as [|?? Hs' Hall]; subst.
    constructor; [|apply IH; [by intros; apply Hin; right | done]].
    intros (kv' & Heq & Hin')%in_map_iff. apply list_elem_of_In in Hin'.
    destruct (Hin kv) as [v Hv]; [by left|]. destruct (Hin kv') as [v' Hv']; [by right|].
    unfold idx in Heq. rewrite Heq, Hv in Hv'. injection Hv' as Hk _.
    rewrite Forall_fmap, Forall_forall in Hall. specialize (Hall _ Hin'). simpl in Hall.
    rewrite Hk in Hall. by apply olt_irrefl in Hall.
  - intros n (kv & <- & Hkv)%in_map_iff. apply list_elem_of_In, Hin in Hkv as [v Hv].
    apply in_seq. apply lookup_lt_Some in Hv. unfold idx. lia.
Qed.

Lemma answers_length h c rev p (es : BTreeMap ByteArray loc) :
  hist_ok h → bt_wf es → (length (answers h c rev p es) ≤ length h)%nat.
Proof.
  intros Hh Hwf. apply kvs_length; [|by apply answers_sorted].
  intros kv ([x l] & _ & (v & Hv & ->)%fmap_Some)%list_elem_of_omap.
  apply found_lookup in Hv as [_ Hl]; [|done]. simpl in *. eauto.
Qed.

(** The revision a request reads at. *)
Definition read_revision (h : history) (rev : Z) : Z :=
  if rev =? 0 then Z.of_nat (length h) else rev.

Definition readable s h (rev : Z) : Prop :=
  (rev = 0 ∧ h ≠ []) ∨ (first_index s < rev ≤ Z.of_nat (length h)).

Lemma range_spec_gen s h start end_ rev limit p r :
  store_repr s h → readable s h rev → 0 ≤ default usize_max limit →
  prefix_and_range_of_key start end_ = Ok (p, r) → bad_bounds r = false →
  ∃ full,
    range s start end_ rev limit
      = Ret (Ok {| kvs := take (Z.to_nat (default usize_max limit)) full;
                   latest_rev := Z.of_nat (length h); count := Z.of_nat (length full) |}) ∧
    StronglySorted olt (kv_key <$> full) ∧
    (∀ kv, kv ∈ full ↔ ∃ x v, prefix_split (p ++ x) = (p, x) ∧ in_bounds r x = true ∧
       found h (first_index s) (p ++ x) (read_revision h rev) = Some v ∧
       kv = as_mvcc_key_value v (p ++ x)).
Proof.
  intros Hr Hrev Hlim Hp Hb. pose proof (sr_start _ _ Hr) as Hst.
  destruct (repr_latest s h Hr) as [_ Hmax].
  assert (0 < read_revision h rev) as Hpos.
  { unfold read_revision, readable in *. destruct (Z.eqb_spec rev 0).
    - destruct Hrev as [[_ Hne]|?]; [|lia]. destruct h; [done|simpl; lia].
    - destruct Hrev as [[? _]|?]; lia. }
  unfold range. rewrite (repr_current s h Hr), (repr_earliest s h Hr), Hp.
  rewrite (proj2 (Z.ltb_ge _ rev)) by (destruct Hrev as [[-> _]|?]; lia).
  replace ((0 <? rev) && (rev <=? first_index s)) with false
    by (destruct Hrev as [[-> _]|?]; [done|]; symmetry; apply andb_false_iff; lia).
  fold (read_revision h rev).
  destruct (prefix_map s !! p) as [i|] eqn:Hi.
  - destruct (bt_range_ret (btree i) r Hb) as [es Hes]. rewrite Hes, bind_ret.
    assert (bt_wf es) as Hwf.
    { eapply bt_range_wf, Hes. by eapply (iw_sorted _ _ (sr_index _ _ Hr)). }
    rewrite (range_loop_spec s h p) by (done || lia || (by eapply prefix_entries_ok)).
    rewrite bind_ret. simpl. rewrite Z.sub_0_r.
    pose proof (answers_length h (first_index s) (read_revision h rev) p es (sr_hist _ _ Hr) Hwf).
    rewrite as_i64_id by width.
    eexists. split; [done|]. split; [by apply answers_sorted|].
    intros kv. by apply (answers_elem s h p i es r).
  - exists []. split; [by rewrite take_nil|]. split; [constructor|]. intros kv.
    split; [by intros ?%elem_of_nil|]. intros (x & v & Hsp & _ & Hf & _). exfalso.
    unfold found in Hf. apply bind_Some in Hf as (w & Hw & _).
    destruct (latest_of h (p ++ x)) as [w'|] eqn:El; [|by rewrite value_at_none in Hw].
    apply (sr_known _ _ Hr) in El as [l Hl].
    assert (prefix_lookup (prefix_map s) p x = Some l) as Hpl
      by (by apply (iw_agree _ _ (sr_index _ _ Hr))).
    unfold prefix_lookup in Hpl. by rewrite Hi in Hpl.
Qed.

(** ** The indexes *)

Lemma prefix_lookup_insert pm p x l p' x' :
  (∀ q i, pm !! q = Some i → bt_wf (btree i)) →
  prefix_lookup (prefix_insert pm p x l) p' x' =
    if decide (p' = p ∧ x' = x) then Some l else prefix_lookup pm p' x'.
Proof.
  intros Hwf. unfold prefix_lookup, prefix_insert.
  destruct (decide (p' = p)) as [->|Hp].
  - rewrite lookup_insert_eq. simpl.
    assert (bt_wf (btree (default (mkPrefixMapItem []) (pm !! p)))) as Hb.
    { destruct (pm !! p) as [i|] eqn:E; simpl; [by eapply Hwf | apply bt_wf_nil]. }
    destruct (decide (x' = x)) as [->|Hx].
    + rewrite decide_True by done. by apply bt_get_insert_eq.
    + rewrite decide_False by naive_solver. rewrite bt_get_insert_ne by done.
      by destruct (pm !! p).
  - rewrite lookup_insert_ne by done. by rewrite decide_False by naive_solver.
Qed.

Lemma index_wf_insert pm tm key p x l :
  index_wf pm tm → prefix_split key = (p, x) →
  index_wf (prefix_insert pm p x l) (<[key := l]> tm).
Proof.
  intros [Hwf Hag] Hsp. pose proof (prefix_split_eq _ _ _ Hsp) as ->. split.
  - intros q i. unfold prefix_insert. destruct (decide (q = p)) as [->|Hq].
    + rewrite lookup_insert_eq. intros [= <-]. simpl. apply bt_insert_wf.
      destruct (pm !! p) as [j|] eqn:E; simpl; [by eapply Hwf | apply bt_wf_nil].
    + rewrite lookup_insert_ne by done. apply Hwf.
  - intros q y l'. rewrite prefix_lookup_insert by done. case_decide as Hd.
    + destruct Hd as [-> ->]. rewrite lookup_insert_eq. naive_solver.
    + rewrite Hag. destruct (decide (p ++ x = q ++ y)) as [Heq|Hne].
      * rewrite <- Heq, Hsp. split; [naive_solver|]. intros [[= -> ->] _]. naive_solver.
      * by rewrite lookup_insert_ne by done.
Qed.

Lemma index_wf_empty : index_wf ∅ ∅.
Proof.
  split; [by intros|]. intros p x l. unfold prefix_lookup. rewrite !lookup_empty. naive_solver.
Qed.

Lemma insert_item_repr s h key it :
  store_repr s h → tree_map s !! key = None → item_repr h (first_index s) key it →
  store_repr (insert_item s key it) h.
Proof.
  intros [Hh Hst Hd Hix Hit Hk] Hnone Hrepr. unfold insert_item.
  destruct (prefix_split key) as [p x] eqn:Hsp. split; simpl; try done.
  - by apply index_wf_insert.
  - intros k l. destruct (decide (key = k)) as [<-|Hne].
    + rewrite lookup_insert_eq. intros [= <-]. exists it.
      by rewrite lookup_app_r, Nat.sub_diag by done.
    + rewrite lookup_insert_ne by done. intros Hl.
      destruct (Hit _ _ Hl) as (it' & Ha & Hr). exists it'. split; [|done].
      by apply lookup_app_l_Some.
  - intros k v Hv. destruct (decide (key = k)) as [<-|Hne].
    + by rewrite lookup_insert_eq.
    + rewrite lookup_insert_ne by done. by eapply Hk.
Qed.

(** ** The entry step *)

Lemma null_item_repr h c k : latest_of h k = None →
  item_repr h c k {| item_key := k; revisions := []; latest_value := null_value |}.
Proof.
  intros Hn. split; simpl; [done|by unfold latest_or_null; rewrite Hn|].
  exists []. split; [|done]. unfold latest_of in Hn. apply last_None in Hn.
  unfold revs_of. by rewrite Hn.
Qed.

Lemma unknown_latest s h k : store_repr s h → tree_map s !! k = None → latest_of h k = None.
Proof.
  intros Hr Hn. destruct (latest_of h k) as [v|] eqn:E; [|done].
  apply (sr_known _ _ Hr) in E as [l Hl]. congruence.
Qed.

Lemma set_entry_spec s h key :
  store_repr s h →
  ∃ s1 l, set_entry s key = (s1, l, bool_decide (tree_map s !! key = None)) ∧
    store_repr s1 h ∧ tree_map s1 !! key = Some l ∧
    values_by_revision s1 = values_by_revision s.
Proof.
  intros Hr. unfold set_entry. destruct (tree_map s !! key) as [l|] eqn:E.
  - exists s, l. done.
  - eexists _, _. split; [done|]. split.
    + apply insert_item_repr; [done..|]. by apply null_item_repr, (unknown_latest s).
    + unfold insert_item. destruct (prefix_split key). simpl. by rewrite lookup_insert_eq.
Qed.

(** ** Appending a change *)

Lemma repr_push s h k v :
  store_repr s h → Z.of_nat (length h) < i64_max →
  i64_add (as_i64 (Z.of_nat (length h))) 1 = Z.of_nat (length h) + 1 ∧
  ∃ d1 d2, Deque.push (values_by_revision s) placeholder_value = Ret (Z.of_nat (length h), d1) ∧
    Deque.set d1 (usize_sub (as_usize (Z.of_nat (length h) + 1)) 1) v = Ret (true, d2) ∧
    dq_repr d2 (drop (Z.to_nat (first_index s)) (slot <$> (h ++ [Some (k, v)]))) ∧
    start_offset d2 = first_index s.
Proof.
  intros Hr Hlt. destruct (repr_latest s h Hr) as [Hlat _].
  destruct Hr as [_ Hst Hd _ _ _]. unfold first_index in *.
  split. { rewrite as_i64_id, i64_add_id; width. }
  destruct (dq_push _ _ placeholder_value Hd) as (d1 & Hpush & Hd1 & Hs1); [lia|].
  rewrite Hlat in Hpush. exists d1.
  rewrite as_usize_id, usize_sub_id by width.
  replace (Z.of_nat (length h) + 1 - 1) with (Z.of_nat (length h)) by lia.
  pose proof (dq_repr_latest _ _ Hd1) as Hlat1. rewrite Hs1 in Hlat1.
  rewrite length_app, length_drop, length_fmap in Hlat1. simpl in Hlat1.
  destruct (dq_set_in _ _ (Z.of_nat (length h)) v Hd1) as (d2 & Hset & Hd2 & Hs2); [lia|].
  exists d2. split; [done|]. split; [done|]. rewrite Hs2, Hs1 in *. split; [|done].
  rewrite fmap_app, drop_app_le by (rewrite length_fmap; lia).
  replace (Z.to_nat (Z.of_nat (length h) - start_offset (values_by_revision s)))
    with (length (drop (Z.to_nat (start_offset (values_by_revision s))) (slot <$> h)) + 0)%nat in Hd2
    by (rewrite length_drop, length_fmap; lia).
  by rewrite insert_app_r in Hd2.
Qed.

Lemma item_repr_other h c k k' v it :
  k' ≠ k → item_repr h c k it → item_repr (h ++ [Some (k', v)]) c k it.
Proof.
  intros Hne [Hk Hl Hrv]. unfold latest_or_null, revs_of in *.
  split; [done | by unfold latest_or_null; rewrite latest_of_snoc_ne |].
  unfold revs_of. by rewrite events_snoc_ne.
Qed.

(** Storing a new value for [key] extends the history with it. *)
Lemma update_item_repr s h key l it v revs dropped d :
  store_repr s h → tree_map s !! key = Some l → arcs s !! l = Some it →
  mod_revision v = Z.of_nat (length h) + 1 →
  revs_of h key = dropped ++ revs → Forall (λ r, r ≤ first_index s) dropped →
  dq_repr d (drop (Z.to_nat (first_index s)) (slot <$> (h ++ [Some (key, v)]))) →
  start_offset d = first_index s →
  store_repr
    (with_values (with_arcs s (<[l := {| item_key := key; revisions := revs ++ [mod_revision v];
                                         latest_value := v |}]> (arcs s))) d)
    (h ++ [Some (key, v)]).
Proof.
  intros [Hh Hst Hd Hix Hit Hk] Hl Ha Hm Hrevs Hdrop Hd' Hs'.
  assert (first_index (with_values (with_arcs s (<[l := {| item_key := key;
    revisions := revs ++ [mod_revision v]; latest_value := v |}]> (arcs s))) d)
    = first_index s) as Hfi by done.
  split; rewrite ?Hfi; simpl; [|rewrite length_app; lia|done|done|..].
  - by apply hist_ok_snoc.
  - intros k l' Hl'. destruct (decide (key = k)) as [<-|Hne].
    + assert (l' = l) as -> by congruence. eexists. split.
      { apply list_lookup_insert_eq. by eapply lookup_lt_Some. }
      split; simpl; [done|by unfold latest_or_null; rewrite latest_of_snoc_eq|].
      exists dropped. split; [|done]. unfold revs_of in *.
      by rewrite events_snoc_eq, fmap_app, Hrevs, <- app_assoc.
    + destruct (Hit _ _ Hl') as (it' & Ha' & Hr'). exists it'. split.
      * rewrite list_lookup_insert_ne; [done|]. intros <-.
        destruct (Hit _ _ Hl) as (it2 & Ha2 & Hr2).
        apply Hne. rewrite <- (ir_key _ _ _ _ Hr'), <- (ir_key _ _ _ _ Hr2). congruence.
      * by apply item_repr_other.
  - intros k w Hw. destruct (decide (key = k)) as [<-|Hne]; [by rewrite Hl|].
    rewrite latest_of_snoc_ne in Hw by done. by eapply Hk.
Qed.

(** ** Conditional writes *)

Lemma drain_compacted_spec revs earliest :
  StronglySorted Z.lt revs →
  ∃ old, revs = old ++ drain_compacted revs earliest ∧ Forall (λ r, r ≤ earliest) old.
Proof.
  intros Hs. unfold drain_compacted. destruct (_ <? earliest).
  - exists (take (partition_point (λ v, v <? earliest) revs) revs).
    split; [by rewrite take_drop|].
    eapply Forall_impl; [apply partition_point_take|]. simpl. lia.
  - by exists [].
Qed.

(** The abstract [set], said without the code: a client may demand a modification revision
    and a version (negative targets demand nothing); a key that is not live has both at 0
    whatever the comparison; a key that is not live cannot be deleted. *)
Definition demanded (target : option Z) : option Z :=
  z ← target; if decide (0 ≤ z) then Some z else None.

Definition compares (operator existing target : Z) : Prop :=
  match operator with
  | 1 => existing > target
  | 2 => existing < target
  | 3 => existing ≠ target
  | _ => existing = target
  end.

#[export] Instance compares_dec operator existing target : Decision (compares operator existing target).
Proof. unfold compares. repeat case_match; apply _. Defined.

Definition meets (operator : Z) (target field : option Z) : bool :=
  match demanded target, field with
  | None, _ => true
  | Some t, Some x => bool_decide (compares operator x t)
  | Some t, None => bool_decide (t = 0)
  end.

Definition condition_met (required : option SetRequired) (live : option Value) : bool :=
  match required with
  | None => true
  | Some q => meets (compare_result q) (required_last_revision q) (mod_revision <$> live)
              && meets (compare_result q) (required_version q) (version <$> live)
  end.

Definition guard h (key : ByteArray) (new : option ByteArray) (required : option SetRequired) :
    option SetError :=
  let live := live_part (Some (latest_or_null h key)) in
  if condition_met required live && (bool_decide (is_Some live) || bool_decide (is_Some new)) then None
  else Some (Z.of_nat (length h), (λ v, as_mvcc_key_value v key) <$> live).

(** The value of a key after a write at [rev]: a live key keeps its creation revision and
    counts one more version, any other starts over. *)
Definition revised (old : Value) (rev : Z) (new : option ByteArray) : Value :=
  {| create_revision := if is_live old then create_revision old else rev;
     mod_revision := rev;
     version := if is_live old then i64_add (version old) 1 else 1;
     value := new |}.

Definition hist_write h (key : ByteArray) (new : option ByteArray) : history :=
  h ++ [Some (key, revised (latest_or_null h key) (Z.of_nat (length h) + 1) new)].

Definition hist_set h (key : ByteArray) (new : option ByteArray) (required : option SetRequired) :
    history * Result Z SetError :=
  match guard h key new required with
  | Some e => (h, Err e)
  | None => (hist_write h key new, Ok (Z.of_nat (length h) + 1))
  end.

Lemma next_value_revised old r new : next_value old r new = revised old r new.
Proof. unfold next_value, revised, is_live. by destruct (value old). Qed.

Lemma cmp_satisfied_compares operator x t : cmp_satisfied operator x t = bool_decide (compares operator x t).
Proof.
  unfold cmp_satisfied, compares. destruct operator as [|[[p|p|]|[p|p|]|]|p]; simpl;
    case_bool_decide; lia.
Qed.

(** One demand of [set]: the code's test on a live key, and on any other. *)
Lemma meets_live operator target x :
  meets operator target (Some x) =
    negb ((0 <=? default (-1) target) && negb (cmp_satisfied operator x (default (-1) target))).
Proof.
  rewrite cmp_satisfied_compares. unfold meets, demanded. destruct target as [z|]; simpl; [|done].
  destruct (decide (0 ≤ z)), (Z.leb_spec 0 z); simpl; rewrite ?negb_involutive; (done || lia).
Qed.

Lemma meets_missing operator target : meets operator target None = negb (0 <? default (-1) target).
Proof.
  unfold meets, demanded. destruct target as [z|]; simpl; [|done].
  destruct (decide (0 ≤ z)), (Z.ltb_spec 0 z); simpl; try case_bool_decide; (done || lia).
Qed.

Lemma item_guard h c key it new required latest :
  item_repr h c key it → latest = Z.of_nat (length h) →
  set_guard it new required latest = guard h key new required.
Proof.
  intros [Hk Hl _] ->. unfold guard, set_guard, condition_met. rewrite Hk, Hl.
  unfold req_last_revision, req_version, req_cmp.
  unfold live_part, is_live. destruct (latest_or_null h key) as [cr mr ver [b|]]; simpl.
  - destruct required as [q|]; simpl; [|done]. rewrite !meets_live, andb_true_r, <- negb_orb.
    by destruct (_ || _).
  - destruct required as [q|]; simpl; [|by destruct new]. rewrite !meets_missing, <- negb_orb.
    destruct (_ || _); [done|]. by destruct new.
Qed.

(** The guard as the code computes it on an item of the key. *)
Lemma guard_code h key new required :
  guard h key new required =
    set_guard {| item_key := key; revisions := revs_of h key; latest_value := latest_or_null h key |}
      new required (Z.of_nat (length h)).
Proof. symmetry. apply (item_guard h 0); [|done]. split; [done..|]. by exists []. Qed.

Lemma set_locked_spec s h key l is_new new required :
  store_repr s h → Z.of_nat (length h) < i64_max → tree_map s !! key = Some l →
  ∃ s', set_locked s l is_new new required (Z.of_nat (length h)) =
    Ret (s', match guard h key new required with
             | Some e => Err e
             | None =>
                 Ok (Z.of_nat (length h) + 1, key,
                     revised (latest_or_null h key) (Z.of_nat (length h) + 1) new,
                     if is_new then None else Some (latest_or_null h key))
             end) ∧
    store_repr s' (hist_set h key new required).1 ∧
    notify_tx s' = notify_tx s ∧ watchers s' = watchers s ∧ first_index s' = first_index s.
Proof.
  intros Hr Hlt Hl. destruct (sr_items _ _ Hr _ _ Hl) as (it & Ha & Hit).
  unfold set_locked, get_item, hist_set. rewrite (index_or_panic_ret _ _ _ Ha), bind_ret.
  rewrite (item_guard h (first_index s) key) by done.
  destruct (guard h key new required) as [e|]; [by exists s|].
  rewrite (repr_earliest s h Hr), (ir_latest _ _ _ _ Hit), (ir_key _ _ _ _ Hit).
  set (v := revised (latest_or_null h key) (Z.of_nat (length h) + 1) new).
  destruct (repr_push s h key v Hr Hlt) as (Hrev & d1 & d2 & Hpush & Hset & Hd2 & Hs2).
  rewrite Hpush, bind_ret, Hrev, next_value_revised. fold v. rewrite Hset, bind_ret.
  eexists. split; [done|]. split; [|done].
  destruct (ir_revisions _ _ _ _ Hit) as (dropped & Heq & Hold).
  pose proof (item_revisions_sorted _ _ _ _ (sr_hist _ _ Hr) Hit) as Hsort.
  destruct (drain_compacted_spec (revisions it) (first_index s) Hsort) as (old & Hdr & Hold').
  assert (mod_revision v = Z.of_nat (length h) + 1) as Hm by done.
  rewrite <- Hm at 1. eapply (update_item_repr s h key l it v _ (dropped ++ old)); try done.
  - by rewrite <- app_assoc, <- Hdr.
  - by apply Forall_app.
Qed.

(** The relation looks at nothing but the indexes, the items and the values. *)
Lemma store_repr_ext s s' h :
  prefix_map s' = prefix_map s → tree_map s' = tree_map s → arcs s' = arcs s →
  values_by_revision s' = values_by_revision s → store_repr s h → store_repr s' h.
Proof.
  intros Hp Ht Ha Hv [Hh Hst Hd Hix Hit Hk]. unfold first_index in *.
  split; unfold first_index; rewrite ?Hp, ?Ht, ?Ha, ?Hv; done.
Qed.

Lemma notify_watchers_spec s key val prev prefix :
  ∃ s' job, notify_watchers s key val prev prefix = Ret s' ∧
    notify_tx s' = notify_tx s ++ [job] ∧ job_rev job = mod_revision val ∧
    kv (job_msg job) = as_mvcc_key_value val key ∧
    watchers_to_notify s key (mod_revision val) = Ret (job_watchers job) ∧
    (∀ h, store_repr s h → store_repr s' h) ∧ watchers s' = watchers s ∧
    first_index s' = first_index s.
Proof.
  unfold notify_watchers. unfold watchers_to_notify.
  destruct (bt_range_ret (watchers s) (Unbounded, Excluded (key, i64_max))) as [ws ->]; [done|].
  rewrite !bind_ret. eexists _, _. split; [done|]. split; [done|].
  repeat (split; [done|]). split; [|done]. intros h Hr. by apply (store_repr_ext s).
Qed.

Lemma set_spec s h key new required :
  store_repr s h → Z.of_nat (length h) < i64_max →
  ∃ s', set s key new required = Ret (s', (hist_set h key new required).2) ∧
    store_repr s' (hist_set h key new required).1 ∧ first_index s' = first_index s ∧
    match (hist_set h key new required).2 with
    | Ok rev => ∃ job, notify_tx s' = notify_tx s ++ [job] ∧ job_rev job = rev ∧
        kv (job_msg job) =
          as_mvcc_key_value (revised (latest_or_null h key) rev new) key
    | Err _ => notify_tx s' = notify_tx s
    end.
Proof.
  intros Hr Hlt. unfold set. rewrite (repr_current s h Hr).
  destruct (set_entry_spec s h key Hr) as (s1 & l & Hse & Hr1 & Hl & Hv).
  assert (first_index s1 = first_index s) as Hf by (unfold first_index; by rewrite Hv).
  assert (notify_tx s1 = notify_tx s) as Hj.
  { unfold set_entry in Hse. destruct (tree_map s !! key); [congruence|].
    unfold insert_item in Hse. destruct (prefix_split key). by simplify_eq/=. }
  rewrite Hse.
  destruct (set_locked_spec s1 h key l (bool_decide (tree_map s !! key = None)) new required Hr1 Hlt Hl)
    as (s2 & Hsl & Hr2 & Hj2 & Hw2 & Hf2).
  rewrite Hsl, bind_ret. unfold hist_set in *.
  destruct (guard h key new required) as [e|]; simpl in *.
  { exists s2. split; [done|]. split; [done|]. split; congruence. }
  destruct (notify_watchers_spec s2 key
    (revised (latest_or_null h key) (Z.of_nat (length h) + 1) new)
    (if bool_decide (tree_map s !! key = None) then None else Some (latest_or_null h key))
    (prefix_split key).1) as (s3 & job & Hn & Hjobs & Hjr & Hjk & _ & Hr3 & _ & Hf3).
  rewrite Hn, bind_ret. exists s3. split; [done|]. split; [by apply Hr3|]. split; [congruence|].
  exists job. rewrite Hjobs, Hj2, Hj, Hjr. done.
Qed.

(** ** Replay writes *)

(** The abstract replay: every record is a change, except the deletion of a key that
    is not live. *)
Definition hist_replay h (key : ByteArray) (new : option ByteArray) : history :=
  match value (latest_or_null h key), new with
  | None, None => h
  | _, _ => hist_write h key new
  end.

Lemma replay_item_spec s h key l it new :
  store_repr s h → Z.of_nat (length h) < i64_max → tree_map s !! key = Some l →
  arcs s !! l = Some it → item_repr h (first_index s) key it →
  ∃ s', replay_item s l it new = Ret s' ∧ store_repr s' (hist_write h key new) ∧
    notify_tx s' = notify_tx s ∧ first_index s' = first_index s.
Proof.
  intros Hr Hlt Hl Ha Hit. unfold replay_item, hist_write.
  set (v := revised (latest_or_null h key) (Z.of_nat (length h) + 1) new).
  destruct (repr_push s h key v Hr Hlt) as (Hrev & d1 & d2 & Hpush & Hset & Hd2 & Hs2).
  rewrite Hpush, bind_ret. simpl. rewrite Hrev, (ir_latest _ _ _ _ Hit), (ir_key _ _ _ _ Hit).
  rewrite next_value_revised. fold v. rewrite Hset, bind_ret. eexists. split; [done|]. split; [|done].
  destruct (ir_revisions _ _ _ _ Hit) as (dropped & Heq & Hold).
  assert (mod_revision v = Z.of_nat (length h) + 1) as Hm by done.
  rewrite <- Hm at 1. by eapply (update_item_repr s h key l it v _ dropped).
Qed.

Lemma insert_new_repr s h key v d :
  store_repr s h → tree_map s !! key = None → mod_revision v = Z.of_nat (length h) + 1 →
  dq_repr d (drop (Z.to_nat (first_index s)) (slot <$> (h ++ [Some (key, v)]))) →
  start_offset d = first_index s →
  store_repr (insert_item (with_values s d) key
    {| item_key := key; revisions := [mod_revision v]; latest_value := v |}) (h ++ [Some (key, v)]).
Proof.
  intros Hr Hn Hm Hd Hs. pose proof (unknown_latest s h key Hr Hn) as Hun.
  destruct Hr as [Hh Hst _ Hix Hit Hk]. unfold insert_item.
  destruct (prefix_split key) as [p x] eqn:Hsp.
  split; unfold first_index; simpl; fold (first_index s); rewrite ?Hs;
    [by apply hist_ok_snoc|rewrite length_app; lia|done|by apply index_wf_insert|..].
  - intros k l. destruct (decide (key = k)) as [<-|Hne].
    + rewrite lookup_insert_eq. intros [= <-]. eexists. split.
      { by rewrite lookup_app_r, Nat.sub_diag by done. }
      split; simpl; [done|by unfold latest_or_null; rewrite latest_of_snoc_eq|].
      exists []. split; [|done]. unfold revs_of, latest_of in *. apply last_None in Hun.
      by rewrite events_snoc_eq, Hun.
    + rewrite lookup_insert_ne by done. intros Hl. destruct (Hit _ _ Hl) as (it & Ha & Hi).
      exists it. split; [by apply lookup_app_l_Some|]. by apply item_repr_other.
  - intros k w Hw. destruct (decide (key = k)) as [<-|Hne]; [by rewrite lookup_insert_eq|].
    rewrite lookup_insert_ne by done. rewrite latest_of_snoc_ne in Hw by done. by eapply Hk.
Qed.

Lemma set_for_replay_spec s h key new :
  store_repr s h → Z.of_nat (length h) < i64_max →
  ∃ s', set_for_replay s key new = Ret s' ∧ store_repr s' (hist_replay h key new) ∧
    notify_tx s' = notify_tx s ∧ first_index s' = first_index s.
Proof.
  intros Hr Hlt. unfold set_for_replay, hist_replay.
  destruct (tree_map s !! key) as [l|] eqn:Hl.
  - destruct (sr_items _ _ Hr _ _ Hl) as (it & Ha & Hit).
    unfold get_item. rewrite (index_or_panic_ret _ _ _ Ha), bind_ret, (ir_latest _ _ _ _ Hit).
    destruct (value (latest_or_null h key)), new; try by eapply replay_item_spec. by exists s.
  - pose proof (unknown_latest s h key Hr Hl) as Hun.
    unfold latest_or_null at 1. rewrite Hun. simpl.
    destruct new as [b|]; [|by exists s]. unfold hist_write, revised, latest_or_null.
    rewrite Hun. simpl.
    set (v := {| create_revision := Z.of_nat (length h) + 1; mod_revision := Z.of_nat (length h) + 1;
                 version := 1; value := Some b |}).
    destruct (repr_push s h key v Hr Hlt) as (Hrev & d1 & d2 & Hpush & Hset & Hd2 & Hs2).
    rewrite Hpush, bind_ret. simpl. rewrite Hrev. fold v. rewrite Hset, bind_ret. simpl.
    eexists. split; [done|]. split.
    + by apply (insert_new_repr s h key v d2).
    + unfold insert_item, first_index. by destruct (prefix_split key).
Qed.

(** ** Compaction *)

Lemma item_repr_mono h c c' k it : c ≤ c' → item_repr h c k it → item_repr h c' k it.
Proof.
  intros Hc [Hk Hl (dropped & Heq & Hold)]. split; [done..|].
  exists dropped. split; [done|]. eapply Forall_impl; [exact Hold|]. simpl. lia.
Qed.

Lemma compact_ok_spec s h rev :
  store_repr s h → first_index s < rev ≤ Z.of_nat (length h) →
  ∃ s', compact s rev = Ret (s', Ok ()) ∧ store_repr s' h ∧ first_index s' = rev - 1 ∧
    notify_tx s' = notify_tx s.
Proof.
  intros Hr Hrev. destruct (repr_latest s h Hr) as [Hlat Hmax].
  pose proof (sr_start _ _ Hr) as Hst. unfold compact. rewrite (repr_current s h Hr).
  replace ((rev <? 1) || (Z.of_nat (length h) <? rev)) with false
    by (symmetry; apply orb_false_iff; lia).
  rewrite i64_sub_id, as_usize_id by width.
  destruct Hr as [Hh _ Hd Hix Hit Hk].
  destruct (dq_remove_before_in _ _ (rev - 1) Hd) as (d' & -> & Hd' & Hs');
    [unfold first_index in *; lia|].
  rewrite bind_ret. simpl. eexists. split; [done|].
  unfold first_index in *. split; [|done].
  rewrite drop_drop in Hd'.
  replace (Z.to_nat (start_offset (values_by_revision s)) +
           Z.to_nat (rev - 1 - start_offset (values_by_revision s)))%nat
    with (Z.to_nat (rev - 1)) in Hd' by lia.
  split; unfold first_index; simpl; rewrite ?Hs'; [done|lia|done|done| |done].
  intros k l Hl. destruct (Hit _ _ Hl) as (it & Ha & Hi). exists it. split; [done|].
  eapply item_repr_mono; [|exact Hi]. lia.
Qed.

(** An out-of-range revision, and one that was compacted before, are refused. *)
Lemma compact_err_spec s h rev :
  store_repr s h → rev ≤ first_index s ∨ Z.of_nat (length h) < rev →
  ∃ e, compact s rev = Ret (s, Err e).
Proof.
  intros Hr Hrev. destruct (repr_latest s h Hr) as [Hlat Hmax].
  pose proof (sr_start _ _ Hr) as Hst. unfold compact. rewrite (repr_current s h Hr).
  destruct (_ || _) eqn:E; [eauto|]. apply orb_false_iff in E as [? ?].
  rewrite i64_sub_id, as_usize_id by width.
  rewrite (dq_remove_before_out _ _ _ (sr_values _ _ Hr)) by (unfold first_index in *; lia).
  rewrite bind_ret. simpl. exists (mkStatus Internal "etcdserver: mvcc: compact failed" []).
  by destruct s.
Qed.

(** ** Past changes of a watch *)

(** The changes of one key from [start_rev] on, each with the previous value when it
    is wanted and still readable. *)
Fixpoint changes_from (c : Z) (want_prev : bool) (start_rev : Z) (k : ByteArray)
    (vs : list Value) (prev : option KeyValue) : list KeyValueWithPrev :=
  match vs with
  | [] => []
  | v :: vs' =>
      if c <? mod_revision v then
        (if start_rev <=? mod_revision v
         then [{| prev_kv := prev; kv := as_mvcc_key_value v k |}] else [])
        ++ changes_from c want_prev start_rev k vs'
             (if want_prev then Some (as_mvcc_key_value v k) else None)
      else changes_from c want_prev start_rev k vs' None
  end.

Definition key_changes h (c : Z) (want_prev : bool) (start_rev : Z) (k : ByteArray) :
    list KeyValueWithPrev := changes_from c want_prev start_rev k (events h k) None.

Lemma changes_from_kvs c want start_rev k vs prev :
  c < start_rev →
  kv <$> changes_from c want start_rev k vs prev =
    (λ v, as_mvcc_key_value v k) <$> filter (λ v, start_rev ≤ mod_revision v) vs.
Proof.
  intros Hc. revert prev. induction vs as [|v vs IH]; intros prev; simpl; [done|].
  rewrite filter_cons. destruct (c <? mod_revision v) eqn:E1.
  - destruct (start_rev <=? mod_revision v) eqn:E2.
    + rewrite decide_True by lia. simpl. by rewrite IH.
    + rewrite decide_False by lia. simpl. by rewrite IH.
  - rewrite decide_False by lia. by rewrite IH.
Qed.

(** Values older than [start_rev] only leave a previous value behind. *)
Lemma changes_from_skip c want start_rev k v vs prev :
  c < start_rev → mod_revision v < start_rev →
  changes_from c want start_rev k (v :: vs) prev =
    changes_from c want start_rev k vs
      (if (c <? mod_revision v) && want then Some (as_mvcc_key_value v k) else None).
Proof.
  intros Hc Hv. simpl. destruct (c <? mod_revision v); [|done].
  rewrite (proj2 (Z.leb_gt _ _)) by lia. simpl. by destruct want.
Qed.

(** Skipping to the last value before [start_rev], or to the first one from it when
    no previous value is wanted, changes nothing. *)
Lemma changes_from_start c want start_rev k vs ws :
  c < start_rev → Forall (λ v, mod_revision v < start_rev) vs →
  changes_from c want start_rev k (vs ++ ws) None =
    changes_from c want start_rev k
      (drop (if want then length vs - 1 else length vs) (vs ++ ws)) None.
Proof.
  intros Hc. induction vs as [|v vs IH]; intros Hall; [by destruct want|].
  inversion Hall as [|?? Hv Hvs]; subst. specialize (IH Hvs).
  change ((v :: vs) ++ ws) with (v :: (vs ++ ws)). rewrite changes_from_skip by done.
  destruct want.
  - destruct vs as [|v' vs']; [by rewrite <- (changes_from_skip _ _ _ _ _ _ None)|].
    inversion Hvs as [|?? Hv' _]; subst. simpl length in *. rewrite Nat.sub_succ, Nat.sub_0_r in *.
    change ((v' :: vs') ++ ws) with (v' :: (vs' ++ ws)) in *.
    rewrite changes_from_skip, <- (changes_from_skip _ _ _ _ _ _ None) by done. exact IH.
  - rewrite andb_false_r. exact IH.
Qed.

(** Values that are compacted leave nothing behind. *)
Lemma changes_from_compacted c want start_rev k vs ws :
  Forall (λ v, mod_revision v ≤ c) vs →
  changes_from c want start_rev k (vs ++ ws) None = changes_from c want start_rev k ws None.
Proof.
  induction 1 as [|v vs Hv Hvs IH]; [done|]. simpl. by rewrite (proj2 (Z.ltb_ge _ _)) by lia.
Qed.

Lemma past_changes_loop_spec s h k it want start_rev vs prev acc :
  store_repr s h → item_key it = k → Forall (λ v, v ∈ events h k) vs →
  past_changes_loop s it want start_rev (mod_revision <$> vs) prev acc =
    Ret (acc ++ changes_from (first_index s) want start_rev k vs prev).
Proof.
  intros Hr Hk. revert prev acc. induction vs as [|v vs IH]; intros prev acc Hvs; simpl.
  { by rewrite app_nil_r. }
  inversion Hvs as [|?? Hv Hvs']; subst.
  destruct (event_lookup h (item_key it) v (sr_hist _ _ Hr) Hv) as [Hb Hl].
  unfold Deque.get. rewrite (repr_get s h) by done. rewrite bind_ret, Hl. simpl.
  destruct (first_index s <? mod_revision v); simpl; [|by apply IH].
  rewrite IH by done. destruct (start_rev <=? mod_revision v); simpl; [|done].
  by rewrite <- app_assoc.
Qed.

Lemma item_values h c k it :
  item_repr h c k it →
  ∃ vs ws, events h k = vs ++ ws ∧ revisions it = mod_revision <$> ws ∧
    Forall (λ v, mod_revision v ≤ c) vs.
Proof.
  intros [_ _ (dropped & Heq & Hold)]. unfold revs_of in Heq.
  exists (take (length dropped) (events h k)), (drop (length dropped) (events h k)).
  rewrite take_drop. split; [done|]. rewrite fmap_drop, Heq, drop_app_length.
  split; [done|].
  assert (mod_revision <$> take (length dropped) (events h k) = dropped) as Ht
    by (by rewrite fmap_take, Heq, take_app_length).
  apply (Forall_fmap mod_revision (λ r, r ≤ c)). by rewrite Ht.
Qed.

Lemma item_past_changes_spec s h k it want start_rev acc :
  store_repr s h → first_index s < start_rev → item_repr h (first_index s) k it →
  item_past_changes s it want start_rev acc =
    Ret (acc ++ key_changes h (first_index s) want start_rev k).
Proof.
  intros Hr Hc Hit. pose proof (item_revisions_sorted _ _ _ _ (sr_hist _ _ Hr) Hit) as Hs.
  destruct (item_values _ _ _ _ Hit) as (vs & ws & Hev & Hrv & Hold).
  unfold item_past_changes.
  rewrite binary_search_pos.
  set (pos := partition_point _ _).
  pose proof (partition_point_le (λ v, v <? start_rev) (revisions it)) as Hle. fold pos in Hle.
  rewrite Hrv, length_fmap in Hle.
  pose proof (partition_point_take (λ v, v <? start_rev) (revisions it)) as Ht. fold pos in Ht.
  rewrite Hrv, <- fmap_take in Ht. apply Forall_fmap in Ht.
  rewrite Hrv, <- fmap_drop.
  rewrite (past_changes_loop_spec s h k) by (done || apply (ir_key _ _ _ _ Hit) ||
    (apply Forall_forall; intros v Hv; rewrite Hev; apply elem_of_app; right;
     by eapply subseteq_drop)).
  do 2 f_equal. unfold key_changes. rewrite Hev, changes_from_compacted by done.
  rewrite <- (take_drop pos ws) at 2.
  rewrite changes_from_start; [|done|eapply Forall_impl; [exact Ht|]; simpl; lia].
  rewrite take_drop, length_take, Nat.min_l by done.
  destruct want; [|by rewrite andb_false_r]. rewrite andb_true_r.
  case_bool_decide; [done|]. by replace pos with 0%nat by lia.
Qed.

Lemma past_changes_spec s h p es want start_rev acc :
  store_repr s h → first_index s < start_rev → entries_ok s p es →
  past_changes s want start_rev es acc =
    Ret (acc ++ (es ≫= λ e, key_changes h (first_index s) want start_rev (p ++ e.1))).
Proof.
  intros Hr Hc Hes. revert acc. induction Hes as [|[x l] es Hx Hes IH]; intros acc; simpl in *.
  { by rewrite app_nil_r. }
  destruct (sr_items _ _ Hr _ _ Hx) as (it & Ha & Hit).
  unfold get_item. rewrite (index_or_panic_ret _ _ _ Ha), bind_ret.
  rewrite (item_past_changes_spec s h (p ++ x)), bind_ret by done.
  by rewrite IH, <- app_assoc.
Qed.
End repr.
