(* ===== verification/Snapshot.v ===== *)
(** * Raft snapshots of the store (src/store.rs, [export_snapshot_data] and
    [import_snapshot_data])

    What an export holds and what a store looks like after an import: the exported
    entries are the live keys with their metadata, and importing any set of entries
    with distinct keys and revisions yields a store whose history has exactly these
    changes, with holes at the other revisions. *)
From S2P Require Import Prelude Bytes BTreeMap BlockDeque Types Prefix History Store StoreSpec.

Definition entry_value (e : SnapshotEntry) : Value :=
  {| create_revision := se_create_revision e; mod_revision := se_mod_revision e;
     version := se_version e; value := Some (se_value e) |}.

(** The history an import builds, from holes. *)
Definition fill (h : history) (e : SnapshotEntry) : history :=
  <[Z.to_nat (se_mod_revision e - 1) := Some (se_key e, entry_value e)]> h.

Definition imported_history (es : list SnapshotEntry) : history :=
  foldl fill (replicate (Z.to_nat (max_mod_revision es)) None) es.

(** What an import relies on: distinct keys, distinct positive revisions. *)
Definition snapshot_ok (es : list SnapshotEntry) : Prop :=
  NoDup (se_key <$> es) ∧ NoDup (se_mod_revision <$> es) ∧
  Forall (λ e, 1 ≤ se_mod_revision e ≤ i64_max) es.

(** ** Filling holes *)

Lemma events_fill_hole h i k v k' :
  h !! i = Some None →
  Permutation (events (<[i := Some (k, v)]> h) k')
    ((if decide (k = k') then [v] else []) ++ events h k').
Proof.
  intros Hi. pose proof (lookup_lt_Some _ _ _ Hi) as Hlt.
  rewrite <- (take_drop_middle h i None Hi) at 2.
  rewrite insert_take_drop by done. rewrite !events_app. simpl.
  destruct (decide (k = k')) as [->|]; simpl; [|done].
  unfold events at 2. simpl. by rewrite <- Permutation_middle.
Qed.

Lemma hist_ok_fill h i k v :
  hist_ok h → mod_revision v = Z.of_nat i + 1 → hist_ok (<[i := Some (k, v)]> h).
Proof.
  intros Hh Hm j k' v' Hj. apply list_lookup_insert_Some in Hj as [(<- & [= <- <-] & _)|[_ Hj]].
  - done.
  - by eapply Hh.
Qed.

Lemma hist_ok_holes n : hist_ok (replicate n None).
Proof. intros i k v Hi. by apply lookup_replicate in Hi as [? _]. Qed.

Lemma events_holes n k : events (replicate n None) k = [].
Proof. induction n; simpl; [done|]. exact IHn. Qed.

(** The change of an unwritten key becomes its only one. *)
Lemma events_fill_eq h i k v :
  h !! i = Some None → events h k = [] → events (<[i := Some (k, v)]> h) k = [v].
Proof.
  intros Hi He. pose proof (events_fill_hole h i k v k Hi) as Hp.
  rewrite decide_True, He, app_nil_r in Hp by done. by apply Permutation_singleton_r in Hp.
Qed.

Lemma events_fill_ne h i k v k' :
  h !! i = Some None → k ≠ k' → events (<[i := Some (k, v)]> h) k' = events h k'.
Proof.
  intros Hi Hne. pose proof (lookup_lt_Some _ _ _ Hi) as Hlt.
  rewrite <- (take_drop_middle h i None Hi) at 2.
  rewrite insert_take_drop by done. rewrite !events_app.
  change (events (Some (k, v) :: drop (S i) h) k') with
    (omap (change_of k') (Some (k, v) :: drop (S i) h)).
  simpl. by rewrite decide_False by done.
Qed.

Section import.
Context `{!BlockSize}.
Implicit Types (s : Store) (h : history).

Lemma push_holes_spec n d (l : list Value) :
  dq_repr d l → start_offset d + Z.of_nat (length l) + Z.of_nat n ≤ i64_max →
  ∃ d', push_holes n d = Ret d' ∧ dq_repr d' (l ++ replicate n null_value) ∧
    start_offset d' = start_offset d.
Proof.
  revert d l. induction n as [|n IH]; intros d l Hd Hb; simpl.
  { exists d. by rewrite app_nil_r. }
  destruct (dq_push d l null_value Hd) as (d1 & -> & Hd1 & Hs1);
    [rewrite (dq_repr_latest _ _ Hd); lia|].
  rewrite bind_ret. simpl.
  destruct (IH d1 _ Hd1) as (d2 & -> & Hd2 & Hs2);
    [rewrite length_app; simpl; lia|].
  exists d2. split; [done|]. rewrite <- app_assoc in Hd2. split; [done|]. congruence.
Qed.

(** The store an import starts from. *)
Lemma import_start_repr s d n :
  dq_repr d (replicate n null_value) → start_offset d = 0 →
  store_repr (with_values (with_index s ∅ ∅ (arcs s)) d) (replicate n None).
Proof.
  intros Hd Hs. split; unfold first_index; simpl; rewrite ?Hs.
  - apply hist_ok_holes.
  - rewrite length_replicate. lia.
  - by rewrite fmap_replicate.
  - apply index_wf_empty.
  - intros k l. by rewrite lookup_empty.
  - intros k v. unfold latest_of. by rewrite events_holes.
Qed.

Lemma item_repr_fill_ne h c i k v k' it :
  h !! i = Some None → k ≠ k' → item_repr h c k' it → item_repr (<[i := Some (k, v)]> h) c k' it.
Proof.
  intros Hi Hne [Hk Hl Hr]. unfold latest_or_null, latest_of, revs_of in *.
  split; unfold latest_or_null, latest_of, revs_of; by rewrite ?events_fill_ne.
Qed.

Lemma import_entry_repr s h e :
  store_repr s h → first_index s = 0 → tree_map s !! se_key e = None →
  1 ≤ se_mod_revision e → h !! Z.to_nat (se_mod_revision e - 1) = Some None →
  ∃ s', import_entry s e = Ret s' ∧ store_repr s' (fill h e) ∧ first_index s' = 0 ∧
    tree_map s' = <[se_key e := length (arcs s)]> (tree_map s).
Proof.
  intros Hr H0 Hn Hm Hi. pose proof (lookup_lt_Some _ _ _ Hi) as Hlt.
  destruct (repr_latest s h Hr) as [Hlat Hmax].
  pose proof (unknown_latest s h (se_key e) Hr Hn) as Hun.
  destruct Hr as [Hh Hst Hd Hix Hit Hk]. unfold first_index in *.
  unfold import_entry. fold (entry_value e). rewrite as_usize_id, usize_sub_id by width.
  destruct (dq_set_in _ _ (se_mod_revision e - 1) (entry_value e) Hd) as (d' & -> & Hd' & Hs'); [lia|].
  rewrite bind_ret. simpl. eexists. split; [done|]. unfold insert_item.
  destruct (prefix_split (se_key e)) as [p x] eqn:Hsp. simpl.
  split; [|split; [unfold first_index; simpl; congruence|done]].
  unfold fill. set (i := Z.to_nat (se_mod_revision e - 1)) in *.
  split; unfold first_index; simpl; rewrite ?Hs', ?H0, ?Z.sub_0_r in *.
  - apply hist_ok_fill; [done|]. simpl. lia.
  - rewrite length_insert. lia.
  - rewrite drop_0 in *. fold i in Hd'. by rewrite list_fmap_insert.
  - by apply index_wf_insert.
  - intros k l. destruct (decide (se_key e = k)) as [<-|Hne].
    + rewrite lookup_insert_eq. intros [= <-]. eexists. split.
      { by rewrite lookup_app_r, Nat.sub_diag by done. }
      unfold latest_of in Hun. apply last_None in Hun.
      split; simpl; unfold latest_or_null, latest_of, revs_of; [done|..];
        rewrite events_fill_eq by done; [done|]. by exists [].
    + rewrite lookup_insert_ne by done. intros Hl. destruct (Hit _ _ Hl) as (it & Ha & Hri).
      exists it. split; [by apply lookup_app_l_Some|]. by apply item_repr_fill_ne.
  - intros k w. destruct (decide (se_key e = k)) as [<-|Hne]; [by rewrite lookup_insert_eq|].
    rewrite lookup_insert_ne by done. unfold latest_of. rewrite events_fill_ne by done. apply Hk.
Qed.

Lemma fill_hole h e i :
  h !! i = Some None → Z.of_nat i + 1 ≠ se_mod_revision e → 1 ≤ se_mod_revision e →
  fill h e !! i = Some None.
Proof. intros Hi Hne Hm. unfold fill. rewrite list_lookup_insert_ne; [done|lia]. Qed.

Lemma import_entries_repr s h es :
  store_repr s h → first_index s = 0 → snapshot_ok es →
  Forall (λ e, tree_map s !! se_key e = None ∧ h !! Z.to_nat (se_mod_revision e - 1) = Some None) es →
  ∃ s', import_entries s es = Ret s' ∧ store_repr s' (foldl fill h es) ∧ first_index s' = 0.
Proof.
  revert s h. induction es as [|e es IH]; intros s h Hr H0 (Hk & Hm & Hpos) Hall; simpl; [by exists s|].
  simpl in Hk, Hm. apply NoDup_cons in Hk as [Hk1 Hk2]. apply NoDup_cons in Hm as [Hm1 Hm2].
  inversion Hpos as [|?? [He _] Hpos']; inversion Hall as [|?? [Hn Hi] Hall']; subst.
  destruct (import_entry_repr s h e Hr H0 Hn He Hi) as (s1 & -> & Hr1 & H01 & Ht1).
  rewrite bind_ret. apply IH; [done|done|by split|].
  apply Forall_forall. intros e' He'. rewrite Forall_forall in Hall', Hpos'.
  destruct (Hall' _ He') as [Hn' Hi']. pose proof (Hpos' _ He') as [He1 _]. split.
  - rewrite Ht1, lookup_insert_ne; [done|]. intros Heq. apply Hk1. rewrite Heq.
    by apply list_elem_of_fmap_2.
  - apply fill_hole; [done| |done]. intros Heq. apply Hm1.
    replace (se_mod_revision e) with (se_mod_revision e') by lia. by apply list_elem_of_fmap_2.
Qed.

Lemma max_mod_revision_ge es e : e ∈ es → se_mod_revision e ≤ max_mod_revision es.
Proof.
  destruct es as [|a es]; [by intros ?%elem_of_nil|]. simpl.
  intros [->|Hin]%elem_of_cons.
  - induction es; simpl; lia.
  - induction es as [|b es IH]; [by apply elem_of_nil in Hin|].
    simpl. apply elem_of_cons in Hin as [->|Hin]; [lia|]. specialize (IH Hin). lia.
Qed.

Lemma max_mod_revision_le es b : 0 ≤ b → Forall (λ e, se_mod_revision e ≤ b) es → max_mod_revision es ≤ b.
Proof.
  intros Hb. destruct 1 as [|e es He Hes]; simpl; [done|].
  induction Hes; simpl; lia.
Qed.

Lemma import_repr s es :
  snapshot_ok es →
  ∃ s', import_snapshot_data s es = Ret s' ∧ store_repr s' (imported_history es) ∧
    first_index s' = 0.
Proof.
  intros Hok. pose proof Hok as (Hk & Hm & Hpos). unfold import_snapshot_data, imported_history.
  set (n := Z.to_nat (max_mod_revision es)).
  assert (max_mod_revision es ≤ i64_max) as Hmax.
  { apply max_mod_revision_le; [width|]. eapply Forall_impl; [exact Hpos|]. simpl. lia. }
  destruct (push_holes_spec n Deque.new [] dq_repr_new) as (d & Hp & Hd & Hs).
  { simpl. width_unfold. lia. }
  change (Deque.clear (values_by_revision s)) with (Deque.new (T:=Value)).
  simpl values_by_revision. rewrite Hp, bind_ret. simpl in Hd, Hs.
  apply import_entries_repr; [by apply import_start_repr|done|done|].
  apply Forall_forall. intros e He. simpl. split; [apply lookup_empty|].
  rewrite Forall_forall in Hpos. pose proof (Hpos _ He). pose proof (max_mod_revision_ge _ _ He).
  apply lookup_replicate. split; [done|]. lia.
Qed.
End import.

(** ** The imported history *)

Lemma length_fill h es : length (foldl fill h es) = length h.
Proof.
  revert h. induction es as [|e es IH]; intros h; simpl; [done|].
  rewrite IH. apply length_insert.
Qed.

Definition holes_for (h : history) (es : list SnapshotEntry) : Prop :=
  Forall (λ e, h !! Z.to_nat (se_mod_revision e - 1) = Some None) es.

Lemma holes_for_fill h e es :
  snapshot_ok (e :: es) → holes_for h (e :: es) → holes_for (fill h e) es.
Proof.
  intros (_ & Hm & Hpos) Hh. simpl in Hm. apply NoDup_cons in Hm as [Hm _].
  inversion Hpos as [|?? [He _] Hpos']; inversion Hh as [|?? Hi Hh']; subst.
  apply Forall_forall. intros e' He'. unfold holes_for in Hh'. rewrite Forall_forall in Hh', Hpos'.
  apply fill_hole; [by apply Hh'| |done]. intros Heq. apply Hm.
  pose proof (Hpos' _ He') as [? _].
  replace (se_mod_revision e) with (se_mod_revision e') by lia. by apply list_elem_of_fmap_2.
Qed.

Lemma snapshot_ok_tail e es : snapshot_ok (e :: es) → snapshot_ok es.
Proof.
  intros (Hk & Hm & Hp). simpl in *. apply NoDup_cons in Hk as [_ ?], Hm as [_ ?].
  inversion Hp. by split.
Qed.

Lemma events_fill_other h es k :
  snapshot_ok es → holes_for h es → k ∉ se_key <$> es →
  events (foldl fill h es) k = events h k.
Proof.
  revert h. induction es as [|e es IH]; intros h Hok Hh Hk; simpl; [done|].
  simpl in Hk. apply not_elem_of_cons in Hk as [Hne Hk].
  rewrite IH; [|by eapply snapshot_ok_tail|by apply holes_for_fill|done].
  inversion Hh; subst. by apply events_fill_ne.
Qed.

Lemma events_fill_entry h es e :
  snapshot_ok es → holes_for h es → e ∈ es → events h (se_key e) = [] →
  events (foldl fill h es) (se_key e) = [entry_value e].
Proof.
  revert h. induction es as [|a es IH]; intros h Hok Hh Hin He; [by apply elem_of_nil in Hin|].
  pose proof Hok as (Hk & _ & _). simpl in Hk. apply NoDup_cons in Hk as [Hk _].
  inversion Hh as [|?? Hi Hh']; subst. simpl. apply elem_of_cons in Hin as [->|Hin].
  - rewrite events_fill_other; [|by eapply snapshot_ok_tail|by apply holes_for_fill|done].
    by apply events_fill_eq.
  - apply IH; [by eapply snapshot_ok_tail|by apply holes_for_fill|done|].
    unfold fill. rewrite events_fill_ne; [done|done|].
    intros Heq. apply Hk. rewrite Heq. by apply list_elem_of_fmap_2.
Qed.

Lemma holes_for_start es :
  snapshot_ok es → holes_for (replicate (Z.to_nat (max_mod_revision es)) None) es.
Proof.
  intros (_ & _ & Hpos). apply Forall_forall. intros e He.
  rewrite Forall_forall in Hpos. pose proof (Hpos _ He). pose proof (max_mod_revision_ge _ _ He).
  apply lookup_replicate. split; [done|]. lia.
Qed.

Lemma imported_latest es k v :
  snapshot_ok es →
  latest_of (imported_history es) k = Some v ↔ ∃ e, e ∈ es ∧ se_key e = k ∧ v = entry_value e.
Proof.
  intros Hok. pose proof (holes_for_start es Hok) as Hh. unfold latest_of, imported_history.
  destruct (decide (k ∈ se_key <$> es)) as [Hin|Hout].
  - apply list_elem_of_fmap in Hin as (e & -> & He).
    rewrite (events_fill_entry _ _ e) by (done || apply events_holes). simpl. split.
    + intros [= <-]. by exists e.
    + intros (e' & He' & Hk' & ->). f_equal.
      enough ([entry_value e] = [entry_value e']) by congruence.
      rewrite <- (events_fill_entry _ _ e Hok Hh He (events_holes _ _)).
      rewrite <- (events_fill_entry _ _ e' Hok Hh He' (events_holes _ _)). by rewrite Hk'.
  - rewrite events_fill_other, events_holes by done. simpl. split; [done|].
    intros (e & He & <- & _). exfalso. apply Hout. by apply list_elem_of_fmap_2.
Qed.

(** ** Exports *)

Section export.
Context `{!BlockSize}.
Implicit Types (s : Store) (h : history).

Definition entry_of (h : history) (k : ByteArray) : option SnapshotEntry :=
  v ← latest_of h k;
  b ← value v;
  Some {| se_key := k; se_value := b; se_create_revision := create_revision v;
          se_mod_revision := mod_revision v; se_version := version v |}.

Lemma export_entries_spec s h es :
  store_repr s h → Forall (λ e, tree_map s !! e.1 = Some e.2) es →
  export_entries s es = Ret (omap (λ e, entry_of h e.1) es).
Proof.
  intros Hr. induction 1 as [|[k l] es Hk Hes IH]; simpl; [done|]. simpl in Hk.
  destruct (sr_items _ _ Hr _ _ Hk) as (it & Ha & Hit).
  unfold export_entry, get_item. simpl. rewrite (index_or_panic_ret _ _ _ Ha), bind_ret.
  rewrite (ir_latest _ _ _ _ Hit), IH. unfold latest_or_null, entry_of.
  destruct (latest_of h k) as [v|]; simpl; [|done]. by destruct (value v).
Qed.

Lemma entry_of_value h k e : entry_of h k = Some e ↔ se_key e = k ∧ latest_of h k = Some (entry_value e).
Proof.
  unfold entry_of. split.
  - intros (v & Hv & (b & Hb & [= <-])%bind_Some)%bind_Some. split; [done|].
    rewrite Hv. unfold entry_value. simpl. rewrite <- Hb. by destruct v.
  - intros [<- ->]. simpl. by destruct e.
Qed.

Lemma fmap_omap_entries h (es : list (ByteArray * loc)) :
  se_key <$> omap (λ e, entry_of h e.1) es = omap (λ e, se_key <$> entry_of h e.1) es.
Proof.
  induction es as [|[k l] es IH]; csimpl; [done|].
  destruct (entry_of h k); csimpl; [by f_equal|done].
Qed.

Lemma export_spec iter s h :
  store_repr s h → iter (tree_map s) ≡ₚ map_to_list (tree_map s) →
  ∃ es, export_snapshot_data iter s = Ret es ∧ snapshot_ok es ∧
    ∀ e, e ∈ es ↔ latest_of h (se_key e) = Some (entry_value e).
Proof.
  intros Hr Hperm. unfold export_snapshot_data.
  assert (∀ k l, (k, l) ∈ iter (tree_map s) ↔ tree_map s !! k = Some l) as Hiter.
  { intros k l. by rewrite Hperm, elem_of_map_to_list. }
  rewrite (export_entries_spec s h) by (done || (apply Forall_forall; intros [k l] ?; by apply Hiter)).
  set (es := omap _ _). exists es. split; [done|].
  assert (∀ e, e ∈ es ↔ latest_of h (se_key e) = Some (entry_value e)) as Hes.
  { intros e. unfold es. rewrite list_elem_of_omap. split.
    - intros ([k l] & _ & [<- He]%entry_of_value). done.
    - intros He. destruct (sr_known _ _ Hr _ _ He) as [l Hl].
      exists (se_key e, l). split; [by apply Hiter|]. by apply entry_of_value. }
  split; [|done].
  assert (NoDup (se_key <$> es)) as Hnd.
  { assert (se_key <$> es = omap (λ e, se_key <$> entry_of h e.1) (iter (tree_map s))) as ->.
    { apply fmap_omap_entries. }
    assert (NoDup (iter (tree_map s)).*1) as Hf by (rewrite Hperm; apply NoDup_fst_map_to_list).
    clear -Hf. induction (iter (tree_map s)) as [|[k l] es' IH]; simpl; [constructor|].
    simpl in Hf. apply NoDup_cons in Hf as [Hk Hf].
    destruct (entry_of h k) as [e|] eqn:He; simpl; [|by apply IH].
    apply NoDup_cons. split; [|by apply IH].
    intros ([k' l'] & Hin & (e' & He' & Heq)%fmap_Some)%list_elem_of_omap.
    apply entry_of_value in He as [<- _]. apply entry_of_value in He' as [Hk' _].
    apply Hk. rewrite Heq, Hk'. by apply (list_elem_of_fmap_2 fst _ (k', l')). }
  split; [done|]. split.
  - apply NoDup_fmap_2_strong; [|by eapply NoDup_fmap_1].
    intros e e' He He' Hm. apply Hes in He, He'.
    apply latest_of_lookup in He as [_ He]; [|apply (sr_hist _ _ Hr)].
    apply latest_of_lookup in He' as [_ He']; [|apply (sr_hist _ _ Hr)].
    simpl in He, He'. rewrite Hm, He' in He. injection He as Hk Hv Hc Hver.
    destruct e, e'; simpl in *. congruence.
  - apply Forall_forall. intros e He%Hes.
    apply latest_of_lookup in He as [Hb _]; [|apply (sr_hist _ _ Hr)].
    destruct (repr_latest s h Hr). simpl in Hb. lia.
Qed.

(** A snapshot holds the live keys of the history it was taken of. *)
Definition snapshot_of (h : history) (es : list SnapshotEntry) : Prop :=
  snapshot_ok es ∧ ∀ e, e ∈ es ↔ latest_of h (se_key e) = Some (entry_value e).

Lemma imported_live h es k :
  snapshot_of h es → live_part (latest_of (imported_history es) k) = live_part (latest_of h k).
Proof.
  intros [Hok Hes]. destruct (latest_of (imported_history es) k) as [v|] eqn:E3.
  - apply imported_latest in E3 as (e & He & <- & ->); [|done]. by apply Hes in He as ->.
  - destruct (latest_of h k) as [v|] eqn:E; [|done]. simpl.
    destruct (is_live v) eqn:Ev; [|done]. exfalso.
    apply is_live_spec in Ev as [b Hb].
    assert (entry_of h k = Some (mkSnapshotEntry k b (create_revision v) (mod_revision v) (version v)))
      as He by (unfold entry_of; by rewrite E; simpl; rewrite Hb).
    apply entry_of_value in He as [Hk He]. rewrite <- Hk in He.
    apply Hes in He. assert (latest_of (imported_history es) k = Some (entry_value
      (mkSnapshotEntry k b (create_revision v) (mod_revision v) (version v)))) as Hc
      by (apply imported_latest; [done|]; by eexists). congruence.
Qed.

Lemma max_mod_revision_bound h es :
  hist_ok h → snapshot_of h es → 0 ≤ max_mod_revision es ≤ Z.of_nat (length h).
Proof.
  intros Hh [Hok Hes]. split.
  - destruct es as [|e es']; [done|].
    assert (se_mod_revision e ≤ max_mod_revision (e :: es')) by (apply max_mod_revision_ge; by left).
    destruct Hok as (_ & _ & Hp). inversion Hp; lia.
  - apply max_mod_revision_le; [lia|]. apply Forall_forall. intros e He%Hes.
    apply latest_of_lookup in He as [Hb _]; [|done]. simpl in Hb. lia.
Qed.

(** What an import of an export preserves: every live key with its value and
    metadata; the revision becomes that of the newest live key. *)
Lemma snapshot_roundtrip_spec iter s h s2 :
  store_repr s h → iter (tree_map s) ≡ₚ map_to_list (tree_map s) →
  ∃ es s3, export_snapshot_data iter s = Ret es ∧ import_snapshot_data s2 es = Ret s3 ∧
    store_repr s3 (imported_history es) ∧ first_index s3 = 0 ∧
    (∀ k, live_at (imported_history es) k (current_revision s3) = live_at h k (current_revision s)) ∧
    current_revision s3 = max_mod_revision es ∧ current_revision s3 ≤ current_revision s.
Proof.
  intros Hr Hperm. destruct (export_spec iter s h Hr Hperm) as (es & Hex & Hok & Hes).
  destruct (import_repr s2 es Hok) as (s3 & Him & Hr3 & H0).
  exists es, s3. do 4 (split; [done|]).
  rewrite (repr_current _ _ Hr3), (repr_current _ _ Hr). split.
  { intros k. unfold live_at. rewrite !value_at_full by done. by apply imported_live. }
  unfold imported_history. rewrite length_fill, length_replicate.
  pose proof (max_mod_revision_bound h es (sr_hist _ _ Hr) (conj Hok Hes)). lia.
Qed.
End export.
