(* ===== verification/WatchSpec.v ===== *)
(** * Watching: registration, past changes and notification

    What [watch] hands to a new watcher, and which watchers a change is announced
    to. [watchers_wf] is the invariant of the table of watchers; the lemmas show
    that every operation of the store keeps it and that the notification of a change
    names exactly the watchers whose range holds the key. *)
From S2P Require Import Prelude Bytes BTreeMap BlockDeque Types Prefix History Store StoreSpec.

(** ** The table of watchers *)

(** A watcher sits under its start key and its id; ids were handed out by the
    counter and name the channel that was created with them. *)
Record watchers_wf (s : Store) : Prop := {
  ww_sorted : bt_wf (watchers s);
  ww_counter : watch_counter s = Z.of_nat (length (channels s));
  ww_entry : ∀ k id w, ((k, id), w) ∈ watchers s →
    key_range_start w = k ∧ Z.of_nat (ch w) + 1 = id ∧ (ch w < length (channels s))%nat;
  ww_unique : ∀ k k' id w w', ((k, id), w) ∈ watchers s → ((k', id), w') ∈ watchers s → k = k';
}.

(** The range of a watcher as [notify_watchers] tests it. *)
Definition watches_key (w : Watcher) (k : ByteArray) : Prop :=
  if bool_decide (key_range_end w = []) then k = key_range_start w
  else ole (key_range_start w) k ∧ olt k (key_range_end w).

Lemma watches_key_range w k :
  key_range_end w ≠ [nul] →
  watches_key w k ↔ key_in_range (key_range_start w) (key_range_end w) k.
Proof.
  intros Hn. unfold watches_key, key_in_range.
  rewrite (bool_decide_false (key_range_end w = [nul])) by done. done.
Qed.

Lemma watcher_wants_spec k rev w :
  watcher_wants k rev w = true ↔ start_revision w ≤ rev ∧ watches_key w k.
Proof.
  unfold watcher_wants, watches_key. rewrite andb_true_iff, Z.leb_le.
  case_bool_decide; [by rewrite bool_decide_eq_true|].
  rewrite andb_true_iff, oltb_lt, oleb_le. naive_solver.
Qed.

(** The scan of the table stops at [(key, i64::MAX)], which no watcher that wants the
    key is behind. *)
Lemma watcher_in_scan s k id w key :
  watchers_wf s → Z.of_nat (length (channels s)) < i64_max →
  ((k, id), w) ∈ watchers s → watches_key w key →
  in_bounds (Unbounded, Excluded (key, i64_max)) (k, id) = true.
Proof.
  intros [_ _ He _] Hlt Hin Hw. destruct (He _ _ _ Hin) as (Hk & Hid & Hc).
  unfold in_bounds. simpl. rewrite oltb_lt. unfold olt, cmp, pair_ord. simpl.
  assert (id < i64_max) as Hid' by lia.
  assert (ole k key) as Hle.
  { rewrite <- Hk. unfold watches_key in Hw. case_bool_decide; [subst; apply ole_refl|by destruct Hw]. }
  destruct (cmp k key) eqn:E; [|done|by destruct (Hle E)].
  by apply Z.compare_lt_iff.
Qed.

(** The channels a change is sent to. *)
Lemma watchers_to_notify_spec s key rev :
  watchers_wf s → Z.of_nat (length (channels s)) < i64_max →
  ∃ chans, watchers_to_notify s key rev = Ret chans ∧
    ∀ c, c ∈ chans ↔ ∃ k id w, ((k, id), w) ∈ watchers s ∧ ch w = c ∧
      start_revision w ≤ rev ∧ watches_key w key.
Proof.
  intros Hwf Hlt. unfold watchers_to_notify.
  destruct (bt_range_ret (watchers s) (Unbounded, Excluded (key, i64_max))) as [ws Hws]; [done|].
  rewrite Hws, bind_ret. eexists. split; [done|]. intros c. rewrite list_elem_of_fmap. split.
  - intros (w & -> & (Hw & Hin)%list_elem_of_filter). apply watcher_wants_spec in Hw as [??].
    apply list_elem_of_fmap in Hin as ([[k id] w'] & -> & Hin).
    apply (bt_range_elem _ _ _ _ _ Hws) in Hin as [Hin _]. by exists k, id, w'.
  - intros (k & id & w & Hin & <- & Hr & Hk). exists w. split; [done|].
    apply list_elem_of_filter. split; [by apply watcher_wants_spec|].
    apply (list_elem_of_fmap_2 snd _ ((k, id), w)).
    apply (bt_range_elem _ _ _ _ _ Hws). split; [done|]. by eapply watcher_in_scan.
Qed.

(** A watcher is named at most once. *)
Lemma watchers_to_notify_once s key rev chans :
  watchers_wf s → watchers_to_notify s key rev = Ret chans → NoDup chans.
Proof.
  intros [Hs _ He Hu] Hn. unfold watchers_to_notify in Hn.
  apply bind_ret_inv in Hn as (ws & Hws & [= <-]).
  pose proof (bt_range_wf _ _ _ Hs Hws) as Hwf.
  assert (∀ e, e ∈ ws → e ∈ watchers s) as Hsub.
  { intros [k w] Hin. by apply (bt_range_elem _ _ _ _ _ Hws) in Hin as [Hin _]. }
  clear Hws. induction ws as [|[[k id] w] ws IH]; simpl; [constructor|].
  rewrite bt_wf_cons in Hwf. destruct Hwf as [Hwf Hall]. rewrite filter_cons.
  assert (NoDup (ch <$> filter (λ w0, watcher_wants key rev w0 = true) ws.*2)) as IH'.
  { apply IH; [done|]. intros e Hin. apply Hsub. by right. }
  case_decide as Hd; [|done]. simpl. apply NoDup_cons. split; [|done].
  intros (w' & Heq & (Hd' & Hin)%list_elem_of_filter)%list_elem_of_fmap.
  apply list_elem_of_fmap in Hin as ([[k' id'] w''] & -> & Hin). simpl in *.
  assert (((k, id), w) ∈ watchers s) as H1 by (apply Hsub; by left).
  assert (((k', id'), w'') ∈ watchers s) as H2 by (apply Hsub; by right).
  assert (id' = id) as ->.
  { destruct (He _ _ _ H1) as (_ & <- & _), (He _ _ _ H2) as (_ & <- & _). by rewrite Heq. }
  pose proof (Hu _ _ _ _ _ H1 H2) as ->.
  rewrite Forall_fmap, Forall_forall in Hall. apply (olt_irrefl (k', id)).
  by apply (Hall ((k', id), w'')).
Qed.

(** ** The invariant is kept *)

Lemma watchers_wf_ext s s' :
  watchers s' = watchers s → watch_counter s' = watch_counter s → channels s' = channels s →
  watchers_wf s → watchers_wf s'.
Proof. intros Hw Hc Hch [H1 H2 H3 H4]. split; rewrite ?Hw, ?Hc, ?Hch; done. Qed.

(** A channel belongs to one watcher of the table. *)
Lemma channel_unique s k id w k' id' w' :
  watchers_wf s → ((k, id), w) ∈ watchers s → ((k', id'), w') ∈ watchers s → ch w = ch w' → w = w'.
Proof.
  intros Hwf H1 H2 Hch. destruct (ww_entry _ Hwf _ _ _ H1) as (_ & Hid & _).
  destruct (ww_entry _ Hwf _ _ _ H2) as (_ & Hid' & _).
  assert (id' = id) as -> by (rewrite <- Hid, <- Hid', Hch; done).
  pose proof (ww_unique _ Hwf _ _ _ _ _ H1 H2) as ->.
  apply bt_get_Some_elem in H1; [|apply Hwf]. apply bt_get_Some_elem in H2; [|apply Hwf]. congruence.
Qed.

Lemma watchers_wf_new mode : watchers_wf (new_store mode).
Proof. split; simpl; [apply bt_wf_nil|done|by intros ??? ?%elem_of_nil|by intros ????? ?%elem_of_nil]. Qed.

Lemma bt_insert_elem {K V} `{!Ord K, !OrdLaws K} (m : BTreeMap K V) k v k' v' :
  bt_wf m → (k', v') ∈ bt_insert m k v ↔ (k' = k ∧ v' = v) ∨ (k' ≠ k ∧ (k', v') ∈ m).
Proof.
  intros Hm. rewrite <- bt_get_Some_elem by (by apply bt_insert_wf).
  destruct (olt_total k' k) as [Hlt|[->|Hlt]].
  2: { rewrite bt_get_insert_eq by done. naive_solver. }
  all: rewrite bt_get_insert_ne by (done || (intros ->; by apply olt_irrefl in Hlt));
    rewrite bt_get_Some_elem by done;
    assert (k' ≠ k) by (intros ->; by apply olt_irrefl in Hlt); naive_solver.
Qed.

(** Taking an id and a channel. *)
Lemma watchers_wf_count s ch :
  watchers_wf s → Z.of_nat (length (channels s)) < i64_max →
  i64_add (watch_counter s) 1 = Z.of_nat (length (channels s)) + 1 ∧
  watchers_wf (with_watchers s (watchers s) (i64_add (watch_counter s) 1) (channels s ++ [ch])).
Proof.
  intros [Hs Hc He Hu] Hlt. rewrite Hc, i64_add_id by width. split; [done|].
  split; simpl; rewrite ?length_app; simpl; [done|lia| |done].
  intros k id w Hin. destruct (He _ _ _ Hin) as (? & ? & ?). split; [done|]. lia.
Qed.

(** Entering a watcher under an id that is taken and not in use. *)
Lemma watchers_wf_insert s id w :
  watchers_wf s → Z.of_nat (ch w) + 1 = id → (ch w < length (channels s))%nat →
  (∀ k w', ((k, id), w') ∉ watchers s) →
  watchers_wf (with_watchers s (bt_insert (watchers s) (key_range_start w, id) w) (watch_counter s) (channels s)).
Proof.
  intros [Hs Hc He Hu] Hid Hlt Hfresh. split; simpl.
  - by apply bt_insert_wf.
  - done.
  - intros k i w'. rewrite bt_insert_elem by done. intros [[[= -> ->] ->]|[_ Hin]]; [done|by apply He].
  - intros k k' i w1 w2. rewrite !bt_insert_elem by done.
    intros [[? ->]|[_ Hin]] [[? ->]|[_ Hin']]; simplify_eq; try done.
    + by apply Hfresh in Hin'.
    + by apply Hfresh in Hin.
    + by eapply Hu.
Qed.

Lemma watchers_wf_register s start end_ rev :
  watchers_wf s → Z.of_nat (length (channels s)) < i64_max →
  let id := i64_add (watch_counter s) 1 in
  let w := {| start_revision := rev; key_range_start := start; key_range_end := end_;
              ch := length (channels s) |} in
  watchers_wf (with_watchers s (bt_insert (watchers s) (start, id) w) id
                 (channels s ++ [{| queue := []; rx_open := true |}])).
Proof.
  intros Hwf Hlt id w.
  destruct (watchers_wf_count s {| queue := []; rx_open := true |} Hwf Hlt) as [Hid Hwf'].
  apply (watchers_wf_insert _ id w) in Hwf'; [exact Hwf'|done|simpl; rewrite length_app; simpl; lia|].
  simpl. intros k w' Hin. destruct (ww_entry _ Hwf _ _ _ Hin) as (_ & Heq & Hl). unfold id in Heq. lia.
Qed.

Lemma watchers_wf_unwatch s start id : watchers_wf s → watchers_wf (unwatch s start id).
Proof.
  intros [Hs Hc He Hu]. unfold unwatch.
  assert (∀ e, e ∈ bt_remove (watchers s) (start, id) → e ∈ watchers s) as Hsub.
  { intros [k w]. rewrite <- !bt_get_Some_elem by (by try apply bt_remove_wf).
    rewrite bt_get_remove by done. by destruct (cmp k (start, id)). }
  split; simpl; [by apply bt_remove_wf|done| |].
  - intros k i w ?%Hsub. by apply He.
  - intros k k' i w w' ?%Hsub ?%Hsub. by eapply Hu.
Qed.

Section operations.
Context `{!BlockSize}.
Implicit Types (s : Store) (h : history).

(** The fields the watchers live in. *)
Definition same_watchers s s' : Prop :=
  watchers s' = watchers s ∧ watch_counter s' = watch_counter s ∧ channels s' = channels s.

Lemma watchers_wf_same s s' : same_watchers s s' → watchers_wf s → watchers_wf s'.
Proof. intros (? & ? & ?). by apply watchers_wf_ext. Qed.

Lemma insert_item_same s key it : same_watchers s (insert_item s key it).
Proof. unfold insert_item. by destruct (prefix_split key). Qed.

Lemma set_entry_same s key : same_watchers s (set_entry s key).1.1.
Proof. unfold set_entry. destruct (tree_map s !! key); simpl; [done|apply insert_item_same]. Qed.

Lemma set_locked_same s l is_new new required latest s' r :
  set_locked s l is_new new required latest = Ret (s', r) → same_watchers s s'.
Proof.
  unfold set_locked. intros (it & _ & Heq)%bind_ret_inv.
  destruct (set_guard it new required latest); [by injection Heq as <- _|].
  apply bind_ret_inv in Heq as ([i d] & _ & Heq). apply bind_ret_inv in Heq as (st & _ & Heq).
  by injection Heq as <- _.
Qed.

Lemma notify_watchers_same s key v prev prefix s' :
  notify_watchers s key v prev prefix = Ret s' → same_watchers s s'.
Proof. unfold notify_watchers. by intros (chans & _ & [= <-])%bind_ret_inv. Qed.

Lemma set_same s key new required s' r :
  set s key new required = Ret (s', r) → same_watchers s s'.
Proof.
  unfold set. pose proof (set_entry_same s key) as H1.
  destruct (set_entry s key) as [[s1 l] n]. simpl in H1.
  intros ([s2 r2] & H2%set_locked_same & Heq)%bind_ret_inv.
  assert (same_watchers s s2) as H12
    by (destruct H1 as (? & ? & ?), H2 as (? & ? & ?); split_and!; congruence).
  destruct r2 as [[[[rev k] v] old]|e]; [|by injection Heq as <- _].
  apply bind_ret_inv in Heq as (s3 & H3%notify_watchers_same & [= <- _]).
  destruct H12 as (? & ? & ?), H3 as (? & ? & ?). split_and!; congruence.
Qed.

Lemma replay_item_same s l it new s' : replay_item s l it new = Ret s' → same_watchers s s'.
Proof.
  unfold replay_item. intros (pushed & _ & (stored & _ & [= <-])%bind_ret_inv)%bind_ret_inv. done.
Qed.

Lemma set_for_replay_same s key new s' : set_for_replay s key new = Ret s' → same_watchers s s'.
Proof.
  unfold set_for_replay. destruct (tree_map s !! key) as [l|].
  - intros (it & _ & Heq)%bind_ret_inv. destruct (value (latest_value it)).
    { by eapply replay_item_same. }
    destruct new; [by eapply replay_item_same|by injection Heq as <-].
  - destruct new as [b|]; [|by intros [= <-]].
    intros (pushed & _ & (stored & _ & [= <-])%bind_ret_inv)%bind_ret_inv.
    apply (insert_item_same (with_values s stored.2)).
Qed.

Lemma compact_same s rev s' r : compact s rev = Ret (s', r) → same_watchers s s'.
Proof.
  unfold compact. destruct (_ || _); [by intros [= <- _]|].
  intros ([x d] & _ & Heq)%bind_ret_inv. destruct x; by injection Heq as <- _.
Qed.

(** ** Registration *)

(** The past of a range: the changes of its keys from [start_rev] on, key by key. *)
Definition past_of h (c : Z) (want : bool) (start_rev : Z) (p : ByteArray)
    (r : Bound ByteArray * Bound ByteArray) (changes : list KeyValueWithPrev) : Prop :=
  ∃ ks : list ByteArray, StronglySorted olt ks ∧
    changes = ks ≫= key_changes h c want start_rev ∧
    (∀ k, k ∈ ks → ∃ x, k = p ++ x ∧ in_bounds r x = true) ∧
    (∀ x, prefix_split (p ++ x) = (p, x) → in_bounds r x = true → events h (p ++ x) ≠ [] →
       p ++ x ∈ ks).

(** The bounds a request leads to do not make the tree panic. *)
Definition bounds_ok (start end_ : ByteArray) : Prop :=
  match prefix_and_range_of_key start end_ with
  | Ok (_, r) => bad_bounds r = false
  | Err _ => True
  end.

Definition register s (start end_ : ByteArray) (start_rev : Z) : Store :=
  let id := i64_add (watch_counter s) 1 in
  with_watchers s
    (bt_insert (watchers s) (start, id)
       {| start_revision := start_rev; key_range_start := start; key_range_end := end_;
          ch := length (channels s) |}) id
    (channels s ++ [{| queue := []; rx_open := true |}]).

Lemma bind_keys_changes h c want start_rev p (es : list (ByteArray * loc)) :
  (es ≫= λ e, key_changes h c want start_rev (p ++ e.1)) =
  ((λ e, p ++ e.1) <$> es) ≫= key_changes h c want start_rev.
Proof. induction es as [|e es IH]; csimpl; [done|]. by rewrite IH. Qed.

Lemma register_repr s h start end_ rev : store_repr s h → store_repr (register s start end_ rev) h.
Proof. by apply store_repr_ext. Qed.

Lemma prefix_keys_sorted (p : ByteArray) (es : BTreeMap ByteArray loc) :
  bt_wf es → StronglySorted olt ((λ e, p ++ e.1) <$> es).
Proof.
  induction es as [|[x l] es IH]; [constructor|]. rewrite bt_wf_cons. intros [Hwf Hall].
  simpl. constructor; [by apply IH|]. apply Forall_fmap, Forall_forall. intros [y l'] Hin. simpl.
  unfold olt. rewrite prefix_order. rewrite Forall_fmap, Forall_forall in Hall. by apply (Hall _ Hin).
Qed.

Lemma past_changes_of_range s h p i r want start_rev :
  store_repr s h → first_index s < start_rev → prefix_map s !! p = Some i → bad_bounds r = false →
  ∃ es changes, bt_range (btree i) r = Ret es ∧ past_changes s want start_rev es [] = Ret changes ∧
    past_of h (first_index s) want start_rev p r changes.
Proof.
  intros Hr Hc Hi Hb. destruct (bt_range_ret (btree i) r Hb) as [es Hes].
  pose proof (iw_sorted _ _ (sr_index _ _ Hr) _ _ Hi) as Hwf.
  eexists es, _. split; [done|].
  rewrite (past_changes_spec s h p) by (done || by eapply prefix_entries_ok).
  split; [done|]. rewrite app_nil_l, bind_keys_changes.
  eexists. split; [by apply prefix_keys_sorted, (bt_range_wf _ _ _ Hwf Hes)|].
  split; [done|]. split.
  - intros k ([x l] & -> & Hin)%list_elem_of_fmap. exists x. split; [done|].
    by apply (bt_range_elem _ _ _ _ _ Hes) in Hin as [_ ?].
  - intros x Hsp Hin Hne.
    assert (is_Some (tree_map s !! (p ++ x))) as [l Hl].
    { destruct (latest_of h (p ++ x)) as [v|] eqn:E; [by eapply (sr_known _ _ Hr)|].
      by apply last_None in E. }
    apply (list_elem_of_fmap_2 (λ e, p ++ e.1) es (x, l)).
    apply (bt_range_elem _ _ _ _ _ Hes). split; [|done].
    apply bt_get_Some_elem; [done|].
    assert (prefix_lookup (prefix_map s) p x = Some l) as Hpl
      by (by apply (iw_agree _ _ (sr_index _ _ Hr))).
    unfold prefix_lookup in Hpl. by rewrite Hi in Hpl.
Qed.

Lemma watch_compacted_spec s h start end_ rev want :
  store_repr s h → 0 < rev ≤ first_index s →
  watch s start end_ rev want = Ret (s, Err (first_index s)).
Proof.
  intros Hr Hrev. unfold watch. rewrite (repr_earliest s h Hr).
  by rewrite (proj2 (Z.ltb_lt 0 rev)), (proj2 (Z.leb_le rev _)) by lia.
Qed.

Lemma watch_future_spec s h start end_ rev want :
  store_repr s h → rev ≤ 0 →
  watch s start end_ rev want =
    Ret (register s start end_ (Z.of_nat (length h)),
         Ok ([], i64_add (watch_counter s) 1, length (channels s))).
Proof.
  intros Hr Hrev. unfold watch. rewrite (proj2 (Z.ltb_ge 0 rev)) by lia. simpl.
  by rewrite (repr_current s h Hr), (proj2 (Z.leb_le rev 0)) by lia.
Qed.

Lemma watch_past_spec s h start end_ rev want p r :
  store_repr s h → 0 < rev → first_index s < rev →
  prefix_and_range_of_key start end_ = Ok (p, r) → bad_bounds r = false →
  ∃ changes,
    watch s start end_ rev want =
      Ret (register s start end_ rev,
           Ok (changes, i64_add (watch_counter s) 1, length (channels s))) ∧
    past_of h (first_index s) want rev p r changes.
Proof.
  intros Hr H0 Hc Hp Hb. unfold watch. rewrite (repr_earliest s h Hr), Hp.
  rewrite (proj2 (Z.ltb_lt 0 rev)), (proj2 (Z.leb_gt rev _)) by lia.
  rewrite (proj2 (Z.leb_gt rev 0)) by lia. simpl.
  change (with_watchers s _ _ _) with (register s start end_ rev).
  pose proof (register_repr s h start end_ rev Hr) as Hr'.
  destruct (prefix_map s !! p) as [i|] eqn:Hi.
  - destruct (past_changes_of_range (register s start end_ rev) h p i r want rev)
      as (es & changes & Hes & Hch & Hpast); [done..|].
    rewrite Hes, bind_ret, Hch, bind_ret. by exists changes.
  - exists []. split; [done|]. exists []. split; [constructor|]. split; [done|].
    split; [by intros ? ?%elem_of_nil|]. intros x Hsp Hin Hne. exfalso.
    destruct (latest_of h (p ++ x)) as [v|] eqn:E; [|by apply last_None in E].
    destruct (sr_known _ _ Hr _ _ E) as [l Hl].
    assert (prefix_lookup (prefix_map s) p x = Some l) as Hpl
      by (by apply (iw_agree _ _ (sr_index _ _ Hr))).
    unfold prefix_lookup in Hpl. by rewrite Hi in Hpl.
Qed.

Lemma watch_error_spec s h start end_ rev want e :
  store_repr s h → 0 < rev → first_index s < rev →
  prefix_and_range_of_key start end_ = Err e →
  watch s start end_ rev want = Ret (register s start end_ rev, Err (first_index s)).
Proof.
  intros Hr H0 Hc Hp. unfold watch. rewrite (repr_earliest s h Hr), Hp.
  rewrite (proj2 (Z.ltb_lt 0 rev)), (proj2 (Z.leb_gt rev _)) by lia. simpl.
  by rewrite (proj2 (Z.leb_gt rev 0)) by lia.
Qed.

(** The changes of a past, as key-values: every change of a key of the range from
    [start_rev] on, and nothing else. *)
Lemma past_of_elem h c want start_rev p r changes x :
  c < start_rev → owns_extensions p → past_of h c want start_rev p r changes →
  x ∈ kv <$> changes ↔ ∃ k v, (∃ y, k = p ++ y ∧ in_bounds r y = true) ∧
    v ∈ events h k ∧ start_rev ≤ mod_revision v ∧ x = as_mvcc_key_value v k.
Proof.
  intros Hc Hp (ks & _ & -> & Hin & Hall).
  assert (∀ k, x ∈ kv <$> key_changes h c want start_rev k ↔
    ∃ v, v ∈ events h k ∧ start_rev ≤ mod_revision v ∧ x = as_mvcc_key_value v k) as Hk.
  { intros k. unfold key_changes. rewrite changes_from_kvs, list_elem_of_fmap by done.
    setoid_rewrite list_elem_of_filter. naive_solver. }
  rewrite list_elem_of_fmap. setoid_rewrite list_elem_of_bind. split.
  - intros (ch & -> & k & Hch & Hks).
    destruct (proj1 (Hk k)) as (v & ? & ? & ?); [by apply list_elem_of_fmap_2|].
    exists k, v. split_and!; [by apply Hin|done..].
  - intros (k & v & (y & -> & Hy) & Hv & Hle & ->).
    assert (as_mvcc_key_value v (p ++ y) ∈ kv <$> key_changes h c want start_rev (p ++ y))
      as Hx by (apply Hk; eauto).
    apply list_elem_of_fmap in Hx as (ch & Heq & Hch). exists ch. split; [done|].
    exists (p ++ y). split; [done|]. apply Hall; [apply Hp|done|]. intros E. rewrite E in Hv.
    by apply elem_of_nil in Hv.
Qed.
End operations.
