(* ===== verification/StoreTrace.v ===== *)
(** * The store refines a multi-version history

    The operations of the store as one step function, the abstract store they
    implement (a history, the compacted revision and the announcements to watchers)
    and the simulation between the two, for sequences of operations of any length
    that start from the empty store. *)
From S2P Require Import Prelude Bytes BTreeMap BlockDeque Types Prefix History Store StoreSpec WatchSpec.

Module StoreTrace.

Inductive op :=
| OPut (key value : ByteArray) (required : option SetRequired)
| ODelete (key : ByteArray) (required : option SetRequired)
| OReplay (key : ByteArray) (new : option ByteArray)
| ORange (start end_ : ByteArray) (rev : Z) (limit : option Z)
| OWatch (start end_ : ByteArray) (rev : Z) (want_prev_kv : bool)
| OUnwatch (start : ByteArray) (id : Z)
| OCompact (rev : Z).

Inductive reply :=
| RWrite (r : Result Z SetError)
| RUnit
| RRange (r : Result RangeResult Status)
| RWatch (r : Result (list KeyValueWithPrev * Z * nat) Z)
| RCompact (r : Result unit Status).

Definition step `{!BlockSize} (s : Store) (o : op) : outcome (Store * reply) :=
  match o with
  | OPut k v req => r ← set s k (Some v) req; Ret (r.1, RWrite r.2)
  | ODelete k req => r ← delete_key s k req; Ret (r.1, RWrite r.2)
  | OReplay k new => s' ← set_for_replay s k new; Ret (s', RUnit)
  | ORange a b rev limit => r ← range s a b rev limit; Ret (s, RRange r)
  | OWatch a b rev want => r ← watch s a b rev want; Ret (r.1, RWatch r.2)
  | OUnwatch a id => Ret (unwatch s a id, RUnit)
  | OCompact rev => r ← compact s rev; Ret (r.1, RCompact r.2)
  end.

Fixpoint run `{!BlockSize} (s : Store) (ops : list op) : outcome (Store * list reply) :=
  match ops with
  | [] => Ret (s, [])
  | o :: ops' => r ← step s o; rs ← run r.1 ops'; Ret (rs.1, r.2 :: rs.2)
  end.

(** ** The abstract store *)

(** [announced] holds the changes the notification thread was given, in order. *)
Record AStore := mkAStore {
  hist : history;
  floor : Z;
  announced : list (Z * KeyValue);
}.

Definition empty : AStore := mkAStore [] 0 [].

Definition awrite (a : AStore) (k : ByteArray) (new : option ByteArray)
    (required : option SetRequired) : AStore :=
  match (hist_set (hist a) k new required).2 with
  | Ok rev => mkAStore (hist_set (hist a) k new required).1 (floor a)
      (announced a ++
        [(rev, as_mvcc_key_value (revised (latest_or_null (hist a) k) rev new) k)])
  | Err _ => a
  end.

Definition anext (a : AStore) (o : op) : AStore :=
  match o with
  | OPut k v req => awrite a k (Some v) req
  | ODelete k req => awrite a k None req
  | OReplay k new => mkAStore (hist_replay (hist a) k new) (floor a) (announced a)
  | ORange _ _ _ _ | OWatch _ _ _ _ | OUnwatch _ _ => a
  | OCompact rev =>
      if (floor a <? rev) && (rev <=? Z.of_nat (length (hist a)))
      then mkAStore (hist a) (rev - 1) (announced a) else a
  end.

(** The answer of a range read: the live keys of the range that are found at the
    revision, in key order, cut at the limit, with the number of all of them. *)
Definition range_answer (a : AStore) (p : ByteArray) (r : Bound ByteArray * Bound ByteArray)
    (rev : Z) (limit : option Z) (res : RangeResult) : Prop :=
  ∃ full,
    res = {| kvs := take (Z.to_nat (default usize_max limit)) full;
             latest_rev := Z.of_nat (length (hist a)); count := Z.of_nat (length full) |} ∧
    StronglySorted olt (kv_key <$> full) ∧
    (∀ kv, kv ∈ full ↔ ∃ x v, prefix_split (p ++ x) = (p, x) ∧ in_bounds r x = true ∧
       found (hist a) (floor a) (p ++ x) (read_revision (hist a) rev) = Some v ∧
       kv = as_mvcc_key_value v (p ++ x)).

Definition areply (a : AStore) (o : op) (r : reply) : Prop :=
  match o with
  | OPut k v req => r = RWrite (hist_set (hist a) k (Some v) req).2
  | ODelete k req => r = RWrite (hist_set (hist a) k None req).2
  | OReplay _ _ | OUnwatch _ _ => r = RUnit
  | ORange start end_ rev limit =>
      if Z.of_nat (length (hist a)) <? rev then r = RRange (Err future_revision)
      else if (0 <? rev) && (rev <=? floor a) then r = RRange (Err compacted)
      else match prefix_and_range_of_key start end_ with
           | Err e => r = RRange (Err e)
           | Ok (p, b) => ∃ res, r = RRange (Ok res) ∧ range_answer a p b rev limit res
           end
  | OWatch start end_ rev want =>
      if rev <=? 0 then ∃ id c, r = RWatch (Ok ([], id, c))
      else if rev <=? floor a then r = RWatch (Err (floor a))
      else match prefix_and_range_of_key start end_ with
           | Err _ => r = RWatch (Err (floor a))
           | Ok (p, b) => ∃ changes id c, r = RWatch (Ok (changes, id, c)) ∧
               past_of (hist a) (floor a) want rev p b changes
           end
  | OCompact rev =>
      if (floor a <? rev) && (rev <=? Z.of_nat (length (hist a))) then r = RCompact (Ok ())
      else ∃ e, r = RCompact (Err e)
  end.

(** The requests the code answers without a panic. *)
Definition legal (a : AStore) (o : op) : Prop :=
  match o with
  | ORange start end_ rev limit =>
      bounds_ok start end_ ∧ 0 ≤ default usize_max limit ∧ (0 < rev ∨ rev = 0 ∧ hist a ≠ [])
  | OWatch start end_ rev _ => bounds_ok start end_
  | _ => True
  end.

Fixpoint legal_run (a : AStore) (ops : list op) : Prop :=
  match ops with
  | [] => True
  | o :: ops' => legal a o ∧ legal_run (anext a o) ops'
  end.

Fixpoint final (a : AStore) (ops : list op) : AStore :=
  match ops with
  | [] => a
  | o :: ops' => final (anext a o) ops'
  end.

Fixpoint replies_ok (a : AStore) (ops : list op) (rs : list reply) : Prop :=
  match ops, rs with
  | [], [] => True
  | o :: ops', r :: rs' => areply a o r ∧ replies_ok (anext a o) ops' rs'
  | _, _ => False
  end.

(** ** The simulation *)

Definition announcement (j : NotifyJob) : Z * KeyValue := (job_rev j, kv (job_msg j)).

Record implements `{!BlockSize} (s : Store) (a : AStore) : Prop := {
  im_repr : store_repr s (hist a);
  im_floor : first_index s = floor a;
  im_jobs : announcement <$> notify_tx s = announced a;
  im_watchers : watchers_wf s;
}.

Section simulation.
Context `{!BlockSize}.
Implicit Types (s : Store) (a : AStore).

Lemma new_implements mode : implements (new_store mode) empty.
Proof.
  split; simpl; [|done|done|apply watchers_wf_new].
  split; simpl; [apply hist_ok_nil|done|apply dq_repr_new|apply index_wf_empty|done|done].
Qed.

(** The simulation of one write, which [put] and [delete] share. *)
Lemma write_implements s a key new required :
  implements s a → Z.of_nat (length (hist a)) < i64_max →
  ∃ s', set s key new required = Ret (s', (hist_set (hist a) key new required).2) ∧
    implements s' (awrite a key new required).
Proof.
  intros [Hr Hf Hj Hw] Hlt.
  destruct (set_spec s (hist a) key new required Hr Hlt) as (s' & Hset & Hr' & Hf' & Hjob).
  exists s'. split; [done|]. pose proof (set_same _ _ _ _ _ _ Hset) as Hsame.
  unfold awrite. destruct (hist_set (hist a) key new required) as [h' [rev|e]] eqn:E; simpl in *.
  - destruct Hjob as (job & Hjobs & Hrev & Hkv).
    split; simpl; [done|congruence| |by eapply watchers_wf_same].
    rewrite Hjobs, fmap_app, Hj. simpl. unfold announcement at 1. by rewrite Hrev, Hkv.
  - assert (h' = hist a) as ->.
    { unfold hist_set in E. destruct (guard _ _ _ _); congruence. }
    split; [done|congruence|congruence|by eapply watchers_wf_same].
Qed.

Lemma range_implements s a start end_ rev limit :
  implements s a → legal a (ORange start end_ rev limit) →
  ∃ r, range s start end_ rev limit = Ret r ∧ areply a (ORange start end_ rev limit) (RRange r).
Proof.
  intros [Hr Hf _ _] (Hb & Hlim & Hrev). simpl in *. pose proof (sr_start _ _ Hr) as Hst.
  pose proof (repr_current _ _ Hr) as Hcur. pose proof (repr_earliest _ _ Hr) as Hear.
  destruct (Z.ltb_spec (Z.of_nat (length (hist a))) rev) as [Hfut|Hfut].
  { unfold range. rewrite Hcur, (proj2 (Z.ltb_lt _ _)) by lia. eauto. }
  destruct ((0 <? rev) && (rev <=? floor a)) eqn:Ec.
  { unfold range. rewrite Hcur, (proj2 (Z.ltb_ge _ _)), Hear, Hf, Ec by lia. eauto. }
  unfold bounds_ok in Hb.
  destruct (prefix_and_range_of_key start end_) as [[p b]|e] eqn:Ep.
  - assert (readable s (hist a) rev) as Hread.
    { unfold readable. rewrite Hf. apply andb_false_iff in Ec.
      destruct Hrev as [Hrev|?]; [right|by left]. lia. }
    destruct (range_spec_gen s (hist a) start end_ rev limit p b) as (full & Hres & Hs & Hin);
      [done..|].
    rewrite Hres. eexists. split; [done|]. eexists. split; [done|]. exists full.
    rewrite <- Hf. done.
  - unfold range. rewrite Hcur, (proj2 (Z.ltb_ge _ _)), Hear, Hf, Ec, Ep by lia. eauto.
Qed.

Lemma watch_implements s a start end_ rev want :
  implements s a → Z.of_nat (length (channels s)) < i64_max → bounds_ok start end_ →
  ∃ s' r, watch s start end_ rev want = Ret (s', r) ∧ implements s' a ∧
    areply a (OWatch start end_ rev want) (RWatch r) ∧
    (length (channels s') ≤ S (length (channels s)))%nat.
Proof.
  intros [Hr Hf Hj Hw] Hlt Hb.
  assert (∀ r, implements (register s start end_ r) a) as Hreg.
  { intros r. split; [by apply register_repr|done|done|by apply watchers_wf_register]. }
  assert (∀ r, length (channels (register s start end_ r)) ≤ S (length (channels s)))%nat as Hch.
  { intros r. simpl. rewrite length_app. simpl. lia. }
  simpl. destruct (Z.leb_spec rev 0).
  { rewrite (watch_future_spec s (hist a)) by done. eexists _, _. split; [done|]. eauto. }
  destruct (Z.leb_spec rev (floor a)).
  { rewrite (watch_compacted_spec s (hist a)) by (done || lia). eexists _, _.
    split; [done|]. rewrite Hf. split; [done|]. split; [done|]. lia. }
  unfold bounds_ok in Hb.
  destruct (prefix_and_range_of_key start end_) as [[p b]|e] eqn:Ep.
  - destruct (watch_past_spec s (hist a) start end_ rev want p b) as (changes & Hwt & Hp);
      [done|lia|lia|done|done|].
    rewrite Hwt. eexists _, _. split; [done|]. rewrite <- Hf. split; [done|]. split; [|done]. eauto 10.
  - rewrite (watch_error_spec s (hist a) _ _ _ _ e) by (done || lia).
    eexists _, _. split; [done|]. by rewrite Hf.
Qed.

Lemma compact_implements s a rev :
  implements s a →
  ∃ s' r, compact s rev = Ret (s', r) ∧ implements s' (anext a (OCompact rev)) ∧
    areply a (OCompact rev) (RCompact r).
Proof.
  intros [Hr Hf Hj Hw]. simpl.
  destruct ((floor a <? rev) && (rev <=? Z.of_nat (length (hist a)))) eqn:E.
  - apply andb_true_iff in E as [??].
    destruct (compact_ok_spec s (hist a) rev Hr) as (s' & Hc & Hr' & Hf' & Hj'); [lia|].
    eexists _, _. split; [done|]. split; [|done].
    split; simpl; [done|done|congruence|]. by eapply watchers_wf_same, Hw; eapply compact_same.
  - apply andb_false_iff in E.
    destruct (compact_err_spec s (hist a) rev Hr) as [e He]; [lia|].
    eexists _, _. split; [done|]. split; [done|]. eauto.
Qed.

Lemma step_implements s a o :
  implements s a → legal a o → Z.of_nat (length (hist a)) < i64_max →
  Z.of_nat (length (channels s)) < i64_max →
  ∃ s' r, step s o = Ret (s', r) ∧ implements s' (anext a o) ∧ areply a o r ∧
    (length (channels s') ≤ S (length (channels s)))%nat.
Proof.
  intros Hi Hleg Hlt Hch. destruct o as [k v req|k req|k new|b e rev lim|b e rev want|b id|rev];
    cbn [step].
  - destruct (write_implements s a k (Some v) req Hi Hlt) as (s' & Hs & Hi').
    rewrite Hs, bind_ret. eexists _, _. split_and!; [done..|].
    destruct (set_same _ _ _ _ _ _ Hs) as (_ & _ & Heq). simpl. rewrite Heq. lia.
  - unfold delete_key. destruct (write_implements s a k None req Hi Hlt) as (s' & Hs & Hi').
    rewrite Hs, bind_ret. eexists _, _. split_and!; [done..|].
    destruct (set_same _ _ _ _ _ _ Hs) as (_ & _ & Heq). simpl. rewrite Heq. lia.
  - destruct Hi as [Hr Hf Hj Hw].
    destruct (set_for_replay_spec s (hist a) k new Hr Hlt) as (s' & Hs & Hr' & Hj' & Hf').
    pose proof (set_for_replay_same _ _ _ _ Hs) as Hsame.
    rewrite Hs, bind_ret. eexists _, _. split; [done|]. split; [|split; [done|]].
    + split; simpl; [done|congruence|congruence|by eapply watchers_wf_same].
    + destruct Hsame as (_ & _ & ->). lia.
  - destruct (range_implements s a b e rev lim Hi Hleg) as (r & -> & Hr). rewrite bind_ret.
    eexists _, _. split_and!; [done..|]. lia.
  - destruct (watch_implements s a b e rev want Hi Hch Hleg) as (s' & r & -> & Hi' & Hr & ?).
    rewrite bind_ret. eexists _, _. by split_and!.
  - eexists _, _. split_and!; [done| |done|simpl; lia]. destruct Hi as [Hr Hf Hj Hw].
    split; [by apply (store_repr_ext s)|done|done|by apply watchers_wf_unwatch].
  - destruct (compact_implements s a rev Hi) as (s' & r & Hs & Hi' & Hr).
    rewrite Hs, bind_ret. eexists _, _. split_and!; [done..|].
    destruct (compact_same _ _ _ _ Hs) as (_ & _ & Heq). simpl. rewrite Heq. lia.
Qed.

(** An operation adds at most one change. *)
Lemma anext_length a o : (length (hist (anext a o)) ≤ S (length (hist a)))%nat.
Proof.
  assert (∀ k new req, length (hist (awrite a k new req)) ≤ S (length (hist a)))%nat as Hw.
  { intros k new req. unfold awrite, hist_set, hist_write. destruct (guard _ _ _ _); simpl; [lia|].
    rewrite length_app. simpl. lia. }
  destruct o; simpl; try lia; try apply Hw.
  - unfold hist_replay, hist_write. destruct (value _), new; rewrite ?length_app; simpl; lia.
  - case_match; simpl; lia.
Qed.

Lemma final_length a ops : (length (hist (final a ops)) ≤ length (hist a) + length ops)%nat.
Proof.
  revert a. induction ops as [|o ops IH]; intros a; simpl; [lia|].
  pose proof (IH (anext a o)). pose proof (anext_length a o). lia.
Qed.

Lemma run_implements s a ops :
  implements s a → legal_run a ops →
  Z.of_nat (length (hist a)) + Z.of_nat (length ops) ≤ i64_max →
  Z.of_nat (length (channels s)) + Z.of_nat (length ops) ≤ i64_max →
  ∃ s' rs, run s ops = Ret (s', rs) ∧ implements s' (final a ops) ∧ replies_ok a ops rs.
Proof.
  revert s a. induction ops as [|o ops IH]; intros s a Hi Hleg Hh Hc; simpl in *; [by eauto|].
  destruct Hleg as [Ho Hleg].
  destruct (step_implements s a o) as (s1 & r & -> & Hi1 & Hr & Hch); [done|done|lia|lia|].
  pose proof (anext_length a o). rewrite bind_ret. simpl.
  destruct (IH s1 (anext a o)) as (s' & rs & -> & Hi' & Hrs); [done|done|lia|lia|].
  rewrite bind_ret. simpl. eauto 10.
Qed.

(** An operation opens one channel at most. *)
Lemma run_channels s a ops s' rs :
  implements s a → legal_run a ops →
  Z.of_nat (length (hist a)) + Z.of_nat (length ops) ≤ i64_max →
  Z.of_nat (length (channels s)) + Z.of_nat (length ops) ≤ i64_max →
  run s ops = Ret (s', rs) → (length (channels s') ≤ length (channels s) + length ops)%nat.
Proof.
  revert s a rs. induction ops as [|o ops IH]; intros s a rs Hi Hleg Hh Hc Hrun; simpl in *.
  { injection Hrun as <- _. lia. }
  destruct Hleg as [Ho Hleg].
  destruct (step_implements s a o) as (s1 & r & Hs & Hi1 & _ & Hch); [done|done|lia|lia|].
  rewrite Hs, bind_ret in Hrun. apply bind_ret_inv in Hrun as ([s2 rs2] & Hrun & [= <- _]).
  pose proof (anext_length a o). pose proof (IH s1 (anext a o) rs2 Hi1 Hleg) as Hle. simpl in Hle, Hrun.
  specialize (Hle ltac:(lia) ltac:(lia) Hrun). lia.
Qed.

(** Runs one after the other. *)
Lemma run_app s ops1 ops2 :
  run s (ops1 ++ ops2) = (r ← run s ops1; rs ← run r.1 ops2; Ret (rs.1, r.2 ++ rs.2)).
Proof.
  revert s. induction ops1 as [|o ops1 IH]; intros s; simpl.
  { destruct (run s ops2) as [[]|]; done. }
  destruct (step s o) as [[s1 r]|]; [|done]. rewrite !bind_ret, IH. simpl.
  destruct (run s1 ops1) as [[s2 rs]|]; [|done]. rewrite !bind_ret. simpl. by destruct (run s2 ops2).
Qed.

Lemma legal_run_app a ops1 ops2 : legal_run a (ops1 ++ ops2) ↔ legal_run a ops1 ∧ legal_run (final a ops1) ops2.
Proof. revert a. induction ops1 as [|o ops1 IH]; intros a; simpl; [tauto|]. rewrite IH. tauto. Qed.

Lemma final_app a ops1 ops2 : final a (ops1 ++ ops2) = final (final a ops1) ops2.
Proof. revert a. by induction ops1 as [|o ops1 IH]; simpl. Qed.

(** No operation takes a change back. *)
Lemma anext_grows a o : hist a `prefix_of` hist (anext a o).
Proof.
  assert (∀ k new req, hist a `prefix_of` hist (awrite a k new req)) as Hw.
  { intros k new req. unfold awrite, hist_set, hist_write. destruct (guard _ _ _ _); simpl; [done|by apply prefix_app_r]. }
  destruct o; simpl; try done; try apply Hw.
  - unfold hist_replay, hist_write. destruct (value _), new; (done || by apply prefix_app_r).
  - by case_match.
Qed.

Lemma final_grows a ops : hist a `prefix_of` hist (final a ops).
Proof. revert a. induction ops as [|o ops IH]; intros a; simpl; [done|]. etrans; [apply anext_grows|apply IH]. Qed.

(** What every operation keeps, a run keeps. *)
Lemma run_preserves (P : Store → Prop) :
  (∀ s a o s' r, implements s a → legal a o → Z.of_nat (length (hist a)) < i64_max →
     Z.of_nat (length (channels s)) < i64_max → step s o = Ret (s', r) → P s → P s') →
  ∀ s a ops s' rs, implements s a → legal_run a ops →
    Z.of_nat (length (hist a)) + Z.of_nat (length ops) ≤ i64_max →
    Z.of_nat (length (channels s)) + Z.of_nat (length ops) ≤ i64_max →
    run s ops = Ret (s', rs) → P s → P s'.
Proof.
  intros Hstep s a ops. revert s a. induction ops as [|o ops IH]; intros s a s' rs Hi Hleg Hh Hc Hrun HP; simpl in *.
  { by injection Hrun as <- _. }
  destruct Hleg as [Ho Hleg]. apply bind_ret_inv in Hrun as ([s1 r] & Hs & Hrun).
  apply bind_ret_inv in Hrun as ([s2 rs2] & Hrun & [= <- _]).
  destruct (step_implements s a o) as (s1' & r' & Hs' & Hi1 & _ & Hch); [done|done|lia|lia|].
  rewrite Hs in Hs'. injection Hs' as <- <-. pose proof (anext_length a o).
  eapply (IH s1 (anext a o)); [done|done|lia|lia|done|]. by eapply (Hstep s a o); try lia.
Qed.
End simulation.
End StoreTrace.
