(* ===== verification/StoreProps.v ===== *)
(** * What the store guarantees

    The properties of the store as a client sees them, derived from the simulation of
    StoreTrace.v: reads are exact, conditional writes are atomic compare-and-set
    operations, the metadata of a key counts its writes, compaction does not change
    the present, and a watcher is told of every change of its range. The file closes
    with the behaviours that depart from the documented interface, each shown by a
    run of the store. *)
From S2P Require Import Prelude Bytes BTreeMap BlockDeque Types Prefix History Store StoreSpec WatchSpec Snapshot StoreTrace.
Import StoreTrace.

(** ** Metadata *)

(** The metadata of the latest value of every key: it was created at a revision of
    that key, and its version counts the writes since. *)
Definition lineage_ok (h : history) : Prop :=
  ∀ k v, latest_of h k = Some v →
    1 ≤ create_revision v ≤ mod_revision v ∧
    (∃ w, w ∈ events h k ∧ mod_revision w = create_revision v) ∧
    version v = Z.of_nat (length (filter (λ w, create_revision v ≤ mod_revision w) (events h k))).

Lemma length_filter_bound {A} (P : A → Prop) `{!∀ x, Decision (P x)} (l : list A) :
  (length (filter P l) ≤ length l)%nat.
Proof. induction l as [|x l IH]; [done|]. rewrite filter_cons. case_decide; simpl; lia. Qed.

Lemma events_length h k : (length (events h k) ≤ length h)%nat.
Proof. unfold events. induction h as [|c h IH]; csimpl; [done|]. destruct (change_of k c); simpl; lia. Qed.

Lemma lineage_write h k new :
  hist_ok h → Z.of_nat (length h) < i64_max → lineage_ok h → lineage_ok (hist_write h k new).
Proof.
  intros Hh Hlt Hl k' v' Hv'. unfold hist_write in *.
  set (n := Z.of_nat (length h) + 1) in *.
  destruct (decide (k = k')) as [<-|Hne].
  2: { rewrite latest_of_snoc_ne, events_snoc_ne in * by done. by apply Hl. }
  rewrite latest_of_snoc_eq in Hv'. injection Hv' as <-. rewrite events_snoc_eq, filter_app, length_app.
  assert (∀ w, w ∈ events h k → 1 ≤ mod_revision w < n) as Hold.
  { intros w Hw. apply event_lookup in Hw as [Hw _]; [|done]. unfold n. lia. }
  rewrite filter_cons, filter_nil.
  unfold revised, is_live, latest_or_null. destruct (latest_of h k) as [v|] eqn:Ev; simpl.
  - destruct (Hl _ _ Ev) as (Hc & (w & Hw & Hwc) & Hver).
    apply last_Some_elem_of in Ev. pose proof (Hold v Ev) as Hvn.
    destruct (value v) as [b|]; simpl.
    + pose proof (events_length h k).
      pose proof (length_filter_bound (λ x, create_revision v ≤ mod_revision x) (events h k)).
      rewrite i64_add_id by width. rewrite decide_True by lia. simpl.
      split; [lia|]. split; [|lia]. exists w. split; [set_solver|done].
    + rewrite (filter_none _ (events h k)).
      * rewrite decide_True by lia. simpl. split; [lia|]. split; [|done].
        eexists. split; [apply elem_of_app; right; by left|done].
      * apply Forall_forall. intros x Hx%Hold. lia.
  - apply last_None in Ev. rewrite Ev, filter_nil, decide_True by lia. simpl.
    split; [lia|]. split; [|done]. eexists. split; [by left|done].
Qed.

Lemma lineage_step `{!BlockSize} s a o :
  implements s a → Z.of_nat (length (hist a)) < i64_max → lineage_ok (hist a) →
  lineage_ok (hist (anext a o)).
Proof.
  intros Hi Hlt Hl. pose proof (sr_hist _ _ (im_repr _ _ Hi)) as Hh.
  assert (∀ k new req, lineage_ok (hist (awrite a k new req))) as Hw.
  { intros k new req. unfold awrite, hist_set. destruct (guard _ _ _ _); simpl; [done|].
    by apply lineage_write. }
  destruct o; simpl; try done.
  - unfold hist_replay. destruct (value _), new; try done; by apply lineage_write.
  - by case_match.
Qed.

Lemma lineage_run `{!BlockSize} s a ops :
  implements s a → legal_run a ops → lineage_ok (hist a) →
  Z.of_nat (length (hist a)) + Z.of_nat (length ops) ≤ i64_max →
  Z.of_nat (length (channels s)) + Z.of_nat (length ops) ≤ i64_max →
  lineage_ok (hist (final a ops)).
Proof.
  revert s a. induction ops as [|o ops IH]; intros s a Hi Hleg Hl Hh Hc; simpl in *; [done|].
  destruct Hleg as [Ho Hleg].
  destruct (step_implements s a o) as (s1 & r & _ & Hi1 & _ & Hch); [done|done|lia|lia|].
  pose proof (anext_length a o). apply (IH s1); [done|done| |lia|lia].
  eapply lineage_step; [done|lia|done].
Qed.

(** ** Lists sorted by key *)

Lemma sorted_keys_unique (l1 l2 : list KeyValue) :
  StronglySorted olt (kv_key <$> l1) → StronglySorted olt (kv_key <$> l2) →
  (∀ x, x ∈ l1 ↔ x ∈ l2) → l1 = l2.
Proof.
  revert l2. induction l1 as [|x l1 IH]; intros l2 H1 H2 Hin.
  { destruct l2 as [|y l2]; [done|].
    assert (y ∈ []) as Hy by (apply Hin; by left). by apply elem_of_nil in Hy. }
  destruct l2 as [|y l2].
  { assert (x ∈ []) as Hx by (apply Hin; by left). by apply elem_of_nil in Hx. }
  simpl in H1, H2. inversion H1 as [|?? H1' Ha1]; inversion H2 as [|?? H2' Ha2]; subst.
  rewrite Forall_fmap, Forall_forall in Ha1, Ha2.
  assert (x = y) as ->.
  { assert (x ∈ y :: l2) as Hx by (apply Hin; by left).
    assert (y ∈ x :: l1) as Hy by (apply Hin; by left).
    apply elem_of_cons in Hx as [?|Hx]; [done|]. apply elem_of_cons in Hy as [?|Hy]; [done|].
    apply Ha1 in Hy. apply Ha2 in Hx. destruct (olt_antisym _ _ Hx Hy). }
  f_equal. apply IH; [done|done|]. intros z. split; intros Hz.
  - assert (z ∈ y :: l2) as Hz' by (apply Hin; by right).
    apply elem_of_cons in Hz' as [->|?]; [|done]. apply Ha1 in Hz. by apply olt_irrefl in Hz.
  - assert (z ∈ y :: l1) as Hz' by (apply Hin; by right).
    apply elem_of_cons in Hz' as [->|?]; [|done]. apply Ha2 in Hz. by apply olt_irrefl in Hz.
Qed.

(** Reading the present is exact, whatever was compacted: two stores of one history
    answer alike. *)
Lemma range_latest_same `{!BlockSize} s s' h start end_ limit :
  store_repr s h → store_repr s' h → h ≠ [] → bounds_ok start end_ →
  0 ≤ default usize_max limit →
  range s' start end_ 0 limit = range s start end_ 0 limit.
Proof.
  intros Hr Hr' Hne Hb Hlim. unfold bounds_ok in Hb.
  destruct (prefix_and_range_of_key start end_) as [[p r]|e] eqn:Ep.
  - destruct (range_spec_gen s h start end_ 0 limit p r) as (f1 & E1 & S1 & I1);
      [done|by left|done..|].
    destruct (range_spec_gen s' h start end_ 0 limit p r) as (f2 & E2 & S2 & I2);
      [done|by left|done..|].
    rewrite E1, E2. assert (f1 = f2) as ->; [|done].
    apply sorted_keys_unique; [done|done|]. intros x. rewrite I1, I2.
    by setoid_rewrite found_live_latest; [|done|done].
  - unfold range. by rewrite (repr_current _ _ Hr), (repr_current _ _ Hr'), Ep.
Qed.

(** ** A sample store *)

Definition sample_ops : list op :=
  [OPut (bytes "/registry/pods/a") (bytes "1") None;
   OPut (bytes "/registry/pods/b") (bytes "2") None;
   OWatch (bytes "/registry/pods/") (bytes "/registry/pods0") 1 true;
   OPut (bytes "/registry/pods/a") (bytes "3") None;
   ODelete (bytes "/registry/pods/b") None;
   OPut (bytes "/registry/pods/c") (bytes "4") None;
   OCompact 2].

Definition sample_store : Store :=
  match run (H:=block_size_2) (new_store None) sample_ops with
  | Ret (s, _) => s
  | Panic _ => new_store None
  end.

Definition sample_spec : AStore := final empty sample_ops.

Lemma sample_legal : legal_run empty sample_ops.
Proof. vm_compute. repeat split. Qed.

Lemma sample_implements : implements (H:=block_size_2) sample_store sample_spec.
Proof.
  destruct (run_implements (H:=block_size_2) (new_store None) empty sample_ops)
    as (s & rs & Hrun & Hi & _);
    [apply new_implements|apply sample_legal|vm_compute; discriminate|vm_compute; discriminate|].
  unfold sample_store. rewrite Hrun. exact Hi.
Qed.

(** ** Announcements *)

(** A successful write queues one job, for the watchers that want it. *)
Lemma set_announces `{!BlockSize} s h key new required s' rev :
  store_repr s h → watchers_wf s → Z.of_nat (length h) < i64_max →
  Z.of_nat (length (channels s)) < i64_max →
  set s key new required = Ret (s', Ok rev) →
  ∃ job, notify_tx s' = notify_tx s ++ [job] ∧ job_rev job = rev ∧
    kv (job_msg job) = as_mvcc_key_value (revised (latest_or_null h key) rev new) key ∧
    NoDup (job_watchers job) ∧
    ∀ c, c ∈ job_watchers job ↔ ∃ k id w, ((k, id), w) ∈ watchers s ∧ ch w = c ∧
      start_revision w ≤ rev ∧ watches_key w key.
Proof.
  intros Hr Hw Hlt Hch. unfold set. rewrite (repr_current s h Hr).
  destruct (set_entry_spec s h key Hr) as (s1 & l & Hse & Hr1 & Hl & Hv).
  pose proof (set_entry_same s key) as Hs1. rewrite Hse in Hs1 |- *. simpl in Hs1.
  destruct (set_locked_spec s1 h key l (bool_decide (tree_map s !! key = None)) new required Hr1 Hlt Hl)
    as (s2 & Hsl & _ & Hj2 & _).
  pose proof (set_locked_same _ _ _ _ _ _ _ _ Hsl) as Hs2. rewrite Hsl, bind_ret.
  destruct (guard h key new required) as [e|]; [done|].
  destruct (notify_watchers_spec s2 key
    (revised (latest_or_null h key) (Z.of_nat (length h) + 1) new)
    (if bool_decide (tree_map s !! key = None) then None else Some (latest_or_null h key))
    (prefix_split key).1) as (s3 & job & Hn & Hjobs & Hjr & Hjk & Hwn & _).
  rewrite Hn, bind_ret. intros [= <- <-]. simpl in *.
  assert (notify_tx s1 = notify_tx s) as Hj1.
  { unfold set_entry in Hse. destruct (tree_map s !! key); [congruence|].
    unfold insert_item in Hse. destruct (prefix_split key). by simplify_eq/=. }
  assert (watchers_wf s2) as Hw2 by (by eapply watchers_wf_same, watchers_wf_same, Hw).
  assert (watchers s2 = watchers s ∧ channels s2 = channels s) as [Hww Hcc]
    by (destruct Hs1 as (? & ? & ?), Hs2 as (? & ? & ?); split; congruence).
  exists job. rewrite Hjobs, Hj2, Hj1. split_and!; [done|done|done| |].
  - by eapply watchers_to_notify_once.
  - intros c. destruct (watchers_to_notify_spec s2 key (Z.of_nat (length h) + 1) Hw2)
      as (chans & Heq & Hin); [congruence|].
    rewrite Heq in Hwn. injection Hwn as ->. rewrite Hin, Hww. done.
Qed.

(** ** Guards *)

#[local] Arguments Z.leb : simpl never.
#[local] Arguments Z.ltb : simpl never.
#[local] Arguments Z.eqb : simpl never.

(** The guard of a write conditional on the modification revision. *)
Lemma guard_equal h key new r :
  0 ≤ r →
  guard h key new (Some {| required_last_revision := Some r; required_version := None;
                           compare_result := 0 |}) =
    match live_part (Some (latest_or_null h key)) with
    | Some v => if mod_revision v =? r then None
                else Some (Z.of_nat (length h), Some (as_mvcc_key_value v key))
    | None => if r =? 0
              then match new with Some _ => None | None => Some (Z.of_nat (length h), None) end
              else Some (Z.of_nat (length h), None)
    end.
Proof.
  intros Hr. rewrite guard_code. unfold set_guard, live_part, is_live. simpl.
  unfold req_last_revision, req_version, req_cmp, cmp_satisfied. cbn.
  destruct (latest_or_null h key) as [cr mr ver [b|]]; cbn.
  - destruct (Z.leb_spec 0 r); [|lia]. by destruct (mr =? r).
  - destruct (Z.ltb_spec 0 r), (Z.eqb_spec r 0); (done || lia).
Qed.

(** ** Properties *)

(** C1: the store implements its history. Every sequence of puts, deletes, replayed
    records, range reads, watches, unwatches and compactions on a new store, for every
    block size and WAL mode, runs without a panic, gives the replies the abstract
    store gives (revisions, errors, range answers, past changes) and announces to the
    watchers exactly the changes written by puts and deletes, in revision order. The
    sequence must stay within what the code answers at all ([legal]: no inverted
    range, no read of a negative revision, no read of the present of a store that was
    never written). *)
Theorem store_refines_history `{!BlockSize} (mode : option WalMode) (ops : list op) :
  legal_run empty ops → Z.of_nat (length ops) ≤ i64_max →
  ∃ s rs, run (new_store mode) ops = Ret (s, rs) ∧ implements s (final empty ops) ∧
    replies_ok empty ops rs.
Proof.
  intros Hleg Hlen. apply run_implements; [apply new_implements|done|simpl; lia|simpl; lia].
Qed.

Lemma store_refines_history_witness :
  ∃ s rs, run (H:=block_size_2) (new_store (Some WalSync)) sample_ops = Ret (s, rs) ∧
    implements (H:=block_size_2) s sample_spec ∧ replies_ok empty sample_ops rs.
Proof.
  apply (@store_refines_history block_size_2 (Some WalSync) sample_ops);
    [vm_compute; repeat split|vm_compute; discriminate].
Defined.


Lemma sample_prefix_owns : owns_extensions (bytes "/registry/pods/").
Proof.
  apply (resource_prefix_owns (bytes "pods")); apply (bool_decide_unpack _); vm_compute; exact I.
Qed.




(** The metadata of keys. After any run, the item of a live key holds a value that
    carries the revision at which the key was created (a revision of that key, not after
    its last modification, which is not after the store's revision) and a version that
    counts the writes since then; deleting a key and putting it again starts over. *)
Theorem key_metadata `{!BlockSize} (mode : option WalMode) (ops : list op) s rs k l it :
  legal_run empty ops → Z.of_nat (length ops) ≤ i64_max →
  run (new_store mode) ops = Ret (s, rs) →
  tree_map s !! k = Some l → arcs s !! l = Some it → value (latest_value it) ≠ None →
  let h := hist (final empty ops) in
  let v := latest_value it in
  item_key it = k ∧ 1 ≤ create_revision v ≤ mod_revision v ∧ mod_revision v ≤ current_revision s ∧
  (∃ w, w ∈ events h k ∧ mod_revision w = create_revision v) ∧
  version v = Z.of_nat (length (filter (λ w, create_revision v ≤ mod_revision w) (events h k))).
Proof.
  intros Hleg Hlen Hrun Hl Hit Hlive h v.
  assert (lineage_ok h) as Hlin.
  { apply (lineage_run (new_store mode)); [apply new_implements|done|done|simpl; lia|simpl; lia]. }
  destruct (run_implements (new_store mode) empty ops) as (s' & rs' & Hrun' & Hi & _);
    [apply new_implements|done|simpl; lia|simpl; lia|].
  rewrite Hrun in Hrun'. injection Hrun' as <- <-.
  pose proof (im_repr _ _ Hi) as Hr. destruct (sr_items _ _ Hr k l Hl) as (it' & Hit' & [Hk Hv _]).
  assert (it' = it) as -> by congruence. subst v. unfold latest_or_null in Hv.
  destruct (latest_of (hist (final empty ops)) k) as [v|] eqn:Hlat; [|by rewrite Hv in Hlive].
  simpl in Hv. rewrite Hv. destruct (latest_of_lookup _ k v (sr_hist _ _ Hr) Hlat) as [Hb _].
  rewrite (repr_current _ _ Hr). destruct (Hlin _ _ Hlat) as (? & ? & ?). split_and!; (done || lia).
Qed.

Lemma key_metadata_witness :
  ∃ it, arcs sample_store !! 0%nat = Some it ∧ item_key it = bytes "/registry/pods/a" ∧
    mod_revision (latest_value it) ≤ current_revision sample_store ∧
    version (latest_value it)
    = Z.of_nat (length (filter (λ w, create_revision (latest_value it) ≤ mod_revision w)
                          (events (hist sample_spec) (bytes "/registry/pods/a")))).
Proof.
  destruct (run (H:=block_size_2) (new_store None) sample_ops) as [[s rs]|m] eqn:E;
    [|vm_compute in E; discriminate E].
  assert (sample_store = s) as Hs by (unfold sample_store; by rewrite E).
  destruct (arcs sample_store !! 0%nat) as [it|] eqn:Hit; [|vm_compute in Hit; discriminate Hit].
  destruct (@key_metadata block_size_2 None sample_ops s rs (bytes "/registry/pods/a") 0 it)
    as (Hk & _ & Hm & _ & Hv).
  - vm_compute. repeat split.
  - vm_compute. discriminate.
  - exact E.
  - rewrite <- Hs. vm_compute. reflexivity.
  - rewrite <- Hs. exact Hit.
  - vm_compute in Hit. injection Hit as <-. discriminate.
  - exists it. rewrite Hs. split_and!; [done|exact Hk|exact Hm|exact Hv].
Defined.

(** C34: compaction keeps the present. Compacting at a revision that is neither
    compacted yet nor in the future succeeds, drops the revisions before it, and
    every read of the present answers as before. *)
Theorem compact_keeps_present `{!BlockSize} s h rev :
  store_repr s h → compacted_revision s < rev ≤ current_revision s →
  ∃ s', compact s rev = Ret (s', Ok ()) ∧ compacted_revision s' = rev - 1 ∧
    current_revision s' = current_revision s ∧
    ∀ start end_ limit, bounds_ok start end_ → 0 ≤ default usize_max limit →
      range s' start end_ 0 limit = range s start end_ 0 limit.
Proof.
  intros Hr Hrev. rewrite (repr_compacted _ _ Hr), (repr_current _ _ Hr) in Hrev.
  destruct (compact_ok_spec s h rev Hr Hrev) as (s' & Hc & Hr' & Hf & _). exists s'.
  rewrite (repr_compacted _ _ Hr'), (repr_current _ _ Hr'), (repr_current _ _ Hr).
  split_and!; [done..|]. intros start end_ limit Hb Hlim.
  apply (range_latest_same s s' h); try done.
  intros ->. pose proof (sr_start _ _ Hr). simpl in *. lia.
Qed.

Lemma compact_keeps_present_witness :
  ∃ s', compact (H:=block_size_2) sample_store 4 = Ret (s', Ok ()) ∧
    range (H:=block_size_2) s' (bytes "/registry/pods/") (bytes "/registry/pods0") 0 None =
    range (H:=block_size_2) sample_store (bytes "/registry/pods/") (bytes "/registry/pods0") 0 None.
Proof.
  destruct (@compact_keeps_present block_size_2 sample_store (hist sample_spec) 4)
    as (s' & Hc & _ & _ & Hrange).
  - apply sample_implements.
  - vm_compute. split; [reflexivity|discriminate].
  - exists s'. split; [exact Hc|]. apply Hrange; [vm_compute; reflexivity|vm_compute; discriminate].
Defined.

(** A new watcher is given the past of its range. A watch from a revision that is
    not compacted returns every change of a key of the range from that revision on and
    nothing else: key by key in increasing order, and for each key in revision order. *)
Theorem watch_past_complete `{!BlockSize} s h start end_ rev want p r :
  store_repr s h → compacted_revision s < rev → 0 < rev →
  prefix_and_range_of_key start end_ = Ok (p, r) → bad_bounds r = false →
  owns_extensions p → last end_ ≠ Some nul →
  ∃ s' changes id c,
    watch s start end_ rev want = Ret (s', Ok (changes, id, c)) ∧
    (∀ x, x ∈ kv <$> changes ↔ ∃ k v, key_in_range start end_ k ∧ v ∈ events h k ∧
       rev ≤ mod_revision v ∧ x = as_mvcc_key_value v k) ∧
    ∃ ks : list ByteArray, StronglySorted olt ks ∧
      kv <$> changes = ks ≫= λ k, (λ v, as_mvcc_key_value v k) <$>
                                  filter (λ v, rev ≤ mod_revision v) (events h k).
Proof.
  intros Hr Hc H0 Hp Hb Hown Hnul. rewrite (repr_compacted _ _ Hr) in Hc.
  destruct (watch_past_spec s h start end_ rev want p r) as (changes & Hw & Hpast); [done..|].
  eexists _, changes, _, _. split; [exact Hw|]. split.
  - intros x. setoid_rewrite (range_bounds_exact_aux start end_ p r Hp Hnul).
    by apply (past_of_elem h (first_index s) want).
  - destruct Hpast as (ks & Hs & -> & _). exists ks. split; [done|]. clear -Hc.
    induction ks as [|k ks IH]; csimpl; [done|]. rewrite fmap_app, IH. f_equal.
    by apply changes_from_kvs.
Qed.

Lemma watch_past_complete_witness :
  ∃ s' changes id c,
    watch (H:=block_size_2) sample_store (bytes "/registry/pods/") (bytes "/registry/pods0") 3 true
      = Ret (s', Ok (changes, id, c)) ∧
    ∃ ks : list ByteArray, StronglySorted olt ks ∧
      kv <$> changes = ks ≫= λ k, (λ v, as_mvcc_key_value v k) <$>
                         filter (λ v, 3 ≤ mod_revision v) (events (hist sample_spec) k).
Proof.
  destruct (@watch_past_complete block_size_2 sample_store (hist sample_spec) (bytes "/registry/pods/")
    (bytes "/registry/pods0") 3 true (bytes "/registry/pods/") (Included [], Unbounded))
    as (s' & changes & id & c & Hw & _ & Hks).
  - apply sample_implements.
  - vm_compute. reflexivity.
  - lia.
  - vm_compute. reflexivity.
  - reflexivity.
  - apply sample_prefix_owns.
  - vm_compute. discriminate.
  - exists s', changes, id, c. split; [exact Hw|exact Hks].
Defined.


Definition sample_write : Store :=
  match set (H:=block_size_2) sample_store (bytes "/registry/pods/d") (Some (bytes "7")) None with
  | Ret (s, _) => s
  | Panic _ => sample_store
  end.


(** C31: a snapshot carries the present. Importing an export into any store succeeds;
    the new store has the same live keys with the same values and metadata, and range
    reads of the present return the same key-values, whatever the order in which the
    concurrent map was walked. The revision of the new store is that of the newest
    live key, which is not greater than the exported store's. *)
Theorem snapshot_roundtrip `{!BlockSize} iter s h s2 :
  store_repr s h → iter (tree_map s) ≡ₚ map_to_list (tree_map s) →
  ∃ es s3, export_snapshot_data iter s = Ret es ∧ import_snapshot_data s2 es = Ret s3 ∧
    store_repr s3 (imported_history es) ∧ current_revision s3 = max_mod_revision es ∧
    current_revision s3 ≤ current_revision s ∧
    (∀ k, live_at (imported_history es) k (current_revision s3) = live_at h k (current_revision s)) ∧
    ∀ start end_ limit p r, es ≠ [] →
      prefix_and_range_of_key start end_ = Ok (p, r) → bad_bounds r = false →
      0 ≤ default usize_max limit →
      ∃ found_kvs n,
        range s start end_ 0 limit = Ret (Ok (mkRangeResult found_kvs (current_revision s) n)) ∧
        range s3 start end_ 0 limit = Ret (Ok (mkRangeResult found_kvs (current_revision s3) n)).
Proof.
  intros Hr Hperm.
  destruct (snapshot_roundtrip_spec iter s h s2 Hr Hperm)
    as (es & s3 & Hex & Him & Hr3 & H0 & Hlive & Hcur & Hle).
  exists es, s3. split_and!; [done..|]. intros start end_ limit p r Hne Hp Hb Hlim.
  rewrite (repr_current _ _ Hr), (repr_current _ _ Hr3) in *.
  assert (0 < max_mod_revision es) as Hpos.
  { destruct (export_spec iter s h Hr Hperm) as (es' & Hex' & Hok & _).
    assert (es' = es) as -> by congruence. destruct es as [|e es]; [done|].
    destruct Hok as (_ & _ & Hok). inversion Hok as [|?? [? _] _]; subst.
    assert (se_mod_revision e ≤ max_mod_revision (e :: es)) by (apply max_mod_revision_ge; by left).
    lia. }
  destruct (range_spec_gen s h start end_ 0 limit p r) as (f1 & E1 & S1 & I1);
    [done|left; split; [done|]; intros ->; simpl in *; lia|done..|].
  destruct (range_spec_gen s3 (imported_history es) start end_ 0 limit p r) as (f2 & E2 & S2 & I2);
    [done|left; split; [done|]; intros Heq; rewrite Heq in Hcur; simpl in *; lia|done..|].
  assert (f1 = f2) as <-; [|by eauto].
  apply sorted_keys_unique; [done|done|]. intros x. rewrite I1, I2. unfold read_revision. simpl.
  setoid_rewrite found_live_latest; [|done|done]. by setoid_rewrite Hlive.
Qed.

Lemma snapshot_roundtrip_witness :
  ∃ es s3, export_snapshot_data map_to_list sample_store = Ret es ∧
    import_snapshot_data (H:=block_size_2) (new_store None) es = Ret s3 ∧
    current_revision s3 ≤ current_revision sample_store ∧
    ∃ found_kvs n,
      range (H:=block_size_2) s3 (bytes "/registry/pods/a") [] 0 None =
        Ret (Ok (mkRangeResult found_kvs (current_revision s3) n)).
Proof.
  destruct (@snapshot_roundtrip block_size_2 map_to_list sample_store (hist sample_spec) (new_store None))
    as (es & s3 & Hex & Him & _ & _ & Hle & _ & Hrange).
  - apply sample_implements.
  - reflexivity.
  - exists es, s3. split; [exact Hex|]. split; [exact Him|]. split; [exact Hle|].
    destruct (Hrange (bytes "/registry/pods/a") [] None (bytes "/registry/pods/")
      (Included (bytes "a"), Included (bytes "a"))) as (f & n & _ & H3).
    + intros ->. vm_compute in Hex. discriminate Hex.
    + vm_compute. reflexivity.
    + vm_compute. reflexivity.
    + vm_compute. discriminate.
    + exists f, n. exact H3.
Defined.

(** ** Departures from the documented interface *)

#[local] Existing Instance block_size_2.

(** The outcome of the last operation of a run. *)
Definition last_reply (ops : list op) : option (option reply) :=
  match run (new_store None) ops with
  | Ret (_, rs) => Some (last rs)
  | Panic _ => None
  end.

(** After a compaction at revision 2, a read at revision 2 does not find a key that
    was written at revision 1 and again at revision 3, although it was live at 2. *)
Example compaction_loses_readable_revision :
  last_reply [OPut (bytes "foo") (bytes "1") None; OPut (bytes "x") (bytes "2") None;
              OPut (bytes "foo") (bytes "3") None; OCompact 2;
              ORange (bytes "foo") [] 2 None]
  = Some (Some (RRange (Ok (mkRangeResult [] 3 0)))).
Proof. vm_compute. reflexivity. Qed.

(** Reading at a negative revision panics. *)
Example negative_revision_panics :
  last_reply [OPut (bytes "foo") (bytes "1") None; ORange (bytes "foo") [] (-1) None] = None.
Proof. vm_compute. reflexivity. Qed.

(** A range whose end precedes its start panics. *)
Example inverted_range_panics :
  last_reply [OPut (bytes "foo") (bytes "1") None; ORange (bytes "foo") (bytes "bar") 0 None] = None.
Proof. vm_compute. reflexivity. Qed.

(** On a store that was never written, a refused delete leaves a placeholder behind,
    and the next read of that key panics. *)
Example refused_delete_then_read_panics :
  last_reply [ODelete (bytes "foo") None] = Some (Some (RWrite (Err (0, None)))) ∧
  last_reply [ODelete (bytes "foo") None; ORange (bytes "foo") [] 0 None] = None.
Proof. split; vm_compute; reflexivity. Qed.

(** A watch that fails because its keys are in different prefixes stays registered. *)
Example failed_watch_leaks :
  match run (new_store None) [OWatch (bytes "/registry/pods/a") (bytes "/registry/svc/b") 1 false] with
  | Ret (s, rs) => rs = [RWatch (Err 0)] ∧ watcher_count s = 1
  | Panic _ => False
  end.
Proof. vm_compute. split; reflexivity. Qed.

(** A watcher of all the keys from its start on ([range_end] is a nul byte) is not told
    of any change. *)
Example open_ended_watch_is_silent :
  match run (new_store None) [OWatch (bytes "a") [nul] 0 false;
                              OPut (bytes "b") (bytes "1") None] with
  | Ret (s, _) => job_watchers <$> notify_tx s = [[]]
  | Panic _ => False
  end.
Proof. vm_compute. reflexivity. Qed.

(** A range end formed by appending a nul byte, [key, key + nul), which holds the one
    key, reads everything from the key on. *)
Example nul_suffixed_end_is_unbounded :
  last_reply [OPut (bytes "a") (bytes "1") None; OPut (bytes "b") (bytes "2") None;
              ORange (bytes "a") (bytes "a" ++ [nul]) 0 None] =
  Some (Some (RRange (Ok (mkRangeResult
    [mkKeyValue (bytes "a") 1 1 1 (bytes "1") 0; mkKeyValue (bytes "b") 2 2 1 (bytes "2") 0] 2 2)))).
Proof. vm_compute. reflexivity. Qed.

(** A snapshot forgets the revision counter: after two puts and the deletion of the
    second key the store is at revision 3, its import at revision 1. *)
Example snapshot_revision_goes_back :
  match run (new_store None) [OPut (bytes "a") (bytes "1") None; OPut (bytes "b") (bytes "2") None;
                              ODelete (bytes "b") None] with
  | Ret (s, _) =>
      match (es ← export_snapshot_data map_to_list s; import_snapshot_data (new_store None) es) with
      | Ret s' => current_revision s = 3 ∧ current_revision s' = 1
      | Panic _ => False
      end
  | Panic _ => False
  end.
Proof. vm_compute. split; reflexivity. Qed.
