(* ===== verification/Answers.v ===== *)
(** * The answers of the store are well formed

    What every key-value the store hands out satisfies, whichever operation it comes
    from: a range read, the past of a watch, or the notification of a change. *)
From S2P Require Import Prelude Bytes BTreeMap BlockDeque Types Prefix History Store StoreSpec WatchSpec StoreTrace StoreProps.
Import StoreTrace.

(** ** Well-formed values *)

(** A value was created no later than it was modified, and has at most one version for
    each revision from then on. *)
Definition value_typed (v : Value) : Prop :=
  1 ≤ create_revision v ≤ mod_revision v ∧
  1 ≤ version v ≤ mod_revision v - create_revision v + 1.

Definition hist_typed (h : history) : Prop := ∀ k v, Some (k, v) ∈ h → value_typed v.

(** A key-value of the API: of a revision up to [latest] and without a lease; either a
    tombstone, or live with the metadata of a well-formed value. *)
Definition kv_typed (latest : Z) (x : KeyValue) : Prop :=
  1 ≤ kv_mod_revision x ≤ latest ∧ kv_lease x = 0 ∧
  (kv_create_revision x = 0 ∧ kv_version x = 0 ∧ kv_value x = [] ∨
   1 ≤ kv_create_revision x ≤ kv_mod_revision x ∧
   1 ≤ kv_version x ≤ kv_mod_revision x - kv_create_revision x + 1).

Definition kv_live (x : KeyValue) : Prop := 1 ≤ kv_version x.

Lemma kv_typed_mono n m x : n ≤ m → kv_typed n x → kv_typed m x.
Proof. intros Hnm (? & ? & ?). split; [lia|done]. Qed.

Lemma as_mvcc_typed h k v :
  hist_ok h → hist_typed h → v ∈ events h k →
  kv_typed (Z.of_nat (length h)) (as_mvcc_key_value v k) ∧
  (is_live v = true → kv_live (as_mvcc_key_value v k)).
Proof.
  intros Hok Ht Hv. destruct (event_lookup h k v Hok Hv) as [Hm _].
  apply elem_of_events in Hv. destruct (Ht _ _ Hv) as [Hc Hver].
  unfold kv_typed, kv_live, as_mvcc_key_value, is_live. simpl.
  destruct (value v); simpl.
  - split; [|intros _; lia]. split; [lia|]. split; [done|]. by right.
  - split; [|done]. split; [lia|]. split; [done|]. by left.
Qed.

(** ** The history stays well formed *)

Lemma hist_write_typed h k new :
  hist_ok h → Z.of_nat (length h) < i64_max → hist_typed h → hist_typed (hist_write h k new).
Proof.
  intros Hok Hlt Ht k' v [Hin|Hin]%elem_of_app; [by eapply Ht|].
  apply list_elem_of_singleton in Hin as [= -> ->]. unfold value_typed. simpl. unfold latest_or_null.
  destruct (latest_of h k) as [w|] eqn:El; simpl; [|lia].
  destruct (latest_of_lookup h k w Hok El) as [Hm Hi].
  destruct (Ht k w) as [Hc Hv]; [by eapply list_elem_of_lookup_2|].
  destruct (is_live w); [|lia]. rewrite i64_add_id by width. lia.
Qed.

Lemma anext_typed `{!BlockSize} s a o :
  implements s a → Z.of_nat (length (hist a)) < i64_max → hist_typed (hist a) → hist_typed (hist (anext a o)).
Proof.
  intros Hi Hlt Ht. pose proof (sr_hist _ _ (im_repr _ _ Hi)) as Hok.
  assert (∀ k new req, hist_typed (hist (awrite a k new req))) as Hw.
  { intros k new req. unfold awrite, hist_set. destruct (guard _ _ _ _); simpl; [done|]. by apply hist_write_typed. }
  destruct o; simpl; try done; try apply Hw.
  - unfold hist_replay. destruct (value _), new; try done; by apply hist_write_typed.
  - by case_match.
Qed.

(** The announcements are of key-values as they were when they were announced. *)
Definition announced_typed (a : AStore) : Prop :=
  Forall (λ e, 1 ≤ e.1 ≤ Z.of_nat (length (hist a)) ∧ kv_typed e.1 e.2) (announced a).

Lemma anext_announced_typed `{!BlockSize} s a o :
  implements s a → Z.of_nat (length (hist a)) < i64_max → hist_typed (hist a) →
  announced_typed a → announced_typed (anext a o).
Proof.
  intros Hi Hlt Ht Ha. pose proof (sr_hist _ _ (im_repr _ _ Hi)) as Hok.
  assert (∀ a', announced a' = announced a → (length (hist a) ≤ length (hist a'))%nat → announced_typed a') as Hgrow.
  { intros a' Heq Hle. unfold announced_typed. rewrite Heq. eapply Forall_impl; [exact Ha|]. simpl. intros e [? ?].
    split; [lia|done]. }
  assert (∀ k new req, announced_typed (awrite a k new req)) as Hw.
  { intros k new req. pose proof (hist_write_typed (hist a) k new Hok Hlt Ht) as Ht'.
    unfold awrite, hist_set. destruct (guard _ _ _ _); simpl; [done|].
    unfold announced_typed. simpl. apply Forall_app. unfold hist_write in *. rewrite length_app. simpl. split.
    - eapply Forall_impl; [exact Ha|]. simpl. intros e [? ?]. split; [lia|done].
    - constructor; [|done]. simpl. split; [lia|].
      set (v := revised (latest_or_null (hist a) k) (Z.of_nat (length (hist a)) + 1) new) in *.
      destruct (as_mvcc_typed (hist a ++ [Some (k, v)]) k v) as [Hty _]; [by apply hist_ok_snoc|done| |].
      { rewrite events_snoc_eq. apply elem_of_app. right. by left. }
      rewrite length_app in Hty. simpl in Hty. by rewrite Nat2Z.inj_add in Hty. }
  destruct o; simpl; try done; try apply Hw.
  - apply Hgrow; simpl; [done|]. unfold hist_replay, hist_write. destruct (value _), new; rewrite ?length_app; simpl; lia.
  - by case_match.
Qed.

(** ** Well-formed replies *)

Definition change_typed (latest : Z) (x : KeyValueWithPrev) : Prop :=
  kv_typed latest (kv x) ∧ from_option (kv_typed latest) True (prev_kv x).

(** What a client can rely on in an answer. *)
Definition reply_typed (r : reply) : Prop :=
  match r with
  | RWrite (Ok rev) => 1 ≤ rev ≤ i64_max
  | RRange (Ok res) =>
      0 ≤ latest_rev res ≤ i64_max ∧ Z.of_nat (length (kvs res)) ≤ count res ≤ latest_rev res ∧
      Forall (λ x, kv_typed (latest_rev res) x ∧ kv_live x) (kvs res)
  | RWatch (Ok (changes, id, _)) => 1 ≤ id ≤ i64_max ∧ Forall (change_typed i64_max) changes
  | _ => True
  end.

Lemma changes_from_typed n c want start_rev k vs prev :
  Forall (λ v, kv_typed n (as_mvcc_key_value v k)) vs → from_option (kv_typed n) True prev →
  Forall (change_typed n) (changes_from c want start_rev k vs prev).
Proof.
  intros Hvs. revert prev. induction Hvs as [|v vs Hv _ IH]; intros prev Hp; simpl; [constructor|].
  destruct (c <? mod_revision v); [|by apply IH]. apply Forall_app. split; [|apply IH; by destruct want].
  destruct (start_rev <=? mod_revision v); [by constructor; [split|]|constructor].
Qed.

Lemma past_typed h c want start_rev p r changes :
  hist_ok h → hist_typed h → past_of h c want start_rev p r changes →
  Forall (change_typed (Z.of_nat (length h))) changes.
Proof.
  intros Hok Ht (ks & _ & -> & _). apply Forall_forall. intros x (k & Hx & _)%list_elem_of_bind.
  assert (Forall (change_typed (Z.of_nat (length h))) (key_changes h c want start_rev k)) as Hall.
  { apply changes_from_typed; [|done]. apply Forall_forall. intros v Hv. by apply as_mvcc_typed. }
  rewrite Forall_forall in Hall. by apply Hall.
Qed.

Section typed.
Context `{!BlockSize}.
Implicit Types (s : Store) (a : AStore).

Lemma range_answer_typed s a p r rev limit res :
  implements s a → hist_typed (hist a) → range_answer a p r rev limit res → reply_typed (RRange (Ok res)).
Proof.
  intros Hi Ht (full & -> & Hs & Hin). pose proof (im_repr _ _ Hi) as Hr. pose proof (sr_hist _ _ Hr) as Hok.
  destruct (repr_latest _ _ Hr) as [_ Hmax].
  assert (∀ x, x ∈ full → kv_typed (Z.of_nat (length (hist a))) x ∧ kv_live x ∧ ∃ k v,
    v ∈ events (hist a) k ∧ x = as_mvcc_key_value v k) as Hfull.
  { intros x Hx. apply Hin in Hx as (y & v & _ & _ & Hf & ->). unfold found in Hf.
    destruct (value_at (hist a) (p ++ y) _) as [w|] eqn:Ev; [|done]. simpl in Hf.
    destruct (is_live w && _) eqn:El; [|done]. injection Hf as ->. apply andb_true_iff in El as [El _].
    apply value_at_event in Ev. destruct (as_mvcc_typed _ _ _ Hok Ht Ev) as [Hty Hlv]. split; [done|]. split; [by apply Hlv|]. eauto. }
  simpl. split; [lia|]. split.
  - rewrite length_take. split; [lia|]. apply Nat2Z.inj_le, (kvs_length (hist a)); [|done].
    intros x Hx. destruct (Hfull x Hx) as (_ & _ & k & v & Hv & ->). exists v. simpl.
    by destruct (event_lookup _ _ _ Hok Hv) as [_ ->].
  - apply Forall_take, Forall_forall. intros x Hx. by destruct (Hfull x Hx) as (? & ? & _).
Qed.

Lemma areply_typed s a o s' r :
  implements s a → Z.of_nat (length (hist a)) < i64_max → Z.of_nat (length (channels s)) < i64_max →
  hist_typed (hist a) → step s o = Ret (s', r) → areply a o r → reply_typed r.
Proof.
  intros Hi Hlt Hch Ht Hs Hr. pose proof (sr_hist _ _ (im_repr _ _ Hi)) as Hok.
  destruct o as [k v req|k req|k new|b e rev lim|b e rev want|b id|rev]; simpl in Hr.
  - subst r. unfold hist_set. destruct (guard _ _ _ _); simpl; [done|lia].
  - subst r. unfold hist_set. destruct (guard _ _ _ _); simpl; [done|lia].
  - by subst r.
  - destruct (_ <? rev); [by subst r|]. destruct (_ && _); [by subst r|].
    destruct (prefix_and_range_of_key b e) as [[p bd]|]; [|by subst r].
    destruct Hr as (res & -> & Hres). by eapply range_answer_typed.
  - assert (∀ changes id c, r = RWatch (Ok (changes, id, c)) → 1 ≤ id ≤ i64_max) as Hid.
    { intros changes id c ->. simpl in Hs. apply bind_ret_inv in Hs as ([s1 r1] & Hw & [= <- ->]).
      assert (id = i64_add (watch_counter s) 1) as ->.
      { revert Hw. unfold watch. destruct (_ && _); [done|]. destruct (0 <? rev); [|by intros [= _ _ <- _]].
        destruct (prefix_and_range_of_key b e) as [[p bd]|]; [|done].
        destruct (prefix_map _ !! p); [|by intros [= _ _ <- _]].
        intros (es & _ & (chs & _ & [= _ _ <- _])%bind_ret_inv)%bind_ret_inv. done. }
      rewrite (ww_counter _ (im_watchers _ _ Hi)), i64_add_id by width. lia. }
    destruct (rev <=? 0); [destruct Hr as (id & c & ->); split; [by eapply Hid|constructor]|].
    destruct (rev <=? floor a); [by subst r|].
    destruct (prefix_and_range_of_key b e) as [[p bd]|]; [|by subst r].
    destruct Hr as (changes & id & c & -> & Hp). split; [by eapply Hid|].
    eapply Forall_impl; [by eapply past_typed|]. intros x [Hx1 Hx2].
    split; [by eapply kv_typed_mono; [|done]; lia|].
    destruct (prev_kv x); simpl in *; [|done]. by eapply kv_typed_mono; [|done]; lia.
  - by subst r.
  - destruct (_ && _); [by subst r|by destruct Hr as [e ->]].
Qed.

Lemma run_typed s a ops s' rs :
  implements s a → legal_run a ops → hist_typed (hist a) → announced_typed a →
  Z.of_nat (length (hist a)) + Z.of_nat (length ops) ≤ i64_max →
  Z.of_nat (length (channels s)) + Z.of_nat (length ops) ≤ i64_max →
  run s ops = Ret (s', rs) → Forall reply_typed rs ∧ announced_typed (final a ops) ∧ implements s' (final a ops).
Proof.
  revert s a rs. induction ops as [|o ops IH]; intros s a rs Hi Hleg Ht Ha Hh Hc Hrun; simpl in *.
  { injection Hrun as <- <-. by split. }
  destruct Hleg as [Ho Hleg].
  destruct (step_implements s a o Hi Ho) as (s1 & r & Hs & Hi1 & Hr & Hch); [lia|lia|].
  rewrite Hs, bind_ret in Hrun. apply bind_ret_inv in Hrun as ([s2 rs2] & Hrun & [= <- <-]).
  pose proof (anext_length a o). simpl in Hrun, Hch.
  destruct (IH s1 (anext a o) rs2) as (Hrs & Ht' & Hi'); [done|done|by eapply anext_typed; [|lia|]|by eapply anext_announced_typed; [|lia|..]|lia|lia|done|].
  split; [|done]. constructor; [|done]. apply (areply_typed s a o s1 r); (done || lia).
Qed.
End typed.

(** ** Properties *)


