(* ===== verification/Accounting.v ===== *)
(** * The size of the store

    [TREE_MAP_SIZE_BYTES] (src/metrics.rs) is the size the maintenance service answers.
    It is kept by reference counts: a write adds the length of its value, and [Value]'s
    [Drop] (src/store.rs) subtracts it when the value's buffer is [unique], no clone of
    it being left. The store keeps a value in its item and in [values_by_revision]; the
    messages to watchers and the answers of reads hold clones of the buffer alone. *)
From S2P Require Import Prelude Bytes BTreeMap BlockDeque Types Prefix History Store StoreSpec Snapshot WatchSpec StoreTrace StoreProps.
Import StoreTrace.

(** ** Buffers *)

(** A buffer is known by the revision whose write brought it, counted from [epoch]: an
    import begins the revisions anew, and the buffers of before may still be held.
    [value_refs] has one entry for each [Value] with the buffer, [bytes_refs] one for each
    other [Bytes] of it.
    [written] and [lost] record the past for the proofs: the bytes ever added, and the
    buffers whose last [Value] was dropped while they were not unique. *)
Record Buffers := mkBuffers {
  gauge : Z;
  sizes : gmap Z Z;
  value_refs : list Z;
  bytes_refs : list Z;
  written : Z;
  lost : list Z;
  epoch : Z;
}.

Definition no_buffers : Buffers := mkBuffers 0 ∅ [] [] 0 [] 0.

Definition size_of (sz : gmap Z Z) (r : Z) : Z := default 0 (sz !! r).

(** What the code does with a [Value] or a [Bytes]. *)
Inductive RefOp :=
| NewValue (r n : Z)
| CloneValue (r : Z)
| DropValue (r : Z)
| CloneBytes (r : Z)
| DropBytes (r : Z).

Fixpoint remove_one (r : Z) (l : list Z) : list Z :=
  match l with
  | [] => []
  | x :: l' => if decide (x = r) then l' else x :: remove_one r l'
  end.

(** [Bytes::is_unique]: this is the only reference to the buffer. *)
Definition is_unique (b : Buffers) (r : Z) : bool :=
  bool_decide (length (filter (λ x, x = r) (value_refs b ++ bytes_refs b)) = 1%nat).

Definition ref_step (b : Buffers) (o : RefOp) : Buffers :=
  match o with
  | NewValue r n =>
      mkBuffers (i64_add (gauge b) n) (<[r := n]> (sizes b)) (r :: value_refs b) (bytes_refs b)
        (written b + n) (lost b) (epoch b)
  | CloneValue r =>
      mkBuffers (gauge b) (sizes b) (r :: value_refs b) (bytes_refs b) (written b) (lost b) (epoch b)
  | DropValue r =>
      let rest := remove_one r (value_refs b) in
      mkBuffers (if is_unique b r then i64_sub (gauge b) (size_of (sizes b) r) else gauge b)
        (sizes b) rest (bytes_refs b) (written b)
        (if negb (is_unique b r) && bool_decide (r ∉ rest) then r :: lost b else lost b) (epoch b)
  | CloneBytes r =>
      mkBuffers (gauge b) (sizes b) (value_refs b) (r :: bytes_refs b) (written b) (lost b) (epoch b)
  | DropBytes r =>
      mkBuffers (gauge b) (sizes b) (value_refs b) (remove_one r (bytes_refs b)) (written b) (lost b) (epoch b)
  end.

Definition ref_run (b : Buffers) (ops : list RefOp) : Buffers := foldl ref_step b ops.

(** What an operation on a reference needs: the reference. *)
Definition allowed (b : Buffers) (o : RefOp) : Prop :=
  match o with
  | NewValue r n => 0 ≤ n ∧ sizes b !! r = None
  | CloneValue r | DropValue r => r ∈ value_refs b
  | CloneBytes r => r ∈ value_refs b ∨ r ∈ bytes_refs b
  | DropBytes r => r ∈ bytes_refs b
  end.

(** ** Lemmas: counting *)

Definition total (sz : gmap Z Z) (l : list Z) : Z := foldr (λ r n, size_of sz r + n) 0 l.

#[export] Instance total_proper sz : Proper ((≡ₚ) ==> (=)) (total sz).
Proof. intros l1 l2. unfold total. induction 1; simpl; lia. Qed.

Lemma remove_one_Permutation r l : r ∈ l → l ≡ₚ r :: remove_one r l.
Proof.
  induction l as [|x l IH]; intros Hr; [by apply elem_of_nil in Hr|]. simpl.
  case_decide as Hx; [by subst|]. apply elem_of_cons in Hr as [?|Hr]; [done|].
  rewrite (IH Hr) at 1. apply perm_swap.
Qed.

Lemma total_insert sz r n l : r ∉ l → total (<[r := n]> sz) l = total sz l.
Proof.
  induction l as [|x l IH]; intros Hr; simpl; [done|]. apply not_elem_of_cons in Hr as [Hne Hr].
  unfold size_of at 1. rewrite lookup_insert_ne by done. fold (size_of sz x). by rewrite IH.
Qed.

(** What the gauge counts: every buffer a [Value] still holds, once, and the lost ones. *)
Record counted (b : Buffers) : Prop := {
  co_live : ∃ live, NoDup live ∧ (∀ r, r ∈ live ↔ r ∈ value_refs b) ∧
    gauge b = total (sizes b) live + total (sizes b) (lost b);
  co_known : ∀ r, r ∈ value_refs b ∨ r ∈ bytes_refs b ∨ r ∈ lost b → is_Some (sizes b !! r);
  co_sizes : ∀ r n, sizes b !! r = Some n → 0 ≤ n;
  co_written : gauge b ≤ written b;
}.

Lemma size_of_nonneg b r : counted b → 0 ≤ size_of (sizes b) r.
Proof.
  intros Hc. unfold size_of. destruct (sizes b !! r) eqn:E; simpl; [|lia]. by eapply co_sizes.
Qed.

Lemma total_nonneg b l : counted b → 0 ≤ total (sizes b) l.
Proof.
  intros Hc. induction l as [|r l IH]; simpl; [lia|]. pose proof (size_of_nonneg b r Hc). lia.
Qed.

Lemma counted_nonneg b : counted b → 0 ≤ gauge b.
Proof.
  intros Hc. destruct (co_live _ Hc) as (live & _ & _ & ->).
  pose proof (total_nonneg b live Hc). pose proof (total_nonneg b (lost b) Hc). lia.
Qed.

Lemma unique_spec b r :
  r ∈ value_refs b → is_unique b r = true → r ∉ remove_one r (value_refs b) ∧ r ∉ bytes_refs b.
Proof.
  intros Hr Hu. unfold is_unique in Hu. apply bool_decide_eq_true in Hu.
  rewrite filter_app, length_app in Hu.
  rewrite (remove_one_Permutation r (value_refs b) Hr), filter_cons, decide_True in Hu by done. simpl in Hu.
  assert (∀ l, length (filter (λ x, x = r) l) = 0%nat → r ∉ l) as Hno.
  { intros l Hl Hin. apply length_zero_iff_nil in Hl.
    assert (r ∈ filter (λ x, x = r) l) as Hf by (by apply list_elem_of_filter).
    rewrite Hl in Hf. by apply elem_of_nil in Hf. }
  split; apply Hno; lia.
Qed.

Lemma remove_one_cons r x l : r ∈ l → x ∈ l ↔ x = r ∨ x ∈ remove_one r l.
Proof.
  induction l as [|y l IH]; intros Hr; [by apply elem_of_nil in Hr|]. simpl.
  case_decide as Hy; [subst; apply elem_of_cons|]. apply elem_of_cons in Hr as [?|Hr]; [done|].
  rewrite !elem_of_cons, (IH Hr). tauto.
Qed.

Lemma remove_one_elem r x l : NoDup l → x ∈ remove_one r l ↔ x ≠ r ∧ x ∈ l.
Proof.
  intros Hnd. destruct (decide (r ∈ l)) as [Hr|Hr].
  - pose proof (remove_one_Permutation r l Hr) as Hp. rewrite Hp in Hnd. apply NoDup_cons in Hnd as [Hn _].
    rewrite (remove_one_cons r x l Hr). split; [|naive_solver]. intros Hx. split; [by intros ->|by right].
  - assert (remove_one r l = l) as ->; [|naive_solver].
    clear Hnd. induction l as [|y l IH]; simpl; [done|]. apply not_elem_of_cons in Hr as [Hne Hr].
    rewrite decide_False by done. by rewrite IH.
Qed.

Lemma remove_one_sub r x l : x ∈ remove_one r l → x ∈ l.
Proof.
  induction l as [|y l IH]; simpl; [done|]. case_decide; intros Hx; [by right|].
  apply elem_of_cons in Hx as [->|Hx]; [by left|right; by apply IH].
Qed.

(** Dropping the last [Value] of a buffer. *)
Lemma live_drop sz r l live :
  r ∈ l → r ∉ remove_one r l → NoDup live → (∀ x, x ∈ live ↔ x ∈ l) →
  NoDup (remove_one r live) ∧ (∀ x, x ∈ remove_one r live ↔ x ∈ remove_one r l) ∧
  total sz live = size_of sz r + total sz (remove_one r live).
Proof.
  intros Hr Hno Hnd Hel. pose proof (remove_one_Permutation r live (proj2 (Hel r) Hr)) as Hp.
  split; [|split].
  - rewrite Hp in Hnd. by apply NoDup_cons in Hnd as [_ ?].
  - intros x. rewrite remove_one_elem, Hel by done. rewrite (remove_one_cons r x l Hr).
    split; [naive_solver|]. intros Hx. split; [by intros ->|by right].
  - by rewrite Hp at 1.
Qed.

Lemma counted_step b o :
  counted b → allowed b o → written (ref_step b o) ≤ i64_max → counted (ref_step b o).
Proof.
  intros Hc Hal Hw. pose proof (counted_nonneg b Hc) as Hg. pose proof Hc as [(live & Hnd & Hel & Hsum) Hk Hsz Hwr].
  destruct o as [r n|r|r|r|r]; simpl in *.
  - destruct Hal as [Hn Hnone].
    assert (∀ x, x ∈ value_refs b ∨ x ∈ bytes_refs b ∨ x ∈ lost b → x ≠ r) as Hne.
    { intros x Hx ->. destruct (Hk r Hx) as [? ?]. congruence. }
    rewrite i64_add_id by width. split; simpl.
    + exists (r :: live). split; [apply NoDup_cons; split; [|done]; intros Hin; apply Hel in Hin; by apply (Hne r); auto|].
      split; [intros x; rewrite !elem_of_cons, Hel; done|]. simpl. unfold size_of at 1. rewrite lookup_insert_eq. simpl.
      rewrite !total_insert; [lia| |].
      * intros Hin. by apply (Hne r); auto.
      * intros Hin. apply Hel in Hin. by apply (Hne r); auto.
    + intros x Hx. destruct (decide (x = r)) as [->|]; [by rewrite lookup_insert_eq|].
      rewrite lookup_insert_ne by done. apply Hk. rewrite elem_of_cons in Hx. naive_solver.
    + intros x m. destruct (decide (x = r)) as [->|]; [rewrite lookup_insert_eq; by intros [= <-]|].
      rewrite lookup_insert_ne by done. apply Hsz.
    + lia.
  - split; simpl; [|intros x; rewrite elem_of_cons; intros [[->|?]|?]; apply Hk; auto|done|done].
    exists live. split; [done|]. split; [|done]. intros x. rewrite elem_of_cons, Hel. naive_solver.
  - pose proof (remove_one_Permutation r _ Hal) as Hp. set (rest := remove_one r (value_refs b)) in *.
    assert (∀ x, x ∈ rest → x ∈ value_refs b) as Hsub by (intros x; apply remove_one_sub).
    destruct (is_unique b r) eqn:Hu; simpl.
    + destruct (unique_spec b r Hal Hu) as [Hno _].
      destruct (live_drop (sizes b) r (value_refs b) live) as (Hnd' & Hel' & Htot); [done..|].
      pose proof (size_of_nonneg b r Hc). pose proof (total_nonneg b (lost b) Hc).
      pose proof (total_nonneg b (remove_one r live) Hc).
      rewrite i64_sub_id by width. split; simpl; [|naive_solver|done|lia].
      exists (remove_one r live). split; [done|]. split; [done|]. lia.
    + case_bool_decide as Hno.
      * destruct (live_drop (sizes b) r (value_refs b) live) as (Hnd' & Hel' & Htot); [done..|].
        split; simpl; [|intros x; rewrite elem_of_cons; intros Hx; apply Hk; naive_solver|done|done].
        exists (remove_one r live). split; [done|]. split; [done|]. lia.
      * split; simpl; [|intros x Hx; apply Hk; naive_solver|done|done]. exists live. split; [done|]. split; [|done].
        intros x. rewrite Hel, (remove_one_cons r x _ Hal). fold rest. split; [|by right]. intros [->|?]; [|done].
        done.
  - split; simpl; [by exists live| |done|done]. intros x. rewrite elem_of_cons.
    intros [?|[[->|?]|?]]; apply Hk; naive_solver.
  - split; simpl; [by exists live| |done|done]. intros x [?|[?%remove_one_sub|?]]; apply Hk; auto.
Qed.

(** A run whose operations have the references they need. *)
Fixpoint allowed_run (b : Buffers) (ops : list RefOp) : Prop :=
  match ops with
  | [] => True
  | o :: ops' => allowed b o ∧ allowed_run (ref_step b o) ops'
  end.

Lemma written_mono b o : allowed b o → written b ≤ written (ref_step b o).
Proof. destruct o; simpl; lia. Qed.

Lemma written_run_mono b ops : allowed_run b ops → written b ≤ written (ref_run b ops).
Proof.
  revert b. induction ops as [|o ops IH]; intros b Hal; simpl in *; [done|]. destruct Hal as [Ho Hal].
  etrans; [by apply (written_mono b o)|]. by apply IH.
Qed.

Lemma counted_run b ops :
  counted b → allowed_run b ops → written (ref_run b ops) ≤ i64_max → counted (ref_run b ops).
Proof.
  revert b. induction ops as [|o ops IH]; intros b Hc Hal Hw; simpl in *; [done|]. destruct Hal as [Ho Hal].
  apply IH; [|done|done]. apply counted_step; [done|done|]. etrans; [by apply written_run_mono|done].
Qed.

Lemma allowed_run_app b ops1 ops2 :
  allowed_run b (ops1 ++ ops2) ↔ allowed_run b ops1 ∧ allowed_run (ref_run b ops1) ops2.
Proof. revert b. induction ops1 as [|o ops1 IH]; intros b; simpl; [tauto|]. rewrite IH. tauto. Qed.

Lemma no_buffers_counted : counted no_buffers.
Proof.
  split; simpl; [|intros r Hr; exfalso; set_solver|done|lia]. exists []. split; [constructor|]. split; [done|]. done.
Qed.

(** ** The store's operations *)

(** The buffer of a value, when it has one. *)
Definition buffer (v : Value) : list Z :=
  match value v with Some _ => [mod_revision v] | None => [] end.

(** The value in the item of a key, and its buffer. *)
Definition latest_held (s : Store) (key : ByteArray) : option Value :=
  l ← tree_map s !! key; latest_value <$> arcs s !! l.

Definition held (b : Buffers) (s : Store) (key : ByteArray) : list Z :=
  Z.add (epoch b) <$> from_option buffer [] (latest_held s key).

(** What [set] does with values once its guards let it through: the new value; the clone
    of the old one for the watchers and its drop from the item; the clones of the new one
    for the watchers and for [values_by_revision]; and in [notify_watchers] the clones of
    both buffers for the message and the drops of both values. *)
Definition set_refs (olds : list Z) (r : Z) (new : option ByteArray) : list RefOp :=
  let news := match new with Some _ => [r] | None => [] end in
  match new with Some v => [NewValue r (Z.of_nat (length v))] | None => [] end ++
  (CloneValue <$> olds) ++ (DropValue <$> olds) ++
  (CloneValue <$> news) ++ (CloneValue <$> news) ++
  (CloneBytes <$> news) ++ (DropValue <$> news) ++ (CloneBytes <$> olds) ++ (DropValue <$> olds).

(** What [set_for_replay] does with values: the new one, the drop of the old one from the
    item, and the clone for [values_by_revision]; nothing when a deletion finds no value. *)
Definition replay_refs (olds : list Z) (r : Z) (new : option ByteArray) : list RefOp :=
  let news := match new with Some _ => [r] | None => [] end in
  match new with Some v => [NewValue r (Z.of_nat (length v))] | None => [] end ++
  (DropValue <$> olds) ++ (CloneValue <$> news).

(** What [import_snapshot_data] does with each entry: the value, and its clone for
    [values_by_revision]. *)
Definition import_refs (e : Z) (es : list SnapshotEntry) : list RefOp :=
  es ≫= λ x, let r := e + se_mod_revision x in [NewValue r (Z.of_nat (length (se_value x))); CloneValue r].

(** The revisions begin anew after [n] of them. *)
Definition next_epoch (b : Buffers) (n : Z) : Buffers :=
  mkBuffers (gauge b) (sizes b) (value_refs b) (bytes_refs b) (written b) (lost b) (epoch b + n).

Section accounting.
Context `{!BlockSize}.
Implicit Types (s : Store) (b : Buffers).

(** The buffers in the first [n] slots, and those of the items. *)
Definition slots_held (s : Store) (n : Z) : list Z :=
  seqZ (start_offset (values_by_revision s)) n ≫= λ i,
    match Deque.get (values_by_revision s) i with Ret (Some v) => buffer v | _ => [] end.

Definition items_held (s : Store) : list Z :=
  omap (λ kl : ByteArray * loc, v ← latest_value <$> arcs s !! kl.2; _ ← value v; Some (mod_revision v))
    (map_to_list (tree_map s)).

(** What [compact] drops: the values in the slots before the revision. *)
Definition compact_refs (b : Buffers) (s : Store) (rev : Z) : list RefOp :=
  DropValue <$> (Z.add (epoch b) <$> slots_held s (rev - 1 - start_offset (values_by_revision s))).

(** What clearing the indexes and [values_by_revision] drops. *)
Definition clear_refs (b : Buffers) (s : Store) : list RefOp :=
  DropValue <$> (Z.add (epoch b) <$>
    (items_held s ++ slots_held s (current_revision s - start_offset (values_by_revision s)))).

(** The requests, and what becomes of the clones in messages and answers: [GHold] is a
    read of a value, whose answer has a clone of the buffer, [GRelease] the end of an
    answer or of a message. *)
Inductive gop :=
| GSet (key : ByteArray) (new : option ByteArray) (required : option SetRequired)
| GReplay (key : ByteArray) (new : option ByteArray)
| GCompact (rev : Z)
| GImport (es : list SnapshotEntry)
| GHold (r : Z)
| GRelease (r : Z).

Definition gstep (x : Store * Buffers) (o : gop) : outcome (Store * Buffers) :=
  let '(s, b) := x in
  match o with
  | GSet key new required =>
      r ← set s key new required;
      Ret (r.1, match r.2 with Ok rev => ref_run b (set_refs (held b s key) (epoch b + rev) new) | Err _ => b end)
  | GReplay key new =>
      s' ← set_for_replay s key new;
      Ret (s', ref_run b (replay_refs (held b s key) (epoch b + (current_revision s + 1)) new))
  | GCompact rev =>
      r ← compact s rev;
      Ret (r.1, match r.2 with Ok _ => ref_run b (compact_refs b s rev) | Err _ => b end)
  | GImport es =>
      s' ← import_snapshot_data s es;
      let b' := next_epoch (ref_run b (clear_refs b s)) (current_revision s) in
      Ret (s', ref_run b' (import_refs (epoch b') es))
  | GHold r =>
      Ret (s, if bool_decide (r ∈ value_refs b) then ref_run b [CloneValue r; CloneBytes r; DropValue r] else b)
  | GRelease r => Ret (s, if bool_decide (r ∈ bytes_refs b) then ref_step b (DropBytes r) else b)
  end.

Fixpoint grun (x : Store * Buffers) (ops : list gop) : outcome (Store * Buffers) :=
  match ops with
  | [] => Ret x
  | o :: ops' => y ← gstep x o; grun y ops'
  end.

(** ** What the store holds *)

Definition change_buffer (c : change) : option Z :=
  '(_, v) ← c; _ ← value v; Some (mod_revision v).

Definition slot_buffers (h : history) (c : Z) : list Z := omap change_buffer (drop (Z.to_nat c) h).

(** The buffer of the latest value of each key in [P]. *)
Definition latest_buffers (P : ByteArray → Prop) `{!∀ k, Decision (P k)} (h : history) : list Z :=
  omap (λ c, '(k, v) ← c; _ ← value v; if decide (P k ∧ latest_of h k = Some v) then Some (mod_revision v) else None) h.

Definition all_keys : ByteArray → Prop := λ _, True.

#[export] Instance all_keys_dec k : Decision (all_keys k).
Proof. unfold all_keys. apply _. Defined.

(** The store and its buffers: a [Value] for each slot and for each item, and the buffers
    known are those of the revisions so far. *)
Record accounts s h b : Prop := {
  ac_refs : value_refs b ≡ₚ Z.add (epoch b) <$> (slot_buffers h (first_index s) ++ latest_buffers all_keys h);
  ac_counted : counted b;
  ac_sizes : ∀ r, is_Some (sizes b !! r) → r ≤ epoch b + Z.of_nat (length h);
  ac_lengths : ∀ k v x, Some (k, v) ∈ h → value v = Some x →
    sizes b !! (epoch b + mod_revision v) = Some (Z.of_nat (length x));
}.

Lemma omap_none {A B} (f : A → option B) (l : list A) : (∀ x, x ∈ l → f x = None) → omap f l = [].
Proof.
  induction l as [|x l IH]; intros Hf; [done|]. csimpl. rewrite (Hf x) by (by left).
  apply IH. intros y Hy. apply Hf. by right.
Qed.

Lemma omap_same {A B} (f g : A → option B) (l : list A) : (∀ x, x ∈ l → f x = g x) → omap f l = omap g l.
Proof.
  induction l as [|x l IH]; intros Hf; [done|]. csimpl. rewrite (Hf x), IH; [done| |by left].
  intros y Hy. apply Hf. by right.
Qed.

Lemma omap_split {A B} (f f1 f2 : A → option B) (l : list A) :
  (∀ x, f x = f1 x ∧ f2 x = None ∨ f x = f2 x ∧ f1 x = None) → omap f l ≡ₚ omap f1 l ++ omap f2 l.
Proof.
  intros Hf. induction l as [|x l IH]; csimpl; [done|].
  destruct (Hf x) as [[-> ->]|[-> ->]].
  - destruct (f1 x); simpl; by rewrite IH.
  - destruct (f2 x); simpl; rewrite IH; [|done]. by rewrite Permutation_middle.
Qed.

(** The buffers of the items: that of one key and those of the others. *)
Lemma latest_of_key h k : hist_ok h → latest_buffers (λ k', k' = k) h = buffer (latest_or_null h k).
Proof.
  intros Hok. unfold latest_buffers, latest_or_null. destruct (latest_of h k) as [v|] eqn:El; simpl.
  - destruct (latest_of_lookup h k v Hok El) as [Hm Hi]. set (i := Z.to_nat (mod_revision v - 1)) in *.
    rewrite <- (take_drop_middle h i _ Hi), omap_app. csimpl.
    rewrite omap_none, app_nil_l.
    + rewrite (take_drop_middle h i _ Hi). unfold buffer. destruct (value v); csimpl.
      * rewrite decide_True by done. f_equal. apply omap_none.
        intros [[k' w]|] Hin; [|done]. simpl. destruct (value w); simpl; [|done]. apply decide_False.
        intros [-> Hw]. apply list_elem_of_lookup in Hin as [j Hj]. rewrite lookup_drop in Hj.
        apply Hok in Hj. assert (w = v) as -> by congruence. lia.
      * apply omap_none. intros [[k' w]|] Hin; [|done]. simpl. destruct (value w); simpl; [|done].
        apply decide_False. intros [-> Hw]. apply list_elem_of_lookup in Hin as [j Hj].
        rewrite lookup_drop in Hj. apply Hok in Hj. assert (w = v) as -> by congruence. lia.
    + rewrite (take_drop_middle h i _ Hi). intros [[k' w]|] Hin; [|done]. simpl. destruct (value w); simpl; [|done].
      apply decide_False. intros [-> Hw]. apply list_elem_of_lookup in Hin as [j [Hj Hlt]%lookup_take_Some].
      apply Hok in Hj. assert (w = v) as -> by congruence. lia.
  - apply omap_none. intros [[k' w]|] Hin; [|done]. simpl. destruct (value w); simpl; [|done].
    apply decide_False. intros [-> Hw]. congruence.
Qed.

Lemma latest_split h k :
  hist_ok h → latest_buffers all_keys h ≡ₚ buffer (latest_or_null h k) ++ latest_buffers (λ k', k' ≠ k) h.
Proof.
  intros Hok. rewrite <- latest_of_key by done. apply omap_split. intros [[k' v]|]; simpl; [|by left].
  destruct (value v); simpl; [|by left]. unfold all_keys.
  destruct (decide (k' = k)); repeat case_decide; naive_solver.
Qed.

Lemma latest_after_write h k v :
  hist_ok h → mod_revision v = Z.of_nat (length h) + 1 →
  latest_buffers all_keys (h ++ [Some (k, v)]) = latest_buffers (λ k', k' ≠ k) h ++ buffer v.
Proof.
  intros Hok Hm. unfold latest_buffers. rewrite omap_app. f_equal.
  - apply omap_same. intros [[k' w]|] Hin; simpl; [|done]. destruct (value w); simpl; [|done].
    unfold all_keys. destruct (decide (k' = k)) as [->|Hne].
    + rewrite (decide_False (P:=k ≠ k ∧ _)) by naive_solver. apply decide_False. intros [_ Hw].
      rewrite latest_of_snoc_eq in Hw. injection Hw as ->.
      apply list_elem_of_lookup in Hin as [j Hj]. pose proof (Hok _ _ _ Hj). apply lookup_lt_Some in Hj. lia.
    + rewrite latest_of_snoc_ne by done. repeat case_decide; naive_solver.
  - csimpl. unfold buffer. destruct (value v); simpl; [|done]. rewrite latest_of_snoc_eq.
    by rewrite decide_True by done.
Qed.

(** ** The operations keep the account *)

Lemma remove_one_head r l : remove_one r (r :: l) = l.
Proof. simpl. by rewrite decide_True. Qed.

Lemma remove_one_other r x l : x ≠ r → remove_one r (x :: l) = x :: remove_one r l.
Proof. intros. simpl. by rewrite decide_False. Qed.

Lemma remove_one_perm r l l' : l ≡ₚ r :: l' → remove_one r l ≡ₚ l'.
Proof.
  intros Hp. assert (r ∈ l) as Hr by (rewrite Hp; by left).
  apply (Permutation_cons_inv (a:=r)). by rewrite <- remove_one_Permutation.
Qed.

(** A write: its value gets two holders, and the old value loses the item. *)
Lemma set_refs_run b olds rev new refs :
  let news := match new with Some _ => [rev] | None => [] end in
  (length olds ≤ 1)%nat → value_refs b ≡ₚ olds ++ refs → sizes b !! rev = None → (∀ r, r ∈ olds → r ≠ rev) →
  allowed_run b (set_refs olds rev new) ∧
  value_refs (ref_run b (set_refs olds rev new)) ≡ₚ news ++ news ++ refs ∧
  sizes (ref_run b (set_refs olds rev new)) =
    match new with Some v => <[rev := Z.of_nat (length v)]> (sizes b) | None => sizes b end ∧
  written (ref_run b (set_refs olds rev new)) =
    written b + Z.of_nat (from_option length 0%nat new).
Proof.
  intros news Hone Hp Hnone Hne. unfold set_refs. subst news. destruct olds as [|o [|]]; [| |simpl in Hone; lia].
  - destruct new as [v|]; simpl; rewrite ?decide_True by done.
    + split_and!; [lia|done|by left|by right; left|by left; left|by left|done|by rewrite Hp|done|done].
    + split; [done|]. split; [done|]. split; [done|]. lia.
  - assert (o ≠ rev) as Hor by (apply Hne; by left).
    assert (o ∈ value_refs b) as Hin by (rewrite Hp; by left).
    pose proof (remove_one_perm o _ _ Hp) as Hrem.
    destruct new as [v|]; simpl; rewrite ?decide_True by done; simpl;
      rewrite ?(decide_False (P:=rev = o)) by congruence.
    + split_and!; try done; try lia; try set_solver.
    + split_and!; try done; try lia; try set_solver.
Qed.

Lemma replay_refs_run b olds rev new refs :
  let news := match new with Some _ => [rev] | None => [] end in
  (length olds ≤ 1)%nat → value_refs b ≡ₚ olds ++ refs → sizes b !! rev = None → (∀ r, r ∈ olds → r ≠ rev) →
  allowed_run b (replay_refs olds rev new) ∧
  value_refs (ref_run b (replay_refs olds rev new)) ≡ₚ news ++ news ++ refs ∧
  sizes (ref_run b (replay_refs olds rev new)) =
    match new with Some v => <[rev := Z.of_nat (length v)]> (sizes b) | None => sizes b end ∧
  written (ref_run b (replay_refs olds rev new)) = written b + Z.of_nat (from_option length 0%nat new).
Proof.
  intros news Hone Hp Hnone Hne. unfold replay_refs. subst news. destruct olds as [|o [|]]; [| |simpl in Hone; lia].
  - destruct new as [v|]; simpl.
    + split_and!; [lia|done|by left|done|by rewrite Hp|done|done].
    + split; [done|]. split; [done|]. split; [done|]. lia.
  - assert (o ≠ rev) as Hor by (apply Hne; by left).
    assert (o ∈ value_refs b) as Hin by (rewrite Hp; by left).
    pose proof (remove_one_perm o _ _ Hp) as Hrem.
    destruct new as [v|]; simpl; rewrite ?(decide_False (P:=rev = o)) by congruence; split_and!; try done; try lia; set_solver.
Qed.

(** Dropping the values of a list. *)
Lemma drops_run b ds refs :
  value_refs b ≡ₚ ds ++ refs →
  allowed_run b (DropValue <$> ds) ∧ value_refs (ref_run b (DropValue <$> ds)) ≡ₚ refs ∧
  sizes (ref_run b (DropValue <$> ds)) = sizes b ∧ written (ref_run b (DropValue <$> ds)) = written b.
Proof.
  revert b. induction ds as [|r ds IH]; intros b Hp; simpl in *; [done|].
  assert (value_refs (ref_step b (DropValue r)) ≡ₚ ds ++ refs) as Hp' by (simpl; by apply remove_one_perm).
  destruct (IH (ref_step b (DropValue r)) Hp') as (Hal & Hv & Hsz & Hw).
  split; [split; [rewrite Hp; by left|done]|done].
Qed.

Lemma epoch_run b ops : epoch (ref_run b ops) = epoch b.
Proof. revert b. induction ops as [|o ops IH]; intros b; [done|]. simpl. rewrite IH. by destruct o. Qed.

Lemma latest_held_buffer s h key :
  store_repr s h → from_option buffer [] (latest_held s key) = buffer (latest_or_null h key).
Proof.
  intros Hr. unfold latest_held. destruct (tree_map s !! key) as [l|] eqn:E; simpl.
  - destruct (sr_items _ _ Hr key l E) as (it & -> & Hit). simpl. by rewrite (ir_latest _ _ _ _ Hit).
  - unfold latest_or_null. by rewrite (unknown_latest _ _ _ Hr E).
Qed.

Lemma held_old b s h key r :
  store_repr s h → r ∈ held b s key → r ≤ epoch b + Z.of_nat (length h).
Proof.
  intros Hr. unfold held. rewrite (latest_held_buffer s h key Hr). intros (m & -> & Hm)%list_elem_of_fmap.
  unfold buffer, latest_or_null in Hm. destruct (latest_of h key) as [v|] eqn:E; simpl in Hm; [|by apply elem_of_nil in Hm].
  destruct (value v); [|by apply elem_of_nil in Hm]. apply list_elem_of_singleton in Hm as ->.
  destruct (latest_of_lookup h key v (sr_hist _ _ Hr) E) as [[_ ?] _]. lia.
Qed.

Lemma held_one b s key : (length (held b s key) ≤ 1)%nat.
Proof.
  unfold held. rewrite length_fmap. destruct (latest_held s key) as [v|]; simpl; [|lia].
  unfold buffer. destruct (value v); simpl; lia.
Qed.

(** The bytes an operation brings, and the revisions a store can have after it. *)
Definition op_bytes (o : gop) : Z :=
  match o with
  | GSet _ (Some v) _ | GReplay _ (Some v) => Z.of_nat (length v)
  | GImport es => foldr (λ x n, Z.of_nat (length (se_value x)) + n) 0 es
  | _ => 0
  end.

Lemma op_bytes_nonneg o : 0 ≤ op_bytes o.
Proof.
  destruct o as [? [?|] ?|? [?|]| |es| |]; simpl; try lia. clear. induction es as [|e es IH]; simpl in *; lia.
Qed.

Definition op_revisions (o : gop) : Z := match o with GImport es => max_mod_revision es | _ => 0 end.

Definition op_ok (o : gop) : Prop := match o with GImport es => snapshot_ok es | _ => True end.

(** The buffers of a store after a write: those of the operations [refs], which leave the
    new value with two holders and take the old one from the item. *)
Lemma write_accounts s h b key new refs s' :
  let r := epoch b + (Z.of_nat (length h) + 1) in
  store_repr s h → accounts s h b → first_index s' = first_index s →
  (∀ rest, let news := match new with Some _ => [r] | None => [] end in
     (length (held b s key) ≤ 1)%nat → value_refs b ≡ₚ held b s key ++ rest → sizes b !! r = None →
     (∀ x, x ∈ held b s key → x ≠ r) →
     allowed_run b refs ∧ value_refs (ref_run b refs) ≡ₚ news ++ news ++ rest ∧
     sizes (ref_run b refs) = match new with Some v => <[r := Z.of_nat (length v)]> (sizes b) | None => sizes b end ∧
     written (ref_run b refs) = written b + Z.of_nat (from_option length 0%nat new)) →
  written b + Z.of_nat (from_option length 0%nat new) ≤ i64_max →
  accounts s' (hist_write h key new) (ref_run b refs) ∧
  written (ref_run b refs) = written b + Z.of_nat (from_option length 0%nat new).
Proof.
  intros r Hr [Hrefs Hc Hsz Hlen] Hf Hrun Hw. pose proof (sr_hist _ _ Hr) as Hok.
  unfold hist_write. set (rev := Z.of_nat (length h) + 1) in *. set (v := revised (latest_or_null h key) rev new).
  rewrite (latest_split h key Hok), <- (latest_held_buffer s h key Hr), Permutation_app_swap_app, fmap_app in Hrefs.
  destruct (Hrun _ (held_one b s key) Hrefs) as (Hal & Hv & Hs & Hwr).
  - destruct (sizes b !! r) eqn:E; [|done]. pose proof (Hsz r (mk_is_Some _ _ E)). lia.
  - intros x Hx%(held_old b s h); [lia|done].
  - split; [|done]. assert (buffer v = match new with Some _ => [rev] | None => [] end) as Hbuf by (by destruct new).
    split; rewrite ?epoch_run.
    + rewrite Hv, latest_after_write by done. rewrite Hbuf, Hf. unfold slot_buffers.
      pose proof (sr_start _ _ Hr). rewrite drop_app_le, omap_app by lia.
      assert (omap change_buffer [Some (key, v)] = match new with Some _ => [rev] | None => [] end) as -> by (by destruct new).
      rewrite !fmap_app. destruct new; simpl; [|by rewrite !app_nil_r]. fold r.
      rewrite !app_assoc, <- (Permutation_cons_append _ r), <- !app_assoc. simpl. by rewrite <- Permutation_middle.
    + apply counted_run; [done|done|]. rewrite Hwr. exact Hw.
    + intros x. rewrite Hs, length_app. simpl. destruct new as [y|].
      * destruct (decide (x = r)) as [->|Hne]; [lia|]. rewrite lookup_insert_ne by done. intros Hr0%Hsz. lia.
      * intros Hr0%Hsz. lia.
    + intros k w x [Hin|Hin]%elem_of_app Hx.
      * assert (epoch b + mod_revision w ≠ r) as Hne.
        { apply list_elem_of_lookup in Hin as [i Hi]. pose proof (Hok _ _ _ Hi). apply lookup_lt_Some in Hi. lia. }
        rewrite Hs. destruct new; [rewrite lookup_insert_ne by done|]; by eapply Hlen.
      * apply list_elem_of_singleton in Hin as [= -> ->]. simpl in *. subst new. rewrite Hs. apply lookup_insert_eq.
Qed.

Lemma accounts_same s h b s' : first_index s' = first_index s → accounts s h b → accounts s' h b.
Proof. intros Hf [? ? ? ?]. split; by rewrite ?Hf. Qed.

(** What an operation does to the account. *)
Definition keeps_account (s : Store) (h : history) (b : Buffers) (o : gop) : Prop :=
  ∃ s' h' b', gstep (s, b) o = Ret (s', b') ∧ store_repr s' h' ∧ accounts s' h' b' ∧
    Z.of_nat (length h') ≤ Z.max (Z.of_nat (length h) + 1) (op_revisions o) ∧ written b' ≤ written b + op_bytes o.

Lemma gset_accounts s h b key new required :
  store_repr s h → accounts s h b → Z.of_nat (length h) < i64_max →
  written b + op_bytes (GSet key new required) ≤ i64_max → keeps_account s h b (GSet key new required).
Proof.
  intros Hr Ha Hlt Hw.
  assert (op_bytes (GSet key new required) = Z.of_nat (from_option length 0%nat new)) as Hob by (by destruct new).
  destruct (set_spec s h key new required Hr Hlt) as (s' & Hset & Hr' & Hf & _).
  unfold keeps_account, gstep. rewrite Hset, bind_ret. unfold hist_set in *. destruct (guard h key new required); simpl in *.
  { exists s', h, b. split; [done|]. split; [done|]. split; [by eapply accounts_same|]. split; lia. }
  destruct (write_accounts s h b key new (set_refs (held b s key) (epoch b + (Z.of_nat (length h) + 1)) new) s' Hr Ha Hf)
    as [Ha' Hw']; [intros rest; apply set_refs_run|lia|].
  eexists s', _, _. split; [done|]. split; [exact Hr'|]. split; [exact Ha'|].
  unfold hist_write. rewrite length_app. simpl. lia.
Qed.

Lemma greplay_accounts s h b key new :
  store_repr s h → accounts s h b → Z.of_nat (length h) < i64_max →
  written b + op_bytes (GReplay key new) ≤ i64_max → keeps_account s h b (GReplay key new).
Proof.
  intros Hr Ha Hlt Hw.
  assert (op_bytes (GReplay key new) = Z.of_nat (from_option length 0%nat new)) as Hob by (by destruct new).
  destruct (set_for_replay_spec s h key new Hr Hlt) as (s' & Hset & Hr' & _ & Hf).
  unfold keeps_account, gstep. rewrite Hset, bind_ret, (repr_current _ _ Hr). unfold hist_replay in Hr'.
  destruct (write_accounts s h b key new (replay_refs (held b s key) (epoch b + (Z.of_nat (length h) + 1)) new) s' Hr Ha Hf)
    as [Ha' Hwb]; [intros rest; apply replay_refs_run|lia|].
  destruct (value (latest_or_null h key)) eqn:Ev, new as [v|];
    try (eexists s', _, _; split; [done|]; split; [exact Hr'|]; split; [exact Ha'|];
         split; [unfold hist_write; rewrite length_app; simpl; lia|lia]).
  exists s', h, b. unfold replay_refs, held. rewrite (latest_held_buffer s h key Hr). unfold buffer. rewrite Ev.
  split; [done|]. split; [done|]. split; [by eapply accounts_same|]. simpl. split; lia.
Qed.

(** The buffers in the first slots. *)
Lemma slots_held_spec s h (n : nat) :
  store_repr s h → first_index s + Z.of_nat n ≤ Z.of_nat (length h) →
  slots_held s (Z.of_nat n) = omap change_buffer (take n (drop (Z.to_nat (first_index s)) h)).
Proof.
  intros Hr. unfold slots_held. change (start_offset (values_by_revision s)) with (first_index s).
  pose proof (sr_start _ _ Hr) as Hst. induction n as [|n IH]; intros Hle; [done|].
  rewrite Nat2Z.inj_succ, <- Z.add_1_r, seqZ_app, bind_app, IH by lia. simpl. rewrite app_nil_r.
  destruct (lookup_lt_is_Some_2 h (Z.to_nat (first_index s) + n)) as [c Hc]; [lia|].
  rewrite (take_S_r _ n c) by (by rewrite lookup_drop). rewrite omap_app. f_equal.
  unfold Deque.get. rewrite (dq_get_with _ _ _ _ (sr_values _ _ Hr)). unfold ADeque.get. simpl.
  change (start_offset (values_by_revision s)) with (first_index s). rewrite (proj2 (Z.ltb_ge _ _)) by lia.
  rewrite lookup_drop, list_lookup_fmap.
  match goal with |- context [h !! ?i] => replace i with (Z.to_nat (first_index s) + n)%nat by lia end.
  rewrite Hc. simpl. destruct c as [[k v]|]; simpl; [|done]. unfold buffer. by destruct (value v).
Qed.

(** Dropping some of what the store holds. *)
Lemma drop_accounts b ds rest :
  value_refs b ≡ₚ Z.add (epoch b) <$> (ds ++ rest) → counted b → written b ≤ i64_max →
  let b' := ref_run b (DropValue <$> (Z.add (epoch b) <$> ds)) in
  value_refs b' ≡ₚ Z.add (epoch b) <$> rest ∧ counted b' ∧ sizes b' = sizes b ∧ written b' = written b.
Proof.
  rewrite fmap_app. intros Hrefs Hc Hw. destruct (drops_run b _ _ Hrefs) as (Hal & Hv & Hs & Hwr).
  split; [done|]. split; [|done]. apply counted_run; [done|done|by rewrite Hwr].
Qed.

Lemma gcompact_accounts s h b rev :
  store_repr s h → accounts s h b → written b ≤ i64_max → keeps_account s h b (GCompact rev).
Proof.
  intros Hr Ha Hw. unfold keeps_account, gstep.
  destruct (decide (first_index s < rev ≤ Z.of_nat (length h))) as [Hrev|Hrev].
  - destruct (compact_ok_spec s h rev Hr Hrev) as (s' & Hcp & Hr' & Hf & _). rewrite Hcp, bind_ret.
    pose proof (sr_start _ _ Hr). destruct Ha as [Hrefs Hc Hsz Hlen]. set (n := Z.to_nat (rev - 1 - first_index s)).
    assert (slot_buffers h (first_index s) =
      omap change_buffer (take n (drop (Z.to_nat (first_index s)) h)) ++ slot_buffers h (rev - 1)) as Hsplit.
    { unfold slot_buffers. rewrite <- omap_app. f_equal.
      rewrite <- (take_drop n (drop (Z.to_nat (first_index s)) h)) at 1. rewrite drop_drop. do 2 f_equal. lia. }
    rewrite Hsplit, <- app_assoc in Hrefs. destruct (drop_accounts b _ _ Hrefs Hc Hw) as (Hv & Hc' & Hs & Hwr).
    unfold compact_refs. change (start_offset (values_by_revision s)) with (first_index s).
    replace (rev - 1 - first_index s) with (Z.of_nat n) by lia. rewrite (slots_held_spec s h n Hr) by lia.
    cbn [fst snd]. eexists s', h, _. split; [done|]. split; [done|]. split; [|simpl; lia].
    split; rewrite ?epoch_run, ?Hs; [rewrite Hf; exact Hv|done|done|done].
  - destruct (compact_err_spec s h rev Hr) as [e He]; [lia|]. rewrite He, bind_ret. exists s, h, b.
    split; [done|]. split; [done|]. split; [done|]. simpl. lia.
Qed.

(** ** An import *)

Lemma NoDup_omap {A B} (f : A → option B) (l : list A) :
  NoDup l → (∀ x y r, x ∈ l → y ∈ l → f x = Some r → f y = Some r → x = y) → NoDup (omap f l).
Proof.
  induction 1 as [|x l Hx Hnd IH]; intros Hf; csimpl; [constructor|].
  assert (NoDup (omap f l)) as Hl by (apply IH; intros y z r Hy Hz; apply Hf; by right).
  destruct (f x) as [r|] eqn:E; [|done]. constructor; [|done]. intros (y & Hy & Hr)%list_elem_of_omap.
  apply Hx. rewrite (Hf x y r); [done|by left|by right|done|done].
Qed.

(** Each revision holds one change. *)
Lemma change_unique h k v k' v' :
  hist_ok h → Some (k, v) ∈ h → Some (k', v') ∈ h → mod_revision v = mod_revision v' → k = k' ∧ v = v'.
Proof.
  intros Hok [i Hi]%list_elem_of_lookup [j Hj]%list_elem_of_lookup Heq.
  pose proof (Hok _ _ _ Hi). pose proof (Hok _ _ _ Hj). assert (i = j) as -> by lia. by simplify_eq.
Qed.

Lemma changes_NoDup (f : change → option Z) h :
  (∀ c r, f c = Some r → ∃ k v, c = Some (k, v) ∧ r = mod_revision v) → hist_ok h → NoDup (omap f h).
Proof.
  intros Hf Hok. assert (StronglySorted Z.lt (id <$> omap f h)) as Hs.
  { apply omap_revs_sorted; [|done]. intros c r Hc. destruct (Hf c r Hc) as (k & v & -> & ->). by eauto. }
  rewrite list_fmap_id in Hs. clear Hok. induction Hs as [|x l Hs IH Hx]; constructor; [|done].
  intros Hin. rewrite Forall_forall in Hx. specialize (Hx x Hin). lia.
Qed.

Lemma latest_buffers_elem h r :
  r ∈ latest_buffers all_keys h ↔ ∃ k v, Some (k, v) ∈ h ∧ is_Some (value v) ∧ latest_of h k = Some v ∧ r = mod_revision v.
Proof.
  unfold latest_buffers, all_keys. rewrite list_elem_of_omap. split.
  - intros ([[k v]|] & Hin & Hx); [|done]. simpl in Hx. destruct (value v) eqn:E; simpl in Hx; [|done].
    case_decide as Hd; [|done]. injection Hx as <-. exists k, v. by destruct Hd.
  - intros (k & v & Hin & [x Hx] & Hl & ->). exists (Some (k, v)). split; [done|]. simpl. rewrite Hx. simpl.
    by rewrite decide_True.
Qed.

Lemma slot_buffers_elem h r :
  r ∈ slot_buffers h 0 ↔ ∃ k v, Some (k, v) ∈ h ∧ is_Some (value v) ∧ r = mod_revision v.
Proof.
  unfold slot_buffers. rewrite drop_0, list_elem_of_omap. split.
  - intros ([[k v]|] & Hin & Hx); [|done]. simpl in Hx. destruct (value v) eqn:E; [|done]. injection Hx as <-. eauto.
  - intros (k & v & Hin & [x Hx] & ->). exists (Some (k, v)). split; [done|]. simpl. by rewrite Hx.
Qed.

Lemma items_held_spec s h : store_repr s h → items_held s ≡ₚ latest_buffers all_keys h.
Proof.
  intros Hr. pose proof (sr_hist _ _ Hr) as Hok.
  assert (∀ k l r, tree_map s !! k = Some l →
    (v ← latest_value <$> arcs s !! l; _ ← value v; Some (mod_revision v)) = Some r ↔
    ∃ v, latest_of h k = Some v ∧ is_Some (value v) ∧ r = mod_revision v) as Hitem.
  { intros k l r Hk. destruct (sr_items _ _ Hr k l Hk) as (it & -> & Hit). simpl. rewrite (ir_latest _ _ _ _ Hit).
    unfold latest_or_null. destruct (latest_of h k) as [v|]; simpl; [|split; [done|by intros (v & ? & _)]].
    destruct (value v) eqn:E; simpl; split.
    - intros [= <-]. by exists v.
    - by intros (? & [= <-] & _ & ->).
    - done.
    - intros (? & [= <-] & [y Hy] & _). congruence. }
  apply NoDup_Permutation.
  - apply NoDup_omap; [apply NoDup_map_to_list|]. intros [k l] [k' l'] r Hk%elem_of_map_to_list Hk'%elem_of_map_to_list.
    simpl. intros (v & Hv & _ & ->)%(Hitem k) (v' & Hv' & _ & Heq)%(Hitem k'); [|done..].
    destruct (change_unique h k v k' v') as [-> _]; [done|..|done|by simplify_eq].
    + destruct (latest_of_lookup h k v Hok Hv) as [_ Hi]. by eapply list_elem_of_lookup_2.
    + destruct (latest_of_lookup h k' v' Hok Hv') as [_ Hi]. by eapply list_elem_of_lookup_2.
  - apply changes_NoDup; [|done]. intros [[k v]|] r; simpl; [|done]. destruct (value v); simpl; [|done].
    case_decide; [|done]. intros [= <-]. eauto.
  - intros r. unfold items_held. rewrite latest_buffers_elem, list_elem_of_omap. split.
    + intros ([k l] & Hk%elem_of_map_to_list & (v & Hv & Hx & ->)%(Hitem k)); [|done].
      destruct (latest_of_lookup h k v Hok Hv) as [_ Hi]. exists k, v. split; [by eapply list_elem_of_lookup_2|done].
    + intros (k & v & _ & Hx & Hv & ->). destruct (sr_known _ _ Hr k v Hv) as [l Hl]. exists (k, l).
      split; [by apply elem_of_map_to_list|]. apply (Hitem k); [done|]. by eauto.
Qed.

(** The values an import brings are all it holds, each in its slot and in its item. *)
Lemma imported_change es k v :
  snapshot_ok es → Some (k, v) ∈ imported_history es ↔ ∃ e, e ∈ es ∧ k = se_key e ∧ v = entry_value e.
Proof.
  intros Hok. pose proof (holes_for_start es Hok) as Hh. rewrite <- elem_of_events. unfold imported_history.
  destruct (decide (k ∈ se_key <$> es)) as [(e & -> & He)%list_elem_of_fmap|Hout].
  - rewrite (events_fill_entry _ _ e) by (done || apply events_holes). rewrite list_elem_of_singleton. split; [by eauto|].
    intros (e' & He' & Hk & ->). pose proof Hok as (Hnd & _). f_equal.
    apply list_elem_of_lookup in He as [i Hi], He' as [j Hj].
    assert (i = j) as ->; [|by simplify_eq].
    apply (NoDup_lookup _ i j (se_key e) Hnd); rewrite list_lookup_fmap; [by rewrite Hi|by rewrite Hj, Hk].
  - rewrite events_fill_other by done. rewrite events_holes. split; [by intros ?%elem_of_nil|].
    intros (e & He & -> & _). destruct Hout. by apply list_elem_of_fmap_2.
Qed.

Lemma imported_buffers es :
  snapshot_ok es → hist_ok (imported_history es) →
  slot_buffers (imported_history es) 0 ≡ₚ se_mod_revision <$> es ∧
  latest_buffers all_keys (imported_history es) ≡ₚ se_mod_revision <$> es.
Proof.
  intros Hok Hh. pose proof Hok as (_ & Hnd & _).
  split; (apply NoDup_Permutation; [apply changes_NoDup; [|done]|done|]).
  1,3: intros [[k v]|] r; simpl; [|done]; destruct (value v); simpl; [|done]; try case_decide; try done;
       intros [= <-]; eauto.
  - intros r. rewrite slot_buffers_elem, list_elem_of_fmap. split.
    + intros (k & v & (e & He & -> & ->)%imported_change & _ & ->); [|done]. by exists e.
    + intros (e & -> & He). exists (se_key e), (entry_value e). split; [apply imported_change; [done|by eauto]|by eauto].
  - intros r. rewrite latest_buffers_elem, list_elem_of_fmap. split.
    + intros (k & v & (e & He & -> & ->)%imported_change & _ & _ & ->); [|done]. by exists e.
    + intros (e & -> & He). exists (se_key e), (entry_value e). split; [apply imported_change; [done|by eauto]|].
      split; [by eauto|]. split; [|done]. apply imported_latest; [done|]. by eauto.
Qed.

Lemma import_refs_run b e es :
  NoDup (se_mod_revision <$> es) → (∀ x, x ∈ es → sizes b !! (e + se_mod_revision x) = None) →
  let names := (λ x, e + se_mod_revision x) <$> es in
  let b' := ref_run b (import_refs e es) in
  allowed_run b (import_refs e es) ∧ value_refs b' ≡ₚ names ++ names ++ value_refs b ∧
  (∀ x, x ∈ es → sizes b' !! (e + se_mod_revision x) = Some (Z.of_nat (length (se_value x)))) ∧
  (∀ r, r ∉ names → sizes b' !! r = sizes b !! r) ∧ written b' = written b + op_bytes (GImport es).
Proof.
  revert b. induction es as [|a es IH]; intros b Hnd Hfree; cbv zeta.
  { csimpl. split; [done|]. split; [done|]. split; [by intros x ?%elem_of_nil|]. split; [done|lia]. }
  rewrite !fmap_cons in *. apply NoDup_cons in Hnd as [Ha Hnd]. set (r := e + se_mod_revision a) in *.
  set (b1 := ref_run b [NewValue r (Z.of_nat (length (se_value a))); CloneValue r]).
  assert (∀ x, x ∈ es → e + se_mod_revision x ≠ r) as Hne.
  { intros x Hx Heq. apply Ha. replace (se_mod_revision a) with (se_mod_revision x) by lia. by apply list_elem_of_fmap_2. }
  destruct (IH b1 Hnd) as (Hal & Hv & Hs & Ho & Hw).
  { intros x Hx. simpl. rewrite lookup_insert_ne by (symmetry; by apply Hne). apply Hfree. by right. }
  assert (ref_run b (import_refs e (a :: es)) = ref_run b1 (import_refs e es)) as -> by reflexivity.
  assert (r ∉ (λ x, e + se_mod_revision x) <$> es) as Hr by (intros (x & Heq & Hx)%list_elem_of_fmap; by apply (Hne x)).
  split; [|split; [|split; [|split]]].
  - simpl. split; [split; [lia|apply Hfree; by left]|]. split; [by left|]. exact Hal.
  - rewrite Hv. simpl. rewrite !Permutation_middle. done.
  - intros x [->|Hx]%elem_of_cons; [|by apply Hs]. rewrite Ho by done. apply lookup_insert_eq.
  - intros x [Hx1 Hx2]%not_elem_of_cons. rewrite Ho by done. simpl. by rewrite lookup_insert_ne.
  - rewrite Hw. simpl. lia.
Qed.

Lemma gimport_accounts s h b es :
  store_repr s h → accounts s h b → snapshot_ok es → written b + op_bytes (GImport es) ≤ i64_max →
  keeps_account s h b (GImport es).
Proof.
  intros Hr [Hrefs Hc Hsz _] Hok Hw. pose proof (sr_start _ _ Hr) as Hst.
  destruct (import_repr s es Hok) as (s' & Himp & Hr' & Hf'). unfold keeps_account, gstep. rewrite Himp, bind_ret.
  unfold clear_refs. change (start_offset (values_by_revision s)) with (first_index s). rewrite (repr_current _ _ Hr).
  set (n := Z.to_nat (Z.of_nat (length h) - first_index s)).
  replace (Z.of_nat (length h) - first_index s) with (Z.of_nat n) by lia.
  rewrite (slots_held_spec s h n Hr) by lia. rewrite firstn_all2 by (rewrite length_drop; lia).
  fold (slot_buffers h (first_index s)). set (ds := items_held s ++ slot_buffers h (first_index s)).
  assert (value_refs b ≡ₚ Z.add (epoch b) <$> (ds ++ [])) as Hall.
  { rewrite app_nil_r. unfold ds. rewrite (items_held_spec s h Hr), Permutation_app_comm. exact Hrefs. }
  pose proof (op_bytes_nonneg (GImport es)) as Hpos.
  destruct (drop_accounts b ds [] Hall Hc) as (Hv & Hc1 & Hs1 & Hw1); [lia|].
  set (b1 := ref_run b (DropValue <$> (Z.add (epoch b) <$> ds))) in *.
  set (b2 := next_epoch b1 (Z.of_nat (length h))).
  assert (counted b2) as Hc2 by (destruct Hc1; by split).
  assert (epoch b2 = epoch b + Z.of_nat (length h)) as He by (unfold b2, b1; simpl; by rewrite epoch_run).
  pose proof Hok as (_ & Hnd & Hposr). rewrite Forall_forall in Hposr.
  destruct (import_refs_run b2 (epoch b2) es Hnd) as (Hal & Hv2 & Hs2 & Ho2 & Hw2).
  { intros x Hx. destruct (sizes b2 !! (epoch b2 + se_mod_revision x)) as [z|] eqn:E; [|done].
    change (sizes b2) with (sizes b1) in E. rewrite Hs1 in E. pose proof (Hsz _ (mk_is_Some _ _ E)).
    pose proof (Hposr x Hx). lia. }
  eexists s', (imported_history es), _. split; [done|]. split; [done|].
  assert (Z.of_nat (length (imported_history es)) = Z.max 0 (max_mod_revision es)) as Hlen.
  { unfold imported_history. rewrite length_fill, length_replicate. lia. }
  split; [|split; [simpl; lia|fold b2; rewrite Hw2; simpl; lia]].
  destruct (imported_buffers es Hok (sr_hist _ _ Hr')) as [Hsl Hla]. fold b2. split; rewrite ?epoch_run, ?Hf'.
  - rewrite Hv2, Hsl, Hla, fmap_app, <- !list_fmap_compose. simpl. rewrite Hv. by rewrite app_nil_r.
  - apply counted_run; [done|done|]. rewrite Hw2. simpl in *. lia.
  - intros r Hr0. destruct (decide (r ∈ (λ x, epoch b2 + se_mod_revision x) <$> es)) as [(x & -> & Hx)%list_elem_of_fmap|Hn].
    + pose proof (max_mod_revision_ge _ _ Hx). lia.
    + rewrite Ho2 in Hr0 by done. simpl in Hr0. rewrite Hs1 in Hr0. apply Hsz in Hr0. lia.
  - intros k v x (e & Hin & -> & ->)%imported_change [= <-]; [|done]. by apply Hs2.
Qed.

Lemma gstep_accounts s h b o :
  store_repr s h → accounts s h b → op_ok o → Z.of_nat (length h) < i64_max → written b + op_bytes o ≤ i64_max →
  keeps_account s h b o.
Proof.
  intros Hr Ha Hok Hlt Hw. destruct o as [key new req|key new|rev|es|r|r].
  - by apply gset_accounts.
  - by apply greplay_accounts.
  - apply gcompact_accounts; [done|done|]. simpl in Hw. lia.
  - by apply gimport_accounts.
  - simpl in *. eexists s, h, _. split; [done|]. split; [done|]. split; [|simpl; split; [lia|case_bool_decide; simpl; lia]].
    case_bool_decide as Hin; [|done]. destruct Ha as [Hrefs Hc Hsz Hlen]. cbn [ref_run foldl].
    assert (allowed_run b [CloneValue r; CloneBytes r; DropValue r]) as Hal.
    { simpl. split; [done|]. split; [left; by left|]. split; [by left|done]. }
    split; [|apply (counted_run b [CloneValue r; CloneBytes r; DropValue r]); [done|done|simpl; lia]|done|done].
    simpl. by rewrite decide_True.
  - simpl in *. eexists s, h, _. split; [done|]. split; [done|]. split; [|simpl; split; [lia|case_bool_decide; simpl; lia]].
    case_bool_decide as Hin; [|done]. destruct Ha as [Hrefs Hc Hsz Hlen].
    split; [done| |done|done]. apply (counted_step b (DropBytes r)); [done|done|simpl; lia].
Qed.

Definition bytes_in (ops : list gop) : Z := foldr (λ o n, op_bytes o + n) 0 ops.

Lemma grun_accounts n s h b ops :
  store_repr s h → accounts s h b → Forall (λ o, op_ok o ∧ op_revisions o + n ≤ i64_max) ops →
  Z.of_nat (length ops) ≤ n → Z.of_nat (length h) + Z.of_nat (length ops) ≤ i64_max →
  written b + bytes_in ops ≤ i64_max →
  ∃ s' h' b', grun (s, b) ops = Ret (s', b') ∧ store_repr s' h' ∧ accounts s' h' b' ∧
    written b' ≤ written b + bytes_in ops.
Proof.
  revert s h b. induction ops as [|o ops IH]; intros s h b Hr Ha Hops Hn Hl Hw; cbn [grun].
  { exists s, h, b. simpl. split; [done|]. split; [done|]. split; [done|]. lia. }
  simpl in Hn, Hl, Hw. apply Forall_cons in Hops as [[Ho Hrev] Hops].
  assert (0 ≤ bytes_in ops) as Hpos by (clear; induction ops as [|o ops IH]; simpl; [lia|pose proof (op_bytes_nonneg o); lia]).
  destruct (gstep_accounts s h b o) as (s1 & h1 & b1 & -> & Hr1 & Ha1 & Hl1 & Hw1); [done|done|done|lia|lia|].
  rewrite bind_ret. destruct (IH s1 h1 b1) as (s' & h' & b' & Hg & Hr' & Ha' & Hw'); [done|done|done|lia|lia|lia|].
  exists s', h', b'. split; [done|]. split; [done|]. split; [done|]. simpl. lia.
Qed.

(** The revisions whose values the store holds, in a slot or as the latest of their key. *)
Definition retained (h : history) (c : Z) : list Z :=
  omap (λ x, '(k, v) ← x; _ ← value v;
    if decide (c < mod_revision v ∨ latest_of h k = Some v) then Some (mod_revision v) else None) h.

Lemma retained_elem h c r :
  hist_ok h → 0 ≤ c → r ∈ retained h c ↔ r ∈ slot_buffers h c ++ latest_buffers all_keys h.
Proof.
  intros Hok Hc. unfold retained, slot_buffers, latest_buffers, all_keys. rewrite elem_of_app, !list_elem_of_omap. split.
  - intros ([[k v]|] & Hin & Hx); [|done]. simpl in Hx. destruct (value v) as [y|] eqn:E; simpl in Hx; [|done].
    case_decide as Hd; [|done]. injection Hx as <-. destruct Hd as [Hlt|Hl].
    + left. exists (Some (k, v)). split; [|simpl; by rewrite E]. apply list_elem_of_lookup in Hin as [i Hi].
      pose proof (Hok _ _ _ Hi). apply list_elem_of_lookup. exists (i - Z.to_nat c)%nat. rewrite lookup_drop.
      rewrite <- Hi. f_equal. lia.
    + right. exists (Some (k, v)). split; [done|]. simpl. rewrite E. simpl. by rewrite decide_True.
  - intros [([[k v]|] & Hin & Hx)|([[k v]|] & Hin & Hx)]; try done; simpl in Hx;
      destruct (value v) as [y|] eqn:E; simpl in Hx; try done.
    + injection Hx as <-. exists (Some (k, v)). apply list_elem_of_lookup in Hin as [i Hi]. rewrite lookup_drop in Hi.
      pose proof (Hok _ _ _ Hi). split; [by eapply list_elem_of_lookup_2|]. simpl. rewrite E. simpl.
      by rewrite decide_True by (left; lia).
    + case_decide as Hd; [|done]. injection Hx as <-. exists (Some (k, v)). split; [done|]. simpl. rewrite E. simpl.
      rewrite decide_True; [done|]. right. by destruct Hd.
Qed.

Lemma retained_NoDup h c : hist_ok h → NoDup (retained h c).
Proof.
  apply changes_NoDup. intros [[k v]|] r; simpl; [|done]. destruct (value v); simpl; [|done].
  case_decide; [|done]. intros [= <-]. eauto.
Qed.
End accounting.

(** ** Properties *)


Definition gauge_ops : list gop :=
  [GReplay (bytes "foo") (Some (bytes "beep"));
   GSet (bytes "foo") (Some (bytes "boop")) None; GRelease 1; GRelease 2;
   GSet (bytes "foo") None None; GRelease 2; GCompact 3;
   GImport [mkSnapshotEntry (bytes "bar") (bytes "abc") 2 2 1]; GSet (bytes "bar") (Some (bytes "de")) None].


(** Two values of four bytes, the first of them replayed, deleted and compacted, then a
    snapshot and a write; and the same write when the compaction comes while the messages
    are still there. *)
Example gauge_samples :
  (match grun (H:=block_size_2) (new_store None, no_buffers) gauge_ops with
   | Ret (_, b) => gauge b = 5 ∧ lost b = []
   | Panic _ => False
   end) ∧
  (match grun (H:=block_size_2) (new_store None, no_buffers)
           [GSet (bytes "foo") (Some (bytes "beep")) None; GSet (bytes "foo") None None; GCompact 2;
            GRelease 1; GRelease 1] with
   | Ret (_, b) => gauge b = 4 ∧ value_refs b = [] ∧ bytes_refs b = []
   | Panic _ => False
   end).
Proof. vm_compute. split_and!; reflexivity. Qed.

(** A value that is compacted while it is the latest of its key is never subtracted, even
    when no message is left: the write that replaces it drops its last [Value] while it
    holds a clone of the buffer for the message. *)
Example overwritten_value_stays_counted :
  match grun (H:=block_size_2) (new_store None, no_buffers)
          [GSet (bytes "foo") (Some (bytes "beep")) None; GRelease 1; GSet (bytes "bar") (Some []) None; GRelease 2;
           GCompact 2; GSet (bytes "foo") None None; GRelease 1; GCompact 3] with
  | Ret (_, b) => gauge b = 4 ∧ bytes_refs b = [] ∧ total (sizes b) (value_refs b) = 0
  | Panic _ => False
  end.
Proof. vm_compute. split_and!; reflexivity. Qed.
