(* ===== verification/Wal.v ===== *)
(** * The write-ahead log (src/wal.rs)

    The record format and its reader, the per-prefix log files and the batches that
    are written to them, the queueing of records, and the loading of a log directory
    by a k-way merge. Files are the bytes they hold; what the operating system does in
    a [write] call, the clock and the directory order are arguments. *)
From S2P Require Import Prelude Bytes Heap Types.

(** ** Records *)

(** [written_notify] is the identity of the [Notify] to signal. *)
Record WalRecord := mkWalRecord {
  rec_rev : Z;
  rec_key : ByteArray;
  rec_value : option ByteArray;
  written_notify : option nat;
}.

#[export] Instance WalRecord_eq_dec : EqDecision WalRecord.
Proof. solve_decision. Defined.

Definition DELETE_MARKER : Z := 2 ^ 32 - 1.

(** The only error of reading bytes that are at hand. *)
Inductive IoError := UnexpectedEof | OsError.

#[export] Instance IoError_eq_dec : EqDecision IoError.
Proof. solve_decision. Defined.

(** [reader.read_exact] into a buffer of [n] bytes: the bytes and what is left. *)
Definition read_exact (n : nat) (r : ByteArray) : Result (ByteArray * ByteArray) IoError :=
  if decide (n ≤ length r)%nat then Ok (take n r, drop n r) else Err UnexpectedEof.

Definition sub_bytes (l : ByteArray) (from to : nat) : ByteArray := take (to - from) (drop from l).

(** [WalRecord::read_from]: the next record, [None] at the end of the file, and what is
    left to read. *)
Definition read_from (reader : ByteArray) : Result (option (WalRecord * ByteArray)) IoError :=
  match read_exact 16 reader with
  | Err UnexpectedEof => Ok None
  | Err e => Err e
  | Ok (header, reader) =>
      let rev := as_i64 (from_le_bytes (sub_bytes header 0 8)) in
      let key_len := from_le_bytes (sub_bytes header 8 12) in
      let value_len_raw := from_le_bytes (sub_bytes header 12 16) in
      match read_exact (Z.to_nat key_len) reader with
      | Err e => Err e
      | Ok (key, reader) =>
          if value_len_raw =? DELETE_MARKER then Ok (Some (mkWalRecord rev key None None, reader))
          else match read_exact (Z.to_nat value_len_raw) reader with
               | Err e => Err e
               | Ok (v, reader) => Ok (Some (mkWalRecord rev key (Some v) None, reader))
               end
      end
  end.

(** The bytes [write_locked] puts in its buffer for a record. *)
Definition encode_record (rec : WalRecord) : ByteArray :=
  let key_len := as_u32 (Z.of_nat (length (rec_key rec))) in
  let value_len := from_option (λ v : ByteArray, as_u32 (Z.of_nat (length v))) DELETE_MARKER
                     (rec_value rec) in
  let header := to_le_bytes 8 (as_u64 (rec_rev rec)) ++ to_le_bytes 4 key_len ++ to_le_bytes 4 value_len in
  header ++ rec_key rec ++ default [] (rec_value rec).

Definition encode_records (recs : list WalRecord) : ByteArray := recs ≫= encode_record.

(** ** Batches *)

Definition end_size : Z := 16384.

Definition record_size (rec : WalRecord) : Z :=
  Z.of_nat (length (rec_key rec)) + from_option (λ v : ByteArray, Z.of_nat (length v)) 0 (rec_value rec) + 16.

(** The batching loop of [write_locked]: [clock] is the number of records the 500
    microseconds leave time to receive. The records taken, and the queue left. *)
Fixpoint batch (clock : nat) (queue : list WalRecord) (current_size : Z) :
    list WalRecord * list WalRecord :=
  match clock, queue with
  | S clock', rec :: queue' =>
      if current_size <? end_size then
        let '(taken, rest) := batch clock' queue' (current_size + record_size rec) in
        (rec :: taken, rest)
      else ([], queue)
  | _, _ => ([], queue)
  end.

(** What a [libc::write] call does: it takes some of the bytes, is interrupted, or
    fails. *)
Inductive WriteCall := Wrote (n : nat) | Interrupted | Failed.

(** The write loop: the bytes of the buffer that reached the file, and its result;
    [None] while the calls have not got to the end of the buffer. *)
Fixpoint write_loop (calls : list WriteCall) (buffer : ByteArray) :
    option (ByteArray * Result unit IoError) :=
  match buffer with
  | [] => Some ([], Ok ())
  | _ =>
      match calls with
      | [] => None
      | Interrupted :: calls' => write_loop calls' buffer
      | Failed :: _ => Some ([], Err OsError)
      | Wrote n :: calls' =>
          match write_loop calls' (drop n buffer) with
          | Some (written, r) => Some (take n buffer ++ written, r)
          | None => None
          end
      end
  end.

(** A log file and how much of it the last [fsync] call covered. *)
Record LogFile := mkLogFile { file_bytes : ByteArray; synced : nat }.

(** [PerPrefixWriter::write_locked]: the file, the queue left, the [Notify]s signalled
    and the result. *)
Definition write_locked (mode : WalMode) (clock : nat) (calls : list WriteCall)
    (file : LogFile) (queue : list WalRecord) :
    option (LogFile * list WalRecord * list nat * Result unit IoError) :=
  let '(taken, rest) := batch clock queue 0 in
  let notify_vec := omap written_notify taken in
  match write_loop calls (encode_records taken) with
  | None => None
  | Some (written, Err e) =>
      Some (mkLogFile (file_bytes file ++ written) (synced file), rest, notify_vec, Err e)
  | Some (written, Ok _) =>
      let bytes := file_bytes file ++ written in
      let synced' := if bool_decide (mode = WalSync) then length bytes else synced file in
      Some (mkLogFile bytes synced', rest, notify_vec, Ok ())
  end.

(** ** File names *)

Definition hex_digit (n : Z) : byte := byte_of (if n <? 10 then 48 + n else 87 + n).

(** [format!("{:02x}", b)] *)
Definition hex_byte (b : byte) : ByteArray := [hex_digit (byte_val b / 16); hex_digit (byte_val b mod 16)].

Definition file_name_for_prefix (prefix : ByteArray) : ByteArray :=
  bytes "prefix_" ++ (prefix ≫= hex_byte) ++ bytes ".wal".

(** ** The manager *)

(** [files] is the log directory; a writer is known by its prefix and holds its queue
    of records; [writers_with_work] is the channel of the writer threads. *)
Record WalManager := mkWalManager {
  default_mode : WalMode;
  prefix_modes_no_persist : gset ByteArray;
  files : gmap ByteArray LogFile;
  writers : gmap ByteArray (list WalRecord);
  writers_with_work : list ByteArray;
}.

(** [open_for_prefix]: the file is created when missing, and opened to append. *)
Definition open_for_prefix (m : WalManager) (prefix : ByteArray) : WalManager :=
  let name := file_name_for_prefix prefix in
  {| default_mode := default_mode m; prefix_modes_no_persist := prefix_modes_no_persist m;
     files := match files m !! name with
              | Some _ => files m
              | None => <[name := mkLogFile [] 0]> (files m)
              end;
     writers := <[prefix := []]> (writers m); writers_with_work := writers_with_work m |}.

(** [WalManager::append]: the manager and the [Notify] signalled at once. *)
Definition append (m : WalManager) (prefix : ByteArray) (rev : Z) (key : ByteArray)
    (value : option ByteArray) (written_notify : option nat) : WalManager * list nat :=
  if bool_decide (default_mode m = WalNone) || bool_decide (prefix ∈ prefix_modes_no_persist m)
  then (m, from_option (λ n, [n]) [] written_notify)
  else
    let m1 := match writers m !! prefix with Some _ => m | None => open_for_prefix m prefix end in
    let queue := default [] (writers m1 !! prefix) in
    let rec := {| rec_rev := rev; rec_key := key; rec_value := value; written_notify := written_notify |} in
    ({| default_mode := default_mode m1; prefix_modes_no_persist := prefix_modes_no_persist m1;
        files := files m1; writers := <[prefix := queue ++ [rec]]> (writers m1);
        writers_with_work := writers_with_work m1 ++ [prefix] |}, []).

(** ** Loading a directory *)

Record DirEntry := mkDirEntry { de_name : ByteArray; de_is_file : bool; de_bytes : ByteArray }.

(** [path.extension() == Some("wal")]: the name ends in [.wal] and is not just that. *)
Definition has_wal_extension (name : ByteArray) : bool :=
  bool_decide (4 < length name)%nat &&
  bool_decide (drop (length name - 4) name = bytes ".wal").

(** A reader and the record read ahead from it. *)
Abbreviation Reader := (ByteArray * option WalRecord)%type.

Fixpoint open_readers (entries : list DirEntry) : Result (list Reader) IoError :=
  match entries with
  | [] => Ok []
  | e :: entries' =>
      if de_is_file e && has_wal_extension (de_name e) then
        match read_from (de_bytes e) with
        | Err err => Err err
        | Ok next =>
            match open_readers entries' with
            | Err err => Err err
            | Ok rs =>
                Ok (match next with
                    | Some (rec, rest) => (rest, Some rec)
                    | None => ([], None)
                    end :: rs)
            end
        end
      else open_readers entries'
  end.

Record HeapItem := mkHeapItem { idx : nat; item_rev : Z }.

(** [Ord for HeapItem] *)
Definition HeapItem_cmp (x y : HeapItem) : comparison := item_rev y ?= item_rev x.

Definition init_heap (readers : list Reader) : list HeapItem :=
  foldl (λ h (ir : nat * Reader),
           match ir.2.2 with
           | Some rec => heap_push h (mkHeapItem ir.1 (rec_rev rec))
           | None => h
           end) [] (zip (seq 0 (length readers)) readers).

(** The merge loop. [entries] are the records handed to [on_entry] so far, so that an
    error leaves those before it replayed. *)
Fixpoint merge_loop (fuel : nat) (readers : list Reader) (heap : list HeapItem)
    (entries : list WalRecord) : outcome (option (list WalRecord * Result unit IoError)) :=
  match fuel with
  | O => Ret None
  | S fuel' =>
      match heap_pop HeapItem_cmp heap with
      | None => Ret (Some (entries, Ok ()))
      | Some (item, heap') =>
          rd ← index_or_panic readers (idx item);
          match rd with
          | (rest, Some rec) =>
              let entries' := entries ++ [rec] in
              match read_from rest with
              | Err e => Ret (Some (entries', Err e))
              | Ok None =>
                  merge_loop fuel' (<[idx item := ([], None)]> readers) heap' entries'
              | Ok (Some (rec', rest')) =>
                  merge_loop fuel' (<[idx item := (rest', Some rec')]> readers)
                    (heap_push heap' (mkHeapItem (idx item) (rec_rev rec'))) entries'
              end
          | (_, None) => merge_loop fuel' readers heap' entries
          end
      end
  end.

(** Every turn takes a record of at least 16 bytes from a file or an item from the
    heap: this many turns are enough. *)
Definition merge_fuel (readers : list Reader) : nat :=
  S (sum_list_with (λ r : Reader, S (length r.1)) readers).

Definition load_wal_dir (entries : list DirEntry) :
    outcome (option (list WalRecord * Result unit IoError)) :=
  match open_readers entries with
  | Err e => Ret (Some ([], Err e))
  | Ok readers => merge_loop (merge_fuel readers) readers (init_heap readers) []
  end.

(** ** Lemmas: records *)

(** What the format can hold: a key under 4 GiB, a value shorter than the delete
    marker. *)
Definition record_ok (rec : WalRecord) : Prop :=
  is_i64 (rec_rev rec) ∧ Z.of_nat (length (rec_key rec)) < u32_modulus ∧
  from_option (λ v : ByteArray, Z.of_nat (length v) < DELETE_MARKER) True (rec_value rec).

(** A record read back has no one waiting for it. *)
Definition forget_notify (rec : WalRecord) : WalRecord :=
  mkWalRecord (rec_rev rec) (rec_key rec) (rec_value rec) None.

Lemma read_exact_app n (a b : ByteArray) : length a = n → read_exact n (a ++ b) = Ok (a, b).
Proof.
  intros <-. unfold read_exact. rewrite decide_True by (rewrite length_app; lia).
  by rewrite take_app_length, drop_app_length.
Qed.

Lemma read_exact_short n (a : ByteArray) : (length a < n)%nat → read_exact n a = Err UnexpectedEof.
Proof. intros. unfold read_exact. by rewrite decide_False by lia. Qed.

Lemma u32_round_trip z : 0 ≤ z < u32_modulus → from_le_bytes (to_le_bytes 4 (as_u32 z)) = z.
Proof.
  intros Hz. rewrite from_to_le_bytes, as_u32_id by done. apply Z.mod_small. exact Hz.
Qed.

Lemma u64_round_trip z : is_i64 z → as_i64 (from_le_bytes (to_le_bytes 8 (as_u64 z))) = z.
Proof.
  intros Hz. rewrite from_to_le_bytes. change (256 ^ Z.of_nat 8) with u64_modulus.
  unfold as_u64. rewrite Z.mod_mod by done. by apply as_i64_as_u64.
Qed.

(** The three words of a header. *)
Lemma header_words (a b c : Z) :
  let header := to_le_bytes 8 a ++ to_le_bytes 4 b ++ to_le_bytes 4 c in
  length header = 16%nat ∧ sub_bytes header 0 8 = to_le_bytes 8 a ∧
  sub_bytes header 8 12 = to_le_bytes 4 b ∧ sub_bytes header 12 16 = to_le_bytes 4 c.
Proof. done. Qed.

Definition header_of (rec : WalRecord) : ByteArray := take 16 (encode_record rec).

Lemma encode_record_split rec :
  encode_record rec = header_of rec ++ rec_key rec ++ default [] (rec_value rec) ∧
  length (header_of rec) = 16%nat.
Proof. done. Qed.

Lemma header_of_fields rec :
  record_ok rec →
  as_i64 (from_le_bytes (sub_bytes (header_of rec) 0 8)) = rec_rev rec ∧
  from_le_bytes (sub_bytes (header_of rec) 8 12) = Z.of_nat (length (rec_key rec)) ∧
  from_le_bytes (sub_bytes (header_of rec) 12 16) =
    from_option (λ v : ByteArray, Z.of_nat (length v)) DELETE_MARKER (rec_value rec).
Proof.
  intros (Hrev & Hk & Hv).
  change (sub_bytes (header_of rec) 0 8) with (to_le_bytes 8 (as_u64 (rec_rev rec))).
  change (sub_bytes (header_of rec) 8 12)
    with (to_le_bytes 4 (as_u32 (Z.of_nat (length (rec_key rec))))).
  split_and!; [by apply u64_round_trip|apply u32_round_trip; lia|].
  destruct (rec_value rec) as [v|] eqn:E; simpl in *.
  - change (sub_bytes (header_of rec) 12 16) with (to_le_bytes 4
      (from_option (λ v : ByteArray, as_u32 (Z.of_nat (length v))) DELETE_MARKER (rec_value rec))).
    rewrite E. simpl. apply u32_round_trip. unfold DELETE_MARKER, u32_modulus in *. lia.
  - change (sub_bytes (header_of rec) 12 16) with (to_le_bytes 4
      (from_option (λ v : ByteArray, as_u32 (Z.of_nat (length v))) DELETE_MARKER (rec_value rec))).
    rewrite E. done.
Qed.

Lemma read_encoded rec rest :
  record_ok rec → read_from (encode_record rec ++ rest) = Ok (Some (forget_notify rec, rest)).
Proof.
  intros Hok. destruct (encode_record_split rec) as [-> Hh].
  destruct (header_of_fields rec Hok) as (Hr & Hk & Hv). destruct Hok as (_ & _ & Hlen).
  unfold read_from. rewrite <- !app_assoc, (read_exact_app 16) by done.
  rewrite Hr, Hk, Hv, (read_exact_app _ (rec_key rec)) by lia.
  unfold forget_notify. destruct (rec_value rec) as [v|]; simpl in *.
  - rewrite (proj2 (Z.eqb_neq _ _)) by lia. by rewrite (read_exact_app _ v) by lia.
  - done.
Qed.

Lemma read_from_end : read_from [] = Ok None.
Proof. done. Qed.

(** A file that ends inside a record: within the header the reader takes it for the
    end of the log, within the body it reports an error. *)
Lemma read_torn rec n :
  record_ok rec → (n < length (encode_record rec))%nat →
  read_from (take n (encode_record rec)) = if decide (n < 16)%nat then Ok None else Err UnexpectedEof.
Proof.
  intros Hok Hn. destruct (encode_record_split rec) as [Henc Hh]. rewrite Henc in Hn |- *.
  destruct (header_of_fields rec Hok) as (_ & Hk & Hv). destruct Hok as (_ & _ & Hlen).
  unfold read_from. rewrite !length_app in Hn. case_decide as Hd.
  { by rewrite read_exact_short by (rewrite length_take, !length_app; lia). }
  rewrite take_app_ge by lia. rewrite (read_exact_app 16) by done. rewrite Hk, Hv, Hh.
  destruct (decide (n - 16 < length (rec_key rec))%nat) as [Hkey|Hkey].
  { by rewrite read_exact_short by (rewrite length_take, length_app; lia). }
  rewrite take_app_ge, (read_exact_app _ (rec_key rec)) by lia.
  destruct (rec_value rec) as [v|]; simpl in *; [|lia].
  rewrite (proj2 (Z.eqb_neq _ _)) by lia.
  by rewrite read_exact_short by (rewrite length_take; lia).
Qed.

Lemma encode_records_cons rec recs :
  encode_records (rec :: recs) = encode_record rec ++ encode_records recs.
Proof. done. Qed.

Lemma encode_records_app l1 l2 : encode_records (l1 ++ l2) = encode_records l1 ++ encode_records l2.
Proof. apply bind_app. Qed.

(** ** Lemmas: batches *)

Lemma batch_split clock queue size taken rest :
  batch clock queue size = (taken, rest) → queue = taken ++ rest.
Proof.
  revert queue size taken rest. induction clock as [|clock IH]; intros queue size taken rest;
    [by intros [= <- <-]|].
  destruct queue as [|rec queue]; simpl; [by intros [= <- <-]|].
  destruct (size <? end_size); [|by intros [= <- <-]].
  destruct (batch clock queue (size + record_size rec)) as [t r] eqn:E.
  intros [= <- <-]. simpl. f_equal. by eapply IH.
Qed.

Lemma read_exact_length n r a b : read_exact n r = Ok (a, b) → (length r = n + length b)%nat.
Proof.
  unfold read_exact. case_decide; [|done]. intros [= <- <-]. rewrite length_drop. lia.
Qed.

Lemma read_from_shorter r rec rest : read_from r = Ok (Some (rec, rest)) → (length rest < length r)%nat.
Proof.
  unfold read_from. destruct (read_exact 16 r) as [[h r1]|e] eqn:E1; [|by destruct e].
  apply read_exact_length in E1.
  destruct (read_exact (Z.to_nat _) r1) as [[k r2]|e] eqn:E2; [|done].
  apply read_exact_length in E2. destruct (_ =? DELETE_MARKER); [intros [= _ <-]; lia|].
  destruct (read_exact (Z.to_nat _) r2) as [[v r3]|e] eqn:E3; [|done].
  apply read_exact_length in E3. intros [= _ <-]. lia.
Qed.

(** The heap after the initial loop: one item per reader that has a record. *)
Definition init_item (ir : nat * Reader) : option HeapItem :=
  (λ rec, mkHeapItem ir.1 (rec_rev rec)) <$> ir.2.2.

Lemma init_heap_items (irs : list (nat * Reader)) h :
  foldl (λ h (ir : nat * Reader),
           match ir.2.2 with
           | Some rec => heap_push h (mkHeapItem ir.1 (rec_rev rec))
           | None => h
           end) h irs = reverse (omap init_item irs) ++ h.
Proof.
  revert h. induction irs as [|[i [r o]] irs IH]; intros h; [done|]. simpl. rewrite IH.
  unfold init_item at 2. simpl. destruct o as [rec|]; simpl; [|done].
  rewrite reverse_cons, <- app_assoc. done.
Qed.

Lemma elem_of_init_heap readers it :
  it ∈ init_heap readers ↔
  ∃ r rec, readers !! idx it = Some (r, Some rec) ∧ item_rev it = rec_rev rec.
Proof.
  unfold init_heap. rewrite init_heap_items, app_nil_r, elem_of_reverse, list_elem_of_omap.
  split.
  - intros ([i [r o]] & Hin & Hit). unfold init_item in Hit. simpl in Hit.
    apply fmap_Some in Hit as (rec & -> & ->). simpl.
    apply list_elem_of_lookup in Hin as [j Hj]. apply lookup_zip_with_Some in Hj as (x & y & Heq & Hx & Hy).
    injection Heq as <- <-. apply lookup_seq in Hx as [-> _]. eauto.
  - intros (r & rec & Hl & Hrev). exists (idx it, (r, Some rec)). split.
    + apply list_elem_of_lookup. exists (idx it). apply lookup_zip_with_Some.
      exists (idx it), (r, Some rec). split; [done|]. split; [|done].
      apply lookup_seq. split; [done|]. by apply lookup_lt_Some in Hl.
    + unfold init_item. simpl. rewrite <- Hrev. by destruct it.
Qed.

Lemma init_heap_NoDup readers : NoDup (idx <$> init_heap readers).
Proof.
  unfold init_heap. rewrite init_heap_items, app_nil_r, fmap_reverse, reverse_Permutation.
  generalize 0%nat. induction readers as [|[r o] readers IH]; intros n; csimpl; [constructor|].
  unfold init_item at 1. simpl. destruct o as [rec|]; csimpl; [|apply IH].
  apply NoDup_cons. split; [|apply IH].
  intros (it & Heq & ([i [r' o']] & Hin & Hit)%list_elem_of_omap)%list_elem_of_fmap.
  unfold init_item in Hit. apply fmap_Some in Hit as (rec' & _ & ->). simpl in Heq. subst i.
  apply list_elem_of_lookup in Hin as [j Hj]. apply lookup_zip_with_Some in Hj as (x & y & [= <- <-] & Hx & _).
  apply lookup_seq in Hx as [? _]. lia.
Qed.

(** ** Lemmas: files *)

(** What reading a file to its end yields: its records, and whether it ends between two
    records (or within a header, which the reader takes for the end) rather than within
    the body of one. *)
Fixpoint scan_within (fuel : nat) (b : ByteArray) : list WalRecord * bool :=
  match fuel with
  | O => ([], true)
  | S fuel' =>
      match read_from b with
      | Err _ => ([], false)
      | Ok None => ([], true)
      | Ok (Some (rec, rest)) => let '(l, ok) := scan_within fuel' rest in (rec :: l, ok)
      end
  end.

Definition scan (b : ByteArray) : list WalRecord * bool := scan_within (S (length b)) b.

Lemma scan_enough n m b :
  (length b < n)%nat → (length b < m)%nat → scan_within n b = scan_within m b.
Proof.
  revert m b. induction n as [|n IH]; intros m b Hn Hm; [lia|]. destruct m as [|m]; [lia|]. simpl.
  destruct (read_from b) as [[[rec rest]|]|e] eqn:E; [|done|done].
  apply read_from_shorter in E. by rewrite (IH m) by lia.
Qed.

Lemma scan_step b :
  scan b = match read_from b with
           | Err _ => ([], false)
           | Ok None => ([], true)
           | Ok (Some (rec, rest)) => (rec :: (scan rest).1, (scan rest).2)
           end.
Proof.
  unfold scan at 1. simpl. destruct (read_from b) as [[[rec rest]|]|e] eqn:E; [|done|done].
  apply read_from_shorter in E. rewrite (scan_enough _ (S (length rest)) rest) by lia.
  change (scan_within (S (length rest)) rest) with (scan rest). by destruct (scan rest).
Qed.

Lemma scan_length b : (length (scan b).1 ≤ length b)%nat.
Proof.
  unfold scan. generalize (S (length b)). intros n. revert b. induction n as [|n IH]; intros b; simpl; [lia|].
  destruct (read_from b) as [[[rec rest]|]|e] eqn:E; simpl; [|lia|lia].
  apply read_from_shorter in E. specialize (IH rest). destruct (scan_within n rest). simpl in *. lia.
Qed.

Lemma scan_encoded l tail :
  Forall record_ok l →
  scan (encode_records l ++ tail) = ((forget_notify <$> l) ++ (scan tail).1, (scan tail).2).
Proof.
  induction 1 as [|rec l Hrec _ IH]; [change (encode_records [] ++ tail) with tail; by destruct (scan tail) as [[] []]|].
  rewrite encode_records_cons, <- app_assoc, scan_step, read_encoded, IH by done. done.
Qed.

Lemma scan_short tail : (length tail < 16)%nat → scan tail = ([], true).
Proof. intros Hl. rewrite scan_step. unfold read_from. by rewrite read_exact_short. Qed.

(** A reader that stands before records, [sc] what is in front of it. *)
Definition reads (sc : list WalRecord * bool) (r : Reader) : Prop :=
  match sc.1 with
  | [] => r.2 = None ∧ sc.2 = true
  | rec :: l' => r.2 = Some rec ∧ scan r.1 = (l', sc.2)
  end.

(** The heap holds the first revision of every reader that is not at its end. *)
Definition heap_ok (ls : list (list WalRecord)) (heap : list HeapItem) : Prop :=
  NoDup (idx <$> heap) ∧
  ∀ it, it ∈ heap ↔ ∃ rec l, ls !! idx it = Some (rec :: l) ∧ item_rev it = rec_rev rec.

Definition rev_sorted (l : list WalRecord) : Prop := StronglySorted Z.le (rec_rev <$> l).

Definition next_item (i : nat) (l : list WalRecord) : list HeapItem :=
  match l with [] => [] | rec :: _ => [mkHeapItem i (rec_rev rec)] end.

Lemma heap_ok_step ls heap it heap' rec l :
  heap_ok ls heap → heap ≡ₚ it :: heap' → ls !! idx it = Some (rec :: l) →
  heap_ok (<[idx it := l]> ls) (next_item (idx it) l ++ heap').
Proof.
  intros [Hnd Hin] Hp Hl. rewrite Hp in Hnd. simpl in Hnd. apply NoDup_cons in Hnd as [Hi Hnd].
  assert (idx it < length ls)%nat as Hlt by (by eapply lookup_lt_Some).
  assert (∀ it', it' ∈ heap' ↔ idx it' ≠ idx it ∧ ∃ rec l, ls !! idx it' = Some (rec :: l) ∧
    item_rev it' = rec_rev rec) as Hh'.
  { intros it'. split.
    - intros Hit. split; [intros Heq; apply Hi; rewrite <- Heq; by apply list_elem_of_fmap_2|].
      apply Hin. rewrite Hp. by right.
    - intros [Hne Hex]. apply Hin in Hex. rewrite Hp in Hex.
      apply elem_of_cons in Hex as [->|?]; done. }
  split.
  - rewrite fmap_app. apply NoDup_app. split; [destruct l; simpl; repeat constructor; by intros ?%elem_of_nil|].
    split; [|done]. intros i Hil Hi'. apply list_elem_of_fmap in Hi' as (it' & -> & Hit').
    apply Hh' in Hit' as [Hne _]. destruct l; simpl in Hil; [by apply elem_of_nil in Hil|].
    by apply list_elem_of_singleton in Hil.
  - intros it'. rewrite elem_of_app, Hh'. destruct (decide (idx it' = idx it)) as [Heq|Hne].
    + rewrite Heq, list_lookup_insert_eq by done.
      destruct l as [|rec' l']; simpl.
      * split; [intros [Hn|[? _]]; [by apply elem_of_nil in Hn|done]|]. intros (? & ? & ? & _). done.
      * rewrite list_elem_of_singleton. split.
        -- intros [->|[? _]]; [|done]. simpl. eauto.
        -- intros (r & l0 & [= <- <-] & Hr). left. destruct it'. simpl in *. by subst.
    + rewrite list_lookup_insert_ne by done. split; [|by eauto].
      intros [Hn|[_ ?]]; [|done]. destruct l; simpl in Hn; [by apply elem_of_nil in Hn|].
      apply list_elem_of_singleton in Hn as ->. done.
Qed.

Lemma heap_ok_nil ls : heap_ok ls [] → concat ls = [].
Proof.
  intros [_ Hin]. assert (Forall (λ l, l = []) ls) as Hall.
  { apply Forall_forall. intros l Hl. apply list_elem_of_lookup in Hl as [i Hi].
    destruct l as [|rec l]; [done|]. exfalso. apply (elem_of_nil (mkHeapItem i (rec_rev rec))).
    apply Hin. simpl. eauto. }
  clear Hin. induction Hall as [|l ls -> _ IH]; [done|]. by simpl.
Qed.

(** The record the heap selects is one of least revision. *)
Lemma heap_ok_least ls heap it heap' rec l x :
  heap_ok ls heap → heap ≡ₚ it :: heap' → Forall (λ z, item_rev it ≤ item_rev z) heap' →
  Forall rev_sorted ls → ls !! idx it = Some (rec :: l) → x ∈ concat ls → rec_rev rec ≤ rec_rev x.
Proof.
  intros [Hnd Hin] Hp Hmin Hs Hl Hx.
  assert (item_rev it = rec_rev rec) as Hrev.
  { destruct (proj1 (Hin it)) as (rec' & l' & Hl' & Hr); [rewrite Hp; by left|]. congruence. }
  apply list_elem_of_In, in_concat in Hx as (l' & Hl'%list_elem_of_In & Hx%list_elem_of_In).
  rewrite Forall_forall in Hs. pose proof (Hs _ Hl') as Hs'.
  apply list_elem_of_lookup in Hl' as [i Hi].
  destruct l' as [|h t]; [by apply elem_of_nil in Hx|].
  assert (rec_rev rec ≤ rec_rev h) as Hh.
  { rewrite <- Hrev. assert (mkHeapItem i (rec_rev h) ∈ heap) as Hit by (apply Hin; simpl; eauto).
    rewrite Hp in Hit. apply elem_of_cons in Hit as [<-|Hit]; [simpl; lia|].
    rewrite Forall_forall in Hmin. apply (Hmin _ Hit). }
  apply elem_of_cons in Hx as [->|Hx]; [done|].
  inversion Hs' as [|?? _ Hall]; subst. rewrite Forall_fmap, Forall_forall in Hall.
  specialize (Hall _ Hx). simpl in Hall. lia.
Qed.

Lemma concat_insert_tail (ls : list (list WalRecord)) i rec l :
  ls !! i = Some (rec :: l) → concat ls ≡ₚ rec :: concat (<[i := l]> ls).
Proof.
  revert i. induction ls as [|a ls IH]; intros [|i] Hi; simpl in *; [done|done| |].
  - by injection Hi as ->.
  - rewrite (IH i Hi). by rewrite Permutation_middle.
Qed.

Lemma reads_next b l ok i :
  scan b = (l, ok) →
  match read_from b with
  | Ok None => l = [] ∧ ok = true
  | Ok (Some (rec', rest')) =>
      reads (l, ok) (rest', Some rec') ∧ next_item i l = [mkHeapItem i (rec_rev rec')]
  | Err _ => l = [] ∧ ok = false
  end.
Proof.
  rewrite scan_step. destruct (read_from b) as [[[rec rest]|]|e]; intros [= <- <-]; [|done|done].
  split; [|done]. split; [done|]. simpl. by destruct (scan rest).
Qed.

Definition all_ok (scs : list (list WalRecord * bool)) : Prop := Forall (λ sc, sc.2 = true) scs.

Lemma merge_loop_spec fuel scs readers heap entries :
  Forall2 reads scs readers → heap_ok scs.*1 heap → (length (concat scs.*1) < fuel)%nat →
  ∃ out r, merge_loop fuel readers heap entries = Ret (Some (entries ++ out, r)) ∧
    (all_ok scs → r = Ok () ∧ out ≡ₚ concat scs.*1 ∧ (Forall rev_sorted scs.*1 → rev_sorted out)) ∧
    (¬ all_ok scs → ∃ e, r = Err e).
Proof.
  revert scs readers heap entries.
  induction fuel as [|fuel IH]; intros scs readers heap entries Hr Hh Hf; [lia|].
  simpl. destruct (heap_pop HeapItem_cmp heap) as [[it heap']|] eqn:Ep.
  2: { apply heap_pop_None in Ep as ->. pose proof (heap_ok_nil _ Hh) as Hnil.
       exists [], (Ok ()). rewrite Hnil, app_nil_r. split; [done|]. split; [by repeat constructor|].
       intros []. clear -Hr Hnil. induction Hr as [|[l ok] r scs readers Hsc _ IH]; [constructor|].
       simpl in *. apply app_nil in Hnil as [-> Hnil]. destruct Hsc as [_ Hok]. constructor; [done|by apply IH]. }
  apply (heap_pop_Some _ item_rev) in Ep as [Hp Hmin]; [|done].
  destruct (proj1 (proj2 Hh it)) as (rec & l & Hl & _); [rewrite Hp; by left|].
  apply list_lookup_fmap_Some in Hl as Hl'. destruct Hl' as ([l0 ok] & Hl0 & Hsc). simpl in Hl0. subst l0.
  destruct (Forall2_lookup_l _ _ _ _ _ Hr Hsc) as ([rest o] & Hrd & Hread & Hscan). simpl in Hread, Hscan. subst o.
  rewrite (index_or_panic_ret _ _ _ Hrd), bind_ret.
  pose proof (heap_ok_step _ _ _ _ _ _ Hh Hp Hl) as Hh'.
  pose proof (concat_insert_tail _ _ _ _ Hl) as Hc.
  assert (length (concat scs.*1) = S (length (concat (<[idx it:=l]> scs.*1)))) as Hlen by (by rewrite Hc).
  assert ((<[idx it := (l, ok)]> scs).*1 = <[idx it := l]> scs.*1) as Hins by (by rewrite list_fmap_insert).
  assert (all_ok (<[idx it := (l, ok)]> scs) ↔ all_ok scs) as Hall.
  { unfold all_ok. rewrite <- !(Forall_fmap snd (λ b, b = true)), list_fmap_insert, list_insert_id; [done|].
    by rewrite list_lookup_fmap, Hsc. }
  assert (∀ r', reads (l, ok) r' →
    ∃ out r, merge_loop fuel (<[idx it := r']> readers) (next_item (idx it) l ++ heap')
             (entries ++ [rec]) = Ret (Some (entries ++ out, r)) ∧
    (all_ok scs → r = Ok () ∧ out ≡ₚ concat scs.*1 ∧ (Forall rev_sorted scs.*1 → rev_sorted out)) ∧
    (¬ all_ok scs → ∃ e, r = Err e)) as Hnext.
  { intros r' Hr'.
    destruct (IH (<[idx it := (l, ok)]> scs) (<[idx it := r']> readers) (next_item (idx it) l ++ heap')
      (entries ++ [rec])) as (out & r & -> & Hgood & Hbad);
      [by apply Forall2_insert|by rewrite Hins|rewrite Hins; lia|].
    exists (rec :: out), r. rewrite <- app_assoc. split; [done|]. rewrite Hall, Hins in Hgood. rewrite Hall in Hbad.
    split; [|done]. intros Hok. destruct (Hgood Hok) as (-> & Hperm & Hsort). split; [done|]. split.
    - by rewrite Hc, Hperm.
    - intros Hs. assert (rev_sorted (rec :: l)) as Hsl by (by eapply Forall_lookup_1 in Hs).
      inversion Hsl as [|?? Hsl' _]; subst.
      unfold rev_sorted. simpl. constructor; [by apply Hsort, Forall_insert|]. rewrite Hperm.
      apply Forall_fmap, Forall_forall. intros x Hx. simpl.
      apply (heap_ok_least scs.*1 heap it heap' rec l x); try done. rewrite Hc. by right. }
  pose proof (reads_next rest l ok (idx it) Hscan) as Hn.
  destruct (read_from rest) as [[[rec' rest']|]|e] eqn:Er.
  - destruct Hn as [Hr' Hit]. rewrite Hit in Hnext. by apply Hnext.
  - destruct Hn as [-> ->]. by apply Hnext.
  - destruct Hn as [-> ->]. exists [rec], (Err e). split; [done|]. split; [|by eauto].
    intros Hok. pose proof (Forall_lookup_1 _ _ _ _ Hok Hsc). done.
Qed.

(** ** Lemmas: directories *)

Definition is_log (e : DirEntry) : bool := de_is_file e && has_wal_extension (de_name e).

(** The log files of a directory, read to their ends. *)
Definition scans_of (entries : list DirEntry) : list (list WalRecord * bool) :=
  (λ e, scan (de_bytes e)) <$> filter (λ e, is_log e = true) entries.

Lemma open_readers_spec entries :
  match open_readers entries with
  | Ok readers => Forall2 reads (scans_of entries) readers
  | Err _ => ¬ all_ok (scans_of entries)
  end.
Proof.
  unfold scans_of. induction entries as [|e entries IH]; [constructor|].
  rewrite filter_cons. simpl. fold (is_log e).
  destruct (is_log e) eqn:El; [|by rewrite decide_False]. rewrite decide_True by done. csimpl.
  destruct (scan (de_bytes e)) as [l ok] eqn:Esc. pose proof (reads_next _ l ok 0 Esc) as Hn.
  destruct (read_from (de_bytes e)) as [[[rec rest]|]|err].
  - destruct Hn as [Hr _]. destruct (open_readers entries); [by constructor|].
    intros Hall. inversion Hall; subst. done.
  - destruct Hn as [-> ->]. destruct (open_readers entries); [by constructor|].
    intros Hall. inversion Hall; subst. done.
  - destruct Hn as [-> ->]. intros Hall. inversion Hall; subst. done.
Qed.

Lemma reads_heap_ok scs readers : Forall2 reads scs readers → heap_ok scs.*1 (init_heap readers).
Proof.
  intros Hr. split; [apply init_heap_NoDup|]. intros it. rewrite elem_of_init_heap. split.
  - intros (r & rec & Hl & Hrev). destruct (Forall2_lookup_r _ _ _ _ _ Hr Hl) as ([l ok] & Hls & Hrd).
    destruct l as [|rec' l]; [by destruct Hrd|]. destruct Hrd as [[= ->] _].
    exists rec', l. by rewrite list_lookup_fmap, Hls.
  - intros (rec & l & Hls & Hrev). apply list_lookup_fmap_Some in Hls as ([l0 ok] & Hl0 & Hls).
    simpl in Hl0. subst l0. destruct (Forall2_lookup_l _ _ _ _ _ Hr Hls) as ([rest o] & Hl & Ho & _).
    simpl in Ho. subst o. eauto.
Qed.

Lemma reads_fuel scs readers : Forall2 reads scs readers → (length (concat scs.*1) < merge_fuel readers)%nat.
Proof.
  unfold merge_fuel. induction 1 as [|[l ok] r scs readers Hr _ IH]; csimpl; [lia|].
  rewrite length_app. assert (length l ≤ S (length r.1))%nat; [|lia].
  destruct l as [|rec l]; [simpl; lia|]. destruct Hr as [_ Hsc]. simpl in Hsc.
  pose proof (scan_length r.1) as Hlen. rewrite Hsc in Hlen. simpl in Hlen |- *. lia.
Qed.

(** The loader on any directory. *)
Lemma load_wal_dir_scans entries :
  ∃ out r, load_wal_dir entries = Ret (Some (out, r)) ∧
    (all_ok (scans_of entries) → r = Ok () ∧ out ≡ₚ concat (scans_of entries).*1 ∧
       (Forall rev_sorted (scans_of entries).*1 → rev_sorted out)) ∧
    (¬ all_ok (scans_of entries) → ∃ e, r = Err e).
Proof.
  pose proof (open_readers_spec entries) as Ho. unfold load_wal_dir.
  destruct (open_readers entries) as [readers|e]; [|exists [], (Err e); split; [done|]; split; [by intros ?|by eauto]].
  destruct (merge_loop_spec (merge_fuel readers) (scans_of entries) readers (init_heap readers) [])
    as (out & r & Hm & Hout); [done|by apply reads_heap_ok|by apply reads_fuel|].
  by exists out, r.
Qed.

(** The directory entries with the records their files hold, each file ending with its
    last record or within the header of one more. *)
Definition holds_records (b : ByteArray) (l : list WalRecord) : Prop :=
  ∃ tail, b = encode_records l ++ tail ∧ (length tail < 16)%nat.

Definition dir_holds (dir : list (DirEntry * list WalRecord)) : Prop :=
  Forall (λ d, is_log d.1 = true → holds_records (de_bytes d.1) d.2 ∧
    Forall record_ok d.2 ∧ rev_sorted d.2) dir.

Definition logs_of (dir : list (DirEntry * list WalRecord)) : list (list WalRecord) :=
  (filter (λ d, is_log d.1 = true) dir).*2.

Lemma holds_encoded l : holds_records (encode_records l) l.
Proof. exists []. rewrite app_nil_r. simpl. split; [done|lia]. Qed.

Lemma scans_of_holds dir :
  dir_holds dir →
  (scans_of dir.*1).*1 = (λ l : list WalRecord, forget_notify <$> l) <$> logs_of dir ∧ all_ok (scans_of dir.*1) ∧
  Forall rev_sorted (scans_of dir.*1).*1.
Proof.
  unfold scans_of, logs_of. induction 1 as [|[e l] dir He Hdir (IH1 & IH2 & IH3)]; [by repeat constructor|].
  simpl in He. rewrite filter_cons. csimpl. rewrite filter_cons.
  destruct (is_log e) eqn:El; [|by rewrite !decide_False]. rewrite !decide_True by done. csimpl.
  destruct (He eq_refl) as ((tail & -> & Ht) & Hok & Hs).
  rewrite (scan_encoded l tail Hok), (scan_short tail Ht), app_nil_r. csimpl.
  split; [by rewrite IH1|]. split; [by constructor|]. constructor; [|done].
  unfold rev_sorted. by rewrite <- list_fmap_compose.
Qed.

Lemma load_wal_dir_spec dir :
  dir_holds dir →
  ∃ out, load_wal_dir dir.*1 = Ret (Some (out, Ok ())) ∧
    out ≡ₚ forget_notify <$> concat (logs_of dir) ∧ rev_sorted out.
Proof.
  intros Hdir. destruct (scans_of_holds dir Hdir) as (Hlogs & Hok & Hs).
  destruct (load_wal_dir_scans dir.*1) as (out & r & Hl & Hgood & _).
  destruct (Hgood Hok) as (-> & Hp & Hsort). exists out. split; [done|]. split; [|by apply Hsort].
  rewrite Hp, Hlogs. clear. induction (logs_of dir) as [|l ls IH]; simpl; [done|]. by rewrite fmap_app, IH.
Qed.

Lemma hex_digit_inj x y : 0 ≤ x < 16 → 0 ≤ y < 16 → hex_digit x = hex_digit y → x = y.
Proof.
  intros Hx Hy He. apply (f_equal byte_val) in He. unfold hex_digit in He.
  rewrite !byte_val_of in He.
  destruct (Z.ltb_spec x 10), (Z.ltb_spec y 10); rewrite !Z.mod_small in He by lia; lia.
Qed.

Lemma hex_byte_inj x y : hex_byte x = hex_byte y → x = y.
Proof.
  intros He. injection He as H1 H2. pose proof (byte_val_bound x). pose proof (byte_val_bound y).
  apply hex_digit_inj in H1; [|split; [apply Z.div_pos; lia|apply Z.div_lt_upper_bound; lia]..].
  apply hex_digit_inj in H2; [|apply Z.mod_pos_bound; lia..].
  apply byte_val_inj. rewrite (Z.div_mod (byte_val x) 16), (Z.div_mod (byte_val y) 16) by lia. lia.
Qed.

Lemma hex_inj (p q : ByteArray) (t u : ByteArray) :
  length p = length q → (p ≫= hex_byte) ++ t = (q ≫= hex_byte) ++ u → p = q.
Proof.
  revert q. induction p as [|x p IH]; intros [|y q] Hl; [done|done|done|].
  intros He. rewrite !bind_cons, <- !app_assoc in He.
  apply app_inj_1 in He as [Hx Hr]; [|done].
  f_equal; [by apply hex_byte_inj|]. apply IH; [by injection Hl|done].
Qed.

Lemma hex_length (p : ByteArray) : length (p ≫= hex_byte) = (2 * length p)%nat.
Proof. induction p as [|x p IH]; csimpl; [done|]. simpl. lia. Qed.

(** No two prefixes share a log file. *)
Lemma file_name_inj p q : file_name_for_prefix p = file_name_for_prefix q → p = q.
Proof.
  intros He. apply (hex_inj p q (bytes ".wal") (bytes ".wal")).
  - apply (f_equal length) in He. unfold file_name_for_prefix in He.
    rewrite !length_app, !hex_length in He. lia.
  - by apply app_inv_head in He.
Qed.

(** What the log writes, the loader opens. *)
Lemma file_name_is_log p : has_wal_extension (file_name_for_prefix p) = true.
Proof.
  unfold has_wal_extension, file_name_for_prefix. rewrite !app_assoc. set (a := bytes "prefix_" ++ _).
  rewrite length_app. change (length (bytes ".wal")) with 4%nat.
  replace (length a + 4 - 4)%nat with (length a) by lia. rewrite drop_app_length.
  assert (7 ≤ length a)%nat by (unfold a; rewrite length_app; simpl; lia).
  rewrite !bool_decide_true by (done || lia). done.
Qed.

(** ** Properties *)

(** What is logged is read back. Reading the bytes of a sequence of records (keys
    under 4 GiB, values shorter than the delete marker) returns the records one after
    the other, deletions told apart from empty values, and then the end of the log. *)
Theorem wal_records_roundtrip (recs : list WalRecord) :
  Forall record_ok recs →
  ∀ n, read_from (encode_records (drop n recs)) =
    match recs !! n with
    | Some rec => Ok (Some (forget_notify rec, encode_records (drop (S n) recs)))
    | None => Ok None
    end.
Proof.
  intros Hok n. destruct (recs !! n) as [rec|] eqn:E.
  - rewrite (drop_S _ _ _ E), encode_records_cons. apply read_encoded.
    by eapply Forall_lookup_1 in Hok.
  - apply lookup_ge_None in E. by rewrite drop_ge by done.
Qed.

Lemma wal_records_roundtrip_witness :
  read_from (encode_records [mkWalRecord 7 (bytes "k") (Some []) (Some 3%nat);
                             mkWalRecord 8 (bytes "k") None None]) =
  Ok (Some (mkWalRecord 7 (bytes "k") (Some []) None,
            encode_records [mkWalRecord 8 (bytes "k") None None])).
Proof.
  apply (wal_records_roundtrip [mkWalRecord 7 (bytes "k") (Some []) (Some 3%nat);
                                mkWalRecord 8 (bytes "k") None None]) with (n := 0%nat).
  repeat constructor; vm_compute; (discriminate || reflexivity).
Defined.

(** A log that ends inside a record. When the crash left less than a header the
    reader takes it for the end of the log; when the header is complete and the body is
    not, it reports an error (and the store refuses to start). *)
Theorem wal_torn_record (rec : WalRecord) (n : nat) :
  record_ok rec → (n < length (encode_record rec))%nat →
  read_from (take n (encode_record rec)) = if decide (n < 16)%nat then Ok None else Err UnexpectedEof.
Proof. apply read_torn. Qed.

Lemma wal_torn_record_witness :
  read_from (take 18 (encode_record (mkWalRecord 7 (bytes "key") (Some (bytes "v")) None)))
  = Err UnexpectedEof.
Proof.
  apply (wal_torn_record (mkWalRecord 7 (bytes "key") (Some (bytes "v")) None) 18).
  - repeat split; vm_compute; (discriminate || reflexivity).
  - apply (bool_decide_unpack _). vm_compute. exact I.
Defined.

(** C27: loading a directory of logs replays its records in revision order. Whatever the
    bytes of its files, the loader succeeds exactly when no log file ends within the body
    of a record; then it hands each record of each log over exactly once, and merged by
    revision when every log is in revision order, whatever the order of the directory and
    whatever else it contains. *)
Theorem wal_dir_merged (entries : list DirEntry) :
  ∃ out r, load_wal_dir entries = Ret (Some (out, r)) ∧
    (r = Ok () ↔ Forall (λ sc, sc.2 = true) (scans_of entries)) ∧
    (r = Ok () → out ≡ₚ concat (scans_of entries).*1 ∧
       (Forall (λ l, StronglySorted Z.le (rec_rev <$> l)) (scans_of entries).*1 →
        StronglySorted Z.le (rec_rev <$> out))).
Proof.
  destruct (load_wal_dir_scans entries) as (out & r & Hl & Hgood & Hbad). exists out, r. split; [done|].
  destruct (decide (all_ok (scans_of entries))) as [Hok|Hno].
  - destruct (Hgood Hok) as (-> & Hp & Hs). done.
  - destruct (Hbad Hno) as [e ->]. done.
Qed.

Definition sample_dir : list DirEntry :=
  [mkDirEntry (file_name_for_prefix (bytes "/registry/pods/")) true
     (encode_records [mkWalRecord 2 (bytes "b") None None; mkWalRecord 3 (bytes "b") (Some []) None]);
   mkDirEntry (bytes "notes.txt") true (bytes "not a log");
   mkDirEntry (file_name_for_prefix []) true (encode_records [mkWalRecord 1 (bytes "~") (Some []) None])].

(** The records of two logs merged by revision; and the same with one of them torn. *)
Example load_samples :
  (match load_wal_dir sample_dir with
   | Ret (Some (out, Ok _)) => rec_rev <$> out = [1; 2; 3]
   | _ => False
   end) ∧
  (match load_wal_dir (mkDirEntry (bytes "x.wal") true
           (take 17 (encode_record (mkWalRecord 2 (bytes "b") (Some (bytes "y")) None))) :: sample_dir) with
   | Ret (Some (_, Err e)) => e = UnexpectedEof
   | _ => False
   end).
Proof. vm_compute. done. Qed.

(** Each prefix has its own log file, which the loader recognises. *)
Theorem wal_file_names (p q : ByteArray) :
  has_wal_extension (file_name_for_prefix p) = true ∧
  (file_name_for_prefix p = file_name_for_prefix q ↔ p = q).
Proof.
  split; [apply file_name_is_log|]. split; [apply file_name_inj|by intros ->].
Qed.

(** A batch whose [write] call fails signals its waiters all the same, although none of
    its records is in the file. *)
Example failed_batch_is_acknowledged :
  write_locked WalSync 1 [Failed] (mkLogFile [] 0) [mkWalRecord 1 (bytes "a") None (Some 4%nat)]
  = Some (mkLogFile [] 0, [], [4%nat], Err OsError).
Proof. vm_compute. reflexivity. Qed.
