(* ===== verification/WalWorkers.v ===== *)
(** * The writer threads of the write-ahead log (src/wal.rs)

    The notification thread queues records and announces the writer on a channel; a
    pool of writer threads takes announcements off the channel, tests and sets the
    writer's [is_writing] flag, batches records, writes the batch with as many [write]
    calls as it takes, calls [fsync] when the mode asks for it, signals the waiters of
    the batch, clears the flag and announces the writer again when records are left.
    Here that protocol is a step relation, one step per access to shared state or
    system call, for any number of threads and writers and every interleaving. *)
From stdpp Require Import functions relations.
From S2P Require Import Prelude Bytes Types Wal.

(** ** State *)

(** What the threads share of a [PerPrefixWriter], with its file: [log_bytes] what the
    [write] calls handed over, [log_synced] how much of it the last [fsync] covered.
    Three fields record the past for the proofs: [appended] what was ever queued,
    [acked] the records whose waiters were signalled, [failed] that a [write] or
    [fsync] call failed. *)
Record Writer := mkWriter {
  writer_mode : WalMode;
  to_write : list WalRecord;
  is_writing : bool;
  log_bytes : ByteArray;
  log_synced : nat;
  appended : list WalRecord;
  acked : list WalRecord;
  failed : bool;
}.

(** Where a writer thread is in its loop. In [Writing] the part [buffer] of the batch is
    still to be written. *)
Inductive Pc :=
| Waiting
| Received (p : ByteArray)
| HasWork (p : ByteArray)
| Batching (p : ByteArray) (taken : list WalRecord)
| Writing (p : ByteArray) (taken : list WalRecord) (buffer : ByteArray)
| Signalling (p : ByteArray) (taken : list WalRecord)
| Written (p : ByteArray)
| Released (p : ByteArray).

#[export] Instance Pc_eq_dec : EqDecision Pc.
Proof. solve_decision. Defined.

(** [announcing] is the writer the notification thread has queued a record for and
    not announced yet. *)
Record WState := mkWState {
  ws : ByteArray → Writer;
  with_work : list ByteArray;
  announcing : option ByteArray;
  threads : list Pc;
}.

Definition new_writer (mode : WalMode) : Writer := mkWriter mode [] false [] 0 [] [] false.

Definition initial (mode : WalMode) (n : nat) : WState :=
  mkWState (λ _, new_writer mode) [] None (replicate n Waiting).

(** ** Updates *)

Definition queue_record (w : Writer) (rec : WalRecord) : Writer :=
  mkWriter (writer_mode w) (to_write w ++ [rec]) (is_writing w) (log_bytes w) (log_synced w)
    (appended w ++ [rec]) (acked w) (failed w).

Definition take_record (w : Writer) (q : list WalRecord) : Writer :=
  mkWriter (writer_mode w) q (is_writing w) (log_bytes w) (log_synced w) (appended w) (acked w) (failed w).

Definition set_writing (w : Writer) (b : bool) : Writer :=
  mkWriter (writer_mode w) (to_write w) b (log_bytes w) (log_synced w) (appended w) (acked w) (failed w).

Definition write_bytes (w : Writer) (b : ByteArray) : Writer :=
  mkWriter (writer_mode w) (to_write w) (is_writing w) (log_bytes w ++ b) (log_synced w) (appended w)
    (acked w) (failed w).

Definition set_failed (w : Writer) : Writer :=
  mkWriter (writer_mode w) (to_write w) (is_writing w) (log_bytes w) (log_synced w) (appended w)
    (acked w) true.

(** [fsync], when the mode asks for it *)
Definition sync_log (w : Writer) : Writer :=
  mkWriter (writer_mode w) (to_write w) (is_writing w) (log_bytes w)
    (if bool_decide (writer_mode w = WalSync) then length (log_bytes w) else log_synced w)
    (appended w) (acked w) (failed w).

Definition signal (w : Writer) (taken : list WalRecord) : Writer :=
  mkWriter (writer_mode w) (to_write w) (is_writing w) (log_bytes w) (log_synced w) (appended w)
    (acked w ++ taken) (failed w).

Definition set_thread (s : WState) (i : nat) (pc : Pc) : WState :=
  mkWState (ws s) (with_work s) (announcing s) (<[i := pc]> (threads s)).

Definition set_writer (s : WState) (p : ByteArray) (w : Writer) : WState :=
  mkWState (<[p := w]> (ws s)) (with_work s) (announcing s) (threads s).

Definition batch_size (taken : list WalRecord) : Z := foldr (λ r n, record_size r + n) 0 taken.

(** ** Steps *)

Inductive wstep (s : WState) : WState → Prop :=
(** [to_write_tx.send(record)] in [append] *)
| step_queue p rec :
    announcing s = None →
    wstep s (mkWState (<[p := queue_record (ws s p) rec]> (ws s)) (with_work s) (Some p) (threads s))
(** [writers_with_work_tx.send(writer)] in [append] *)
| step_announce p :
    announcing s = Some p →
    wstep s (mkWState (ws s) (with_work s ++ [p]) None (threads s))
(** [rx.recv()] *)
| step_recv i p l :
    threads s !! i = Some Waiting → with_work s = p :: l →
    wstep s (mkWState (ws s) l (announcing s) (<[i := Received p]> (threads s)))
(** [to_write_rx.is_empty()], before the flag *)
| step_no_work i p :
    threads s !! i = Some (Received p) → to_write (ws s p) = [] →
    wstep s (set_thread s i Waiting)
| step_has_work i p :
    threads s !! i = Some (Received p) → to_write (ws s p) ≠ [] →
    wstep s (set_thread s i (HasWork p))
(** [is_writing.compare_exchange(false, true)] *)
| step_lost i p :
    threads s !! i = Some (HasWork p) → is_writing (ws s p) = true →
    wstep s (set_thread s i Waiting)
| step_won i p :
    threads s !! i = Some (HasWork p) → is_writing (ws s p) = false →
    wstep s (set_thread (set_writer s p (set_writing (ws s p) true)) i (Batching p []))
(** [to_write_rx.recv_deadline()] in [write_locked] *)
| step_take i p taken rec q :
    threads s !! i = Some (Batching p taken) → to_write (ws s p) = rec :: q →
    batch_size taken < end_size →
    wstep s (set_thread (set_writer s p (take_record (ws s p) q)) i (Batching p (taken ++ [rec])))
(** The end of the batch, on the size, the clock or an empty queue *)
| step_batched i p taken :
    threads s !! i = Some (Batching p taken) →
    wstep s (set_thread s i (Writing p taken (encode_records taken)))
(** [libc::write]: it takes some of the buffer, or fails (an interrupted call is made
    again and changes nothing) *)
| step_wrote i p taken buffer n :
    threads s !! i = Some (Writing p taken buffer) → buffer ≠ [] → (n ≤ length buffer)%nat →
    wstep s (set_thread (set_writer s p (write_bytes (ws s p) (take n buffer))) i
               (Writing p taken (drop n buffer)))
| step_write_failed i p taken buffer :
    threads s !! i = Some (Writing p taken buffer) → buffer ≠ [] →
    wstep s (set_thread (set_writer s p (set_failed (ws s p))) i (Signalling p taken))
(** [libc::fsync], whose result is not looked at *)
| step_synced i p taken :
    threads s !! i = Some (Writing p taken []) →
    wstep s (set_thread (set_writer s p (sync_log (ws s p))) i (Signalling p taken))
| step_sync_failed i p taken :
    threads s !! i = Some (Writing p taken []) → writer_mode (ws s p) = WalSync →
    wstep s (set_thread (set_writer s p (set_failed (ws s p))) i (Signalling p taken))
(** [notify.notify_one()] for the batch, after a failure too *)
| step_signalled i p taken :
    threads s !! i = Some (Signalling p taken) →
    wstep s (set_thread (set_writer s p (signal (ws s p) taken)) i (Written p))
(** [is_writing.store(false)] *)
| step_release i p :
    threads s !! i = Some (Written p) →
    wstep s (set_thread (set_writer s p (set_writing (ws s p) false)) i (Released p))
(** [to_write_rx.is_empty()], after the flag *)
| step_done i p :
    threads s !! i = Some (Released p) → to_write (ws s p) = [] →
    wstep s (set_thread s i Waiting)
| step_again i p :
    threads s !! i = Some (Released p) → to_write (ws s p) ≠ [] →
    wstep s (mkWState (ws s) (with_work s ++ [p]) (announcing s) (<[i := Waiting]> (threads s))).

Definition reachable (mode : WalMode) (n : nat) (s : WState) : Prop := rtc wstep (initial mode n) s.

(** ** Invariants *)

(** A thread inside the section the flag guards. *)
Definition critical (p : ByteArray) (pc : Pc) : Prop :=
  match pc with Batching q _ | Writing q _ _ | Signalling q _ | Written q => q = p | _ => False end.

(** A thread that will look at the writer again. *)
Definition concerned (p : ByteArray) (pc : Pc) : Prop :=
  match pc with
  | Waiting => False
  | Received q | HasWork q | Batching q _ | Writing q _ _ | Signalling q _ | Written q | Released q => q = p
  end.

#[export] Instance critical_dec p x : Decision (critical p x).
Proof. destruct x; simpl; apply _. Defined.

(** The records a thread has taken and not acknowledged, those of them it has begun to
    write, and the bytes it has still to write. *)
Definition in_hand (pc : Pc) : list WalRecord :=
  match pc with Batching _ taken | Writing _ taken _ | Signalling _ taken => taken | _ => [] end.

Definition begun (pc : Pc) : list WalRecord :=
  match pc with Writing _ taken _ | Signalling _ taken => taken | _ => [] end.

Definition unwritten (pc : Pc) : ByteArray :=
  match pc with Writing _ _ buffer => buffer | _ => [] end.

(** How much of the log has to be on the disk when the thread is at [pc]. *)
Definition settled (pc : Pc) : list WalRecord :=
  match pc with Signalling _ taken => taken | _ => [] end.

(** The records and the bytes of a writer whose critical thread is at [x]. Every record
    appended was acknowledged, is in hand or waits; without a failure the log is made of
    the records acknowledged and begun, but for the bytes still to be written; and in
    sync mode what is acknowledged, or about to be, was handed to [fsync]. *)
Record log_ok (w : Writer) (x : Pc) : Prop := {
  lo_records : acked w ++ in_hand x ++ to_write w = appended w;
  lo_bytes : failed w = false → log_bytes w ++ unwritten x = encode_records (acked w ++ begun x);
  lo_synced : failed w = false → writer_mode w = WalSync →
    (length (encode_records (acked w ++ settled x)) ≤ log_synced w)%nat;
  lo_within : (log_synced w ≤ length (log_bytes w))%nat;
}.

(** The place of the critical thread of a writer, [Waiting] when there is none. *)
Definition holder (s : WState) (p : ByteArray) (x : Pc) : Prop :=
  (∃ i, threads s !! i = Some x ∧ critical p x) ∨
  (x = Waiting ∧ ∀ i y, threads s !! i = Some y → ¬ critical p y).

(** What holds of the writer of [p]: one thread at most is in its critical section, the
    flag says whether there is one, its records and bytes are accounted for, and records
    that wait are known to someone. *)
Record inv_at (s : WState) (p : ByteArray) : Prop := {
  wi_exclusive : ∀ i j x y, threads s !! i = Some x → threads s !! j = Some y →
    critical p x → critical p y → i = j;
  wi_flag : is_writing (ws s p) = true ↔ ∃ i x, threads s !! i = Some x ∧ critical p x;
  wi_log : ∀ x, holder s p x → log_ok (ws s p) x;
  wi_work : to_write (ws s p) ≠ [] →
    p ∈ with_work s ∨ announcing s = Some p ∨ ∃ i x, threads s !! i = Some x ∧ concerned p x;
}.

Definition wal_inv (s : WState) : Prop := ∀ p, inv_at s p.

Lemma critical_concerned p x : critical p x → concerned p x.
Proof. by destruct x. Qed.

(** The threads after thread [i] has moved. *)
Lemma moved_lookup (l : list Pc) i x x' j y :
  l !! i = Some x → <[i := x']> l !! j = Some y ↔ (j = i ∧ y = x') ∨ (j ≠ i ∧ l !! j = Some y).
Proof.
  intros Hi. destruct (decide (j = i)) as [->|Hne].
  - rewrite list_lookup_insert_eq by (by eapply lookup_lt_Some). naive_solver.
  - rewrite list_lookup_insert_ne by done. naive_solver.
Qed.

(** Threads that agree on who is in the critical section agree on the holder. *)
Lemma holder_same s s' p x :
  (∀ j y, critical p y → threads s' !! j = Some y ↔ threads s !! j = Some y) →
  holder s' p x → holder s p x.
Proof.
  intros Hsame [(i & Hi & Hx)|[-> Hno]]; [left; exists i; by rewrite <- Hsame|right].
  split; [done|]. intros i y Hi Hy. apply (Hno i y); [by apply Hsame|done].
Qed.

(** A step of thread [i] that concerns only the writer of [p] keeps the invariant of
    the others. *)
Lemma inv_other s s' p q i x x' :
  inv_at s q → q ≠ p → threads s !! i = Some x → threads s' = <[i := x']> (threads s) →
  ws s' q = ws s q → ¬ concerned q x → ¬ concerned q x' →
  (q ∈ with_work s → q ∈ with_work s') → announcing s' = announcing s → inv_at s' q.
Proof.
  intros [He Hf Hl Hw] Hne Hi Ht Hws Hx Hx' Hq Ha.
  assert (∀ j y, concerned q y → threads s' !! j = Some y ↔ threads s !! j = Some y) as Hsame.
  { intros j y Hy. rewrite Ht, (moved_lookup _ _ _ _ _ _ Hi). split; [naive_solver|].
    intros Hj. right. split; [|done]. intros ->. congruence. }
  split; rewrite ?Hws, ?Ha.
  - intros j k y z Hj Hk Hy Hz.
    apply Hsame in Hj; [|by apply critical_concerned]. apply Hsame in Hk; [|by apply critical_concerned].
    by eapply He.
  - rewrite Hf. split; intros (j & y & Hj & Hy); exists j, y;
      (split; [apply Hsame; [by apply critical_concerned|done]|done]).
  - intros y Hy. apply Hl. eapply holder_same; [|done]. eauto using critical_concerned.
  - intros Hne'. destruct (Hw Hne') as [?|[?|(j & y & Hj & Hy)]]; [by auto|by auto|].
    right; right. exists j, y. split; [by apply Hsame|done].
Qed.

(** ** The invariant holds *)

Lemma inv_initial mode n : wal_inv (initial mode n).
Proof.
  intros p. split; simpl; try done.
  - intros i j x y Hi Hj Hx. apply lookup_replicate in Hi as [-> _]. done.
  - split; [done|]. intros (i & x & Hi & Hx). apply lookup_replicate in Hi as [-> _]. done.
  - intros x [(i & Hi & Hx)|[-> _]]; [by apply lookup_replicate in Hi as [-> _]|].
    by split; simpl; try done; intros; lia.
Qed.

(** Threads that leave the critical section alone. *)
Lemma inv_move s s' p i x x' :
  inv_at s p → threads s !! i = Some x → threads s' = <[i := x']> (threads s) →
  ws s' p = ws s p → ¬ critical p x → ¬ critical p x' →
  (to_write (ws s p) ≠ [] → p ∈ with_work s' ∨ announcing s' = Some p ∨
     ∃ j y, threads s' !! j = Some y ∧ concerned p y) →
  inv_at s' p.
Proof.
  intros [He Hf Hl Hw] Hi Ht Hws Hx Hx' Hwork.
  assert (∀ j y, critical p y → threads s' !! j = Some y ↔ threads s !! j = Some y) as Hsame.
  { intros j y Hy. rewrite Ht, (moved_lookup _ _ _ _ _ _ Hi). split; [naive_solver|].
    intros Hj. right. split; [|done]. intros ->. congruence. }
  split; rewrite ?Hws; [| | |done].
  - intros j k y z Hj Hk Hy Hz. apply Hsame in Hj; [|done]. apply Hsame in Hk; [|done]. by eapply He.
  - rewrite Hf. split; intros (j & y & Hj & Hy); exists j, y; (split; [by apply Hsame|done]).
  - intros y Hy. apply Hl. by eapply holder_same.
Qed.

(** The holder the thread at [x] makes. *)
Definition held (p : ByteArray) (x : Pc) : Pc := if decide (critical p x) then x else Waiting.

(** Threads that move within the critical section, or enter or leave it. *)
Lemma inv_critical s s' p i x x' :
  inv_at s p → threads s !! i = Some x → threads s' = <[i := x']> (threads s) →
  concerned p x' → is_writing (ws s p) = bool_decide (critical p x) →
  is_writing (ws s' p) = bool_decide (critical p x') →
  (log_ok (ws s p) (held p x) → log_ok (ws s' p) (held p x')) → inv_at s' p.
Proof.
  intros [He Hf Hl Hw] Hi Ht Hc Hold Hnew Hlog. rewrite Hold, bool_decide_eq_true in Hf.
  assert (∀ j y, threads s' !! j = Some y → critical p y → j = i ∧ y = x') as Honly.
  { intros j y Hj Hy. rewrite Ht, (moved_lookup _ _ _ _ _ _ Hi) in Hj.
    destruct Hj as [?|[Hne Hj]]; [done|]. exfalso. apply Hne.
    assert (critical p x) as Hx by (apply Hf; by exists j, y). by apply (He j i y x). }
  assert (threads s' !! i = Some x') as Hi'.
  { rewrite Ht. apply list_lookup_insert_eq. by eapply lookup_lt_Some. }
  assert (log_ok (ws s' p) (held p x')) as Hok.
  { apply Hlog, Hl. unfold held, holder. case_decide as Hx; [by eauto|]. right. split; [done|].
    intros j y Hj Hy. apply Hx, Hf. eauto. }
  split.
  - intros j k y z Hj Hk Hy Hz. destruct (Honly j y Hj Hy), (Honly k z Hk Hz). congruence.
  - rewrite Hnew, bool_decide_eq_true. split; [by eauto|].
    intros (j & y & Hj & Hy). by destruct (Honly j y Hj Hy) as [_ <-].
  - unfold held in Hok. intros y [(j & Hj & Hy)|[-> Hno]].
    + destruct (Honly j y Hj Hy) as [_ ->]. by rewrite decide_True in Hok.
    + rewrite decide_False in Hok; [done|]. by apply (Hno i).
  - intros _. right; right. eauto.
Qed.

#[local] Arguments bool_decide : simpl never.

(** A thread at a given place is not concerned with another writer. *)
Ltac unconcerned := simpl; intros ?; (done || congruence).

Ltac other_writer s p q i :=
  eapply (inv_other s _ p q i);
  [done|done|done|done|simpl; rewrite ?fn_lookup_insert_ne by done; done|unconcerned|unconcerned| |done].

Lemma inv_queue s p rec q : announcing s = None → inv_at s q →
  inv_at (mkWState (<[p := queue_record (ws s p) rec]> (ws s)) (with_work s) (Some p) (threads s)) q.
Proof.
  intros Ha [He Hf Hl Hw]. destruct (decide (p = q)) as [->|Hne].
  - split; simpl; rewrite ?fn_lookup_insert; simpl; [done|done| |by auto].
    intros x Hx. destruct (Hl x Hx) as [Hr Hb Hs Hin]. split; simpl; try done. by rewrite <- Hr, !app_assoc.
  - split; simpl; rewrite ?fn_lookup_insert_ne by done; try done.
    intros Hne'. destruct (Hw Hne') as [?|[?|?]]; [by auto|congruence|by auto].
Qed.

Lemma inv_announce s p q : announcing s = Some p → inv_at s q →
  inv_at (mkWState (ws s) (with_work s ++ [p]) None (threads s)) q.
Proof.
  intros Ha [He Hf Hl Hw]. split; simpl; try done. intros Hne.
  destruct (Hw Hne) as [?|[?|?]]; [left; set_solver|left; set_solver|by auto].
Qed.

(** Someone else is concerned when the flag is taken. *)
Lemma flag_concerned s p i x :
  inv_at s p → is_writing (ws s p) = true → threads s !! i = Some x → ¬ critical p x →
  ∃ j y, <[i := Waiting]> (threads s) !! j = Some y ∧ concerned p y.
Proof.
  intros Hinv (j & y & Hj & Hy)%(wi_flag _ _ Hinv) Hi Hx. exists j, y.
  split; [|by apply critical_concerned]. apply (moved_lookup _ _ _ _ _ _ Hi). right.
  split; [|done]. intros ->. congruence.
Qed.

Lemma flag_critical s p i x :
  inv_at s p → threads s !! i = Some x → critical p x → is_writing (ws s p) = true.
Proof. intros Hinv Hi Hx. apply (wi_flag _ _ Hinv). eauto. Qed.

(** A step inside the critical section of [p]: what is left is its effect on [log_ok]. *)
Ltac critical_step s p i Hq Hi :=
  eapply (inv_critical s _ p i);
  [done|done|done|done
  |rewrite (flag_critical _ _ _ _ Hq Hi) by done; by rewrite bool_decide_true
  |simpl; rewrite fn_lookup_insert; simpl; rewrite (flag_critical _ _ _ _ Hq Hi) by done;
   by rewrite bool_decide_true
  |simpl; rewrite ?fn_lookup_insert; unfold held; rewrite !decide_True by done;
   intros [Hr Hb Hs Hin]; split; simpl in *].

Lemma inv_step s s' : wal_inv s → wstep s s' → wal_inv s'.
Proof.
  intros Hinv Hstep q. pose proof (Hinv q) as Hq.
  destruct Hstep as [p rec Ha|p Ha|i p l Hi Hl|i p Hi He|i p Hi He|i p Hi Hf|i p Hi Hf
    |i p taken rec l Hi Hl Hsz|i p taken Hi|i p taken buf n Hi Hne Hn|i p taken buf Hi Hne
    |i p taken Hi|i p taken Hi Hm|i p taken Hi|i p Hi|i p Hi He|i p Hi He];
    [by apply inv_queue|by apply inv_announce|..];
    (destruct (decide (q = p)) as [->|Hqp];
      [|other_writer s p q i; simpl; rewrite ?Hl; set_solver]).
  - eapply (inv_move s _ p i); [done..|unconcerned|unconcerned|].
    intros _. right; right. exists i, (Received p). split; [|done].
    by apply (moved_lookup _ _ _ _ _ _ Hi); left.
  - eapply (inv_move s _ p i); [done..|unconcerned|unconcerned|done].
  - eapply (inv_move s _ p i); [done..|unconcerned|unconcerned|].
    intros _. right; right. exists i, (HasWork p). split; [|done].
    by apply (moved_lookup _ _ _ _ _ _ Hi); left.
  - eapply (inv_move s _ p i); [done..|unconcerned|unconcerned|].
    intros _. right; right. eapply flag_concerned; [done..|unconcerned].
  - eapply (inv_critical s _ p i); [done..|by rewrite Hf|by simpl; rewrite fn_lookup_insert, bool_decide_true|].
    simpl. rewrite fn_lookup_insert. unfold held. rewrite decide_False, decide_True by (simpl; auto).
    intros [Hr Hb Hs Hin]. by split.
  - critical_step s p i Hq Hi; [|done..]. by rewrite <- Hr, Hl, <- app_assoc.
  - eapply (inv_critical s _ p i); [done..| | |].
    { rewrite (flag_critical _ _ _ _ Hq Hi) by done. by rewrite bool_decide_true. }
    { simpl. rewrite (flag_critical _ _ _ _ Hq Hi) by done. by rewrite bool_decide_true. }
    simpl. unfold held. rewrite !decide_True by done. intros [Hr Hb Hs Hin]. split; simpl in *; try done.
    intros Hfl. rewrite encode_records_app, <- (app_nil_r (acked _)), <- Hb by done. by rewrite app_nil_r.
  - critical_step s p i Hq Hi; [done| |done|].
    + intros Hfl. rewrite <- app_assoc, take_drop. by apply Hb.
    + rewrite length_app. lia.
  - critical_step s p i Hq Hi; done.
  - critical_step s p i Hq Hi; [done| | |].
    + done.
    + intros Hfl Hm. rewrite bool_decide_true, <- Hb, app_nil_r by done. done.
    + case_bool_decide; [done|lia].
  - critical_step s p i Hq Hi; done.
  - critical_step s p i Hq Hi; [by rewrite <- app_assoc|by rewrite (app_nil_r (_ ++ taken))|by rewrite app_nil_r|done].
  - eapply (inv_critical s _ p i); [done..| | |].
    { rewrite (flag_critical _ _ _ _ Hq Hi) by done. by rewrite bool_decide_true. }
    { simpl. rewrite fn_lookup_insert. simpl. by rewrite bool_decide_false by auto. }
    simpl. rewrite fn_lookup_insert. unfold held. rewrite decide_True, decide_False by (simpl; auto).
    intros [Hr Hb Hs Hin]. by split.
  - eapply (inv_move s _ p i); [done..|unconcerned|unconcerned|done].
  - eapply (inv_move s _ p i); [done..|unconcerned|unconcerned|]. intros _. left. simpl. set_solver.
Qed.

Lemma inv_reachable mode n s : reachable mode n s → wal_inv s.
Proof.
  intros Hr. unfold reachable in Hr. assert (wal_inv (initial mode n)) as Hi by apply inv_initial.
  revert Hi. induction Hr; [done|]. eauto using inv_step.
Qed.

Lemma threads_constant mode n s : reachable mode n s → length (threads s) = n.
Proof.
  intros Hr. unfold reachable in Hr. remember (initial mode n) as s0 eqn:E.
  assert (length (threads s0) = n) as H0 by (subst; apply length_replicate). clear E. revert H0.
  induction Hr as [|x y z Hs _ IH]; [done|]. intros Hn. apply IH.
  destruct Hs; simpl; rewrite ?length_insert; done.
Qed.

Lemma mode_constant mode n s p : reachable mode n s → writer_mode (ws s p) = mode.
Proof.
  intros Hr. unfold reachable in Hr. remember (initial mode n) as s0 eqn:E.
  assert (writer_mode (ws s0 p) = mode) as H0 by (by subst). clear E. revert H0.
  induction Hr as [|x y z Hs _ IH]; [done|]. intros Hn. apply IH. clear IH.
  destruct Hs; simpl; try done;
    (destruct (decide (p0 = p)) as [->|]; [by rewrite fn_lookup_insert|by rewrite fn_lookup_insert_ne]).
Qed.

Lemma holder_exists s p : inv_at s p → ∃ x, holder s p x.
Proof.
  intros Hq. destruct (is_writing (ws s p)) eqn:E.
  - apply (wi_flag _ _ Hq) in E as (i & x & Hi & Hx). exists x. left. eauto.
  - exists Waiting. right. split; [done|]. intros i y Hi Hy.
    assert (is_writing (ws s p) = true) by (apply (wi_flag _ _ Hq); eauto). congruence.
Qed.

(** Without a failed call, a log is at every moment the start of the encoding of what was
    appended to it, the records acknowledged came first, and in sync mode they are within
    what [fsync] covered. *)
Lemma log_of_reachable mode n s p :
  reachable mode n s → failed (ws s p) = false →
  log_bytes (ws s p) `prefix_of` encode_records (appended (ws s p)) ∧
  acked (ws s p) `prefix_of` appended (ws s p) ∧
  (log_synced (ws s p) ≤ length (log_bytes (ws s p)))%nat ∧
  (mode = WalSync → (length (encode_records (acked (ws s p))) ≤ log_synced (ws s p))%nat).
Proof.
  intros Hr Hf. pose proof (inv_reachable _ _ _ Hr p) as Hq. pose proof (mode_constant _ _ _ p Hr) as Hm.
  destruct (holder_exists s p Hq) as [x Hx]. destruct (wi_log _ _ Hq x Hx) as [Hrec Hb Hs Hin].
  specialize (Hb Hf). split.
  { destruct x as [| | |q taken|q taken buf|q taken| |]; simpl in *; rewrite ?app_nil_r in Hb;
      try (rewrite Hb, <- Hrec, !encode_records_app; by eexists).
    - exists (buf ++ encode_records (to_write (ws s p))).
      by rewrite <- Hrec, app_assoc, encode_records_app, app_assoc, Hb.
    - rewrite Hb, <- Hrec, app_assoc, (encode_records_app (_ ++ taken)). by eexists. }
  split; [rewrite <- Hrec; by eexists|]. split; [done|]. intros E. rewrite E in Hm. specialize (Hs Hf Hm).
  rewrite encode_records_app, length_app in Hs. lia.
Qed.

(** ** A whole call of [write_locked] *)

(** Thread [i] ran alone: it is at [x] now, and all else that changed is the writer of [p]. *)
Record ran_alone (s : WState) (i : nat) (p : ByteArray) (x : Pc) (w : Writer) (s' : WState) : Prop := {
  ra_steps : rtc wstep s s';
  ra_threads : threads s' = <[i := x]> (threads s);
  ra_writer : ws s' p = w;
  ra_others : ∀ q, q ≠ p → ws s' q = ws s q;
  ra_work : with_work s' = with_work s ∧ announcing s' = announcing s;
}.

Lemma ran_alone_refl s i p x w : threads s !! i = Some x → ws s p = w → ran_alone s i p x w s.
Proof. intros Hi Hw. split; try done. by rewrite list_insert_id. Qed.

Lemma ran_alone_step s s1 i p x y w :
  wstep s s1 → threads s1 = <[i := y]> (threads s) → (∀ q, q ≠ p → ws s1 q = ws s q) →
  with_work s1 = with_work s ∧ announcing s1 = announcing s →
  (∃ s', ran_alone s1 i p x w s') → ∃ s', ran_alone s i p x w s'.
Proof.
  intros Hs Ht1 Ho1 [Hwk1 Ha1] (s' & [Hsteps Ht Hw Ho [Hwk Ha]]). exists s'. split; [by eapply rtc_l|..].
  - by rewrite Ht, Ht1, list_insert_insert_eq.
  - done.
  - intros q Hq. by rewrite Ho, Ho1.
  - by rewrite Hwk, Ha, Hwk1, Ha1.
Qed.

(** Take the step [c] alone. *)
Ltac alone c :=
  eapply ran_alone_step;
  [by eapply c|done|intros ? ?; simpl; rewrite ?fn_lookup_insert_ne by done; done|done|].

(** The batching loop takes its records one [recv_deadline] at a time. *)
Lemma batch_runs clock s i p taken queue more rest x w :
  threads s !! i = Some (Batching p taken) → to_write (ws s p) = queue →
  batch clock queue (batch_size taken) = (more, rest) →
  (∀ s1, threads s1 !! i = Some (Batching p (taken ++ more)) → ws s1 p = take_record (ws s p) rest →
     ∃ s', ran_alone s1 i p x w s') →
  ∃ s', ran_alone s i p x w s'.
Proof.
  revert s taken queue more. induction clock as [|clock IH]; intros s taken queue more Hi Hq Hb Hk;
    [|destruct queue as [|rec queue]]; simpl in Hb.
  1, 2: injection Hb as <- <-; apply Hk; [by rewrite app_nil_r|]; rewrite <- Hq; by destruct (ws s p).
  destruct (batch_size taken <? end_size) eqn:E.
  2: { injection Hb as <- <-. apply Hk; [by rewrite app_nil_r|]. rewrite <- Hq. by destruct (ws s p). }
  apply Z.ltb_lt in E. destruct (batch clock queue _) as [more' rest'] eqn:Eb. injection Hb as <- <-.
  assert (i < length (threads s))%nat as Hlt by (by eapply lookup_lt_Some).
  alone step_take.
  eapply IH; simpl.
  - by rewrite list_lookup_insert_eq.
  - by rewrite fn_lookup_insert.
  - rewrite <- Eb. f_equal. clear. induction taken as [|r l IHl]; simpl; lia.
  - rewrite fn_lookup_insert, <- app_assoc. intros s1 H1 H2. apply Hk; [done|]. by rewrite H2.
Qed.

(** The write loop hands the buffer over, one [write] call at a time. *)
Lemma write_loop_runs calls s i p taken buffer written r x w :
  threads s !! i = Some (Writing p taken buffer) → write_loop calls buffer = Some (written, r) →
  (∀ s1, match r with
         | Ok _ => threads s1 !! i = Some (Writing p taken []) ∧ ws s1 p = write_bytes (ws s p) written
         | Err _ => threads s1 !! i = Some (Signalling p taken) ∧
             ws s1 p = set_failed (write_bytes (ws s p) written)
         end → ∃ s', ran_alone s1 i p x w s') →
  ∃ s', ran_alone s i p x w s'.
Proof.
  revert s buffer written. induction calls as [|c calls IH]; intros s buffer written Hi Hw Hk;
    (destruct buffer as [|b buffer]; simpl in Hw;
     [injection Hw as <- <-; apply Hk; split; [done|];
      unfold write_bytes; rewrite app_nil_r; by destruct (ws s p)|]); [done|].
  assert (i < length (threads s))%nat as Hlt by (by eapply lookup_lt_Some).
  destruct c as [n| |].
  - destruct (write_loop calls _) as [[written' r']|] eqn:E; [|done]. injection Hw as <- <-.
    assert (∃ m, (m ≤ length (b :: buffer))%nat ∧ take n (b :: buffer) = take m (b :: buffer) ∧
      drop n (b :: buffer) = drop m (b :: buffer)) as (m & Hm & Htk & Hdr).
    { destruct (decide (n ≤ length (b :: buffer))%nat) as [|Hn]; [by exists n|]. exists (length (b :: buffer)).
      by rewrite (take_ge _ n), (drop_ge _ n), take_ge, drop_ge by lia. }
    rewrite Htk in Hk. rewrite Hdr in E.
    alone (step_wrote s i p taken (b :: buffer) m).
    eapply IH; [simpl; by rewrite list_lookup_insert_eq|exact E|].
    intros s1. simpl. rewrite fn_lookup_insert. intros H1. apply Hk.
    destruct r'; (destruct H1 as [H1 H2]; split; [done|]; rewrite H2; unfold write_bytes; simpl; by rewrite <- app_assoc).
  - by eapply IH.
  - injection Hw as <- <-.
    alone step_write_failed. apply Hk. simpl.
    rewrite list_lookup_insert_eq, fn_lookup_insert by done. split; [done|].
    unfold write_bytes. rewrite app_nil_r. by destruct (ws s p).
Qed.

(** ** Properties *)

(** C22: the writer threads exclude each other. In every state the threads can reach, for
    any number of threads and every interleaving, at most one thread is between setting
    and clearing the flag of a writer, and the flag is set exactly while there is one. *)
Theorem wal_mutual_exclusion mode n s p :
  reachable mode n s →
  (∀ i j x y, threads s !! i = Some x → threads s !! j = Some y →
     critical p x → critical p y → i = j) ∧
  (is_writing (ws s p) = true ↔ ∃ i x, threads s !! i = Some x ∧ critical p x).
Proof.
  intros Hr. pose proof (inv_reachable mode n s Hr p) as [He Hf _ _]. done.
Qed.

(** C21: no record is lost or reordered. When the threads have come to rest (nothing being
    announced, no announcement pending, every thread waiting), every queue is empty, the
    waiters of every record were signalled in the order the records were appended and,
    unless a [write] or [fsync] call failed, each log holds the encoding of exactly the
    records that were appended to it, in that order, whatever the interleaving. *)
Theorem wal_quiescent_complete mode n s p :
  reachable mode n s → announcing s = None → with_work s = [] → Forall (λ x, x = Waiting) (threads s) →
  to_write (ws s p) = [] ∧ acked (ws s p) = appended (ws s p) ∧
  (failed (ws s p) = false → log_bytes (ws s p) = encode_records (appended (ws s p))).
Proof.
  intros Hr Ha Hw Hall. pose proof (inv_reachable mode n s Hr p) as [_ _ Hl Hk].
  rewrite Forall_forall in Hall.
  assert (∀ i x, threads s !! i = Some x → x = Waiting) as Hth.
  { intros i x Hi. apply Hall. by eapply list_elem_of_lookup_2. }
  assert (to_write (ws s p) = []) as He.
  { destruct (decide (to_write (ws s p) = [])) as [|Hne]; [done|]. exfalso.
    destruct (Hk Hne) as [Hin|[Hin|(i & x & Hi & Hx)]]; [|congruence|].
    - rewrite Hw in Hin. by apply elem_of_nil in Hin.
    - by apply Hth in Hi as ->. }
  destruct (Hl Waiting) as [Hrec Hb _ _].
  { right. split; [done|]. intros i y ->%Hth []. }
  simpl in *. rewrite He, app_nil_r in Hrec. split; [done|]. split; [done|]. intros Hfl.
  specialize (Hb Hfl). by rewrite !app_nil_r, Hrec in Hb.
Qed.

(** C15: what is acknowledged is on the disk. In fsync mode, at every moment of every
    interleaving and as long as no [write] or [fsync] call on its file fails, the records
    of a log whose waiters were signalled are the first ones appended, and the part of
    the file the last [fsync] covered begins with all of them, whole and in order. *)
Theorem acknowledged_is_durable n s p :
  reachable WalSync n s → failed (ws s p) = false →
  acked (ws s p) `prefix_of` appended (ws s p) ∧
  encode_records (acked (ws s p)) `prefix_of` take (log_synced (ws s p)) (log_bytes (ws s p)).
Proof.
  intros Hr Hf. destruct (log_of_reachable _ _ _ p Hr Hf) as (Hlog & Hack & Hle & Hs).
  split; [done|]. specialize (Hs eq_refl). destruct Hack as [l Hl], Hlog as [b Hb].
  rewrite Hl, encode_records_app in Hb.
  apply (f_equal (take (log_synced (ws s p)))) in Hb.
  rewrite take_app_ge, take_app_le in Hb by lia. rewrite <- Hb. by eexists.
Qed.

(** A call of [write_locked] is a run of the threads. Whatever the clock allowed and
    the [write] calls did, what the call computes in one go (the file, the queue left, the
    waiters signalled) is what a thread that runs alone through its steps from the start
    of its batch leaves behind, when no [fsync] fails. *)
Theorem write_locked_is_a_run s i p clock calls file queue file' rest signalled r :
  threads s !! i = Some (Batching p []) → to_write (ws s p) = queue →
  log_bytes (ws s p) = file_bytes file → log_synced (ws s p) = synced file →
  write_locked (writer_mode (ws s p)) clock calls file queue = Some (file', rest, signalled, r) →
  ∃ s' taken, rtc wstep s s' ∧ threads s' = <[i := Written p]> (threads s) ∧
    to_write (ws s' p) = rest ∧ queue = taken ++ rest ∧
    log_bytes (ws s' p) = file_bytes file' ∧ log_synced (ws s' p) = synced file' ∧
    acked (ws s' p) = acked (ws s p) ++ taken ∧ signalled = omap written_notify taken ∧
    (∀ q, q ≠ p → ws s' q = ws s q).
Proof.
  intros Hi Hq Hb Hsy Hwl. unfold write_locked in Hwl. destruct (batch clock queue 0) as [taken rest0] eqn:Eb.
  pose proof (batch_split _ _ _ _ _ Eb) as Hsplit. simpl in Hsplit.
  destruct (write_loop calls (encode_records taken)) as [[written res]|] eqn:Ew; [|done].
  set (w1 := write_bytes (take_record (ws s p) rest0) written).
  set (w2 := match res with Ok _ => sync_log w1 | Err _ => set_failed w1 end).
  assert (∃ s', ran_alone s i p (Written p) (signal w2 taken) s') as (s' & [Hsteps Ht Hw Ho _]).
  { eapply (batch_runs clock s i p [] queue taken rest0); [done|done|done|]. intros s1 H1 Hs1. simpl in H1.
    assert (i < length (threads s1))%nat as Hlt by (by eapply lookup_lt_Some).
    alone step_batched.
    eapply write_loop_runs; [simpl; by rewrite list_lookup_insert_eq|exact Ew|]. intros s2 H2. simpl in H2.
    rewrite Hs1 in H2. fold w1 in H2.
    assert (∀ s3, threads s3 !! i = Some (Signalling p taken) → ws s3 p = w2 →
      ∃ s', ran_alone s3 i p (Written p) (signal w2 taken) s') as Hlast.
    { intros s3 H3 Hs3. alone step_signalled.
      eexists. apply ran_alone_refl; simpl.
      - apply list_lookup_insert_eq. by eapply lookup_lt_Some.
      - by rewrite fn_lookup_insert, Hs3. }
    subst w2. destruct res as [[]|e], H2 as [H2 Hs2]; [|by apply Hlast].
    alone step_synced. apply Hlast; simpl.
    - apply list_lookup_insert_eq. by eapply lookup_lt_Some.
    - by rewrite fn_lookup_insert, Hs2. }
  exists s', taken. rewrite Hw. split; [done|]. split; [done|].
  subst w2 w1. destruct res as [[]|e]; simplify_eq/=; rewrite ?Hb, ?Hsy; split_and!; done.
Qed.

(** The writer threads do not get stuck. While records wait in some queue and there is
    at least one thread, the notification thread or a writer thread can take a step that
    is not the arrival of a new record. *)
Theorem wal_no_deadlock mode n s p :
  reachable mode n s → (0 < n)%nat → to_write (ws s p) ≠ [] →
  ∃ s', wstep s s' ∧ ∀ q, appended (ws s' q) = appended (ws s q).
Proof.
  intros Hr Hn Hne. pose proof (threads_constant mode n s Hr) as Hlen.
  pose proof (inv_reachable mode n s Hr p) as [_ _ _ Hk].
  assert (∀ q r w, appended w = appended (ws s r) → appended (<[r := w]> (ws s) q) = appended (ws s q))
    as Hupd.
  { intros q r w Hw. destruct (decide (r = q)) as [->|]; [by rewrite fn_lookup_insert|].
    by rewrite fn_lookup_insert_ne. }
  destruct (decide (Exists (λ x, x ≠ Waiting) (threads s))) as [Hex|Hall].
  - apply Exists_exists in Hex as (x & Hx & Hnw). apply list_elem_of_lookup in Hx as [i Hi].
    destruct x as [|q|q|q taken|q taken buf|q taken|q|q]; [done|..].
    + destruct (decide (to_write (ws s q) = [])); eexists; (split; [by econstructor|done]).
    + destruct (is_writing (ws s q)) eqn:E; eexists.
      * split; [by eapply step_lost|done].
      * split; [by eapply step_won|]. intros r. by apply Hupd.
    + eexists. split; [by eapply step_batched|done].
    + destruct buf as [|b buf]; eexists.
      * split; [by eapply step_synced|]. intros r. by apply Hupd.
      * split; [by eapply (step_wrote s i q taken _ (length (b :: buf)))|]. intros r. by apply Hupd.
    + eexists. split; [by eapply step_signalled|]. intros r. by apply Hupd.
    + eexists. split; [by eapply step_release|]. intros r. by apply Hupd.
    + destruct (decide (to_write (ws s q) = [])); eexists;
        [split; [by eapply step_done|done]|split; [by eapply step_again|done]].
  - apply not_Exists_Forall in Hall; [|apply _].
    destruct (lookup_lt_is_Some_2 (threads s) 0) as [x Hx]; [lia|].
    assert (x = Waiting) as ->.
    { rewrite Forall_forall in Hall. specialize (Hall x (list_elem_of_lookup_2 _ _ _ Hx)). simpl in Hall.
      destruct (decide (x = Waiting)); [done|]. by destruct Hall. }
    destruct (announcing s) as [r|] eqn:Ea; [eexists; split; [by eapply step_announce|done]|].
    destruct (with_work s) as [|r l] eqn:El; [|eexists; split; [by eapply step_recv|done]].
    exfalso. destruct (Hk Hne) as [Hin|[Hin|(j & y & Hj & Hy)]]; [by apply elem_of_nil in Hin|done|].
    rewrite Forall_forall in Hall. specialize (Hall y (list_elem_of_lookup_2 _ _ _ Hj)). simpl in Hall.
    apply Hall. intros ->. done.
Qed.

(** ** A run of two threads *)

Definition rec1 : WalRecord := mkWalRecord 1 (bytes "a") (Some (bytes "x")) (Some 0%nat).

Definition run1 : WState :=
  mkWState (<[[] := queue_record (new_writer WalSync) rec1]> (ws (initial WalSync 2))) [] (Some []) [Waiting; Waiting].
Definition run2 : WState := mkWState (ws run1) [[]] None [Waiting; Waiting].
Definition run3 : WState := mkWState (ws run2) [] None [Received []; Waiting].
Definition run4 : WState := set_thread run3 0 (HasWork []).
Definition run5 : WState := set_thread (set_writer run4 [] (set_writing (ws run4 []) true)) 0 (Batching [] []).
Definition run6 : WState := set_thread (set_writer run5 [] (take_record (ws run5 []) [])) 0 (Batching [] [rec1]).
Definition run7 : WState := set_thread run6 0 (Writing [] [rec1] (encode_records [rec1])).
(** The first [write] call takes 10 of the 18 bytes. *)
Definition run8 : WState :=
  set_thread (set_writer run7 [] (write_bytes (ws run7 []) (take 10 (encode_records [rec1])))) 0
    (Writing [] [rec1] (drop 10 (encode_records [rec1]))).
Definition run9 : WState :=
  set_thread (set_writer run8 [] (write_bytes (ws run8 []) (take 8 (drop 10 (encode_records [rec1]))))) 0
    (Writing [] [rec1] (drop 8 (drop 10 (encode_records [rec1])))).
Definition run10 : WState := set_thread (set_writer run9 [] (sync_log (ws run9 []))) 0 (Signalling [] [rec1]).
Definition run11 : WState := set_thread (set_writer run10 [] (signal (ws run10 []) [rec1])) 0 (Written []).
Definition run12 : WState := set_thread (set_writer run11 [] (set_writing (ws run11 []) false)) 0 (Released []).
Definition run13 : WState := set_thread run12 0 Waiting.

Lemma run5_reachable : reachable WalSync 2 run5.
Proof.
  apply (rtc_l _ _ run1); [by apply (step_queue (initial WalSync 2) [] rec1)|].
  apply (rtc_l _ _ run2); [by apply (step_announce run1 [])|].
  apply (rtc_l _ _ run3); [by apply (step_recv run2 0 [] [])|].
  apply (rtc_l _ _ run4); [by apply (step_has_work run3 0 [])|].
  by apply rtc_once, (step_won run4 0 []).
Qed.

Lemma run8_reachable : reachable WalSync 2 run8.
Proof.
  unfold reachable. transitivity run5; [exact run5_reachable|].
  apply (rtc_l _ _ run6); [by apply (step_take run5 0 [] [] rec1 [])|].
  apply (rtc_l _ _ run7); [by apply (step_batched run6 0 [] [rec1])|].
  apply rtc_once, (step_wrote run7 0 [] [rec1] (encode_records [rec1]) 10); [done|done|].
  apply (bool_decide_unpack _). vm_compute. exact I.
Qed.

Lemma run13_reachable : reachable WalSync 2 run13.
Proof.
  unfold reachable. transitivity run8; [exact run8_reachable|].
  apply (rtc_l _ _ run9).
  { apply (step_wrote run8 0 [] [rec1] (drop 10 (encode_records [rec1])) 8); [done|done|].
    apply (bool_decide_unpack _). vm_compute. exact I. }
  apply (rtc_l _ _ run10); [by apply (step_synced run9 0 [] [rec1])|].
  apply (rtc_l _ _ run11); [by apply (step_signalled run10 0 [] [rec1])|].
  apply (rtc_l _ _ run12); [by apply (step_release run11 0 [])|].
  by apply rtc_once, (step_done run12 0 []).
Qed.

Lemma wal_mutual_exclusion_witness :
  is_writing (ws run5 []) = true ↔ ∃ i x, threads run5 !! i = Some x ∧ critical [] x.
Proof. exact (proj2 (wal_mutual_exclusion WalSync 2 run5 [] run5_reachable)). Defined.

Lemma wal_quiescent_complete_witness :
  log_bytes (ws run13 []) = encode_records [rec1].
Proof.
  apply (wal_quiescent_complete WalSync 2 run13 [] run13_reachable);
    [reflexivity|reflexivity|repeat constructor|reflexivity].
Defined.

Lemma acknowledged_is_durable_witness :
  acked (ws run13 []) = [rec1] ∧
  encode_records [rec1] `prefix_of` take (log_synced (ws run13 [])) (log_bytes (ws run13 [])).
Proof.
  split; [reflexivity|].
  exact (proj2 (acknowledged_is_durable 2 run13 [] run13_reachable eq_refl)).
Defined.

Lemma wal_no_deadlock_witness :
  ∃ s', wstep run5 s' ∧ ∀ q, appended (ws s' q) = appended (ws run5 q).
Proof.
  apply (wal_no_deadlock WalSync 2 run5 [] run5_reachable); [lia|]. vm_compute. discriminate.
Defined.

Lemma write_locked_is_a_run_witness :
  ∃ s' taken, rtc wstep run5 s' ∧ threads s' = [Written []; Waiting] ∧
    log_bytes (ws s' []) = encode_records [rec1] ∧ log_synced (ws s' []) = 18%nat ∧
    omap written_notify taken = [0%nat].
Proof.
  destruct (write_locked_is_a_run run5 0 [] 5 [Wrote 10; Interrupted; Wrote 100] (mkLogFile [] 0) [rec1]
    (mkLogFile (encode_records [rec1]) 18) [] [0%nat] (Ok ()))
    as (s' & taken & Hs & Ht & _ & _ & Hb & Hsy & _ & Hn & _); try reflexivity.
  exists s', taken. split; [exact Hs|]. split; [exact Ht|]. split; [exact Hb|]. split; [exact Hsy|]. done.
Defined.
