(* ===== verification/Notify.v ===== *)
(** * The notification thread (src/store.rs, [setup_notify_thread])

    Writers queue one job per revision, in an order that depends on how they
    interleave. The thread puts the jobs back into revision order, appends each to
    the write-ahead log and hands it to the channels of its watchers. *)
From S2P Require Import Prelude Bytes BTreeMap BlockDeque Heap Types Wal Prefix History Store StoreSpec WatchSpec StoreTrace StoreProps.

(** What the thread acts on: the log, the watchers' channels, and the [Notify]s that
    were signalled to writers that wait. *)
Record World := mkWorld {
  log : option WalManager;
  chans : list Channel;
  signalled : list nat;
}.

Record NotifyThread := mkNotifyThread {
  next_rev : Z;
  job_spool : list NotifyJob;
  rev_written : Z;
  world : World;
}.

(** The thread at its start. *)
Definition start_thread (w : World) : NotifyThread := mkNotifyThread 1 [] 0 w.

(** [ch.try_send(msg)]: a closed channel and a full one drop the message. *)
Definition try_send (cs : list Channel) (msg : KeyValueWithPrev) (c : nat) : list Channel :=
  match cs !! c with
  | Some ch =>
      if rx_open ch && bool_decide (length (queue ch) < WATCH_CHANNEL_SIZE)%nat
      then <[c := {| queue := queue ch ++ [msg]; rx_open := true |}]> cs
      else cs
  | None => cs
  end.

Definition do_send (w : World) (job : NotifyJob) : World :=
  let '(log', now) :=
    match log w with
    | Some m =>
        let v := if kv_version (kv (job_msg job)) =? 0 then None else Some (kv_value (kv (job_msg job))) in
        let '(m', now) := append m (job_prefix job) (job_rev job) (kv_key (kv (job_msg job))) v
                            (wal_handled job) in
        (Some m', now)
    | None => (None, [])
    end in
  {| log := log';
     chans := foldl (λ cs c, try_send cs (job_msg job) c) (chans w) (job_watchers job);
     signalled := signalled w ++ now |}.

(** [Ord for NotifyJob] *)
Definition NotifyJob_cmp (x y : NotifyJob) : comparison := job_rev y ?= job_rev x.

(** [while let Some(job) = job_spool.peek() { .. }]; a turn takes a job out of the spool. *)
Fixpoint drain_spool (fuel : nat) (next : Z) (spool : list NotifyJob) (w : World) :
    Z * list NotifyJob * World :=
  match fuel with
  | O => (next, spool, w)
  | S fuel' =>
      match heap_pop NotifyJob_cmp spool with
      | Some (job, spool') =>
          if job_rev job =? next then drain_spool fuel' (i64_add next 1) spool' (do_send w job)
          else (next, spool, w)
      | None => (next, spool, w)
      end
  end.

(** One turn of the receive loop. *)
Definition receive (t : NotifyThread) (job : NotifyJob) : NotifyThread :=
  if next_rev t <? job_rev job then
    {| next_rev := next_rev t; job_spool := heap_push (job_spool t) job;
       rev_written := rev_written t; world := world t |}
  else
    let '(next, spool, w) :=
      drain_spool (length (job_spool t)) (i64_add (next_rev t) 1) (job_spool t)
        (do_send (world t) job) in
    {| next_rev := next; job_spool := spool; rev_written := i64_sub next 1; world := w |}.

Definition process (t : NotifyThread) (jobs : list NotifyJob) : NotifyThread := foldl receive t jobs.

(** ** The spool *)

(** What the thread has done with the jobs received so far: [sent] are those handed
    on, the revisions from 1 on without a gap; the others wait in the spool for the
    revision that is missing. *)
Record thread_inv (w0 : World) (jobs : list NotifyJob) (t : NotifyThread) (sent : list NotifyJob) : Prop := {
  ti_split : jobs ≡ₚ sent ++ job_spool t;
  ti_revs : job_rev <$> sent = seqZ 1 (next_rev t - 1);
  ti_next : 1 ≤ next_rev t;
  ti_world : world t = foldl do_send w0 sent;
  ti_spool : Forall (λ j, next_rev t < job_rev j) (job_spool t);
  ti_written : rev_written t = next_rev t - 1;
}.

Lemma seqZ_snoc n : 0 ≤ n → seqZ 1 (n + 1) = seqZ 1 n ++ [n + 1].
Proof.
  intros Hn. rewrite seqZ_app by lia. f_equal. by replace (1 + n) with (n + 1) by lia.
Qed.

Lemma next_i64 next (sent : list NotifyJob) :
  job_rev <$> sent = seqZ 1 (next - 1) → 1 ≤ next → Z.of_nat (length sent) + 1 < i64_max →
  i64_add next 1 = next + 1.
Proof.
  intros Hr Hn Hl. apply (f_equal length) in Hr. rewrite length_fmap, length_seqZ in Hr.
  apply i64_add_id. width.
Qed.

Lemma drain_spool_spec fuel next spool w w0 sent :
  (length spool ≤ fuel)%nat → 1 ≤ next → job_rev <$> sent = seqZ 1 (next - 1) →
  w = foldl do_send w0 sent → Forall (λ j, next ≤ job_rev j) spool → NoDup (job_rev <$> spool) →
  Z.of_nat (length sent) + Z.of_nat (length spool) < i64_max →
  ∃ next' spool' sent', drain_spool fuel next spool w = (next', spool', foldl do_send w0 (sent ++ sent')) ∧
    spool ≡ₚ sent' ++ spool' ∧ 1 ≤ next' ∧ job_rev <$> sent ++ sent' = seqZ 1 (next' - 1) ∧
    Forall (λ j, next' < job_rev j) spool'.
Proof.
  revert next spool w sent. induction fuel as [|fuel IH]; intros next spool w sent Hf Hn Hr -> Hs Hnd Hl.
  { destruct spool; [|simpl in *; lia]. exists next, [], []. by rewrite !app_nil_r. }
  simpl. destruct (heap_pop NotifyJob_cmp spool) as [[job spool']|] eqn:Ep.
  2: { apply heap_pop_None in Ep as ->. exists next, [], []. by rewrite !app_nil_r. }
  apply (heap_pop_Some _ job_rev) in Ep as [Hp Hmin]; [|done]. rewrite Hp in Hs, Hnd.
  assert (length spool = S (length spool')) as Hlen by (by rewrite Hp).
  inversion Hs as [|?? Hj Hs']; simpl in Hnd; apply NoDup_cons in Hnd as [Hnin Hnd]; subst.
  assert (∀ n, n ≤ job_rev job → (n = job_rev job → False) ∨ n = job_rev job →
    Forall (λ j, n ≤ job_rev j) spool') as Hle.
  { intros n Hnj _. eapply Forall_impl; [exact Hmin|]. simpl. lia. }
  destruct (Z.eqb_spec (job_rev job) next) as [Heq|Hne].
  - rewrite (next_i64 next sent) by (done || lia).
    destruct (IH (next + 1) spool' (do_send (foldl do_send w0 sent) job) (sent ++ [job]))
      as (next' & spool'' & sent' & Hd & Hp' & Hn' & Hr' & Hs''); [lia|lia| | | |done| |].
    + rewrite fmap_app, Hr. simpl. rewrite Heq.
      replace (next + 1 - 1) with (next - 1 + 1) by lia. rewrite seqZ_snoc by lia. do 2 f_equal. lia.
    + by rewrite foldl_snoc.
    + apply Forall_forall. intros j Hin. rewrite Forall_forall in Hmin. specialize (Hmin j Hin). simpl in Hmin.
      assert (job_rev j ≠ job_rev job); [|lia]. intros Hjj. apply Hnin. rewrite <- Hjj.
      by apply list_elem_of_fmap_2.
    + rewrite length_app. simpl. lia.
    + exists next', spool'', (job :: sent'). rewrite <- app_assoc in *. simpl in *.
      split_and!; [done|by rewrite Hp, Hp'|done|done|done].
  - exists next, spool, []. rewrite !app_nil_r. split_and!; [done|done|done|done|].
    rewrite Hp. constructor; [simpl; lia|]. eapply Forall_impl; [exact Hmin|]. simpl. lia.
Qed.

Lemma receive_spec w0 jobs t sent job :
  thread_inv w0 jobs t sent → NoDup (job_rev <$> jobs ++ [job]) → 1 ≤ job_rev job →
  Z.of_nat (length jobs) + 1 < i64_max →
  ∃ sent', thread_inv w0 (jobs ++ [job]) (receive t job) sent'.
Proof.
  intros [Hsp Hr Hn Hw Hs Hwr] Hnd H1 Hl. unfold receive.
  assert (length jobs = length sent + length (job_spool t))%nat as Hlen
    by (by rewrite Hsp, length_app).
  rewrite fmap_app, Hsp, fmap_app in Hnd. simpl in Hnd.
  apply NoDup_app in Hnd as (Hnd & Hnew & _). apply NoDup_app in Hnd as (_ & Hdisj & Hnds).
  destruct (Z.ltb_spec (next_rev t) (job_rev job)).
  - exists sent. split; simpl; [|done|done|done|by constructor|done].
    rewrite Hsp. unfold heap_push. rewrite <- app_assoc.
    apply Permutation_app_head. symmetry. apply Permutation_cons_append.
  - assert (job_rev job = next_rev t) as Heq.
    { destruct (decide (job_rev job < next_rev t)) as [Hlt|]; [|lia]. exfalso.
      apply (Hnew (job_rev job)); [|by left]. apply elem_of_app. left. rewrite Hr. apply elem_of_seqZ. lia. }
    rewrite (next_i64 (next_rev t) sent) by (done || lia).
    destruct (drain_spool_spec (length (job_spool t)) (next_rev t + 1) (job_spool t)
      (do_send (world t) job) w0 (sent ++ [job]))
      as (next' & spool' & sent' & Hd & Hp & Hn' & Hr' & Hs'); [done|lia| | | |done| |].
    + rewrite fmap_app, Hr. simpl. rewrite Heq.
      replace (next_rev t + 1 - 1) with (next_rev t - 1 + 1) by lia. rewrite seqZ_snoc by lia.
      do 2 f_equal. lia.
    + by rewrite foldl_snoc, Hw.
    + eapply Forall_impl; [exact Hs|]. simpl. lia.
    + rewrite length_app. simpl. lia.
    + rewrite Hd. exists ((sent ++ [job]) ++ sent'). split; simpl; [|done|done|done|done|].
      * rewrite Hsp, Hp. rewrite <- !app_assoc. apply Permutation_app_head.
        rewrite app_assoc. symmetry. apply Permutation_cons_append.
      * apply i64_sub_id.
        assert (Z.of_nat (length ((sent ++ [job]) ++ sent')) = next' - 1) as Hln.
        { rewrite <- (length_fmap job_rev), Hr', length_seqZ. lia. }
        assert (length (job_spool t) = length sent' + length spool')%nat by (by rewrite Hp, length_app).
        rewrite !length_app in Hln. simpl in Hln. width.
Qed.

Lemma process_spec w0 jobs :
  NoDup (job_rev <$> jobs) → Forall (λ j, 1 ≤ job_rev j) jobs → Z.of_nat (length jobs) < i64_max →
  ∃ sent, thread_inv w0 jobs (process (start_thread w0) jobs) sent.
Proof.
  induction jobs as [|job jobs IH] using rev_ind; intros Hnd H1 Hl.
  { exists []. by split. }
  apply Forall_app in H1 as [H1 Hj]. inversion Hj; subst. rewrite length_app in Hl. simpl in Hl.
  destruct IH as [sent Hinv]; [|done|lia|].
  { rewrite fmap_app in Hnd. by apply NoDup_app in Hnd as (? & _ & _). }
  unfold process. rewrite foldl_snoc. by eapply receive_spec; [| | |lia].
Qed.

(** Two arrangements of the same jobs with the same revisions are one. *)
Lemma same_revs_eq (l1 l2 : list NotifyJob) :
  l1 ≡ₚ l2 → job_rev <$> l1 = job_rev <$> l2 → NoDup (job_rev <$> l1) → l1 = l2.
Proof.
  revert l2. induction l1 as [|x l1 IH]; intros [|y l2] Hp Hr Hnd; [done|by simplify_eq/=..|].
  simpl in *. injection Hr as Hxy Hr. apply NoDup_cons in Hnd as [Hx Hnd].
  assert (x = y) as ->.
  { assert (x ∈ y :: l2) as Hin by (rewrite <- Hp; by left).
    apply elem_of_cons in Hin as [?|Hin]; [done|]. exfalso. apply Hx. rewrite Hr.
    by apply list_elem_of_fmap_2. }
  f_equal. apply IH; [by eapply Permutation_cons_inv|done|done].
Qed.

Lemma seqZ_spool_empty (sent spool : list NotifyJob) next n :
  job_rev <$> sent ++ spool ≡ₚ seqZ 1 n → job_rev <$> sent = seqZ 1 (next - 1) → 1 ≤ next → 0 ≤ n →
  Forall (λ j, next < job_rev j) spool → spool = [] ∧ next = n + 1.
Proof.
  intros Hp Hr Hn H0 Hs. rewrite fmap_app, Hr in Hp.
  assert (∀ z, z ∈ seqZ 1 (next - 1) ++ (job_rev <$> spool) ↔ 1 ≤ z < 1 + n) as Hin.
  { intros z. rewrite Hp. apply elem_of_seqZ. }
  assert (spool = []) as ->.
  { destruct spool as [|j spool]; [done|]. exfalso. inversion Hs as [|?? Hj Hs']; subst. simpl in Hin, Hj.
    assert (job_rev j < 1 + n) by (apply Hin, elem_of_app; right; by left).
    assert (next ∈ seqZ 1 (next - 1) ++ (job_rev j :: (job_rev <$> spool))) as Hnx by (apply Hin; lia).
    apply elem_of_app in Hnx as [?%elem_of_seqZ|Hnx]; [lia|].
    apply elem_of_cons in Hnx as [?|Hnx]; [lia|].
    apply list_elem_of_fmap in Hnx as (j' & Heq & Hj'). rewrite Forall_forall in Hs'.
    specialize (Hs' j' Hj'). simpl in Hs'. lia. }
  split; [done|]. simpl in Hp. rewrite app_nil_r in Hp. apply Permutation_length in Hp.
  rewrite !length_seqZ in Hp. lia.
Qed.

(** All the jobs of the revisions 1 to n, however they arrive, are handed on in order. *)
Lemma process_all w0 jobs sorted n :
  jobs ≡ₚ sorted → job_rev <$> sorted = seqZ 1 n → 0 ≤ n < i64_max →
  process (start_thread w0) jobs = mkNotifyThread (n + 1) [] n (foldl do_send w0 sorted).
Proof.
  intros Hp Hr Hn.
  assert (NoDup (job_rev <$> sorted)) as Hnd by (rewrite Hr; apply NoDup_seqZ).
  assert (Z.of_nat (length jobs) = n) as Hlen.
  { rewrite Hp, <- (length_fmap job_rev), Hr, length_seqZ. lia. }
  destruct (process_spec w0 jobs) as [sent [Hsp Hrs Hnx Hw Hs Hwr]]; [by rewrite Hp| |lia|].
  { rewrite Hp. rewrite <- (Forall_fmap job_rev (λ r, 1 ≤ r)), Hr. apply Forall_forall.
    intros z ?%elem_of_seqZ. lia. }
  destruct (process (start_thread w0) jobs) as [nx spool wr w]; simpl in *.
  destruct (seqZ_spool_empty sent spool nx n) as [-> ->]; [by rewrite <- Hsp, Hp, Hr|done|done|lia|done|].
  rewrite app_nil_r in Hsp. assert (sent = sorted) as ->.
  { apply same_revs_eq; [by rewrite <- Hsp|rewrite Hrs, Hr; f_equal; lia|].
    rewrite Hrs. apply NoDup_seqZ. }
  subst. f_equal. lia.
Qed.

(** ** Delivery *)

Lemma try_send_ne cs msg c d : c ≠ d → try_send cs msg c !! d = cs !! d.
Proof.
  intros Hne. unfold try_send. destruct (cs !! c); [|done]. destruct (_ && _); [|done].
  by rewrite list_lookup_insert_ne.
Qed.

Lemma try_send_room cs msg c q :
  cs !! c = Some (mkChannel q true) → (length q < WATCH_CHANNEL_SIZE)%nat →
  try_send cs msg c !! c = Some (mkChannel (q ++ [msg]) true).
Proof.
  intros Hc Hq. unfold try_send. rewrite Hc, bool_decide_true by done. simpl.
  apply list_lookup_insert_eq. by eapply lookup_lt_Some.
Qed.

Lemma deliver_other msg ws cs c :
  c ∉ ws → foldl (λ cs c, try_send cs msg c) cs ws !! c = cs !! c.
Proof.
  revert cs. induction ws as [|d ws IH]; intros cs Hc; [done|]. simpl.
  apply not_elem_of_cons in Hc as [Hne Hc]. rewrite IH by done. by apply try_send_ne.
Qed.

Lemma deliver_one msg ws cs c q :
  NoDup ws → c ∈ ws → cs !! c = Some (mkChannel q true) → (length q < WATCH_CHANNEL_SIZE)%nat →
  foldl (λ cs c, try_send cs msg c) cs ws !! c = Some (mkChannel (q ++ [msg]) true).
Proof.
  revert cs. induction ws as [|d ws IH]; intros cs Hnd Hc Hq Hl; [by apply elem_of_nil in Hc|]. simpl.
  apply NoDup_cons in Hnd as [Hd Hnd]. destruct (decide (d = c)) as [->|Hne].
  - rewrite deliver_other by done. by apply try_send_room.
  - apply elem_of_cons in Hc as [?|Hc]; [done|]. apply IH; [done|done| |done].
    by rewrite try_send_ne.
Qed.

(** The messages a channel is due. *)
Definition due (c : nat) (jobs : list NotifyJob) : list KeyValueWithPrev :=
  job_msg <$> filter (λ j, c ∈ job_watchers j) jobs.

Lemma deliver_jobs jobs w c q :
  Forall (λ j, NoDup (job_watchers j)) jobs → chans w !! c = Some (mkChannel q true) →
  (length q + length (due c jobs) ≤ WATCH_CHANNEL_SIZE)%nat →
  chans (foldl do_send w jobs) !! c = Some (mkChannel (q ++ due c jobs) true).
Proof.
  revert w q. induction jobs as [|j jobs IH]; intros w q Hnd Hc Hl; simpl.
  { by rewrite app_nil_r. }
  inversion Hnd as [|?? Hj Hnd']; subst. unfold due in *. rewrite filter_cons in *.
  assert (chans (do_send w j) = foldl (λ cs c, try_send cs (job_msg j) c) (chans w) (job_watchers j)) as Hd.
  { unfold do_send. by destruct (match log w with Some _ => _ | None => _ end). }
  case_decide as Hin; csimpl in *.
  - rewrite (IH _ (q ++ [job_msg j])); [by rewrite <- app_assoc|done| |rewrite length_app; simpl; lia].
    rewrite Hd. apply deliver_one; [done..|lia].
  - apply IH; [done| |done]. rewrite Hd. by rewrite deliver_other.
Qed.

(** ** The announcements of a run *)

Definition no_replay (o : StoreTrace.op) : bool :=
  match o with StoreTrace.OReplay _ _ => false | _ => true end.

Definition announced_all (a : StoreTrace.AStore) : Prop :=
  (StoreTrace.announced a).*1 = seqZ 1 (Z.of_nat (length (StoreTrace.hist a))).

Lemma awrite_announced a k new req :
  announced_all a → announced_all (StoreTrace.awrite a k new req).
Proof.
  unfold announced_all, StoreTrace.awrite, hist_set, hist_write. intros Ha.
  destruct (guard _ _ _ _); simpl; [done|]. rewrite fmap_app, length_app, Ha. simpl.
  rewrite Nat2Z.inj_add. symmetry. apply seqZ_snoc. lia.
Qed.

Lemma final_announced a ops :
  Forall (λ o, no_replay o = true) ops → announced_all a → announced_all (StoreTrace.final a ops).
Proof.
  intros Hops. revert a. induction Hops as [|o ops Ho _ IH]; intros a Ha; simpl; [done|].
  apply IH. destruct o; simpl; try done; try by apply awrite_announced. by case_match.
Qed.

(** After a replay nothing is announced for the first revision. *)
Lemma final_announced_later a ops :
  Forall (λ e, 1 < e.1) (StoreTrace.announced a) → StoreTrace.hist a ≠ [] →
  Forall (λ e, 1 < e.1) (StoreTrace.announced (StoreTrace.final a ops)).
Proof.
  revert a. induction ops as [|o ops IH]; intros a Ha Hh; simpl; [done|].
  assert (∀ k new req, Forall (λ e, 1 < e.1) (StoreTrace.announced (StoreTrace.awrite a k new req)) ∧
    StoreTrace.hist (StoreTrace.awrite a k new req) ≠ []) as Hw.
  { intros k new req. unfold StoreTrace.awrite, hist_set, hist_write. destruct (guard _ _ _ _); simpl; [done|].
    split; [|by intros [? _]%app_nil]. apply Forall_app. split; [done|]. constructor; [|done]. simpl.
    destruct (StoreTrace.hist a); [done|]. simpl. lia. }
  destruct o; simpl; try (by apply IH); try (by apply IH; apply Hw).
  - apply IH; simpl; [done|]. unfold hist_replay, hist_write.
    destruct (value _), new; try done; by intros [? _]%app_nil.
  - apply IH; by case_match.
Qed.

(** Jobs that are all ahead of the first revision wait forever. *)
Lemma process_stalled w jobs :
  Forall (λ j, 1 < job_rev j) jobs →
  world (process (start_thread w) jobs) = w ∧ rev_written (process (start_thread w) jobs) = 0.
Proof.
  intros Hj. unfold process. assert (∀ t, next_rev t = 1 →
    world (foldl receive t jobs) = world t ∧ rev_written (foldl receive t jobs) = rev_written t) as Hs.
  { induction Hj as [|j jobs Hj _ IH]; intros t Ht; simpl; [done|].
    assert (receive t j = mkNotifyThread (next_rev t) (heap_push (job_spool t) j) (rev_written t) (world t))
      as -> by (unfold receive; by rewrite (proj2 (Z.ltb_lt _ _)) by lia).
    exact (IH (mkNotifyThread _ _ _ _) Ht). }
  by apply Hs.
Qed.

(** A job names each of its watchers once. *)
Definition jobs_wf (s : Store) : Prop := Forall (λ j, NoDup (job_watchers j)) (notify_tx s).

Section jobs.
Context `{!BlockSize}.

Lemma write_jobs_wf s a key new required s' r :
  StoreTrace.implements s a → Z.of_nat (length (StoreTrace.hist a)) < i64_max →
  Z.of_nat (length (channels s)) < i64_max →
  set s key new required = Ret (s', r) → jobs_wf s → jobs_wf s'.
Proof.
  intros [Hr _ _ Hw] Hlt Hch Hset Hj. unfold jobs_wf in *. destruct r as [rev|e].
  - destruct (set_announces _ _ _ _ _ _ _ Hr Hw Hlt Hch Hset) as (job & -> & _ & _ & Hnd & _).
    apply Forall_app. split; [done|]. by constructor.
  - destruct (set_spec s _ key new required Hr Hlt) as (s2 & Hset2 & _ & _ & Hm).
    rewrite Hset in Hset2. injection Hset2 as <- Heq. rewrite <- Heq in Hm. by rewrite Hm.
Qed.

Lemma watch_jobs s start end_ rev want s' r :
  watch s start end_ rev want = Ret (s', r) → notify_tx s' = notify_tx s.
Proof.
  unfold watch. destruct (_ && _); [by intros [= <- _]|].
  destruct (0 <? rev); [|by intros [= <- _]].
  destruct (prefix_and_range_of_key start end_) as [[p b]|e]; [|by intros [= <- _]].
  destruct (prefix_map _ !! p) as [i|]; [|by intros [= <- _]].
  by intros (es & _ & (ch & _ & [= <- _])%bind_ret_inv)%bind_ret_inv.
Qed.

Lemma compact_jobs s rev s' r : compact s rev = Ret (s', r) → notify_tx s' = notify_tx s.
Proof.
  unfold compact. destruct (_ || _); [by intros [= <- _]|].
  intros ([x d] & _ & Hc)%bind_ret_inv. by destruct x; injection Hc as <- _.
Qed.

Lemma step_jobs_wf s a o s' r :
  StoreTrace.implements s a → Z.of_nat (length (StoreTrace.hist a)) < i64_max →
  Z.of_nat (length (channels s)) < i64_max →
  StoreTrace.step s o = Ret (s', r) → jobs_wf s → jobs_wf s'.
Proof.
  intros Hi Hlt Hch Hs Hj. destruct o as [k v req|k req|k new|b e rev lim|b e rev want|b id|rev];
    simpl in Hs.
  - apply bind_ret_inv in Hs as ([s1 x] & Hset & [= <- _]). by eapply write_jobs_wf.
  - apply bind_ret_inv in Hs as ([s1 x] & Hset & [= <- _]). by eapply write_jobs_wf.
  - apply bind_ret_inv in Hs as (s1 & Hset & [= <- _]).
    destruct (set_for_replay_spec s _ k new (StoreTrace.im_repr _ _ Hi) Hlt) as (s2 & Hset2 & _ & Hj2 & _).
    rewrite Hset in Hset2. injection Hset2 as <-. unfold jobs_wf. by rewrite Hj2.
  - by apply bind_ret_inv in Hs as (x & _ & [= <- _]).
  - apply bind_ret_inv in Hs as ([s1 x] & Hw%watch_jobs & [= <- _]). unfold jobs_wf. simpl. by rewrite Hw.
  - by injection Hs as <- _.
  - apply bind_ret_inv in Hs as ([s1 x] & Hc%compact_jobs & [= <- _]). unfold jobs_wf. simpl. by rewrite Hc.
Qed.

Lemma run_jobs_wf s a ops s' rs :
  StoreTrace.implements s a → StoreTrace.legal_run a ops →
  Z.of_nat (length (StoreTrace.hist a)) + Z.of_nat (length ops) ≤ i64_max →
  Z.of_nat (length (channels s)) + Z.of_nat (length ops) ≤ i64_max →
  StoreTrace.run s ops = Ret (s', rs) → jobs_wf s → jobs_wf s'.
Proof.
  apply (StoreTrace.run_preserves jobs_wf). intros. by eapply step_jobs_wf.
Qed.

(** Once the thread has seen the jobs of all the changes, a channel with room holds what
    it was due. *)
Lemma thread_delivers s a w jobs c q :
  StoreTrace.implements s a → announced_all a → jobs_wf s →
  Z.of_nat (length (StoreTrace.hist a)) < i64_max → jobs ≡ₚ notify_tx s →
  chans w !! c = Some (mkChannel q true) →
  (length q + length (due c (notify_tx s)) ≤ WATCH_CHANNEL_SIZE)%nat →
  let t := process (start_thread w) jobs in
  rev_written t = current_revision s ∧ job_spool t = [] ∧
  chans (world t) !! c = Some (mkChannel (q ++ due c (notify_tx s)) true).
Proof.
  intros [Hr _ Hj _] Ha Hwf Hlt Hp Hc Hroom t.
  unfold announced_all in Ha. rewrite <- Hj, <- list_fmap_compose in Ha.
  unfold t. rewrite (process_all w jobs (notify_tx s) _ Hp Ha) by lia. simpl.
  rewrite (repr_current _ _ Hr). split_and!; [done|done|]. by apply deliver_jobs.
Qed.
End jobs.

(** ** Properties *)

(** Notifications leave in revision order. However the jobs of the revisions 1 to n
    arrive (any permutation), once all have arrived the thread has handed them on one by
    one in increasing revision order, none is left in the spool, and the progress
    revision is n. *)
Theorem notify_in_order w0 jobs sorted n :
  jobs ≡ₚ sorted → job_rev <$> sorted = seqZ 1 n → 0 ≤ n < i64_max →
  process (start_thread w0) jobs = mkNotifyThread (n + 1) [] n (foldl do_send w0 sorted).
Proof. apply process_all. Qed.

Definition sample_job (rev : Z) : NotifyJob :=
  {| job_rev := rev; job_watchers := [0%nat];
     job_msg := mkKeyValueWithPrev None (mkKeyValue (bytes "k") 1 rev rev (bytes "v") 0);
     job_prefix := []; job_size := 1; wal_handled := None |}.

Definition sample_world : World := mkWorld None [mkChannel [] true] [].

Lemma notify_in_order_witness :
  process (start_thread sample_world) [sample_job 3; sample_job 1; sample_job 2]
  = mkNotifyThread 4 [] 3 (foldl do_send sample_world [sample_job 1; sample_job 2; sample_job 3]).
Proof.
  apply (notify_in_order sample_world [sample_job 3; sample_job 1; sample_job 2]
           [sample_job 1; sample_job 2; sample_job 3] 3).
  - apply (Permutation_cons_append [sample_job 1; sample_job 2]).
  - reflexivity.
  - vm_compute. split; [discriminate|reflexivity].
Defined.

(** The progress revision is never ahead. Whatever jobs have arrived so far (distinct
    revisions, with gaps), those handed on are exactly those of the revisions 1 to the
    progress revision, in order, and every job that waits is beyond the first missing
    revision. *)
Theorem notify_progress_sound w0 jobs :
  NoDup (job_rev <$> jobs) → Forall (λ j, 1 ≤ job_rev j) jobs → Z.of_nat (length jobs) < i64_max →
  let t := process (start_thread w0) jobs in
  ∃ sent, jobs ≡ₚ sent ++ job_spool t ∧ job_rev <$> sent = seqZ 1 (rev_written t) ∧
    world t = foldl do_send w0 sent ∧ Forall (λ j, rev_written t + 1 < job_rev j) (job_spool t).
Proof.
  intros Hnd H1 Hl t. destruct (process_spec w0 jobs Hnd H1 Hl) as [sent [Hsp Hr Hn Hw Hs Hwr]].
  exists sent. fold t in Hsp, Hr, Hw, Hs, Hwr. rewrite Hwr. split_and!; [done|done|done|].
  eapply Forall_impl; [exact Hs|]. simpl. lia.
Qed.

Lemma notify_progress_sound_witness :
  let t := process (start_thread sample_world) [sample_job 4; sample_job 1; sample_job 2] in
  rev_written t = 2 ∧ ∃ sent, job_rev <$> sent = seqZ 1 (rev_written t) ∧ world t = foldl do_send sample_world sent.
Proof.
  split; [vm_compute; reflexivity|].
  destruct (notify_progress_sound sample_world [sample_job 4; sample_job 1; sample_job 2])
    as (sent & _ & Hr & Hw & _).
  - apply (bool_decide_unpack _). vm_compute. exact I.
  - repeat constructor; vm_compute; discriminate.
  - vm_compute. reflexivity.
  - exists sent. split; [exact Hr|exact Hw].
Defined.

(** C17: from a write to the watcher's channel. After any run of the store without replayed
    records, in whatever order the jobs of its writes reach the notification thread, the
    thread ends with the progress revision equal to the store's revision, and a watcher
    whose receiver is open and whose channel has room receives the changes announced to
    it, each once, in revision order. *)
Theorem watcher_receives_in_order `{!BlockSize} mode ops s rs w jobs c q :
  StoreTrace.legal_run StoreTrace.empty ops → Forall (λ o, no_replay o = true) ops →
  Z.of_nat (length ops) < i64_max →
  StoreTrace.run (new_store mode) ops = Ret (s, rs) → jobs ≡ₚ notify_tx s →
  chans w !! c = Some (mkChannel q true) →
  (length q + length (due c (notify_tx s)) ≤ WATCH_CHANNEL_SIZE)%nat →
  let t := process (start_thread w) jobs in
  rev_written t = current_revision s ∧ job_spool t = [] ∧
  chans (world t) !! c = Some (mkChannel (q ++ due c (notify_tx s)) true).
Proof.
  intros Hleg Hno Hlen Hrun Hp Hc Hroom t.
  destruct (StoreTrace.run_implements (new_store mode) StoreTrace.empty ops)
    as (s' & rs' & Hrun' & Hi & _); [apply StoreTrace.new_implements|done|simpl; lia|simpl; lia|].
  rewrite Hrun in Hrun'. injection Hrun' as <- <-.
  pose proof (StoreTrace.final_length StoreTrace.empty ops) as Hhl. simpl in Hhl.
  apply (thread_delivers s _ w jobs c q Hi); try done; [by apply final_announced| |lia].
  eapply (run_jobs_wf (new_store mode) StoreTrace.empty ops);
    [apply StoreTrace.new_implements|done|simpl; lia|simpl; lia|done|constructor].
Qed.

Definition watch_ops : list StoreTrace.op :=
  [StoreTrace.OWatch (bytes "/registry/pods/") (bytes "/registry/pods0") 0 false;
   StoreTrace.OPut (bytes "/registry/pods/a") (bytes "1") None;
   StoreTrace.OPut (bytes "/registry/pods/b") (bytes "2") None].

Definition watch_store : Store :=
  match StoreTrace.run (H:=block_size_2) (new_store None) watch_ops with
  | Ret (s, _) => s
  | Panic _ => new_store None
  end.

Lemma watcher_receives_in_order_witness :
  chans (world (process (start_thread sample_world) (reverse (notify_tx watch_store)))) !! 0%nat
  = Some (mkChannel (job_msg <$> notify_tx watch_store) true).
Proof.
  destruct (StoreTrace.run (H:=block_size_2) (new_store None) watch_ops) as [[s rs]|m] eqn:E;
    [|vm_compute in E; discriminate E].
  assert (watch_store = s) as Hs by (unfold watch_store; by rewrite E).
  destruct (@watcher_receives_in_order block_size_2 None watch_ops s rs sample_world
    (reverse (notify_tx s)) 0 []) as (_ & _ & Hc).
  - vm_compute. repeat split.
  - repeat constructor.
  - vm_compute. reflexivity.
  - exact E.
  - apply reverse_Permutation.
  - reflexivity.
  - rewrite <- Hs. apply (bool_decide_unpack _). vm_compute. exact I.
  - rewrite Hs. rewrite Hc. rewrite <- Hs. vm_compute. reflexivity.
Defined.

(** C35: a restart silences the store. Once the write-ahead log has replayed a record, no
    later change ever reaches the log or a watcher: whatever is written afterwards and
    in whatever order the jobs arrive, the notification thread still waits for
    revision 1, and its effects and its progress revision stay those of the start. *)
Theorem replay_silences_notifications `{!BlockSize} mode k v ops s rs w jobs :
  let a := StoreTrace.anext StoreTrace.empty (StoreTrace.OReplay k (Some v)) in
  StoreTrace.legal_run a ops → Z.of_nat (length ops) < i64_max →
  StoreTrace.run (new_store mode) (StoreTrace.OReplay k (Some v) :: ops) = Ret (s, rs) →
  jobs ≡ₚ notify_tx s →
  world (process (start_thread w) jobs) = w ∧ rev_written (process (start_thread w) jobs) = 0.
Proof.
  intros a Hleg Hlen Hrun Hp.
  destruct (StoreTrace.run_implements (new_store mode) StoreTrace.empty (StoreTrace.OReplay k (Some v) :: ops))
    as (s' & rs' & Hrun' & [_ _ Hj _] & _);
    [apply StoreTrace.new_implements|by split|simpl; lia|simpl; lia|].
  rewrite Hrun in Hrun'. injection Hrun' as <- <-.
  apply process_stalled. rewrite Hp.
  assert (Forall (λ e, 1 < e.1) (StoreTrace.announced (StoreTrace.final a ops))) as Ha
    by (apply final_announced_later; [constructor|done]).
  change (StoreTrace.final _ _) with (StoreTrace.final a ops) in Hj.
  rewrite <- Hj, Forall_fmap in Ha. exact Ha.
Qed.

Definition restart_ops : list StoreTrace.op :=
  [StoreTrace.OWatch (bytes "a") [] 0 false; StoreTrace.OPut (bytes "a") (bytes "2") None].

Definition restart_store : Store :=
  match StoreTrace.run (H:=block_size_2) (new_store (Some WalSync))
          (StoreTrace.OReplay (bytes "a") (Some (bytes "1")) :: restart_ops) with
  | Ret (s, _) => s
  | Panic _ => new_store None
  end.

Lemma replay_silences_notifications_witness :
  job_watchers <$> notify_tx restart_store = [[0%nat]] ∧
  world (process (start_thread sample_world) (notify_tx restart_store)) = sample_world.
Proof.
  destruct (StoreTrace.run (H:=block_size_2) (new_store (Some WalSync))
    (StoreTrace.OReplay (bytes "a") (Some (bytes "1")) :: restart_ops)) as [[s rs]|m] eqn:E;
    [|vm_compute in E; discriminate E].
  assert (restart_store = s) as Hs by (unfold restart_store; by rewrite E).
  split; [vm_compute; reflexivity|]. rewrite Hs.
  apply (@replay_silences_notifications block_size_2 (Some WalSync) (bytes "a") (bytes "1") restart_ops s rs
    sample_world (notify_tx s)).
  - vm_compute. repeat split.
  - vm_compute. reflexivity.
  - exact E.
  - reflexivity.
Defined.
