(* ===== verification/Metrics.v ===== *)
(** * Counters (src/metrics.rs)

    The counters that the store and the notification thread keep for Prometheus, and the
    gauges that a request for /metrics sets (src/main.rs). A counter is a 64-bit word under
    a name and its labels; the code adds to it where it serves a request. The
    latency histogram is in [Timers]; the sums of seconds and the number of requests in
    flight are left out. *)
From S2P Require Import Prelude Bytes BTreeMap BlockDeque Heap Types Wal Prefix History Store StoreSpec WatchSpec StoreTrace Notify.
Import StoreTrace.

(** ** The registry *)

Inductive Metric :=
| REQUEST_COUNT (type : string)
| LOCK_COUNT (method structure rw : string)
| TREE_MAP_ITEM_COUNT (prefix : ByteArray)
| RANGE_RESPONSE_BYTES (prefix : ByteArray)
| RANGE_RESPONSE_COUNT (prefix : ByteArray)
| WATCH_RESPONSE_BYTES (prefix : ByteArray)
| WATCH_RESPONSE_COUNT (prefix : ByteArray)
| WATCH_RESPONSE_PER_WATCHER_COUNT (prefix : ByteArray)
| WATCH_RESPONSE_BLOCKING_COUNT (prefix : ByteArray)
| WATCH_RESPONSE_CLOSED_COUNT (prefix : ByteArray).

#[export] Instance Metric_eq_dec : EqDecision Metric.
Proof. solve_decision. Defined.

(** An [IntGauge] is an [i64], an [IntCounter] a [u64]; both wrap around. *)
Definition wrap (m : Metric) (z : Z) : Z :=
  match m with TREE_MAP_ITEM_COUNT _ => as_i64 z | _ => as_u64 z end.

Definition Registry : Type := Metric → Z.

Definition unregistered : Registry := λ _, 0.

(** [with_label_values(..).inc_by(n)] *)
Definition inc_by (c : Registry) (e : Metric * Z) : Registry :=
  λ m, if decide (m = e.1) then wrap m (c m + e.2) else c m.

Definition inc_all (c : Registry) (es : list (Metric * Z)) : Registry := foldl inc_by c es.

(** What was added to a metric. *)
Fixpoint tally (m : Metric) (es : list (Metric * Z)) : Z :=
  match es with
  | [] => 0
  | (m', n) :: es' => (if decide (m = m') then n else 0) + tally m es'
  end.

Lemma tally_app m es es' : tally m (es ++ es') = tally m es + tally m es'.
Proof. induction es as [|[m' n] es IH]; simpl; [done|]. rewrite IH. lia. Qed.

(** Sums over lists of additions that are written out. *)
Ltac tallies := simpl; repeat (case_decide; simplify_eq); try lia.

Lemma wrap_add m a b : wrap m (wrap m a + b) = wrap m (a + b).
Proof.
  destruct m; simpl; unfold as_u64, as_i64; try by rewrite Zplus_mod_idemp_l.
  f_equal. replace ((a + 2 ^ 63) `mod` u64_modulus - 2 ^ 63 + b + 2 ^ 63)
    with ((a + 2 ^ 63) `mod` u64_modulus + b) by lia.
  rewrite Zplus_mod_idemp_l. f_equal. lia.
Qed.

(** A counter is the sum of what was added to it, as far as its word holds it. *)
Lemma inc_all_tally c es m z : c m = wrap m z → inc_all c es m = wrap m (z + tally m es).
Proof.
  revert c z. induction es as [|[m' n] es IH]; intros c z Hz; simpl; [by rewrite Z.add_0_r|].
  rewrite Z.add_assoc. apply IH. unfold inc_by. simpl. destruct (decide (m = m')) as [->|Hne].
  - by rewrite Hz, wrap_add.
  - by rewrite Z.add_0_r.
Qed.

(** ** Requests *)

(** The label of a key: its prefix, as a string. *)
Definition label_of (key : ByteArray) : ByteArray := from_utf8_lossy (prefix_split key).1.

(** [Store::set] *)
Definition set_events (s : Store) (key : ByteArray) : list (Metric * Z) :=
  [(REQUEST_COUNT "set", 1); (LOCK_COUNT "set" "tree_map" "write", 1)] ++
  match tree_map s !! key with
  | Some _ => []
  | None => [(LOCK_COUNT "set" "prefix_map" "write", 1); (TREE_MAP_ITEM_COUNT (label_of key), 1)]
  end.

(** [Store::set_for_replay] *)
Definition replay_events (s : Store) (key : ByteArray) (new : option ByteArray) : list (Metric * Z) :=
  match tree_map s !! key, new with
  | None, Some _ => [(TREE_MAP_ITEM_COUNT (label_of key), 1)]
  | _, _ => []
  end.

(** [value_bytes_total] *)
Definition value_bytes (l : list KeyValue) : Z := foldr (λ x n, Z.of_nat (length (kv_value x)) + n) 0 l.

(** [Store::range], by its answer: the errors return before the first lock. *)
Definition range_events (s : Store) (start end_ : ByteArray) (r : Result RangeResult Status) : list (Metric * Z) :=
  (REQUEST_COUNT "range", 1) ::
  match r, prefix_and_range_of_key start end_ with
  | Ok res, Ok (prefix, _) =>
      (LOCK_COUNT "range" "prefix_map" "read", 1) ::
      match prefix_map s !! prefix with
      | Some _ => [(RANGE_RESPONSE_BYTES (from_utf8_lossy prefix), value_bytes (kvs res));
                   (RANGE_RESPONSE_COUNT (from_utf8_lossy prefix), Z.of_nat (length (kvs res)))]
      | None => []
      end
  | _, _ => []
  end.

(** What a request adds; [delete] counts itself and then calls [set]. *)
Definition op_events (s : Store) (o : op) (r : reply) : list (Metric * Z) :=
  match o, r with
  | OPut k _ _, _ => set_events s k
  | ODelete k _, _ => (REQUEST_COUNT "delete", 1) :: set_events s k
  | OReplay k new, _ => replay_events s k new
  | ORange a b _ _, RRange r => range_events s a b r
  | OCompact _, _ => [(REQUEST_COUNT "compact", 1)]
  | _, _ => []
  end.

Section counted.
Context `{!BlockSize}.
Implicit Types (s : Store) (a : AStore).

(** The store with its counters. *)
Fixpoint counted_run (s : Store) (c : Registry) (ops : list op) : outcome (Store * Registry * list reply) :=
  match ops with
  | [] => Ret (s, c, [])
  | o :: ops' =>
      r ← step s o;
      rs ← counted_run r.1 (inc_all c (op_events s o r.2)) ops';
      Ret (rs.1, r.2 :: rs.2)
  end.

(** ** The keys of the index *)

Lemma tree_map_insert_item s key it : dom (tree_map (insert_item s key it)) = {[key]} ∪ dom (tree_map s).
Proof. unfold insert_item. destruct (prefix_split key). simpl. by rewrite dom_insert_L. Qed.

Lemma tree_map_set s key new required s' r :
  set s key new required = Ret (s', r) → dom (tree_map s') = {[key]} ∪ dom (tree_map s).
Proof.
  unfold set, set_entry. intros Hset.
  assert (∀ s1 l n x, set_locked s1 l n new required (current_revision s) = Ret x → tree_map x.1 = tree_map s1) as Hlk.
  { intros s1 l n x. unfold set_locked. intros (it & _ & Heq)%bind_ret_inv.
    destruct (set_guard _ _ _ _); [by injection Heq as <-|].
    apply bind_ret_inv in Heq as ([i d] & _ & Heq). apply bind_ret_inv in Heq as (st & _ & Heq).
    by injection Heq as <-. }
  assert (∀ s1 l n, (r0 ← set_locked s1 l n new required (current_revision s);
    match r0 with
    | (s2, Err e) => Ret (s2, Err e)
    | (s2, Ok (new_rev, wkey, wval, old_value)) =>
        s3 ← notify_watchers s2 wkey wval old_value (prefix_split key).1; Ret (s3, Ok new_rev)
    end) = Ret (s', r) → tree_map s' = tree_map s1) as Hrest.
  { intros s1 l n ([s2 r2] & H2%Hlk & Heq)%bind_ret_inv. simpl in H2.
    destruct r2 as [[[[rev k] v] old]|e]; [|by injection Heq as <- _].
    unfold notify_watchers in Heq. apply bind_ret_inv in Heq as (s3 & (ch & _ & [= <-])%bind_ret_inv & [= <- _]).
    done. }
  destruct (tree_map s !! key) as [l|] eqn:E; apply Hrest in Hset; rewrite Hset.
  - apply elem_of_dom_2 in E. set_solver.
  - apply tree_map_insert_item.
Qed.

Lemma tree_map_replay s key new s' :
  set_for_replay s key new = Ret s' →
  dom (tree_map s') = match new with Some _ => {[key]} ∪ dom (tree_map s) | None => dom (tree_map s) end.
Proof.
  unfold set_for_replay. destruct (tree_map s !! key) as [l|] eqn:E.
  - apply elem_of_dom_2 in E. intros (it & _ & H2)%bind_ret_inv.
    assert (dom (tree_map s') = dom (tree_map s)) as ->; [|destruct new; set_solver].
    assert (∀ x, replay_item s l it x = Ret s' → tree_map s' = tree_map s) as Hri.
    { intros x. unfold replay_item. by intros ([i d] & _ & (b & _ & [= <-])%bind_ret_inv)%bind_ret_inv. }
    destruct (value _), new; simplify_eq; try done; by erewrite Hri.
  - destruct new; [|by intros [= ->]].
    intros ([i d] & _ & ([b' d'] & _ & [= <-])%bind_ret_inv)%bind_ret_inv. by rewrite tree_map_insert_item.
Qed.

Lemma tree_map_watch s start end_ rev want s' r :
  watch s start end_ rev want = Ret (s', r) → tree_map s' = tree_map s.
Proof.
  unfold watch. destruct (_ && _); [by intros [= <- _]|]. destruct (0 <? rev); [|by intros [= <- _]].
  destruct (prefix_and_range_of_key start end_) as [[p b]|e]; [|by intros [= <- _]].
  destruct (prefix_map _ !! p); [|by intros [= <- _]].
  by intros (es & _ & (l & _ & [= <- _])%bind_ret_inv)%bind_ret_inv.
Qed.

Lemma tree_map_compact s rev s' r : compact s rev = Ret (s', r) → tree_map s' = tree_map s.
Proof.
  unfold compact. destruct (_ || _); [by intros [= <- _]|].
  intros ([[u|u] d] & _ & [= <- _])%bind_ret_inv; done.
Qed.

(** The keys under a label. *)
Definition keys_with s (label : ByteArray) : nat :=
  size (filter (λ k, label_of k = label) (dom (tree_map s))).

Lemma keys_insert (D : gset ByteArray) (P : ByteArray → Prop) `{!∀ k, Decision (P k)} key :
  key ∉ D → size (filter P ({[key]} ∪ D)) = ((if decide (P key) then 1 else 0) + size (filter P D))%nat.
Proof.
  intros Hk. rewrite (filter_union_L P), (filter_singleton_L P) by apply _. case_decide as HP.
  - rewrite size_union, size_singleton; [done|]. apply disjoint_singleton_l. rewrite elem_of_filter. tauto.
  - by rewrite union_empty_l_L.
Qed.

Lemma keys_with_step s o s' r label :
  step s o = Ret (s', r) →
  tally (TREE_MAP_ITEM_COUNT label) (op_events s o r) = Z.of_nat (keys_with s' label) - Z.of_nat (keys_with s label).
Proof.
  assert (∀ key s1, dom (tree_map s1) = {[key]} ∪ dom (tree_map s) →
    Z.of_nat (keys_with s1 label) - Z.of_nat (keys_with s label) =
      match tree_map s !! key with Some _ => 0 | None => if decide (label = label_of key) then 1 else 0 end) as Hnew.
  { intros key s1 Hd. unfold keys_with. rewrite Hd. destruct (tree_map s !! key) eqn:E.
    - apply elem_of_dom_2 in E. replace ({[key]} ∪ dom (tree_map s)) with (dom (tree_map s)) by (apply leibniz_equiv; set_solver). lia.
    - apply not_elem_of_dom in E. rewrite keys_insert by done.
      destruct (decide (label_of key = label)), (decide (label = label_of key)); congruence || lia. }
  assert (∀ key, tally (TREE_MAP_ITEM_COUNT label) (set_events s key) =
    match tree_map s !! key with Some _ => 0 | None => if decide (label = label_of key) then 1 else 0 end) as Hset.
  { intros key. unfold set_events. destruct (tree_map s !! key); [done|]. tallies. }
  destruct o; cbn [step op_events].
  - intros ([s1 r1] & H1%tree_map_set & [= <- <-])%bind_ret_inv. by rewrite Hset, (Hnew _ _ H1).
  - intros ([s1 r1] & H1%tree_map_set & [= <- <-])%bind_ret_inv. cbn [op_events tally].
    rewrite decide_False, Z.add_0_l by done. by rewrite Hset, (Hnew _ _ H1).
  - intros (s1 & H1%tree_map_replay & [= <- <-])%bind_ret_inv. unfold replay_events. destruct new.
    + rewrite (Hnew _ _ H1). destruct (tree_map s !! key); [done|]. tallies.
    + unfold keys_with. rewrite H1. destruct (tree_map s !! key); simpl; lia.
  - intros (r1 & _ & [= <- <-])%bind_ret_inv. unfold range_events. simpl.
    destruct r1; [|simpl; lia]. destruct (prefix_and_range_of_key _ _) as [[p b]|]; [|simpl; lia].
    simpl. destruct (prefix_map s !! p); simpl; lia.
  - intros ([s1 r1] & H1 & [= <- <-])%bind_ret_inv. simpl. unfold keys_with.
    by rewrite (tree_map_watch _ _ _ _ _ _ _ H1), Z.sub_diag.
  - intros [= <- <-]. unfold keys_with. simpl. lia.
  - intros ([s1 r1] & H1 & [= <- <-])%bind_ret_inv. simpl. unfold keys_with.
    by rewrite (tree_map_compact _ _ _ _ H1), Z.sub_diag.
Qed.

(** ** Totals over a run *)

Fixpoint sum_of (f : op → reply → Z) (ops : list op) (rs : list reply) : Z :=
  match ops, rs with
  | o :: ops', r :: rs' => f o r + sum_of f ops' rs'
  | _, _ => 0
  end.

(** What every request adds to a metric, up to a function of the state, a run adds. *)
Lemma counted_run_sum s c ops s' rs :
  run s ops = Ret (s', rs) →
  ∃ c', counted_run s c ops = Ret (s', c', rs) ∧
    ∀ m f (φ : Store → Z) z,
      (∀ s o s' r, step s o = Ret (s', r) → tally m (op_events s o r) = f o r + (φ s' - φ s)) →
      c m = wrap m z → c' m = wrap m (z + sum_of f ops rs + (φ s' - φ s)).
Proof.
  revert s c s' rs. induction ops as [|o ops IH]; intros s c s' rs; simpl.
  { intros [= <- <-]. exists c. split; [done|]. intros m f φ z _ ->. f_equal. simpl. lia. }
  intros ([s1 r] & Hs & ([s2 rs2] & Hrun & [= <- <-])%bind_ret_inv)%bind_ret_inv. simpl in *.
  destruct (IH s1 (inc_all c (op_events s o r)) s2 rs2 Hrun) as (c' & Hc & Hsum).
  exists c'. rewrite Hs, bind_ret. simpl. rewrite Hc, bind_ret. split; [done|].
  intros m f φ z Hstep Hz. rewrite (Hsum m f φ (z + tally m (op_events s o r)) Hstep) by by apply inc_all_tally.
  rewrite (Hstep _ _ _ _ Hs). f_equal. lia.
Qed.

Lemma keys_with_new mode label : keys_with (new_store mode) label = 0%nat.
Proof. done. Qed.

(** A request adds at most one key. *)
Lemma item_events_one s o r label : 0 ≤ tally (TREE_MAP_ITEM_COUNT label) (op_events s o r) ≤ 1.
Proof.
  assert (∀ key, 0 ≤ tally (TREE_MAP_ITEM_COUNT label) (set_events s key) ≤ 1) as Hset.
  { intros key. unfold set_events. destruct (tree_map s !! key); simpl; [lia|]. tallies. }
  destruct o; cbn [op_events]; try done.
  - cbn [tally]. rewrite decide_False, Z.add_0_l by done. apply Hset.
  - unfold replay_events. destruct (tree_map s !! key), new; tallies.
  - destruct r; try done. unfold range_events. destruct r; [|done].
    destruct (prefix_and_range_of_key _ _) as [[p b]|]; [|done]. by destruct (prefix_map s !! p).
Qed.

Lemma keys_with_bound s ops s' rs label :
  run s ops = Ret (s', rs) → (keys_with s' label ≤ keys_with s label + length ops)%nat.
Proof.
  revert s rs. induction ops as [|o ops IH]; intros s rs; simpl; [intros [= <- _]; lia|].
  intros ([s1 r] & Hs & ([s2 rs2] & Hrun & [= <- <-])%bind_ret_inv)%bind_ret_inv. simpl in *.
  pose proof (keys_with_step _ _ _ _ label Hs). pose proof (item_events_one s o r label).
  pose proof (IH _ _ Hrun). lia.
Qed.

Lemma sum_of_zero ops rs : sum_of (λ _ _, 0) ops rs = 0.
Proof. revert rs. induction ops as [|o ops IH]; intros [|r rs]; simpl; [done..|]. by rewrite IH. Qed.

(** Counting the requests of one kind. *)
Lemma sum_of_count (P : op → bool) s ops s' rs :
  run s ops = Ret (s', rs) →
  sum_of (λ o _, if P o then 1 else 0) ops rs = Z.of_nat (length (filter (λ o, P o = true) ops)).
Proof.
  revert s rs. induction ops as [|o ops IH]; intros s rs; simpl; [done|].
  intros ([s1 r] & Hs & ([s2 rs2] & Hrun & [= <- <-])%bind_ret_inv)%bind_ret_inv.
  rewrite filter_cons. simpl in *. rewrite (IH _ _ Hrun). destruct (P o); case_decide; simpl; congruence || lia.
Qed.

(** A range answers nothing of a prefix that is not indexed. *)
Lemma range_not_indexed s start end_ rev limit res p b :
  range s start end_ rev limit = Ret (Ok res) → prefix_and_range_of_key start end_ = Ok (p, b) →
  prefix_map s !! p = None → kvs res = [].
Proof.
  unfold range. intros Hr Hp Hn. destruct (_ <? _); [done|]. destruct (_ && _); [done|].
  rewrite Hp, Hn in Hr. by injection Hr as <-.
Qed.
End counted.

(** ** A request for /metrics *)

(** The gauges the handler sets from the store before it gathers the metrics. *)
Record Scrape := mkScrape {
  REVISION_COUNT : Z;
  COMPACTED_REVISION_COUNT : Z;
  WATCHER_COUNT : Z;
}.

Definition scrape `{!BlockSize} (s : Store) : Scrape :=
  {| REVISION_COUNT := current_revision s; COMPACTED_REVISION_COUNT := compacted_revision s;
     WATCHER_COUNT := watcher_count s |}.

(** ** Messages *)

(** What becomes of a message on its channels, as [do_send] counts it. *)
Fixpoint send_events (cs : list Channel) (label : ByteArray) (msg : KeyValueWithPrev) (chs : list nat) :
    list (Metric * Z) :=
  match chs with
  | [] => []
  | c :: chs' =>
      match cs !! c with
      | Some ch =>
          if negb (rx_open ch) then [(WATCH_RESPONSE_CLOSED_COUNT label, 1)]
          else if bool_decide (length (queue ch) < WATCH_CHANNEL_SIZE)%nat then []
          else [(WATCH_RESPONSE_BLOCKING_COUNT label, 1)]
      | None => [(WATCH_RESPONSE_CLOSED_COUNT label, 1)]
      end ++ send_events (try_send cs msg c) label msg chs'
  end.

Definition do_send_events (w : World) (job : NotifyJob) : list (Metric * Z) :=
  let num_watchers := Z.of_nat (length (job_watchers job)) in
  if num_watchers =? 0 then []
  else
    [(WATCH_RESPONSE_BYTES (job_prefix job), job_size job * num_watchers);
     (WATCH_RESPONSE_COUNT (job_prefix job), num_watchers);
     (WATCH_RESPONSE_PER_WATCHER_COUNT (job_prefix job), 1)] ++
    send_events (chans w) (job_prefix job) (job_msg job) (job_watchers job).

(** The messages waiting in channels. *)
Definition waiting (cs : list Channel) : Z := foldr (λ ch n, Z.of_nat (length (queue ch)) + n) 0 cs.

Lemma waiting_insert cs c ch ch' :
  cs !! c = Some ch →
  waiting (<[c := ch']> cs) = waiting cs + Z.of_nat (length (queue ch')) - Z.of_nat (length (queue ch)).
Proof.
  revert c. induction cs as [|x cs IH]; intros [|c] Hc; simpl in *; try done.
  - injection Hc as ->. lia.
  - rewrite (IH _ Hc). lia.
Qed.

Lemma send_events_tally cs label msg chs :
  waiting (foldl (λ cs c, try_send cs msg c) cs chs) =
    waiting cs + Z.of_nat (length chs)
    - tally (WATCH_RESPONSE_CLOSED_COUNT label) (send_events cs label msg chs)
    - tally (WATCH_RESPONSE_BLOCKING_COUNT label) (send_events cs label msg chs) ∧
  tally (WATCH_RESPONSE_COUNT label) (send_events cs label msg chs) = 0.
Proof.
  revert cs. induction chs as [|c chs IH]; intros cs; [simpl; lia|].
  destruct (IH (try_send cs msg c)) as [IH1 IH2]. cbn [foldl send_events length].
  rewrite !tally_app, IH1, IH2. clear IH IH1 IH2.
  unfold try_send at 1. destruct (cs !! c) as [ch|] eqn:Ec.
  2: { tallies. }
  destruct (rx_open ch); simpl andb; simpl negb; cbn iota.
  2: { tallies. }
  case_bool_decide.
  - rewrite (waiting_insert _ _ _ _ Ec). cbn [queue tally]. rewrite length_app. simpl. lia.
  - tallies.
Qed.

(** Every message counted for a watcher is in its channel, or counted as dropped because
    the channel was closed or full. *)
Lemma do_send_accounted w job :
  let es := do_send_events w job in
  tally (WATCH_RESPONSE_COUNT (job_prefix job)) es = Z.of_nat (length (job_watchers job)) ∧
  tally (WATCH_RESPONSE_COUNT (job_prefix job)) es =
    waiting (chans (do_send w job)) - waiting (chans w)
    + tally (WATCH_RESPONSE_CLOSED_COUNT (job_prefix job)) es
    + tally (WATCH_RESPONSE_BLOCKING_COUNT (job_prefix job)) es.
Proof.
  assert (chans (do_send w job) = foldl (λ cs c, try_send cs (job_msg job) c) (chans w) (job_watchers job)) as ->.
  { unfold do_send. destruct (log w) as [m|]; [|done]. by destruct (append _ _ _ _ _ _). }
  destruct (send_events_tally (chans w) (job_prefix job) (job_msg job) (job_watchers job)) as [H1 H2].
  unfold do_send_events. simpl. destruct (Z.eqb_spec (Z.of_nat (length (job_watchers job))) 0) as [E|E].
  - destruct (job_watchers job); [|simpl in E; lia]. simpl. lia.
  - rewrite H1. cbn [tally app]. rewrite H2. tallies.
Qed.

(** ** Properties *)

Definition is_write (o : op) : bool := match o with OPut _ _ _ | ODelete _ _ => true | _ => false end.
Definition is_delete (o : op) : bool := match o with ODelete _ _ => true | _ => false end.
Definition is_range (o : op) : bool := match o with ORange _ _ _ _ => true | _ => false end.
Definition is_compact (o : op) : bool := match o with OCompact _ => true | _ => false end.

(** The key-values a range answered under a label. *)
Definition answered (label : ByteArray) (o : op) (r : reply) : list KeyValue :=
  match o, r with
  | ORange start end_ _ _, RRange (Ok res) =>
      match prefix_and_range_of_key start end_ with
      | Ok (p, _) => if decide (from_utf8_lossy p = label) then kvs res else []
      | Err _ => []
      end
  | _, _ => []
  end.

Section totals.
Context `{!BlockSize}.

Lemma request_events s o s' r :
  step s o = Ret (s', r) →
  tally (REQUEST_COUNT "set") (op_events s o r) = (if is_write o then 1 else 0) ∧
  tally (REQUEST_COUNT "delete") (op_events s o r) = (if is_delete o then 1 else 0) ∧
  tally (REQUEST_COUNT "range") (op_events s o r) = (if is_range o then 1 else 0) ∧
  tally (REQUEST_COUNT "compact") (op_events s o r) = (if is_compact o then 1 else 0).
Proof.
  destruct o; simpl; intros Hs.
  - unfold set_events. by destruct (tree_map s !! key).
  - unfold set_events. by destruct (tree_map s !! key).
  - unfold replay_events. by destruct (tree_map s !! key), new.
  - apply bind_ret_inv in Hs as (r1 & _ & [= <- <-]). unfold range_events. destruct r1; [|done].
    destruct (prefix_and_range_of_key _ _) as [[p b]|]; [|done]. by destruct (prefix_map s !! p).
  - done.
  - done.
  - done.
Qed.

Lemma answer_events s o s' r label :
  step s o = Ret (s', r) →
  tally (RANGE_RESPONSE_COUNT label) (op_events s o r) = Z.of_nat (length (answered label o r)) ∧
  tally (RANGE_RESPONSE_BYTES label) (op_events s o r) = value_bytes (answered label o r).
Proof.
  destruct o; simpl; intros Hs.
  - unfold set_events. by destruct (tree_map s !! key).
  - unfold set_events. by destruct (tree_map s !! key).
  - unfold replay_events. by destruct (tree_map s !! key), new.
  - apply bind_ret_inv in Hs as (r1 & Hr & [= <- <-]). unfold range_events. destruct r1 as [res|]; [|done].
    destruct (prefix_and_range_of_key _ _) as [[p b]|] eqn:Ep; [|done].
    destruct (prefix_map s !! p) eqn:Em; [|rewrite (range_not_indexed _ _ _ _ _ _ _ _ Hr Ep Em); tallies; done].
    tallies; done.
  - done.
  - done.
  - done.
Qed.
End totals.


Definition counter_ops : list op :=
  [OPut (bytes "/registry/pods/a") (bytes "xyz") None; OPut (bytes "/registry/pods/b") [] None;
   ODelete (bytes "/registry/pods/a") None; ODelete (bytes "/registry/pods/c") None;
   ORange (bytes "/registry/pods/a") (bytes "/registry/pods/z") 2 None; OCompact 2].

Lemma counter_ops_legal : legal_run empty counter_ops.
Proof.
  repeat split; [vm_compute; discriminate|left; lia].
Qed.


(** Three keys are counted under the prefix, the deleted one and the one of the refused
    delete among them; the range answered two keys and three bytes. *)
Example counter_samples :
  match counted_run (H:=block_size_2) (new_store None) unregistered counter_ops with
  | Ret (s, c, _) =>
      c (TREE_MAP_ITEM_COUNT (bytes "/registry/pods/")) = 3 ∧
      c (RANGE_RESPONSE_COUNT (bytes "/registry/pods/")) = 2 ∧
      c (RANGE_RESPONSE_BYTES (bytes "/registry/pods/")) = 3 ∧ scrape (H:=block_size_2) s = mkScrape 3 1 0
  | Panic _ => False
  end.
Proof. vm_compute. split_and!; reflexivity. Qed.
