(* ===== verification/Timers.v ===== *)
(** * Request timers (src/metrics.rs, src/store.rs)

    The latency histogram and the timers that feed it. A request that starts a timer drops
    it when it returns; a timer of [set] or [range] also warns when more than a tenth of a
    second has passed. Times are nanoseconds of a clock that does not go back. *)
From S2P Require Import Prelude Bytes BTreeMap BlockDeque Heap Types Wal Prefix History Store StoreSpec WatchSpec StoreTrace StoreProps Notify Metrics.
Import StoreTrace.

(** ** Timers *)

(** The bounds of the buckets of [REQUEST_LATENCY], from a millisecond to ten seconds. *)
Definition REQUEST_LATENCY_buckets : list Z :=
  [1000000; 5000000; 10000000; 50000000; 100000000; 500000000; 1000000000; 5000000000; 10000000000].

(** [prometheus::HistogramTimer]: the label, and when it was started. *)
Record HistogramTimer := mkHistogramTimer { ht_type : string; ht_start : Z }.

(** The text a warning names the request by. *)
Inductive AlertName :=
| SetOf (key : ByteArray)
| RangeOf (start end_ : ByteArray) (limit : Z).

Record AlertingHistogramTimer := mkAlertingHistogramTimer {
  _histogram : HistogramTimer;
  start : Z;
  name_fn : AlertName;
}.

Inductive Timer :=
| Plain (h : HistogramTimer)
| Alerting (t : AlertingHistogramTimer).

(** What was observed, under its label, and the warnings logged. *)
Record Latencies := mkLatencies { samples : list (string * Z); warnings : list (Z * AlertName) }.

Definition no_latencies : Latencies := mkLatencies [] [].

(** A [HistogramTimer] that is dropped observes its duration. *)
Definition observe (l : Latencies) (h : HistogramTimer) (now : Z) : Latencies :=
  mkLatencies (samples l ++ [(ht_type h, now - ht_start h)]) (warnings l).

(** [AlertingHistogramTimer::new], and its [drop]. *)
Definition alerting_new (h : HistogramTimer) (now : Z) (name : AlertName) : AlertingHistogramTimer :=
  mkAlertingHistogramTimer h now name.

Definition alerting_drop (l : Latencies) (t : AlertingHistogramTimer) (now : Z) : Latencies :=
  let v := now - start t in
  if 100000000 <? v then mkLatencies (samples l) (warnings l ++ [(v, name_fn t)]) else l.

(** A timer goes out of scope: its [drop], then that of its field. *)
Definition drop_timer (l : Latencies) (t : Timer) (now later : Z) : Latencies :=
  match t with
  | Plain h => observe l h later
  | Alerting t => observe (alerting_drop l t now) (_histogram t) later
  end.

(** The timer a request of the store starts, when the clock is read twice. [delete] has none
    of its own, but calls [set]. *)
Definition start_timer (o : op) (now later : Z) : option Timer :=
  match o with
  | OPut key _ _ | ODelete key _ =>
      Some (Alerting (alerting_new (mkHistogramTimer "set" now) later (SetOf (from_utf8_lossy key))))
  | ORange start end_ _ limit =>
      Some (Alerting (alerting_new (mkHistogramTimer "range" now) later
              (RangeOf (from_utf8_lossy start) (from_utf8_lossy end_) (default 0 limit))))
  | OCompact _ => Some (Plain (mkHistogramTimer "compact" now))
  | _ => None
  end.

(** The four readings of the clock in a request. *)
Definition ticks : Type := Z * Z * (Z * Z).

Definition in_order (c : ticks) : Prop := c.1.1 ≤ c.1.2 ∧ c.1.2 ≤ c.2.1 ∧ c.2.1 ≤ c.2.2.

Fixpoint timed (l : Latencies) (ops : list op) (clock : list ticks) : Latencies :=
  match ops, clock with
  | o :: ops', c :: clock' =>
      timed (match start_timer o c.1.1 c.1.2 with Some t => drop_timer l t c.2.1 c.2.2 | None => l end) ops' clock'
  | _, _ => l
  end.

(** The samples under a label, those of a bucket, and those beyond it. *)
Definition sample_count (l : Latencies) (type : string) : Z :=
  Z.of_nat (length (filter (λ x, x.1 = type) (samples l))).

Definition bucket (l : Latencies) (type : string) (bound : Z) : Z :=
  Z.of_nat (length (filter (λ x, x.1 = type ∧ x.2 ≤ bound) (samples l))).

(** ** Lemmas *)

Definition timed_as (type : string) (o : op) : bool :=
  match o with
  | OPut _ _ _ | ODelete _ _ => bool_decide (type = "set")
  | ORange _ _ _ _ => bool_decide (type = "range")
  | OCompact _ => bool_decide (type = "compact")
  | _ => false
  end.

Lemma filter_snoc_length {A} (P : A → Prop) `{!∀ x, Decision (P x)} (l : list A) x :
  Z.of_nat (length (filter P (l ++ [x]))) = Z.of_nat (length (filter P l)) + (if decide (P x) then 1 else 0).
Proof. rewrite filter_app, length_app, filter_cons, filter_nil. destruct (decide (P x)); simpl; lia. Qed.

(** The samples of a label that took longer. *)
Definition beyond (l : Latencies) (type : string) (bound : Z) : Z := sample_count l type - bucket l type bound.

Lemma observe_count l h now type :
  sample_count (observe l h now) type = sample_count l type + (if bool_decide (type = ht_type h) then 1 else 0).
Proof.
  unfold sample_count, observe. cbn [samples]. rewrite filter_snoc_length.
  destruct (decide _) as [H|H]; simpl in H; case_bool_decide; naive_solver lia.
Qed.

Lemma observe_beyond l h now type bound :
  beyond (observe l h now) type bound =
    beyond l type bound + (if bool_decide (type = ht_type h ∧ bound < now - ht_start h) then 1 else 0).
Proof.
  unfold beyond. rewrite observe_count. unfold bucket, observe. cbn [samples]. rewrite filter_snoc_length.
  destruct (decide (type = ht_type h)) as [->|Hne].
  - rewrite (bool_decide_true (ht_type h = ht_type h)) by done.
    destruct (decide (now - ht_start h ≤ bound)).
    + rewrite decide_True, bool_decide_false by (simpl; lia || naive_solver lia). lia.
    + rewrite decide_False, bool_decide_true by (simpl; naive_solver lia). lia.
  - rewrite (bool_decide_false (type = _)), decide_False, bool_decide_false by (simpl; naive_solver). lia.
Qed.

Lemma alerting_samples l t now : samples (alerting_drop l t now) = samples l.
Proof. unfold alerting_drop. by destruct (_ <? _). Qed.

(** What one request does to the histogram. *)
Definition time_op (l : Latencies) (o : op) (c : ticks) : Latencies :=
  match start_timer o c.1.1 c.1.2 with Some t => drop_timer l t c.2.1 c.2.2 | None => l end.

Lemma time_op_count l o c type :
  sample_count (time_op l o c) type = sample_count l type + (if timed_as type o then 1 else 0).
Proof.
  destruct o; unfold time_op; simpl; rewrite ?observe_count, ?Z.add_0_r; try done;
    unfold sample_count; by rewrite alerting_samples.
Qed.

Definition slow (l : Latencies) : Z := beyond l "set" 100000000 + beyond l "range" 100000000.

Lemma time_op_slow l o c :
  in_order c → Z.of_nat (length (warnings l)) ≤ slow l → Z.of_nat (length (warnings (time_op l o c))) ≤ slow (time_op l o c).
Proof.
  destruct c as [[c0 c1] [c2 c3]]. unfold in_order. simpl. intros Hc Hl.
  assert (∀ type name, type = "set"%string ∨ type = "range"%string →
    let t := alerting_new (mkHistogramTimer type c0) c1 name in
    Z.of_nat (length (warnings (drop_timer l (Alerting t) c2 c3))) ≤ slow (drop_timer l (Alerting t) c2 c3)) as Ha.
  { intros type name Ht. cbn zeta. unfold drop_timer, slow in *. rewrite !observe_beyond. cbn [ht_type ht_start _histogram alerting_new].
    assert (∀ ty b, beyond (alerting_drop l (alerting_new (mkHistogramTimer type c0) c1 name) c2) ty b = beyond l ty b) as Hb
      by (intros ty b; unfold beyond, sample_count, bucket; by rewrite alerting_samples).
    rewrite !Hb. unfold observe, alerting_drop. cbn [warnings]. cbn [start alerting_new].
    destruct (Z.ltb_spec 100000000 (c2 - c1)); cbn [warnings];
      rewrite ?length_app; simpl; destruct Ht as [-> | ->]; repeat case_bool_decide; naive_solver lia. }
  destruct o; unfold time_op; simpl; try done; try (apply Ha; tauto).
  unfold slow in *. rewrite !observe_beyond. simpl. repeat case_bool_decide; naive_solver lia.
Qed.

Lemma timed_count l ops clock type :
  length clock = length ops →
  sample_count (timed l ops clock) type = sample_count l type + Z.of_nat (length (filter (λ o, timed_as type o = true) ops)).
Proof.
  revert l clock. induction ops as [|o ops IH]; intros l [|c clock]; simpl; intros Hlen; try done; [lia|].
  injection Hlen as Hlen. rewrite (IH _ _ Hlen). fold (time_op l o c). rewrite time_op_count, filter_cons.
  destruct (timed_as type o); [rewrite decide_True by done|rewrite decide_False by done]; simpl; lia.
Qed.

Lemma timed_slow l ops clock :
  Forall in_order clock → Z.of_nat (length (warnings l)) ≤ slow l →
  Z.of_nat (length (warnings (timed l ops clock))) ≤ slow (timed l ops clock).
Proof.
  revert l clock. induction ops as [|o ops IH]; intros l [|c clock]; simpl; try done. intros [Hc Hall]%Forall_cons Hl.
  apply IH; [done|]. by apply time_op_slow.
Qed.

(** ** Properties *)

(** The histogram counts the requests. After any run of a new store the samples under a
    label are as many as the counter of requests says, for writes, ranges and compactions;
    and every warning is of a request that lies beyond the bucket of a tenth of a second. *)
Theorem timers_exact `{!BlockSize} mode ops s rs clock :
  run (new_store mode) ops = Ret (s, rs) → Z.of_nat (length ops) ≤ i64_max →
  length clock = length ops → Forall in_order clock →
  let l := timed no_latencies ops clock in
  ∃ c, counted_run (new_store mode) unregistered ops = Ret (s, c, rs) ∧
    Forall (λ type, c (REQUEST_COUNT type) = sample_count l type) ["set"; "range"; "compact"]%string ∧
    Z.of_nat (length (warnings l)) ≤
      (sample_count l "set" - bucket l "set" 100000000) + (sample_count l "range" - bucket l "range" 100000000).
Proof.
  intros Hrun Hroom Hlen Hclock l. destruct (counted_run_sum (new_store mode) unregistered ops s rs Hrun) as (c & Hc & Hsum).
  exists c. split; [done|]. split; [|by apply timed_slow].
  assert (∀ type, (∀ s o s' r, step s o = Ret (s', r) →
    tally (REQUEST_COUNT type) (op_events s o r) = (if timed_as type o then 1 else 0)) → c (REQUEST_COUNT type) = sample_count l type) as Hreq.
  { intros type Hev. rewrite (Hsum _ (λ o _, if timed_as type o then 1 else 0) (λ _, 0) 0);
      [|intros s1 o s2 r Hs; rewrite (Hev _ _ _ _ Hs); lia|done].
    rewrite (sum_of_count _ _ _ _ _ Hrun). unfold l. rewrite timed_count by done. assert (sample_count no_latencies type = 0) as -> by done.
    assert (length (filter (λ o, timed_as type o = true) ops) ≤ length ops)%nat as Hf by apply length_filter.
    simpl. rewrite Z.add_0_r. apply as_u64_id. width. }
  repeat (apply Forall_cons_2; [apply Hreq; intros s1 o s2 r Hs; destruct (request_events _ _ _ _ Hs) as (E1 & E2 & E3 & E4);
    rewrite ?E1, ?E3, ?E4; by destruct o|]). apply Forall_nil_2.
Qed.

(** Two writes, a range that takes long and a compaction. *)
Definition timer_ops : list op :=
  [OPut (bytes "a") (bytes "1") None; ODelete (bytes "a") None; ORange (bytes "a") [] 0 None; OCompact 1].

Definition timer_clock : list ticks :=
  [(0, 1, (700000, 700001)); (800000, 800001, (6000000, 6000001)); (7000000, 7000001, (187000001, 187000003));
   (190000000, 190000000, (190000500, 190000500))].

Lemma timers_exact_witness :
  ∃ s c rs, counted_run (H:=block_size_2) (new_store None) unregistered timer_ops = Ret (s, c, rs) ∧
    c (REQUEST_COUNT "set") = 2 ∧ bucket (timed no_latencies timer_ops timer_clock) "set" 5000000 = 1.
Proof.
  destruct (@run_implements block_size_2 (new_store None) empty timer_ops) as (s & rs & E & _);
    [apply new_implements|repeat split; first [right; split; [reflexivity|vm_compute; discriminate]|vm_compute; discriminate]|
     vm_compute; discriminate|vm_compute; discriminate|].
  destruct (@timers_exact block_size_2 None timer_ops s rs timer_clock) as (c & Hc & Hall & _).
  - exact E.
  - vm_compute. discriminate.
  - reflexivity.
  - repeat constructor; vm_compute; discriminate.
  - exists s, c, rs. split; [exact Hc|]. apply Forall_cons in Hall as [Hset _]. split; [|vm_compute; reflexivity].
    rewrite Hset. vm_compute. reflexivity.
Defined.

Example timer_samples :
  let l := timed no_latencies timer_ops timer_clock in
  warnings l = [(180000000, RangeOf (bytes "a") [] 0)] ∧ (bucket l "range" <$> REQUEST_LATENCY_buckets) = [0; 0; 0; 0; 0; 1; 1; 1; 1].
Proof. vm_compute. split; reflexivity. Qed.
