(* ===== verification/Recovery.v ===== *)
(** * Recovery from the write-ahead log

    The start of a store on a log directory ([Store::new] of src/store.rs), and the
    theorem that ties the store, the notification thread, the log and its loader
    together: what a run of the store logged rebuilds its history. *)
From S2P Require Import Prelude Bytes BTreeMap BlockDeque Heap Types Wal Prefix History Store StoreSpec WatchSpec StoreTrace StoreProps Notify.
Import StoreTrace.

(** ** Starting on a directory *)

Section start.
Context `{!BlockSize}.

(** The [on_entry] callback, record after record. *)
Fixpoint replay_records (s : Store) (recs : list WalRecord) : outcome Store :=
  match recs with
  | [] => Ret s
  | rec :: recs' => s' ← set_for_replay s (rec_key rec) (rec_value rec); replay_records s' recs'
  end.

(** [Store::new], on the entries of the log directory when it is to be loaded. *)
Definition store_new (mode : option WalMode) (load : option (list DirEntry)) : outcome Store :=
  let s := new_store mode in
  match load with
  | None => Ret s
  | Some entries =>
      loaded ← load_wal_dir entries;
      match loaded with
      | Some (recs, r) =>
          s' ← replay_records s recs;
          match r with
          | Ok _ => Ret s'
          | Err _ => Panic "failed to load WAL dir"
          end
      | None => Panic "the merge ran out of fuel"
      end
  end.
End start.

(** ** Histories a store can have *)

(** Every change is a write the guards let through. *)
Inductive built : history → Prop :=
| built_nil : built []
| built_write h k new :
    built h → value (latest_or_null h k) ≠ None ∨ new ≠ None →
    (new ≠ None → 1 ≤ version (revised (latest_or_null h k) (Z.of_nat (length h) + 1) new)) →
    built (hist_write h k new).

(** The record a change is logged as. *)
Definition change_record (c : change) : option WalRecord :=
  '(k, v) ← c; Some (mkWalRecord (mod_revision v) k (value v) None).

Definition history_records (h : history) : list WalRecord := omap change_record h.

(** What is announced for a change. *)
Definition change_announced (c : change) : option (Z * KeyValue) :=
  '(k, v) ← c; Some (mod_revision v, as_mvcc_key_value v k).

Definition history_announced (h : history) : list (Z * KeyValue) := omap change_announced h.

(** The record [do_send] makes of an announcement. *)
Definition announced_record (e : Z * KeyValue) : WalRecord :=
  mkWalRecord e.1 (kv_key e.2) (if kv_version e.2 =? 0 then None else Some (kv_value e.2)) None.

Lemma latest_version h k v :
  lineage_ok h → latest_of h k = Some v → 1 ≤ version v.
Proof.
  intros Hl Hv. destruct (Hl k v Hv) as (_ & (w & Hw & Hc) & ->).
  assert (w ∈ filter (λ w, create_revision v ≤ mod_revision w) (events h k)) as Hin.
  { apply list_elem_of_filter. split; [lia|done]. }
  destruct (filter _ _); [by apply elem_of_nil in Hin|]. simpl. lia.
Qed.

Lemma built_set h k new req :
  hist_ok h → Z.of_nat (length h) < i64_max → lineage_ok h → built h → guard h k new req = None →
  built (hist_write h k new).
Proof.
  intros Hh Hlt Hl Hb Hg. constructor; [done| |].
  - rewrite guard_code in Hg. unfold set_guard in Hg. simpl in Hg. destruct (value (latest_or_null h k)); [by left|].
    destruct (_ || _); [done|]. destruct new; [by right|done].
  - intros _. eapply latest_version; [by apply lineage_write|]. apply latest_of_snoc_eq.
Qed.

Lemma built_final `{!BlockSize} s a ops :
  implements s a → legal_run a ops → lineage_ok (hist a) → built (hist a) →
  Z.of_nat (length (hist a)) + Z.of_nat (length ops) ≤ i64_max →
  Z.of_nat (length (channels s)) + Z.of_nat (length ops) ≤ i64_max →
  built (hist (final a ops)).
Proof.
  revert s a. induction ops as [|o ops IH]; intros s a Hi Hleg Hl Hb Hh Hc; simpl in *; [done|].
  destruct Hleg as [Ho Hleg].
  destruct (step_implements s a o) as (s1 & r & _ & Hi1 & _ & Hch); [done|done|lia|lia|].
  pose proof (anext_length a o). pose proof (sr_hist _ _ (im_repr _ _ Hi)) as Hok.
  apply (IH s1); [done|done|eapply lineage_step; [done|lia|done]| |lia|lia].
  assert (∀ k new req, built (hist (awrite a k new req))) as Hw.
  { intros k new req. unfold awrite, hist_set. destruct (guard (hist a) k new req) eqn:Eg; simpl; [done|].
    by eapply built_set; [|lia|..]. }
  destruct o as [k v req|k req|k new|b e rev lim|b e rev want|b id|rev]; simpl; try done; try apply Hw.
  - unfold hist_replay. destruct (value (latest_or_null (hist a) k)) eqn:Ev, new; try done;
      (constructor; [done|by rewrite ?Ev; auto|]; intros _;
       eapply latest_version; [apply lineage_write; (done || lia)|apply latest_of_snoc_eq]).
  - by case_match.
Qed.

(** Replaying the records of a history rebuilds it. *)
Lemma replay_history h :
  built h → foldl (λ g rec, hist_replay g (rec_key rec) (rec_value rec)) [] (history_records h) = h.
Proof.
  induction 1 as [|h k new Hb IH Hlive _]; [done|]. unfold history_records, hist_write in *.
  rewrite omap_app, foldl_app, IH. simpl.
  unfold hist_replay, hist_write. destruct (value (latest_or_null h k)), new; try done. naive_solver.
Qed.

(** A logged announcement is the record of its change. *)
Lemma announced_records h :
  built h → announced_record <$> history_announced h = history_records h.
Proof.
  induction 1 as [|h k new Hb IH _ Hver]; [done|].
  unfold history_announced, history_records, hist_write in *. rewrite !omap_app, fmap_app, IH. f_equal.
  simpl. unfold announced_record, as_mvcc_key_value. simpl.
  destruct new as [b|]; simpl; [|done].
  rewrite (proj2 (Z.eqb_neq _ _)); [done|]. specialize (Hver ltac:(done)). simpl in Hver. lia.
Qed.

(** Without replays, the announcements of a run are those of its history. *)
Lemma final_announced_history a ops :
  Forall (λ o, no_replay o = true) ops → announced a = history_announced (hist a) →
  announced (final a ops) = history_announced (hist (final a ops)).
Proof.
  intros Hops. revert a. induction Hops as [|o ops Ho _ IH]; intros a Ha; simpl; [done|].
  assert (∀ k new req, announced (awrite a k new req) = history_announced (hist (awrite a k new req))) as Hw.
  { intros k new req. unfold awrite, hist_set, hist_write. destruct (guard _ _ _ _); simpl; [done|].
    unfold history_announced in *. rewrite omap_app, Ha. simpl. done. }
  apply IH. destruct o; simpl; try done; try apply Hw. by case_match.
Qed.

(** ** What the notification thread logs *)

(** A log that keeps every prefix. *)
Definition persists (m : WalManager) : Prop :=
  default_mode m ≠ WalNone ∧ prefix_modes_no_persist m = ∅.

Definition queues (m : WalManager) : list (list WalRecord) := (map_to_list (writers m)).*2.

(** The queues are in revision order, up to revision [n]. *)
Definition queues_ok (m : WalManager) (n : Z) : Prop :=
  Forall (λ q, rev_sorted q ∧ Forall (λ r, rec_rev r ≤ n) q) (queues m).

Definition job_record (j : NotifyJob) : WalRecord :=
  let e := announcement j in
  mkWalRecord e.1 (kv_key e.2) (if kv_version e.2 =? 0 then None else Some (kv_value e.2)) (wal_handled j).

Lemma append_spec m p rev k v n :
  persists m →
  ∃ m', append m p rev k v n = (m', []) ∧ persists m' ∧
    writers m' = <[p := default [] (writers m !! p) ++ [mkWalRecord rev k v n]]> (writers m).
Proof.
  intros [Hm Hp]. unfold append. rewrite (bool_decide_false (default_mode m = WalNone)) by done.
  rewrite (bool_decide_false (p ∈ _)) by (rewrite Hp; set_solver). simpl.
  destruct (writers m !! p) as [q|] eqn:E; eexists; (split; [done|]); (split; [done|]); simpl.
  - by rewrite E.
  - by rewrite lookup_insert_eq, insert_insert_eq.
Qed.

Lemma queues_insert m m' p q' :
  writers m' = <[p := q']> (writers m) →
  queues m ≡ₚ default [] (writers m !! p) :: (map_to_list (delete p (writers m))).*2
    ∨ writers m !! p = None ∧ queues m ≡ₚ (map_to_list (delete p (writers m))).*2.
Proof.
  intros _. unfold queues. destruct (writers m !! p) as [q|] eqn:E; [left|right].
  - simpl. by rewrite <- (map_to_list_delete _ _ _ E).
  - split; [done|]. by rewrite delete_id.
Qed.

Lemma queues_after m m' p q' :
  writers m' = <[p := q']> (writers m) → queues m' ≡ₚ q' :: (map_to_list (delete p (writers m))).*2.
Proof.
  intros Hw. unfold queues. rewrite Hw, <- insert_delete_eq, map_to_list_insert by apply lookup_delete_eq. done.
Qed.

Lemma append_queues m m' p rec :
  writers m' = <[p := default [] (writers m !! p) ++ [rec]]> (writers m) →
  concat (queues m') ≡ₚ concat (queues m) ++ [rec].
Proof.
  intros Hw. rewrite (queues_after _ _ _ _ Hw).
  destruct (queues_insert _ _ _ _ Hw) as [Hq|[Hn Hq]]; rewrite Hq; simpl.
  - rewrite <- !app_assoc. apply Permutation_app_head. apply Permutation_app_comm.
  - rewrite Hn. simpl. apply Permutation_cons_append.
Qed.

Lemma append_queues_ok m m' p rec n :
  writers m' = <[p := default [] (writers m !! p) ++ [rec]]> (writers m) →
  queues_ok m n → rec_rev rec = n + 1 → queues_ok m' (n + 1).
Proof.
  intros Hw Hok Hr. unfold queues_ok in *. rewrite (queues_after _ _ _ _ Hw).
  assert (∀ q, rev_sorted q ∧ Forall (λ r, rec_rev r ≤ n) q →
    rev_sorted q ∧ Forall (λ r, rec_rev r ≤ n + 1) q) as Hmono.
  { intros q [Hs Hall]. split; [done|]. eapply Forall_impl; [exact Hall|]. simpl. lia. }
  assert (∀ q, rev_sorted q ∧ Forall (λ r, rec_rev r ≤ n) q →
    rev_sorted (q ++ [rec]) ∧ Forall (λ r, rec_rev r ≤ n + 1) (q ++ [rec])) as Hsnoc.
  { intros q [Hs Hall]. split.
    - unfold rev_sorted in *. rewrite fmap_app. simpl. clear Hmono.
      induction q as [|x q IH]; simpl; [by repeat constructor|].
      inversion Hs as [|?? Hs' Hx]; inversion Hall as [|?? Hxn Hall']; subst.
      constructor; [by apply IH|]. apply Forall_app. split; [done|]. constructor; [lia|done].
    - apply Forall_app. split; [eapply Forall_impl; [exact Hall|]; simpl; lia|]. constructor; [lia|done]. }
  destruct (queues_insert _ _ _ _ Hw) as [Hq|[Hn Hq]]; rewrite Hq in Hok.
  - inversion Hok as [|?? Hp Hrest]; subst. constructor; [by apply Hsnoc|].
    eapply Forall_impl; [exact Hrest|]. exact Hmono.
  - rewrite Hn. constructor; [by apply (Hsnoc []); repeat constructor|].
    eapply Forall_impl; [exact Hok|]. exact Hmono.
Qed.

Lemma do_send_logs w m job n :
  log w = Some m → persists m → queues_ok m n → job_rev job = n + 1 →
  ∃ m', log (do_send w job) = Some m' ∧ persists m' ∧ queues_ok m' (n + 1) ∧
    concat (queues m') ≡ₚ concat (queues m) ++ [job_record job].
Proof.
  intros Hl Hp Hok Hr. unfold do_send. rewrite Hl.
  destruct (append_spec m (job_prefix job) (job_rev job) (kv_key (kv (job_msg job)))
    (if kv_version (kv (job_msg job)) =? 0 then None else Some (kv_value (kv (job_msg job))))
    (wal_handled job) Hp) as (m' & -> & Hp' & Hw).
  exists m'. split; [done|]. split; [done|]. split.
  - by eapply append_queues_ok.
  - by eapply append_queues.
Qed.

Lemma jobs_logged jobs w m n :
  log w = Some m → persists m → queues_ok m n → 0 ≤ n →
  job_rev <$> jobs = seqZ (n + 1) (Z.of_nat (length jobs)) →
  ∃ m', log (foldl do_send w jobs) = Some m' ∧ persists m' ∧
    queues_ok m' (n + Z.of_nat (length jobs)) ∧
    concat (queues m') ≡ₚ concat (queues m) ++ (job_record <$> jobs).
Proof.
  revert w m n. induction jobs as [|j jobs IH]; intros w m n Hl Hp Hok Hn Hr; simpl.
  { exists m. rewrite Z.add_0_r, app_nil_r. done. }
  csimpl in Hr. rewrite seqZ_cons in Hr by lia. injection Hr as Hj Hr.
  destruct (do_send_logs w m j n Hl Hp Hok Hj) as (m1 & Hl1 & Hp1 & Hok1 & Hq1).
  destruct (IH (do_send w j) m1 (n + 1) Hl1 Hp1 Hok1) as (m2 & Hl2 & Hp2 & Hok2 & Hq2); [lia| |].
  { rewrite Hr. f_equal; lia. }
  exists m2. split; [done|]. split; [done|]. split.
  - by replace (n + Z.of_nat (S (length jobs))) with (n + 1 + Z.of_nat (length jobs)) by lia.
  - rewrite Hq2, Hq1, <- app_assoc. done.
Qed.

(** ** Reading it back *)

(** The directory once every queue has been written to its file. *)
Definition log_dir (m : WalManager) : list (DirEntry * list WalRecord) :=
  (λ e, (mkDirEntry (file_name_for_prefix e.1) true (encode_records e.2), e.2)) <$> map_to_list (writers m).

Lemma logs_of_log_dir m : logs_of (log_dir m) = queues m.
Proof.
  unfold logs_of, log_dir, queues. induction (map_to_list (writers m)) as [|[p q] l IH]; [done|].
  simpl. rewrite filter_cons, decide_True.
  - simpl. f_equal. exact IH.
  - simpl. unfold is_log. simpl. apply file_name_is_log.
Qed.

Lemma log_dir_holds m n :
  queues_ok m n → Forall record_ok (concat (queues m)) → dir_holds (log_dir m).
Proof.
  intros Hqok Hokq. unfold dir_holds, log_dir. apply Forall_fmap, Forall_forall. intros [p q] Hin _. simpl.
  assert (q ∈ queues m) as Hqm by (apply (list_elem_of_fmap_2 snd _ (p, q)), Hin).
  split; [apply holds_encoded|]. split.
  - apply Forall_forall. intros r Hr. rewrite Forall_forall in Hokq. apply Hokq.
    apply list_elem_of_In, in_concat. exists q. by rewrite <- !list_elem_of_In.
  - unfold queues_ok in Hqok. rewrite Forall_forall in Hqok. by apply Hqok.
Qed.

(** A sorted arrangement of records with distinct revisions is unique. *)
Lemma sorted_records_unique (l1 l2 : list WalRecord) :
  l1 ≡ₚ l2 → rev_sorted l1 → StronglySorted Z.lt (rec_rev <$> l2) → l1 = l2.
Proof.
  revert l2. induction l1 as [|x l1 IH]; intros [|y l2] Hp H1 H2; [done|by apply Permutation_nil_l in Hp|by apply Permutation_nil_r in Hp|].
  inversion H1 as [|?? H1' Hx]; inversion H2 as [|?? H2' Hy]; subst.
  rewrite Forall_fmap, Forall_forall in Hx, Hy.
  assert (x = y) as ->.
  { assert (x ∈ y :: l2) as Hin by (rewrite <- Hp; by left).
    assert (y ∈ x :: l1) as Hin' by (rewrite Hp; by left).
    apply elem_of_cons in Hin as [?|Hin]; [done|]. apply elem_of_cons in Hin' as [?|Hin']; [done|].
    specialize (Hx y Hin'). specialize (Hy x Hin). simpl in *. lia. }
  f_equal. apply IH; [by eapply Permutation_cons_inv|done|done].
Qed.

Lemma hist_replay_length h key new : (length (hist_replay h key new) ≤ S (length h))%nat.
Proof. unfold hist_replay, hist_write. destruct (value _), new; rewrite ?length_app; simpl; lia. Qed.

Lemma replay_records_repr `{!BlockSize} s h recs :
  store_repr s h → Z.of_nat (length h) + Z.of_nat (length recs) ≤ i64_max →
  ∃ s', replay_records s recs = Ret s' ∧
    store_repr s' (foldl (λ g rec, hist_replay g (rec_key rec) (rec_value rec)) h recs).
Proof.
  revert s h. induction recs as [|rec recs IH]; intros s h Hr Hl; simpl; [by eauto|].
  simpl in Hl. destruct (set_for_replay_spec s h (rec_key rec) (rec_value rec) Hr) as (s1 & -> & Hr1 & _); [lia|].
  rewrite bind_ret. apply IH; [done|].
  pose proof (hist_replay_length h (rec_key rec) (rec_value rec)). lia.
Qed.

Lemma store_new_repr `{!BlockSize} mode dir :
  dir_holds dir → Z.of_nat (length (concat (logs_of dir))) ≤ i64_max →
  ∃ recs s, store_new mode (Some dir.*1) = Ret s ∧
    recs ≡ₚ forget_notify <$> concat (logs_of dir) ∧ rev_sorted recs ∧
    store_repr s (foldl (λ g rec, hist_replay g (rec_key rec) (rec_value rec)) [] recs).
Proof.
  intros Hd Hl. destruct (load_wal_dir_spec dir Hd) as (recs & Hload & Hp & Hs).
  destruct (replay_records_repr (new_store mode) [] recs) as (s & Hrep & Hr).
  - apply (im_repr _ _ (new_implements mode)).
  - rewrite Hp, length_fmap. simpl. lia.
  - exists recs, s. unfold store_new. rewrite Hload, bind_ret, Hrep, bind_ret. done.
Qed.

(** ** Properties *)

(** The manager of a store that starts with an empty log directory. *)
Definition empty_log (mode : WalMode) : WalManager := mkWalManager mode ∅ ∅ ∅ [].

(** A run of a new store: its jobs are the records of its history, in order. *)
Lemma logged_run `{!BlockSize} mode ops s rs :
  legal_run empty ops → Forall (λ o, no_replay o = true) ops →
  Z.of_nat (length ops) < i64_max → run (new_store (Some mode)) ops = Ret (s, rs) →
  let h := hist (final empty ops) in
  store_repr s h ∧ built h ∧ job_rev <$> notify_tx s = seqZ 1 (Z.of_nat (length h)) ∧
  forget_notify <$> (job_record <$> notify_tx s) = history_records h ∧
  length (notify_tx s) = length h ∧ Z.of_nat (length h) < i64_max.
Proof.
  intros Hleg Hno Hlen Hrun h.
  destruct (run_implements (new_store (Some mode)) empty ops) as (s0 & rs0 & Hrun0 & [Hr _ Hj _] & _);
    [apply new_implements|done|simpl; lia|simpl; lia|].
  rewrite Hrun in Hrun0. injection Hrun0 as <- <-.
  assert (built h) as Hb.
  { apply (built_final (new_store (Some mode))); [apply new_implements|done|done|constructor|simpl; lia|simpl; lia]. }
  assert (announced (final empty ops) = history_announced h) as Ha by (by apply final_announced_history).
  assert (job_rev <$> notify_tx s = seqZ 1 (Z.of_nat (length h))) as Hrev.
  { assert (announced_all (final empty ops)) as Hall by (by apply final_announced).
    unfold announced_all in Hall. by rewrite <- Hj, <- list_fmap_compose in Hall. }
  split; [done|]. split; [done|]. split; [done|]. split.
  { rewrite <- (announced_records h Hb), <- Ha, <- Hj, <- !list_fmap_compose. done. }
  split; [rewrite <- (length_fmap job_rev), Hrev, length_seqZ; lia|].
  pose proof (final_length empty ops) as Hhl. fold h in Hhl. simpl in Hhl. lia.
Qed.


Definition log_ops : list op :=
  [OPut (bytes "/registry/pods/a") (bytes "1") None; OPut (bytes "b") [] None;
   ODelete (bytes "/registry/pods/a") None; OCompact 2].


(** A log that stops inside the body of its last record makes the start panic. *)
Example torn_log_refuses_to_start :
  match store_new (H:=block_size_2) (Some WalAsync)
          (Some [mkDirEntry (file_name_for_prefix []) true
                   (encode_record (mkWalRecord 1 (bytes "a") (Some (bytes "x")) None) ++
                    take 17 (encode_record (mkWalRecord 2 (bytes "b") (Some (bytes "y")) None)))]) with
  | Panic _ => True
  | Ret _ => False
  end.
Proof. vm_compute. exact I. Qed.
