(* ===== verification/Concurrent.v ===== *)
(** * Concurrent writers (src/store.rs, [Store::set])

    [set] calls that run side by side. A call reads the revision, finds or creates the item
    of its key, enters a new item in the prefix index, takes the item's write lock, checks its
    condition and reserves a revision, stores the value and releases the lock, and last queues
    its notification; other calls and compactions run in between. Here each of these is a
    step, the locks are those of the items, and the theorem is that every interleaving has the
    effect of the calls one after the other. *)
From stdpp Require Import relations.
From S2P Require Import Prelude Bytes BTreeMap BlockDeque Heap Types Wal Prefix History Store StoreSpec WatchSpec StoreTrace StoreProps Notify Recovery.

Import StoreTrace.

(** ** The parts of a call *)

Record Call := mkCall {
  c_key : ByteArray;
  c_new : option ByteArray;
  c_required : option SetRequired;
}.

(** Where a call is. [latest] is the revision it read at its start; from [Storing] on it has
    a revision, and at [Storing] it holds the lock of the item. *)
Inductive Pc :=
| Starting
| Entering (latest : Z)
| Indexing (latest : Z) (l : loc)
| Locking (latest : Z) (l : loc) (is_new : bool)
| Storing (l : loc) (rev : Z) (v : Value) (old : option Value)
| Notifying (rev : Z) (v : Value) (old : option Value)
| Finished (r : Result Z SetError).

(** [tree_map.entry(key)] on a vacant entry: the placeholder item. *)
Definition enter_tree (s : Store) (key : ByteArray) : Store :=
  with_index s (prefix_map s) (<[key := length (arcs s)]> (tree_map s))
    (arcs s ++ [{| item_key := key; revisions := []; latest_value := null_value |}]).

(** The insertion into [prefix_map] that follows it. *)
Definition index_prefix (s : Store) (key : ByteArray) (l : loc) : Store :=
  let '(prefix, suffix) := prefix_split key in
  with_index s (prefix_insert (prefix_map s) prefix suffix l) (tree_map s) (arcs s).

Section parts.
Context `{!BlockSize}.

(** Under the lock: the guards, the drain of compacted revisions and the reservation of a
    revision. *)
Definition reserve (s : Store) (l : loc) (new : option ByteArray) (required : option SetRequired)
    (latest : Z) : outcome (Store * Result (Z * Value * Value) SetError) :=
  existing_item ← get_item s l;
  match set_guard existing_item new required latest with
  | Some e => Ret (s, Err e)
  | None =>
      let earliest := as_i64 (Deque.earliest_revision (values_by_revision s)) in
      let revs := drain_compacted (revisions existing_item) earliest in
      pushed ← Deque.push (values_by_revision s) placeholder_value;
      let new_rev := i64_add (as_i64 pushed.1) 1 in
      let old := latest_value existing_item in
      let drained := {| item_key := item_key existing_item; revisions := revs; latest_value := old |} in
      Ret (with_values (with_arcs s (<[l := drained]> (arcs s))) pushed.2,
           Ok (new_rev, next_value old new_rev new, old))
  end.

(** The item once the value is stored. *)
Definition stored (item : TreeItem) (rev : Z) (v : Value) : TreeItem :=
  {| item_key := item_key item; revisions := revisions item ++ [rev]; latest_value := v |}.

(** Still under the lock: the value goes to the item and to its slot. *)
Definition commit (s : Store) (l : loc) (rev : Z) (v : Value) : outcome Store :=
  item ← get_item s l;
  r ← Deque.set (values_by_revision s) (usize_sub (as_usize rev) 1) v;
  Ret (with_values (with_arcs s (<[l := stored item rev v]> (arcs s))) r.2).
End parts.

(** ** Steps *)

(** The store and the calls; [order] records for the proofs the order in which the calls
    were decided. *)
Record Writers := mkWriters {
  st : Store;
  pcs : list Pc;
  order : list nat;
}.

Definition unlocked (w : Writers) (l : loc) : Prop :=
  ∀ i rev v old, pcs w !! i ≠ Some (Storing l rev v old).

Definition move (w : Writers) (s : Store) (i : nat) (pc : Pc) : Writers :=
  mkWriters s (<[i := pc]> (pcs w)) (order w).

(** Moving on from the guards decides the call. *)
Definition decide_call (w : Writers) (s : Store) (i : nat) (pc : Pc) : Writers :=
  mkWriters s (<[i := pc]> (pcs w)) (order w ++ [i]).

Inductive cstep `{!BlockSize} (calls : list Call) (w : Writers) : Writers → Prop :=
(** [self.current_revision()] *)
| step_start i :
    pcs w !! i = Some Starting →
    cstep calls w (move w (st w) i (Entering (current_revision (st w))))
(** [tree_map.entry(key)] *)
| step_occupied i c latest l :
    calls !! i = Some c → pcs w !! i = Some (Entering latest) → tree_map (st w) !! c_key c = Some l →
    cstep calls w (move w (st w) i (Locking latest l false))
| step_vacant i c latest :
    calls !! i = Some c → pcs w !! i = Some (Entering latest) → tree_map (st w) !! c_key c = None →
    cstep calls w (move w (enter_tree (st w) (c_key c)) i (Indexing latest (length (arcs (st w)))))
(** [prefix_map.entry(prefix)] *)
| step_index i c latest l :
    calls !! i = Some c → pcs w !! i = Some (Indexing latest l) →
    cstep calls w (move w (index_prefix (st w) (c_key c) l) i (Locking latest l true))
(** [item_arc.write()], the guards and [push] *)
| step_refused i c latest l n s e :
    calls !! i = Some c → pcs w !! i = Some (Locking latest l n) → unlocked w l →
    reserve (st w) l (c_new c) (c_required c) latest = Ret (s, Err e) →
    cstep calls w (decide_call w s i (Finished (Err e)))
| step_reserved i c latest l (n : bool) s rev v old :
    calls !! i = Some c → pcs w !! i = Some (Locking latest l n) → unlocked w l →
    reserve (st w) l (c_new c) (c_required c) latest = Ret (s, Ok (rev, v, old)) →
    cstep calls w (decide_call w s i (Storing l rev v (if n then None else Some old)))
(** [values_by_revision.set(..)], the update of the item and the end of the lock *)
| step_stored i l rev v old s :
    pcs w !! i = Some (Storing l rev v old) → commit (st w) l rev v = Ret s →
    cstep calls w (move w s i (Notifying rev v old))
(** [notify_watchers(..)] *)
| step_notified i c rev v old s :
    calls !! i = Some c → pcs w !! i = Some (Notifying rev v old) →
    notify_watchers (st w) (c_key c) v old (prefix_split (c_key c)).1 = Ret s →
    cstep calls w (move w s i (Finished (Ok rev)))
(** A compaction by another client *)
| step_compacted rev s r :
    compact (st w) rev = Ret (s, r) →
    cstep calls w (mkWriters s (pcs w) (order w)).

Definition start (s : Store) (calls : list Call) : Writers :=
  mkWriters s (replicate (length calls) Starting) [].

(** ** Schedules *)

(** A schedule names the call that moves next. *)
Definition holds_lock (l : loc) (pc : Pc) : bool :=
  match pc with Storing l' _ _ _ => bool_decide (l' = l) | _ => false end.

Definition exec_step `{!BlockSize} (calls : list Call) (w : Writers) (i : nat) : option Writers :=
  c ← calls !! i;
  pc ← pcs w !! i;
  match pc with
  | Starting => Some (move w (st w) i (Entering (current_revision (st w))))
  | Entering latest =>
      match tree_map (st w) !! c_key c with
      | Some l => Some (move w (st w) i (Locking latest l false))
      | None => Some (move w (enter_tree (st w) (c_key c)) i (Indexing latest (length (arcs (st w)))))
      end
  | Indexing latest l => Some (move w (index_prefix (st w) (c_key c) l) i (Locking latest l true))
  | Locking latest l n =>
      if existsb (holds_lock l) (pcs w) then None
      else match reserve (st w) l (c_new c) (c_required c) latest with
           | Ret (s, Ok (rev, v, old)) => Some (decide_call w s i (Storing l rev v (if n then None else Some old)))
           | Ret (s, Err e) => Some (decide_call w s i (Finished (Err e)))
           | Panic _ => None
           end
  | Storing l rev v old =>
      match commit (st w) l rev v with Ret s => Some (move w s i (Notifying rev v old)) | Panic _ => None end
  | Notifying rev v old =>
      match notify_watchers (st w) (c_key c) v old (prefix_split (c_key c)).1 with
      | Ret s => Some (move w s i (Finished (Ok rev)))
      | Panic _ => None
      end
  | Finished _ => None
  end.

Fixpoint exec `{!BlockSize} (calls : list Call) (w : Writers) (schedule : list nat) : option Writers :=
  match schedule with
  | [] => Some w
  | i :: rest => w' ← exec_step calls w i; exec calls w' rest
  end.

(** ** The calls one after the other *)

Definition after_call (calls : list Call) (h : history) (i : nat) : history :=
  match calls !! i with
  | Some c => (hist_set h (c_key c) (c_new c) (c_required c)).1
  | None => h
  end.

Definition after_calls (calls : list Call) (h : history) (is_ : list nat) : history :=
  foldl (after_call calls) h is_.

(** What the [n]-th call of an order answers when it runs alone. *)
Definition answer_alone (calls : list Call) (h : history) (is_ : list nat) (n : nat) :
    option (Result Z SetError) :=
  i ← is_ !! n;
  c ← calls !! i;
  Some (hist_set (after_calls calls h (take n is_)) (c_key c) (c_new c) (c_required c)).2.

(** A refusal reports the revision read at the start of the call, which other calls may have
    moved on since. *)
Definition same_answer (r alone : Result Z SetError) : Prop :=
  match r, alone with
  | Ok rev, Ok rev' => rev = rev'
  | Err (latest, kv), Err (latest', kv') => latest ≤ latest' ∧ kv = kv'
  | _, _ => False
  end.

Definition is_finished (pc : Pc) : Prop := match pc with Finished _ => True | _ => False end.

#[export] Instance is_finished_dec pc : Decision (is_finished pc).
Proof. destruct pc; apply _. Defined.

(** ** The parts make up the call *)

Lemma set_entry_parts s key :
  set_entry s key =
    match tree_map s !! key with
    | Some l => (s, l, false)
    | None => (index_prefix (enter_tree s key) key (length (arcs s)), length (arcs s), true)
    end.
Proof.
  unfold set_entry, insert_item, index_prefix, enter_tree. destruct (tree_map s !! key); [done|].
  by destruct (prefix_split key).
Qed.

Lemma set_locked_parts `{!BlockSize} s l is_new new required latest :
  (l < length (arcs s))%nat →
  set_locked s l is_new new required latest =
    (r ← reserve s l new required latest;
     match r.2 with
     | Err e => Ret (r.1, Err e)
     | Ok (rev, v, old) =>
         item ← get_item s l;
         s' ← commit r.1 l rev v;
         Ret (s', Ok (rev, item_key item, v, if is_new then None else Some old))
     end).
Proof.
  intros Hl. destruct (lookup_lt_is_Some_2 _ _ Hl) as [it Hit].
  unfold set_locked, reserve, commit, get_item. rewrite (index_or_panic_ret _ _ _ Hit), !bind_ret.
  destruct (set_guard it new required latest) as [e|]; [done|].
  destruct (Deque.push _ _) as [[i d]|m]; [|done]. rewrite !bind_ret. simpl.
  rewrite (index_or_panic_ret _ _ _ (list_lookup_insert_eq _ _ _ Hl)), bind_ret.
  destruct (Deque.set d _ _) as [[b d']|m]; [|done]. rewrite !bind_ret. simpl.
  by rewrite list_insert_insert_eq.
Qed.

(** ** A schedule is a run *)

Lemma exec_step_sound `{!BlockSize} calls w i w' : exec_step calls w i = Some w' → cstep calls w w'.
Proof.
  unfold exec_step. destruct (calls !! i) as [c|] eqn:Hc; [|done].
  destruct (pcs w !! i) as [pc|] eqn:Hi; [|done]. simpl.
  destruct pc as [|latest|latest l|latest l n|l rev v old|rev v old|r]; simpl.
  - intros [= <-]. by apply step_start.
  - destruct (tree_map (st w) !! c_key c) as [l|] eqn:Hl; intros [= <-]; [by eapply step_occupied|by eapply step_vacant].
  - intros [= <-]. by eapply step_index.
  - destruct (existsb (holds_lock l) (pcs w)) eqn:El; [done|].
    assert (unlocked w l) as Hun.
    { intros j rev v old Hj. apply not_true_iff_false in El. apply El, existsb_exists.
      exists (Storing l rev v old). split; [by eapply list_elem_of_In, list_elem_of_lookup_2|]. simpl. by rewrite bool_decide_true. }
    destruct (reserve _ _ _ _ _) as [[s [[[rev v] old]|e]]|m] eqn:Er; [..|done]; intros [= <-];
      [by eapply step_reserved|by eapply step_refused].
  - destruct (commit _ _ _ _) as [s|m] eqn:Ec; [|done]. intros [= <-]. by eapply step_stored.
  - destruct (notify_watchers _ _ _ _ _) as [s|m] eqn:En; [|done]. intros [= <-]. by eapply step_notified.
  - done.
Qed.

Lemma exec_sound `{!BlockSize} calls w schedule w' :
  exec calls w schedule = Some w' → rtc (cstep calls) w w'.
Proof.
  revert w. induction schedule as [|i rest IH]; intros w; simpl; [by intros [= <-]|].
  destruct (exec_step calls w i) as [w1|] eqn:E; [|done]. simpl. intros Hx.
  eapply rtc_l; [by eapply exec_step_sound|by apply IH].
Qed.

(** ** The store in the middle of calls *)

(** [held] are the locked items, each with the revision reserved for it and the value to be
    stored; [hidden] are the items that are not in the prefix index yet. The history already
    has the reserved changes. *)
Record partial_repr `{!BlockSize} (s : Store) (h : history) (held : gmap loc (Z * Value))
    (hidden : gset loc) : Prop := {
  pr_hist : hist_ok h;
  pr_start : 0 ≤ first_index s ≤ Z.of_nat (length h);
  pr_values : ∃ vs, dq_repr (values_by_revision s) vs ∧
    first_index s + Z.of_nat (length vs) = Z.of_nat (length h) ∧
    ∀ n c, h !! n = Some c → first_index s ≤ Z.of_nat n →
      (∀ l rev v, held !! l = Some (rev, v) → rev ≠ Z.of_nat n + 1) →
      vs !! Z.to_nat (Z.of_nat n - first_index s) = Some (slot c);
  pr_sorted : ∀ p i, prefix_map s !! p = Some i → bt_wf (btree i);
  pr_agree : ∀ p x l, prefix_lookup (prefix_map s) p x = Some l ↔
    prefix_split (p ++ x) = (p, x) ∧ tree_map s !! (p ++ x) = Some l ∧ l ∉ hidden;
  pr_items : ∀ k l, tree_map s !! k = Some l → ∃ it, arcs s !! l = Some it ∧
    item_repr h (first_index s) k
      (match held !! l with Some (rev, v) => stored it rev v | None => it end);
  pr_known : ∀ k v, latest_of h k = Some v → is_Some (tree_map s !! k);
  pr_held : ∀ l rev v, held !! l = Some (rev, v) → ∃ k, tree_map s !! k = Some l ∧
    1 ≤ rev ∧ h !! Z.to_nat (rev - 1) = Some (Some (k, v));
}.

Section partial.
Context `{!BlockSize}.
Implicit Types (s : Store) (h : history).

Lemma partial_of_repr s h : store_repr s h → partial_repr s h ∅ ∅.
Proof.
  intros [Hh Hst Hd [Hso Hag] Hit Hk]. split; try done.
  - eexists. split; [exact Hd|]. rewrite length_drop, length_fmap. split; [lia|].
    intros n c Hn Hle _. rewrite lookup_drop, list_lookup_fmap.
    replace (Z.to_nat (first_index s) + Z.to_nat (Z.of_nat n - first_index s))%nat with n by lia.
    by rewrite Hn.
  - intros p x l. rewrite Hag. set_solver.
Qed.

Lemma repr_of_partial s h : partial_repr s h ∅ ∅ → store_repr s h.
Proof.
  intros [Hh Hst (vs & Hd & Hlen & Hvs) Hso Hag Hit Hk _]. split; try done.
  - replace (drop (Z.to_nat (first_index s)) (slot <$> h)) with vs; [done|].
    apply list_eq_same_length with (length vs); [|done|].
    { rewrite length_drop, length_fmap. lia. }
    intros i x y Hi Hx Hy. rewrite lookup_drop, list_lookup_fmap in Hy.
    apply fmap_Some in Hy as (c & Hc & ->).
    specialize (Hvs _ _ Hc ltac:(lia) ltac:(done)).
    replace (Z.to_nat (Z.of_nat (Z.to_nat (first_index s) + i) - first_index s)) with i in Hvs by lia.
    congruence.
  - split; [done|]. intros p x l. rewrite Hag. set_solver.
Qed.

(** The relation looks at nothing but the indexes, the items and the values. *)
Lemma partial_ext s s' h held hidden :
  prefix_map s' = prefix_map s → tree_map s' = tree_map s → arcs s' = arcs s →
  values_by_revision s' = values_by_revision s →
  partial_repr s h held hidden → partial_repr s' h held hidden.
Proof.
  intros Hp Ht Ha Hv [? ? ? ? ? ? ? ?]. unfold first_index in *.
  split; unfold first_index; rewrite ?Hp, ?Ht, ?Ha, ?Hv; done.
Qed.

Lemma partial_latest s h held hidden :
  partial_repr s h held hidden →
  Deque.latest_revision (values_by_revision s) = Z.of_nat (length h) ∧
  current_revision s = Z.of_nat (length h) ∧ Z.of_nat (length h) ≤ i64_max.
Proof.
  intros Hr. destruct (pr_values _ _ _ _ Hr) as (vs & Hd & Hlen & _). unfold first_index in *.
  pose proof (dq_bound _ _ Hd). pose proof (dq_repr_latest _ _ Hd) as Hlat.
  unfold current_revision. rewrite Hlat, Hlen. split; [done|]. split; [|lia].
  apply as_i64_id. width.
Qed.

(** An item is the item of one key. *)
Lemma partial_inj s h held hidden k k' l :
  partial_repr s h held hidden → tree_map s !! k = Some l → tree_map s !! k' = Some l → k = k'.
Proof.
  intros Hr Hk Hk'. destruct (pr_items _ _ _ _ Hr _ _ Hk) as (it & Ha & Hi).
  destruct (pr_items _ _ _ _ Hr _ _ Hk') as (it' & Ha' & Hi').
  rewrite Ha in Ha'. injection Ha' as <-. by rewrite <- (ir_key _ _ _ _ Hi), <- (ir_key _ _ _ _ Hi').
Qed.

(** ** The index steps *)

Lemma enter_tree_partial s h held hidden key :
  partial_repr s h held hidden → tree_map s !! key = None →
  partial_repr (enter_tree s key) h held ({[length (arcs s)]} ∪ hidden).
Proof.
  intros Hr Hn. pose proof Hr as [Hh Hst Hv Hso Hag Hit Hk Hhe].
  assert (latest_of h key = None) as Hl.
  { destruct (latest_of h key) eqn:E; [|done]. apply Hk in E as [? ?]. congruence. }
  assert (∀ k l, tree_map s !! k = Some l → l ≠ length (arcs s)) as Hold.
  { intros k l Hkl. destruct (Hit _ _ Hkl) as (it & Ha & _). apply lookup_lt_Some in Ha. lia. }
  split; unfold enter_tree; simpl; try done.
  - intros p x l. rewrite Hag. destruct (decide (p ++ x = key)) as [<-|Hne].
    + rewrite lookup_insert_eq. split; [naive_solver|]. intros (_ & [= <-] & Hnot). set_solver.
    + rewrite lookup_insert_ne by done. split; intros (? & Hl' & Hnot); split_and!; try done;
        [|set_solver]. apply Hold in Hl'. set_solver.
  - intros k l. destruct (decide (k = key)) as [->|Hne].
    + rewrite lookup_insert_eq. intros [= <-]. eexists.
      split; [by rewrite lookup_app_r, Nat.sub_diag by done|].
      destruct (held !! length (arcs s)) as [[rev v]|] eqn:E; [|by apply null_item_repr].
      destruct (Hhe _ _ _ E) as (k & Hkl & _). by apply Hold in Hkl.
    + rewrite lookup_insert_ne by done. intros Hl'. destruct (Hit _ _ Hl') as (it & Ha & Hi).
      exists it. split; [by apply lookup_app_l_Some|done].
  - intros k v Hv'. destruct (decide (k = key)) as [->|Hne]; [by rewrite lookup_insert_eq|].
    rewrite lookup_insert_ne by done. by eapply Hk.
  - intros l rev v Hl'. destruct (Hhe _ _ _ Hl') as (k & Hkl & Hrest). exists k. split; [|done].
    rewrite lookup_insert_ne; [done|congruence].
Qed.

Lemma index_prefix_partial s h held hidden key l :
  partial_repr s h held hidden → tree_map s !! key = Some l →
  partial_repr (index_prefix s key l) h held (hidden ∖ {[l]}).
Proof.
  intros Hr Hl. pose proof Hr as [Hh Hst Hv Hso Hag Hit Hk Hhe].
  unfold index_prefix. destruct (prefix_split key) as [p x] eqn:Hsp.
  pose proof (prefix_split_eq _ _ _ Hsp) as ->.
  split; simpl; try done.
  - intros q i. unfold prefix_insert. destruct (decide (q = p)) as [->|Hq].
    + rewrite lookup_insert_eq. intros [= <-]. simpl. apply bt_insert_wf.
      destruct (prefix_map s !! p) as [j|] eqn:E; simpl; [by eapply Hso | apply bt_wf_nil].
    + rewrite lookup_insert_ne by done. apply Hso.
  - intros q y l'. rewrite prefix_lookup_insert by done. case_decide as Hd.
    + destruct Hd as [-> ->]. rewrite Hl. set_solver.
    + rewrite Hag. split; intros (Hs & Hl' & Hnot); split_and!; try done; [set_solver|].
      intros Hin. apply Hnot, elem_of_difference. split; [done|]. intros ->%elem_of_singleton.
      pose proof (partial_inj _ _ _ _ _ _ _ Hr Hl Hl') as Heq. rewrite Heq, Hs in Hsp. naive_solver.
Qed.

(** ** The locked steps *)

(** The guard on an item, whatever revision the call read at its start. *)
Lemma guard_latest h c key it new required latest :
  item_repr h c key it →
  set_guard it new required latest = (λ e, (latest, e.2)) <$> guard h key new required.
Proof.
  intros Hi. rewrite <- (item_guard h c key it new required _ Hi eq_refl). unfold set_guard.
  destruct (value (latest_value it)); [by destruct (_ || _)|].
  destruct (_ || _); [done|]. by destruct new.
Qed.

Lemma partial_push s h held hidden key v l :
  partial_repr s h held hidden → Z.of_nat (length h) < i64_max → held !! l = None →
  ∃ d, Deque.push (values_by_revision s) placeholder_value = Ret (Z.of_nat (length h), d) ∧
    start_offset d = first_index s ∧
    ∃ vs, dq_repr d vs ∧ first_index s + Z.of_nat (length vs) = Z.of_nat (length h) + 1 ∧
      ∀ n c, (h ++ [Some (key, v)]) !! n = Some c → first_index s ≤ Z.of_nat n →
        (∀ l' rev w, <[l := (Z.of_nat (length h) + 1, v)]> held !! l' = Some (rev, w) →
           rev ≠ Z.of_nat n + 1) →
        vs !! Z.to_nat (Z.of_nat n - first_index s) = Some (slot c).
Proof.
  intros Hr Hlt Hl. destruct (partial_latest _ _ _ _ Hr) as (Hlat & _ & _).
  destruct (pr_values _ _ _ _ Hr) as (vs & Hd & Hlen & Hvs).
  destruct (dq_push _ _ placeholder_value Hd) as (d & Hpush & Hd' & Hs); [lia|].
  rewrite Hlat in Hpush. exists d. split; [done|]. split; [done|]. exists (vs ++ [placeholder_value]).
  split; [done|]. split; [rewrite length_app; simpl; lia|]. intros n c Hn Hle Hheld.
  assert (n ≠ length h) as Hne.
  { intros ->. apply (Hheld l (Z.of_nat (length h) + 1) v); [apply lookup_insert_eq|lia]. }
  pose proof (lookup_lt_Some _ _ _ Hn) as Hb. rewrite length_app in Hb. simpl in Hb.
  rewrite lookup_app_l in Hn by lia. apply lookup_app_l_Some, Hvs; [done..|].
  intros l' rev w Hl'. apply (Hheld l' rev w). rewrite lookup_insert_ne; [done|congruence].
Qed.

Lemma reserve_partial s h held hidden key l new required latest :
  partial_repr s h held hidden → Z.of_nat (length h) < i64_max →
  tree_map s !! key = Some l → held !! l = None →
  ∃ s', reserve s l new required latest =
      Ret (s', match guard h key new required with
               | Some e => Err (latest, e.2)
               | None => Ok (Z.of_nat (length h) + 1,
                             revised (latest_or_null h key) (Z.of_nat (length h) + 1) new,
                             latest_or_null h key)
               end) ∧
    partial_repr s' (hist_set h key new required).1
      (match guard h key new required with
       | Some _ => held
       | None => <[l := (Z.of_nat (length h) + 1,
                         revised (latest_or_null h key) (Z.of_nat (length h) + 1) new)]> held
       end) hidden ∧
    tree_map s' = tree_map s ∧ notify_tx s' = notify_tx s.
Proof.
  intros Hr Hlt Hk Hl. pose proof Hr as [Hh Hst _ Hso Hag Hit Hkn Hhe].
  destruct (Hit _ _ Hk) as (it & Ha & Hi). rewrite Hl in Hi.
  unfold reserve, get_item, hist_set. rewrite (index_or_panic_ret _ _ _ Ha), bind_ret.
  rewrite (guard_latest h (first_index s) key) by done.
  destruct (guard h key new required) as [e|]; simpl; [by exists s|].
  set (v := revised (latest_or_null h key) (Z.of_nat (length h) + 1) new).
  destruct (partial_push s h held hidden key v l Hr Hlt Hl) as (d & -> & Hs & Hvs).
  rewrite bind_ret. simpl. rewrite (as_i64_id (Z.of_nat (length h))), i64_add_id by width.
  rewrite (ir_latest _ _ _ _ Hi), next_value_revised. fold v. eexists. split; [done|].
  split; [|done]. unfold hist_write. fold v.
  assert (as_i64 (Deque.earliest_revision (values_by_revision s)) = first_index s) as ->.
  { apply as_i64_id. unfold Deque.earliest_revision. unfold first_index in *. width. }
  assert (∀ k l', tree_map s !! k = Some l' → l' = l → k = key) as Hinj
    by (intros k l' Hl' ->; by eapply (partial_inj s)).
  split; simpl; unfold first_index; simpl; rewrite ?Hs; try done.
  - by apply hist_ok_snoc.
  - rewrite length_app. lia.
  - rewrite length_app. destruct Hvs as (vs & ? & ? & ?). exists vs. split; [done|]. split; [simpl; lia|done].
  - intros k l' Hl'. destruct (decide (l' = l)) as [->|Hne].
    + assert (k = key) as -> by (by eapply Hinj). eexists.
      split; [apply list_lookup_insert_eq; by eapply lookup_lt_Some|]. rewrite lookup_insert_eq.
      destruct (ir_revisions _ _ _ _ Hi) as (dropped & Heq & Hold).
      destruct (drain_compacted_spec (revisions it) (first_index s)) as (old & Hdr & Hold');
        [by eapply item_revisions_sorted|].
      unfold stored. split; simpl; [apply Hi|by unfold latest_or_null; rewrite latest_of_snoc_eq|].
      exists (dropped ++ old). split; [|by apply Forall_app].
      unfold revs_of in *. rewrite events_snoc_eq, fmap_app, Heq. simpl.
      rewrite Hdr at 1. by rewrite <- !app_assoc.
    + destruct (Hit _ _ Hl') as (it' & Ha' & Hi'). exists it'.
      rewrite list_lookup_insert_ne, lookup_insert_ne by done. split; [done|].
      apply item_repr_other; [|done]. intros ->. congruence.
  - intros k w Hw. destruct (decide (key = k)) as [<-|Hne]; [by rewrite Hk|].
    rewrite latest_of_snoc_ne in Hw by done. by eapply Hkn.
  - intros l' rev w. destruct (decide (l' = l)) as [->|Hne].
    + rewrite lookup_insert_eq. intros [= <- <-]. exists key. split; [done|]. split; [lia|].
      replace (Z.to_nat (Z.of_nat (length h) + 1 - 1)) with (length h) by lia.
      by rewrite lookup_app_r, Nat.sub_diag by done.
    + rewrite lookup_insert_ne by done. intros Hl'. destruct (Hhe _ _ _ Hl') as (k & ? & ? & ?).
      exists k. split_and!; try done. by apply lookup_app_l_Some.
Qed.

(** Storing a reserved value; when it was compacted meanwhile the slot is gone. *)
Lemma partial_fill s h held hidden k l rev v :
  partial_repr s h held hidden → held !! l = Some (rev, v) →
  1 ≤ rev → h !! Z.to_nat (rev - 1) = Some (Some (k, v)) →
  ∃ b d vs, Deque.set (values_by_revision s) (rev - 1) v = Ret (b, d) ∧
    start_offset d = first_index s ∧ dq_repr d vs ∧
    first_index s + Z.of_nat (length vs) = Z.of_nat (length h) ∧
    ∀ n c, h !! n = Some c → first_index s ≤ Z.of_nat n →
      (∀ l' rev' w, delete l held !! l' = Some (rev', w) → rev' ≠ Z.of_nat n + 1) →
      vs !! Z.to_nat (Z.of_nat n - first_index s) = Some (slot c).
Proof.
  intros Hr Hl Hrev Hent. destruct (partial_latest _ _ _ _ Hr) as (Hlat & _ & Hmax).
  destruct (pr_values _ _ _ _ Hr) as (vs & Hd & Hlen & Hvs). pose proof (lookup_lt_Some _ _ _ Hent) as Hb.
  assert (∀ n, Z.of_nat n ≠ rev - 1 →
    (∀ l' rev' w, delete l held !! l' = Some (rev', w) → rev' ≠ Z.of_nat n + 1) →
    ∀ l' rev' w, held !! l' = Some (rev', w) → rev' ≠ Z.of_nat n + 1) as Hother.
  { intros n Hn Hdel l' rev' w Hl'. destruct (decide (l' = l)) as [->|Hne].
    - rewrite Hl in Hl'. injection Hl' as <- <-. lia.
    - apply (Hdel l' rev' w). by rewrite lookup_delete_ne. }
  destruct (decide (first_index s ≤ rev - 1)) as [Hin|Hout].
  - destruct (dq_set_in _ _ (rev - 1) v Hd) as (d & Hset & Hd' & Hs); [unfold first_index in *; lia|].
    exists true, d, (<[Z.to_nat (rev - 1 - first_index s) := v]> vs). split_and!; try done.
    { by rewrite length_insert. }
    intros n c Hn Hle Hdel. destruct (decide (Z.of_nat n = rev - 1)) as [Heq|Hne].
    + replace (Z.to_nat (rev - 1)) with n in Hent by lia. rewrite Hn in Hent. injection Hent as ->.
      rewrite Heq. simpl. apply list_lookup_insert_eq. lia.
    + rewrite list_lookup_insert_ne by lia. apply Hvs; [done..|]. by apply Hother.
  - exists false, (values_by_revision s), vs. split_and!; try done.
    + apply (dq_set_out _ _ _ _ Hd). left. unfold first_index in *. lia.
    + intros n c Hn Hle Hdel. apply Hvs; [done..|]. apply Hother; [lia|done].
Qed.

Lemma commit_partial s h held hidden l rev v :
  partial_repr s h held hidden → held !! l = Some (rev, v) →
  ∃ s', commit s l rev v = Ret s' ∧ partial_repr s' h (delete l held) hidden ∧
    tree_map s' = tree_map s ∧ notify_tx s' = notify_tx s.
Proof.
  intros Hr Hl. pose proof Hr as [Hh Hst _ Hso Hag Hit Hk Hhe].
  destruct (Hhe _ _ _ Hl) as (k0 & Hk0 & Hrev & Hent). pose proof (lookup_lt_Some _ _ _ Hent) as Hb.
  destruct (Hit _ _ Hk0) as (it & Ha & Hi). rewrite Hl in Hi.
  destruct (partial_latest _ _ _ _ Hr) as (_ & _ & Hmax).
  destruct (partial_fill _ _ _ _ _ _ _ _ Hr Hl Hrev Hent) as (b & d & vs & Hset & Hs & Hvs).
  unfold commit, get_item. rewrite (index_or_panic_ret _ _ _ Ha), bind_ret.
  rewrite as_usize_id, usize_sub_id by width. rewrite Hset, bind_ret. simpl. eexists. split; [done|].
  split; [|done]. split; simpl; unfold first_index; simpl; rewrite ?Hs; try done.
  - by exists vs.
  - intros k l' Hl'. destruct (decide (l' = l)) as [->|Hne].
    + eexists. split; [apply list_lookup_insert_eq; by eapply lookup_lt_Some|].
      rewrite lookup_delete_eq. by assert (k = k0) as -> by (by eapply (partial_inj s)).
    + destruct (Hit _ _ Hl') as (it' & Ha' & Hi'). exists it'.
      by rewrite list_lookup_insert_ne, lookup_delete_ne by done.
  - intros l' rev' w Hl'. apply lookup_delete_Some in Hl' as [_ Hl']. by apply Hhe.
Qed.

Lemma compact_partial s h held hidden rev :
  partial_repr s h held hidden →
  ∃ s' r, compact s rev = Ret (s', r) ∧ partial_repr s' h held hidden ∧
    tree_map s' = tree_map s ∧ notify_tx s' = notify_tx s.
Proof.
  intros Hr. destruct (partial_latest _ _ _ _ Hr) as (Hlat & Hcur & Hmax).
  unfold compact. rewrite Hcur. destruct (_ || _) eqn:E; [by eauto 10|].
  apply orb_false_iff in E as [E1 E2]. pose proof Hr as [Hh Hst (vs & Hd & Hlen & Hvs) Hso Hag Hit Hk Hhe].
  rewrite i64_sub_id, as_usize_id by width.
  destruct (decide (first_index s ≤ rev - 1)) as [Hin|Hout].
  2: { rewrite (dq_remove_before_out _ _ _ Hd) by (unfold first_index in *; lia). rewrite bind_ret. simpl.
       eexists _, _. split; [done|]. split; [|done]. by apply (partial_ext s). }
  destruct (dq_remove_before_in _ _ (rev - 1) Hd) as (d & -> & Hd' & Hs); [unfold first_index in *; lia|].
  rewrite bind_ret. simpl. eexists _, _. split; [done|]. split; [|done].
  split; unfold first_index; simpl; rewrite ?Hs; try done; [lia| |].
  - eexists. split; [exact Hd'|]. rewrite length_drop. unfold first_index in *. split; [lia|].
    intros n c Hn Hle Hheld. rewrite lookup_drop.
    replace (Z.to_nat (rev - 1 - start_offset (values_by_revision s)) + Z.to_nat (Z.of_nat n - (rev - 1)))%nat
      with (Z.to_nat (Z.of_nat n - start_offset (values_by_revision s))) by lia.
    apply Hvs; (done || lia).
  - intros k l Hl. destruct (Hit _ _ Hl) as (it & Ha & Hi). exists it. split; [done|].
    eapply item_repr_mono; [|exact Hi]. unfold first_index in *. lia.
Qed.
End partial.

(** ** Who holds what *)

(** The items the calls hold in some way, each by one call. *)
Definition tracks {X} (f : Pc → option (loc * X)) (ps : list Pc) (m : gmap loc X) : Prop :=
  (∀ l x, m !! l = Some x ↔ ∃ i pc, ps !! i = Some pc ∧ f pc = Some (l, x)) ∧
  (∀ i j p q l x y, ps !! i = Some p → ps !! j = Some q → f p = Some (l, x) → f q = Some (l, y) → i = j).

(** The locks, and the items still to be indexed. *)
Definition locked_by (pc : Pc) : option (loc * (Z * Value)) :=
  match pc with Storing l rev v _ => Some (l, (rev, v)) | _ => None end.
Definition indexed_by (pc : Pc) : option (loc * unit) :=
  match pc with Indexing _ l => Some (l, ()) | _ => None end.

Section tracks.
Context {X : Type} (f : Pc → option (loc * X)).
Implicit Types (ps : list Pc) (m : gmap loc X).

Lemma tracks_none ps : Forall (λ pc, f pc = None) ps → tracks f ps ∅.
Proof.
  rewrite Forall_lookup. intros Hn. split.
  - intros l x. rewrite lookup_empty. split; [done|]. intros (i & pc & Hi%Hn & Hf). congruence.
  - intros i j p q l x y Hi%Hn. congruence.
Qed.

Lemma tracks_same ps m i pc pc' :
  tracks f ps m → ps !! i = Some pc → f pc = None → f pc' = None → tracks f (<[i := pc']> ps) m.
Proof.
  intros [Hm Hu] Hi Hf Hf'. split.
  - intros l x. rewrite Hm. split; intros (j & p & Hj & Hp); exists j, p; (split; [|done]).
    + rewrite list_lookup_insert_ne; [done|]. intros ->. congruence.
    + apply list_lookup_insert_Some in Hj as [(_ & <- & _)|[_ ?]]; [congruence|done].
  - intros j k p q l x y Hj Hk Hp Hq.
    apply list_lookup_insert_Some in Hj as [(_ & <- & _)|[_ Hj]]; [congruence|].
    apply list_lookup_insert_Some in Hk as [(_ & <- & _)|[_ Hk]]; [congruence|].
    by eapply Hu.
Qed.

Lemma tracks_add ps m i pc pc' l x :
  tracks f ps m → ps !! i = Some pc → f pc = None → f pc' = Some (l, x) → m !! l = None →
  tracks f (<[i := pc']> ps) (<[l := x]> m).
Proof.
  intros [Hm Hu] Hi Hf Hf' Hl.
  assert (∀ j q y, ps !! j = Some q → f q ≠ Some (l, y)) as Hfree.
  { intros j q y Hj Hq. assert (m !! l = Some y) as Hy by (apply Hm; eauto). congruence. }
  pose proof (lookup_lt_Some _ _ _ Hi) as Hlt. split.
  - intros l' y. split.
    + intros [[<- <-]|[Hne Hy]]%lookup_insert_Some.
      * exists i, pc'. by rewrite list_lookup_insert_eq.
      * apply Hm in Hy as (j & q & Hj & Hq). exists j, q. split; [|done].
        rewrite list_lookup_insert_ne; [done|]. intros ->. congruence.
    + intros (j & q & [(<- & <- & _)|[Hne Hj]]%list_lookup_insert_Some & Hq).
      * rewrite Hf' in Hq. injection Hq as <- <-. apply lookup_insert_eq.
      * rewrite lookup_insert_ne; [apply Hm; eauto|]. intros <-. by eapply Hfree.
  - intros j k p q l' y z Hj Hk Hp Hq.
    apply list_lookup_insert_Some in Hj as [(<- & <- & _)|[_ Hj]];
      apply list_lookup_insert_Some in Hk as [(<- & <- & _)|[_ Hk]]; [done|..].
    + rewrite Hf' in Hp. injection Hp as <- <-. by eapply Hfree in Hk.
    + rewrite Hf' in Hq. injection Hq as <- <-. by eapply Hfree in Hj.
    + by eapply Hu.
Qed.

Lemma tracks_remove ps m i pc pc' l x :
  tracks f ps m → ps !! i = Some pc → f pc = Some (l, x) → f pc' = None →
  tracks f (<[i := pc']> ps) (delete l m).
Proof.
  intros [Hm Hu] Hi Hf Hf'. split.
  - intros l' y. rewrite lookup_delete_Some. split.
    + intros [Hne Hy]. apply Hm in Hy as (j & q & Hj & Hq). exists j, q. split; [|done].
      rewrite list_lookup_insert_ne; [done|]. intros ->. rewrite Hi in Hj. injection Hj as <-.
      rewrite Hf in Hq. by injection Hq as <- _.
    + intros (j & q & [(_ & <- & _)|[Hne Hj]]%list_lookup_insert_Some & Hq); [congruence|].
      split; [|apply Hm; eauto]. intros <-. apply Hne. by eapply Hu.
  - intros j k p q l' y z Hj Hk Hp Hq.
    apply list_lookup_insert_Some in Hj as [(_ & <- & _)|[_ Hj]]; [congruence|].
    apply list_lookup_insert_Some in Hk as [(_ & <- & _)|[_ Hk]]; [congruence|].
    by eapply Hu.
Qed.
End tracks.

(** A free lock is one no call tracks. *)
Lemma unlocked_held w held l : tracks locked_by (pcs w) held → unlocked w l ↔ held !! l = None.
Proof.
  intros [Hm _]. split.
  - intros Hu. destruct (held !! l) as [[rev v]|] eqn:E; [|done].
    apply Hm in E as (i & pc & Hi & Hf). destruct pc; try done. injection Hf as -> -> ->. by eapply Hu in Hi.
  - intros Hl i rev v old Hi. assert (held !! l = Some (rev, v)); [|congruence].
    apply Hm. by exists i, (Storing l rev v old).
Qed.

(** ** Announcements still to come *)

Definition pending (cp : Call * Pc) : list (Z * KeyValue) :=
  match cp.2 with
  | Storing _ rev v _ | Notifying rev v _ => [(rev, as_mvcc_key_value v (c_key cp.1))]
  | _ => []
  end.

Definition all_pending (calls : list Call) (ps : list Pc) : list (Z * KeyValue) := zip calls ps ≫= pending.

Lemma bind_insert_perm {A B} (f : A → list B) l i x y :
  l !! i = Some x → f x ++ (<[i := y]> l ≫= f) ≡ₚ f y ++ (l ≫= f).
Proof.
  intros Hi. rewrite (insert_take_drop l i y) by (by eapply lookup_lt_Some).
  rewrite <- (take_drop_middle l i x Hi) at 3. rewrite !bind_app. simpl.
  rewrite !(Permutation_app_comm (take i l ≫= f)), !app_assoc.
  f_equiv. rewrite <- !app_assoc. rewrite (Permutation_app_swap_app (f x)). done.
Qed.

Lemma pending_move calls ps i c pc pc' :
  calls !! i = Some c → ps !! i = Some pc →
  pending (c, pc) ++ all_pending calls (<[i := pc']> ps) ≡ₚ pending (c, pc') ++ all_pending calls ps.
Proof.
  intros Hc Hi. unfold all_pending. rewrite <- (list_insert_id calls i c) at 1 by done.
  rewrite <- (insert_zip_with pair). apply bind_insert_perm. by rewrite lookup_zip_with, Hc, Hi.
Qed.

(** ** Steps left *)

(** The steps a call has ahead of it, at most. *)
Definition weight (pc : Pc) : nat :=
  match pc with
  | Starting => 6 | Entering _ => 5 | Indexing _ _ => 4 | Locking _ _ _ => 3
  | Storing _ _ _ _ => 2 | Notifying _ _ _ => 1 | Finished _ => 0
  end.

Definition steps_left (w : Writers) : nat := sum_list_with weight (pcs w).

Lemma steps_left_insert ps i pc pc' :
  ps !! i = Some pc → (weight pc' < weight pc)%nat →
  (sum_list_with weight (<[i := pc']> ps) < sum_list_with weight ps)%nat.
Proof.
  intros Hi Hw. rewrite (insert_take_drop ps i pc') by (by eapply lookup_lt_Some).
  rewrite <- (take_drop_middle ps i pc Hi) at 3. rewrite !sum_list_with_app. simpl. lia.
Qed.

(** ** The invariant *)

Section invariant.
Context `{!BlockSize} (calls : list Call) (s0 : Store) (h0 : history).

(** The call was decided, and answers what it would answer alone at its place. *)
Definition decided (ord : list nat) (i : nat) (r : Result Z SetError) : Prop :=
  ∃ n a, ord !! n = Some i ∧ answer_alone calls h0 ord n = Some a ∧ same_answer r a.

Definition pc_ok (w : Writers) (i : nat) (c : Call) (pc : Pc) : Prop :=
  match pc with
  | Starting => i ∉ order w
  | Entering latest => i ∉ order w ∧ latest ≤ Z.of_nat (length (after_calls calls h0 (order w)))
  | Indexing latest l | Locking latest l _ =>
      i ∉ order w ∧ latest ≤ Z.of_nat (length (after_calls calls h0 (order w))) ∧
      tree_map (st w) !! c_key c = Some l
  | Storing l rev _ _ => decided (order w) i (Ok rev) ∧ tree_map (st w) !! c_key c = Some l
  | Notifying rev _ _ => decided (order w) i (Ok rev)
  | Finished r => decided (order w) i r
  end.

Record cinv (w : Writers) : Prop := {
  ci_repr : ∃ held hidden, partial_repr (st w) (after_calls calls h0 (order w)) held (dom (hidden : gmap loc unit)) ∧
    tracks locked_by (pcs w) held ∧ tracks indexed_by (pcs w) hidden;
  ci_length : length (pcs w) = length calls;
  ci_pcs : ∀ i c pc, calls !! i = Some c → pcs w !! i = Some pc → pc_ok w i c pc;
  ci_nodup : NoDup (order w);
  ci_order : ∀ i, i ∈ order w → (i < length calls)%nat;
  ci_jobs : ∃ js, notify_tx (st w) = notify_tx s0 ++ js ∧
    (announcement <$> js) ++ all_pending calls (pcs w)
      ≡ₚ history_announced (drop (length h0) (after_calls calls h0 (order w)));
}.

Lemma after_calls_snoc ord i :
  after_calls calls h0 (ord ++ [i]) = after_call calls (after_calls calls h0 ord) i.
Proof. unfold after_calls. by rewrite foldl_app. Qed.

Lemma after_call_length h i :
  (length h ≤ length (after_call calls h i) ≤ S (length h))%nat.
Proof.
  unfold after_call, hist_set, hist_write. destruct (calls !! i) as [c|]; [|lia].
  destruct (guard _ _ _ _); simpl; rewrite ?length_app; simpl; lia.
Qed.

Lemma after_calls_length ord :
  (length h0 ≤ length (after_calls calls h0 ord) ≤ length h0 + length ord)%nat.
Proof.
  induction ord as [|i ord IH] using rev_ind; simpl; [unfold after_calls; simpl; lia|].
  rewrite after_calls_snoc, length_app. simpl.
  pose proof (after_call_length (after_calls calls h0 ord) i). lia.
Qed.

Lemma decided_snoc ord i j r : decided ord i r → decided (ord ++ [j]) i r.
Proof.
  intros (n & a & Hn & Ha & Hs). exists n, a. pose proof (lookup_lt_Some _ _ _ Hn).
  split; [by apply lookup_app_l_Some|]. split; [|done].
  unfold answer_alone in *. by rewrite lookup_app_l, take_app_le by lia.
Qed.

Lemma decided_last ord i c r :
  calls !! i = Some c →
  same_answer r (hist_set (after_calls calls h0 ord) (c_key c) (c_new c) (c_required c)).2 →
  decided (ord ++ [i]) i r.
Proof.
  intros Hc Hs. exists (length ord). eexists.
  assert ((ord ++ [i]) !! length ord = Some i) as Hl by (by rewrite lookup_app_r, Nat.sub_diag).
  split; [exact Hl|]. unfold answer_alone. rewrite Hl. simpl. rewrite Hc. simpl.
  split; [done|]. by rewrite take_app_length.
Qed.

(** What another call does leaves a call's facts alone. *)
Lemma pc_ok_other w w' i j c pc :
  pc_ok w i c pc → i ≠ j →
  (∀ k l, tree_map (st w) !! k = Some l → tree_map (st w') !! k = Some l) →
  order w' = order w ∨ order w' = order w ++ [j] →
  pc_ok w' i c pc.
Proof.
  intros Hok Hne Htm Hord.
  assert (∀ r, decided (order w) i r → decided (order w') i r) as Hd.
  { intros r Hr. destruct Hord as [->| ->]; [done|by apply decided_snoc]. }
  assert (i ∉ order w → i ∉ order w') as Hn by (destruct Hord as [->| ->]; set_solver).
  assert (length (after_calls calls h0 (order w)) ≤ length (after_calls calls h0 (order w')))%nat as Hl.
  { destruct Hord as [->| ->]; [done|]. rewrite after_calls_snoc. apply after_call_length. }
  destruct pc; simpl in *; try naive_solver lia.
Qed.

(** One call moves on: what has to be shown of the step. *)
Lemma cinv_step w s' i c pc pc' ord' held hidden :
  cinv w → calls !! i = Some c → pcs w !! i = Some pc →
  ord' = order w ∨ (i ∉ order w ∧ ord' = order w ++ [i]) →
  partial_repr s' (after_calls calls h0 ord') held (dom (hidden : gmap loc unit)) →
  tracks locked_by (<[i := pc']> (pcs w)) held → tracks indexed_by (<[i := pc']> (pcs w)) hidden →
  (∀ k l, tree_map (st w) !! k = Some l → tree_map s' !! k = Some l) →
  pc_ok (mkWriters s' (<[i := pc']> (pcs w)) ord') i c pc' →
  (∃ js, notify_tx s' = notify_tx (st w) ++ js ∧
    history_announced (drop (length h0) (after_calls calls h0 ord')) ++ pending (c, pc)
    ≡ₚ history_announced (drop (length h0) (after_calls calls h0 (order w)))
       ++ (announcement <$> js) ++ pending (c, pc')) →
  cinv (mkWriters s' (<[i := pc']> (pcs w)) ord').
Proof.
  intros [_ Hlen Hpcs Hnd Hord (js0 & Hj0 & Hperm)] Hc Hi Ho Hr Hlk Hix Htm Hok (js & Hjs & Hann).
  split; simpl.
  - by exists held, hidden.
  - by rewrite length_insert.
  - intros j c' q Hc' [(<- & <- & _)|[Hne Hj]]%list_lookup_insert_Some.
    + by assert (c' = c) as -> by congruence.
    + apply (pc_ok_other w _ j i); [by apply Hpcs|done|done|]. simpl. naive_solver.
  - destruct Ho as [->|[Hn ->]]; [done|]. apply NoDup_app. split_and!; [done|set_solver|apply NoDup_singleton].
  - intros j Hj. destruct Ho as [->|[Hn ->]]; [by apply Hord|].
    apply elem_of_app in Hj as [?| ->%list_elem_of_singleton]; [by apply Hord|by eapply lookup_lt_Some].
  - exists (js0 ++ js). rewrite Hjs, Hj0, app_assoc. split; [done|]. rewrite fmap_app.
    apply (Permutation_app_inv_l (pending (c, pc))).
    rewrite (Permutation_app_comm _ (all_pending _ _)), (app_assoc (pending _)), (pending_move calls _ i c pc pc') by done.
    rewrite (Permutation_app_comm (pending (c, pc)) (history_announced _)), Hann, <- Hperm.
    rewrite <- !app_assoc. rewrite (Permutation_app_comm (announcement <$> js)).
    solve_Permutation.
Qed.

Lemma order_room w i : cinv w → (i < length calls)%nat → i ∉ order w → (length (order w) < length calls)%nat.
Proof.
  intros Hc Hi Hn. assert (i :: order w ⊆+ seq 0 (length calls)) as Hsub.
  { apply NoDup_submseteq; [constructor; [done|apply Hc]|]. intros j [->|Hj]%elem_of_cons.
    - apply elem_of_seq. lia.
    - apply elem_of_seq. pose proof (ci_order _ Hc j Hj). lia. }
  apply submseteq_length in Hsub. rewrite length_seq in Hsub. simpl in Hsub. lia.
Qed.

(** Steps that neither decide a call nor announce anything. *)
Lemma cinv_quiet w s' i c pc pc' held hidden :
  cinv w → calls !! i = Some c → pcs w !! i = Some pc →
  partial_repr s' (after_calls calls h0 (order w)) held (dom (hidden : gmap loc unit)) →
  tracks locked_by (<[i := pc']> (pcs w)) held → tracks indexed_by (<[i := pc']> (pcs w)) hidden →
  (∀ k l, tree_map (st w) !! k = Some l → tree_map s' !! k = Some l) →
  pc_ok (mkWriters s' (<[i := pc']> (pcs w)) (order w)) i c pc' →
  notify_tx s' = notify_tx (st w) → pending (c, pc) = pending (c, pc') →
  cinv (move w s' i pc').
Proof.
  intros Hinv Hc Hi Hr Hlk Hix Htm Hok Hj Hp. eapply cinv_step; try done; [by left|].
  exists []. rewrite app_nil_r. split; [done|]. simpl. by rewrite Hp.
Qed.

Lemma cinv_compacted w rev s r :
  cinv w → compact (st w) rev = Ret (s, r) → cinv (mkWriters s (pcs w) (order w)).
Proof.
  intros [(held & hidden & Hr & Hlk & Hix) Hlen Hpcs Hnd Hord Hj] Hcomp.
  destruct (compact_partial _ _ _ _ rev Hr) as (s' & r' & Hcomp' & Hr' & Htm & Hn).
  rewrite Hcomp in Hcomp'. injection Hcomp' as <- <-. split; simpl; try done.
  - by exists held, hidden.
  - intros i c pc Hc Hi. pose proof (Hpcs _ _ _ Hc Hi) as Hok. destruct pc; simpl in *; by rewrite ?Htm.
  - by rewrite Hn.
Qed.

Lemma call_of w i pc : cinv w → pcs w !! i = Some pc → ∃ c, calls !! i = Some c.
Proof.
  intros Hc Hi. apply lookup_lt_is_Some. rewrite <- (ci_length _ Hc). by eapply lookup_lt_Some.
Qed.

Hypothesis Hroom : Z.of_nat (length h0) + Z.of_nat (length calls) ≤ i64_max.

(** A call that is not decided yet finds room for a revision. *)
Lemma revision_room w i : cinv w → (i < length calls)%nat → i ∉ order w →
  Z.of_nat (length (after_calls calls h0 (order w))) < i64_max.
Proof.
  intros Hc Hi Hn. pose proof (order_room w i Hc Hi Hn). pose proof (after_calls_length (order w)). lia.
Qed.

(** What the locked step of a call does, from the invariant. *)
Lemma reserve_call w i c latest l n :
  cinv w → calls !! i = Some c → pcs w !! i = Some (Locking latest l n) → unlocked w l →
  let h := after_calls calls h0 (order w) in
  ∃ s', reserve (st w) l (c_new c) (c_required c) latest =
      Ret (s', match guard h (c_key c) (c_new c) (c_required c) with
               | Some e => Err (latest, e.2)
               | None => Ok (Z.of_nat (length h) + 1,
                             revised (latest_or_null h (c_key c)) (Z.of_nat (length h) + 1) (c_new c),
                             latest_or_null h (c_key c))
               end) ∧
    ∀ pc', (match guard h (c_key c) (c_new c) (c_required c) with
            | Some e => pc' = Finished (Err (latest, e.2))
            | None => ∃ old, pc' = Storing l (Z.of_nat (length h) + 1)
                (revised (latest_or_null h (c_key c)) (Z.of_nat (length h) + 1) (c_new c)) old
            end) → cinv (decide_call w s' i pc').
Proof.
  intros Hinv Hc Hi Hun h. pose proof Hinv as [(held & hidden & Hr & Hlk & Hix) _ Hpcs _ _ _].
  destruct (Hpcs _ _ _ Hc Hi) as (Hn & Hlat & Hl). fold h in Hr, Hlat.
  pose proof (revision_room w i Hinv (lookup_lt_Some _ _ _ Hc) Hn) as Hlt. fold h in Hlt.
  pose proof (proj1 (unlocked_held w held l Hlk) Hun) as Hfree.
  destruct (reserve_partial (st w) h held _ (c_key c) l (c_new c) (c_required c) latest Hr Hlt Hl Hfree)
    as (s' & Hres & Hr' & Htm & Hj).
  exists s'. split; [done|]. intros pc' Hpc'.
  assert (after_calls calls h0 (order w ++ [i]) = (hist_set h (c_key c) (c_new c) (c_required c)).1) as Hh'.
  { rewrite after_calls_snoc. unfold after_call. by rewrite Hc. }
  pose proof (decided_last (order w) i c) as Hdec. fold h in Hdec.
  pose proof (after_calls_length (order w)) as Hlen. fold h in Hlen.
  unfold hist_set in *. destruct (guard h (c_key c) (c_new c) (c_required c)) as [e|] eqn:Eg; simpl in *.
  - subst pc'. eapply cinv_step; try done; [by right|by rewrite Hh'|by eapply tracks_same..|by rewrite Htm| |].
    + apply Hdec; [done|]. simpl. destruct e as [latest' kv].
      unfold guard in Eg. simpl in Eg. destruct (_ && _); [done|]. by injection Eg as <- _.
    + exists []. rewrite app_nil_r, Hh'. done.
  - destruct Hpc' as [old ->]. eapply cinv_step; try done; [by right|by rewrite Hh'|..].
    + by eapply tracks_add.
    + by eapply tracks_same.
    + by rewrite Htm.
    + simpl. rewrite Htm. split; [by apply Hdec|done].
    + exists []. rewrite app_nil_r. split; [done|]. rewrite Hh'. fold h. unfold hist_write.
      rewrite drop_app_le by lia. unfold history_announced. rewrite omap_app. simpl. by rewrite app_nil_r.
Qed.

(** The value is stored, or the call announces its change. *)
Lemma cinv_stored w i l rev v old s :
  cinv w → pcs w !! i = Some (Storing l rev v old) → commit (st w) l rev v = Ret s →
  cinv (move w s i (Notifying rev v old)).
Proof.
  intros Hinv Hi Hcom. destruct (call_of w i _ Hinv Hi) as [c Hc].
  pose proof Hinv as [(held & hidden & Hr & Hlk & Hix) _ Hpcs _ _ _].
  assert (held !! l = Some (rev, v)) as Hl by (apply Hlk; by exists i, (Storing l rev v old)).
  destruct (commit_partial _ _ _ _ _ _ _ Hr Hl) as (s' & Hcom' & Hr' & Htm & Hj).
  rewrite Hcom in Hcom'. injection Hcom' as <-. destruct (Hpcs _ _ _ Hc Hi) as [Hdec _].
  eapply cinv_quiet; try done; [by eapply tracks_remove|by eapply tracks_same|by rewrite Htm].
Qed.

Lemma cinv_notified w i c rev v old s :
  cinv w → calls !! i = Some c → pcs w !! i = Some (Notifying rev v old) →
  mod_revision v = rev →
  notify_watchers (st w) (c_key c) v old (prefix_split (c_key c)).1 = Ret s →
  cinv (move w s i (Finished (Ok rev))).
Proof.
  intros Hinv Hc Hi Hv Hn. pose proof Hinv as [(held & hidden & Hr & Hlk & Hix) _ Hpcs _ _ _].
  assert (prefix_map s = prefix_map (st w) ∧ tree_map s = tree_map (st w) ∧ arcs s = arcs (st w) ∧
    values_by_revision s = values_by_revision (st w) ∧
    ∃ job, notify_tx s = notify_tx (st w) ++ [job] ∧
      announcement job = (rev, as_mvcc_key_value v (c_key c))) as (Hp & Ht & Ha & Hvs & job & Hj & Hjob).
  { unfold notify_watchers in Hn. apply bind_ret_inv in Hn as (chs & _ & [= <-]). simpl.
    repeat (split; [done|]). eexists. split; [done|]. unfold announcement. simpl. by rewrite Hv. }
  eapply cinv_step; try done; [by left|by eapply partial_ext|by eapply tracks_same..|by rewrite Ht| |].
  - apply (Hpcs _ _ _ Hc Hi).
  - exists [job]. split; [done|]. simpl. by rewrite Hjob.
Qed.

(** The value of a call in its last steps carries its revision. *)
Definition vinv (w : Writers) : Prop :=
  ∀ i pc, pcs w !! i = Some pc →
    match pc with Storing _ rev v _ | Notifying rev v _ => mod_revision v = rev | _ => True end.

Lemma vinv_insert w s ord i pc' :
  vinv w → match pc' with Storing _ rev v _ | Notifying rev v _ => mod_revision v = rev | _ => True end →
  vinv (mkWriters s (<[i := pc']> (pcs w)) ord).
Proof. intros Hv Hpc j q [(<- & <- & _)|[_ Hj]]%list_lookup_insert_Some; [done|]. by apply Hv in Hj. Qed.

Lemma cinv_cstep w w' : cstep calls w w' → cinv w ∧ vinv w → cinv w' ∧ vinv w'.
Proof.
  intros Hstep [Hinv Hv]. pose proof Hinv as [(held & hidden & Hr & Hlk & Hix) _ Hpcs _ _ _].
  destruct Hstep as [i Hi|i c latest l Hc Hi Hl|i c latest Hc Hi Hl|i c latest l Hc Hi|
    i c latest l n s e Hc Hi Hun Hres|i c latest l n s rev v old Hc Hi Hun Hres|
    i l rev v old s Hi Hcom|i c rev v old s Hc Hi Hn|rev s r Hcomp].
  - destruct (call_of w i _ Hinv Hi) as [c Hc]. split; [|by apply vinv_insert].
    eapply cinv_quiet; try done; [by eapply tracks_same..|].
    destruct (partial_latest _ _ _ _ Hr) as (_ & Hcur & _). simpl. rewrite Hcur.
    split; [apply (Hpcs _ _ _ Hc Hi)|done].
  - split; [|by apply vinv_insert]. destruct (Hpcs _ _ _ Hc Hi).
    eapply cinv_quiet; try done; by eapply tracks_same.
  - split; [|by apply vinv_insert]. destruct (Hpcs _ _ _ Hc Hi).
    pose proof (enter_tree_partial _ _ _ _ _ Hr Hl) as Hr'. rewrite <- dom_insert_L with (x := ()) in Hr'.
    eapply cinv_quiet; try done.
    + by eapply tracks_same.
    + eapply tracks_add; try done. destruct (hidden !! length (arcs (st w))) as [[]|] eqn:E; [|done].
      apply Hix in E as (j & pc & Hj & Hf). destruct pc as [| |latest' l'| | | |]; try done. injection Hf as ->.
      destruct (call_of w j _ Hinv Hj) as [c' Hc']. destruct (Hpcs _ _ _ Hc' Hj) as (_ & _ & Htm).
      destruct (pr_items _ _ _ _ Hr _ _ Htm) as (it & Ha & _). apply lookup_lt_Some in Ha. lia.
    + intros k l Hk. simpl. rewrite lookup_insert_ne; [done|congruence].
    + simpl. by rewrite lookup_insert_eq.
  - split; [|by apply vinv_insert]. destruct (Hpcs _ _ _ Hc Hi) as (Hn & Hlat & Htm).
    pose proof (index_prefix_partial _ _ _ _ _ _ Hr Htm) as Hr'. rewrite <- dom_delete_L in Hr'.
    assert (tree_map (index_prefix (st w) (c_key c) l) = tree_map (st w)) as Ht
      by (unfold index_prefix; by destruct (prefix_split _)).
    eapply cinv_quiet; try done; [by eapply tracks_same|by eapply tracks_remove|by rewrite Ht| |].
    + simpl. by rewrite Ht.
    + unfold index_prefix; by destruct (prefix_split _).
  - destruct (reserve_call w i c latest l n Hinv Hc Hi Hun) as (s' & Hres' & Hok).
    rewrite Hres in Hres'. destruct (guard _ _ _ _) as [e'|]; [|done]. injection Hres' as <- ->.
    split; [by apply Hok|by apply vinv_insert].
  - destruct (reserve_call w i c latest l n Hinv Hc Hi Hun) as (s' & Hres' & Hok).
    rewrite Hres in Hres'. destruct (guard _ _ _ _) as [e'|]; [done|]. injection Hres' as <- -> -> ->.
    split; [apply Hok; by eexists|by apply vinv_insert].
  - split; [by eapply cinv_stored|]. apply vinv_insert; [done|]. apply (Hv _ _ Hi).
  - split; [|by apply vinv_insert]. eapply cinv_notified; try done. apply (Hv _ _ Hi).
  - split; [by eapply cinv_compacted|done].
Qed.

Lemma cinv_start : store_repr s0 h0 → cinv (start s0 calls) ∧ vinv (start s0 calls).
Proof.
  intros Hr. split.
  - split; simpl.
    + exists ∅, ∅. rewrite dom_empty_L. split; [by apply partial_of_repr|].
      split; apply tracks_none, Forall_replicate; done.
    + apply length_replicate.
    + intros i c pc Hc [-> _]%lookup_replicate. simpl. apply not_elem_of_nil.
    + constructor.
    + intros i ?%elem_of_nil. done.
    + exists []. rewrite app_nil_r. split; [done|]. unfold all_pending, after_calls. simpl.
      rewrite drop_all. simpl. clear Hr Hroom. induction calls as [|c cs IH]; simpl; [done|exact IH].
  - intros i pc [-> _]%lookup_replicate. done.
Qed.

Lemma cinv_reachable w : store_repr s0 h0 → rtc (cstep calls) (start s0 calls) w → cinv w ∧ vinv w.
Proof.
  intros Hr. apply (rtc_ind_r (λ w, cinv w ∧ vinv w)); [by apply cinv_start|].
  intros x y _ Hxy. by apply cinv_cstep.
Qed.

(** ** The end of a run *)

Lemma finished_tracks {X} (f : Pc → option (loc * X)) ps m :
  (∀ r, f (Finished r) = None) → Forall is_finished ps → tracks f ps m → m = ∅.
Proof.
  intros Hf Hfin [Hm _]. apply map_eq. intros l. rewrite lookup_empty.
  destruct (m !! l) as [x|] eqn:E; [|done]. apply Hm in E as (i & pc & Hi & Hpc).
  rewrite Forall_lookup in Hfin. specialize (Hfin i pc Hi). destruct pc; try done. by rewrite Hf in Hpc.
Qed.

Lemma finished_pending cs ps : Forall is_finished ps → all_pending cs ps = [].
Proof.
  intros Hfin. unfold all_pending. revert cs. induction Hfin as [|pc ps Hpc _ IH]; intros [|c cs]; simpl; try done.
  rewrite IH. by destruct pc.
Qed.

Lemma finished_order w : cinv w → Forall is_finished (pcs w) → order w ≡ₚ seq 0 (length calls).
Proof.
  intros Hinv Hfin. apply NoDup_Permutation; [apply Hinv|apply NoDup_seq|]. intros i. rewrite elem_of_seq.
  split; [intros Hi%(ci_order _ Hinv); lia|]. intros [_ Hi].
  destruct (lookup_lt_is_Some_2 calls i) as [c Hc]; [lia|].
  destruct (lookup_lt_is_Some_2 (pcs w) i) as [pc Hpc]; [rewrite (ci_length _ Hinv); lia|].
  pose proof (ci_pcs _ Hinv _ _ _ Hc Hpc) as Hok. rewrite Forall_lookup in Hfin.
  specialize (Hfin _ _ Hpc). destruct pc; try done. destruct Hok as (n & _ & Hn & _).
  by eapply list_elem_of_lookup_2.
Qed.

(** Decisions are never taken back. *)
Lemma order_grows w w' : rtc (cstep calls) w w' → order w `prefix_of` order w'.
Proof.
  induction 1 as [|w1 w2 w3 Hstep _ IH]; [done|]. etrans; [|exact IH].
  destruct Hstep; simpl; (done || by apply prefix_app_r).
Qed.

(** A call that had answered before another began was decided before it. *)
Lemma order_real_time w1 w i j r :
  cinv w1 → rtc (cstep calls) w1 w → j ∈ order w →
  pcs w1 !! i = Some (Finished r) → pcs w1 !! j = Some Starting →
  ∃ m n, order w !! m = Some i ∧ order w !! n = Some j ∧ (m < n)%nat.
Proof.
  intros Hinv Hsteps [n Hn]%list_elem_of_lookup Hi Hj.
  destruct (call_of w1 i _ Hinv Hi) as [ci Hci]. destruct (call_of w1 j _ Hinv Hj) as [cj Hcj].
  destruct (ci_pcs _ Hinv _ _ _ Hci Hi) as (m & _ & Hm & _).
  pose proof (ci_pcs _ Hinv _ _ _ Hcj Hj) as Hnot. simpl in Hnot.
  destruct (order_grows _ _ Hsteps) as [rest Ho]. rewrite Ho in *.
  exists m, n. split; [by apply lookup_app_l_Some|]. split; [done|].
  destruct (decide (n < length (order w1))%nat) as [Hlt|Hge].
  - rewrite lookup_app_l in Hn by done. by apply list_elem_of_lookup_2 in Hn.
  - apply lookup_lt_Some in Hm. lia.
Qed.

Lemma after_calls_announced ord :
  (history_announced (drop (length h0) (after_calls calls h0 ord))).*1
  = seqZ (Z.of_nat (length h0) + 1) (Z.of_nat (length (after_calls calls h0 ord)) - Z.of_nat (length h0)).
Proof.
  induction ord as [|i ord IH] using rev_ind.
  { unfold after_calls. simpl. by rewrite drop_all, Z.sub_diag. }
  pose proof (after_calls_length ord) as Hl. rewrite after_calls_snoc. unfold after_call.
  destruct (calls !! i) as [c|]; [|done]. unfold hist_set. destruct (guard _ _ _ _); simpl; [done|].
  unfold hist_write, history_announced in *. rewrite drop_app_le, omap_app, fmap_app, IH, length_app by lia.
  simpl. set (n := length (after_calls calls h0 ord)) in *.
  replace (Z.of_nat (n + 1) - Z.of_nat (length h0)) with ((Z.of_nat n - Z.of_nat (length h0)) + 1) by lia.
  rewrite seqZ_app by lia. f_equal. rewrite seqZ_cons by lia. simpl. by f_equal; lia.
Qed.

(** ** Progress *)

(** With no lock held, a call that is not finished can go on. *)
Lemma unlocked_step w i pc :
  cinv w → (∀ l, unlocked w l) → pcs w !! i = Some pc → ¬ is_finished pc →
  ∃ s pc' ord, cstep calls w (mkWriters s (<[i := pc']> (pcs w)) ord) ∧ (weight pc' < weight pc)%nat.
Proof.
  intros Hinv Hun Hi Hnf. destruct (call_of w i _ Hinv Hi) as [c Hc].
  destruct pc as [|latest|latest l|latest l n|l rev v old|rev v old|r]; simpl.
  - eexists _, _, _. split; [by apply step_start|simpl; lia].
  - destruct (tree_map (st w) !! c_key c) as [l|] eqn:Hl; eexists _, _, _.
    + split; [by eapply step_occupied|simpl; lia].
    + split; [by eapply step_vacant|simpl; lia].
  - eexists _, _, _. split; [by eapply step_index|simpl; lia].
  - destruct (reserve_call w i c latest l n Hinv Hc Hi (Hun l)) as (s & Hres & _).
    destruct (guard _ _ _ _) as [e|]; eexists _, _, _.
    + split; [by eapply step_refused|simpl; lia].
    + split; [by eapply step_reserved|simpl; lia].
  - by destruct (Hun l i rev v old).
  - destruct (notify_watchers_spec (st w) (c_key c) v old (prefix_split (c_key c)).1) as (s & job & Hn & _).
    eexists _, _, _. split; [by eapply step_notified|simpl; lia].
  - by destruct Hnf.
Qed.

Lemma some_step w :
  cinv w → ¬ Forall is_finished (pcs w) →
  ∃ w', cstep calls w w' ∧ (steps_left w' < steps_left w)%nat.
Proof.
  intros Hinv Hnf. pose proof Hinv as [(held & hidden & Hr & Hlk & _) _ _ _ _ _].
  destruct (map_choose_or_empty held) as [(l & [rev v] & Hl)| ->].
  - destruct (commit_partial _ _ _ _ _ _ _ Hr Hl) as (s & Hcom & _).
    apply Hlk in Hl as (i & pc & Hi & Hf). destruct pc as [| | | |l' rev' v' old| |]; try done.
    injection Hf as -> -> ->. eexists. split; [by eapply step_stored|].
    apply (steps_left_insert _ _ _ _ Hi). simpl. lia.
  - apply not_Forall_Exists, Exists_exists in Hnf as (pc & Hin & Hnf); [|apply _].
    apply list_elem_of_lookup_1 in Hin as [i Hi].
    destruct (unlocked_step w i pc) as (s & pc' & ord & Hstep & Hw); [done| |done|done|].
    { intros l. by apply (unlocked_held w ∅). }
    eexists. split; [exact Hstep|]. by apply (steps_left_insert _ _ _ _ Hi).
Qed.
End invariant.

(** ** Properties *)




(** ** A concrete run *)

(** Two clients create the same key, a third changes another one. *)
Definition sample_calls : list Call :=
  [mkCall (bytes "/registry/pods/x") (Some (bytes "1"))
     (Some {| required_last_revision := Some 0; required_version := None; compare_result := 0 |});
   mkCall (bytes "/registry/pods/x") (Some (bytes "2"))
     (Some {| required_last_revision := Some 0; required_version := None; compare_result := 0 |});
   mkCall (bytes "/registry/pods/a") (Some (bytes "3")) None].

Definition run_schedule (s : Store) (schedule : list nat) : Writers :=
  default (start s sample_calls) (exec (H:=block_size_2) sample_calls (start s sample_calls) schedule).

(** The second client overtakes the first, and the third notifies before the second. *)
Definition sample_schedule : list nat := [0; 1; 2; 0; 1; 1; 2; 2; 1; 2; 2; 1; 0; 0]%nat.

Definition sample_end : Writers := run_schedule watch_store sample_schedule.

Lemma sample_end_run :
  rtc (cstep (H:=block_size_2) sample_calls) (start watch_store sample_calls) sample_end.
Proof.
  destruct (exec (H:=block_size_2) sample_calls (start watch_store sample_calls) sample_schedule) as [w|] eqn:E.
  - unfold sample_end, run_schedule. rewrite E. by apply (exec_sound (H:=block_size_2) sample_calls _ sample_schedule).
  - vm_compute in E. discriminate E.
Qed.

Example sample_end_replies :
  pcs sample_end =
    [Finished (Err (2, Some (mkKeyValue (bytes "/registry/pods/x") 3 3 1 (bytes "2") 0)));
     Finished (Ok 3); Finished (Ok 4)] ∧
  job_rev <$> notify_tx (st sample_end) = [1; 2; 4; 3].
Proof. vm_compute. done. Qed.

Lemma sample_end_finished : Forall is_finished (pcs sample_end).
Proof. apply (bool_decide_unpack _). vm_compute. exact I. Qed.

Lemma watch_store_run :
  ∃ rs, run (H:=block_size_2) (new_store None) watch_ops = Ret (watch_store, rs) ∧
    store_repr (H:=block_size_2) watch_store (hist (final empty watch_ops)).
Proof.
  destruct (run_implements (H:=block_size_2) (new_store None) empty watch_ops) as (s & rs & Hrun & Hi & _).
  - apply new_implements.
  - vm_compute. repeat split.
  - vm_compute. discriminate.
  - vm_compute. discriminate.
  - exists rs. unfold watch_store. rewrite Hrun. split; [done|apply Hi].
Qed.




(** ** Where reads fall behind *)

(** A new key is entered in [tree_map] and only then in [prefix_map]. While the call that
    creates it is between the two, another call can write the key and be answered; a range
    read does not find the key. *)
Example acknowledged_key_not_listed :
  let w := run_schedule watch_store [0; 0; 1; 1; 1; 1; 1]%nat in
  pcs w !! 1%nat = Some (Finished (Ok 3)) ∧
  range (H:=block_size_2) (st w) (bytes "/registry/pods/x") [] 0 None
    = Ret (Ok {| kvs := []; latest_rev := 3; count := 0 |}).
Proof. vm_compute. done. Qed.
