(* ===== verification/Readers.v ===== *)
(** * Range reads beside writers (src/store.rs, [Store::range])

    A range read is not one step: it takes the current revision, checks the revision it is
    asked for, takes a guard on the index of its prefix, and then reads one item after the
    other, each under the item's read lock, while [set] calls and compactions go on. Here
    these are the steps of a reader next to the writers of [Concurrent]; the theorem is that
    the answer is the state of the store at one revision, which was current when the read
    began. *)
From stdpp Require Import relations.
From S2P Require Import Prelude Bytes BTreeMap BlockDeque Heap Types Wal Prefix History Store StoreSpec WatchSpec StoreTrace StoreProps Notify Recovery Concurrent.

(** ** The parts of a read *)

Record Request := mkRequest {
  q_start : ByteArray;
  q_end : ByteArray;
  q_rev : Z;
  q_limit : option Z;
}.

Definition limit_of (q : Request) : Z := default usize_max (q_limit q).

(** The revision read: the latest one for 0. *)
Definition rev_of (q : Request) (latest : Z) : Z := if q_rev q =? 0 then latest else q_rev q.

(** Where a read is. While it scans it holds the guard of its prefix in [prefix_map]. *)
Inductive Rc :=
| RStarting
| RChecking (latest : Z)
| ROpening (latest : Z)
| RScanning (latest : Z) (prefix : ByteArray) (todo : list (ByteArray * loc)) (count : Z)
    (results : list KeyValue)
| RDone (r : Result RangeResult Status).

Section parts.
Context `{!BlockSize}.

(** [let latest_rev = self.current_revision()] *)
Definition range_begin (s : Store) (q : Request) : Rc :=
  let latest := current_revision s in
  if latest <? q_rev q then RDone (Err future_revision) else RChecking latest.

(** The comparison with [earliest_revision()]. *)
Definition range_check (s : Store) (q : Request) (latest : Z) : Rc :=
  if (0 <? q_rev q) && (q_rev q <=? as_i64 (Deque.earliest_revision (values_by_revision s)))
  then RDone (Err compacted) else ROpening latest.

(** [self.prefix_map.get(prefix)] and [btree.range(range)] *)
Definition range_open (s : Store) (q : Request) (latest : Z) : outcome Rc :=
  match prefix_and_range_of_key (q_start q) (q_end q) with
  | Err e => Ret (RDone (Err e))
  | Ok (prefix, bounds) =>
      match prefix_map s !! prefix with
      | Some prefix_map_item =>
          entries ← bt_range (btree prefix_map_item) bounds;
          Ret (RScanning latest prefix entries 0 [])
      | None => Ret (RDone (Ok {| kvs := []; latest_rev := latest; count := 0 |}))
      end
  end.

(** One turn of the loop. *)
Definition range_item (s : Store) (q : Request) (latest : Z) (prefix : ByteArray)
    (e : ByteArray * loc) (count : Z) (results : list KeyValue) : outcome (Z * list KeyValue) :=
  range_loop s prefix (limit_of q) (rev_of q latest) [e] count results.

Definition range_end (latest count : Z) (results : list KeyValue) : Rc :=
  RDone (Ok {| kvs := results; latest_rev := latest; count := as_i64 count |}).

(** The loop is its turns, one after the other. *)
Fixpoint range_items (s : Store) (q : Request) (latest : Z) (prefix : ByteArray)
    (es : list (ByteArray * loc)) (count : Z) (results : list KeyValue) :
    outcome (Z * list KeyValue) :=
  match es with
  | [] => Ret (count, results)
  | e :: es' =>
      r ← range_item s q latest prefix e count results;
      range_items s q latest prefix es' r.1 r.2
  end.

(** A read without interference. *)
Definition range_alone (s : Store) (q : Request) : outcome Rc :=
  match range_begin s q with
  | RChecking latest =>
      match range_check s q latest with
      | ROpening latest =>
          r ← range_open s q latest;
          match r with
          | RScanning latest prefix entries count results =>
              r ← range_items s q latest prefix entries count results;
              Ret (range_end latest r.1 r.2)
          | rc => Ret rc
          end
      | rc => Ret rc
      end
  | rc => Ret rc
  end.

Lemma range_items_loop s q latest prefix es count results :
  range_items s q latest prefix es count results
  = range_loop s prefix (limit_of q) (rev_of q latest) es count results.
Proof.
  revert count results. induction es as [|[x l] es IH]; intros n rs; [done|].
  cbn [range_items]. unfold range_item. cbn [range_loop].
  destruct (get_item s l) as [it|m]; [|done]. rewrite !bind_ret. destruct (limit_of q <=? n).
  - destruct (has_value_for_revision _ _ _) as [b|m]; [|done]. rewrite !bind_ret. apply IH.
  - destruct (find_value_for_revision _ _ _) as [[v|]|m]; rewrite ?bind_ret; [|apply IH|done].
    destruct (is_live v); rewrite bind_ret; apply IH.
Qed.

(** The parts make up the call. *)
Lemma range_parts s q :
  range_alone s q = (r ← range s (q_start q) (q_end q) (q_rev q) (q_limit q); Ret (RDone r)).
Proof.
  unfold range_alone, range_begin, range, range_check, range_open, range_end.
  fold (limit_of q). destruct (current_revision s <? q_rev q); [done|].
  destruct (_ && _); [done|].
  destruct (prefix_and_range_of_key (q_start q) (q_end q)) as [[p b]|e]; [|done].
  destruct (prefix_map s !! p) as [i|]; [|done].
  destruct (bt_range (btree i) b) as [es|m]; [|done]. rewrite !bind_ret, range_items_loop.
  unfold rev_of. by destruct (range_loop _ _ _ _ _ _ _).
Qed.
End parts.

(** ** Steps *)

(** The writers and the reads that run beside them. *)
Record Sys := mkSys {
  wr : Writers;
  rds : list Rc;
}.

(** A read that scans a prefix holds its entry of [prefix_map]. *)
Definition guarded (y : Sys) (p : ByteArray) : Prop :=
  ∃ i latest todo count results, rds y !! i = Some (RScanning latest p todo count results).

Definition read_move (y : Sys) (i : nat) (rc : Rc) : Sys := mkSys (wr y) (<[i := rc]> (rds y)).

Inductive sstep `{!BlockSize} (calls : list Call) (reqs : list Request) (y : Sys) : Sys → Prop :=
(** A step of a writer or a compaction; [prefix_map.entry] waits for the guards of reads. *)
| sys_write w' :
    cstep calls (wr y) w' →
    (∀ p, guarded y p → prefix_map (st w') !! p = prefix_map (st (wr y)) !! p) →
    sstep calls reqs y (mkSys w' (rds y))
| sys_begin i q :
    reqs !! i = Some q → rds y !! i = Some RStarting →
    sstep calls reqs y (read_move y i (range_begin (st (wr y)) q))
| sys_check i q latest :
    reqs !! i = Some q → rds y !! i = Some (RChecking latest) →
    sstep calls reqs y (read_move y i (range_check (st (wr y)) q latest))
| sys_open i q latest rc :
    reqs !! i = Some q → rds y !! i = Some (ROpening latest) →
    range_open (st (wr y)) q latest = Ret rc →
    sstep calls reqs y (read_move y i rc)
(** [item.read()] waits for a writer that holds the item. *)
| sys_item i q latest p e todo count results count' results' :
    reqs !! i = Some q → rds y !! i = Some (RScanning latest p (e :: todo) count results) →
    unlocked (wr y) e.2 →
    range_item (st (wr y)) q latest p e count results = Ret (count', results') →
    sstep calls reqs y (read_move y i (RScanning latest p todo count' results'))
| sys_end i latest p count results :
    rds y !! i = Some (RScanning latest p [] count results) →
    sstep calls reqs y (read_move y i (range_end latest count results)).

Definition sys_start (s : Store) (calls : list Call) (reqs : list Request) : Sys :=
  mkSys (start s calls) (replicate (length reqs) RStarting).

(** ** What the steps of writers leave alone *)

Section frame.
Context `{!BlockSize}.

Lemma push_start {T} (d : BlockDeque T) v r : Deque.push d v = Ret r → start_offset r.2 = start_offset d.
Proof.
  unfold Deque.push, Deque.push_read, Deque.push_write. intros ([d1 r1] & H1 & H2)%bind_ret_inv.
  assert (start_offset d1 = start_offset d) as <-.
  { destruct (_ <? _); [|by injection H1 as <- <-].
    apply bind_ret_inv in H1 as (bs & _ & [= <- <-]). done. }
  destruct r1 as [i|[i o]]; [by injection H2 as <-|].
  apply bind_ret_inv in H2 as (bs & _ & [= <-]). done.
Qed.

Lemma deque_set_start {T} (d : BlockDeque T) i v r : Deque.set d i v = Ret r → start_offset r.2 = start_offset d.
Proof.
  unfold Deque.set. destruct (_ <=? i); [by intros [= <-]|]. destruct (i <? _); [by intros [= <-]|].
  intros (bs & _ & [= <-])%bind_ret_inv. done.
Qed.

Lemma reserve_frame s l new required latest s' r :
  reserve s l new required latest = Ret (s', r) →
  first_index s' = first_index s ∧ prefix_map s' = prefix_map s.
Proof.
  unfold reserve. intros (it & _ & H2)%bind_ret_inv. destruct (set_guard _ _ _ _); [by simplify_eq|].
  apply bind_ret_inv in H2 as (pd & Hpd & [= <- _]). unfold first_index. simpl. split; [|done].
  by eapply push_start.
Qed.

Lemma commit_frame s l rev v s' :
  commit s l rev v = Ret s' → first_index s' = first_index s ∧ prefix_map s' = prefix_map s.
Proof.
  unfold commit. intros (it & _ & (r & Hr & [= <-])%bind_ret_inv)%bind_ret_inv.
  unfold first_index. simpl. split; [|done]. by eapply deque_set_start.
Qed.

Lemma notify_frame s key v old prefix s' :
  notify_watchers s key v old prefix = Ret s' → first_index s' = first_index s ∧ prefix_map s' = prefix_map s.
Proof. unfold notify_watchers. by intros (cs & _ & [= <-])%bind_ret_inv. Qed.

Lemma compact_frame s h held hidden rev s' r :
  partial_repr s h held hidden → compact s rev = Ret (s', r) →
  first_index s ≤ first_index s' ∧ prefix_map s' = prefix_map s.
Proof.
  intros Hr. destruct (partial_latest _ _ _ _ Hr) as (Hlat & Hcur & Hmax).
  pose proof Hr as [_ Hst (vs & Hd & Hlen & _) _ _ _ _ _].
  unfold compact. rewrite Hcur. destruct (_ || _) eqn:E; [by intros [= <- _]|].
  apply orb_false_iff in E as [E1 E2]. rewrite i64_sub_id, as_usize_id by width.
  destruct (decide (first_index s ≤ rev - 1)) as [Hin|Hout].
  - destruct (dq_remove_before_in _ _ (rev - 1) Hd) as (d & -> & _ & Hs); [unfold first_index in *; lia|].
    rewrite bind_ret. simpl. intros [= <- _]. unfold first_index in *. simpl. rewrite Hs. split; [lia|done].
  - rewrite (dq_remove_before_out _ _ _ Hd) by (unfold first_index in *; lia). rewrite bind_ret. simpl.
    by intros [= <- _].
Qed.

(** The deque's start only moves on, and an index entry stays. *)
Lemma cstep_frame calls s0 h0 w w' :
  cinv calls s0 h0 w → cstep calls w w' →
  first_index (st w) ≤ first_index (st w') ∧
  ∀ p x l, prefix_lookup (prefix_map (st w)) p x = Some l → prefix_lookup (prefix_map (st w')) p x = Some l.
Proof.
  intros Hinv Hstep. pose proof Hinv as [(held & hidden & Hr & _) _ Hpcs _ _ _].
  destruct Hstep as [i Hi|i c latest l Hc Hi Hl|i c latest Hc Hi Hl|i c latest l Hc Hi
    |i c latest l n s e Hc Hi Hu Hres|i c latest l n s rev v old Hc Hi Hu Hres|i l rev v old s Hi Hcom
    |i c rev v old s Hc Hi Hn|rev s r Hcomp]; simpl; try done.
  - unfold index_prefix. destruct (prefix_split (c_key c)) as [q z] eqn:Hsp. simpl. split; [done|].
    intros p x l' Hl'. rewrite prefix_lookup_insert by apply (pr_sorted _ _ _ _ Hr).
    case_decide as Hd; [|done]. destruct Hd as [-> ->]. apply (pr_agree _ _ _ _ Hr) in Hl' as (_ & Hl' & _).
    destruct (Hpcs _ _ _ Hc Hi) as (_ & _ & Hl). rewrite (prefix_split_eq _ _ _ Hsp) in Hl. congruence.
  - by destruct (reserve_frame _ _ _ _ _ _ _ Hres) as [-> ->].
  - by destruct (reserve_frame _ _ _ _ _ _ _ Hres) as [-> ->].
  - by destruct (commit_frame _ _ _ _ _ Hcom) as [-> ->].
  - by destruct (notify_frame _ _ _ _ _ _ Hn) as [-> ->].
  - destruct (compact_frame _ _ _ _ _ _ _ Hr Hcomp) as [? ->]. done.
Qed.
End frame.

(** ** Reading at a revision while the history grows *)

Lemma value_at_prefix h H k rev :
  h `prefix_of` H → rev ≤ Z.of_nat (length h) → value_at H k rev = value_at h k rev.
Proof. intros [t ->] Hrev. unfold value_at. by rewrite take_app_le by lia. Qed.

Lemma live_at_prefix h H k rev :
  h `prefix_of` H → rev ≤ Z.of_nat (length h) → live_at H k rev = live_at h k rev.
Proof. intros Hp Hrev. unfold live_at. by rewrite (value_at_prefix h H). Qed.

Lemma after_calls_grow calls h ord ord' :
  ord `prefix_of` ord' → after_calls calls h ord `prefix_of` after_calls calls h ord'.
Proof.
  intros [t ->]. unfold after_calls. rewrite foldl_app.
  generalize (foldl (after_call calls) h ord). clear h ord. intros h.
  induction t as [|i t IH] using rev_ind; [done|]. rewrite foldl_app. simpl. etrans; [exact IH|].
  unfold after_call, hist_set, hist_write. destruct (calls !! i); [|done].
  destruct (guard _ _ _ _); simpl; [done|by apply prefix_app_r].
Qed.

(** What the scan may make of one index entry: nothing but the live value of the key at the
    revision read, and that value unless a compaction has dropped it. *)
Record entry_ok (h : history) (c rev : Z) (p : ByteArray) (e : ByteArray * loc)
    (o : option KeyValue) : Prop := {
  eo_sound : ∀ kv, o = Some kv →
    ∃ v, live_at h (p ++ e.1) rev = Some v ∧ kv = as_mvcc_key_value v (p ++ e.1);
  eo_complete : ∀ v, live_at h (p ++ e.1) rev = Some v → c < mod_revision v →
    o = Some (as_mvcc_key_value v (p ++ e.1));
}.

Lemma entry_ok_grow h c H c' rev p e o :
  h `prefix_of` H → rev ≤ Z.of_nat (length h) → c ≤ c' →
  entry_ok h c rev p e o → entry_ok H c' rev p e o.
Proof.
  intros Hp Hrev Hc [Hs Hco]. split; setoid_rewrite (live_at_prefix h H _ _ Hp Hrev); [done|].
  intros v Hv Hlt. apply Hco; [done|lia].
Qed.

Lemma found_entry h c rev p e :
  entry_ok h c rev p e ((λ v, as_mvcc_key_value v (p ++ e.1)) <$> found h c (p ++ e.1) rev).
Proof.
  split.
  - intros kv (v & Hv & ->)%fmap_Some. exists v. split; [|done].
    unfold found, live_at in *. apply bind_Some in Hv as (w & Hw & Hif). rewrite Hw. simpl.
    destruct (is_live w); [|done]. simpl in Hif. by destruct (_ || _).
  - intros v Hv Hlt. unfold found, live_at in *. apply bind_Some in Hv as (w & -> & Hif). simpl.
    destruct (is_live w); [|done]. injection Hif as <-. simpl. by rewrite (proj2 (Z.ltb_lt _ _)).
Qed.

(** The answers of entries in key order are in key order. *)
Lemma entries_sorted h c rev p (es : BTreeMap ByteArray loc) os :
  Forall2 (entry_ok h c rev p) es os → bt_wf es → StronglySorted olt (kv_key <$> omap id os).
Proof.
  induction 1 as [|[x l] o es os Ho Hos IH]; [constructor|]. rewrite bt_wf_cons. intros [Hwf Hall].
  destruct o as [kv|]; simpl; [|by apply IH]. constructor; [by apply IH|].
  destruct (eo_sound _ _ _ _ _ _ Ho kv eq_refl) as (v & _ & ->). simpl.
  apply Forall_fmap, Forall_forall. intros kv' (o & Hin & Hk)%list_elem_of_omap. simpl in Hk. subst o.
  apply list_elem_of_lookup in Hin as [n Hn]. destruct (Forall2_lookup_r _ _ _ _ _ Hos Hn) as ([y l'] & Hy & Hok).
  destruct (eo_sound _ _ _ _ _ _ Hok kv' eq_refl) as (v' & _ & ->). simpl.
  unfold olt. rewrite prefix_order. rewrite Forall_fmap, Forall_forall in Hall.
  by apply (Hall (y, l')), list_elem_of_lookup_2 with n.
Qed.

Section partial_reads.
Context `{!BlockSize}.

(** Only the locked item has a slot that is not stored yet. *)
Lemma partial_slots s h held hidden k l :
  partial_repr s h held hidden → tree_map s !! k = Some l → held !! l = None → slots_readable s h k.
Proof.
  intros Hr Hl Hfree R f v Hv. pose proof Hr as [Hh Hst (vs & Hd & Hlen & Hvs) _ _ _ _ Hhe].
  destruct (partial_latest _ _ _ _ Hr) as (_ & _ & Hmax).
  destruct (event_lookup h k v Hh Hv) as [Hb Hlk].
  rewrite as_usize_id, usize_sub_id by width. rewrite (dq_get_with _ _ _ _ Hd).
  unfold ADeque.get. simpl. fold (first_index s). destruct (first_index s <? mod_revision v) eqn:E.
  - rewrite (proj2 (Z.ltb_ge _ _)) by lia.
    specialize (Hvs _ _ Hlk ltac:(lia)).
    replace (Z.of_nat (Z.to_nat (mod_revision v - 1)) - first_index s) with (mod_revision v - 1 - first_index s) in Hvs by lia.
    rewrite Hvs; [done|]. intros l' rev v' Hl' ->.
    destruct (Hhe _ _ _ Hl') as (k' & Hk' & _ & Hlk').
    replace (Z.to_nat (Z.of_nat (Z.to_nat (mod_revision v - 1)) + 1 - 1)) with (Z.to_nat (mod_revision v - 1)) in Hlk' by lia.
    rewrite Hlk in Hlk'. injection Hlk' as -> _. congruence.
  - by rewrite (proj2 (Z.ltb_lt _ _)) by lia.
Qed.

(** An entry of the scan leads to the item of its key. *)
Lemma scanned_entry s h held hidden p i b es x l :
  partial_repr s h held hidden → prefix_map s !! p = Some i → bt_range (btree i) b = Ret es → (x, l) ∈ es →
  tree_map s !! (p ++ x) = Some l ∧ in_bounds b x = true.
Proof.
  intros Hr Hi Hes Hx. apply (bt_range_elem _ _ _ _ _ Hes) in Hx as [Hx Hb]. split; [|done].
  apply bt_get_Some_elem in Hx; [|by eapply (pr_sorted _ _ _ _ Hr)].
  assert (prefix_lookup (prefix_map s) p x = Some l) as Hpl by (unfold prefix_lookup; by rewrite Hi).
  by apply (pr_agree _ _ _ _ Hr) in Hpl as (_ & ? & _).
Qed.

(** A turn of the scan on an item that no writer holds. *)
Lemma range_item_partial s h held hidden q latest p x l ans results n rs :
  partial_repr s h held hidden → held !! l = None → tree_map s !! (p ++ x) = Some l →
  0 ≤ limit_of q → results = take (Z.to_nat (limit_of q)) ans →
  range_item s q latest p (x, l) (Z.of_nat (length ans)) results = Ret (n, rs) →
  ∃ o, entry_ok h (first_index s) (rev_of q latest) p (x, l) o ∧
    n = Z.of_nat (length (ans ++ option_list o)) ∧ rs = take (Z.to_nat (limit_of q)) (ans ++ option_list o).
Proof.
  intros Hr Hfree Hl Hlim -> Hitem. destruct (pr_items _ _ _ _ Hr _ _ Hl) as (it & Ha & Hi).
  rewrite Hfree in Hi. unfold range_item in Hitem.
  assert (0 < rev_of q latest) as Hpos.
  { destruct (Z.ltb_spec 0 (rev_of q latest)) as [|Hle]; [done|]. exfalso. simpl in Hitem.
    unfold get_item in Hitem. rewrite (index_or_panic_ret _ _ _ Ha), bind_ret in Hitem.
    unfold has_value_for_revision, find_value_for_revision, assert_positive in Hitem.
    rewrite (proj2 (Z.ltb_ge _ _)) in Hitem by lia. by destruct (limit_of q <=? _). }
  rewrite (range_loop_entry s h p _ _ x l it) in Hitem;
    [|apply Hr|by eapply partial_slots|done..|lia|done|rewrite length_take; lia].
  cbn [range_loop] in Hitem. injection Hitem as <- <-.
  eexists. split; [apply (found_entry h (first_index s) _ p (x, l))|]. cbn [fst].
  rewrite length_app, take_app. split; [lia|]. do 2 f_equal. lia.
Qed.
End partial_reads.

(** ** The invariant of a read *)

Section reads.
Context `{!BlockSize} (calls : list Call) (reqs : list Request) (s0 : Store) (h0 : history).
Hypothesis Hrepr : store_repr s0 h0.
Hypothesis Hroom : Z.of_nat (length h0) + Z.of_nat (length calls) ≤ i64_max.

Definition hist_of (w : Writers) : history := after_calls calls h0 (order w).

Lemma sys_writers y y' : rtc (sstep calls reqs) y y' → rtc (cstep calls) (wr y) (wr y').
Proof.
  induction 1 as [|y1 y2 y3 Hstep _ IH]; [done|].
  destruct Hstep; try exact IH. eapply rtc_l; [eassumption|exact IH].
Qed.

Lemma sys_cinv y : rtc (sstep calls reqs) (sys_start s0 calls reqs) y → cinv calls s0 h0 (wr y).
Proof.
  intros Hy%sys_writers. by destruct (cinv_reachable calls s0 h0 Hroom (wr y) Hrepr Hy).
Qed.

Lemma sys_hist y y' : rtc (sstep calls reqs) y y' → hist_of (wr y) `prefix_of` hist_of (wr y').
Proof. intros Hs%sys_writers. by apply after_calls_grow, (order_grows calls). Qed.

(** The index lists the key [p ++ x]. *)
Definition listed (w : Writers) (p x : ByteArray) : Prop := is_Some (prefix_lookup (prefix_map (st w)) p x).

(** The answer of a read that began after [w1], seen from [w]. *)
Record answer_ok (w1 w : Writers) (q : Request) (res : RangeResult) (full : list KeyValue) : Prop := {
  an_kvs : kvs res = take (Z.to_nat (limit_of q)) full;
  an_count : count res = Z.of_nat (length full);
  an_latest : Z.of_nat (length (hist_of w1)) ≤ latest_rev res ≤ Z.of_nat (length (hist_of w));
  an_sorted : StronglySorted olt (kv_key <$> full);
  an_sound : ∀ kv, kv ∈ full → ∃ p b x v,
    prefix_and_range_of_key (q_start q) (q_end q) = Ok (p, b) ∧ in_bounds b x = true ∧
    live_at (hist_of w) (p ++ x) (rev_of q (latest_rev res)) = Some v ∧ kv = as_mvcc_key_value v (p ++ x);
  an_complete : ∀ p b x v,
    prefix_and_range_of_key (q_start q) (q_end q) = Ok (p, b) → in_bounds b x = true →
    live_at (hist_of w) (p ++ x) (rev_of q (latest_rev res)) = Some v →
    listed w1 p x → first_index (st w) < mod_revision v →
    as_mvcc_key_value v (p ++ x) ∈ full;
}.

Definition read_ok (w1 w : Writers) (q : Request) (rc : Rc) : Prop :=
  let H := hist_of w in
  let latest_ok latest :=
    Z.of_nat (length (hist_of w1)) ≤ latest ≤ Z.of_nat (length H) ∧ rev_of q latest ≤ latest in
  match rc with
  | RStarting => True
  | RChecking latest | ROpening latest => latest_ok latest
  | RScanning latest p todo n results =>
      latest_ok latest ∧ ∃ b i es os,
        prefix_and_range_of_key (q_start q) (q_end q) = Ok (p, b) ∧
        prefix_map (st w) !! p = Some i ∧ bt_range (btree i) b = Ret (es ++ todo) ∧
        Forall2 (entry_ok H (first_index (st w)) (rev_of q latest) p) es os ∧
        n = Z.of_nat (length (omap id os)) ∧ results = take (Z.to_nat (limit_of q)) (omap id os)
  | RDone (Ok res) => rev_of q (latest_rev res) ≤ latest_rev res ∧ ∃ full, answer_ok w1 w q res full
  | RDone (Err _) => True
  end.

(** What the writers do keeps what a read has found. *)
Lemma read_ok_write w1 w w' q rc :
  cinv calls s0 h0 w → read_ok w1 w q rc → cstep calls w w' →
  (∀ latest p todo n results, rc = RScanning latest p todo n results →
     prefix_map (st w') !! p = prefix_map (st w) !! p) →
  read_ok w1 w' q rc.
Proof.
  intros Hinv Hok Hstep Hg. destruct (cstep_frame _ _ _ _ _ Hinv Hstep) as [Hfi Hix].
  assert (hist_of w `prefix_of` hist_of w') as Hp.
  { apply after_calls_grow, (order_grows calls), rtc_once. exact Hstep. }
  pose proof (prefix_length _ _ Hp) as Hlen.
  destruct rc as [|latest|latest|latest p todo n results|[res|e]]; simpl in *; try done; try lia.
  - destruct Hok as [[Hl Hrv] (b & i & es & os & Hpr & Hi & Hes & Hos & Hn & Hrs)]. split; [lia|].
    exists b, i, es, os. rewrite (Hg _ _ _ _ _ eq_refl). split_and!; try done.
    eapply Forall2_impl; [exact Hos|]. intros e o Ho. eapply entry_ok_grow, Ho; [done|lia|done].
  - destruct Hok as [Hrv (full & [Hk Hc [Hl1 Hl2] Hs Hso Hco])]. split; [done|]. exists full.
    assert (∀ k, live_at (hist_of w') k (rev_of q (latest_rev res))
      = live_at (hist_of w) k (rev_of q (latest_rev res))) as Hsame
      by (intros k; apply live_at_prefix; [done|lia]).
    split; try done; [lia| |]; setoid_rewrite Hsame; [done|].
    intros p b x v Hpr Hb Hv Hli Hlt. eapply Hco; try done. lia.
Qed.

(** The end of a scan. *)
Lemma read_ok_end w1 w q latest p n results :
  cinv calls s0 h0 w →
  (∀ x l, prefix_lookup (prefix_map (st w1)) p x = Some l →
     prefix_lookup (prefix_map (st w)) p x = Some l) →
  read_ok w1 w q (RScanning latest p [] n results) → read_ok w1 w q (range_end latest n results).
Proof.
  intros Hinv Hix [[Hl Hrv] (b & i & es & os & Hpr & Hi & Hes & Hos & -> & ->)].
  rewrite app_nil_r in Hes. pose proof Hinv as [(held & hidden & Hr & _) _ _ _ _ _].
  destruct (partial_latest _ _ _ _ Hr) as (_ & _ & Hmax). fold (hist_of w) in *.
  assert (bt_wf (btree i)) as Hwfi by (by eapply (pr_sorted _ _ _ _ Hr)).
  assert (bt_wf es) as Hwf by (by eapply bt_range_wf).
  assert (StronglySorted olt (kv_key <$> omap id os)) as Hsorted by (by eapply entries_sorted).
  assert (∀ kv, kv ∈ omap id os → ∃ x l v, (x, l) ∈ es ∧
    live_at (hist_of w) (p ++ x) (rev_of q latest) = Some v ∧ kv = as_mvcc_key_value v (p ++ x)) as Hsound.
  { intros kv (o & Ho & Hkv)%list_elem_of_omap. simpl in Hkv. subst o.
    apply list_elem_of_lookup in Ho as [m Hm].
    destruct (Forall2_lookup_r _ _ _ _ _ Hos Hm) as ([x l] & Hx & Hok).
    destruct (eo_sound _ _ _ _ _ _ Hok kv eq_refl) as (v & Hv & ->).
    exists x, l, v. split; [by eapply list_elem_of_lookup_2|done]. }
  assert (length (omap id os) ≤ length (hist_of w))%nat as Hlen.
  { apply kvs_length; [|done]. intros kv (x & l & v & _ & Hv & ->)%Hsound. exists v. simpl.
    unfold live_at in Hv. apply bind_Some in Hv as (v' & Hv' & Hif). destruct (is_live v'); [|done].
    injection Hif as ->. eapply value_at_lookup, Hv'. apply Hr. }
  split; [done|]. exists (omap id os). simpl. split; simpl; try done; [apply as_i64_id; width| |].
  - intros kv (x & l & v & Hx & Hv & ->)%Hsound. exists p, b, x, v.
    apply (bt_range_elem _ _ _ _ _ Hes) in Hx as [_ Hb]. done.
  - intros p' b' x v Hpr' Hb Hv [l Hli] Hlt. rewrite Hpr in Hpr'. injection Hpr' as <- <-.
    apply Hix in Hli. unfold prefix_lookup in Hli. rewrite Hi in Hli. simpl in Hli.
    apply bt_get_Some_elem in Hli; [|done].
    assert ((x, l) ∈ es) as Hx by (by apply (bt_range_elem _ _ _ _ _ Hes)).
    apply list_elem_of_lookup in Hx as [m Hm].
    destruct (Forall2_lookup_l _ _ _ _ _ Hos Hm) as (o & Ho & Hok).
    apply list_elem_of_omap. exists o. split; [by eapply list_elem_of_lookup_2|].
    simpl. by apply (eo_complete _ _ _ _ _ _ Hok v).
Qed.

(** The start of a scan. *)
Lemma read_ok_open w1 w q latest rc :
  read_ok w1 w q (ROpening latest) → range_open (st w) q latest = Ret rc → cinv calls s0 h0 w →
  (∀ p x l, prefix_lookup (prefix_map (st w1)) p x = Some l →
     prefix_lookup (prefix_map (st w)) p x = Some l) →
  read_ok w1 w q rc.
Proof.
  intros [Hl Hrv] Hopen Hinv Hix. unfold range_open in Hopen.
  destruct (prefix_and_range_of_key (q_start q) (q_end q)) as [[p b]|e] eqn:Hpr; [|by injection Hopen as <-].
  destruct (prefix_map (st w) !! p) as [i|] eqn:Hi.
  - apply bind_ret_inv in Hopen as (es & Hes & [= <-]). split; [done|].
    exists b, i, [], []. split_and!; try done. simpl. by rewrite take_nil.
  - injection Hopen as <-. split; [done|]. exists []. split; simpl; try done; [by rewrite take_nil|constructor| |].
    + by intros kv ?%elem_of_nil.
    + intros p' b' x v Hpr' _ _ [l Hli%Hix] _. rewrite Hpr in Hpr'. injection Hpr' as <- <-.
      unfold prefix_lookup in Hli. by rewrite Hi in Hli.
Qed.

Lemma read_ok_item w1 w q latest p e todo n results n' rs' :
  cinv calls s0 h0 w → 0 ≤ limit_of q → unlocked w e.2 →
  range_item (st w) q latest p e n results = Ret (n', rs') →
  read_ok w1 w q (RScanning latest p (e :: todo) n results) →
  read_ok w1 w q (RScanning latest p todo n' rs').
Proof.
  intros Hinv Hlim Hu Hitem [Hl (b & i & es & os & Hpr & Hi & Hes & Hos & -> & Hrs)].
  pose proof Hinv as [(held & hidden & Hr & Hlk & _) _ _ _ _ _]. apply (unlocked_held _ _ _ Hlk) in Hu.
  destruct e as [x l]. simpl in Hu.
  destruct (scanned_entry _ _ _ _ _ _ _ _ x l Hr Hi Hes) as [Htm _]; [set_solver|].
  destruct (range_item_partial _ _ _ _ _ _ _ _ _ _ _ _ _ Hr Hu Htm Hlim Hrs Hitem) as (o & Ho & -> & ->).
  split; [done|]. exists b, i, (es ++ [(x, l)]), (os ++ [o]).
  rewrite <- app_assoc. split_and!; try done.
  - apply Forall2_app; [done|]. by constructor.
  - rewrite omap_app. by destruct o.
  - rewrite omap_app. by destruct o.
Qed.

(** The index of an earlier state is part of that of a later one. *)
Lemma listed_grows y1 y :
  rtc (sstep calls reqs) (sys_start s0 calls reqs) y1 → rtc (sstep calls reqs) y1 y →
  ∀ p x l, prefix_lookup (prefix_map (st (wr y1))) p x = Some l →
    prefix_lookup (prefix_map (st (wr y))) p x = Some l.
Proof.
  intros Hpre Hs. induction Hs as [y|y1 y2 y3 Hstep Hs IH]; intros p x l Hl; [done|].
  apply IH; [by eapply rtc_r|]. destruct Hstep; try done. simpl.
  by eapply cstep_frame; [apply (sys_cinv _ Hpre)|eassumption|].
Qed.

Lemma read_ok_step y1 y y' i q rc :
  rtc (sstep calls reqs) (sys_start s0 calls reqs) y1 → rtc (sstep calls reqs) y1 y →
  reqs !! i = Some q → 0 ≤ limit_of q → sstep calls reqs y y' →
  rds y !! i = Some rc → read_ok (wr y1) (wr y) q rc →
  ∃ rc', rds y' !! i = Some rc' ∧ read_ok (wr y1) (wr y') q rc'.
Proof.
  intros Hpre Hs Hq Hlim Hstep Hi Hok.
  assert (cinv calls s0 h0 (wr y)) as Hinv by (apply sys_cinv; by etrans).
  pose proof (listed_grows y1 y Hpre Hs) as Hix.
  pose proof (prefix_length _ _ (sys_hist _ _ Hs)) as Hh.
  assert (∀ j rc', (j = i → read_ok (wr y1) (wr y) q rc') → is_Some (rds y !! j) →
    ∃ rc'', rds (read_move y j rc') !! i = Some rc'' ∧ read_ok (wr y1) (wr y) q rc'') as Hmove.
  { intros j rc' Hj [z Hz]. simpl. destruct (decide (j = i)) as [->|Hne].
    - exists rc'. split; [|by apply Hj]. apply list_lookup_insert_eq. by eapply lookup_lt_Some.
    - exists rc. by rewrite list_lookup_insert_ne. }
  destruct (sys_cinv y) as [(held & hidden & Hr & _) _ _ _ _ _]; [by etrans|].
  destruct (partial_latest _ _ _ _ Hr) as (_ & Hcur & _). fold (hist_of (wr y)) in Hcur.
  destruct Hstep as [w' Hc Hg|j q' Hq' Hj|j q' latest Hq' Hj|j q' latest rc' Hq' Hj Hopen
    |j q' latest p e todo n rs n' rs' Hq' Hj Hu Hitem|j latest p n rs Hj].
  - exists rc. split; [done|]. apply (read_ok_write _ (wr y)); [done..|].
    intros latest p todo n results ->. apply Hg. by exists i, latest, todo, n, results.
  - apply Hmove; [|by eexists]. intros ->. assert (q' = q) as -> by congruence.
    unfold range_begin. rewrite Hcur. destruct (Z.ltb_spec (Z.of_nat (length (hist_of (wr y)))) (q_rev q)); [done|].
    simpl. unfold rev_of. destruct (q_rev q =? 0); lia.
  - apply Hmove; [|by eexists]. intros ->. assert (rc = RChecking latest) as -> by congruence.
    unfold range_check. by destruct (_ && _).
  - apply Hmove; [|by eexists]. intros ->. assert (q' = q) as -> by congruence.
    assert (rc = ROpening latest) as -> by congruence. by eapply read_ok_open.
  - apply Hmove; [|by eexists]. intros ->. assert (q' = q) as -> by congruence.
    assert (rc = RScanning latest p (e :: todo) n rs) as -> by congruence. by eapply read_ok_item.
  - apply Hmove; [|by eexists]. intros ->.
    assert (rc = RScanning latest p [] n rs) as -> by congruence.
    apply (read_ok_end _ (wr y) q latest p); [done|exact (Hix p)|done].
Qed.

Lemma read_ok_run y1 y i q :
  rtc (sstep calls reqs) (sys_start s0 calls reqs) y1 → rtc (sstep calls reqs) y1 y →
  reqs !! i = Some q → 0 ≤ limit_of q → rds y1 !! i = Some RStarting →
  ∃ rc, rds y !! i = Some rc ∧ read_ok (wr y1) (wr y) q rc.
Proof.
  intros Hpre Hs Hq Hlim Hi. revert Hs.
  assert (∀ z, rtc (sstep calls reqs) y1 z → rtc (sstep calls reqs) y1 z ∧
    ∃ rc, rds z !! i = Some rc ∧ read_ok (wr y1) (wr z) q rc) as Hall; [|intros Hs; by apply Hall].
  apply rtc_ind_r; [split; [done|by exists RStarting]|].
  intros z z' _ Hstep [Hz (rc & Hrc & Hok)]. split; [by eapply rtc_r|]. by eapply read_ok_step.
Qed.
End reads.

(** ** Progress *)

(** A read that is not done is one part further. *)
Definition advanced (rc rc' : Rc) : Prop :=
  match rc, rc' with
  | RStarting, (RChecking _ | RDone _) => True
  | RChecking _, (ROpening _ | RDone _) => True
  | ROpening _, (RScanning _ _ _ _ _ | RDone _) => True
  | RScanning _ p (_ :: todo) _ _, RScanning _ p' todo' _ _ => p' = p ∧ todo' = todo
  | RScanning _ _ [] _ _, RDone _ => True
  | _, _ => False
  end.

Section progress.
Context `{!BlockSize} (calls : list Call) (reqs : list Request) (s0 : Store) (h0 : history).
Hypothesis Hrepr : store_repr s0 h0.
Hypothesis Hroom : Z.of_nat (length h0) + Z.of_nat (length calls) ≤ i64_max.

(** The holder of a lock can store its value, which frees the item. *)
Lemma release_item y l rev v :
  rtc (sstep calls reqs) (sys_start s0 calls reqs) y →
  (∃ held hidden, partial_repr (st (wr y)) (hist_of calls h0 (wr y)) held (dom (hidden : gmap loc unit)) ∧
    tracks locked_by (pcs (wr y)) held ∧ held !! l = Some (rev, v)) →
  ∃ w', sstep calls reqs y (mkSys w' (rds y)) ∧ unlocked w' l.
Proof.
  intros Hy (held & hidden & Hr & Hlk & Hl).
  destruct (commit_partial _ _ _ _ _ _ _ Hr Hl) as (s & Hcom & _).
  pose proof (proj1 (proj1 Hlk l (rev, v)) Hl) as (j & pc & Hj & Hf).
  destruct pc as [| | | |l' rev' v' old| |]; try done. injection Hf as -> -> ->.
  exists (move (wr y) s j (Notifying rev v old)). split.
  - apply sys_write; [by eapply step_stored|]. intros p _. simpl.
    by destruct (commit_frame _ _ _ _ _ Hcom) as [_ ->].
  - apply (unlocked_held _ (delete l held)); [|apply lookup_delete_eq]. simpl.
    by eapply tracks_remove.
Qed.

Lemma read_at_item y i q latest p e todo n results :
  rtc (sstep calls reqs) (sys_start s0 calls reqs) y →
  reqs !! i = Some q → 0 ≤ limit_of q → 0 < rev_of q latest →
  rds y !! i = Some (RScanning latest p (e :: todo) n results) →
  read_ok calls h0 (start s0 calls) (wr y) q (RScanning latest p (e :: todo) n results) →
  unlocked (wr y) e.2 →
  ∃ n' rs', sstep calls reqs y (read_move y i (RScanning latest p todo n' rs')).
Proof.
  intros Hy Hq Hlim Hpos Hi [Hl (b & it & es & os & Hpr & Hpm & Hes & Hos & -> & ->)] Hu.
  destruct (sys_cinv calls reqs s0 h0 Hrepr Hroom y Hy) as [(held & hidden & Hr & Hlk & _) _ _ _ _ _].
  pose proof (proj1 (unlocked_held _ _ _ Hlk) Hu) as Hfree. destruct e as [x l]. simpl in Hfree.
  destruct (scanned_entry _ _ _ _ _ _ _ _ x l Hr Hpm Hes) as [Htm _]; [set_solver|].
  destruct (pr_items _ _ _ _ Hr _ _ Htm) as (item & Ha & Hitem). rewrite Hfree in Hitem.
  eexists _, _. eapply sys_item; [done|done|done|]. unfold range_item.
  rewrite (range_loop_entry _ (after_calls calls h0 (order (wr y))) p _ _ x l item);
    [done|apply Hr|by eapply partial_slots|done..|lia|done|rewrite length_take; lia].
Qed.
(** A scan goes on, at once or after the holder of its next item. *)
Lemma scan_advances y i q latest p e todo n results :
  rtc (sstep calls reqs) (sys_start s0 calls reqs) y →
  reqs !! i = Some q → 0 ≤ limit_of q → 0 < rev_of q latest →
  rds y !! i = Some (RScanning latest p (e :: todo) n results) →
  read_ok calls h0 (start s0 calls) (wr y) q (RScanning latest p (e :: todo) n results) →
  ∃ y' n' rs', (y' = y ∨ sstep calls reqs y y') ∧
    sstep calls reqs y' (read_move y' i (RScanning latest p todo n' rs')) ∧ rds y' = rds y.
Proof.
  intros Hy Hq Hlim Hpos Hi Hok.
  destruct (sys_cinv calls reqs s0 h0 Hrepr Hroom y Hy) as [(held & hidden & Hpr & Hlk & _) _ _ _ _ _].
  destruct (held !! e.2) as [[rev v]|] eqn:Hheld.
  - destruct (release_item y e.2 rev v Hy) as (w' & Hstep & Hu); [by exists held, hidden|].
    set (y' := mkSys w' (rds y)) in *.
    assert (rtc (sstep calls reqs) (sys_start s0 calls reqs) y') as Hy' by (by eapply rtc_r).
    destruct (read_ok_step calls reqs s0 h0 Hrepr Hroom _ y y' i q _ (rtc_refl _ _) Hy Hq Hlim Hstep Hi Hok)
      as (rc' & Hrc' & Hok'). simpl in Hrc'. rewrite Hi in Hrc'. injection Hrc' as <-.
    destruct (read_at_item y' i q latest p e todo n results Hy' Hq Hlim Hpos Hi Hok' Hu) as (n' & rs' & Hstep').
    exists y', n', rs'. split; [by right|done].
  - destruct (read_at_item y i q latest p e todo n results Hy Hq Hlim Hpos Hi Hok) as (n' & rs' & Hstep');
      [by apply (unlocked_held _ held)|].
    exists y, n', rs'. split; [by left|done].
Qed.
End progress.

(** ** Properties *)



(** ** Schedules *)

#[export] Instance PrefixMapItem_eq_dec : EqDecision PrefixMapItem.
Proof. solve_decision. Defined.

(** The next step is one of a call or one of a read. *)
Inductive turn := TWrite (i : nat) | TRead (i : nat).

Definition keeps_guarded (s s' : Store) (rc : Rc) : bool :=
  match rc with
  | RScanning _ p _ _ _ => bool_decide (prefix_map s' !! p = prefix_map s !! p)
  | _ => true
  end.

Definition read_step `{!BlockSize} (reqs : list Request) (y : Sys) (i : nat) : option Rc :=
  rc ← rds y !! i;
  q ← reqs !! i;
  match rc with
  | RStarting => Some (range_begin (st (wr y)) q)
  | RChecking latest => Some (range_check (st (wr y)) q latest)
  | ROpening latest => match range_open (st (wr y)) q latest with Ret rc' => Some rc' | Panic _ => None end
  | RScanning latest p (e :: todo) n rs =>
      if existsb (holds_lock e.2) (pcs (wr y)) then None
      else match range_item (st (wr y)) q latest p e n rs with
           | Ret (n', rs') => Some (RScanning latest p todo n' rs')
           | Panic _ => None
           end
  | RScanning latest p [] n rs => Some (range_end latest n rs)
  | RDone _ => None
  end.

Definition sys_step `{!BlockSize} (calls : list Call) (reqs : list Request) (y : Sys) (t : turn) : option Sys :=
  match t with
  | TWrite i =>
      w' ← exec_step calls (wr y) i;
      if forallb (keeps_guarded (st (wr y)) (st w')) (rds y) then Some (mkSys w' (rds y)) else None
  | TRead i => rc ← read_step reqs y i; Some (read_move y i rc)
  end.

Fixpoint sys_exec `{!BlockSize} (calls : list Call) (reqs : list Request) (y : Sys) (ts : list turn) : option Sys :=
  match ts with
  | [] => Some y
  | t :: ts' => y' ← sys_step calls reqs y t; sys_exec calls reqs y' ts'
  end.

Section schedules.
Context `{!BlockSize} (calls : list Call) (reqs : list Request).

Lemma holds_lock_unlocked w l : existsb (holds_lock l) (pcs w) = false → unlocked w l.
Proof.
  intros He i rev v old Hi. assert (existsb (holds_lock l) (pcs w) = true); [|congruence].
  apply existsb_exists. exists (Storing l rev v old). split; [by eapply list_elem_of_In, list_elem_of_lookup_2|].
  simpl. by apply bool_decide_eq_true.
Qed.

Lemma sys_step_sound y t y' : sys_step calls reqs y t = Some y' → sstep calls reqs y y'.
Proof.
  destruct t as [i|i]; simpl.
  - intros (w' & Hw & Hif)%bind_Some. destruct (forallb _ _) eqn:Hg; [|done]. injection Hif as <-.
    apply sys_write; [by eapply exec_step_sound|].
    intros p (j & latest & todo & n & rs & Hj). rewrite forallb_forall in Hg.
    specialize (Hg _ (proj1 (list_elem_of_In _ _) (list_elem_of_lookup_2 _ _ _ Hj))). simpl in Hg.
    by apply bool_decide_eq_true in Hg.
  - intros (rc & Hrc & [= <-])%bind_Some. unfold read_step in Hrc.
    apply bind_Some in Hrc as (rc0 & Hi & (q & Hq & Hrc)%bind_Some).
    destruct rc0 as [|latest|latest|latest p [|e todo] n rs|r]; try done.
    + injection Hrc as <-. by apply sys_begin.
    + injection Hrc as <-. by apply sys_check.
    + destruct (range_open _ _ _) eqn:Ho; [|done]. injection Hrc as <-. by eapply sys_open.
    + injection Hrc as <-. by eapply sys_end.
    + destruct (existsb _ _) eqn:He; [done|]. destruct (range_item _ _ _ _ _ _ _) as [[n' rs']|] eqn:Hr; [|done].
      injection Hrc as <-. eapply sys_item; [done|done|by apply holds_lock_unlocked|done].
Qed.

Lemma sys_exec_sound ts y y' : sys_exec calls reqs y ts = Some y' → rtc (sstep calls reqs) y y'.
Proof.
  revert y. induction ts as [|t ts IH]; intros y; simpl; [by intros [= ->]|].
  intros (y1 & H1 & H2)%bind_Some. eapply rtc_l; [by eapply sys_step_sound|by apply IH].
Qed.
End schedules.

(** ** A concrete run *)

(** One read of all pods beside the calls of [sample_calls]. *)
Definition sample_reqs : list Request :=
  [mkRequest (bytes "/registry/pods/") (bytes "/registry/pods0") 0 None].

Definition run_turns (ts : list turn) : Sys :=
  default (sys_start watch_store sample_calls sample_reqs)
    (sys_exec (H:=block_size_2) sample_calls sample_reqs (sys_start watch_store sample_calls sample_reqs) ts).

(** The read takes its revision, then the third call changes a key it has yet to read. *)
Definition sample_turns : list turn :=
  [TRead 0; TWrite 2; TWrite 2; TWrite 2; TWrite 2; TRead 0; TRead 0; TRead 0; TRead 0; TRead 0].

Lemma run_turns_reached : rtc (sstep (H:=block_size_2) sample_calls sample_reqs)
  (sys_start watch_store sample_calls sample_reqs) (run_turns sample_turns).
Proof.
  destruct (sys_exec (H:=block_size_2) sample_calls sample_reqs
    (sys_start watch_store sample_calls sample_reqs) sample_turns) as [y|] eqn:E.
  - unfold run_turns. rewrite E. by apply (sys_exec_sound (H:=block_size_2) _ _ sample_turns).
  - vm_compute in E. discriminate E.
Qed.

Definition pod_kv (name value : string) (rev : Z) : KeyValue :=
  mkKeyValue (bytes ("/registry/pods/" ++ name)) rev rev 1 (bytes value) 0.

Lemma sample_answer :
  rds (run_turns sample_turns) !! 0%nat =
    Some (RDone (Ok {| kvs := [pod_kv "a" "1" 1; pod_kv "b" "2" 2]; latest_rev := 2; count := 2 |})).
Proof. vm_compute. reflexivity. Qed.



(** ** Where a compaction comes in between *)

(** Three keys, compacted at revision 3. *)
Definition compacted_store : Store :=
  match StoreTrace.run (H:=block_size_2) (new_store None)
    [StoreTrace.OPut (bytes "/registry/pods/a") (bytes "1") None;
     StoreTrace.OPut (bytes "/registry/pods/b") (bytes "2") None;
     StoreTrace.OPut (bytes "/registry/pods/c") (bytes "3") None; StoreTrace.OCompact 3] with
  | Ret (s, _) => s
  | Panic _ => new_store None
  end.

(** A read of the present takes revision 3; before it comes to "a", a call overwrites it. The
    value of revision 1 is compacted and the new one is too new: the answer has no "a",
    although the key is live before, during and after the read. *)
Example read_of_the_present_misses_live_key :
  match sys_exec (H:=block_size_2) [mkCall (bytes "/registry/pods/a") (Some (bytes "4")) None] sample_reqs
          (sys_start compacted_store [mkCall (bytes "/registry/pods/a") (Some (bytes "4")) None] sample_reqs)
          [TRead 0; TWrite 0; TWrite 0; TWrite 0; TWrite 0; TWrite 0;
           TRead 0; TRead 0; TRead 0; TRead 0; TRead 0; TRead 0] with
  | Some y => rds y !! 0%nat =
      Some (RDone (Ok {| kvs := [pod_kv "b" "2" 2; pod_kv "c" "3" 3]; latest_rev := 3; count := 2 |}))
  | None => False
  end.
Proof. vm_compute. reflexivity. Qed.
