(* ===== verification/Raft.v ===== *)
(** * The Raft log and state machine (src/raft.rs)

    The in-memory log openraft stores its entries in, and the state machine that
    applies committed entries to the store and exchanges snapshots. openraft's own
    types (leader ids, votes, memberships) are arguments, and so is the JSON encoding
    of serde. *)
From S2P Require Import Prelude Bytes BTreeMap BlockDeque Types Prefix History Store StoreSpec Snapshot StoreTrace StoreProps.

(** [RaftRequest] *)
Inductive RaftRequest :=
| RaftSet (key value : ByteArray)
| RaftDelete (key : ByteArray).

Section data.
Context (LeaderId Membership Vote : Type).

Record LogId := mkLogId { leader_id : LeaderId; index : Z }.

(** [openraft::EntryPayload] *)
Inductive EntryPayload :=
| Blank
| Normal (req : RaftRequest)
| MembershipChange (mem : Membership).

Record Entry := mkEntry { log_id : LogId; payload : EntryPayload }.

Record LogStoreInner := mkLogStoreInner {
  last_purged_log_id : option LogId;
  log : BTreeMap Z Entry;
  committed : option LogId;
  vote : option Vote;
}.

(** [StoredMembership]: the log id it was set at and the membership. *)
Record StoredMembership := mkStoredMembership { mem_log_id : option LogId; membership : Membership }.

Record FullSnapshotData := mkFullSnapshotData {
  fsd_last_applied_log : option LogId;
  fsd_last_membership : StoredMembership;
  kv_entries : list SnapshotEntry;
}.

(** The id of a snapshot: the leader and index of its last log, and a counter. *)
Record SnapshotMeta := mkSnapshotMeta {
  meta_last_log_id : option LogId;
  meta_last_membership : StoredMembership;
  snapshot_id : option LogId * Z;
}.

Record StoredSnapshot := mkStoredSnapshot { snap_meta : SnapshotMeta; snap_data : ByteArray }.

Record StateMachineStore := mkStateMachineStore {
  sm_store : Store;
  last_applied_log : option LogId;
  last_membership : StoredMembership;
  snapshot_idx : Z;
  current_snapshot : option StoredSnapshot;
}.
End data.

Arguments mkLogId {LeaderId} _ _.
Arguments leader_id {LeaderId} _.
Arguments index {LeaderId} _.
Arguments Blank {Membership}.
Arguments Normal {Membership} _.
Arguments MembershipChange {Membership} _.
Arguments mkEntry {LeaderId Membership} _ _.
Arguments log_id {LeaderId Membership} _.
Arguments payload {LeaderId Membership} _.
Arguments mkLogStoreInner {LeaderId Membership Vote} _ _ _ _.
Arguments last_purged_log_id {LeaderId Membership Vote} _.
Arguments log {LeaderId Membership Vote} _.
Arguments committed {LeaderId Membership Vote} _.
Arguments vote {LeaderId Membership Vote} _.
Arguments mkStoredMembership {LeaderId Membership} _ _.
Arguments mem_log_id {LeaderId Membership} _.
Arguments membership {LeaderId Membership} _.
Arguments mkFullSnapshotData {LeaderId Membership} _ _ _.
Arguments fsd_last_applied_log {LeaderId Membership} _.
Arguments fsd_last_membership {LeaderId Membership} _.
Arguments kv_entries {LeaderId Membership} _.
Arguments mkSnapshotMeta {LeaderId Membership} _ _ _.
Arguments meta_last_log_id {LeaderId Membership} _.
Arguments meta_last_membership {LeaderId Membership} _.
Arguments snapshot_id {LeaderId Membership} _.
Arguments mkStoredSnapshot {LeaderId Membership} _ _.
Arguments snap_meta {LeaderId Membership} _.
Arguments snap_data {LeaderId Membership} _.
Arguments mkStateMachineStore {LeaderId Membership} _ _ _ _ _.
Arguments sm_store {LeaderId Membership} _.
Arguments last_applied_log {LeaderId Membership} _.
Arguments last_membership {LeaderId Membership} _.
Arguments snapshot_idx {LeaderId Membership} _.
Arguments current_snapshot {LeaderId Membership} _.

(** ** The log store *)

Module MemLogStore.
Section ops.
Context {LeaderId Membership Vote : Type}.
Implicit Types (st : LogStoreInner LeaderId Membership Vote).

Definition default_store : LogStoreInner LeaderId Membership Vote := mkLogStoreInner None [] None None.

Definition with_log st (l : BTreeMap Z (Entry LeaderId Membership)) : LogStoreInner LeaderId Membership Vote :=
  mkLogStoreInner (last_purged_log_id st) l (committed st) (vote st).

Definition try_get_log_entries st (range : Bound Z * Bound Z) : outcome (list (Entry LeaderId Membership)) :=
  r ← bt_range (log st) range; Ret r.*2.

(** [LogState]: the last purged log id and the last log id. *)
Definition get_log_state st : option (LogId LeaderId) * option (LogId LeaderId) :=
  let last := (λ e : Z * Entry LeaderId Membership, log_id e.2) <$> last (log st) in
  (last_purged_log_id st, match last with None => last_purged_log_id st | Some x => Some x end).

Definition save_vote st (v : Vote) : LogStoreInner LeaderId Membership Vote :=
  mkLogStoreInner (last_purged_log_id st) (log st) (committed st) (Some v).

Definition read_vote st : option Vote := vote st.

Definition save_committed st (c : option (LogId LeaderId)) : LogStoreInner LeaderId Membership Vote :=
  mkLogStoreInner (last_purged_log_id st) (log st) c (vote st).

Definition read_committed st : option (LogId LeaderId) := committed st.

Definition append st (entries : list (Entry LeaderId Membership)) : LogStoreInner LeaderId Membership Vote :=
  with_log st (foldl (λ l e, bt_insert l (index (log_id e)) e) (log st) entries).

(** [for key in keys { log.remove(&key); }] *)
Definition remove_range (l : BTreeMap Z (Entry LeaderId Membership)) (range : Bound Z * Bound Z) :
    outcome (BTreeMap Z (Entry LeaderId Membership)) :=
  found ← bt_range l range; Ret (foldl (λ l k, bt_remove l k) l found.*1).

Definition truncate st (id : LogId LeaderId) : outcome (LogStoreInner LeaderId Membership Vote) :=
  l ← remove_range (log st) (Included (index id), Unbounded); Ret (with_log st l).

Definition purge st (id : LogId LeaderId) : outcome (LogStoreInner LeaderId Membership Vote) :=
  l ← remove_range (log st) (Unbounded, Included (index id));
  Ret (mkLogStoreInner (Some id) l (committed st) (vote st)).
End ops.
End MemLogStore.

(** ** The state machine *)

Module StateMachine.
Section ops.
Context `{!BlockSize} {LeaderId Membership : Type}.
Implicit Types (sm : StateMachineStore LeaderId Membership).

Definition with_store sm (s : Store) : StateMachineStore LeaderId Membership :=
  mkStateMachineStore s (last_applied_log sm) (last_membership sm) (snapshot_idx sm) (current_snapshot sm).

(** What a request does to the store, and the revision it answers. *)
Definition apply_request (s : Store) (req : RaftRequest) : outcome (Store * Z) :=
  r ← match req with
      | RaftSet key value => set s key (Some value) None
      | RaftDelete key => delete_key s key None
      end;
  Ret (r.1, match r.2 with Ok rev => rev | Err e => e.1 end).

Definition apply_entry sm (entry : Entry LeaderId Membership) :
    outcome (StateMachineStore LeaderId Membership * Z) :=
  let sm1 := mkStateMachineStore (sm_store sm) (Some (log_id entry)) (last_membership sm)
               (snapshot_idx sm) (current_snapshot sm) in
  match payload entry with
  | Blank => Ret (sm1, current_revision (sm_store sm1))
  | Normal req => r ← apply_request (sm_store sm1) req; Ret (with_store sm1 r.1, r.2)
  | MembershipChange mem =>
      Ret (mkStateMachineStore (sm_store sm1) (last_applied_log sm1)
             (mkStoredMembership (Some (log_id entry)) mem) (snapshot_idx sm1) (current_snapshot sm1),
           current_revision (sm_store sm1))
  end.

(** [apply]: the responses are the revisions. *)
Fixpoint apply sm (entries : list (Entry LeaderId Membership)) :
    outcome (StateMachineStore LeaderId Membership * list Z) :=
  match entries with
  | [] => Ret (sm, [])
  | entry :: entries' =>
      r ← apply_entry sm entry;
      rs ← apply r.1 entries';
      Ret (rs.1, r.2 :: rs.2)
  end.

Definition applied_state sm : option (LogId LeaderId) * StoredMembership LeaderId Membership :=
  (last_applied_log sm, last_membership sm).

(** serde's JSON encoding of the snapshot. *)
Variable to_vec : FullSnapshotData LeaderId Membership → Result ByteArray string.
Variable from_slice : ByteArray → Result (FullSnapshotData LeaderId Membership) string.
(** The order in which the concurrent map is walked. *)
Variable iter : gmap ByteArray loc → list (ByteArray * loc).

(** [build_snapshot]: the snapshot, or the error of the encoder. *)
Definition build_snapshot sm :
    outcome (StateMachineStore LeaderId Membership *
             Result (SnapshotMeta LeaderId Membership * ByteArray) string) :=
  kvs ← export_snapshot_data iter (sm_store sm);
  match to_vec (mkFullSnapshotData (last_applied_log sm) (last_membership sm) kvs) with
  | Err e => Ret (sm, Err e)
  | Ok data =>
      let idx := as_u64 (snapshot_idx sm + 1) in
      let meta := mkSnapshotMeta (last_applied_log sm) (last_membership sm) (last_applied_log sm, idx) in
      Ret (mkStateMachineStore (sm_store sm) (last_applied_log sm) (last_membership sm) idx
             (Some (mkStoredSnapshot meta data)), Ok (meta, data))
  end.

Definition install_snapshot sm (meta : SnapshotMeta LeaderId Membership) (data : ByteArray) :
    outcome (StateMachineStore LeaderId Membership * Result unit string) :=
  match from_slice data with
  | Err e => Ret (sm, Err e)
  | Ok recovered =>
      s ← import_snapshot_data (sm_store sm) (kv_entries recovered);
      Ret (mkStateMachineStore s (fsd_last_applied_log recovered) (fsd_last_membership recovered)
             (snapshot_idx sm) (Some (mkStoredSnapshot meta data)), Ok ())
  end.

Definition get_current_snapshot sm : option (SnapshotMeta LeaderId Membership * ByteArray) :=
  (λ s, (snap_meta s, snap_data s)) <$> current_snapshot sm.
End ops.
End StateMachine.

(** ** Lemmas: the log *)

Section log.
Context {LeaderId Membership Vote : Type}.
Implicit Types (st : LogStoreInner LeaderId Membership Vote) (es : list (Entry LeaderId Membership)).

Definition entry_index (e : Entry LeaderId Membership) : Z := index (log_id e).

Definition keyed es : BTreeMap Z (Entry LeaderId Membership) := (λ e, (entry_index e, e)) <$> es.

(** The log holds the entries [es], numbered from [start] on without a gap. *)
Definition log_repr st (start : Z) es : Prop :=
  log st = keyed es ∧ entry_index <$> es = seqZ start (Z.of_nat (length es)).

Lemma keyed_keys es : (keyed es).*1 = entry_index <$> es.
Proof. unfold keyed. by rewrite <- list_fmap_compose. Qed.

Lemma keyed_values es : (keyed es).*2 = es.
Proof. unfold keyed. rewrite <- list_fmap_compose. apply list_fmap_id. Qed.

Lemma keyed_wf start es : entry_index <$> es = seqZ start (Z.of_nat (length es)) → bt_wf (keyed es).
Proof. intros Hc. unfold bt_wf. rewrite keyed_keys, Hc. apply seqZ_sorted. Qed.

Lemma bt_insert_snoc {V} (m : BTreeMap Z V) k v :
  Forall (λ x, x < k) m.*1 → bt_insert m k v = m ++ [(k, v)].
Proof.
  induction m as [|[x y] m IH]; [done|]. simpl. intros Hall. inversion Hall as [|?? Hx Hm]; subst.
  assert (cmp k x = Gt) as -> by (apply Z.compare_gt_iff; lia). f_equal. by apply IH.
Qed.

(** [remove_range] keeps the entries outside the range. *)
Lemma remove_range_spec (l : BTreeMap Z (Entry LeaderId Membership)) r :
  bt_wf l → bad_bounds r = false →
  MemLogStore.remove_range l r = Ret (filter (λ kv, in_bounds r kv.1 = false) l).
Proof.
  intros Hwf Hb. unfold MemLogStore.remove_range. destruct (bt_range_ret l r Hb) as [found Hf].
  rewrite Hf, bind_ret. f_equal.
  assert (∀ (ks : list Z) (m : BTreeMap Z (Entry LeaderId Membership)), bt_wf m → bt_wf (foldl (λ l k, bt_remove l k) m ks) ∧
    ∀ k, bt_get (foldl (λ l k, bt_remove l k) m ks) k = if decide (k ∈ ks) then None else bt_get m k) as Hrm.
  { induction ks as [|x ks IH]; intros m Hm; cbn [foldl].
    { split; [done|]. intros k. by rewrite decide_False by (by intros ?%elem_of_nil). }
    destruct (IH (bt_remove m x) (bt_remove_wf _ _ Hm)) as [Hw Hg]. split; [done|]. intros k.
    rewrite Hg, bt_get_remove by done. destruct (decide (k ∈ ks)).
    { by rewrite decide_True by (by right). }
    destruct (decide (k = x)) as [->|Hne].
    - by rewrite cmp_refl, decide_True by (by left).
    - rewrite decide_False by (by intros [?|?]%elem_of_cons). destruct (cmp k x) eqn:E; [|done..].
      by apply cmp_eq in E. }
  destruct (Hrm found.*1 l Hwf) as [Hw Hg]. apply bt_ext; [done|by apply bt_filter_wf|].
  intros k. rewrite Hg.
  assert (k ∈ found.*1 ↔ in_bounds r k = true ∧ is_Some (bt_get l k)) as Hk.
  { rewrite list_elem_of_fmap. split.
    - intros ([k' v] & -> & Hin). apply (bt_range_elem _ _ _ _ _ Hf) in Hin as [Hin Hr].
      split; [done|]. exists v. by apply bt_get_Some_elem.
    - intros [Hr [v Hv]]. exists (k, v). split; [done|]. apply (bt_range_elem _ _ _ _ _ Hf).
      split; [|done]. by apply bt_get_Some_elem. }
  apply option_eq. intros v.
  rewrite (bt_get_Some_elem (filter _ l)) by (by apply bt_filter_wf).
  rewrite list_elem_of_filter, <- bt_get_Some_elem by done. simpl. case_decide as Hd.
  - apply Hk in Hd as [Hr _]. split; [done|]. intros [? _]. congruence.
  - split; [|by intros [_ ?]]. intros Hv. split; [|done]. destruct (in_bounds r k) eqn:E; [|done].
    exfalso. apply Hd, Hk. eauto.
Qed.

Lemma seqZ_drop_lookup start es i e :
  entry_index <$> es = seqZ start (Z.of_nat (length es)) → es !! i = Some e → entry_index e = start + Z.of_nat i.
Proof.
  intros Hc Hi. assert ((entry_index <$> es) !! i = Some (entry_index e)) as Hl
    by (by rewrite list_lookup_fmap, Hi).
  rewrite Hc in Hl. apply lookup_seqZ in Hl as [-> _]. done.
Qed.

(** Cutting a numbered list at a number. *)
Lemma filter_below start es i :
  entry_index <$> es = seqZ start (Z.of_nat (length es)) →
  filter (λ kv : Z * Entry LeaderId Membership, kv.1 < i) (keyed es)
    = keyed (take (Z.to_nat (i - start)) es).
Proof.
  intros Hc. rewrite <- (take_drop (Z.to_nat (i - start)) es) at 1.
  unfold keyed. rewrite fmap_app, filter_app, filter_all, filter_none, app_nil_r; [done|..].
  - apply Forall_fmap, Forall_forall. intros e He. simpl.
    apply list_elem_of_lookup in He as [j Hj]. rewrite lookup_drop in Hj.
    rewrite (seqZ_drop_lookup _ _ _ _ Hc Hj). lia.
  - apply Forall_fmap, Forall_forall. intros e He. simpl.
    apply list_elem_of_lookup in He as [j Hj]. apply lookup_take_Some in Hj as [Hj Hlt].
    rewrite (seqZ_drop_lookup _ _ _ _ Hc Hj). lia.
Qed.

Lemma filter_from start es i :
  entry_index <$> es = seqZ start (Z.of_nat (length es)) →
  filter (λ kv : Z * Entry LeaderId Membership, i ≤ kv.1) (keyed es)
    = keyed (drop (Z.to_nat (i - start)) es).
Proof.
  intros Hc. rewrite <- (take_drop (Z.to_nat (i - start)) es) at 1.
  unfold keyed. rewrite fmap_app, filter_app, filter_none, filter_all; [done|..].
  - apply Forall_fmap, Forall_forall. intros e He. simpl.
    apply list_elem_of_lookup in He as [j Hj]. rewrite lookup_drop in Hj.
    rewrite (seqZ_drop_lookup _ _ _ _ Hc Hj). lia.
  - apply Forall_fmap, Forall_forall. intros e He. simpl.
    apply list_elem_of_lookup in He as [j Hj]. apply lookup_take_Some in Hj as [Hj Hlt].
    rewrite (seqZ_drop_lookup _ _ _ _ Hc Hj). lia.
Qed.

Lemma numbered_take start es n :
  entry_index <$> es = seqZ start (Z.of_nat (length es)) →
  entry_index <$> take n es = seqZ start (Z.of_nat (length (take n es))).
Proof.
  intros Hc. rewrite fmap_take, Hc. apply list_eq. intros i. apply option_eq. intros z.
  rewrite lookup_take_Some, !lookup_seqZ, length_take. lia.
Qed.

Lemma numbered_drop start es n :
  entry_index <$> es = seqZ start (Z.of_nat (length es)) →
  entry_index <$> drop n es = seqZ (start + Z.of_nat n) (Z.of_nat (length (drop n es))).
Proof.
  intros Hc. rewrite fmap_drop, Hc. apply list_eq. intros i. apply option_eq. intros z.
  rewrite lookup_drop, !lookup_seqZ, length_drop. lia.
Qed.

Lemma append_repr st start es new :
  log_repr st start es →
  entry_index <$> new = seqZ (start + Z.of_nat (length es)) (Z.of_nat (length new)) →
  log_repr (MemLogStore.append st new) start (es ++ new).
Proof.
  intros [Hl Hc] Hn. unfold MemLogStore.append, log_repr. simpl. rewrite Hl. clear Hl. split.
  - revert es Hc Hn. induction new as [|e new IH]; intros es Hc Hn; simpl; [by rewrite app_nil_r|].
    csimpl in Hn. rewrite seqZ_cons in Hn by lia. injection Hn as He Hn. fold (entry_index e).
    rewrite bt_insert_snoc.
    2: { rewrite keyed_keys, Hc. apply Forall_forall. intros z ?%elem_of_seqZ. lia. }
    assert (keyed es ++ [(entry_index e, e)] = keyed (es ++ [e])) as Hk
      by (unfold keyed; by rewrite fmap_app). setoid_rewrite Hk.
    rewrite IH; [by rewrite <- app_assoc| |].
    + rewrite fmap_app, Hc, length_app. simpl. rewrite He, Nat2Z.inj_add, seqZ_app by lia. done.
    + rewrite Hn, length_app. simpl. f_equal; lia.
  - rewrite fmap_app, Hc, Hn, length_app, Nat2Z.inj_add, seqZ_app by lia. done.
Qed.

Lemma truncate_repr st start es id :
  log_repr st start es →
  ∃ st', MemLogStore.truncate st id = Ret st' ∧ last_purged_log_id st' = last_purged_log_id st ∧
    log_repr st' start (take (Z.to_nat (index id - start)) es).
Proof.
  intros [Hl Hc]. unfold MemLogStore.truncate.
  rewrite Hl, remove_range_spec by (done || by eapply keyed_wf). rewrite bind_ret.
  eexists. split; [done|]. split; [done|]. split; [simpl|by apply numbered_take].
  rewrite <- (filter_below start) by done. apply list_filter_iff. intros [k e]. simpl.
  unfold in_bounds. simpl. rewrite andb_true_r. change (oleb (index id) k) with (index id <=? k). lia.
Qed.

Lemma purge_repr st start es id :
  log_repr st start es → start ≤ index id + 1 →
  ∃ st', MemLogStore.purge st id = Ret st' ∧ last_purged_log_id st' = Some id ∧
    log_repr st' (index id + 1) (drop (Z.to_nat (index id + 1 - start)) es).
Proof.
  intros [Hl Hc] Hs. unfold MemLogStore.purge.
  rewrite Hl, remove_range_spec by (done || by eapply keyed_wf). rewrite bind_ret.
  eexists. split; [done|]. split; [done|]. split; simpl.
  - rewrite <- (filter_from start) by done. apply list_filter_iff. intros [k e]. simpl.
    unfold in_bounds. simpl. change (oleb k (index id)) with (k <=? index id). lia.
  - rewrite (numbered_drop start) by done. f_equal. lia.
Qed.

Lemma log_state_repr st start es :
  log_repr st start es →
  (MemLogStore.get_log_state st).2 =
    match last es with Some e => Some (log_id e) | None => last_purged_log_id st end.
Proof.
  intros [Hl _]. unfold MemLogStore.get_log_state. simpl. rewrite Hl. unfold keyed.
  rewrite fmap_last. by destruct (last es).
Qed.
End log.

(** ** Lemmas: the state machine *)

Section machine.
Context `{!BlockSize} {LeaderId Membership : Type}.
Implicit Types (sm : StateMachineStore LeaderId Membership).

(** The abstract effect of an entry. *)
Definition hist_request (h : history) (req : RaftRequest) : history :=
  match req with
  | RaftSet key v => (hist_set h key (Some v) None).1
  | RaftDelete key => (hist_set h key None None).1
  end.

Definition hist_entry (h : history) (e : Entry LeaderId Membership) : history :=
  match payload e with Normal req => hist_request h req | _ => h end.

(** The answer to an entry is the revision the store is at afterwards. *)
Fixpoint responses (h : history) (es : list (Entry LeaderId Membership)) : list Z :=
  match es with
  | [] => []
  | e :: es' => Z.of_nat (length (hist_entry h e)) :: responses (hist_entry h e) es'
  end.

Lemma hist_set_reply h key new :
  match (hist_set h key new None).2 with Ok rev => rev | Err e => e.1 end
  = Z.of_nat (length (hist_set h key new None).1).
Proof.
  unfold hist_set, hist_write. rewrite guard_code. unfold set_guard. simpl.
  destruct (value (latest_or_null h key)), new; simpl; rewrite ?length_app; simpl; lia.
Qed.

Lemma apply_request_spec s h req :
  store_repr s h → Z.of_nat (length h) < i64_max →
  ∃ s', StateMachine.apply_request s req = Ret (s', Z.of_nat (length (hist_request h req))) ∧
    store_repr s' (hist_request h req).
Proof.
  intros Hr Hlt. unfold StateMachine.apply_request, delete_key. destruct req as [k v|k].
  - destruct (set_spec s h k (Some v) None Hr Hlt) as (s' & Hs & Hr' & _).
    rewrite Hs, bind_ret. exists s'. split; [|done]. simpl. by rewrite hist_set_reply.
  - destruct (set_spec s h k None None Hr Hlt) as (s' & Hs & Hr' & _).
    rewrite Hs, bind_ret. exists s'. split; [|done]. simpl. by rewrite hist_set_reply.
Qed.

Lemma hist_entry_length h e : (length (hist_entry h e) ≤ S (length h))%nat.
Proof.
  unfold hist_entry, hist_request, hist_set, hist_write.
  destruct (payload e) as [|[k v|k]|]; simpl; try lia; destruct (guard _ _ _ _); simpl; rewrite ?length_app; simpl; lia.
Qed.

Lemma apply_entry_spec sm h e :
  store_repr (sm_store sm) h → Z.of_nat (length h) < i64_max →
  ∃ sm', StateMachine.apply_entry sm e = Ret (sm', Z.of_nat (length (hist_entry h e))) ∧
    store_repr (sm_store sm') (hist_entry h e) ∧ last_applied_log sm' = Some (log_id e) ∧
    last_membership sm' = match payload e with
                          | MembershipChange m => mkStoredMembership (Some (log_id e)) m
                          | _ => last_membership sm
                          end.
Proof.
  intros Hr Hlt. unfold StateMachine.apply_entry, hist_entry. destruct (payload e) as [|req|m]; simpl.
  - eexists. by rewrite (repr_current _ _ Hr).
  - destruct (apply_request_spec (sm_store sm) h req Hr Hlt) as (s' & -> & Hr').
    rewrite bind_ret. by eexists.
  - eexists. by rewrite (repr_current _ _ Hr).
Qed.

Lemma apply_spec sm h es :
  store_repr (sm_store sm) h → Z.of_nat (length h) + Z.of_nat (length es) ≤ i64_max →
  ∃ sm', StateMachine.apply sm es = Ret (sm', responses h es) ∧
    store_repr (sm_store sm') (foldl hist_entry h es) ∧
    last_applied_log sm' = match last es with Some e => Some (log_id e) | None => last_applied_log sm end.
Proof.
  revert sm h. induction es as [|e es IH]; intros sm h Hr Hl;
    cbn [StateMachine.apply responses foldl]; [by eauto|].
  simpl in Hl. destruct (apply_entry_spec sm h e Hr) as (sm1 & -> & Hr1 & Hla & _); [lia|].
  rewrite bind_ret. cbn [fst snd]. pose proof (hist_entry_length h e).
  destruct (IH sm1 (hist_entry h e) Hr1) as (sm' & -> & Hr' & Hla'); [lia|]. rewrite bind_ret.
  exists sm'. split; [done|]. split; [done|]. rewrite Hla', Hla, last_cons. by destruct (last es).
Qed.

Lemma responses_last h es :
  es ≠ [] → last (responses h es) = Some (Z.of_nat (length (foldl hist_entry h es))).
Proof.
  revert h. induction es as [|e es IH]; intros h Hne; [done|]. cbn [responses foldl].
  destruct es as [|e' es]; [done|]. rewrite last_cons, IH by done. done.
Qed.
End machine.

(** ** Properties *)

(** Replicas that apply the same log agree. Two state machines whose stores have the
    same history, whatever their watchers, logs and compactions, answer a batch of
    committed entries with the same revisions and end with the same history, and both
    record the last entry as applied. *)
Theorem replicas_agree `{!BlockSize} {LeaderId Membership : Type}
    (sm1 sm2 : StateMachineStore LeaderId Membership) h es :
  store_repr (sm_store sm1) h → store_repr (sm_store sm2) h → es ≠ [] →
  Z.of_nat (length h) + Z.of_nat (length es) ≤ i64_max →
  ∃ sm1' sm2' rs h',
    StateMachine.apply sm1 es = Ret (sm1', rs) ∧ StateMachine.apply sm2 es = Ret (sm2', rs) ∧
    store_repr (sm_store sm1') h' ∧ store_repr (sm_store sm2') h' ∧
    last_applied_log sm1' = log_id <$> last es ∧ last_applied_log sm2' = log_id <$> last es ∧
    length rs = length es ∧ last rs = Some (Z.of_nat (length h')).
Proof.
  intros H1 H2 Hne Hl. destruct (apply_spec sm1 h es H1 Hl) as (sm1' & E1 & R1 & A1).
  destruct (apply_spec sm2 h es H2 Hl) as (sm2' & E2 & R2 & A2).
  exists sm1', sm2', (responses h es), (foldl hist_entry h es).
  assert (is_Some (last es)) as [e He] by (destruct (last es) eqn:E; [done|by apply last_None in E]).
  rewrite He in *. split_and!; try done.
  - clear. revert h. induction es as [|e es IH]; intros h; simpl; [done|]. by rewrite IH.
  - by apply responses_last.
Qed.

Definition sample_sm (s : Store) : StateMachineStore Z unit :=
  mkStateMachineStore s None (mkStoredMembership None ()) 0 None.

Definition sample_entries : list (Entry Z unit) :=
  [mkEntry (mkLogId 1 1) Blank; mkEntry (mkLogId 1 2) (Normal (RaftSet (bytes "k") (bytes "v")));
   mkEntry (mkLogId 1 3) (Normal (RaftDelete (bytes "nope")))].

Lemma replicas_agree_witness :
  ∃ sm1' sm2' rs,
    StateMachine.apply (H:=block_size_2) (sample_sm sample_store) sample_entries = Ret (sm1', rs) ∧
    StateMachine.apply (H:=block_size_2) (sample_sm sample_store) sample_entries = Ret (sm2', rs) ∧
    length rs = 3%nat.
Proof.
  destruct (@replicas_agree block_size_2 Z unit (sample_sm sample_store) (sample_sm sample_store)
    (StoreTrace.hist sample_spec) sample_entries) as (sm1' & sm2' & rs & h' & E1 & E2 & _ & _ & _ & _ & Hlen & _).
  - apply sample_implements.
  - apply sample_implements.
  - discriminate.
  - vm_compute. discriminate.
  - exists sm1', sm2', rs. split; [exact E1|]. split; [exact E2|exact Hlen].
Defined.

(** C37: the Raft log is a gap-free sequence. While openraft appends at its end, truncates
    and purges as its storage contract says, the log holds the entries of a contiguous
    range of indexes: [append] extends it, [truncate] keeps the entries before the given
    index, [purge] those after it, and the log state names the last entry, or the last
    purged one when the log is empty. *)
Theorem raft_log_contiguous {LeaderId Membership Vote : Type}
    (st : LogStoreInner LeaderId Membership Vote) start es :
  log_repr st start es →
  (∀ new, entry_index <$> new = seqZ (start + Z.of_nat (length es)) (Z.of_nat (length new)) →
     log_repr (MemLogStore.append st new) start (es ++ new)) ∧
  (∀ id, ∃ st', MemLogStore.truncate st id = Ret st' ∧
     log_repr st' start (take (Z.to_nat (index id - start)) es)) ∧
  (∀ id, start ≤ index id + 1 → ∃ st', MemLogStore.purge st id = Ret st' ∧
     last_purged_log_id st' = Some id ∧
     log_repr st' (index id + 1) (drop (Z.to_nat (index id + 1 - start)) es)) ∧
  MemLogStore.get_log_state st =
    (last_purged_log_id st,
     match last es with Some e => Some (log_id e) | None => last_purged_log_id st end).
Proof.
  intros Hr. split; [|split; [|split]].
  - intros new Hn. by apply append_repr.
  - intros id. destruct (truncate_repr st start es id Hr) as (st' & ? & _ & ?). eauto.
  - intros id Hs. destruct (purge_repr st start es id Hr Hs) as (st' & ? & ? & ?). eauto.
  - rewrite <- (log_state_repr st start es Hr). done.
Qed.

Definition sample_log : LogStoreInner Z unit unit :=
  MemLogStore.append MemLogStore.default_store sample_entries.

Lemma raft_log_contiguous_witness :
  ∃ st', MemLogStore.purge sample_log (mkLogId 1 2) = Ret st' ∧
    log_repr st' 3 (drop 2 sample_entries).
Proof.
  assert (log_repr sample_log 1 sample_entries) as Hr by (split; vm_compute; reflexivity).
  destruct (raft_log_contiguous sample_log 1 sample_entries Hr) as (_ & _ & Hp & _).
  destruct (Hp (mkLogId 1 2)) as (st' & Hst & _ & Hl); [vm_compute; discriminate|].
  exists st'. split; [exact Hst|exact Hl].
Defined.

(** Installing a snapshot transfers the state. When the encoder and the decoder are
    inverse to each other, a snapshot built by one state machine and installed in another
    leaves there the same live keys with their values and metadata, the same applied log
    id and the same membership, and it becomes the current snapshot of both. *)
Theorem snapshot_transfers_state `{!BlockSize} {LeaderId Membership : Type}
    (to_vec : FullSnapshotData LeaderId Membership → Result ByteArray string)
    (from_slice : ByteArray → Result (FullSnapshotData LeaderId Membership) string)
    (iter : gmap ByteArray loc → list (ByteArray * loc))
    (sm1 sm2 : StateMachineStore LeaderId Membership) h :
  (∀ d, ∃ b, to_vec d = Ok b ∧ from_slice b = Ok d) → (∀ m, iter m ≡ₚ map_to_list m) →
  store_repr (sm_store sm1) h →
  ∃ sm1' sm2' meta data h',
    StateMachine.build_snapshot to_vec iter sm1 = Ret (sm1', Ok (meta, data)) ∧
    StateMachine.install_snapshot from_slice sm2 meta data = Ret (sm2', Ok ()) ∧
    store_repr (sm_store sm2') h' ∧
    (∀ k, live_at h' k (current_revision (sm_store sm2')) = live_at h k (current_revision (sm_store sm1))) ∧
    StateMachine.applied_state sm2' = StateMachine.applied_state sm1 ∧
    StateMachine.get_current_snapshot sm1' = Some (meta, data) ∧
    StateMachine.get_current_snapshot sm2' = Some (meta, data).
Proof.
  intros Hserde Hiter Hr.
  destruct (snapshot_roundtrip_spec iter (sm_store sm1) h (sm_store sm2) Hr (Hiter _))
    as (es & s3 & Hex & Him & Hr3 & _ & Hlive & _).
  destruct (Hserde (mkFullSnapshotData (last_applied_log sm1) (last_membership sm1) es)) as (b & Hto & Hfrom).
  unfold StateMachine.build_snapshot, StateMachine.install_snapshot.
  rewrite Hex, bind_ret, Hto. eexists _, _, _, _, _. split; [done|].
  rewrite Hfrom. simpl. rewrite Him, bind_ret. split; [done|].
  split_and!; [exact Hr3|exact Hlive|done|done|done].
Qed.

(** An encoding for the sample: the snapshot as a number, the number as its binary digits. *)
Fixpoint digits (p : positive) : ByteArray :=
  match p with
  | xI p' => Byte.x01 :: digits p'
  | xO p' => Byte.x00 :: digits p'
  | xH => []
  end.

Fixpoint undigits (l : ByteArray) : positive :=
  match l with
  | [] => xH
  | b :: l' => if bool_decide (b = Byte.x01) then xI (undigits l') else xO (undigits l')
  end.

Lemma undigits_digits p : undigits (digits p) = p.
Proof. induction p; simpl; [by rewrite IHp..|done]. Qed.

Definition snapshot_tuple (d : FullSnapshotData Z unit) :=
  let id (i : option (LogId Z)) := (λ x, (leader_id x, index x)) <$> i in
  (id (fsd_last_applied_log d), id (mem_log_id (fsd_last_membership d)),
   (λ e, (se_key e, se_value e, se_create_revision e, se_mod_revision e, se_version e)) <$> kv_entries d).

Definition tuple_snapshot (t : option (Z * Z) * option (Z * Z) * list (ByteArray * ByteArray * Z * Z * Z)) :
    FullSnapshotData Z unit :=
  let id (i : option (Z * Z)) := (λ x : Z * Z, mkLogId x.1 x.2) <$> i in
  mkFullSnapshotData (id t.1.1) (mkStoredMembership (id t.1.2) ())
    ((λ e : ByteArray * ByteArray * Z * Z * Z, mkSnapshotEntry e.1.1.1.1 e.1.1.1.2 e.1.1.2 e.1.2 e.2) <$> t.2).

Definition sample_to_vec (d : FullSnapshotData Z unit) : Result ByteArray string :=
  Ok (digits (encode (snapshot_tuple d))).

Definition sample_from_slice (b : ByteArray) : Result (FullSnapshotData Z unit) string :=
  match decode (undigits b) with
  | Some t => Ok (tuple_snapshot t)
  | None => Err "malformed"
  end.

Lemma sample_serde d : ∃ b, sample_to_vec d = Ok b ∧ sample_from_slice b = Ok d.
Proof.
  eexists. split; [done|]. unfold sample_from_slice. rewrite undigits_digits, decode_encode. f_equal.
  destruct d as [la [ml []] es]. unfold tuple_snapshot, snapshot_tuple. simpl. f_equal.
  - by destruct la as [[]|].
  - f_equal. by destruct ml as [[]|].
  - rewrite <- list_fmap_compose. rewrite <- (list_fmap_id es) at 2. apply list_fmap_ext. by intros _ [] _.
Qed.

Lemma snapshot_transfers_state_witness :
  ∃ sm1' sm2' meta data,
    StateMachine.build_snapshot sample_to_vec map_to_list (sample_sm sample_store)
      = Ret (sm1', Ok (meta, data)) ∧
    StateMachine.install_snapshot (H:=block_size_2) sample_from_slice (sample_sm (new_store None)) meta data
      = Ret (sm2', Ok ()).
Proof.
  destruct (@snapshot_transfers_state block_size_2 Z unit sample_to_vec sample_from_slice map_to_list
    (sample_sm sample_store) (sample_sm (new_store None)) (StoreTrace.hist sample_spec))
    as (sm1' & sm2' & meta & data & h' & Hb & Hi & _).
  - exact sample_serde.
  - reflexivity.
  - apply sample_implements.
  - exists sm1', sm2', meta, data. split; [exact Hb|exact Hi].
Defined.

(** A replica that caught up by a snapshot numbers its revisions differently: the leader
    put two keys and deleted the second; the entry that follows is revision 4 there and
    revision 2 on the replica. *)
Example snapshot_replica_diverges :
  let put k := mkEntry (mkLogId 1 1) (Normal (RaftSet (bytes k) (bytes "v"))) in
  match (r ← StateMachine.apply (H:=block_size_2) (sample_sm (new_store None))
               [put "a"; put "b"; mkEntry (mkLogId 1 3) (Normal (RaftDelete (bytes "b")))];
         es ← export_snapshot_data map_to_list (sm_store r.1);
         s ← import_snapshot_data (H:=block_size_2) (new_store None) es;
         leader ← StateMachine.apply (H:=block_size_2) r.1 [put "c"];
         replica ← StateMachine.apply (H:=block_size_2) (sample_sm s) [put "c"];
         Ret (leader.2, replica.2)) with
  | Ret (leader, replica) => leader = [4] ∧ replica = [2]
  | Panic _ => False
  end.
Proof. vm_compute. split; reflexivity. Qed.
