(* ===== verification/Replicas.v ===== *)
(** * Replicas (src/raft.rs, src/store.rs)

    [Raft] has one state machine: here several apply one committed log, each at its own
    pace, while snapshots are built on some and installed on others, and compactions, which
    are not replicated, run where they are asked for. What openraft adds is the order: the
    entries a node is given are the next ones of the log, and a snapshot is installed only
    where it is newer than what was applied. How far the stores agree depends on the
    snapshots; the sense of agreement is an interface with three instances. *)
From S2P Require Import Prelude Bytes BTreeMap BlockDeque Types Prefix History Store StoreSpec Snapshot WatchSpec StoreTrace StoreProps Raft.

(** ** The present of a history *)

(** The live value of a key. *)
Definition present (h : history) (k : ByteArray) : option Value := live_part (latest_of h k).

Lemma present_live h k : is_live (latest_or_null h k) = bool_decide (is_Some (present h k)).
Proof.
  unfold present, latest_or_null. destruct (latest_of h k) as [v|]; simpl; [|done]. by destruct (is_live v).
Qed.

(** What is written depends on the present only. *)
Lemma revised_present h k rev new :
  revised (latest_or_null h k) rev new = revised (default null_value (present h k)) rev new.
Proof.
  unfold present, latest_or_null. destruct (latest_of h k) as [v|]; [|done]. simpl.
  destruct (is_live v) eqn:E; [done|]. unfold revised. by rewrite E.
Qed.

Lemma present_write h k new k' :
  present (hist_write h k new) k' =
    if decide (k = k') then live_part (Some (revised (default null_value (present h k)) (Z.of_nat (length h) + 1) new))
    else present h k'.
Proof.
  unfold hist_write, present at 1. case_decide; [subst k'; by rewrite latest_of_snoc_eq, revised_present|].
  by rewrite latest_of_snoc_ne.
Qed.

(** Requests of the log: a put always writes, a delete when the key is there. *)
Lemma hist_request_put h k v : hist_request h (RaftSet k v) = hist_write h k (Some v).
Proof. simpl. unfold hist_set. rewrite guard_code. unfold set_guard. simpl. by destruct (value (latest_or_null h k)). Qed.

Lemma hist_request_delete h k :
  hist_request h (RaftDelete k) = if bool_decide (is_Some (present h k)) then hist_write h k None else h.
Proof.
  rewrite <- present_live. unfold is_live. simpl. unfold hist_set. rewrite guard_code. unfold set_guard. simpl.
  by destruct (value (latest_or_null h k)).
Qed.

Lemma hist_request_ok h req : hist_ok h → hist_ok (hist_request h req).
Proof.
  intros Hh. assert (∀ k new, hist_ok (hist_write h k new)) as Hw by (intros k new; by apply hist_ok_snoc).
  destruct req as [k v|k]; [rewrite hist_request_put|rewrite hist_request_delete; destruct (bool_decide _)]; auto.
Qed.

Lemma hist_entry_grows {LeaderId Membership} h (e : Entry LeaderId Membership) : (length h ≤ length (hist_entry h e))%nat.
Proof.
  unfold hist_entry. destruct (payload e) as [|[k v|k]|]; try done.
  - rewrite hist_request_put. unfold hist_write. rewrite length_app. lia.
  - rewrite hist_request_delete. destruct (bool_decide _); [|done]. unfold hist_write. rewrite length_app. lia.
Qed.

(** ** Senses of agreement *)

(** [R h g]: a store of history [h] agrees with one of history [g]. Applying entries keeps
    that, and so does a snapshot taken of a history that is [ok]. *)
Class Agreement (R : history → history → Prop) (ok : history → Prop) := {
  agree_refl h : R h h;
  agree_request h g req : R h g → R (hist_request h req) (hist_request g req);
  agree_import h g es : hist_ok h → hist_ok g → R h g → ok g → snapshot_of h es → R (imported_history es) g;
}.

(** The same history. No snapshot carries it. *)
#[export] Instance same_history : Agreement eq (λ _, False).
Proof. split; [done| |done]. by intros h g req ->. Qed.

(** The same revision, and the same keys with their values and metadata. *)
Definition same_present (h g : history) : Prop := length h = length g ∧ ∀ k, present h k = present g k.

(** The newest change is one of a live key. *)
Definition ends_live (h : history) : Prop := ∃ k v, last h = Some (Some (k, v)) ∧ is_live v = true.

Lemma ends_live_present h : hist_ok h → ends_live h → ∃ k v, present h k = Some v ∧ mod_revision v = Z.of_nat (length h).
Proof.
  intros Hh (k & v & Hl & Hv). exists k, v. apply last_Some in Hl as [h' ->]. split.
  - unfold present. rewrite latest_of_snoc_eq. simpl. by rewrite Hv.
  - rewrite length_app. simpl. rewrite (Hh (length h') k v); [lia|]. by apply list_lookup_middle.
Qed.

#[export] Instance same_present_agrees : Agreement same_present ends_live.
Proof.
  split; [done| |].
  - intros h g req [Hl Hp].
    assert (∀ k new, same_present (hist_write h k new) (hist_write g k new)) as Hw.
    { intros k new. split; [unfold hist_write; by rewrite !length_app, Hl|].
      intros k'. rewrite !present_write, Hl, Hp. by case_decide. }
    destruct req as [k v|k]; [by rewrite !hist_request_put|].
    rewrite !hist_request_delete, Hp. by destruct (bool_decide _).
  - intros h g es Hh Hg [Hl Hp] Hok Hs. split; [|intros k; rewrite <- Hp; by apply imported_live].
    unfold imported_history. rewrite length_fill, length_replicate.
    destruct (ends_live_present g Hg Hok) as (k & v & Hk & Hm). rewrite <- Hp in Hk.
    unfold present in Hk. destruct (latest_of h k) as [w|] eqn:Ew; [|done]. simpl in Hk.
    destruct (is_live w) eqn:Elive; [|done]. injection Hk as ->. apply is_live_spec in Elive as [b Hb].
    pose proof Hs as [_ Hes]. destruct (Hes (mkSnapshotEntry k b (create_revision v) (mod_revision v) (version v))) as [_ Hin].
    specialize (Hin ltac:(simpl; rewrite Ew; unfold entry_value; simpl; rewrite <- Hb; by destruct v)).
    pose proof (max_mod_revision_ge _ _ Hin) as Hge. simpl in Hge. pose proof (max_mod_revision_bound h es Hh Hs). lia.
Qed.

(** The same keys with the same values. *)
Definition same_values (h g : history) : Prop := ∀ k, present h k ≫= value = present g k ≫= value.

Lemma present_value h k : is_Some (present h k ≫= value) ↔ is_Some (present h k).
Proof.
  unfold present. destruct (latest_of h k) as [v|]; simpl; [|done]. destruct (is_live v) eqn:E; simpl; [|done].
  apply is_live_spec in E as [b ->]. split; by eauto.
Qed.

#[export] Instance same_values_agrees : Agreement same_values (λ _, True).
Proof.
  split; [done| |].
  - intros h g req Hv.
    assert (∀ k new, same_values (hist_write h k new) (hist_write g k new)) as Hw.
    { intros k new k'. rewrite !present_write. case_decide; [|done]. by destruct new. }
    destruct req as [k v|k]; [by rewrite !hist_request_put|]. rewrite !hist_request_delete.
    rewrite (bool_decide_ext (is_Some (present h k)) (is_Some (present g k))) by (rewrite <- !present_value; by rewrite Hv).
    by destruct (bool_decide _).
  - intros h g es _ _ Hv _ Hs k. rewrite <- Hv. unfold present. by rewrite (imported_live h).
Qed.

(** ** A cluster *)

Section cluster.
Context `{!BlockSize} {LeaderId Membership : Type}.
Notation SM := (StateMachineStore LeaderId Membership).

(** The parts of [StateMachine] that are not the program's, and the committed log. *)
Context (to_vec : FullSnapshotData LeaderId Membership → Result ByteArray string).
Context (from_slice : ByteArray → Result (FullSnapshotData LeaderId Membership) string).
Context (iter : gmap ByteArray loc → list (ByteArray * loc)).
Context (log : list (Entry LeaderId Membership)).

(** The position in the log after the entry named. *)
Definition next_index (id : option (LogId LeaderId)) : nat :=
  match id with Some id => S (Z.to_nat (index id)) | None => 0 end.

Definition applied (sm : SM) : nat := next_index (last_applied_log sm).

Inductive ClusterOp :=
(** A node is given the next entries. *)
| ApplyNext (i n : nat)
| BuildSnapshot (i : nat)
(** The current snapshot of [i] is sent to [j]. *)
| InstallFrom (i j : nat)
| CompactStore (i : nat) (rev : Z).

(** The nodes, when node [i] becomes what [f] makes of it. *)
Definition on_node (nodes : list SM) (i : nat) (f : SM → outcome SM) : outcome (list SM) :=
  match nodes !! i with
  | Some sm => sm' ← f sm; Ret (<[i := sm']> nodes)
  | None => Ret nodes
  end.

Definition cluster_step (nodes : list SM) (o : ClusterOp) : outcome (list SM) :=
  match o with
  | ApplyNext i n =>
      on_node nodes i (λ sm, r ← StateMachine.apply sm (take n (drop (applied sm) log)); Ret r.1)
  | BuildSnapshot i => on_node nodes i (λ sm, r ← StateMachine.build_snapshot to_vec iter sm; Ret r.1)
  | InstallFrom i j =>
      match nodes !! i ≫= StateMachine.get_current_snapshot with
      | Some (meta, data) =>
          on_node nodes j (λ sm,
            if bool_decide (applied sm < next_index (meta_last_log_id meta))%nat
            then r ← StateMachine.install_snapshot from_slice sm meta data; Ret r.1
            else Ret sm)
      | None => Ret nodes
      end
  | CompactStore i rev =>
      on_node nodes i (λ sm, r ← compact (sm_store sm) rev; Ret (StateMachine.with_store sm r.1))
  end.

Fixpoint cluster_run (nodes : list SM) (ops : list ClusterOp) : outcome (list SM) :=
  match ops with
  | [] => Ret nodes
  | o :: ops' => nodes' ← cluster_step nodes o; cluster_run nodes' ops'
  end.

(** The membership after some entries. *)
Definition members (m : StoredMembership LeaderId Membership) (es : list (Entry LeaderId Membership)) :=
  foldl (λ m e, match payload e with
                | MembershipChange x => mkStoredMembership (Some (log_id e)) x
                | _ => m
                end) m es.

(** The history of the first [n] entries, from the history the nodes start with. *)
Definition log_history (h0 : history) (n : nat) : history := foldl hist_entry h0 (take n log).

(** Snapshots are built where the log, that far, is [ok]. *)
Fixpoint builds_at (ok : history → Prop) (h0 : history) (nodes : list SM) (ops : list ClusterOp) : Prop :=
  match ops with
  | [] => True
  | o :: ops' =>
      match o with
      | BuildSnapshot i => ∀ sm, nodes !! i = Some sm → ok (log_history h0 (applied sm))
      | _ => True
      end ∧
      ∀ nodes', cluster_step nodes o = Ret nodes' → builds_at ok h0 nodes' ops'
  end.

Fixpoint check_builds (okb : history → bool) (h0 : history) (nodes : list SM) (ops : list ClusterOp) : bool :=
  match ops with
  | [] => true
  | o :: ops' =>
      match o with
      | BuildSnapshot i => from_option (λ sm, okb (log_history h0 (applied sm))) true (nodes !! i)
      | _ => true
      end &&
      match cluster_step nodes o with Ret nodes' => check_builds okb h0 nodes' ops' | Panic _ => true end
  end.

Lemma check_builds_at okb (ok : history → Prop) h0 nodes ops :
  (∀ h, okb h = true → ok h) → check_builds okb h0 nodes ops = true → builds_at ok h0 nodes ops.
Proof.
  intros Hb. revert nodes. induction ops as [|o ops IH]; intros nodes; simpl; [done|].
  intros [Ho Hops]%andb_prop. split.
  - destruct o; try done. intros sm Hi. rewrite Hi in Ho. by apply Hb.
  - intros nodes' Hs. rewrite Hs in Hops. by apply IH.
Qed.

(** ** The nodes follow the log *)

Context (R : history → history → Prop) (ok : history → Prop) {HR : Agreement R ok}.
Context (h0 : history) (m0 : StoredMembership LeaderId Membership).

Hypothesis Hserde : ∀ d, ∃ b, to_vec d = Ok b ∧ from_slice b = Ok d.
Hypothesis Hiter : ∀ m, iter m ≡ₚ map_to_list m.
Hypothesis Hlog : entry_index <$> log = seqZ 0 (Z.of_nat (length log)).
Hypothesis Hh0 : hist_ok h0.
Hypothesis Hroom : Z.of_nat (length h0) + Z.of_nat (length log) ≤ i64_max.

Notation log_id_at n := (log_id <$> last (take n log)).

(** A state after the first [n] entries: the last id, the membership, and a history that
    agrees with that of the log. *)
Record at_position (n : nat) (id : option (LogId LeaderId)) (m : StoredMembership LeaderId Membership) (h : history) : Prop := {
  ap_bound : (n ≤ length log)%nat;
  ap_id : id = log_id_at n;
  ap_members : m = members m0 (take n log);
  ap_agrees : R h (log_history h0 n);
  ap_length : (length h ≤ length h0 + n)%nat;
}.

Record follows (sm : SM) : Prop := {
  fo_state : ∃ n h, at_position n (last_applied_log sm) (last_membership sm) h ∧ store_repr (sm_store sm) h;
  fo_snapshot : ∀ meta data, StateMachine.get_current_snapshot sm = Some (meta, data) →
    ∃ n es, from_slice data = Ok (mkFullSnapshotData (meta_last_log_id meta) (meta_last_membership meta) es) ∧
      snapshot_ok es ∧ at_position n (meta_last_log_id meta) (meta_last_membership meta) (imported_history es);
}.

Lemma next_index_at n : (n ≤ length log)%nat → next_index (log_id_at n) = n.
Proof.
  intros Hn. destruct n as [|n]; [by rewrite take_0|].
  destruct (lookup_lt_is_Some_2 log n) as [e He]; [lia|].
  rewrite (take_S_r _ _ _ He), last_snoc. simpl. f_equal.
  assert ((entry_index <$> log) !! n = Some (entry_index e)) as Hi by (by rewrite list_lookup_fmap, He).
  rewrite Hlog in Hi. apply lookup_seqZ in Hi as [Hi _]. unfold entry_index in Hi. lia.
Qed.

Lemma at_position_next n id m h : at_position n id m h → next_index id = n.
Proof. intros [Hn -> _ _ _]. by apply next_index_at. Qed.

Lemma log_history_ok n : hist_ok (log_history h0 n).
Proof.
  unfold log_history. revert Hh0. clear. generalize (take n log) as es. intros es. revert h0.
  induction es as [|e es IH]; intros h Hh; simpl; [done|]. apply IH. unfold hist_entry.
  destruct (payload e); [done|by apply hist_request_ok|done].
Qed.

Lemma agree_entry h g (e : Entry LeaderId Membership) : R h g → R (hist_entry h e) (hist_entry g e).
Proof. intros Hh. unfold hist_entry. destruct (payload e); [done|by apply (agree_request (ok := ok))|done]. Qed.

(** One more entry. *)
Lemma apply_entry_follows sm n h e :
  at_position n (last_applied_log sm) (last_membership sm) h → store_repr (sm_store sm) h → log !! n = Some e →
  ∃ sm' z, StateMachine.apply_entry sm e = Ret (sm', z) ∧ current_snapshot sm' = current_snapshot sm ∧
    store_repr (sm_store sm') (hist_entry h e) ∧
    at_position (S n) (last_applied_log sm') (last_membership sm') (hist_entry h e).
Proof.
  intros [Hn Hid Hm Ha Hl] Hr He. pose proof (lookup_lt_Some _ _ _ He) as Hlt.
  destruct (apply_entry_spec sm h e Hr) as (sm' & Hap & Hr' & Hla & Hmem); [lia|].
  eexists sm', _. split; [exact Hap|]. split.
  { unfold StateMachine.apply_entry in Hap. destruct (payload e) as [|req|x]; [by injection Hap as <- _| |by injection Hap as <- _].
    apply bind_ret_inv in Hap as (r & _ & [= <- _]). done. }
  split; [done|]. split; [lia| | | |pose proof (hist_entry_length h e); lia].
  - by rewrite Hla, (take_S_r _ _ _ He), last_snoc.
  - rewrite Hmem, Hm, (take_S_r _ _ _ He). unfold members. rewrite foldl_app. simpl. done.
  - unfold log_history. rewrite (take_S_r _ _ _ He), foldl_app. simpl. by apply agree_entry.
Qed.

Lemma apply_follows sm c n h :
  at_position n (last_applied_log sm) (last_membership sm) h → store_repr (sm_store sm) h →
  ∃ sm' zs n' h', StateMachine.apply sm (take c (drop n log)) = Ret (sm', zs) ∧
    current_snapshot sm' = current_snapshot sm ∧ store_repr (sm_store sm') h' ∧
    at_position n' (last_applied_log sm') (last_membership sm') h'.
Proof.
  revert sm n h. induction c as [|c IH]; intros sm n h Hap Hr.
  { rewrite take_0. by exists sm, [], n, h. }
  destruct (log !! n) as [e|] eqn:He.
  - rewrite (drop_S _ _ _ He). cbn [take StateMachine.apply].
    destruct (apply_entry_follows sm n h e Hap Hr He) as (sm1 & z & -> & Hs & Hr1 & Hap1).
    destruct (IH sm1 (S n) _ Hap1 Hr1) as (sm2 & zs & n' & h' & Hap2 & Hs2 & Hr2 & Hp2).
    rewrite bind_ret. simpl. rewrite Hap2, bind_ret. eexists sm2, _, n', h'. split_and!; [done|congruence|done|done].
  - apply lookup_ge_None in He. rewrite drop_ge by done. rewrite take_nil. by exists sm, [], n, h.
Qed.

Lemma build_follows sm :
  follows sm → ok (log_history h0 (applied sm)) →
  ∃ sm' r, StateMachine.build_snapshot to_vec iter sm = Ret (sm', r) ∧ follows sm'.
Proof.
  intros [(n & h & Hp & Hr) _] Hok. unfold applied in Hok. rewrite (at_position_next _ _ _ _ Hp) in Hok.
  destruct (export_spec iter (sm_store sm) h Hr (Hiter _)) as (es & Hex & Hses & Hin).
  destruct (Hserde (mkFullSnapshotData (last_applied_log sm) (last_membership sm) es)) as (b & Hto & Hfrom).
  unfold StateMachine.build_snapshot. rewrite Hex, bind_ret, Hto. eexists _, _. split; [done|].
  split; [by exists n, h|]. simpl. intros meta data [= <- <-]. exists n, es. simpl. split; [done|]. split; [done|].
  destruct Hp as [Hn Hid Hm Ha Hl]. split; try done.
  - by apply (agree_import h _ es (sr_hist _ _ Hr) (log_history_ok n) Ha Hok).
  - unfold imported_history. rewrite length_fill, length_replicate.
    pose proof (max_mod_revision_bound h es (sr_hist _ _ Hr) (conj Hses Hin)). lia.
Qed.

Lemma install_follows sm i meta data :
  follows i → StateMachine.get_current_snapshot i = Some (meta, data) →
  ∃ sm' r, StateMachine.install_snapshot from_slice sm meta data = Ret (sm', r) ∧ follows sm'.
Proof.
  intros [_ Hs] Hc. destruct (Hs _ _ Hc) as (n & es & Hfrom & Hok & Hp).
  unfold StateMachine.install_snapshot. rewrite Hfrom. simpl.
  destruct (import_repr (sm_store sm) es Hok) as (s' & Him & Hr' & _). rewrite Him, bind_ret.
  eexists _, _. split; [done|]. split; [by exists n, (imported_history es)|].
  simpl. intros meta' data' [= <- <-]. by exists n, es.
Qed.

Lemma compact_follows sm rev :
  follows sm → ∃ s' r, compact (sm_store sm) rev = Ret (s', r) ∧ follows (StateMachine.with_store sm s').
Proof.
  intros [(n & h & Hp & Hr) Hs]. assert (∃ s' r, compact (sm_store sm) rev = Ret (s', r) ∧ store_repr s' h) as (s' & r & Hc & Hr').
  { destruct (decide (first_index (sm_store sm) < rev ≤ Z.of_nat (length h))) as [Hin|Hout].
    - destruct (compact_ok_spec _ _ _ Hr Hin) as (s' & Hc & Hr' & _). eauto.
    - destruct (compact_err_spec _ _ rev Hr) as [e Hc]; [lia|]. eauto. }
  exists s', r. split; [done|]. split; [by exists n, h|done].
Qed.

Lemma on_node_follows nodes i f :
  Forall follows nodes → (∀ sm, nodes !! i = Some sm → follows sm → ∃ sm', f sm = Ret sm' ∧ follows sm') →
  ∃ nodes', on_node nodes i f = Ret nodes' ∧ Forall follows nodes' ∧ length nodes' = length nodes.
Proof.
  intros Hall Hf. unfold on_node. destruct (nodes !! i) as [sm|] eqn:Hi; [|by exists nodes].
  destruct (Hf sm eq_refl) as (sm' & -> & Hsm'); [by eapply Forall_lookup_1|]. rewrite bind_ret.
  eexists. split; [done|]. split; [by apply Forall_insert|apply length_insert].
Qed.

Lemma cluster_step_follows nodes o :
  Forall follows nodes →
  (∀ i sm, o = BuildSnapshot i → nodes !! i = Some sm → ok (log_history h0 (applied sm))) →
  ∃ nodes', cluster_step nodes o = Ret nodes' ∧ Forall follows nodes' ∧ length nodes' = length nodes.
Proof.
  intros Hall Hok. destruct o as [i c|i|i j|i rev]; simpl.
  - apply on_node_follows; [done|]. intros sm _ [(n & h & Hp & Hr) Hs]. unfold applied.
    rewrite (at_position_next _ _ _ _ Hp). destruct (apply_follows sm c n h Hp Hr) as (sm' & zs & n' & h' & -> & Hc & Hr' & Hp').
    rewrite bind_ret. eexists. split; [done|]. split; [by eauto|]. unfold StateMachine.get_current_snapshot. simpl. by rewrite Hc.
  - apply on_node_follows; [done|]. intros sm Hi Hsm. destruct (build_follows sm Hsm (Hok i sm eq_refl Hi)) as (sm' & r & -> & Hf).
    rewrite bind_ret. by eexists.
  - destruct (nodes !! i ≫= _) as [[meta data]|] eqn:Hc; [|by exists nodes]. apply bind_Some in Hc as (smi & Hi & Hc).
    apply on_node_follows; [done|]. intros sm Hj Hsm. case_bool_decide; [|by eexists].
    destruct (install_follows sm smi meta data) as (sm' & r & -> & Hf); [by eapply Forall_lookup_1|done|].
    rewrite bind_ret. by eexists.
  - apply on_node_follows; [done|]. intros sm _ Hsm. destruct (compact_follows sm rev Hsm) as (s' & r & -> & Hf).
    rewrite bind_ret. by eexists.
Qed.

Lemma cluster_run_follows nodes ops :
  Forall follows nodes → builds_at ok h0 nodes ops →
  ∃ nodes', cluster_run nodes ops = Ret nodes' ∧ Forall follows nodes' ∧ length nodes' = length nodes.
Proof.
  revert nodes. induction ops as [|o ops IH]; intros nodes Hall Hok; simpl; [by exists nodes|].
  destruct Hok as [Ho Hok]. destruct (cluster_step_follows nodes o Hall) as (nodes1 & H1 & Hall1 & Hl1).
  { intros i sm ->. apply Ho. }
  rewrite H1, bind_ret. destruct (IH nodes1 Hall1 (Hok _ H1)) as (nodes' & Hr & Hall' & Hl). exists nodes'. by rewrite Hl.
Qed.
End cluster.

Lemma log_history_grows {LeaderId Membership} (log : list (Entry LeaderId Membership)) h0 n :
  (length h0 ≤ length (log_history log h0 n))%nat.
Proof.
  unfold log_history. generalize (take n log) as es. intros es. revert h0.
  induction es as [|e es IH]; intros h; simpl; [done|]. pose proof (hist_entry_grows h e). specialize (IH (hist_entry h e)). lia.
Qed.

(** ** Reading the present *)

#[export] Instance same_present_equivalence : Equivalence same_present.
Proof.
  split.
  - done.
  - by intros h g [Hl Hp].
  - intros h g f [Hl Hp] [Hl' Hp']. split; [congruence|]. intros k. by rewrite Hp.
Qed.

Lemma found_present h c k : found h c k (read_revision h 0) = present h k.
Proof.
  assert (read_revision h 0 = Z.of_nat (length h)) as -> by done. rewrite found_live_latest by done.
  unfold live_at, present, live_part. by rewrite value_at_full.
Qed.

Lemma range_present_same `{!BlockSize} s s' h h' start end_ limit :
  store_repr s h → store_repr s' h' → same_present h h' → h ≠ [] → bounds_ok start end_ →
  0 ≤ default usize_max limit → range s start end_ 0 limit = range s' start end_ 0 limit.
Proof.
  intros Hr Hr' [Hl Hp] Hne Hb Hlim. unfold bounds_ok in Hb.
  assert (h' ≠ []) as Hne' by (intros ->; by destruct h).
  destruct (prefix_and_range_of_key start end_) as [[p r]|e] eqn:Ep.
  - destruct (range_spec_gen s h start end_ 0 limit p r) as (f1 & E1 & S1 & I1); [done|by left|done..|].
    destruct (range_spec_gen s' h' start end_ 0 limit p r) as (f2 & E2 & S2 & I2); [done|by left|done..|].
    rewrite E1, E2, Hl. assert (f1 = f2) as ->; [|done].
    apply sorted_keys_unique; [done|done|]. intros x. rewrite I1, I2.
    setoid_rewrite found_present. by setoid_rewrite Hp.
  - unfold range. by rewrite (repr_current _ _ Hr), (repr_current _ _ Hr'), Ep, Hl.
Qed.

(** ** Properties *)

(** A node before its first entry, with the history and the membership all start with. *)
Definition starts {LeaderId Membership} `{!BlockSize} (h0 : history) (m0 : StoredMembership LeaderId Membership)
    (sm : StateMachineStore LeaderId Membership) : Prop :=
  StateMachine.applied_state sm = (None, m0) ∧ current_snapshot sm = None ∧ store_repr (sm_store sm) h0.

Lemma starts_follows {LeaderId Membership} `{!BlockSize} from_slice log R ok `{!Agreement R ok} h0 m0
    (sm : StateMachineStore LeaderId Membership) :
  starts h0 m0 sm → follows from_slice log R h0 m0 sm.
Proof.
  intros ([= Hla Hm] & Hs & Hr). split.
  - exists 0%nat, h0. split; [|done]. split; rewrite ?take_0; try done; [lia|apply (agree_refl (ok := ok))|lia].
  - unfold StateMachine.get_current_snapshot. by rewrite Hs.
Qed.

(** C32: replicas follow the log. Any number of nodes start with one history; each applies
    the next entries of the committed log when it is given them, snapshots are built and
    sent to nodes that are behind, and stores are compacted, in any order. Nothing panics;
    each node is, with the log id and the membership it records, at a position of the log,
    and its store agrees with the history of the log up to there. Agreement is an argument:
    the whole history while no snapshot is built; revision, keys, values and metadata of the
    present when snapshots are built only where the newest change is of a live key; keys
    with their values in any case. *)
Theorem replicas_converge `{!BlockSize} {LeaderId Membership} to_vec from_slice iter
    (log : list (Entry LeaderId Membership)) R ok `{!Agreement R ok} h0 m0 nodes ops :
  (∀ d, ∃ b, to_vec d = Ok b ∧ from_slice b = Ok d) → (∀ m, iter m ≡ₚ map_to_list m) →
  entry_index <$> log = seqZ 0 (Z.of_nat (length log)) → hist_ok h0 →
  Z.of_nat (length h0) + Z.of_nat (length log) ≤ i64_max →
  Forall (starts h0 m0) nodes → builds_at to_vec from_slice iter log ok h0 nodes ops →
  ∃ nodes', cluster_run to_vec from_slice iter log nodes ops = Ret nodes' ∧ length nodes' = length nodes ∧
    ∀ i sm, nodes' !! i = Some sm →
      ∃ h, (applied sm ≤ length log)%nat ∧ store_repr (sm_store sm) h ∧ R h (log_history log h0 (applied sm)) ∧
        StateMachine.applied_state sm = (log_id <$> last (take (applied sm) log), members m0 (take (applied sm) log)).
Proof.
  intros Hserde Hiter Hlog Hh0 Hroom Hstart Hb.
  destruct (cluster_run_follows to_vec from_slice iter log R ok h0 m0 Hserde Hiter Hlog Hh0 Hroom nodes ops)
    as (nodes' & Hrun & Hall & Hl); [|done|].
  { eapply Forall_impl; [exact Hstart|]. intros sm. by apply (starts_follows _ _ _ ok). }
  exists nodes'. split; [done|]. split; [done|]. intros i sm Hi.
  destruct (Forall_lookup_1 _ _ _ _ Hall Hi) as [(n & h & Hp & Hr) _].
  pose proof (at_position_next log R h0 m0 Hlog _ _ _ _ Hp) as Hn. fold (applied sm) in Hn. rewrite Hn.
  exists h. destruct Hp as [Hbd Hid Hm Ha _]. split_and!; try done. unfold StateMachine.applied_state. by rewrite Hid, Hm.
Qed.

(** C33: replicas answer alike. Nodes of one cluster that have applied the same entries, and
    caught up by snapshots built where the newest change is of a live key, give the same
    answer to every read of the present, revision included. *)
Theorem replicas_read_alike `{!BlockSize} {LeaderId Membership} to_vec from_slice iter
    (log : list (Entry LeaderId Membership)) h0 m0 nodes ops nodes' i j smi smj start end_ limit :
  (∀ d, ∃ b, to_vec d = Ok b ∧ from_slice b = Ok d) → (∀ m, iter m ≡ₚ map_to_list m) →
  entry_index <$> log = seqZ 0 (Z.of_nat (length log)) → hist_ok h0 → h0 ≠ [] →
  Z.of_nat (length h0) + Z.of_nat (length log) ≤ i64_max →
  Forall (starts h0 m0) nodes → builds_at to_vec from_slice iter log ends_live h0 nodes ops →
  cluster_run to_vec from_slice iter log nodes ops = Ret nodes' →
  nodes' !! i = Some smi → nodes' !! j = Some smj → last_applied_log smi = last_applied_log smj →
  bounds_ok start end_ → 0 ≤ default usize_max limit →
  range (sm_store smi) start end_ 0 limit = range (sm_store smj) start end_ 0 limit.
Proof.
  intros Hserde Hiter Hlog Hh0 Hne Hroom Hstart Hb Hrun Hi Hj Hij Hbd Hlim.
  destruct (cluster_run_follows to_vec from_slice iter log same_present ends_live h0 m0 Hserde Hiter Hlog Hh0 Hroom nodes ops)
    as (nodes1 & Hrun1 & Hall & _); [|done|].
  { eapply Forall_impl; [exact Hstart|]. intros sm. by apply (starts_follows _ _ _ ends_live). }
  rewrite Hrun in Hrun1. injection Hrun1 as <-.
  destruct (Forall_lookup_1 _ _ _ _ Hall Hi) as [(n & h & Hp & Hr) _].
  destruct (Forall_lookup_1 _ _ _ _ Hall Hj) as [(n' & h' & Hp' & Hr') _].
  assert (n = n') as <-.
  { rewrite <- (at_position_next log same_present h0 m0 Hlog _ _ _ _ Hp).
    rewrite <- (at_position_next log same_present h0 m0 Hlog _ _ _ _ Hp'). by rewrite Hij. }
  destruct Hp as [_ _ _ Ha _], Hp' as [_ _ _ Ha' _]. apply (range_present_same _ _ h h'); try done.
  - by rewrite Ha, Ha'.
  - pose proof (log_history_grows log h0 n). destruct Ha as [Hl _]. intros ->. simpl in Hl. by destruct h0; simpl in *; [|lia].
Qed.

(** ** A sample cluster *)

Definition ends_live_b (h : history) : bool :=
  match last h with Some (Some (_, v)) => is_live v | _ => false end.

Lemma ends_live_b_true h : ends_live_b h = true → ends_live h.
Proof. unfold ends_live_b, ends_live. destruct (last h) as [[[k v]|]|]; by eauto. Qed.

Definition cluster_log : list (Entry Z unit) :=
  [mkEntry (mkLogId 1 0) (MembershipChange ());
   mkEntry (mkLogId 1 1) (Normal (RaftSet (bytes "/r/a") (bytes "1")));
   mkEntry (mkLogId 1 2) (Normal (RaftSet (bytes "/r/b") (bytes "2")));
   mkEntry (mkLogId 1 3) (Normal (RaftDelete (bytes "/r/a")));
   mkEntry (mkLogId 1 4) (Normal (RaftSet (bytes "/r/c") (bytes "3")));
   mkEntry (mkLogId 1 5) (Normal (RaftDelete (bytes "/r/b")))].

Definition cluster_start : list (StateMachineStore Z unit) := replicate 3 (sample_sm sample_store).

(** The first node is ahead, and the second catches up from its snapshot. *)
Definition cluster_ops : list ClusterOp :=
  [ApplyNext 0 5; BuildSnapshot 0; InstallFrom 0 1; ApplyNext 1 1; CompactStore 0 4; ApplyNext 0 1; ApplyNext 2 2].

Definition cluster_end : outcome (list (StateMachineStore Z unit)) :=
  cluster_run (H:=block_size_2) sample_to_vec sample_from_slice map_to_list cluster_log cluster_start cluster_ops.

Lemma cluster_starts :
  Forall (starts (H:=block_size_2) (StoreTrace.hist sample_spec) (mkStoredMembership None ())) cluster_start.
Proof. repeat (apply Forall_cons_2; [split_and!; [done|done|apply sample_implements]|]). apply Forall_nil_2. Qed.

Lemma cluster_builds :
  builds_at (H:=block_size_2) sample_to_vec sample_from_slice map_to_list cluster_log ends_live
    (StoreTrace.hist sample_spec) cluster_start cluster_ops.
Proof. apply (check_builds_at _ _ _ _ ends_live_b _ _ _ _ ends_live_b_true). vm_compute. reflexivity. Qed.

Lemma sample_hist_ok : hist_ok (StoreTrace.hist sample_spec).
Proof. apply (sr_hist (H:=block_size_2) sample_store), sample_implements. Qed.

Lemma replicas_converge_witness :
  ∃ nodes, cluster_end = Ret nodes ∧ ∀ i sm, nodes !! i = Some sm →
    ∃ h, store_repr (H:=block_size_2) (sm_store sm) h ∧
      same_present h (log_history cluster_log (StoreTrace.hist sample_spec) (applied sm)).
Proof.
  destruct (@replicas_converge block_size_2 Z unit sample_to_vec sample_from_slice map_to_list cluster_log same_present
    ends_live same_present_agrees (StoreTrace.hist sample_spec) (mkStoredMembership None ()) cluster_start cluster_ops)
    as (nodes & Hrun & _ & Hall).
  - exact sample_serde.
  - reflexivity.
  - vm_compute. reflexivity.
  - exact sample_hist_ok.
  - vm_compute. discriminate.
  - exact cluster_starts.
  - exact cluster_builds.
  - exists nodes. split; [exact Hrun|]. intros i sm Hi. destruct (Hall i sm Hi) as (h & _ & Hr & Hp & _). exists h. split; [exact Hr|exact Hp].
Defined.

Definition cluster_node (i : nat) : option (StateMachineStore Z unit) :=
  match cluster_end with Ret nodes => nodes !! i | Panic _ => None end.

Definition is_ret {A} (x : outcome A) : bool := match x with Ret _ => true | Panic _ => false end.

Lemma replicas_read_alike_witness :
  ∃ sm0 sm1, cluster_node 0 = Some sm0 ∧ cluster_node 1 = Some sm1 ∧ last_applied_log sm0 = Some (mkLogId 1 5) ∧
    range (H:=block_size_2) (sm_store sm0) (bytes "/r/") (bytes "/r0") 0 None =
    range (H:=block_size_2) (sm_store sm1) (bytes "/r/") (bytes "/r0") 0 None.
Proof.
  assert (is_ret cluster_end = true) as Hret by (vm_compute; reflexivity).
  assert (last_applied_log <$> cluster_node 0 = Some (Some (mkLogId 1 5))) as H0 by (vm_compute; reflexivity).
  assert (last_applied_log <$> cluster_node 1 = Some (Some (mkLogId 1 5))) as H1 by (vm_compute; reflexivity).
  apply fmap_Some in H0 as (sm0 & E0 & L0). apply fmap_Some in H1 as (sm1 & E1 & L1).
  exists sm0, sm1. split; [exact E0|]. split; [exact E1|]. split; [symmetry; exact L0|]. unfold cluster_node in E0, E1.
  destruct cluster_end as [nodes|m] eqn:E; [|discriminate Hret].
  apply (@replicas_read_alike block_size_2 Z unit sample_to_vec sample_from_slice map_to_list cluster_log
    (StoreTrace.hist sample_spec) (mkStoredMembership None ()) cluster_start cluster_ops nodes 0 1 sm0 sm1).
  - exact sample_serde.
  - reflexivity.
  - vm_compute. reflexivity.
  - exact sample_hist_ok.
  - vm_compute. discriminate.
  - vm_compute. discriminate.
  - exact cluster_starts.
  - exact cluster_builds.
  - exact E.
  - exact E0.
  - exact E1.
  - congruence.
  - vm_compute. reflexivity.
  - vm_compute. discriminate.
Defined.
