(* ===== verification/RaftNet.v ===== *)
(** * The Raft network (src/raft.rs)

    How openraft's messages get from node to node: the in-memory router with its RPC loop,
    and the gRPC client and server. Both encode the request, find the target, let its node
    handle the message and decode the answer. openraft's node, serde's JSON and tonic's
    connections are arguments. *)
From S2P Require Import Prelude Bytes BTreeMap Types.

(** ** What is used of serde and openraft *)

(** [serde_json::to_vec] and [serde_json::from_slice] at a type. *)
Class Serde (A : Type) := {
  to_vec : A → Result ByteArray string;
  from_slice : ByteArray → Result A string;
}.

Class SerdeLaws (A : Type) `{!Serde A} : Prop :=
  serde_roundtrip : ∀ a : A, ∃ b, to_vec a = Ok b ∧ from_slice b = Ok a.

(** [RaftError<NodeId, E>]; [RPCError<NodeId, BasicNode, RaftError<NodeId, E>>], an
    [Unreachable] with the text it carries. *)
Inductive RaftError (Fatal E : Type) :=
| APIError (e : E)
| FatalError (f : Fatal).
Arguments APIError {Fatal E} e.
Arguments FatalError {Fatal E} f.

Inductive RPCError (Fatal E : Type) :=
| Unreachable (text : string) (args : list FmtArg)
| RemoteError (target : Z) (e : RaftError Fatal E).
Arguments Unreachable {Fatal E} text args.
Arguments RemoteError {Fatal E} target e.

(** The message types of openraft. *)
Class RaftTypes := {
  AppendReq : Type; AppendResp : Type;
  VoteReq : Type; VoteResp : Type;
  SnapReq : Type; SnapResp : Type;
  Fatal : Type; SnapErr : Type;
  fatal_text : Fatal → string;
}.

Class RaftSerde `{!RaftTypes} := {
  #[global] append_req_serde :: Serde AppendReq;
  #[global] append_res_serde :: Serde (Result AppendResp (RaftError Fatal Empty_set));
  #[global] vote_req_serde :: Serde VoteReq;
  #[global] vote_res_serde :: Serde (Result VoteResp (RaftError Fatal Empty_set));
  #[global] snap_req_serde :: Serde SnapReq;
  #[global] snap_res_serde :: Serde (Result SnapResp (RaftError Fatal SnapErr));
}.

Class RaftSerdeLaws `{!RaftTypes, !RaftSerde} : Prop := {
  #[global] append_req_laws :: SerdeLaws AppendReq;
  #[global] append_res_laws :: SerdeLaws (Result AppendResp (RaftError Fatal Empty_set));
  #[global] vote_req_laws :: SerdeLaws VoteReq;
  #[global] vote_res_laws :: SerdeLaws (Result VoteResp (RaftError Fatal Empty_set));
  #[global] snap_req_laws :: SerdeLaws SnapReq;
  #[global] snap_res_laws :: SerdeLaws (Result SnapResp (RaftError Fatal SnapErr));
}.

(** A node: what openraft does with the three messages, on its state [NS]. *)
Record Peer `{!RaftTypes} (NS : Type) := mkPeer {
  append_entries : AppendReq → NS → outcome (NS * Result AppendResp (RaftError Fatal Empty_set));
  vote : VoteReq → NS → outcome (NS * Result VoteResp (RaftError Fatal Empty_set));
  install_snapshot : SnapReq → NS → outcome (NS * Result SnapResp (RaftError Fatal SnapErr));
}.
Arguments append_entries {_ NS} p req ns.
Arguments vote {_ NS} p req ns.
Arguments install_snapshot {_ NS} p req ns.

Section net.
Context `{!RaftTypes, !RaftSerde} {NS : Type} (peer : Peer NS).

(** ** The receiving side *)

(** One branch of a dispatcher: decode the request, let the node handle it, encode its
    answer. The errors are those of the decoder and the encoder. *)
Definition handle {Req Res} `{!Serde Req, !Serde Res} (call : Req → NS → outcome (NS * Res))
    (data : ByteArray) (ns : NS) : outcome (NS * Result ByteArray (string + string)) :=
  match from_slice data with
  | Err e => Ret (ns, Err (inl e))
  | Ok req =>
      r ← call req ns;
      Ret (r.1, match to_vec r.2 with Ok b => Ok b | Err e => Err (inr e) end)
  end.

(** The body of [run_raft_rpc_loop]: what is sent back on the response channel. *)
Definition rpc_loop_body (path : string) (data : ByteArray) (ns : NS) :
    outcome (NS * Result ByteArray (string * list FmtArg)) :=
  let loop_error (e : string + string) : string * list FmtArg :=
    match e with inl e => ("deserialize error: {}"%string, [AText e]) | inr e => (e, []) end in
  let answer (m : outcome (NS * Result ByteArray (string + string))) :=
    r ← m; Ret (r.1, match r.2 with Ok b => Ok b | Err e => Err (loop_error e) end) in
  if String.eqb path "/raft/append" then answer (handle (append_entries peer) data ns)
  else if String.eqb path "/raft/vote" then answer (handle (vote peer) data ns)
  else if String.eqb path "/raft/snapshot" then answer (handle (install_snapshot peer) data ns)
  else Ret (ns, Err ("unknown path: {}"%string, [AText path])).

Record RaftPayload := mkRaftPayload { rp_path : string; rp_data : ByteArray }.

(** [RaftGrpcService::raft_rpc] *)
Definition raft_rpc (req : RaftPayload) (ns : NS) : outcome (NS * Result RaftPayload Status) :=
  let respond (name_in name_out : string) (m : outcome (NS * Result ByteArray (string + string))) :=
    r ← m;
    Ret (r.1, match r.2 with
              | Ok b => Ok (mkRaftPayload "" b)
              | Err (inl e) => Err (mkStatus InvalidArgument name_in [AText e])
              | Err (inr e) => Err (mkStatus Internal name_out [AText e])
              end) in
  if String.eqb (rp_path req) "/raft/append" then
    respond "deserialize append_entries: {}"%string "serialize append_entries resp: {}"%string
      (handle (append_entries peer) (rp_data req) ns)
  else if String.eqb (rp_path req) "/raft/vote" then
    respond "deserialize vote: {}"%string "serialize vote resp: {}"%string
      (handle (vote peer) (rp_data req) ns)
  else if String.eqb (rp_path req) "/raft/snapshot" then
    respond "deserialize install_snapshot: {}"%string "serialize install_snapshot resp: {}"%string
      (handle (install_snapshot peer) (rp_data req) ns)
  else Ret (ns, Err (mkStatus NotFound "unknown raft rpc path: {}" [AText (rp_path req)])).

(** ** The answer as openraft sees it *)

(** The last match of [send] and [grpc_send]; the error type without cases is openraft's
    [Infallible]. *)
Definition plain_answer {Resp} (r : Result Resp (RaftError Fatal Empty_set)) :
    Result Resp (RPCError Fatal Empty_set) :=
  match r with
  | Ok x => Ok x
  | Err (APIError e) => match e with end
  | Err (FatalError f) => Err (Unreachable (fatal_text f) [])
  end.

(** That of the two [install_snapshot]s. *)
Definition snapshot_answer (target : Z) (r : Result SnapResp (RaftError Fatal SnapErr)) :
    Result SnapResp (RPCError Fatal SnapErr) :=
  match r with
  | Ok x => Ok x
  | Err (APIError e) => Err (RemoteError target (APIError e))
  | Err (FatalError f) => Err (Unreachable (fatal_text f) [])
  end.

(** ** The in-memory router *)

(** [targets] maps a node to its channel; [loops] has for each channel the node behind it,
    none once its loop has ended. *)
Record Router := mkRouter {
  targets : BTreeMap Z nat;
  loops : list (option NS);
}.

Definition router_new : Router := mkRouter [] [].

(** [register], and the loop that is then started on the receiver. *)
Definition register (r : Router) (id : Z) (ns : NS) : Router :=
  mkRouter (bt_insert (targets r) id (length (loops r))) (loops r ++ [Some ns]).

Definition unregister (r : Router) (id : Z) : Router :=
  mkRouter (bt_remove (targets r) id) (loops r).

(** The part [send] and [Connection::install_snapshot] share: encode, look the target up,
    send, and wait for the response. A task that panics drops the response channel. *)
Definition exchange {Req E} `{!Serde Req} (r : Router) (to : Z) (path : string) (req : Req) :
    Router * Result ByteArray (RPCError Fatal E) :=
  match to_vec req with
  | Err e => (r, Err (Unreachable e []))
  | Ok data =>
      match bt_get (targets r) to with
      | None => (r, Err (Unreachable "node {} not found" [AInt to]))
      | Some tx =>
          match loops r !! tx with
          | Some (Some ns) =>
              match rpc_loop_body path data ns with
              | Ret (ns', Ok b) => (mkRouter (targets r) (<[tx := Some ns']> (loops r)), Ok b)
              | Ret (ns', Err (text, args)) =>
                  (mkRouter (targets r) (<[tx := Some ns']> (loops r)), Err (Unreachable text args))
              | Panic _ => (r, Err (Unreachable "node {} dropped response" [AInt to]))
              end
          | _ => (r, Err (Unreachable "node {} channel closed" [AInt to]))
          end
      end
  end.

(** [Router::send] *)
Definition send {Req Resp} `{!Serde Req, !Serde (Result Resp (RaftError Fatal Empty_set))}
    (r : Router) (to : Z) (path : string) (req : Req) : Router * Result Resp (RPCError Fatal Empty_set) :=
  match exchange r to path req with
  | (r', Err e) => (r', Err e)
  | (r', Ok b) =>
      match from_slice b with
      | Err e => (r', Err (Unreachable "deserialize error: {}" [AText e]))
      | Ok result => (r', plain_answer result)
      end
  end.

(** [Connection] *)
Definition conn_append_entries (r : Router) (target : Z) (req : AppendReq) :
    Router * Result AppendResp (RPCError Fatal Empty_set) :=
  send r target "/raft/append" req.

Definition conn_vote (r : Router) (target : Z) (req : VoteReq) :
    Router * Result VoteResp (RPCError Fatal Empty_set) :=
  send r target "/raft/vote" req.

Definition conn_install_snapshot (r : Router) (target : Z) (req : SnapReq) :
    Router * Result SnapResp (RPCError Fatal SnapErr) :=
  match exchange r target "/raft/snapshot" req with
  | (r', Err e) => (r', Err e)
  | (r', Ok b) =>
      match from_slice b with
      | Err e => (r', Err (Unreachable "deserialize error: {}" [AText e]))
      | Ok result => (r', snapshot_answer target result)
      end
  end.

(** ** The gRPC client *)

(** Why tonic gave no channel to an address. *)
Inductive ConnectError := InvalidUri (e : string) | ConnectFailed (e : string).

(** The other processes, by channel; a channel leads to a node, or to none that answers. *)
Abbreviation Remote := (list (option NS)).

(** tonic: [Channel::from_shared(..).connect()], and a call on a channel. openraft: how an
    RPC error is displayed. *)
Variable connect : ByteArray → Remote → Result nat ConnectError.
Variable transport : nat → RaftPayload → Remote → Remote * Result RaftPayload Status.
Variable display : string → list FmtArg → string.

Record GrpcRouter := mkGrpcRouter {
  gr_peers : BTreeMap Z ByteArray;
  gr_channels : BTreeMap Z nat;
}.

Definition grpc_router_new (peers : list (Z * ByteArray)) : GrpcRouter :=
  mkGrpcRouter (foldl (λ m p, bt_insert m p.1 p.2) [] peers) [].

(** [get_channel]: the cached channel, or a new one to the peer's address. *)
Definition get_channel (g : GrpcRouter) (target : Z) (w : Remote) :
    GrpcRouter * Result nat (string * list FmtArg) :=
  match bt_get (gr_channels g) target with
  | Some ch => (g, Ok ch)
  | None =>
      match bt_get (gr_peers g) target with
      | None => (g, Err ("node {} address not found"%string, [AInt target]))
      | Some addr =>
          match connect (bytes "http://" ++ addr) w with
          | Err (InvalidUri e) => (g, Err ("invalid address {}: {}"%string, [ALossy addr; AText e]))
          | Err (ConnectFailed e) => (g, Err ("connect to {} failed: {}"%string, [ALossy addr; AText e]))
          | Ok ch => (mkGrpcRouter (gr_peers g) (bt_insert (gr_channels g) target ch), Ok ch)
          end
      end
  end.

(** [grpc_send] *)
Definition grpc_send {Req Resp} `{!Serde Req, !Serde (Result Resp (RaftError Fatal Empty_set))}
    (g : GrpcRouter) (target : Z) (path : string) (req : Req) (w : Remote) :
    GrpcRouter * Remote * Result Resp (RPCError Fatal Empty_set) :=
  match get_channel g target w with
  | (g', Err (text, args)) => (g', w, Err (Unreachable text args))
  | (g', Ok ch) =>
      match to_vec req with
      | Err e => (g', w, Err (Unreachable "serialize request: {}" [AText e]))
      | Ok data =>
          match transport ch (mkRaftPayload path data) w with
          | (w', Err e) => (g', w', Err (Unreachable "gRPC call to {} failed: {}" [AInt target; AStatus e]))
          | (w', Ok resp) =>
              match from_slice (rp_data resp) with
              | Err e => (g', w', Err (Unreachable "deserialize response: {}" [AText e]))
              | Ok result => (g', w', plain_answer result)
              end
          end
      end
  end.

(** [grpc_send_snapshot] *)
Definition grpc_send_snapshot (g : GrpcRouter) (target : Z) (req : SnapReq) (w : Remote) :
    GrpcRouter * Remote * Result SnapResp (RPCError Fatal SnapErr) :=
  match get_channel g target w with
  | (g', Err (text, args)) => (g', w, Err (Unreachable (display text args) []))
  | (g', Ok ch) =>
      match to_vec req with
      | Err e => (g', w, Err (Unreachable e []))
      | Ok data =>
          match transport ch (mkRaftPayload "/raft/snapshot" data) w with
          | (w', Err e) => (g', w', Err (Unreachable "gRPC call to {} failed: {}" [AInt target; AStatus e]))
          | (w', Ok resp) =>
              match from_slice (rp_data resp) with
              | Err e => (g', w', Err (Unreachable "deserialize: {}" [AText e]))
              | Ok result => (g', w', snapshot_answer target result)
              end
          end
      end
  end.

(** [GrpcConnection] *)
Definition grpc_append_entries (g : GrpcRouter) (target : Z) (req : AppendReq) (w : Remote) :
    GrpcRouter * Remote * Result AppendResp (RPCError Fatal Empty_set) :=
  grpc_send g target "/raft/append" req w.

Definition grpc_vote (g : GrpcRouter) (target : Z) (req : VoteReq) (w : Remote) :
    GrpcRouter * Remote * Result VoteResp (RPCError Fatal Empty_set) :=
  grpc_send g target "/raft/vote" req w.

Definition grpc_install_snapshot (g : GrpcRouter) (target : Z) (req : SnapReq) (w : Remote) :
    GrpcRouter * Remote * Result SnapResp (RPCError Fatal SnapErr) :=
  grpc_send_snapshot g target req w.

(** tonic delivers a call to the node behind the channel and returns its response. *)
Definition delivers (w : Remote) (ch : nat) (ns : NS) : Prop :=
  w !! ch = Some (Some ns) ∧
  ∀ p ns' r, raft_rpc p ns = Ret (ns', r) → transport ch p w = (<[ch := Some ns']> w, r).
End net.

(** ** Lemmas *)

Section lemmas.
Context `{!RaftTypes, !RaftSerde, !RaftSerdeLaws} {NS : Type} (peer : Peer NS).

(** A request that was encoded is handled, and its answer can be decoded. *)
Lemma handle_encoded {Req Res} `{!Serde Req, !Serde Res, !SerdeLaws Req, !SerdeLaws Res}
    (call : Req → NS → outcome (NS * Res)) req ns ns' res :
  call req ns = Ret (ns', res) →
  ∃ data b, to_vec req = Ok data ∧ handle call data ns = Ret (ns', Ok b) ∧ from_slice b = Ok res.
Proof.
  intros Hc. destruct (serde_roundtrip req) as (data & Hd & Hreq).
  destruct (serde_roundtrip res) as (b & Hb & Hres). exists data, b. split; [done|]. split; [|done].
  unfold handle. rewrite Hreq, Hc, bind_ret. simpl. by rewrite Hb.
Qed.

(** The paths lead to their handlers. *)
Lemma loop_append data ns ns' b :
  handle (append_entries peer) data ns = Ret (ns', Ok b) →
  rpc_loop_body peer "/raft/append" data ns = Ret (ns', Ok b) ∧
  raft_rpc peer (mkRaftPayload "/raft/append" data) ns = Ret (ns', Ok (mkRaftPayload "" b)).
Proof. intros Hh. unfold rpc_loop_body, raft_rpc. simpl. by rewrite Hh. Qed.

Lemma loop_vote data ns ns' b :
  handle (vote peer) data ns = Ret (ns', Ok b) →
  rpc_loop_body peer "/raft/vote" data ns = Ret (ns', Ok b) ∧
  raft_rpc peer (mkRaftPayload "/raft/vote" data) ns = Ret (ns', Ok (mkRaftPayload "" b)).
Proof. intros Hh. unfold rpc_loop_body, raft_rpc. simpl. by rewrite Hh. Qed.

Lemma loop_snapshot data ns ns' b :
  handle (install_snapshot peer) data ns = Ret (ns', Ok b) →
  rpc_loop_body peer "/raft/snapshot" data ns = Ret (ns', Ok b) ∧
  raft_rpc peer (mkRaftPayload "/raft/snapshot" data) ns = Ret (ns', Ok (mkRaftPayload "" b)).
Proof. intros Hh. unfold rpc_loop_body, raft_rpc. simpl. by rewrite Hh. Qed.

Lemma exchange_handled {Req E} `{!Serde Req} (r : Router) to path (req : Req) tx ns ns' data b :
  bt_get (targets r) to = Some tx → loops r !! tx = Some (Some ns) → to_vec req = Ok data →
  rpc_loop_body peer path data ns = Ret (ns', Ok b) →
  exchange (E := E) peer r to path req = (mkRouter (targets r) (<[tx := Some ns']> (loops r)), Ok b).
Proof. intros Ht Hl Hd Hb. unfold exchange. by rewrite Hd, Ht, Hl, Hb. Qed.
End lemmas.

(** ** Properties *)

(** Both transports carry the messages of Raft unchanged. When serde decodes what it
    encoded and the target is registered and answers (for gRPC: a channel to it was obtained
    and tonic delivers on it), each of the three RPCs runs the target's handler once on the
    request, leaves there the state the handler left, touches no other node, and returns the
    handler's answer: a success as it is, an API error of a snapshot as a remote error, a
    fatal error as an unreachable target. So the in-memory router, which the tests use, and
    the gRPC transport agree. *)
Theorem transports_agree `{!RaftTypes, !RaftSerde, !RaftSerdeLaws} {NS : Type} (peer : Peer NS)
    connect transport display (r : Router) (g g' : GrpcRouter) (w : list (option NS)) target tx ch ns :
  bt_get (targets r) target = Some tx → loops r !! tx = Some (Some ns) →
  get_channel connect g target w = (g', Ok ch) → delivers peer transport w ch ns →
  (∀ req ns' res, append_entries peer req ns = Ret (ns', res) →
     conn_append_entries peer r target req
       = (mkRouter (targets r) (<[tx := Some ns']> (loops r)), plain_answer res) ∧
     grpc_append_entries connect transport g target req w = (g', <[ch := Some ns']> w, plain_answer res)) ∧
  (∀ req ns' res, vote peer req ns = Ret (ns', res) →
     conn_vote peer r target req
       = (mkRouter (targets r) (<[tx := Some ns']> (loops r)), plain_answer res) ∧
     grpc_vote connect transport g target req w = (g', <[ch := Some ns']> w, plain_answer res)) ∧
  (∀ req ns' res, install_snapshot peer req ns = Ret (ns', res) →
     conn_install_snapshot peer r target req
       = (mkRouter (targets r) (<[tx := Some ns']> (loops r)), snapshot_answer target res) ∧
     grpc_install_snapshot connect transport display g target req w
       = (g', <[ch := Some ns']> w, snapshot_answer target res)).
Proof.
  intros Ht Hl Hg [Hw Hdel]. split; [|split]; intros req ns' res Hc;
    destruct (handle_encoded _ _ _ _ _ Hc) as (data & b & Hd & Hh & Hb).
  - destruct (loop_append _ _ _ _ _ Hh) as [Hloop Hrpc].
    unfold conn_append_entries, send, grpc_append_entries, grpc_send.
    rewrite (exchange_handled _ _ _ _ _ _ _ _ _ _ Ht Hl Hd Hloop), Hg, Hd, (Hdel _ _ _ Hrpc). simpl. by rewrite Hb.
  - destruct (loop_vote _ _ _ _ _ Hh) as [Hloop Hrpc].
    unfold conn_vote, send, grpc_vote, grpc_send.
    rewrite (exchange_handled _ _ _ _ _ _ _ _ _ _ Ht Hl Hd Hloop), Hg, Hd, (Hdel _ _ _ Hrpc). simpl. by rewrite Hb.
  - destruct (loop_snapshot _ _ _ _ _ Hh) as [Hloop Hrpc].
    unfold conn_install_snapshot, grpc_install_snapshot, grpc_send_snapshot.
    rewrite (exchange_handled _ _ _ _ _ _ _ _ _ _ Ht Hl Hd Hloop), Hg, Hd, (Hdel _ _ _ Hrpc). simpl. by rewrite Hb.
Qed.

(** ** An instance: byte strings as messages, a node that keeps what it was sent *)

Definition sample_types : RaftTypes := {|
  AppendReq := ByteArray; AppendResp := ByteArray; VoteReq := ByteArray; VoteResp := ByteArray;
  SnapReq := ByteArray; SnapResp := ByteArray; Fatal := ByteArray; SnapErr := ByteArray;
  fatal_text := String.string_of_list_byte;
|}.

Definition bytes_serde : Serde ByteArray := {| to_vec := Ok; from_slice := Ok |}.

(** A tag byte and the bytes. *)
Definition plain_serde : Serde (Result ByteArray (RaftError ByteArray Empty_set)) := {|
  to_vec r := match r with
              | Ok b => Ok (Byte.x00 :: b)
              | Err (FatalError f) => Ok (Byte.x01 :: f)
              | Err (APIError e) => match (e : Empty_set) with end
              end;
  from_slice b := match b with
                  | Byte.x00 :: b' => Ok (Ok b')
                  | Byte.x01 :: b' => Ok (Err (FatalError b'))
                  | _ => Err "invalid tag"%string
                  end |}.

Definition snap_serde : Serde (Result ByteArray (RaftError ByteArray ByteArray)) := {|
  to_vec r := match r with
              | Ok b => Ok (Byte.x00 :: b)
              | Err (FatalError f) => Ok (Byte.x01 :: f)
              | Err (APIError e) => Ok (Byte.x02 :: e)
              end;
  from_slice b := match b with
                  | Byte.x00 :: b' => Ok (Ok b')
                  | Byte.x01 :: b' => Ok (Err (FatalError b'))
                  | Byte.x02 :: b' => Ok (Err (APIError b'))
                  | _ => Err "invalid tag"%string
                  end |}.

Definition sample_raft_serde : RaftSerde (H:=sample_types) :=
  Build_RaftSerde sample_types bytes_serde plain_serde bytes_serde plain_serde bytes_serde snap_serde.

Lemma sample_raft_laws : RaftSerdeLaws (H:=sample_types) (H0:=sample_raft_serde).
Proof.
  split; intros a; try (by exists a); destruct a as [b|[e|f]]; try done;
    first [by exists (Byte.x00 :: b) | by exists (Byte.x01 :: f) | by exists (Byte.x02 :: e)].
Qed.

Definition sample_peer : Peer (H:=sample_types) (list ByteArray) :=
  mkPeer sample_types (list ByteArray)
    (λ req ns, Ret (req :: ns, Ok req)) (λ req ns, Ret (ns, Err (FatalError (bytes "stopped"))))
    (λ req ns, Ret (ns, Err (APIError req))).

Definition sample_transport (ch : nat) (p : RaftPayload) (w : list (option (list ByteArray))) :
    list (option (list ByteArray)) * Result RaftPayload Status :=
  match w !! ch with
  | Some (Some ns) =>
      match raft_rpc (H:=sample_types) (H0:=sample_raft_serde) sample_peer p ns with
      | Ret (ns', r) => (<[ch := Some ns']> w, r)
      | Panic _ => (w, Err (mkStatus Internal "" []))
      end
  | _ => (w, Err (mkStatus Unavailable "" []))
  end.

Lemma transports_agree_witness :
  conn_append_entries (H:=sample_types) (H0:=sample_raft_serde) sample_peer
    (register (register router_new 1 []) 2 []) 2 (bytes "entry")
  = (mkRouter [(1, 0%nat); (2, 1%nat)] [Some []; Some [bytes "entry"]], Ok (bytes "entry")) ∧
  grpc_append_entries (H:=sample_types) (H0:=sample_raft_serde) (λ _ _, Ok 1%nat) sample_transport
    (grpc_router_new [(2, bytes "host:2379")]) 2 (bytes "entry") [Some []; Some []]
  = (mkGrpcRouter [(2, bytes "host:2379")] [(2, 1%nat)], [Some []; Some [bytes "entry"]], Ok (bytes "entry")).
Proof.
  destruct (@transports_agree sample_types sample_raft_serde sample_raft_laws (list ByteArray) sample_peer
    (λ _ _, Ok 1%nat) sample_transport (λ t _, t) (register (register router_new 1 []) 2 [])
    (grpc_router_new [(2, bytes "host:2379")]) (mkGrpcRouter [(2, bytes "host:2379")] [(2, 1%nat)])
    [Some []; Some []] 2 1 1 []) as (Happ & _ & _).
  - reflexivity.
  - reflexivity.
  - reflexivity.
  - split; [reflexivity|]. intros p ns' r Hr. unfold sample_transport. simpl. rewrite Hr. reflexivity.
  - exact (Happ (bytes "entry") [bytes "entry"] (Ok (bytes "entry")) eq_refl).
Defined.
