(* ===== verification/Peers.v ===== *)
(** * The peer list of the command line (src/raft.rs, [parse_peers])

    Parsing of "1@host:port,2@host:port": [split], [trim], [splitn] and the parsing of the
    node id are those of Rust's strings, on their UTF-8 bytes. *)
From S2P Require Import Prelude Bytes Types Prefix.

(** ** Strings *)

(** The encodings of the characters with the White_Space property. *)
Definition white_space : list ByteArray :=
  [[Byte.x09]; [Byte.x0a]; [Byte.x0b]; [Byte.x0c]; [Byte.x0d]; [Byte.x20];
   [Byte.xc2; Byte.x85]; [Byte.xc2; Byte.xa0]; [Byte.xe1; Byte.x9a; Byte.x80];
   [Byte.xe2; Byte.x80; Byte.x80]; [Byte.xe2; Byte.x80; Byte.x81]; [Byte.xe2; Byte.x80; Byte.x82];
   [Byte.xe2; Byte.x80; Byte.x83]; [Byte.xe2; Byte.x80; Byte.x84]; [Byte.xe2; Byte.x80; Byte.x85];
   [Byte.xe2; Byte.x80; Byte.x86]; [Byte.xe2; Byte.x80; Byte.x87]; [Byte.xe2; Byte.x80; Byte.x88];
   [Byte.xe2; Byte.x80; Byte.x89]; [Byte.xe2; Byte.x80; Byte.x8a]; [Byte.xe2; Byte.x80; Byte.xa8];
   [Byte.xe2; Byte.x80; Byte.xa9]; [Byte.xe2; Byte.x80; Byte.xaf]; [Byte.xe2; Byte.x81; Byte.x9f];
   [Byte.xe3; Byte.x80; Byte.x80]].

(** Drops leading characters out of [chars]; one turn takes at least a byte. *)
Fixpoint strip (chars : list ByteArray) (fuel : nat) (l : ByteArray) : ByteArray :=
  match fuel with
  | O => l
  | S fuel' =>
      match list_find (λ c, starts_with l c = true) chars with
      | Some (_, c) => strip chars fuel' (drop (length c) l)
      | None => l
      end
  end.

Definition trim_start (l : ByteArray) : ByteArray := strip white_space (length l) l.
Definition trim_end (l : ByteArray) : ByteArray :=
  reverse (strip (reverse <$> white_space) (length l) (reverse l)).
Definition trim (l : ByteArray) : ByteArray := trim_end (trim_start l).

(** [str::split(sep)] *)
Fixpoint split (sep : byte) (l : ByteArray) : list ByteArray :=
  match l with
  | [] => [[]]
  | b :: l' =>
      match split sep l' with
      | seg :: segs => if bool_decide (b = sep) then [] :: seg :: segs else (b :: seg) :: segs
      | [] => [[b]]
      end
  end.

(** [str::parse::<u64>()]: an optional plus sign and decimal digits, without overflow. *)
Definition digit_of (b : byte) : option Z :=
  let z := byte_val b in if in_byte_range 48 57 z then Some (z - 48) else None.

Fixpoint parse_digits (acc : Z) (l : ByteArray) : option Z :=
  match l with
  | [] => Some acc
  | b :: l' =>
      d ← digit_of b;
      let acc' := acc * 10 + d in
      if acc' <? u64_modulus then parse_digits acc' l' else None
  end.

Definition plus : byte := Byte.x2b.

Definition parse_u64 (l : ByteArray) : option Z :=
  let digits := match l with b :: l' => if bool_decide (b = plus) then l' else l | [] => [] end in
  match digits with [] => None | _ => parse_digits 0 digits end.

(** ** The list *)

Inductive PeersError := InvalidEntry (entry : ByteArray) | InvalidId.

Definition comma : byte := Byte.x2c.
Definition at_sign : byte := Byte.x40.

(** The loop over the entries; empty ones are skipped. *)
Fixpoint parse_entries (entries : list ByteArray) : Result (list (Z * ByteArray)) PeersError :=
  match entries with
  | [] => Ok []
  | entry :: entries' =>
      let entry := trim entry in
      if bool_decide (entry = []) then parse_entries entries'
      else match splitn 2 at_sign entry with
           | [id; addr] =>
               match parse_u64 (trim id) with
               | None => Err InvalidId
               | Some id =>
                   match parse_entries entries' with
                   | Ok peers => Ok ((id, trim addr) :: peers)
                   | Err e => Err e
                   end
               end
           | _ => Err (InvalidEntry entry)
           end
  end.

Definition parse_peers (peers_str : ByteArray) : Result (list (Z * ByteArray)) PeersError :=
  parse_entries (split comma peers_str).

Example parse_peers_sample :
  parse_peers (bytes " 1@host1:2379, 2@[::1]:2379 ,,3@a@b") =
    Ok [(1, bytes "host1:2379"); (2, bytes "[::1]:2379"); (3, bytes "a@b")] ∧
  parse_peers (bytes "1@h,nonsense") = Err (InvalidEntry (bytes "nonsense")) ∧
  parse_peers (bytes "x@h") = Err InvalidId ∧
  parse_peers (bytes "18446744073709551616@h") = Err InvalidId ∧
  parse_peers (bytes "") = Ok [].
Proof. vm_compute. done. Qed.

(** ** Writing a list *)

Fixpoint decimal (fuel : nat) (n : Z) : ByteArray :=
  match fuel with
  | O => []
  | S fuel' => (if n <? 10 then [] else decimal fuel' (n / 10)) ++ [byte_of (48 + n mod 10)]
  end.

(** A 64-bit number has at most 20 digits. *)
Definition show_u64 (n : Z) : ByteArray := decimal 20 n.

Definition show_entry (peer : Z * ByteArray) : ByteArray := show_u64 peer.1 ++ [at_sign] ++ peer.2.

Fixpoint join (sep : byte) (segs : list ByteArray) : ByteArray :=
  match segs with
  | [] => []
  | [seg] => seg
  | seg :: segs' => seg ++ [sep] ++ join sep segs'
  end.

Definition show_peers (peers : list (Z * ByteArray)) : ByteArray := join comma (show_entry <$> peers).

(** ** Lemmas *)

Lemma parse_digits_app acc l1 l2 :
  parse_digits acc (l1 ++ l2) = parse_digits acc l1 ≫= λ a, parse_digits a l2.
Proof.
  revert acc. induction l1 as [|b l1 IH]; intros acc; simpl; [done|].
  destruct (digit_of b) as [d|]; simpl; [|done]. by destruct (_ <? _).
Qed.

Lemma digit_of_digit d : 0 ≤ d < 10 → digit_of (byte_of (48 + d)) = Some d.
Proof.
  intros Hd. unfold digit_of. rewrite byte_val_of, Z.mod_small by lia. unfold in_byte_range.
  destruct (Z.leb_spec 48 (48 + d)), (Z.leb_spec (48 + d) 57); simpl; try lia. f_equal. lia.
Qed.

Lemma parse_decimal fuel n :
  0 ≤ n < u64_modulus → n < 10 ^ Z.of_nat fuel → parse_digits 0 (decimal fuel n) = Some n.
Proof.
  revert n. induction fuel as [|fuel IH]; intros n Hn Hf.
  { change (10 ^ Z.of_nat 0) with 1 in Hf. simpl. f_equal. lia. }
  cbn [decimal]. rewrite parse_digits_app. pose proof (Z.mod_pos_bound n 10).
  assert (parse_digits 0 (if n <? 10 then [] else decimal fuel (n / 10)) = Some (n / 10)) as ->.
  { destruct (Z.ltb_spec n 10); [by rewrite Z.div_small by lia|]. apply IH.
    - split; [apply Z.div_pos; lia|]. apply Z.le_lt_trans with n; [apply Z.div_le_upper_bound; lia|lia].
    - apply Z.div_lt_upper_bound; [lia|]. rewrite Nat2Z.inj_succ, Z.pow_succ_r in Hf by lia. lia. }
  simpl. rewrite digit_of_digit by lia. simpl.
  replace (n / 10 * 10 + n mod 10) with n by (pose proof (Z.div_mod n 10 ltac:(lia)); lia).
  by rewrite (proj2 (Z.ltb_lt _ _)) by lia.
Qed.

Lemma decimal_digits fuel n b : 0 ≤ n → b ∈ decimal fuel n → 48 ≤ byte_val b ≤ 57.
Proof.
  revert n. induction fuel as [|fuel IH]; intros n Hn; simpl; [by intros ?%elem_of_nil|].
  intros [Hb| ->%list_elem_of_singleton]%elem_of_app.
  - destruct (n <? 10); [by apply elem_of_nil in Hb|]. apply (IH (n / 10)); [apply Z.div_pos; lia|done].
  - pose proof (Z.mod_pos_bound n 10). rewrite byte_val_of, Z.mod_small by lia. lia.
Qed.

Lemma decimal_nonempty fuel n : decimal (S fuel) n ≠ [].
Proof. simpl. by intros [_ ?]%app_nil. Qed.

(** The first byte of a number is a digit. *)
Lemma show_u64_cons n : 0 ≤ n → ∃ b l, show_u64 n = b :: l ∧ 48 ≤ byte_val b ≤ 57.
Proof.
  intros Hn. destruct (show_u64 n) as [|b l] eqn:E; [by apply decimal_nonempty in E|].
  exists b, l. split; [done|]. apply (decimal_digits 20 n); [done|]. unfold show_u64 in E. rewrite E. by left.
Qed.

Lemma parse_show_u64 n : 0 ≤ n < u64_modulus → parse_u64 (show_u64 n) = Some n.
Proof.
  intros Hn. destruct (show_u64_cons n) as (b & l & E & Hb); [lia|].
  unfold parse_u64. rewrite E. rewrite bool_decide_false by (intros ->; cbn in Hb; lia).
  rewrite <- E. apply parse_decimal; [done|]. unfold u64_modulus in Hn. lia.
Qed.

Lemma show_u64_free n b : 0 ≤ n → byte_val b < 48 ∨ 57 < byte_val b → b ∉ show_u64 n.
Proof. intros Hn Hb Hin. apply decimal_digits in Hin; [lia|done]. Qed.

(** Trimming takes nothing from a string that no white space starts, or ends. *)
Lemma strip_none chars fuel l :
  (∀ c, c ∈ chars → starts_with l c = false) → strip chars fuel l = l.
Proof.
  intros Hn. destruct fuel; simpl; [done|].
  destruct (list_find _ chars) as [[i c]|] eqn:E; [|done].
  apply list_find_Some in E as (Hi & Hc & _). apply list_elem_of_lookup_2, Hn in Hi. congruence.
Qed.

Lemma strip_length chars fuel l : (length (strip chars fuel l) ≤ length l)%nat.
Proof.
  revert l. induction fuel as [|fuel IH]; intros l; simpl; [lia|].
  destruct (list_find _ chars) as [[i c]|]; [|lia]. specialize (IH (drop (length c) l)).
  rewrite length_drop in IH. lia.
Qed.

Lemma strip_same chars l c :
  (∀ c, c ∈ chars → c ≠ []) → strip chars (length l) l = l → c ∈ chars → starts_with l c = false.
Proof.
  intros Hne Hs Hc. destruct l as [|b l]; [specialize (Hne c Hc); by destruct c|].
  simpl in Hs. destruct (list_find _ chars) as [[i d]|] eqn:E.
  - exfalso. apply list_find_Some in E as (Hi & Hd & _). apply list_elem_of_lookup_2, Hne in Hi.
    pose proof (strip_length chars (length l) (drop (length d) (b :: l))) as Hlen.
    rewrite Hs, length_drop in Hlen. destruct d; [done|]. simpl in Hlen. lia.
  - apply list_find_None in E. rewrite Forall_forall in E. specialize (E c Hc). by apply not_true_iff_false in E.
Qed.

Lemma starts_with_cut (l r c : ByteArray) b :
  b ∉ c → starts_with (l ++ b :: r) c = starts_with l c.
Proof.
  revert l. induction c as [|x c IH]; intros l Hb; [done|]. apply not_elem_of_cons in Hb as [Hx Hb].
  destruct l as [|y l]; simpl; [by rewrite bool_decide_false by done|]. by rewrite IH.
Qed.

Definition no_digit (o : option byte) : bool :=
  from_option (λ b, negb (in_byte_range 48 57 (byte_val b))) true o.

Lemma white_space_bytes :
  Forall (λ c, c ≠ [] ∧ at_sign ∉ c ∧ no_digit (head c) = true ∧ no_digit (head (reverse c)) = true)
    white_space.
Proof. apply (bool_decide_unpack _). vm_compute. exact I. Qed.

(** A digit at its start keeps a string from being stripped. *)
Lemma digit_no_space b l c :
  48 ≤ byte_val b ≤ 57 → c ≠ [] → no_digit (head c) = true →
  starts_with (b :: l) c = false.
Proof.
  intros Hb Hne Hc. destruct c as [|x c]; [done|]. simpl in *.
  rewrite bool_decide_false; [done|]. intros ->. unfold no_digit, in_byte_range in Hc. simpl in Hc. lia.
Qed.

Lemma trim_start_digit b l : 48 ≤ byte_val b ≤ 57 → trim_start (b :: l) = b :: l.
Proof.
  intros Hb. apply strip_none. intros c Hc. pose proof white_space_bytes as Hw.
  rewrite Forall_forall in Hw. destruct (Hw c Hc) as (? & _ & ? & _). by apply digit_no_space.
Qed.

Lemma trim_end_digit b l : 48 ≤ byte_val b ≤ 57 → trim_end (l ++ [b]) = l ++ [b].
Proof.
  intros Hb. unfold trim_end. rewrite strip_none; [apply reverse_involutive|].
  intros c' (c & -> & Hc)%list_elem_of_fmap. pose proof white_space_bytes as Hw.
  rewrite Forall_forall in Hw. destruct (Hw c Hc) as (Hne & _ & _ & Hr).
  rewrite reverse_snoc. apply digit_no_space; [done| |done].
  intros Hn. apply Hne. by rewrite <- (reverse_involutive c), Hn.
Qed.

Lemma trim_show_u64 n : 0 ≤ n → trim (show_u64 n) = show_u64 n.
Proof.
  intros Hn. unfold trim. destruct (show_u64_cons n Hn) as (b & l & E & Hb).
  rewrite E, trim_start_digit, <- E by done. unfold show_u64. cbn [decimal]. apply trim_end_digit.
  pose proof (Z.mod_pos_bound n 10). rewrite byte_val_of, Z.mod_small by lia. lia.
Qed.

(** What is trimmed is trimmed at both ends. *)
Lemma strip_suffix chars fuel l : ∃ k, strip chars fuel l = drop k l.
Proof.
  revert l. induction fuel as [|fuel IH]; intros l; simpl; [by exists 0%nat|].
  destruct (list_find _ chars) as [[i c]|]; [|by exists 0%nat].
  destruct (IH (drop (length c) l)) as [k ->]. exists (length c + k)%nat. by rewrite drop_drop.
Qed.

Lemma trim_both l : trim l = l → trim_start l = l ∧ trim_end l = l.
Proof.
  intros Ht. assert (trim_start l = l) as Hs.
  { pose proof (strip_length (reverse <$> white_space) (length (trim_start l)) (reverse (trim_start l))) as Hl.
    assert (length l ≤ length (trim_start l))%nat as Hle.
    { rewrite <- Ht at 1. unfold trim, trim_end. rewrite length_reverse. by rewrite length_reverse in Hl. }
    unfold trim_start in *. destruct (strip_suffix white_space (length l) l) as [k Hk]. rewrite Hk in *.
    rewrite length_drop in Hle. destruct k; [done|]. destruct l; [done|]. simpl in Hle. lia. }
  split; [done|]. unfold trim in Ht. by rewrite Hs in Ht.
Qed.

Lemma trim_end_entry x addr :
  trim_end addr = addr → trim_end (x ++ at_sign :: addr) = x ++ at_sign :: addr.
Proof.
  intros Ht. unfold trim_end. rewrite strip_none; [apply reverse_involutive|].
  intros c' (c & -> & Hc)%list_elem_of_fmap. pose proof white_space_bytes as Hw.
  rewrite Forall_forall in Hw. destruct (Hw c Hc) as (Hne & Ha & _).
  rewrite reverse_app, reverse_cons, <- app_assoc. simpl.
  rewrite starts_with_cut by (by rewrite elem_of_reverse).
  apply strip_same with (reverse <$> white_space); [| |by apply list_elem_of_fmap_2].
  - intros d (d' & -> & Hd)%list_elem_of_fmap Hn. destruct (Hw d' Hd) as (Hd' & _). apply Hd'.
    by rewrite <- (reverse_involutive d'), Hn.
  - unfold trim_end in Ht. rewrite length_reverse. rewrite <- Ht at 3. by rewrite reverse_involutive.
Qed.

(** ** Splitting *)

Lemma split_nosep sep l : sep ∉ l → split sep l = [l].
Proof.
  induction l as [|b l IH]; intros Hn; simpl; [done|]. apply not_elem_of_cons in Hn as [Hb Hn].
  rewrite IH by done. by rewrite bool_decide_false by done.
Qed.

Lemma split_app sep l r : sep ∉ l → split sep (l ++ [sep] ++ r) = l :: split sep r.
Proof.
  intros Hn. assert (split sep ([sep] ++ r) = [] :: split sep r) as H0.
  { simpl. destruct (split sep r) eqn:E; [|by rewrite bool_decide_true].
    exfalso. revert E. destruct r; simpl; [done|]. destruct (split _ _); [done|]. by case_bool_decide. }
  induction l as [|b l IH]; simpl in *; [done|]. apply not_elem_of_cons in Hn as [Hb Hn].
  rewrite IH by done. by rewrite bool_decide_false by done.
Qed.

Lemma split_join sep segs :
  segs ≠ [] → Forall (λ seg, sep ∉ seg) segs → split sep (join sep segs) = segs.
Proof.
  induction segs as [|seg segs IH]; intros Hne Hf; [done|]. inversion Hf as [|? ? Hs Hf']; subst.
  destruct segs as [|seg' segs]; [by apply split_nosep|].
  change (join sep (seg :: seg' :: segs)) with (seg ++ [sep] ++ join sep (seg' :: segs)).
  rewrite split_app by done. by rewrite IH.
Qed.

(** ** Properties *)

(** A peer that can be written in a list: an id of 64 bits, an address without a comma or
    surrounding white space. *)
Definition peer_ok (p : Z * ByteArray) : Prop :=
  0 ≤ p.1 < u64_modulus ∧ comma ∉ p.2 ∧ trim p.2 = p.2.

Lemma split_entry id addr :
  0 ≤ id → splitn 2 at_sign (show_entry (id, addr)) = [show_u64 id; addr].
Proof. intros Hid. apply (splitn_cons 0), show_u64_free; [done|]. cbn. lia. Qed.

Lemma trim_entry id addr : 0 ≤ id → trim addr = addr → trim (show_entry (id, addr)) = show_entry (id, addr).
Proof.
  intros Hid [_ He]%trim_both. unfold trim, show_entry. simpl.
  destruct (show_u64_cons id) as (b & l & E & Hb); [done|]. rewrite E. simpl.
  rewrite trim_start_digit by done. exact (trim_end_entry (b :: l) addr He).
Qed.

Lemma parse_show_entries peers :
  Forall peer_ok peers → parse_entries (show_entry <$> peers) = Ok peers.
Proof.
  induction 1 as [|[id addr] peers (Hid & _ & Ht) _ IH]; [done|]. cbn [fst snd] in Hid, Ht.
  cbn [fmap list_fmap parse_entries]. rewrite trim_entry by (done || lia).
  rewrite bool_decide_false by (unfold show_entry; by intros [_ ?]%app_nil).
  rewrite split_entry, trim_show_u64, parse_show_u64 by lia. by rewrite IH, Ht.
Qed.

(** A peer list is read as it was written. The text "id@addr,id@addr,.." of any list of
    peers with 64-bit ids and addresses without commas or surrounding white space (an address
    may contain "@", or be empty) is parsed to that list, in order. *)
Theorem parse_peers_roundtrip (peers : list (Z * ByteArray)) :
  Forall peer_ok peers → parse_peers (show_peers peers) = Ok peers.
Proof.
  intros Hok. unfold parse_peers, show_peers. destruct peers as [|p peers]; [done|].
  rewrite split_join; [by apply parse_show_entries|done|]. apply Forall_fmap.
  eapply Forall_impl; [exact Hok|]. intros [id addr] (Hid & Hc & _). unfold show_entry. simpl in *.
  intros [Hin|Hin]%elem_of_app; [revert Hin; apply show_u64_free; [lia|cbn; lia]|].
  apply elem_of_cons in Hin as [?|?]; [done|by apply Hc].
Qed.

Lemma parse_peers_roundtrip_witness :
  parse_peers (bytes "1@host1:2379,18446744073709551615@user@host2")
  = Ok [(1, bytes "host1:2379"); (18446744073709551615, bytes "user@host2")].
Proof.
  apply (parse_peers_roundtrip [(1, bytes "host1:2379"); (18446744073709551615, bytes "user@host2")]).
  apply (bool_decide_unpack _). vm_compute. exact I.
Defined.
