(* ===== verification/Startup.v ===== *)
(** * Start-up

    The part of [main] in src/main.rs that comes before the server listens: the command
    line, the settings of the log, the store built on the log directory, the key that
    takes the first revision, and the checks of the Raft options. The gRPC and metrics
    servers it then starts belong to tonic and axum. *)
From S2P Require Import Prelude Bytes BTreeMap BlockDeque Heap Types Wal Prefix History Store StoreSpec WatchSpec StoreTrace StoreProps Notify Recovery Peers.

(** ** The command line *)

Inductive CliWalMode := CliNone | CliBuffered | CliFsync.

(** [impl From<CliWalMode> for WalMode] *)
Definition wal_mode_from (m : CliWalMode) : WalMode :=
  match m with CliNone => WalNone | CliBuffered => WalAsync | CliFsync => WalSync end.

(** The options of [Cli] that decide what starts: the store and the Raft node. *)
Record Cli := mkCli {
  wal_default : CliWalMode;
  wal_no_write_prefixes : list ByteArray;
  raft_enabled : bool;
  raft_node_id : option Z;
  raft_peers : option ByteArray;
  raft_init : bool;
}.

(** [store::WalSettings] *)
Record WalSettings := mkWalSettings {
  ws_default_mode : WalMode;
  ws_load_wal_dir : bool;
  ws_prefix_modes_no_persist : gset ByteArray;
}.

Definition wal_settings (cli : Cli) : WalSettings :=
  {| ws_default_mode := wal_mode_from (wal_default cli);
     ws_load_wal_dir := negb (raft_enabled cli);
     ws_prefix_modes_no_persist := list_to_set (wal_no_write_prefixes cli) |}.

Inductive StartError := NoNodeId | NoPeers | BadPeers (e : PeersError).

(** The node of the Raft mode: its id and its peers. *)
Definition raft_config (cli : Cli) : Result (option (Z * list (Z * ByteArray))) StartError :=
  if raft_enabled cli then
    match raft_node_id cli with
    | None => Err NoNodeId
    | Some node_id =>
        match raft_peers cli with
        | None => Err NoPeers
        | Some peers_str =>
            match parse_peers peers_str with
            | Ok peers => Ok (Some (node_id, peers))
            | Err e => Err (BadPeers e)
            end
        end
    end
  else Ok None.

(** The members [init_grpc_cluster] hands to openraft; the last of two entries for one id
    counts. *)
Definition init_nodes (peers : list (Z * ByteArray)) : gmap Z ByteArray :=
  foldl (λ nodes peer, <[peer.1 := peer.2]> nodes) ∅ peers.

Lemma init_nodes_lookup peers id :
  init_nodes peers !! id = snd <$> last (filter (λ p, p.1 = id) peers).
Proof.
  unfold init_nodes. induction peers as [|[i a] peers IH] using rev_ind; [done|].
  rewrite foldl_app, filter_app, filter_cons, filter_nil. simpl. case_decide as E.
  - rewrite E, lookup_insert_eq, last_snoc. done.
  - by rewrite lookup_insert_ne, IH, app_nil_r.
Qed.

Section boot.
Context `{!BlockSize}.

(** [b"~"], the key that takes the first revision. *)
Definition first_key : ByteArray := bytes "~".

(** The store [main] serves: built from the settings, then one write, unwrapped. *)
Definition start_store (ws : WalSettings) (entries : list DirEntry) : outcome Store :=
  s ← store_new (Some (ws_default_mode ws)) (if ws_load_wal_dir ws then Some entries else None);
  r ← set s first_key (Some []) None;
  match r with
  | (s', Ok _) => Ret s'
  | (_, Err _) => Panic "called `Result::unwrap()` on an `Err` value"
  end.

(** [main] up to the point where the services are built. *)
Definition boot (cli : Cli) (entries : list DirEntry) :
    outcome (Result (Store * option (Z * list (Z * ByteArray))) StartError) :=
  s ← start_store (wal_settings cli) entries;
  Ret (match raft_config cli with
       | Ok node => Ok (s, node)
       | Err e => Err e
       end).

(** ** What the replay leaves alone *)

(** The jobs queued so far, the mode that marks them and the next mark. *)
Definition outbox (s : Store) : list NotifyJob * option WalMode * nat :=
  (notify_tx s, wal s, next_notify s).

Lemma outbox_insert_item s key item : outbox (insert_item s key item) = outbox s.
Proof. unfold insert_item. by destruct (prefix_split key). Qed.

Lemma outbox_replay_item s l item new s' : replay_item s l item new = Ret s' → outbox s' = outbox s.
Proof.
  unfold replay_item. intros ([i d] & _ & ([b d'] & _ & [= <-])%bind_ret_inv)%bind_ret_inv. done.
Qed.

Lemma outbox_set_for_replay s key new s' : set_for_replay s key new = Ret s' → outbox s' = outbox s.
Proof.
  unfold set_for_replay. destruct (tree_map s !! key).
  - intros (it & _ & H2)%bind_ret_inv. destruct (value _), new; simplify_eq; try done;
      by eapply outbox_replay_item.
  - destruct new; [|by intros [= ->]].
    intros ([i d] & _ & ([b' d'] & _ & [= <-])%bind_ret_inv)%bind_ret_inv. by rewrite outbox_insert_item.
Qed.

Lemma outbox_replay_records s recs s' : replay_records s recs = Ret s' → outbox s' = outbox s.
Proof.
  revert s. induction recs as [|rec recs IH]; intros s; simpl; [by intros [= ->]|].
  intros (s1 & H1 & H2)%bind_ret_inv. rewrite (IH _ H2). by eapply outbox_set_for_replay.
Qed.

Lemma outbox_store_new mode load s : store_new mode load = Ret s → outbox s = outbox (new_store mode).
Proof.
  unfold store_new. destruct load as [entries|]; [|by intros [= <-]].
  intros (r & _ & H2)%bind_ret_inv. destruct r as [[recs r]|]; [|done].
  apply bind_ret_inv in H2 as (s1 & H1 & H2). destruct r; [|done]. simplify_eq.
  by eapply outbox_replay_records.
Qed.

Lemma outbox_set_entry s key : outbox (set_entry s key).1.1 = outbox s.
Proof.
  unfold set_entry. destruct (tree_map s !! key); [done|]. unfold insert_item.
  by destruct (prefix_split key).
Qed.

Lemma outbox_set_locked s l is_new new required latest s' r :
  set_locked s l is_new new required latest = Ret (s', r) → outbox s' = outbox s.
Proof.
  unfold set_locked. intros (it & _ & H2)%bind_ret_inv. destruct (set_guard _ _ _ _); [by simplify_eq|].
  apply bind_ret_inv in H2 as ([i d] & _ & ([b' d'] & _ & H4)%bind_ret_inv). by simplify_eq.
Qed.

(** The job of a write waits on the log exactly in fsync mode, and is logged under the
    prefix of its key. *)
Lemma set_job_mark s key new required s' rev :
  set s key new required = Ret (s', Ok rev) →
  ∃ job, notify_tx s' = notify_tx s ++ [job] ∧
    (wal_handled job = if decide (wal s = Some WalSync) then Some (next_notify s) else None) ∧
    job_prefix job = from_utf8_lossy (prefix_split key).1.
Proof.
  unfold set. pose proof (outbox_set_entry s key) as Ho. destruct (set_entry s key) as [[s1 l] n].
  simpl in Ho. intros ([s2 r] & H2%outbox_set_locked & H3)%bind_ret_inv.
  rewrite Ho in H2. destruct r as [[[[rev' k] v] old]|]; [|done].
  apply bind_ret_inv in H3 as (s3 & H3 & [= <- _]).
  unfold notify_watchers in H3. apply bind_ret_inv in H3 as (cs & _ & [= <-]).
  unfold outbox in H2. injection H2 as Hj Hw Hn. eexists. split; [by rewrite <- Hj|]. simpl.
  rewrite Hw, Hn. split; [by case_decide; case_bool_decide|done].
Qed.
End boot.

(** ** Properties *)

(** The records a start replays: none in Raft mode. *)
Definition replayed (cli : Cli) (dir : list (DirEntry * list WalRecord)) : list WalRecord :=
  if raft_enabled cli then [] else forget_notify <$> concat (logs_of dir).

(** The history that records rebuild. *)
Definition rebuilt (recs : list WalRecord) : history :=
  foldl (λ g rec, hist_replay g (rec_key rec) (rec_value rec)) [] recs.

Lemma rebuilt_length recs : (length (rebuilt recs) ≤ length recs)%nat.
Proof.
  induction recs as [|rec recs IH] using rev_ind; [done|].
  unfold rebuilt in *. rewrite foldl_app, length_app. simpl.
  pose proof (hist_replay_length (foldl (λ g rec, hist_replay g (rec_key rec) (rec_value rec)) [] recs)
    (rec_key rec) (rec_value rec)). lia.
Qed.

Lemma store_new_replayed `{!BlockSize} cli dir :
  dir_holds dir → Z.of_nat (length (concat (logs_of dir))) ≤ i64_max →
  ∃ recs s, store_new (Some (ws_default_mode (wal_settings cli)))
      (if ws_load_wal_dir (wal_settings cli) then Some dir.*1 else None) = Ret s ∧
    recs ≡ₚ replayed cli dir ∧ rev_sorted recs ∧ store_repr s (rebuilt recs).
Proof.
  intros Hd Hl. unfold replayed. simpl. destruct (raft_enabled cli); simpl.
  - exists [], (new_store (Some (wal_mode_from (wal_default cli)))). split; [done|].
    split; [done|]. split; [constructor|]. apply (StoreTrace.im_repr _ _ (StoreTrace.new_implements _)).
  - by apply store_new_repr.
Qed.

(** C38: start-up on a sound log directory never panics. The store holds the history its
    log files rebuild, merged in revision order (nothing in Raft mode), and on top of it
    the key that takes one revision, so a fresh server is at revision 1; exactly one job
    is queued, which the writer waits for in fsync mode only. On an empty history the
    notification thread logs and sends that job at once; on any other it never does, so
    a restart in fsync mode waits for ever before it listens. *)
Theorem start_store_spec `{!BlockSize} cli dir w :
  dir_holds dir → Z.of_nat (length (concat (logs_of dir))) < i64_max →
  ∃ recs s job, start_store (wal_settings cli) dir.*1 = Ret s ∧
    recs ≡ₚ replayed cli dir ∧ rev_sorted recs ∧
    store_repr s (hist_write (rebuilt recs) first_key (Some [])) ∧
    current_revision s = Z.of_nat (length (rebuilt recs)) + 1 ∧
    notify_tx s = [job] ∧ job_rev job = current_revision s ∧
    (wal_handled job = match wal_default cli with CliFsync => Some O | _ => None end) ∧
    world (process (start_thread w) (notify_tx s)) =
      if decide (rebuilt recs = []) then do_send w job else w.
Proof.
  intros Hd Hl. destruct (store_new_replayed cli dir Hd) as (recs & s & Hn & Hp & Hs & Hr); [lia|].
  pose proof (outbox_store_new _ _ _ Hn) as Ho. injection Ho as Hj Hw Hnn.
  assert (Z.of_nat (length (rebuilt recs)) < i64_max) as Hlt.
  { pose proof (rebuilt_length recs) as Hle. pose proof (Permutation_length Hp) as Hpl. unfold replayed in Hpl.
    destruct (raft_enabled cli); rewrite ?length_fmap in Hpl; simpl in Hpl; width. }
  destruct (set_spec s _ first_key (Some []) None Hr Hlt) as (s' & Hset & Hr' & _ & Hjob).
  assert (hist_set (rebuilt recs) first_key (Some []) None =
    (hist_write (rebuilt recs) first_key (Some []), Ok (Z.of_nat (length (rebuilt recs)) + 1))) as Eh.
  { unfold hist_set, guard. by rewrite (bool_decide_eq_true_2 (is_Some (Some []))), orb_true_r. }
  rewrite Eh in Hset, Hr', Hjob. simpl in Hset, Hr', Hjob.
  destruct Hjob as (job & Hj1 & Hrev & _). destruct (set_job_mark _ _ _ _ _ _ Hset) as (job' & Hj2 & Hmark & _).
  rewrite Hj1 in Hj2. simplify_list_eq.
  assert (current_revision s' = Z.of_nat (length (rebuilt recs)) + 1) as Hcur.
  { rewrite (repr_current _ _ Hr'). unfold hist_write. rewrite length_app. simpl. lia. }
  exists recs, s', job'. unfold start_store. simpl. rewrite Hn, bind_ret, Hset, bind_ret.
  rewrite Hj1, Hj. simpl app. split; [done|]. do 4 (split; [done|]). split; [done|]. split; [by rewrite Hcur|].
  split. { rewrite Hmark, Hw, Hnn. by destruct (wal_default cli). }
  destruct (decide (rebuilt recs = [])) as [E|E].
  - rewrite E in Hrev. simpl in Hrev. rewrite (process_all w [job'] [job'] 1); [done|done| |width].
    simpl. by rewrite Hrev.
  - apply process_stalled. constructor; [|done]. rewrite Hrev. destruct (rebuilt recs); [done|]. simpl. lia.
Qed.

(** Two log files of an earlier run, and a file the loader skips. *)
Definition sample_logs : list (DirEntry * list WalRecord) :=
  let a := [mkWalRecord 1 (bytes "~") (Some []) None; mkWalRecord 3 (bytes "b") None None] in
  let b := [mkWalRecord 2 (bytes "/r/p/x") (Some (bytes "1")) None] in
  [(mkDirEntry (file_name_for_prefix []) true (encode_records a), a);
   (mkDirEntry (file_name_for_prefix (bytes "/r/p/")) true (encode_records b), b);
   (mkDirEntry (bytes "notes.txt") true (bytes "x"), [])].

Definition sample_cli : Cli := mkCli CliFsync [] false None None false.

Lemma sample_logs_hold : dir_holds sample_logs.
Proof.
  repeat (apply Forall_cons_2;
    [first [intros E; vm_compute in E; discriminate E
           |intros _; split; [apply holds_encoded|]; split; repeat constructor; vm_compute; (discriminate || reflexivity)]|]).
  apply Forall_nil_2.
Qed.

Lemma start_store_spec_witness :
  ∃ s job, start_store (H:=block_size_2) (wal_settings sample_cli) sample_logs.*1 = Ret s ∧
    notify_tx s = [job] ∧ wal_handled job = Some O.
Proof.
  destruct (@start_store_spec block_size_2 sample_cli sample_logs (mkWorld None [] []))
    as (recs & s & job & Hs & _ & _ & _ & _ & Hj & _ & Hm & _).
  - exact sample_logs_hold.
  - vm_compute. reflexivity.
  - exists s, job. split; [exact Hs|]. split; [exact Hj|exact Hm].
Defined.

(** A fresh server is at revision 1, Raft mode or not; a restart on two live changes is
    at revision 3 and its only job is never logged. *)
Example boot_samples :
  (match boot (H:=block_size_2) sample_cli [] with
   | Ret (Ok (s, None)) => current_revision s = 1
   | _ => False end) ∧
  (match boot (H:=block_size_2) sample_cli sample_logs.*1 with
   | Ret (Ok (s, None)) => current_revision s = 3 ∧
       log (world (process (start_thread (mkWorld (Some (empty_log WalSync)) [] [])) (notify_tx s))) =
         Some (empty_log WalSync)
   | _ => False end) ∧
  (match boot (H:=block_size_2) (mkCli CliFsync [] true (Some 1) (Some (bytes "1@a:1,2@b:2")) false) sample_logs.*1 with
   | Ret (Ok (s, Some (n, peers))) => current_revision s = 1 ∧ n = 1 ∧ length peers = 2%nat
   | _ => False end) ∧
  (match boot (H:=block_size_2) (mkCli CliFsync [] true None None false) [] with
   | Ret (Err NoNodeId) => True
   | _ => False end).
Proof. vm_compute. done. Qed.
