(* ===== verification/Cluster.v ===== *)
(** * Setting a cluster up

    The functions at the end of src/raft.rs that create the node of a cluster, hand the
    members to openraft and wait for a leader. openraft is a parameter: the check of its
    configuration ([Config::validate]), the start of a node ([Raft::new]) and what its
    metrics say of the leader at each poll. *)
From S2P Require Import Prelude Bytes BTreeMap BlockDeque Heap Types Store Raft RaftNet Peers Startup.

(** ** Nodes *)

(** The fields of openraft's [Config] that the program sets, in milliseconds; the others
    keep their defaults. *)
Record Config := mkConfig {
  heartbeat_interval : Z;
  election_timeout_min : Z;
  election_timeout_max : Z;
}.

Definition memory_config : Config :=
  {| heartbeat_interval := 100; election_timeout_min := 300; election_timeout_max := 600 |}.

Definition grpc_config : Config :=
  {| heartbeat_interval := 250; election_timeout_min := 1000; election_timeout_max := 2000 |}.

Inductive CreateError (CE RE : Type) := ConfigInvalid (e : CE) | RaftFailed (e : RE).
Arguments ConfigInvalid {CE RE} _.
Arguments RaftFailed {CE RE} _.

Section nodes.
Context `{!RaftTypes, !RaftSerde} {LeaderId Membership Vote NS CE RE : Type} (peer : Peer NS).
Context (default_membership : Membership) (validate : Config → Result Config CE).

(** [StateMachineStore::new] *)
Definition state_machine_new (s : Store) : StateMachineStore LeaderId Membership :=
  mkStateMachineStore s None (mkStoredMembership None default_membership) 0 None.

(** [Raft::new], but for the network it is given. *)
Variable raft_new : Z → Config → LogStoreInner LeaderId Membership Vote →
  StateMachineStore LeaderId Membership → Result NS RE.

(** The node registers before it starts, and its loop runs once it has started: until then
    nobody serves the channel, and nobody ever does when the start fails. *)
Definition create_raft_node (id : Z) (router : Router (NS:=NS)) (s : Store) :
    Router (NS:=NS) * Result NS (CreateError CE RE) :=
  match validate memory_config with
  | Err e => (router, Err (ConfigInvalid e))
  | Ok config =>
      let tx := length (loops router) in
      let targets' := bt_insert (targets router) id tx in
      match raft_new id config MemLogStore.default_store (state_machine_new s) with
      | Err e => (mkRouter targets' (loops router ++ [None]), Err (RaftFailed e))
      | Ok raft => (mkRouter targets' (loops router ++ [Some raft]), Ok raft)
      end
  end.

(** A node for separate processes has its own router, which knows the peers from the start. *)
Definition create_grpc_raft_node (id : Z) (peers : list (Z * ByteArray)) (s : Store) :
    Result (NS * GrpcRouter) (CreateError CE RE) :=
  match validate grpc_config with
  | Err e => Err (ConfigInvalid e)
  | Ok config =>
      match raft_new id config MemLogStore.default_store (state_machine_new s) with
      | Err e => Err (RaftFailed e)
      | Ok raft => Ok (raft, grpc_router_new peers)
      end
  end.

(** A node that started is reached under its id, in the state it started in. *)
Lemma create_raft_node_registers id router s router' raft :
  create_raft_node id router s = (router', Ok raft) → router' = register router id raft.
Proof.
  unfold create_raft_node. destruct (validate _); [|done]. destruct (raft_new _ _ _ _); [|done].
  by intros [= <- <-].
Qed.

(** A node that failed to start stays registered: a message to it fails because its channel
    is closed, not because it is unknown. *)
Lemma failed_node_stays_registered {Req E} `{!Serde Req} id router s router' e data path (req : Req) :
  bt_wf (targets router) → create_raft_node id router s = (router', Err (RaftFailed e)) → to_vec req = Ok data →
  exchange peer (E:=E) router' id path req = (router', Err (Unreachable "node {} channel closed" [AInt id])).
Proof.
  unfold create_raft_node. intros Hs Hc Hd. destruct (validate _); [|done].
  destruct (raft_new _ _ _ _); [done|]. injection Hc as <- <-.
  unfold exchange. rewrite Hd. simpl. rewrite bt_get_insert_eq by done.
  rewrite lookup_app_r, Nat.sub_diag by lia. done.
Qed.
End nodes.

(** ** Members *)

(** [init_cluster]: the members named by their ids. *)
Definition memory_nodes (node_ids : list Z) : gmap Z ByteArray :=
  foldl (λ nodes id, <[id := bytes "in-memory-" ++ show_u64 id]> nodes) ∅ node_ids.

Lemma memory_nodes_lookup ids id :
  memory_nodes ids !! id = if decide (id ∈ ids) then Some (bytes "in-memory-" ++ show_u64 id) else None.
Proof.
  unfold memory_nodes. induction ids as [|i ids IH] using rev_ind; [done|].
  rewrite foldl_app. simpl. destruct (decide (i = id)) as [->|Hi].
  - rewrite lookup_insert_eq, decide_True by set_solver. done.
  - rewrite lookup_insert_ne by done. etransitivity; [exact IH|].
    destruct (decide (id ∈ ids)); [rewrite decide_True by set_solver|rewrite decide_False by set_solver]; done.
Qed.

(** ** Waiting for a leader *)

(** What one turn of the loop sees: the leader in openraft's metrics, and the time since
    the start, in nanoseconds. *)
Record Poll := mkPoll { current_leader : option Z; elapsed : Z }.

(** [Duration::from_millis(100)] *)
Definition poll_interval : Z := 100 * 1000000.

(** The error carries the timeout it reports. *)
Inductive NoLeader := NoLeaderWithin (timeout : Z).

(** [wait_for_leader_grpc]: [polls] are the turns it could make, [fuel] how many it is
    given; [None] when it would still be sleeping. *)
Fixpoint wait_for_leader_grpc (fuel : nat) (polls : nat → Poll) (timeout : Z) : option (Result Z NoLeader) :=
  match fuel with
  | O => None
  | S fuel =>
      match current_leader (polls 0%nat) with
      | Some leader => Some (Ok leader)
      | None =>
          if timeout <? elapsed (polls 0%nat) then Some (Err (NoLeaderWithin timeout))
          else wait_for_leader_grpc fuel (λ i, polls (S i)) timeout
      end
  end.

(** A turn that ends the wait. *)
Definition last_turn (timeout : Z) (p : Poll) : bool :=
  bool_decide (is_Some (current_leader p)) || (timeout <? elapsed p).

(** Without such a turn it goes on. *)
Lemma wait_for_leader_waits polls timeout fuel :
  (∀ j, (j < fuel)%nat → last_turn timeout (polls j) = false) → wait_for_leader_grpc fuel polls timeout = None.
Proof.
  revert polls. induction fuel as [|fuel IH]; intros polls Hno; [done|]. simpl.
  pose proof (Hno 0%nat ltac:(lia)) as H0. unfold last_turn in H0. apply orb_false_elim in H0 as [H1 ->].
  destruct (current_leader (polls 0%nat)); [done|].
  apply (IH (λ i, polls (S i))). intros j Hj. apply Hno. lia.
Qed.

(** The wait ends at the first such turn, with the leader it saw or the error. *)
Lemma wait_for_leader_ends n polls timeout fuel :
  (∀ j, (j < n)%nat → last_turn timeout (polls j) = false) → last_turn timeout (polls n) = true → (n < fuel)%nat →
  wait_for_leader_grpc fuel polls timeout =
    Some (match current_leader (polls n) with Some l => Ok l | None => Err (NoLeaderWithin timeout) end).
Proof.
  revert polls fuel. induction n as [|n IH]; intros polls [|fuel] Hno Hyes Hf; try lia; simpl.
  - unfold last_turn in Hyes. destruct (current_leader _); [done|]. by simpl in Hyes; rewrite Hyes.
  - pose proof (Hno 0%nat ltac:(lia)) as H0. unfold last_turn in H0. apply orb_false_elim in H0 as [H1 ->].
    destruct (current_leader (polls 0%nat)); [done|].
    apply (IH (λ i, polls (S i))); [|done|lia]. intros j Hj. apply Hno. lia.
Qed.

(** Turns that are a sleep apart. *)
Lemma elapsed_grows (polls : nat → Poll) d :
  0 ≤ elapsed (polls 0%nat) → (∀ i, elapsed (polls i) + d ≤ elapsed (polls (S i))) →
  ∀ n, Z.of_nat n * d ≤ elapsed (polls n).
Proof. intros H0 Hd n. induction n as [|n IH]; [lia|]. specialize (Hd n). lia. Qed.

Lemma first_true (f : nat → bool) n :
  f n = true → ∃ m, (m ≤ n)%nat ∧ f m = true ∧ ∀ j, (j < m)%nat → f j = false.
Proof.
  revert f. induction n as [|n IH]; intros f Hn; [by exists 0%nat; repeat split; [lia|done|lia]|].
  destruct (f 0%nat) eqn:E0; [by exists 0%nat; repeat split; [lia|done|lia]|].
  destruct (IH (λ i, f (S i)) Hn) as (m & Hm & Hf & Hno).
  exists (S m). repeat split; [lia|done|]. intros [|j] Hj; [done|]. apply Hno. lia.
Qed.

(** C39: Waiting for a leader ends. A sleep lasts at least as long as asked, so after at most
    timeout / 100 ms + 1 sleeps the function returns, and more turns would not change its
    answer. It answers the leader of the first turn that saw one, if the time was not up
    before, and fails only when the time is up and no turn up to then saw a leader. *)
Theorem wait_for_leader_terminates (polls : nat → Poll) (timeout : Z) :
  0 ≤ timeout → 0 ≤ elapsed (polls 0%nat) →
  (∀ i, elapsed (polls i) + poll_interval ≤ elapsed (polls (S i))) →
  ∃ n r, (n ≤ Z.to_nat (timeout / poll_interval) + 1)%nat ∧
    (∀ fuel, wait_for_leader_grpc fuel polls timeout = if decide (n < fuel)%nat then Some r else None) ∧
    (∀ j, (j < n)%nat → current_leader (polls j) = None ∧ elapsed (polls j) ≤ timeout) ∧
    match r with
    | Ok leader => current_leader (polls n) = Some leader
    | Err (NoLeaderWithin t) => t = timeout ∧ current_leader (polls n) = None ∧ timeout < elapsed (polls n)
    end.
Proof.
  intros Ht H0 Hd. set (N := (Z.to_nat (timeout / poll_interval) + 1)%nat).
  assert (last_turn timeout (polls N) = true) as HN.
  { unfold last_turn. apply orb_true_intro. right. apply Z.ltb_lt.
    eapply Z.lt_le_trans; [|by apply (elapsed_grows polls _ H0 Hd)]. subst N.
    rewrite Nat2Z.inj_add, Z2Nat.id, Z.mul_comm by by apply Z.div_pos. by apply Z.mul_succ_div_gt. }
  destruct (first_true (λ i, last_turn timeout (polls i)) _ HN) as (n & Hn & Hyes & Hno).
  exists n, (match current_leader (polls n) with Some l => Ok l | None => Err (NoLeaderWithin timeout) end).
  split; [done|]. split; [|split].
  - intros fuel. case_decide; [by apply wait_for_leader_ends|].
    apply wait_for_leader_waits. intros j Hj. apply Hno. lia.
  - intros j Hj. specialize (Hno j Hj). unfold last_turn in Hno. apply orb_false_elim in Hno as [H1 H2].
    split; [|lia]. by destruct (current_leader _).
  - unfold last_turn in Hyes. destruct (current_leader (polls n)) eqn:E; [done|].
    simpl in Hyes. repeat split; lia.
Qed.

(** A leader is elected while the loop sleeps for the third time. *)
Definition sample_polls (i : nat) : Poll :=
  mkPoll (if decide (i < 3)%nat then None else Some 7) (Z.of_nat i * (poll_interval + 5000)).

Lemma wait_for_leader_terminates_witness :
  ∃ n r, (n ≤ 150 + 1)%nat ∧ (∀ fuel, wait_for_leader_grpc fuel sample_polls (15 * 1000000000) =
    if decide (n < fuel)%nat then Some r else None).
Proof.
  destruct (wait_for_leader_terminates sample_polls (15 * 1000000000)) as (n & r & Hn & Hr & _).
  - lia.
  - vm_compute. congruence.
  - intros i. unfold sample_polls, poll_interval. simpl. lia.
  - exists n, r. split; [exact Hn|exact Hr].
Defined.

(** The settings main uses: the leader found, and the error when there never is one. *)
Example wait_for_leader_samples :
  wait_for_leader_grpc 10 sample_polls (15 * 1000000000) = Some (Ok 7) ∧
  wait_for_leader_grpc 10 sample_polls (poll_interval + 4999) = Some (Err (NoLeaderWithin (poll_interval + 4999))) ∧
  wait_for_leader_grpc 10 sample_polls 0 = Some (Err (NoLeaderWithin 0)).
Proof. vm_compute. done. Qed.
