(* ===== verification/Crash.v ===== *)
(** * Recovery after a crash

    A crash can come at any moment: while jobs wait for the notification thread, while
    records wait in the queues of the log, while a writer thread is between two [write]
    calls, before the system has put on the disk what it was given. This file composes
    the store (src/store.rs), the notification thread, the log and its writer threads
    (src/wal.rs) with the start of a store on what the crash left in the directory. *)
From stdpp Require Import functions relations.
From S2P Require Import Prelude Bytes BTreeMap BlockDeque Heap Types Wal WalWorkers Prefix History Store StoreSpec WatchSpec StoreTrace StoreProps Notify Recovery Peers Startup.
Import StoreTrace.

(** ** Logs cut short *)

(** Reading a log that was cut anywhere yields the records before the cut. *)
Lemma scan_cut q n :
  Forall record_ok q →
  ∃ j, (scan (take n (encode_records q))).1 = forget_notify <$> take j q ∧
    ∀ i, (i ≤ length q)%nat → (length (encode_records (take i q)) ≤ n)%nat → (i ≤ j)%nat.
Proof.
  intros Hok. revert n. induction Hok as [|rec q Hrec Hok IH]; intros n.
  { exists 0%nat. change (encode_records []) with ([] : ByteArray). rewrite take_nil. split; [done|]. simpl. lia. }
  rewrite encode_records_cons. destruct (decide (n < length (encode_record rec))%nat) as [Hn|Hn].
  - exists 0%nat. rewrite take_app_le, scan_step, (read_torn rec n) by (done || lia). split; [by case_decide|].
    intros [|i] _ Hi; [lia|]. cbn [take] in Hi. rewrite encode_records_cons, length_app in Hi. lia.
  - destruct (IH (n - length (encode_record rec))%nat) as (j & Hj & Hmax). exists (S j).
    rewrite take_app_ge, scan_step, read_encoded, Hj by (done || lia). split; [done|].
    intros [|i] Hi Hle; [lia|]. cbn [take length] in Hi, Hle. rewrite encode_records_cons, length_app in Hle.
    specialize (Hmax i). lia.
Qed.

(** ** What is in the queues *)

Definition queue_of (m : WalManager) (p : ByteArray) : list WalRecord := default [] (writers m !! p).

(** The prefix a key is logged under. *)
Definition log_prefix (k : ByteArray) : ByteArray := from_utf8_lossy (prefix_split k).1.

Lemma append_queue_of m p rev k v n :
  default_mode m ≠ WalNone →
  let m' := (append m p rev k v n).1 in
  default_mode m' = default_mode m ∧ prefix_modes_no_persist m' = prefix_modes_no_persist m ∧
  ∀ q, queue_of m' q = queue_of m q ++
    if decide (q = p ∧ q ∉ prefix_modes_no_persist m) then [mkWalRecord rev k v n] else [].
Proof.
  intros Hm. unfold append. rewrite (bool_decide_false (default_mode m = WalNone)) by done. simpl.
  case_bool_decide as Hp; simpl.
  { split; [done|]. split; [done|]. intros q. rewrite decide_False by naive_solver. by rewrite app_nil_r. }
  destruct (writers m !! p) as [l|] eqn:E; simpl; (split; [done|]); (split; [done|]); intros q;
    unfold queue_of; simpl; (destruct (decide (q = p)) as [->|Hne];
    [rewrite decide_True by done|rewrite decide_False, app_nil_r by naive_solver]);
    rewrite ?lookup_insert_eq, ?lookup_insert_ne, ?E by done; simpl; rewrite ?lookup_insert_eq; done.
Qed.

(** The notification thread queues each job's record under its prefix, in the order it
    handles the jobs, unless the prefix is not persisted. *)
Lemma jobs_queued jobs w m :
  log w = Some m → default_mode m ≠ WalNone →
  ∃ m', log (foldl do_send w jobs) = Some m' ∧
    ∀ p, queue_of m' p = queue_of m p ++
      if decide (p ∈ prefix_modes_no_persist m) then []
      else job_record <$> filter (λ j, job_prefix j = p) jobs.
Proof.
  revert w m. induction jobs as [|j jobs IH]; intros w m Hl Hm; simpl.
  { exists m. split; [done|]. intros p. case_decide; by rewrite app_nil_r. }
  destruct (append_queue_of m (job_prefix j) (job_rev j) (kv_key (kv (job_msg j)))
    (if kv_version (kv (job_msg j)) =? 0 then None else Some (kv_value (kv (job_msg j))))
    (wal_handled j) Hm) as (Hm1 & Hnp & Hq).
  destruct (append m _ _ _ _ _) as [m1 now] eqn:E. simpl in Hm1, Hnp, Hq.
  destruct (IH (do_send w j) m1) as (m' & Hl' & Hq'); [|congruence|].
  { unfold do_send. by rewrite Hl, E. }
  exists m'. split; [done|]. intros p. rewrite Hq', Hq, Hnp, <- app_assoc. f_equal.
  rewrite filter_cons. repeat case_decide; naive_solver.
Qed.

(** Every job is logged under the prefix of its key. *)
Definition prefixed (s : Store) : Prop :=
  Forall (λ j, job_prefix j = log_prefix (kv_key (kv (job_msg j)))) (notify_tx s).

Lemma set_prefixed `{!BlockSize} s h key new required s' r :
  store_repr s h → Z.of_nat (length h) < i64_max → set s key new required = Ret (s', r) →
  prefixed s → prefixed s'.
Proof.
  intros Hr Hlt Hset Hp. destruct (set_spec s h key new required Hr Hlt) as (s2 & Hset2 & _ & _ & Hjob).
  rewrite Hset in Hset2. injection Hset2 as <- ->.
  destruct (hist_set h key new required).2 as [rev|e]; [|unfold prefixed; by rewrite Hjob].
  destruct Hjob as (job & Hj & _ & Hkv). destruct (set_job_mark _ _ _ _ _ _ Hset) as (job' & Hj' & _ & Hpre).
  rewrite Hj in Hj'. simplify_list_eq. unfold prefixed. rewrite Hj. apply Forall_app. split; [done|].
  constructor; [|done]. rewrite Hpre, Hkv. done.
Qed.

(** The other operations leave the jobs alone. *)
Lemma step_prefixed `{!BlockSize} s a o s' r :
  implements s a → Z.of_nat (length (hist a)) < i64_max → step s o = Ret (s', r) →
  prefixed s → prefixed s'.
Proof.
  intros Hi Hlt Hs Hp. pose proof (im_repr _ _ Hi) as Hr.
  assert (notify_tx s' = notify_tx s → prefixed s') as Hsame by (unfold prefixed; by intros ->).
  destruct o as [k v req|k req|k new|b e rev lim|b e rev want|b id|rev]; simpl in Hs;
    try (apply bind_ret_inv in Hs as (x & Hx & [= <- _])).
  - destruct x as [s1 r1]. by eapply set_prefixed.
  - destruct x as [s1 r1]. by eapply set_prefixed.
  - apply Hsame. by injection (outbox_set_for_replay _ _ _ _ Hx).
  - done.
  - apply Hsame. destruct x as [s1 r1]. by eapply watch_jobs.
  - by injection Hs as <- _.
  - apply Hsame. destruct x as [s1 r1]. by eapply compact_jobs.
Qed.

Lemma run_prefixed `{!BlockSize} s a ops s' rs :
  implements s a → legal_run a ops →
  Z.of_nat (length (hist a)) + Z.of_nat (length ops) ≤ i64_max →
  Z.of_nat (length (channels s)) + Z.of_nat (length ops) ≤ i64_max →
  run s ops = Ret (s', rs) → prefixed s → prefixed s'.
Proof. apply (run_preserves prefixed). intros. by eapply step_prefixed. Qed.

(** ** Replaying part of a history *)

(** A change without its revisions: the key, the value and the version. *)
Definition content (c : change) : option (ByteArray * option ByteArray * Z) :=
  '(k, v) ← c; Some (k, value v, version v).

Definition contents (h : history) : list (ByteArray * option ByteArray * Z) := omap content h.

#[export] Instance from_option_dec {A} (P : A → Prop) `{!∀ x, Decision (P x)} o :
  Decision (from_option P False o).
Proof. destruct o; apply _. Defined.

(** The changes whose records satisfy [P]. *)
Definition changes_with (P : WalRecord → Prop) `{!∀ r, Decision (P r)} (h : history) : history :=
  filter (λ c, from_option P False (change_record c)) h.

Lemma contents_of_key h k :
  filter (λ c, c.1.1 = k) (contents h) = (λ v, (k, value v, version v)) <$> events h k.
Proof.
  unfold contents, events. induction h as [|[[k' v]|] h IH]; csimpl; [done| |done].
  rewrite filter_cons. simpl. destruct (decide (k' = k)) as [->|]; csimpl; by rewrite IH.
Qed.

(** The latest value of a key is in the contents, but for its revisions. *)
Lemma latest_of_contents h g k :
  filter (λ c, c.1.1 = k) (contents h) = filter (λ c, c.1.1 = k) (contents g) →
  value (latest_or_null h k) = value (latest_or_null g k) ∧
  version (latest_or_null h k) = version (latest_or_null g k).
Proof.
  rewrite !contents_of_key. intros Heq. apply (f_equal last) in Heq. rewrite !fmap_last in Heq.
  unfold latest_or_null, latest_of.
  destruct (last (events h k)), (last (events g k)); simplify_eq/=; done.
Qed.

(** All the changes of [k] kept, none of them lost. *)
Lemma changes_with_key P `{!∀ r, Decision (P r)} h k :
  (∀ c r, c ∈ h → change_record c = Some r → rec_key r = k → P r) →
  filter (λ c, c.1.1 = k) (contents (changes_with P h)) = filter (λ c, c.1.1 = k) (contents h).
Proof.
  unfold contents, changes_with. induction h as [|[[k' v]|] h IH]; intros Hall; [done| |].
  - rewrite filter_cons. assert (∀ c r, c ∈ h → change_record c = Some r → rec_key r = k → P r) as Hall'.
    { intros c r Hc. apply Hall. by right. }
    case_decide as HP; csimpl; rewrite !filter_cons; simpl; [by rewrite IH|].
    destruct (decide (k' = k)) as [->|]; [|by apply IH]. destruct HP. simpl.
    eapply (Hall (Some (k, v))); [by left|done|done].
  - csimpl. apply IH. intros c r Hc. apply Hall. by right.
Qed.

(** Replaying the records that satisfy [P] restores exactly their changes, when [P] keeps
    with a record the earlier ones of its key. *)
Lemma replay_kept P `{!∀ r, Decision (P r)} h :
  built h → hist_ok h →
  (∀ r1 r2, r1 ∈ history_records h → r2 ∈ history_records h → rec_key r1 = rec_key r2 →
     rec_rev r1 < rec_rev r2 → P r2 → P r1) →
  contents (rebuilt (filter P (history_records h))) = contents (changes_with P h).
Proof.
  induction 1 as [|h k new Hb IH Hlive _]; intros Hok Hdown; [done|]. unfold hist_write in *.
  pose proof (hist_ok_app_l _ _ Hok) as Hok'. set (c := Some (k, _)) in *.
  set (r := mkWalRecord (Z.of_nat (length h) + 1) k new None).
  assert (history_records (h ++ [c]) = history_records h ++ [r]) as Hrec.
  { unfold history_records. by rewrite omap_app. }
  rewrite Hrec in Hdown |- *. unfold changes_with in *. rewrite !filter_app.
  rewrite filter_cons, filter_nil, (filter_cons _ c), filter_nil.
  change (from_option P False (change_record c)) with (P r).
  assert (contents (rebuilt (filter P (history_records h))) = contents (changes_with P h)) as IH'.
  { apply IH; [done|]. intros r1 r2 H1 H2. apply Hdown; apply elem_of_app; by left. }
  destruct (decide (P r)) as [HP|HP]; [|by rewrite !app_nil_r].
  set (g := rebuilt (filter P (history_records h))) in *.
  assert (filter (λ c, c.1.1 = k) (contents g) = filter (λ c, c.1.1 = k) (contents h)) as Hk.
  { rewrite IH'. apply changes_with_key. intros c' r' Hc' Hr' Hkey. apply (Hdown r' r).
    - apply elem_of_app. left. apply list_elem_of_omap. eauto.
    - apply elem_of_app. right. by apply list_elem_of_singleton.
    - done.
    - destruct c' as [[k' v]|]; [|done]. injection Hr' as <-. simpl.
      apply list_elem_of_lookup in Hc' as [i Hi]. rewrite (Hok' _ _ _ Hi). apply lookup_lt_Some in Hi. lia.
    - done. }
  destruct (latest_of_contents g h k Hk) as [Hval Hver].
  assert (rebuilt (filter P (history_records h) ++ [r]) = hist_write g k new) as ->.
  { unfold rebuilt. rewrite foldl_app. simpl. fold (rebuilt (filter P (history_records h))). fold g.
    unfold hist_replay. rewrite Hval. destruct (value (latest_or_null h k)), new; naive_solver. }
  unfold contents, hist_write in *. rewrite !omap_app, IH'. f_equal. subst c. simpl.
  unfold is_live. rewrite Hval, Hver. done.
Qed.

(** ** What survives *)

Lemma filter_sorted (P : WalRecord → Prop) `{!∀ r, Decision (P r)} l :
  StronglySorted Z.lt (rec_rev <$> l) → StronglySorted Z.lt (rec_rev <$> filter P l).
Proof.
  induction l as [|x l IH]; csimpl; intros Hs; [done|]. inversion Hs as [|?? Hs' Hx]; subst.
  rewrite filter_cons. case_decide; csimpl; [|by apply IH]. constructor; [by apply IH|].
  rewrite Forall_fmap, Forall_forall in Hx |- *. intros y [_ Hy]%list_elem_of_filter. by apply Hx.
Qed.

Lemma sorted_NoDup (l : list WalRecord) : StronglySorted Z.lt (rec_rev <$> l) → NoDup l.
Proof.
  induction l as [|x l IH]; csimpl; intros Hs; [constructor|]. inversion Hs as [|?? Hs' Hx]; subst.
  apply NoDup_cons. split; [|by apply IH]. intros Hin. rewrite Forall_fmap, Forall_forall in Hx.
  specialize (Hx x Hin). simpl in Hx. lia.
Qed.

Lemma history_records_length h : (length (history_records h) ≤ length h)%nat.
Proof. unfold history_records. induction h as [|[[k v]|] h IH]; csimpl; lia. Qed.

Lemma history_records_sorted h : hist_ok h → StronglySorted Z.lt (rec_rev <$> history_records h).
Proof. apply omap_revs_sorted. intros [[k v]|] r; simpl; [|done]. intros [= <-]. eauto. Qed.

(** Of each log, [surv] is the start that survives. *)
Definition survives (surv : ByteArray → list WalRecord) (r : WalRecord) : Prop :=
  r ∈ surv (log_prefix (rec_key r)).

#[export] Instance survives_dec surv r : Decision (survives surv r).
Proof. unfold survives. apply _. Defined.

Section survivors.
Variables (h : history) (surv : ByteArray → list WalRecord) (ps : list ByteArray).
Hypothesis h_ok : hist_ok h.
Hypothesis surv_prefix : ∀ p, surv p `prefix_of` filter (λ r, log_prefix (rec_key r) = p) (history_records h).

Lemma surv_elem p r : r ∈ surv p → r ∈ history_records h ∧ log_prefix (rec_key r) = p.
Proof.
  intros Hr. destruct (surv_prefix p) as [l Hl].
  assert (r ∈ filter (λ r, log_prefix (rec_key r) = p) (history_records h)) as Hin
    by (rewrite Hl; set_solver).
  by apply list_elem_of_filter in Hin as [? ?].
Qed.

(** With a record survive the earlier ones of its key. *)
Lemma survives_down r1 r2 :
  r1 ∈ history_records h → rec_key r1 = rec_key r2 → rec_rev r1 < rec_rev r2 → survives surv r2 → survives surv r1.
Proof.
  unfold survives. intros H1 Hk Hlt H2. rewrite Hk. set (p := log_prefix (rec_key r2)) in *.
  destruct (surv_prefix p) as [l Hl].
  assert (r1 ∈ surv p ++ l) as [Hin|Hin]%elem_of_app; [|done|].
  { rewrite <- Hl. apply list_elem_of_filter. split; [|done]. subst p. by rewrite Hk. }
  pose proof (filter_sorted (λ r, log_prefix (rec_key r) = p) _ (history_records_sorted h h_ok)) as Hs.
  rewrite Hl, fmap_app in Hs.
  pose proof (StronglySorted_app_1_elem_of _ _ _ (rec_rev r2) (rec_rev r1) Hs) as Hlt'.
  specialize (Hlt' (list_elem_of_fmap_2 _ _ _ H2) (list_elem_of_fmap_2 _ _ _ Hin)). lia.
Qed.

(** The survivors of all the logs, merged. *)
Lemma survivors_merged recs :
  NoDup ps → (∀ p, surv p ≠ [] → p ∈ ps) → recs ≡ₚ ps ≫= surv → rev_sorted recs →
  recs = filter (survives surv) (history_records h).
Proof.
  intros Hps Hall Hp Hs. pose proof (history_records_sorted h h_ok) as Hh.
  apply sorted_records_unique; [|done|by apply filter_sorted]. rewrite Hp. apply NoDup_Permutation.
  - apply NoDup_bind; [|..|done].
    + intros p q r _ _ Hr1%surv_elem Hr2%surv_elem. naive_solver.
    + intros p _. apply sorted_NoDup. destruct (surv_prefix p) as [l Hl].
      pose proof (filter_sorted (λ r, log_prefix (rec_key r) = p) _ Hh) as Hsp. rewrite Hl, fmap_app in Hsp.
      by apply StronglySorted_app_1_l in Hsp.
  - by apply sorted_NoDup, filter_sorted.
  - intros r. rewrite list_elem_of_bind, list_elem_of_filter. unfold survives. split.
    + intros (p & Hr & _). destruct (surv_elem _ _ Hr) as [? <-]. done.
    + intros [Hr _]. exists (log_prefix (rec_key r)). split; [done|]. apply Hall. intros E.
      rewrite E in Hr. by apply elem_of_nil in Hr.
Qed.
End survivors.

(** ** The crash *)

(** What is on the disk of the log of [p]: its first [cut p] bytes. *)
Definition disk (st : WState) (cut : ByteArray → nat) (p : ByteArray) : ByteArray :=
  take (cut p) (log_bytes (ws st p)).

(** The directory, in the order [ps] the file system lists it. *)
Definition crash_dir (st : WState) (cut : ByteArray → nat) (ps : list ByteArray) : list DirEntry :=
  (λ p, mkDirEntry (file_name_for_prefix p) true (disk st cut p)) <$> ps.

Lemma scans_of_crash_dir st cut ps :
  scans_of (crash_dir st cut ps) = (λ p, scan (disk st cut p)) <$> ps.
Proof.
  unfold scans_of, crash_dir. induction ps as [|p ps IH]; csimpl; [done|].
  rewrite filter_cons, decide_True; [|unfold is_log; simpl; apply file_name_is_log]. csimpl. by rewrite IH.
Qed.

(** The records of a log on the disk are the first ones appended to it; in sync mode
    those acknowledged are among them. *)
Lemma disk_records mode n st cut p :
  reachable mode n st → failed (ws st p) = false → Forall record_ok (appended (ws st p)) →
  (log_synced (ws st p) ≤ cut p)%nat →
  (scan (disk st cut p)).1 `prefix_of` forget_notify <$> appended (ws st p) ∧
  (mode = WalSync → forget_notify <$> acked (ws st p) `prefix_of` (scan (disk st cut p)).1).
Proof.
  intros Hr Hf Hok Hcut. destruct (log_of_reachable _ _ _ p Hr Hf) as ([b Hb] & [l Hl] & Hle & Hsync).
  assert (disk st cut p = take (cut p `min` length (log_bytes (ws st p))) (encode_records (appended (ws st p)))) as ->.
  { unfold disk. by rewrite <- take_take, Hb, take_app_length. }
  destruct (scan_cut (appended (ws st p)) (cut p `min` length (log_bytes (ws st p))) Hok) as (j & -> & Hmax).
  split.
  - exists (forget_notify <$> drop j (appended (ws st p))). by rewrite <- fmap_app, take_drop.
  - intros Hm. specialize (Hsync Hm).
    assert (length (acked (ws st p)) ≤ j)%nat as Hj.
    { apply Hmax; rewrite Hl; [rewrite length_app; lia|]. rewrite take_app_length. lia. }
    exists (forget_notify <$> take (j - length (acked (ws st p))) l).
    rewrite <- fmap_app. f_equal. rewrite Hl at 1. by rewrite take_app_ge.
Qed.

(** The records of a history that go to the log of [p]. *)
Lemma jobs_under_prefix s h p :
  prefixed s → forget_notify <$> (job_record <$> notify_tx s) = history_records h →
  forget_notify <$> (job_record <$> filter (λ j, job_prefix j = p) (notify_tx s)) =
    filter (λ r, log_prefix (rec_key r) = p) (history_records h).
Proof.
  unfold prefixed. intros Hp <-. induction Hp as [|j js Hj _ IH]; csimpl; [done|].
  rewrite !filter_cons. simpl. rewrite <- Hj. case_decide; csimpl; by rewrite IH.
Qed.

Lemma queue_survives s h np m p l :
  prefixed s → forget_notify <$> (job_record <$> notify_tx s) = history_records h →
  Forall record_ok (history_records h) →
  queue_of m p = (if decide (p ∈ (np : gset ByteArray)) then []
                  else job_record <$> filter (λ j, job_prefix j = p) (notify_tx s)) →
  l `prefix_of` queue_of m p →
  Forall record_ok l ∧ forget_notify <$> l `prefix_of` filter (λ r, log_prefix (rec_key r) = p) (history_records h).
Proof.
  intros Hp Hrecs Hok Hq [l' Hl].
  assert (forget_notify <$> queue_of m p `prefix_of` filter (λ r, log_prefix (rec_key r) = p) (history_records h)) as Hpre.
  { rewrite Hq. case_decide; [apply prefix_nil|]. by rewrite (jobs_under_prefix s h). }
  rewrite Hl, fmap_app in Hpre. split; [|by eapply prefix_app_l].
  destruct Hpre as [l'' Hpre]. apply (Forall_impl (record_ok ∘ forget_notify)); [|done].
  apply (Forall_fmap forget_notify), Forall_forall. intros r Hr. rewrite Forall_forall in Hok. apply Hok.
  assert (r ∈ filter (λ r, log_prefix (rec_key r) = p) (history_records h)) as Hin by (rewrite Hpre; set_solver).
  by apply list_elem_of_filter in Hin as [_ ?].
Qed.

(** The start of a store after the crash: the changes whose records survive, or a panic
    when a log ends within the body of a record. *)
Lemma start_after_crash `{!BlockSize} mode h st cut ps :
  let surv p := (scan (disk st cut p)).1 in
  built h → hist_ok h → Z.of_nat (length h) < i64_max →
  (∀ p, surv p `prefix_of` filter (λ r, log_prefix (rec_key r) = p) (history_records h)) →
  NoDup ps → (∀ p, log_bytes (ws st p) ≠ [] → p ∈ ps) →
  if decide (Forall (λ p, (scan (disk st cut p)).2 = true) ps)
  then ∃ s' h', store_new (Some mode) (Some (crash_dir st cut ps)) = Ret s' ∧ store_repr s' h' ∧
         contents h' = contents (changes_with (survives surv) h)
  else ∃ msg, store_new (Some mode) (Some (crash_dir st cut ps)) = Panic msg.
Proof.
  intros surv Hb Hok Hlt Hpre Hps Hfiles.
  destruct (load_wal_dir_scans (crash_dir st cut ps)) as (recs & r & Hload & Hgood & Hbad).
  rewrite scans_of_crash_dir in Hgood, Hbad. unfold all_ok in Hgood, Hbad. rewrite Forall_fmap in Hgood, Hbad.
  unfold store_new. rewrite Hload, bind_ret. case_decide as Hall.
  - destruct (Hgood Hall) as (-> & Hperm & Hsort). rewrite <- list_fmap_compose in Hperm, Hsort.
    change (fst ∘ (λ p, scan (disk st cut p))) with surv in Hperm, Hsort.
    assert (concat (surv <$> ps) = ps ≫= surv) as Hc.
    { clear. induction ps as [|p ps IH]; csimpl; [done|]. by rewrite IH. }
    rewrite Hc in Hperm.
    assert (recs = filter (survives surv) (history_records h)) as ->.
    { eapply survivors_merged; [done|exact Hpre|exact Hps| |exact Hperm|].
      - intros p Hne. apply Hfiles. intros E. apply Hne. subst surv. simpl. unfold disk. by rewrite E, take_nil.
      - apply Hsort, Forall_fmap, Forall_forall. intros p _.
        destruct (Hpre p) as [l Hl]. pose proof (filter_sorted (λ r, log_prefix (rec_key r) = p) _ (history_records_sorted h Hok)) as Hs.
        rewrite Hl, fmap_app in Hs. apply StronglySorted_app_1_l in Hs. unfold rev_sorted. simpl. clear -Hs.
        induction Hs as [|x l Hs IH Hx]; constructor; [done|]. eapply Forall_impl; [exact Hx|]. simpl. lia. }
    destruct (replay_records_repr (new_store (Some mode)) [] (filter (survives surv) (history_records h)))
      as (s' & Hrep & Hr').
    { apply (im_repr _ _ (new_implements (Some mode))). }
    { assert (length (filter (survives surv) (history_records h)) ≤ length h)%nat; [|simpl; lia].
      etrans; [apply length_filter|]. apply history_records_length. }
    exists s', (rebuilt (filter (survives surv) (history_records h))). rewrite Hrep, bind_ret.
    split; [done|]. split; [done|]. apply replay_kept; [done|done|].
    intros r1 r2 H1 _ Hk Hlt12 H2. by eapply survives_down.
  - destruct (Hbad Hall) as [e ->].
    destruct (replay_records (new_store (Some mode)) recs) as [s'|msg]; [rewrite bind_ret|]; by eexists.
Qed.

(** ** Properties *)

(** The manager of a store that starts with an empty log directory and does not persist
    the prefixes [np]. *)
Definition fresh_log (mode : WalMode) (np : gset ByteArray) : WalManager := mkWalManager mode np ∅ ∅ [].

(** C7: recovery after a crash. Take any run of a new store, some prefixes not persisted,
    the notification thread having seen its jobs in whatever order, and let the crash come
    at any moment of any interleaving of the writer threads, when each log has received
    some of the records queued for it, no system call having failed, and the disk some of
    the bytes written, no less than [fsync] covered. If no log on the disk ends within the
    body of a record, the store starts and has exactly the changes whose records were
    whole on the disk, in the order they were made, with their keys, values and versions
    (the revisions are counted anew, without the changes that were lost); otherwise it
    panics. In fsync mode every record whose writer was answered is on the disk. *)
Theorem crash_recovery `{!BlockSize} mode np ops s rs w jobs m n st cut ps :
  let h := hist (final empty ops) in
  let surv p := (scan (disk st cut p)).1 in
  mode ≠ WalNone → legal_run empty ops → Forall (λ o, no_replay o = true) ops →
  Z.of_nat (length ops) < i64_max → run (new_store (Some mode)) ops = Ret (s, rs) →
  Forall record_ok (history_records h) →
  log w = Some (fresh_log mode np) → jobs ≡ₚ notify_tx s →
  log (world (process (start_thread w) jobs)) = Some m →
  reachable mode n st →
  (∀ p, failed (ws st p) = false ∧ appended (ws st p) `prefix_of` queue_of m p ∧
     (log_synced (ws st p) ≤ cut p)%nat) →
  NoDup ps → (∀ p, log_bytes (ws st p) ≠ [] → p ∈ ps) →
  (if decide (Forall (λ p, (scan (disk st cut p)).2 = true) ps)
   then ∃ s' h', store_new (Some mode) (Some (crash_dir st cut ps)) = Ret s' ∧ store_repr s' h' ∧
          contents h' = contents (changes_with (survives surv) h)
   else ∃ msg, store_new (Some mode) (Some (crash_dir st cut ps)) = Panic msg) ∧
  (mode = WalSync → ∀ p, forget_notify <$> acked (ws st p) `prefix_of` surv p).
Proof.
  intros h surv Hmode Hleg Hno Hlen Hrun Hok Hw Hjobs Hm Hreach Hst Hps Hfiles.
  destruct (logged_run mode ops s rs Hleg Hno Hlen Hrun) as (Hr & Hb & Hrev & Hrecs & Hlj & Hlt).
  fold h in Hr, Hb, Hrev, Hrecs, Hlj, Hlt.
  assert (prefixed s) as Hpre.
  { eapply (run_prefixed (new_store (Some mode)) empty); [apply new_implements|done|simpl; lia|simpl; lia|done|constructor]. }
  rewrite (process_all w jobs (notify_tx s) _ Hjobs Hrev) in Hm by lia. cbn [world] in Hm.
  destruct (jobs_queued (notify_tx s) w (fresh_log mode np) Hw Hmode) as (m' & Hm' & Hq).
  rewrite Hm in Hm'. injection Hm' as <-.
  assert (∀ p, surv p `prefix_of` filter (λ r, log_prefix (rec_key r) = p) (history_records h) ∧
    (mode = WalSync → forget_notify <$> acked (ws st p) `prefix_of` surv p)) as Hsurv.
  { intros p. destruct (Hst p) as (Hf & Happ & Hcut).
    destruct (queue_survives s h np m p _ Hpre Hrecs Hok (Hq p) Happ) as [Hrok Hin].
    destruct (disk_records mode n st cut p Hreach Hf Hrok Hcut) as [Hd Hack].
    split; [by etrans|done]. }
  split; [|intros Hs p; by apply Hsurv].
  apply start_after_crash; try done; [apply (sr_hist _ _ Hr)|]. intros p. apply Hsurv.
Qed.

(** Two writes, the second of which was never written to its log when the crash came. *)
Definition crash_ops : list op := [OPut (bytes "a") (bytes "x") None; OPut (bytes "b") (bytes "y") None].

Definition crash_world : World := mkWorld (Some (fresh_log WalSync ∅)) [] [].

Lemma crash_run :
  ∃ s rs m, run (H:=block_size_2) (new_store (Some WalSync)) crash_ops = Ret (s, rs) ∧
    log (world (process (start_thread crash_world) (reverse (notify_tx s)))) = Some m ∧
    queue_of m [] = [rec1; mkWalRecord 2 (bytes "b") (Some (bytes "y")) (Some 1%nat)].
Proof.
  assert (match run (H:=block_size_2) (new_store (Some WalSync)) crash_ops with
          | Ret (s, _) =>
              match log (world (process (start_thread crash_world) (reverse (notify_tx s)))) with
              | Some m => bool_decide (queue_of m [] = [rec1; mkWalRecord 2 (bytes "b") (Some (bytes "y")) (Some 1%nat)])
              | None => false
              end
          | Panic _ => false
          end = true) as Hc by (vm_compute; reflexivity).
  destruct (run _ _) as [[s rs]|]; [|done]. destruct (log _) as [m|] eqn:E; [|done].
  exists s, rs, m. split; [done|]. split; [done|]. by apply bool_decide_eq_true in Hc.
Qed.

Lemma crash_recovery_witness :
  ∃ s' h', store_new (H:=block_size_2) (Some WalSync) (Some (crash_dir run13 (λ _, 18%nat) [[]])) = Ret s' ∧
    store_repr (H:=block_size_2) s' h' ∧ contents h' = [(bytes "a", Some (bytes "x"), 1)].
Proof.
  destruct crash_run as (s & rs & m & E & Hm & Hq).
  destruct (@crash_recovery block_size_2 WalSync ∅ crash_ops s rs crash_world (reverse (notify_tx s)) m 2 run13
    (λ _, 18%nat) [[]]) as [Hstart _].
  - discriminate.
  - vm_compute. repeat split.
  - repeat constructor.
  - vm_compute. reflexivity.
  - exact E.
  - repeat constructor; vm_compute; (discriminate || reflexivity).
  - reflexivity.
  - apply reverse_Permutation.
  - exact Hm.
  - exact run13_reachable.
  - intros p. destruct (decide (p = [])) as [->|Hp].
    + split; [reflexivity|]. split; [rewrite Hq; exists [mkWalRecord 2 (bytes "b") (Some (bytes "y")) (Some 1%nat)]; reflexivity|].
      apply (bool_decide_unpack _). vm_compute. exact I.
    + unfold run13, run12, run11, run10, run9, run8, run7, run6, run5, run4, run3, run2, run1. simpl.
      rewrite !fn_lookup_insert_ne by done. simpl. split; [reflexivity|]. split; [apply prefix_nil|lia].
  - apply NoDup_singleton.
  - intros p Hp. destruct (decide (p = [])) as [->|Hne]; [by left|]. exfalso. apply Hp.
    unfold run13, run12, run11, run10, run9, run8, run7, run6, run5, run4, run3, run2, run1. simpl.
    by rewrite !fn_lookup_insert_ne by done.
  - rewrite decide_True in Hstart by (repeat constructor).
    destruct Hstart as (s' & h' & Hs & Hr & Hc). exists s', h'. split; [exact Hs|]. split; [exact Hr|].
    rewrite Hc. vm_compute. reflexivity.
Defined.

(** A prefix that is not persisted, or a lost tail, shifts the revisions that were
    answered for the other keys: the key written at revision 2 is read back at 1. *)
Example restart_renumbers :
  match run (H:=block_size_2) (new_store (Some WalSync))
          [OPut (bytes "/registry/events/e") (bytes "1") None; OPut (bytes "/registry/pods/p") (bytes "2") None] with
  | Ret (s, rs) =>
      rs = [RWrite (Ok 1); RWrite (Ok 2)] ∧
      match log (world (process (start_thread (mkWorld (Some (fresh_log WalSync {[bytes "/registry/events/"]})) [] []))
                          (notify_tx s))) with
      | Some m =>
          match store_new (H:=block_size_2) (Some WalSync) (Some (log_dir m).*1) with
          | Ret s' => current_revision s' = 1
          | Panic _ => False
          end
      | None => False
      end
  | Panic _ => False
  end.
Proof. vm_compute. split; reflexivity. Qed.
