(* ===== verification/KvService.v ===== *)
(** * The key-value service (src/kv_service.rs)

    The five handlers of the etcd KV API over the store, alone or with writes going
    through Raft. A handler is a computation that reads and changes the store and ends
    in a response or a gRPC status. openraft is an argument: what it knows of the
    leader, and what a write through it does. *)
From S2P Require Import Prelude Bytes BTreeMap BlockDeque Types Prefix History Store StoreSpec WatchSpec StoreTrace StoreProps Raft.

(** ** Messages *)

Record ResponseHeader := mkHeader { cluster_id : Z; member_id : Z; hdr_revision : Z; raft_term : Z }.

Definition header (rev : Z) : ResponseHeader := mkHeader 0 0 rev 0.

Record RangeRequest := mkRangeRequest {
  rr_key : ByteArray;
  rr_range_end : ByteArray;
  rr_limit : Z;
  rr_revision : Z;
  rr_count_only : bool;
}.

Record RangeResponse := mkRangeResponse {
  rresp_header : ResponseHeader;
  rresp_kvs : list KeyValue;
  rresp_more : bool;
  rresp_count : Z;
}.

Record PutRequest := mkPutRequest {
  pr_key : ByteArray;
  pr_value : ByteArray;
  pr_prev_kv : bool;
  pr_ignore_value : bool;
}.

Record PutResponse := mkPutResponse { presp_header : ResponseHeader; presp_prev_kv : option KeyValue }.

Record DeleteRangeRequest := mkDeleteRangeRequest {
  dr_key : ByteArray;
  dr_range_end : ByteArray;
  dr_prev_kv : bool;
}.

Record DeleteRangeResponse := mkDeleteRangeResponse {
  dresp_header : ResponseHeader;
  dresp_deleted : Z;
  dresp_prev_kvs : list KeyValue;
}.

(** The [target_union] of a compare. *)
Inductive TargetUnion :=
| TVersion (v : Z)
| TCreateRevision (v : Z)
| TModRevision (v : Z)
| TValue (v : ByteArray)
| TLease (v : Z).

Record Compare := mkCompare {
  cmp_result : Z;
  cmp_key : ByteArray;
  target_union : option TargetUnion;
}.

(** A request of a transaction; nested transactions are refused unread. *)
Inductive TxnOp :=
| RequestRange (r : RangeRequest)
| RequestPut (r : PutRequest)
| RequestDeleteRange (r : DeleteRangeRequest)
| RequestTxn.

(** The [request] of a [RequestOp] is optional. *)
Record TxnRequest := mkTxnRequest {
  txn_compare : list Compare;
  txn_success : list (option TxnOp);
  txn_failure : list (option TxnOp);
}.

Inductive ResponseOp :=
| ResponseRange (r : RangeResponse)
| ResponsePut (r : PutResponse)
| ResponseDeleteRange (r : DeleteRangeResponse).

Record TxnResponse := mkTxnResponse {
  tresp_header : ResponseHeader;
  tresp_succeeded : bool;
  tresp_responses : list ResponseOp;
}.

(** ** Handlers as computations *)

(** A handler runs on the store and may panic, fail with a status or answer. *)
Definition handler (A : Type) : Type := Store → outcome (Store * Result A Status).

Definition answer {A} (a : A) : handler A := λ s, Ret (s, Ok a).
Definition fail {A} (e : Status) : handler A := λ s, Ret (s, Err e).

(** Sequencing with [?]. *)
Definition and_then {A B} (m : handler A) (f : A → handler B) : handler B := λ s,
  r ← m s;
  match r.2 with
  | Ok a => f a r.1
  | Err e => Ret (r.1, Err e)
  end.

Notation "'let?' x := m 'in' k" := (and_then m (λ x, k))
  (at level 10, x pattern, m at level 100, k at level 200) : etcd_scope.
#[local] Open Scope etcd_scope.

Definition invalid_argument (msg : string) : Status := mkStatus InvalidArgument msg [].

(** What the service sees of openraft: the metrics, and [client_write], which answers
    once the entry was applied to the state machine. *)
Record RaftNode := mkRaftNode {
  raft_id : Z;
  current_leader : option Z;
  client_write : RaftRequest → Store → outcome (Store * Result Z string);
}.

Section service.
Context `{!BlockSize} (raft : option RaftNode).

Definition store_range (start end_ : ByteArray) (rev : Z) (limit : option Z) : handler RangeResult := λ s,
  r ← range s start end_ rev limit; Ret (s, r).

Definition ensure_leader : handler unit :=
  match raft with
  | Some node =>
      match current_leader node with
      | Some leader =>
          if leader =? raft_id node then answer ()
          else fail (mkStatus FailedPrecondition "not leader, current leader is node {}" [AInt leader])
      | None => fail (mkStatus Unavailable "no leader elected" [])
      end
  | None => answer ()
  end.

Definition raft_write (req : RaftRequest) : handler Z :=
  match raft with
  | None => fail (mkStatus FailedPrecondition "raft not enabled" [])
  | Some node => λ s,
      r ← client_write node req s;
      Ret (r.1, match r.2 with
                | Ok rev => Ok rev
                | Err e => Err (mkStatus Internal "raft write failed: {:?}" [AText e])
                end)
  end.

(** The comparison on a key as a read returned it. *)
Definition check_compare (current_kv : option KeyValue) (required : option SetRequired) : bool :=
  let last_rev := req_last_revision required in
  let ver := req_version required in
  let ok := cmp_satisfied (req_cmp required) in
  match current_kv with
  | Some kv =>
      if (0 <=? last_rev) && negb (ok (kv_mod_revision kv) last_rev) then false
      else if (0 <=? ver) && negb (ok (kv_version kv) ver) then false
      else true
  | None => (last_rev <=? 0) && (ver <=? 0)
  end.

Definition range_limit (req : RangeRequest) : option Z :=
  if rr_count_only req then Some 0
  else if rr_limit req =? 0 then None
  else Some (as_usize (rr_limit req)).

Definition kv_range (req : RangeRequest) : handler RangeResponse :=
  let limit := range_limit req in
  let? range_result := store_range (rr_key req) (rr_range_end req) (rr_revision req) limit in
  let more := match limit with
              | None => false
              | Some l => if rr_count_only req then false else as_i64 l <? count range_result
              end in
  answer {| rresp_header := header (latest_rev range_result); rresp_kvs := kvs range_result;
            rresp_more := more; rresp_count := count range_result |}.

Definition kv_put (req : PutRequest) : handler PutResponse :=
  let? prev_kv :=
    if pr_prev_kv req || pr_ignore_value req then
      let? range_result := store_range (pr_key req) [] 0 (Some 1) in
      answer (head (kvs range_result))
    else answer None in
  let? value :=
    if pr_ignore_value req then
      match prev_kv with
      | Some kv => answer (kv_value kv)
      | None => fail (invalid_argument "ignore_value set but key does not exist")
      end
    else answer (pr_value req) in
  let? rev :=
    match raft with
    | Some _ => let? _ := ensure_leader in raft_write (RaftSet (pr_key req) value)
    | None => λ s,
        r ← set s (pr_key req) (Some value) None;
        Ret (r.1, match r.2 with
                  | Ok rev => Ok rev
                  | Err e => Err (mkStatus Internal "Put operation failed: {:?}" [ASetError e.1 e.2])
                  end)
    end in
  answer {| presp_header := header rev; presp_prev_kv := if pr_prev_kv req then prev_kv else None |}.

Definition kv_delete_range (req : DeleteRangeRequest) : handler DeleteRangeResponse :=
  if bool_decide (dr_range_end req ≠ []) then
    fail (invalid_argument "range end not supported in deleteRange")
  else
    let? range_result := store_range (dr_key req) [] 0 (Some 1) in
    let existing_kv := head (kvs range_result) in
    let deleted := match existing_kv with Some _ => 1 | None => 0 end in
    let? rev :=
      match raft with
      | Some _ => let? _ := ensure_leader in raft_write (RaftDelete (dr_key req))
      | None => λ s,
          r ← delete_key s (dr_key req) None;
          Ret (r.1, Ok (match r.2 with Ok rev => rev | Err e => e.1 end))
      end in
    answer {| dresp_header := header rev; dresp_deleted := deleted;
              dresp_prev_kvs := if dr_prev_kv req then option_list existing_kv else [] |}.

(** The condition of a transaction, from its one compare. *)
Definition txn_required (c : Compare) : Result SetRequired Status :=
  match target_union c with
  | None => Err (invalid_argument "compare target_union is required")
  | Some (TModRevision r) =>
      Ok {| required_last_revision := Some r; required_version := None; compare_result := cmp_result c |}
  | Some (TVersion v) =>
      Ok {| required_last_revision := None; required_version := Some v; compare_result := cmp_result c |}
  | Some _ => Err (invalid_argument "only MOD or VERSION target supported")
  end.

(** The checks on the failure branch: at most one read of the compared key. *)
Definition txn_check_failure (c : Compare) (failure : list (option TxnOp)) : Result unit Status :=
  match failure with
  | [] => Ok ()
  | [None] => Ok ()
  | [Some (RequestRange r)] =>
      if bool_decide (rr_key r ≠ cmp_key c) then Err (invalid_argument "compare key must match failure key")
      else if bool_decide (rr_range_end r ≠ []) then
        Err (invalid_argument "range end not supported in failure")
      else Ok ()
  | [Some _] => Err (invalid_argument "only range supported in failure")
  | _ => Err (invalid_argument "only one failure supported")
  end.

(** The write of a transaction: conditional in the store, or a check on a read followed by
    a write through Raft. *)
Definition txn_write (key : ByteArray) (new : option ByteArray) (req : RaftRequest)
    (required : SetRequired) : handler (Result Z SetError) :=
  match raft with
  | Some _ =>
      let? _ := ensure_leader in
      let? range_result := store_range key [] 0 (Some 1) in
      let current_kv := head (kvs range_result) in
      if negb (check_compare current_kv (Some required)) then
        answer (Err (latest_rev range_result, current_kv))
      else let? rev := raft_write req in answer (Ok rev)
  | None => λ s, r ← set s key new (Some required); Ret (r.1, Ok r.2)
  end.

(** The success branch: the result of its write, and whether it deletes. *)
Definition txn_success_op (c : Compare) (required : SetRequired) (op : TxnOp) :
    handler (Result Z SetError * bool) :=
  match op with
  | RequestPut put =>
      if bool_decide (pr_key put = []) then fail (invalid_argument "key required in success put")
      else if bool_decide (pr_key put ≠ cmp_key c) then
        fail (invalid_argument "compare key must match put key")
      else
        let? result := txn_write (pr_key put) (Some (pr_value put)) (RaftSet (pr_key put) (pr_value put))
                         required in
        answer (result, false)
  | RequestDeleteRange del =>
      if bool_decide (dr_key del = []) then fail (invalid_argument "key required in success deleteRange")
      else if bool_decide (dr_range_end del ≠ []) then
        fail (invalid_argument "range end not supported in deleteRange")
      else if bool_decide (dr_key del ≠ cmp_key c) then
        fail (invalid_argument "compare key must match deleteRange key")
      else
        let? result := txn_write (dr_key del) None (RaftDelete (dr_key del)) required in
        answer (result, true)
  | _ => fail (invalid_argument "only put and deleteRange supported in success")
  end.

Definition txn_response (failure : list (option TxnOp)) (result : Result Z SetError) (is_delete : bool) :
    TxnResponse :=
  match result with
  | Err (rev, kv) =>
      {| tresp_header := header rev; tresp_succeeded := false;
         tresp_responses := match failure with
                            | [] => []
                            | _ => [ResponseRange (mkRangeResponse (header rev) (option_list kv) false 1)]
                            end |}
  | Ok rev =>
      {| tresp_header := header rev; tresp_succeeded := true;
         tresp_responses :=
           [if is_delete then ResponseDeleteRange (mkDeleteRangeResponse (header rev) 1 [])
            else ResponsePut (mkPutResponse (header rev) None)] |}
  end.

(** A success request without its [request] is unwrapped, and panics. *)
Definition unwrap_request (o : option TxnOp) : handler TxnOp := λ s, op ← unwrap o; Ret (s, Ok op).

Definition kv_txn (req : TxnRequest) : handler TxnResponse :=
  match txn_compare req with
  | [c] =>
      match txn_required c with
      | Err e => fail e
      | Ok required =>
          match txn_success req with
          | [success] =>
              match txn_check_failure c (txn_failure req) with
              | Err e => fail e
              | Ok _ =>
                  let? op := unwrap_request success in
                  let? r := txn_success_op c required op in
                  answer (txn_response (txn_failure req) r.1 r.2)
              end
          | _ => fail (invalid_argument "only one success supported")
          end
      end
  | _ => fail (invalid_argument "only one compare supported")
  end.

Definition kv_compact (revision : Z) : handler ResponseHeader := λ s,
  r ← compact s revision;
  match r.2 with
  | Err e => Ret (r.1, Err (mkStatus Internal "Compaction operation failed: {:?}" [AStatus e]))
  | Ok _ => Ret (r.1, Ok (header (current_revision r.1)))
  end.
End service.

(** ** Lemmas *)

#[local] Arguments Z.leb : simpl never.
#[local] Arguments Z.ltb : simpl never.
#[local] Arguments Z.eqb : simpl never.

Section lemmas.
Context `{!BlockSize}.
Implicit Types (s : Store) (h : history).

Lemma and_then_ok {A B} (m : handler A) (f : A → handler B) s s' a :
  m s = Ret (s', Ok a) → and_then m f s = f a s'.
Proof. intros Hm. unfold and_then. by rewrite Hm. Qed.

Lemma and_then_err {A B} (m : handler A) (f : A → handler B) s s' e :
  m s = Ret (s', Err e) → and_then m f s = Ret (s', Err e).
Proof. intros Hm. unfold and_then. by rewrite Hm. Qed.

Lemma and_then_ext {A B} (m : handler A) (f g : A → handler B) s :
  (∀ a t, f a t = g a t) → and_then m f s = and_then m g s.
Proof. intros Hfg. unfold and_then. destruct (m s) as [[t [a|e]]|msg]; [apply Hfg|done|done]. Qed.

Lemma and_then_ext_l {A B} (m m' : handler A) (f : A → handler B) s :
  m s = m' s → and_then m f s = and_then m' f s.
Proof. intros Hm. unfold and_then. by rewrite Hm. Qed.

(** The live key-value of a key. *)
Definition live_kv h (key : ByteArray) : option KeyValue :=
  (λ v, as_mvcc_key_value v key) <$> live_part (Some (latest_or_null h key)).

Lemma live_kv_at h key rev v :
  Z.of_nat (length h) ≤ rev → live_at h key rev = Some v ↔ live_part (Some (latest_or_null h key)) = Some v.
Proof.
  intros Hrev. unfold live_at, latest_or_null. rewrite value_at_full by done. by destruct (latest_of h key).
Qed.

(** A single-key read of the present. *)
Lemma get_spec s h key limit :
  store_repr s h → h ≠ [] → 1 ≤ default usize_max limit →
  range s key [] 0 limit =
    Ret (Ok {| kvs := option_list (live_kv h key); latest_rev := Z.of_nat (length h);
               count := Z.of_nat (length (option_list (live_kv h key))) |}).
Proof.
  intros Hr Hne Hn. destruct (prefix_split key) as [p x] eqn:Hsp.
  destruct (range_spec_gen s h key [] 0 limit p (Included x, Included x)) as (full & Hres & Hs & Hin).
  - done.
  - by left.
  - lia.
  - unfold prefix_and_range_of_key. by rewrite Hsp.
  - unfold bad_bounds. simpl. by rewrite oltb_oleb, (proj2 (oleb_le x x) (ole_refl x)).
  - assert (full = option_list (live_kv h key)) as ->.
    { apply sorted_keys_unique; [done|destruct (live_kv h key); repeat constructor|].
      intros kv. rewrite Hin. setoid_rewrite in_bounds_included.
      pose proof (prefix_split_eq _ _ _ Hsp) as ->.
      assert (kv ∈ option_list (live_kv h (p ++ x)) ↔ live_kv h (p ++ x) = Some kv) as ->.
      { destruct (live_kv h (p ++ x)); simpl; [rewrite list_elem_of_singleton; naive_solver|].
        split; [by intros ?%elem_of_nil|done]. }
      setoid_rewrite found_live_latest; [|done]. setoid_rewrite live_kv_at; [|done].
      unfold live_kv. rewrite fmap_Some. split.
      - intros (y & v & _ & -> & Hv & ->). eauto.
      - intros (v & Hv & ->). exists x, v. done. }
    rewrite Hres. rewrite take_ge; [done|]. destruct (live_kv h key); simpl length; lia.
Qed.

Lemma store_range_get s h key limit :
  store_repr s h → h ≠ [] → 1 ≤ default usize_max limit →
  store_range key [] 0 limit s =
    Ret (s, Ok {| kvs := option_list (live_kv h key); latest_rev := Z.of_nat (length h);
                  count := Z.of_nat (length (option_list (live_kv h key))) |}).
Proof. intros Hr Hne Hn. unfold store_range. by rewrite (get_spec s h) by done. Qed.

Lemma head_option_list {A} (o : option A) : head (option_list o) = o.
Proof. by destruct o. Qed.

(** The check of a transaction through Raft is the store's guard. *)
Lemma check_compare_guard h key b required :
  check_compare (live_kv h key) required = bool_decide (guard h key (Some b) required = None).
Proof.
  rewrite guard_code. unfold check_compare, set_guard, live_kv, live_part, is_live. simpl.
  destruct (latest_or_null h key) as [cr mr ver [v|]]; simpl.
  - destruct (0 <=? req_last_revision required), (0 <=? req_version required); simpl;
      repeat case_match; done.
  - destruct (Z.leb_spec (req_last_revision required) 0), (Z.ltb_spec 0 (req_last_revision required)),
      (Z.leb_spec (req_version required) 0), (Z.ltb_spec 0 (req_version required)); (done || lia).
Qed.

(** A value just written is what the next read returns. *)
Lemma live_kv_written h key b :
  live_kv (hist_write h key (Some b)) key =
    Some (as_mvcc_key_value (revised (latest_or_null h key) (Z.of_nat (length h) + 1) (Some b)) key).
Proof.
  unfold live_kv, live_part, hist_write, latest_or_null at 1. rewrite latest_of_snoc_eq. simpl.
  done.
Qed.

Lemma live_kv_deleted h key : live_kv (hist_write h key None) key = None.
Proof.
  unfold live_kv, live_part, hist_write, latest_or_null at 1. rewrite latest_of_snoc_eq. simpl.
  done.
Qed.

Lemma set_put_spec s h key b :
  store_repr s h → Z.of_nat (length h) < i64_max →
  ∃ s', set s key (Some b) None = Ret (s', Ok (Z.of_nat (length h) + 1)) ∧
    store_repr s' (hist_write h key (Some b)).
Proof.
  intros Hr Hlt. destruct (set_spec s h key (Some b) None Hr Hlt) as (s' & Hs & Hr' & _).
  assert (guard h key (Some b) None = None) as Hg.
  { rewrite guard_code. unfold set_guard. simpl. by destruct (value (latest_or_null h key)). }
  unfold hist_set in *. rewrite Hg in *. by exists s'.
Qed.
End lemmas.

(** ** Properties *)

(** A put is read back. On a store that was written before, a put answers the next
    revision and, when asked, the previous key-value; reading the key at once returns
    exactly one key-value, with the value put, modified at the revision answered. *)
Theorem put_then_get `{!BlockSize} s h req :
  store_repr s h → h ≠ [] → Z.of_nat (length h) < i64_max → pr_ignore_value req = false →
  ∃ s' presp rresp kv,
    kv_put None req s = Ret (s', Ok presp) ∧
    hdr_revision (presp_header presp) = current_revision s + 1 ∧
    presp_prev_kv presp = (if pr_prev_kv req then live_kv h (pr_key req) else None) ∧
    kv_range (mkRangeRequest (pr_key req) [] 0 0 false) s' = Ret (s', Ok rresp) ∧
    rresp_kvs rresp = [kv] ∧ rresp_count rresp = 1 ∧ rresp_more rresp = false ∧
    kv_key kv = pr_key req ∧ kv_value kv = pr_value req ∧
    kv_mod_revision kv = current_revision s + 1.
Proof.
  intros Hr Hne Hlt Hig. rewrite (repr_current _ _ Hr).
  destruct (set_put_spec s h (pr_key req) (pr_value req) Hr Hlt) as (s' & Hset & Hr').
  assert (kv_put None req s = Ret (s', Ok {| presp_header := header (Z.of_nat (length h) + 1);
    presp_prev_kv := if pr_prev_kv req then live_kv h (pr_key req) else None |})) as Hput.
  { unfold kv_put. rewrite Hig, orb_false_r.
    destruct (pr_prev_kv req); simpl; unfold and_then; simpl.
    - rewrite (store_range_get s h), bind_ret by (done || simpl; lia). simpl.
      rewrite Hset, bind_ret. simpl. by rewrite head_option_list.
    - rewrite Hset, bind_ret. done. }
  assert (hist_write h (pr_key req) (Some (pr_value req)) ≠ []) as Hne' by (by intros [? _]%app_nil).
  eexists s', _, _, _. split; [exact Hput|]. split; [done|]. split; [done|].
  unfold kv_range, range_limit. simpl. erewrite and_then_ok.
  2: { apply (store_range_get s' _ (pr_key req) None Hr' Hne'). simpl. unfold usize_max. lia. }
  rewrite live_kv_written. split; [done|]. simpl. split; [done|]. split; [done|]. split; [done|].
  unfold revised. by destruct (value (latest_or_null h (pr_key req))).
Qed.

Lemma sample_history_nonempty : StoreTrace.hist sample_spec ≠ [].
Proof. vm_compute. discriminate. Qed.

Lemma put_then_get_witness :
  ∃ s' presp rresp kv,
    kv_put (H:=block_size_2) None (mkPutRequest (bytes "/registry/pods/a") (bytes "9") true false) sample_store
      = Ret (s', Ok presp) ∧
    kv_range (H:=block_size_2) (mkRangeRequest (bytes "/registry/pods/a") [] 0 0 false) s' = Ret (s', Ok rresp) ∧
    rresp_kvs rresp = [kv] ∧ kv_value kv = bytes "9".
Proof.
  destruct (@put_then_get block_size_2 sample_store (StoreTrace.hist sample_spec)
    (mkPutRequest (bytes "/registry/pods/a") (bytes "9") true false))
    as (s' & presp & rresp & kv & Hp & _ & _ & Hr & Hk & _ & _ & _ & Hv & _).
  - apply sample_implements.
  - apply sample_history_nonempty.
  - vm_compute. reflexivity.
  - reflexivity.
  - exists s', presp, rresp, kv. split; [exact Hp|]. split; [exact Hr|]. split; [exact Hk|exact Hv].
Defined.

(** The transaction Kubernetes writes with: compare the modification revision of a key,
    put it if it is the expected one, read it otherwise. *)
Definition update_txn (key value : ByteArray) (r : Z) : TxnRequest :=
  mkTxnRequest [mkCompare 0 key (Some (TModRevision r))]
    [Some (RequestPut (mkPutRequest key value false false))]
    [Some (RequestRange (mkRangeRequest key [] 0 0 false))].

(** C18: the update transaction is a compare-and-set. Without Raft it succeeds exactly when
    the key is live with the expected modification revision (or, for revision 0, is not
    live); it then answers the new revision and writes the value; otherwise it writes
    nothing and returns the current key-value, if the key is live, for the client to
    retry with. *)
Theorem update_txn_compare_and_set `{!BlockSize} s h key value r :
  store_repr s h → Z.of_nat (length h) < i64_max → key ≠ [] → 0 ≤ r →
  let current := live_kv h key in
  let holds := match current with Some kv => kv_mod_revision kv = r | None => r = 0 end in
  ∃ s' resp, kv_txn None (update_txn key value r) s = Ret (s', Ok resp) ∧
    (holds → tresp_succeeded resp = true ∧ hdr_revision (tresp_header resp) = current_revision s + 1 ∧
       store_repr s' (hist_write h key (Some value))) ∧
    (¬ holds → tresp_succeeded resp = false ∧ store_repr s' h ∧
       ∃ rr, tresp_responses resp = [ResponseRange rr] ∧ rresp_kvs rr = option_list current).
Proof.
  intros Hr Hlt Hk H0 current holds. rewrite (repr_current _ _ Hr).
  unfold kv_txn, update_txn. simpl. rewrite !bool_decide_false by (intros Hn; by apply Hn). unfold and_then. simpl.
  rewrite !bool_decide_false by (done || (intros Hn; by apply Hn)). simpl.
  set (req := {| required_last_revision := Some r; required_version := None; compare_result := 0 |}).
  destruct (set_spec s h key (Some value) (Some req) Hr Hlt) as (s' & Hs & Hr' & _).
  pose proof (guard_equal h key (Some value) r H0 : guard h key (Some value) (Some req) = _) as Hg.
  unfold and_then. rewrite Hs. unfold hist_set in *. clearbody req. rewrite Hg in *. unfold holds, current, live_kv.
  destruct (live_part (Some (latest_or_null h key))) as [v|]; simpl in *.
  - destruct (Z.eqb_spec (mod_revision v) r) as [Heq|Hne]; simpl in *; eexists _, _; (split; [done|]);
      (split; [intros Hh|intros Hh]); simpl; try done; naive_solver.
  - destruct (Z.eqb_spec r 0) as [Heq|Hne]; simpl in *; eexists _, _; (split; [done|]);
      (split; [intros Hh|intros Hh]); simpl; try done; naive_solver.
Qed.

Lemma update_txn_compare_and_set_witness :
  ∃ s' resp, kv_txn (H:=block_size_2) None (update_txn (bytes "/registry/pods/a") (bytes "9") 3) sample_store
      = Ret (s', Ok resp) ∧ tresp_succeeded resp = true.
Proof.
  destruct (@update_txn_compare_and_set block_size_2 sample_store (StoreTrace.hist sample_spec)
    (bytes "/registry/pods/a") (bytes "9") 3) as (s' & resp & Ht & Hok & _).
  - apply sample_implements.
  - vm_compute. reflexivity.
  - discriminate.
  - lia.
  - exists s', resp. split; [exact Ht|]. apply Hok. vm_compute. reflexivity.
Defined.

(** A refused transaction has no effect. Whenever the transaction handler answers with
    an error status (an unsupported shape, mismatched keys, an empty key), without Raft,
    the store is exactly what it was. *)
Theorem refused_txn_no_effect `{!BlockSize} req s s' e :
  kv_txn None req s = Ret (s', Err e) → s' = s.
Proof.
  assert (∀ key new r required, (∃ x y, txn_write None key new r required s = Ret (x, Ok y)) ∨
    ∃ m, txn_write None key new r required s = Panic m) as Hw.
  { intros key new r required. simpl. destruct (set s key new (Some required)) as [[x y]|m]; simpl; eauto. }
  unfold kv_txn. destruct (txn_compare req) as [|c [|c' cs]]; simpl; try (by intros [= <- _]).
  destruct (txn_required c) as [required|]; [|by intros [= <- _]].
  destruct (txn_success req) as [|op [|op' ops]]; try (by intros [= <- _]).
  destruct (txn_check_failure c (txn_failure req)); [|by intros [= <- _]].
  unfold and_then at 1. unfold unwrap_request.
  destruct op as [op|]; simpl; [|done]. unfold and_then at 1.
  assert (∀ x f, txn_success_op None c required op s = Ret (x, Err f) → x = s) as Hop.
  { intros x f. unfold txn_success_op. destruct op as [r|p|d|]; try (by intros [= <- _]).
    - destruct (bool_decide (pr_key p = [])); [by intros [= <- _]|].
      destruct (bool_decide (pr_key p ≠ cmp_key c)); [by intros [= <- _]|].
      unfold and_then. destruct (Hw (pr_key p) (Some (pr_value p)) (RaftSet (pr_key p) (pr_value p)) required)
        as [(y & z & ->)|[m ->]]; done.
    - destruct (bool_decide (dr_key d = [])); [by intros [= <- _]|].
      destruct (bool_decide (dr_range_end d ≠ [])); [by intros [= <- _]|].
      destruct (bool_decide (dr_key d ≠ cmp_key c)); [by intros [= <- _]|].
      unfold and_then. destruct (Hw (dr_key d) None (RaftDelete (dr_key d)) required)
        as [(y & z & ->)|[m ->]]; done. }
  destruct (txn_success_op None c required op s) as [[x [y|f]]|m] eqn:E; simpl; [done| |done].
  intros [= <- <-]. by eapply Hop.
Qed.

Lemma refused_txn_no_effect_witness :
  kv_txn (H:=block_size_2) None (mkTxnRequest [] [] []) sample_store
    = Ret (sample_store, Err (invalid_argument "only one compare supported")) ∧
  sample_store = sample_store.
Proof.
  split; [reflexivity|].
  apply (@refused_txn_no_effect block_size_2 (mkTxnRequest [] [] []) sample_store sample_store
    (invalid_argument "only one compare supported")). reflexivity.
Defined.

(** Deleting a key. Without Raft, a delete of one key answers 1 exactly when the key was
    live, returns it when asked, takes the next revision in that case and none otherwise,
    and leaves the key not live; a range delete is refused and changes nothing. *)
Theorem delete_range_spec `{!BlockSize} s h req :
  store_repr s h → h ≠ [] → Z.of_nat (length h) < i64_max →
  (dr_range_end req ≠ [] → ∃ e, kv_delete_range None req s = Ret (s, Err e)) ∧
  (dr_range_end req = [] →
   let current := live_kv h (dr_key req) in
   ∃ s' h' resp, kv_delete_range None req s = Ret (s', Ok resp) ∧ store_repr s' h' ∧
     live_kv h' (dr_key req) = None ∧
     h' = match current with Some _ => hist_write h (dr_key req) None | None => h end ∧
     hdr_revision (dresp_header resp) = current_revision s' ∧
     dresp_deleted resp = match current with Some _ => 1 | None => 0 end ∧
     dresp_prev_kvs resp = if dr_prev_kv req then option_list current else []).
Proof.
  intros Hr Hne Hlt. unfold kv_delete_range. split; intros He.
  { rewrite bool_decide_true by done. by eexists. }
  set (current := live_kv h (dr_key req)). rewrite bool_decide_false by (intros Hn; by apply Hn).
  erewrite and_then_ok by (apply (store_range_get s h (dr_key req) (Some 1) Hr Hne); simpl; lia).
  simpl. rewrite head_option_list. fold current. unfold and_then, delete_key.
  destruct (set_spec s h (dr_key req) None None Hr Hlt) as (s' & Hs & Hr' & _). rewrite Hs, !bind_ret. simpl.
  assert ((hist_set h (dr_key req) None None).1
    = match current with Some _ => hist_write h (dr_key req) None | None => h end) as Hh.
  { unfold hist_set. rewrite guard_code. unfold set_guard, current, live_kv, live_part, is_live. simpl.
    by destruct (value (latest_or_null h (dr_key req))). }
  pose proof (hist_set_reply h (dr_key req) None) as Hrep.
  eexists _, _, _. split; [done|]. split; [exact Hr'|]. rewrite Hh in *.
  rewrite (repr_current _ _ Hr'). simpl. split; [|split_and!; try done; by destruct current].
  destruct current as [kv|] eqn:Ec; [apply live_kv_deleted|exact Ec].
Qed.

Lemma delete_range_spec_witness :
  ∃ s' h' resp,
    kv_delete_range (H:=block_size_2) None (mkDeleteRangeRequest (bytes "/registry/pods/a") [] true) sample_store
      = Ret (s', Ok resp) ∧ dresp_deleted resp = 1 ∧ live_kv h' (bytes "/registry/pods/a") = None.
Proof.
  destruct (@delete_range_spec block_size_2 sample_store (StoreTrace.hist sample_spec)
    (mkDeleteRangeRequest (bytes "/registry/pods/a") [] true)) as [_ Hd].
  - apply sample_implements.
  - apply sample_history_nonempty.
  - vm_compute. reflexivity.
  - destruct (Hd eq_refl) as (s' & h' & resp & He & _ & Hl & _ & _ & Hdel & _).
    exists s', h', resp. split; [exact He|]. split; [|exact Hl].
    rewrite Hdel. vm_compute. reflexivity.
Defined.

(** The [more] flag of a range tells whether keys were left out. For a read within the
    readable revisions and a positive limit, the answer holds at most [limit] key-values,
    counts all the matching keys, and [more] is set exactly when there are further ones. *)
Theorem range_more_exact `{!BlockSize} s h req p r :
  store_repr s h → readable s h (rr_revision req) →
  prefix_and_range_of_key (rr_key req) (rr_range_end req) = Ok (p, r) → bad_bounds r = false →
  0 < rr_limit req ≤ i64_max → rr_count_only req = false →
  ∃ resp, kv_range req s = Ret (s, Ok resp) ∧
    Z.of_nat (length (rresp_kvs resp)) ≤ rr_limit req ∧
    Z.of_nat (length (rresp_kvs resp)) ≤ rresp_count resp ∧
    (rresp_more resp = true ↔ Z.of_nat (length (rresp_kvs resp)) < rresp_count resp).
Proof.
  intros Hr Hrd Hp Hb Hlim Hco. unfold kv_range, range_limit, store_range. rewrite Hco.
  rewrite (proj2 (Z.eqb_neq _ _)), as_usize_id by width. unfold and_then.
  destruct (range_spec_gen s h (rr_key req) (rr_range_end req) (rr_revision req) (Some (rr_limit req)) p r)
    as (full & Hres & _); [done|done|simpl; lia|done|done|].
  rewrite Hres, !bind_ret. simpl. eexists. split; [done|]. simpl.
  rewrite as_i64_id by width. rewrite length_take, Z.ltb_lt. lia.
Qed.

Lemma range_more_exact_witness :
  ∃ resp, kv_range (H:=block_size_2)
      (mkRangeRequest (bytes "/registry/pods/") (bytes "/registry/pods0") 1 0 false) sample_store
      = Ret (sample_store, Ok resp) ∧
    (rresp_more resp = true ↔ Z.of_nat (length (rresp_kvs resp)) < rresp_count resp).
Proof.
  destruct (@range_more_exact block_size_2 sample_store (StoreTrace.hist sample_spec)
    (mkRangeRequest (bytes "/registry/pods/") (bytes "/registry/pods0") 1 0 false)
    (bytes "/registry/pods/") (Included [], Unbounded)) as (resp & He & _ & _ & Hm).
  - apply sample_implements.
  - left. split; [reflexivity|apply sample_history_nonempty].
  - vm_compute. reflexivity.
  - reflexivity.
  - vm_compute. split; [reflexivity|discriminate].
  - reflexivity.
  - exists resp. split; [exact He|exact Hm].
Defined.

(** A Raft node that leads and whose writes are applied to the store before they are
    answered, with nothing in between: what openraft's [client_write] does when no other
    client writes. *)
Definition applies_alone `{!BlockSize} (node : RaftNode) : Prop :=
  current_leader node = Some (raft_id node) ∧
  ∀ req s, client_write node req s = (r ← StateMachine.apply_request s req; Ret (r.1, Ok r.2)).

(** An unconditional put is not refused, in any state of the store. *)
Lemma put_not_refused `{!BlockSize} t key v t' e : set t key (Some v) None ≠ Ret (t', Err e).
Proof.
  intros E. unfold set in E. destruct (set_entry t key) as [[t1 l] n].
  apply bind_ret_inv in E as ([t2 [[[[? ?] ?] ?]|f]] & Hl & Hn).
  { by apply bind_ret_inv in Hn as (? & _ & ?). }
  unfold set_locked in Hl. apply bind_ret_inv in Hl as (it & _ & Hl).
  unfold set_guard in Hl. simpl in Hl.
  destruct (value (latest_value it)); simpl in Hl;
    (apply bind_ret_inv in Hl as ([i d] & _ & Hl); by apply bind_ret_inv in Hl as (st & _ & Hl)).
Qed.

Lemma raft_set_direct `{!BlockSize} node key v t :
  applies_alone node →
  (let? _ := ensure_leader (Some node) in raft_write (Some node) (RaftSet key v)) t
  = (r ← set t key (Some v) None;
     Ret (r.1, match r.2 with
               | Ok rev => Ok rev
               | Err e => Err (mkStatus Internal "Put operation failed: {:?}" [ASetError e.1 e.2])
               end)).
Proof.
  intros [Hlead Hcw]. unfold ensure_leader, raft_write, and_then. rewrite Hlead, Z.eqb_refl. simpl.
  rewrite Hcw. unfold StateMachine.apply_request.
  destruct (set t key (Some v) None) as [[t' [rev|e]]|m] eqn:E; [done| |done].
  by apply put_not_refused in E.
Qed.

(** Raft mode gives the same answers as single-node mode, as long as no other client
    writes between the check of a transaction and its entry. On the leader, puts and
    update transactions have the same effect on the store and the same response whether
    they go through Raft or not. *)
Theorem raft_mode_equivalent `{!BlockSize} node s h :
  applies_alone node → store_repr s h → h ≠ [] → Z.of_nat (length h) < i64_max →
  (∀ req, kv_put (Some node) req s = kv_put None req s) ∧
  (∀ key value r, key ≠ [] → 0 ≤ r →
     ∃ s1 s2 resp1 resp2,
       kv_txn (Some node) (update_txn key value r) s = Ret (s1, Ok resp1) ∧
       kv_txn None (update_txn key value r) s = Ret (s2, Ok resp2) ∧ resp1 = resp2 ∧
       ∃ h', store_repr s1 h' ∧ store_repr s2 h').
Proof.
  intros Halone Hr Hne Hlt. pose proof Halone as [Hlead Hcw]. split.
  - intros req. unfold kv_put.
    apply and_then_ext. intros prev t. apply and_then_ext. intros v t'. by apply and_then_ext_l, raft_set_direct.
  - intros key value r Hk H0.
    set (req := {| required_last_revision := Some r; required_version := None; compare_result := 0 |}).
    destruct (set_spec s h key (Some value) (Some req) Hr Hlt) as (s2 & Hs2 & Hr2 & _).
    destruct (set_put_spec s h key value Hr Hlt) as (s1 & Hs1 & Hr1).
    unfold kv_txn, update_txn. simpl. rewrite !bool_decide_false by (intros Hn; by apply Hn).
    unfold and_then. simpl. rewrite !bool_decide_false by (done || (intros Hn; by apply Hn)). simpl.
    unfold and_then, ensure_leader, raft_write. rewrite Hlead, Z.eqb_refl. simpl.
    rewrite (store_range_get s h) by (done || simpl; lia). simpl. rewrite head_option_list.
    fold req. rewrite (check_compare_guard h key value). rewrite Hs2. unfold hist_set in *.
    pose proof (guard_equal h key (Some value) r H0 : guard h key (Some value) (Some req) = _) as Hg.
    clearbody req. destruct (guard h key (Some value) (Some req)) as [e|] eqn:Eg; simpl.
    + eexists _, _, _, _. split; [done|]. split; [done|]. split; [|by exists h].
      unfold live_kv. destruct (live_part (Some (latest_or_null h key))) as [v|].
      * destruct (mod_revision v =? r); [done|]. by injection Hg as ->.
      * destruct (r =? 0); [done|]. by injection Hg as ->.
    + rewrite Hcw. unfold StateMachine.apply_request. rewrite Hs1. simpl.
      eexists _, _, _, _. split; [done|]. split; [done|]. split; [done|]. eauto.
Qed.

Definition alone `{!BlockSize} : RaftNode :=
  mkRaftNode 1 (Some 1) (λ req s, r ← StateMachine.apply_request s req; Ret (r.1, Ok r.2)).

Lemma raft_mode_equivalent_witness :
  kv_put (H:=block_size_2) (Some (alone (H:=block_size_2)))
    (mkPutRequest (bytes "k") (bytes "v") true false) sample_store
  = kv_put (H:=block_size_2) None (mkPutRequest (bytes "k") (bytes "v") true false) sample_store.
Proof.
  apply (@raft_mode_equivalent block_size_2 (alone (H:=block_size_2)) sample_store (StoreTrace.hist sample_spec)).
  - split; reflexivity.
  - apply sample_implements.
  - apply sample_history_nonempty.
  - vm_compute. reflexivity.
Defined.

(** ** Departures *)

#[local] Existing Instance block_size_2.

(** A leader whose log takes another client's put of the same key first. *)
Definition interleaved (other : RaftRequest) : RaftNode :=
  mkRaftNode 1 (Some 1) (λ req s,
    r1 ← StateMachine.apply_request s other;
    r2 ← StateMachine.apply_request r1.1 req;
    Ret (r2.1, Ok r2.2)).

(** Through Raft the comparison of a transaction is made before its entry is ordered: an
    update that expects revision 3 succeeds although another one came first, which is then
    overwritten. *)
Example raft_txn_lost_update :
  match kv_txn (Some (interleaved (RaftSet (bytes "/registry/pods/a") (bytes "other"))))
          (update_txn (bytes "/registry/pods/a") (bytes "mine") 3) sample_store with
  | Ret (s, Ok resp) => tresp_succeeded resp = true ∧ hdr_revision (tresp_header resp) = 7
  | _ => False
  end.
Proof. vm_compute. split; reflexivity. Qed.

(** A compare with NOT_EQUAL on a key that does not exist fails, whatever the revision. *)
Example not_equal_on_missing_key_fails :
  match kv_txn None (mkTxnRequest [mkCompare 3 (bytes "none") (Some (TModRevision 7))]
                       [Some (RequestPut (mkPutRequest (bytes "none") (bytes "v") false false))] [])
          sample_store with
  | Ret (_, Ok resp) => tresp_succeeded resp = false
  | _ => False
  end.
Proof. vm_compute. reflexivity. Qed.

(** A failed transaction counts one key-value even when the key does not exist. *)
Example failed_txn_counts_missing_key :
  match kv_txn None (update_txn (bytes "none") (bytes "v") 7) sample_store with
  | Ret (_, Ok resp) =>
      tresp_responses resp = [ResponseRange (mkRangeResponse (header 5) [] false 1)]
  | _ => False
  end.
Proof. vm_compute. reflexivity. Qed.

(** A success request that carries no operation panics the handler. *)
Example txn_without_request_panics :
  match kv_txn None (mkTxnRequest [mkCompare 0 (bytes "k") (Some (TVersion 0))] [None] []) sample_store with
  | Panic _ => True
  | Ret _ => False
  end.
Proof. vm_compute. exact I. Qed.
