(* ===== verification/WatchService.v ===== *)
(** * The watch service (src/watch_service.rs)

    A watch stream: the request that opens it, the answers it starts with, and its loop
    over the messages of the watcher's channel and of the client. The stream is a state
    machine; its inputs are what the [select!] of the loop picks, in order. *)
From S2P Require Import Prelude Bytes BTreeMap BlockDeque Types Prefix History Store StoreSpec WatchSpec StoreTrace StoreProps.

Inductive EventType := EventPut | EventDelete.

Record Event := mkEvent { ev_type : EventType; ev_kv : KeyValue; ev_prev_kv : option KeyValue }.

(** The fields of [WatchResponse] the service sets. *)
Record WatchResponse := mkWatchResponse {
  wr_revision : Z;
  wr_watch_id : Z;
  wr_created : bool;
  wr_compact_revision : Z;
  wr_events : list Event;
}.

Record WatchCreateRequest := mkWatchCreateRequest {
  wc_key : ByteArray;
  wc_range_end : ByteArray;
  wc_start_revision : Z;
  wc_prev_kv : bool;
}.

(** The [request_union] of a [WatchRequest]. *)
Inductive RequestUnion :=
| CreateRequest (r : WatchCreateRequest)
| CancelRequest (watch_id : Z)
| ProgressRequest.

(** What [req_inner.message()] yields: an error, the end of the stream, or a message. *)
Inductive ClientMessage :=
| MessageError (e : Status)
| MessageEnd
| Message (u : option RequestUnion).

(** An open stream: the watcher, whether previous values are wanted, and the last revision
    that was sent. *)
Record Session := mkSession {
  sess_key : ByteArray;
  sess_id : Z;
  sess_prev_kv : bool;
  max_event_stream_rev : Z;
}.

(** A turn of the loop: messages off the channel (none when it is closed), or one from the
    client. *)
Inductive Input :=
| Received (read_many : list KeyValueWithPrev)
| FromClient (m : ClientMessage).

Definition event_of (want_prev : bool) (c : KeyValueWithPrev) : Event :=
  {| ev_type := if kv_version (kv c) =? 0 then EventDelete else EventPut;
     ev_kv := kv c;
     ev_prev_kv := if want_prev then prev_kv c else None |}.

Definition change_rev (c : KeyValueWithPrev) : Z := kv_mod_revision (kv c).

Section service.
Context `{!BlockSize}.

(** The opening of the stream: a status, or the responses it starts with and the session
    that goes on, if any. *)
Definition watch_open (first : ClientMessage) (s : Store) :
    outcome (Store * Result (list WatchResponse * option Session) Status) :=
  match first with
  | MessageEnd => Ret (s, Err (mkStatus Cancelled "client closed stream before sending request" []))
  | MessageError e => Ret (s, Err e)
  | Message (Some (CreateRequest req)) =>
      r ← watch s (wc_key req) (wc_range_end req) (wc_start_revision req) (wc_prev_kv req);
      let s' := r.1 in
      match r.2 with
      | Err compact_revision => Ret (s', Ok ([mkWatchResponse 0 0 false compact_revision []], None))
      | Ok (past_changes, watcher_id, _) =>
          let created := mkWatchResponse (current_revision s') watcher_id true 0 [] in
          let max_past_rev := default 0 (change_rev <$> last past_changes) in
          let past :=
            match past_changes with
            | [] => []
            | _ => [mkWatchResponse (current_revision s') watcher_id false 0
                      (event_of (wc_prev_kv req) <$> past_changes)]
            end in
          Ret (s', Ok (created :: past,
                       Some (mkSession (wc_key req) watcher_id (wc_prev_kv req) max_past_rev)))
      end
  | Message _ => Ret (s, Err (mkStatus InvalidArgument "Not supported" []))
  end.

(** One turn of the loop: the store, the session unless it ended, and the responses sent. *)
Definition watch_step (s : Store) (sess : Session) (i : Input) :
    Store * option Session * list WatchResponse :=
  match i with
  | Received [] => (unwatch s (sess_key sess) (sess_id sess), None, [])
  | Received read_many =>
      let fresh := filter (λ c, max_event_stream_rev sess < change_rev c) read_many in
      match last fresh with
      | None => (s, Some sess, [])
      | Some c =>
          let last_rev := change_rev c in
          (s, Some (mkSession (sess_key sess) (sess_id sess) (sess_prev_kv sess)
                      (Z.max last_rev (max_event_stream_rev sess))),
           [mkWatchResponse last_rev (sess_id sess) false 0 (event_of (sess_prev_kv sess) <$> fresh)])
      end
  | FromClient (MessageError _) | FromClient MessageEnd => (unwatch s (sess_key sess) (sess_id sess), None, [])
  | FromClient (Message (Some (CancelRequest id))) =>
      if id =? sess_id sess then (unwatch s (sess_key sess) (sess_id sess), None, []) else (s, Some sess, [])
  | FromClient (Message (Some ProgressRequest)) =>
      (s, Some sess, [mkWatchResponse (Z.max (progress_revision s) (max_event_stream_rev sess))
                        (sess_id sess) false 0 []])
  | FromClient (Message _) => (s, Some sess, [])
  end.
End service.

(** The loop over a sequence of inputs. *)
Fixpoint watch_run (s : Store) (sess : Session) (inputs : list Input) :
    Store * option Session * list WatchResponse :=
  match inputs with
  | [] => (s, Some sess, [])
  | i :: inputs' =>
      match watch_step s sess i with
      | (s', None, out) => (s', None, out)
      | (s', Some sess', out) =>
          let '(s'', r, out') := watch_run s' sess' inputs' in (s'', r, out ++ out')
      end
  end.

(** ** Lemmas *)

Definition sent_events (out : list WatchResponse) : list Event := out ≫= wr_events.

Lemma last_fresh_bound m l c :
  StronglySorted Z.lt (change_rev <$> l) → last (filter (λ c, m < change_rev c) l) = Some c →
  Forall (λ d, change_rev d ≤ change_rev c) l ∧ m < change_rev c.
Proof.
  intros Hs Hl. assert (c ∈ filter (λ c, m < change_rev c) l) as Hin by (by apply last_Some_elem_of).
  apply list_elem_of_filter in Hin as [Hm Hin]. split; [|done].
  destruct l as [|x l _] using rev_ind; [by apply elem_of_nil in Hin|].
  rewrite filter_app, filter_cons, filter_nil in Hl.
  rewrite fmap_app in Hs. simpl in Hs.
  assert (Forall (λ d, change_rev d < change_rev x) l) as Hlt.
  { clear -Hs. induction l as [|y l IH]; [constructor|]. simpl in Hs. inversion Hs as [|?? Hs' Hall]; subst.
    constructor; [|by apply IH]. apply Forall_app in Hall as [_ Hx]. by inversion Hx. }
  case_decide as Hd.
  - rewrite last_snoc in Hl. injection Hl as <-. apply Forall_app. split; [|by constructor].
    eapply Forall_impl; [exact Hlt|]. simpl. lia.
  - exfalso. apply elem_of_app in Hin as [Hin|Hin].
    + rewrite Forall_forall in Hlt. specialize (Hlt _ Hin). simpl in Hlt. lia.
    + apply list_elem_of_singleton in Hin as ->. done.
Qed.

Lemma sorted_app_inv l1 l2 :
  StronglySorted Z.lt (change_rev <$> l1 ++ l2) →
  StronglySorted Z.lt (change_rev <$> l1) ∧ StronglySorted Z.lt (change_rev <$> l2) ∧
  ∀ c d, c ∈ l1 → d ∈ l2 → change_rev c < change_rev d.
Proof.
  induction l1 as [|x l1 IH]; simpl.
  { intros Hs. split_and!; [constructor|done|]. by intros c d ?%elem_of_nil. }
  intros Hs. inversion Hs as [|?? Hs' Hall]; subst. destruct (IH Hs') as (H1 & H2 & H12).
  rewrite fmap_app in Hall. apply Forall_app in Hall as [Ha1 Ha2].
  split_and!; [by constructor|done|]. intros c d [->|Hc]%elem_of_cons Hd; [|by apply H12].
  rewrite Forall_forall in Ha2. apply Ha2. by apply list_elem_of_fmap_2.
Qed.

(** What the loop sends for a run of batches. *)
Lemma watch_run_received s sess batches :
  Forall (λ b, b ≠ []) batches → StronglySorted Z.lt (change_rev <$> concat batches) →
  ∃ sess' out, watch_run s sess (Received <$> batches) = (s, Some sess', out) ∧
    sent_events out = event_of (sess_prev_kv sess) <$>
      filter (λ c, max_event_stream_rev sess < change_rev c) (concat batches) ∧
    max_event_stream_rev sess ≤ max_event_stream_rev sess' ∧
    Forall (λ r, max_event_stream_rev sess < wr_revision r) out.
Proof.
  intros Hne. revert sess. induction Hne as [|b batches Hb _ IH]; intros sess Hs; csimpl.
  { exists sess, []. split_and!; done. }
  simpl in Hs. apply sorted_app_inv in Hs as (Hsb & Hss & Hlt).
  destruct b as [|c0 b]; [done|]. unfold watch_step. set (l := c0 :: b) in *.
  rewrite filter_app, fmap_app.
  destruct (last (filter (λ c, max_event_stream_rev sess < change_rev c) l)) as [c|] eqn:El.
  - destruct (last_fresh_bound _ _ _ Hsb El) as [Hle Hm].
    set (sess1 := mkSession (sess_key sess) (sess_id sess) (sess_prev_kv sess)
      (Z.max (change_rev c) (max_event_stream_rev sess))).
    destruct (IH sess1 Hss) as (sess' & out & -> & Hev & Hmax & Hrev).
    eexists sess', _. split; [done|]. split_and!.
    + unfold sent_events in *. rewrite bind_app, Hev. simpl. rewrite app_nil_r. f_equal. f_equal.
      assert (Forall (λ d, change_rev c < change_rev d) (concat batches)) as Hnew.
      { apply Forall_forall. intros d Hd. apply Hlt; [|done].
        apply last_Some_elem_of in El. by apply list_elem_of_filter in El as [_ ?]. }
      rewrite !filter_all; [done|..]; (eapply Forall_impl; [exact Hnew|]; simpl; lia).
    + simpl in Hmax. lia.
    + constructor; [done|]. eapply Forall_impl; [exact Hrev|]. simpl. lia.
  - apply last_None in El. rewrite El. simpl.
    destruct (IH sess Hss) as (sess' & out & -> & Hev & Hmax & Hrev). by exists sess', out.
Qed.

(** ** Properties *)

(** A live stream loses and repeats nothing. Whatever batches the channel's messages are
    read in, as long as they come in increasing revision order, the stream sends exactly
    one event for each message newer than what it started with, in order. *)
Theorem stream_events_exact s sess batches :
  Forall (λ b, b ≠ []) batches → StronglySorted Z.lt (change_rev <$> concat batches) →
  ∃ sess' out, watch_run s sess (Received <$> batches) = (s, Some sess', out) ∧
    sent_events out = event_of (sess_prev_kv sess) <$>
      filter (λ c, max_event_stream_rev sess < change_rev c) (concat batches).
Proof.
  intros Hne Hs. destruct (watch_run_received s sess batches Hne Hs) as (sess' & out & ? & ? & _). eauto.
Qed.

Definition sample_change (rev : Z) : KeyValueWithPrev :=
  mkKeyValueWithPrev None (mkKeyValue (bytes "k") 1 rev rev (bytes "v") 0).

Definition sample_session : Session := mkSession (bytes "k") 1 false 3.

Lemma stream_events_exact_witness :
  ∃ sess' out,
    watch_run (new_store None) sample_session
      (Received <$> [[sample_change 2; sample_change 3; sample_change 4]; [sample_change 6]])
      = (new_store None, Some sess', out) ∧
    (kv_mod_revision ∘ ev_kv) <$> sent_events out = [4; 6].
Proof.
  destruct (stream_events_exact (new_store None) sample_session
    [[sample_change 2; sample_change 3; sample_change 4]; [sample_change 6]]) as (sess' & out & Hr & He).
  - repeat constructor; discriminate.
  - repeat constructor.
  - exists sess', out. split; [exact Hr|]. rewrite He. vm_compute. reflexivity.
Defined.

(** A progress answer holds. When the client asks for progress at a moment when the
    channel is empty, every message still to come being newer than the store's progress
    revision, the answer's revision is one that no later event of the stream is at or
    before. *)
Theorem progress_answer_sound s sess batches s1 sess1 out1 :
  watch_step s sess (FromClient (Message (Some ProgressRequest))) = (s1, Some sess1, out1) →
  Forall (λ b, b ≠ []) batches → StronglySorted Z.lt (change_rev <$> concat batches) →
  Forall (λ c, progress_revision s < change_rev c) (concat batches) →
  ∃ resp sess' out, out1 = [resp] ∧ watch_run s1 sess1 (Received <$> batches) = (s1, Some sess', out) ∧
    wr_events resp = [] ∧ Forall (λ e, wr_revision resp < kv_mod_revision (ev_kv e)) (sent_events out).
Proof.
  intros [= <- <- <-] Hne Hs Hp.
  destruct (watch_run_received s sess batches Hne Hs) as (sess' & out & Hr & Hev & _).
  eexists _, sess', out. split; [done|]. split; [done|]. split; [done|]. rewrite Hev.
  apply Forall_fmap, Forall_forall. intros c [Hc Hin]%list_elem_of_filter. simpl.
  rewrite Forall_forall in Hp. specialize (Hp c Hin). unfold change_rev in *. lia.
Qed.

Lemma progress_answer_sound_witness :
  ∃ resp sess' out,
    watch_run (new_store None) sample_session (Received <$> [[sample_change 4]]) = (new_store None, Some sess', out) ∧
    wr_revision resp = 3 ∧ Forall (λ e, wr_revision resp < kv_mod_revision (ev_kv e)) (sent_events out).
Proof.
  destruct (progress_answer_sound (new_store None) sample_session [[sample_change 4]] (new_store None)
    sample_session [mkWatchResponse 3 1 false 0 []]) as (resp & sess' & out & Ho & Hr & _ & Hf).
  - reflexivity.
  - repeat constructor; discriminate.
  - repeat constructor.
  - repeat constructor.
  - exists resp, sess', out. split; [exact Hr|]. split; [by injection Ho as <-|exact Hf].
Defined.

(** A stream that ends takes its watcher with it. Whichever way the loop ends (the channel
    closed, the client gone, an error, a cancel request of this watch), the watcher is no
    longer registered, every other watcher still is, and nothing more is sent. *)
Theorem ended_stream_unregistered s sess i s' out :
  watchers_wf s → watch_step s sess i = (s', None, out) →
  bt_get (watchers s') (sess_key sess, sess_id sess) = None ∧ out = [] ∧
  ∀ k, k ≠ (sess_key sess, sess_id sess) → bt_get (watchers s') k = bt_get (watchers s) k.
Proof.
  intros [Hwf _ _ _] Hstep.
  assert (s' = unwatch s (sess_key sess) (sess_id sess) ∧ out = []) as [-> ->].
  { destruct i as [[|c b]|[e| |[[r|id|]|]]]; simpl in Hstep; try (by injection Hstep as <- <-); try done.
    - repeat case_match; done.
    - destruct (id =? sess_id sess); [by injection Hstep as <- <-|done]. }
  unfold unwatch. cbn [watchers with_watchers]. split_and!; [|done|].
  - rewrite bt_get_remove by done. by rewrite cmp_refl.
  - intros k Hk. rewrite bt_get_remove by done. destruct (cmp k (sess_key sess, sess_id sess)) eqn:E; [|done..].
    by apply cmp_eq in E.
Qed.

Lemma ended_stream_unregistered_witness :
  bt_get (watchers (unwatch sample_store (bytes "/registry/pods/") 1)) (bytes "/registry/pods/", 1) = None.
Proof.
  apply (ended_stream_unregistered sample_store (mkSession (bytes "/registry/pods/") 1 true 0)
    (FromClient (Message (Some (CancelRequest 1)))) (unwatch sample_store (bytes "/registry/pods/") 1) []).
  - apply sample_implements.
  - reflexivity.
Defined.

(** ** Departures *)

#[local] Existing Instance block_size_2.

(** The stream drops what it takes for repetitions by the revision of the last past change,
    which need not be the greatest, and the past is read while writers go on. Here the store
    holds a and z; the watcher has read the past of a when a is put again at revision 3 and
    z at revision 4, and then reads the past of z: the past ends with revision 4, and the
    message of revision 3, which is on the channel, is dropped. *)
Example watch_race_loses_event :
  let put s k v := match set s (bytes k) (Some (bytes v)) None with
                   | Ret (s', _) => s' | Panic _ => s end in
  let s0 := put (put (new_store None) "a" "1") "z" "2" in
  let s1 := put (put s0 "a" "3") "z" "4" in
  match (a ← get_item s0 0; past_a ← item_past_changes s0 a false 1 [];
         z ← get_item s1 1; past ← item_past_changes s1 z false 1 past_a; Ret past) with
  | Ret past =>
      let sess := mkSession (bytes "a") 1 false (default 0 (change_rev <$> last past)) in
      let msgs := (λ j, job_msg j) <$> drop 2 (notify_tx s1) in
      change_rev <$> past = [1; 2; 4] ∧ change_rev <$> msgs = [3; 4] ∧
      sent_events (watch_run s1 sess [Received msgs]).2 = []
  | Panic _ => False
  end.
Proof. vm_compute. split_and!; reflexivity. Qed.
