(* ===== verification/Progress.v ===== *)
(** * Progress requests (src/watch_service.rs, src/store.rs)

    A watch stream beside the notification thread. The comments promise that after the
    answer to a progress request the stream returns no revision before the one answered. The
    thread puts messages into the channel and then publishes how far it came; the stream
    polls the channel, then the client, and then reads what was published. Each of these is
    a step, in any order between the two. Of the store the stream reads the published
    revision only; that a stream which ends takes its watcher out of the store is in
    [WatchService] and [Server], here it sends nothing any more. *)
From S2P Require Import Prelude Bytes BTreeMap BlockDeque Heap Types Wal Prefix History Store StoreSpec WatchSpec StoreTrace StoreProps Notify WatchService.

(** ** The two sides *)

(** Where the thread is: at [blocking_recv], before [do_send], at the head of the loop over
    the spool, and before [rev_written] is stored. *)
Inductive ThreadPc :=
| Receiving
| Sending (job : NotifyJob)
| Draining
| Publishing.

(** Where the stream is: at the head of [select!]; past the channel, which was empty; in the
    handler of a progress request; ended. The revision that was published when the channel
    was found empty is kept for the statements, the code does not look at it. *)
Inductive StreamPc :=
| Polling
| Polled (seen : Z)
| Asked (seen : Z)
| Ended.

(** Responses with, for an answer to a progress request, the revision published when the
    channel was found empty and the one read. *)
Record Beside := mkBeside {
  b_jobs : list NotifyJob;
  b_next : Z;
  b_spool : list NotifyJob;
  b_thread : ThreadPc;
  b_world : World;
  b_written : Z;
  b_stream : StreamPc;
  b_sess : Session;
  b_out : list (WatchResponse * option (Z * Z));
}.

Definition with_progress (s : Store) (rev : Z) : Store :=
  {| prefix_map := prefix_map s; tree_map := tree_map s; arcs := arcs s; values_by_revision := values_by_revision s;
     watchers := watchers s; watch_counter := watch_counter s; wal := wal s; notify_tx := notify_tx s;
     progress_rev := rev; channels := channels s; next_notify := next_notify s |}.

Section beside.
Context (s : Store) (c : nat).

Definition channel (y : Beside) : list KeyValueWithPrev := from_option queue [] (chans (b_world y) !! c).

Definition with_thread (y : Beside) jobs next spool pc w written : Beside :=
  mkBeside jobs next spool pc w written (b_stream y) (b_sess y) (b_out y).

Definition with_stream (y : Beside) pc sess out : Beside :=
  mkBeside (b_jobs y) (b_next y) (b_spool y) (b_thread y) (b_world y) (b_written y) pc sess out.

(** A step of the notification thread. *)
Definition thread_turn (y : Beside) : Beside :=
  match b_thread y with
  | Receiving =>
      match b_jobs y with
      | [] => y
      | job :: jobs =>
          if b_next y <? job_rev job
          then with_thread y jobs (b_next y) (heap_push (b_spool y) job) Receiving (b_world y) (b_written y)
          else with_thread y jobs (b_next y) (b_spool y) (Sending job) (b_world y) (b_written y)
      end
  | Sending job =>
      with_thread y (b_jobs y) (i64_add (b_next y) 1) (b_spool y) Draining (do_send (b_world y) job) (b_written y)
  | Draining =>
      match heap_pop NotifyJob_cmp (b_spool y) with
      | Some (job, spool) =>
          if job_rev job =? b_next y
          then with_thread y (b_jobs y) (b_next y) spool (Sending job) (b_world y) (b_written y)
          else with_thread y (b_jobs y) (b_next y) (b_spool y) Publishing (b_world y) (b_written y)
      | None => with_thread y (b_jobs y) (b_next y) (b_spool y) Publishing (b_world y) (b_written y)
      end
  | Publishing =>
      with_thread y (b_jobs y) (b_next y) (b_spool y) Receiving (b_world y) (i64_sub (b_next y) 1)
  end.

(** [rx.recv_many(.., 1000)], the first branch of the biased [select!]. *)
Definition receive_turn (y : Beside) : Beside :=
  match b_stream y, channel y with
  | Polling, [] => with_stream y (Polled (b_written y)) (b_sess y) (b_out y)
  | Polling, q =>
      match watch_step s (b_sess y) (Received (take 1000 q)) with
      | (_, Some sess, out) =>
          mkBeside (b_jobs y) (b_next y) (b_spool y) (b_thread y)
            (mkWorld (log (b_world y)) (<[c := mkChannel (drop 1000 q) true]> (chans (b_world y))) (signalled (b_world y)))
            (b_written y) Polling sess (b_out y ++ ((λ r, (r, None)) <$> out))
      | (_, None, _) => with_stream y Ended (b_sess y) (b_out y)
      end
  | _, _ => y
  end.

(** The second branch: a message of the client, or none yet, and the stream is polled again
    later. *)
Definition client_turn (y : Beside) (m : option ClientMessage) : Beside :=
  match b_stream y, m with
  | Polled seen, Some (Message (Some ProgressRequest)) => with_stream y (Asked seen) (b_sess y) (b_out y)
  | Polled _, Some m =>
      match watch_step s (b_sess y) (FromClient m) with
      | (_, Some sess, out) => with_stream y Polling sess (b_out y ++ ((λ r, (r, None)) <$> out))
      | (_, None, _) => with_stream y Ended (b_sess y) (b_out y)
      end
  | Polled _, None => with_stream y Polling (b_sess y) (b_out y)
  | _, _ => y
  end.

(** The answer to a progress request, with what the thread has published by now. *)
Definition answer_turn (y : Beside) : Beside :=
  match b_stream y with
  | Asked seen =>
      match watch_step (with_progress s (b_written y)) (b_sess y) (FromClient (Message (Some ProgressRequest))) with
      | (_, Some sess, out) =>
          with_stream y Polling sess (b_out y ++ ((λ r, (r, Some (seen, b_written y))) <$> out))
      | (_, None, _) => with_stream y Ended (b_sess y) (b_out y)
      end
  | _ => y
  end.

Inductive Turn :=
| ThreadTurn
| ReceiveTurn
| ClientTurn (m : option ClientMessage)
| AnswerTurn.

Definition take_turn (y : Beside) (t : Turn) : Beside :=
  match t with
  | ThreadTurn => thread_turn y
  | ReceiveTurn => receive_turn y
  | ClientTurn m => client_turn y m
  | AnswerTurn => answer_turn y
  end.

Definition take_turns (y : Beside) (ts : list Turn) : Beside := foldl take_turn y ts.

(** The thread at its start, with the jobs to come, and a stream with its session. *)
Definition beside_new (jobs : list NotifyJob) (w : World) (sess : Session) : Beside :=
  mkBeside jobs 1 [] Receiving w 0 Polling sess [].

(** ** The thread alone *)

Definition thread_state (y : Beside) : NotifyThread := mkNotifyThread (b_next y) (b_spool y) (b_written y) (b_world y).

(** At the head of the loop over the spool, the thread goes on as [drain_spool] says. *)
Lemma drain_turns fuel y next spool w :
  b_thread y = Draining → (length (b_spool y) ≤ fuel)%nat →
  drain_spool fuel (b_next y) (b_spool y) (b_world y) = (next, spool, w) →
  ∃ n, take_turns y (replicate n ThreadTurn) = with_thread y (b_jobs y) next spool Receiving w (i64_sub next 1).
Proof.
  revert y. induction fuel as [|fuel IH]; intros [jobs nx sp pc wd wr st se out]; cbn [b_thread b_spool b_next b_world b_jobs];
    intros -> Hf; simpl.
  { destruct sp; [|simpl in Hf; lia]. intros [= <- <- <-]. by exists 2%nat. }
  destruct (heap_pop NotifyJob_cmp sp) as [[job sp']|] eqn:Hp; [|intros [= <- <- <-]; exists 2%nat; unfold take_turns; simpl; unfold thread_turn; simpl; by rewrite Hp].
  destruct (job_rev job =? nx) eqn:Hj; [|intros [= <- <- <-]; exists 2%nat; unfold take_turns; simpl; unfold thread_turn; simpl; by rewrite Hp, Hj].
  intros Hd. destruct (IH (mkBeside jobs (i64_add nx 1) sp' Draining (do_send wd job) wr st se out)) as [n Hn]; [done| |exact Hd|].
  { simpl. destruct (heap_pop_Some NotifyJob_cmp job_rev sp job sp') as [Hperm _]; [done|done|].
    apply Permutation_length in Hperm. simpl in Hperm. lia. }
  exists (S (S n)). unfold take_turns in *. simpl. unfold thread_turn at 2. simpl. rewrite Hp, Hj. simpl. exact Hn.
Qed.

(** The steps of the thread are the turns of its loop. *)
Lemma thread_alone y job jobs :
  b_thread y = Receiving → b_jobs y = job :: jobs →
  ∃ n y', take_turns y (replicate n ThreadTurn) = y' ∧ b_thread y' = Receiving ∧ b_jobs y' = jobs ∧
    thread_state y' = receive (thread_state y) job ∧ b_out y' = b_out y.
Proof.
  destruct y as [jobs0 nx sp pc wd wr st se out]. simpl. intros -> ->. unfold receive, thread_state. simpl.
  destruct (nx <? job_rev job) eqn:Hj.
  - eexists 1%nat, _. split; [done|]. unfold take_turns. simpl. unfold thread_turn. simpl. by rewrite Hj.
  - destruct (drain_spool (length sp) (i64_add nx 1) sp (do_send wd job)) as [[next spool] w] eqn:Hd.
    destruct (drain_turns (length sp) (mkBeside jobs (i64_add nx 1) sp Draining (do_send wd job) wr st se out) next spool w)
      as [n Hn]; [done|done|exact Hd|].
    assert (take_turns (mkBeside (job :: jobs) nx sp Receiving wd wr st se out) (replicate (S (S n)) ThreadTurn) =
      mkBeside jobs next spool Receiving w (i64_sub next 1) st se out) as E.
    { unfold take_turns in *. simpl. unfold thread_turn at 2. simpl. rewrite Hj. exact Hn. }
    exists (S (S n)), (mkBeside jobs next spool Receiving w (i64_sub next 1) st se out). split; [exact E|done].
Qed.

(** ** What a turn keeps *)

(** The jobs the thread has still to send. *)
Definition to_send (y : Beside) : list NotifyJob :=
  b_jobs y ++ b_spool y ++ match b_thread y with Sending job => [job] | _ => [] end.

(** The thread sends in revision order and publishes what is in the channels. *)
Record thread_ok (y : Beside) : Prop := {
  to_distinct : NoDup (job_rev <$> to_send y);
  to_ahead : Forall (λ j, b_next y ≤ job_rev j ∧ change_rev (job_msg j) = job_rev j) (to_send y);
  to_sending : ∀ job, b_thread y = Sending job → job_rev job = b_next y;
  to_room : 1 ≤ b_next y ∧ b_next y + Z.of_nat (length (to_send y)) ≤ i64_max;
  to_written : b_written y < b_next y;
  to_channel : ∀ m, m ∈ channel y → change_rev m < b_next y;
}.

(** What is in the channel is beyond a revision, and so is all that will come. *)
Definition beyond (y : Beside) (rev : Z) : Prop := rev < b_next y ∧ ∀ m, m ∈ channel y → rev < change_rev m.

Record answered (y : Beside) (resp : WatchResponse) (seen load mm : Z) : Prop := {
  an_seen : seen ≤ load;
  an_revision : wr_revision resp = Z.max load mm;
  an_session : mm ≤ max_event_stream_rev (b_sess y);
  an_beyond : beyond y seen;
}.

Record stream_ok (y : Beside) : Prop := {
  so_seen : match b_stream y with
            | Polled seen | Asked seen => seen ≤ b_written y ∧ beyond y seen
            | _ => True
            end;
  so_out : ∀ i resp seen load, b_out y !! i = Some (resp, Some (seen, load)) →
    ∃ mm, answered y resp seen load mm ∧
      ∀ j o ev, (i < j)%nat → b_out y !! j = Some o → ev ∈ wr_events o.1 →
        seen < kv_mod_revision (ev_kv ev) ∧ mm < kv_mod_revision (ev_kv ev);
}.

Lemma channel_sent w job m :
  m ∈ from_option queue [] (chans (do_send w job) !! c) → m ∈ from_option queue [] (chans w !! c) ∨ m = job_msg job.
Proof.
  assert (∀ cs ws, m ∈ from_option queue [] (foldl (λ cs c, try_send cs (job_msg job) c) cs ws !! c) →
    m ∈ from_option queue [] (cs !! c) ∨ m = job_msg job) as Hws.
  { intros cs ws. revert cs. induction ws as [|d ws IH]; intros cs; simpl; [by left|]. intros [Hm| ->]%IH; [|by right].
    destruct (decide (d = c)) as [->|Hne]; [|rewrite try_send_ne in Hm by done; by left].
    unfold try_send in Hm. destruct (cs !! c) as [ch|] eqn:Hc; [|rewrite Hc in Hm; by left].
    destruct (_ && _); [|rewrite Hc in Hm; by left].
    rewrite list_lookup_insert_eq in Hm by (by eapply lookup_lt_Some). simpl in Hm.
    apply elem_of_app in Hm as [Hm|Hm%list_elem_of_singleton]; [by left|by right]. }
  unfold do_send. destruct (match log w with Some _ => _ | None => _ end) as [l' now]. simpl. apply Hws.
Qed.

(** The stream is as it was when no message below what was said has come. *)
Lemma stream_ok_kept y y' :
  b_stream y' = b_stream y → b_sess y' = b_sess y → b_out y' = b_out y → b_written y ≤ b_written y' →
  (∀ rev, rev < b_next y → beyond y rev → beyond y' rev) → stream_ok y → stream_ok y'.
Proof.
  intros Hst Hse Hout Hw Hb [Hs Ho]. split.
  - rewrite Hst. destruct (b_stream y) as [|seen|seen|]; try done; destruct Hs as [Hle Hbe]; (split; [lia|apply Hb; [apply Hbe|done]]).
  - rewrite Hout. intros i resp seen load Hi. destruct (Ho _ _ _ _ Hi) as (mm & [H1 H2 H3 H4] & Hall). exists mm.
    split; [|done]. split; try done; [by rewrite Hse|apply Hb; [apply H4|done]].
Qed.

(** The thread moves on with the jobs it has still to send in another order. *)
Lemma thread_ok_moved y y' :
  to_send y' ≡ₚ to_send y → b_next y' = b_next y → b_world y' = b_world y → b_written y' < b_next y →
  (∀ job, b_thread y' = Sending job → job_rev job = b_next y) → thread_ok y → thread_ok y'.
Proof.
  intros Hp Hn Hwd Hw Hs [Hd Ha _ Hr _ Hc]. split; rewrite ?Hn; try done.
  - by rewrite Hp.
  - by rewrite Hp.
  - by rewrite Hp.
  - unfold channel. rewrite Hwd. exact Hc.
Qed.

(** The job with the next revision is sent. *)
Lemma thread_ok_sent y job y' :
  thread_ok y → b_thread y = Sending job → to_send y ≡ₚ job :: to_send y' → b_next y' = i64_add (b_next y) 1 →
  b_thread y' = Draining → b_world y' = do_send (b_world y) job → b_written y' = b_written y →
  thread_ok y' ∧ ∀ rev, rev < b_next y → beyond y rev → beyond y' rev.
Proof.
  intros [Hd Ha Hs Hr Hw Hc] Hpc Hp Hn Hth Hwd Hwr. specialize (Hs _ Hpc). rewrite Hp in Hd, Ha, Hr. csimpl in Hd.
  apply NoDup_cons in Hd as [Hnin Hd]. apply Forall_cons in Ha as [[_ Hjob] Ha]. cbn [length] in Hr.
  assert (i64_add (b_next y) 1 = b_next y + 1) as Hadd by (apply i64_add_id; width). rewrite Hadd in Hn.
  assert (∀ m, m ∈ channel y' → m ∈ channel y ∨ m = job_msg job) as Hch.
  { intros m. unfold channel. rewrite Hwd. apply channel_sent. }
  split; [split|].
  - done.
  - rewrite Forall_forall in Ha |- *. intros j Hj. destruct (Ha j Hj) as [Hle Heq]. split; [|done]. rewrite Hn.
    assert (job_rev j ≠ b_next y); [|lia]. intros E. apply Hnin. rewrite Hs, <- E. by apply list_elem_of_fmap_2.
  - intros job'. by rewrite Hth.
  - rewrite Hn. lia.
  - rewrite Hn, Hwr. lia.
  - rewrite Hn. intros m [Hm| ->]%Hch; [specialize (Hc m Hm); lia|lia].
  - intros rev Hrev [_ Hb]. split; [lia|]. intros m [Hm| ->]%Hch; [by apply Hb|lia].
Qed.

Lemma thread_turn_ok y : thread_ok y → stream_ok y → thread_ok (thread_turn y) ∧ stream_ok (thread_turn y).
Proof.
  intros Ht Hs. assert (∀ y', b_stream y' = b_stream y → b_sess y' = b_sess y → b_out y' = b_out y → b_next y' = b_next y →
    b_world y' = b_world y → b_written y ≤ b_written y' → stream_ok y') as Hkeep.
  { intros y' ? ? ? Hn Hwd ?. apply (stream_ok_kept y); try done. intros rev Hrev [_ Hb]. split; [by rewrite Hn|].
    unfold channel. by rewrite Hwd. }
  pose proof (to_written _ Ht) as Hw. pose proof (to_sending _ Ht) as Hsend. pose proof (to_ahead _ Ht) as Hahead.
  destruct y as [jobs nx sp pc wd wr st se out]. unfold thread_turn. cbn [b_thread]. destruct pc as [|job| |]; simpl in *.
  - destruct jobs as [|job jobs]; [done|]. destruct (Z.ltb_spec nx (job_rev job)) as [Hlt|Hge]; (split; [|by apply Hkeep]).
    + apply (thread_ok_moved (mkBeside (job :: jobs) nx sp Receiving wd wr st se out)); try done.
      unfold to_send. simpl. rewrite !app_nil_r. unfold heap_push. by rewrite <- Permutation_middle.
    + apply (thread_ok_moved (mkBeside (job :: jobs) nx sp Receiving wd wr st se out)); try done.
      * unfold to_send. simpl. rewrite !app_nil_r, app_assoc. by rewrite Permutation_app_comm.
      * intros job' [= <-]. unfold to_send in Hahead. simpl in Hahead. apply Forall_cons in Hahead as [[? _] _]. simpl in *. lia.
  - destruct (thread_ok_sent (mkBeside jobs nx sp (Sending job) wd wr st se out) job
      (mkBeside jobs (i64_add nx 1) sp Draining (do_send wd job) wr st se out)) as [Ht' Hb]; try done.
    { unfold to_send. simpl. rewrite app_nil_r, app_assoc. by rewrite Permutation_app_comm. }
    split; [exact Ht'|]. by apply (stream_ok_kept (mkBeside jobs nx sp (Sending job) wd wr st se out)).
  - assert (∀ sp', sp' = sp → thread_ok (mkBeside jobs nx sp' Publishing wd wr st se out)) as Hpub.
    { intros sp' ->. by apply (thread_ok_moved (mkBeside jobs nx sp Draining wd wr st se out)). }
    destruct (heap_pop NotifyJob_cmp sp) as [[job sp']|] eqn:Hp; [|split; [by apply Hpub|by apply Hkeep]].
    destruct (Z.eqb_spec (job_rev job) nx) as [Heq|Hne]; [|split; [by apply Hpub|by apply Hkeep]].
    split; [|by apply Hkeep]. apply (thread_ok_moved (mkBeside jobs nx sp Draining wd wr st se out)); try done.
    + destruct (heap_pop_Some NotifyJob_cmp job_rev sp job sp') as [Hperm _]; [done|done|].
      unfold to_send. simpl. rewrite app_nil_r, Hperm. f_equiv. by rewrite Permutation_app_comm.
    + by intros job' [= <-].
  - pose proof (to_room _ Ht) as Hr. simpl in Hr. assert (i64_sub nx 1 = nx - 1) as Hsub by (apply i64_sub_id; width).
    split; [|apply Hkeep; try done; simpl; lia].
    apply (thread_ok_moved (mkBeside jobs nx sp Publishing wd wr st se out)); try done. simpl. lia.
Qed.

(** The stream sends more: its events are of the channel and not yet sent, an answer is
    about what was published. *)
Lemma stream_ok_out y y' new :
  b_out y' = b_out y ++ new → b_next y' = b_next y → (∀ m, m ∈ channel y' → m ∈ channel y) →
  max_event_stream_rev (b_sess y) ≤ max_event_stream_rev (b_sess y') → (b_stream y' = Polling ∨ b_stream y' = Ended) →
  (∀ o ev, o ∈ new → ev ∈ wr_events o.1 → max_event_stream_rev (b_sess y) < kv_mod_revision (ev_kv ev) ∧
    ∃ m, m ∈ channel y ∧ change_rev m = kv_mod_revision (ev_kv ev)) →
  (∀ resp seen load, (resp, Some (seen, load)) ∈ new →
    (∃ mm, answered y' resp seen load mm) ∧ ∀ o, o ∈ new → wr_events o.1 = []) →
  stream_ok y → stream_ok y'.
Proof.
  intros Hout Hn Hch Hmax Hst Hev Han [_ Ho]. split; [by destruct Hst as [-> | ->]|]. rewrite Hout.
  intros i resp seen load [Hi|[Hlen Hi]]%lookup_app_Some.
  - destruct (Ho _ _ _ _ Hi) as (mm & [H1 H2 H3 [H4 H5]] & Hall). exists mm. split.
    { split; [done|done|lia|]. split; [by rewrite Hn|]. intros m Hm. by apply H5, Hch. }
    intros j o ev Hij [Hj|[_ Hj]]%lookup_app_Some Hin; [by eapply Hall|].
    apply list_elem_of_lookup_2 in Hj. destruct (Hev o ev Hj Hin) as [Hlt (m & Hm & E)]. specialize (H5 m Hm). lia.
  - apply list_elem_of_lookup_2 in Hi. destruct (Han _ _ _ Hi) as [[mm Hmm] Hnone]. exists mm. split; [done|].
    intros j o ev Hij [Hj|[_ Hj]]%lookup_app_Some Hin; [apply lookup_lt_Some in Hj; lia|].
    apply list_elem_of_lookup_2 in Hj. rewrite (Hnone o Hj) in Hin. by apply elem_of_nil in Hin.
Qed.

(** The stream moves on and sends nothing. *)
Lemma stream_ok_moves y pc :
  match pc with Polled seen | Asked seen => seen ≤ b_written y ∧ beyond y seen | _ => True end →
  stream_ok y → stream_ok (with_stream y pc (b_sess y) (b_out y)).
Proof.
  intros Hpc [_ Ho]. split; [by destruct pc|]. intros i resp seen load Hi.
  destruct (Ho _ _ _ _ Hi) as (mm & [H1 H2 H3 H4] & Hall). exists mm. by split.
Qed.

(** The thread does not see what the stream does. *)
Lemma thread_ok_stream y y' :
  b_jobs y' = b_jobs y → b_next y' = b_next y → b_spool y' = b_spool y → b_thread y' = b_thread y →
  b_written y' = b_written y → (∀ m, m ∈ channel y' → m ∈ channel y) → thread_ok y → thread_ok y'.
Proof.
  intros Hj Hn Hsp Hpc Hw Hch [H1 H2 H3 H4 H5 H6].
  assert (to_send y' = to_send y) as E by (unfold to_send; by rewrite Hj, Hsp, Hpc).
  split; rewrite ?E, ?Hn, ?Hw; try done; [by rewrite Hpc|]. intros m Hm. by apply H6, Hch.
Qed.

(** What a batch off the channel does to the session and sends. *)
Lemma received_step sess x q :
  ∃ sess' out, watch_step s sess (Received (x :: q)) = (s, Some sess', out) ∧
    max_event_stream_rev sess ≤ max_event_stream_rev sess' ∧
    ∀ r ev, r ∈ out → ev ∈ wr_events r → max_event_stream_rev sess < kv_mod_revision (ev_kv ev) ∧
      ∃ m, m ∈ x :: q ∧ change_rev m = kv_mod_revision (ev_kv ev).
Proof.
  unfold watch_step. destruct (last _) as [m|] eqn:Hl; eexists _, _; (split; [reflexivity|]); cbn [max_event_stream_rev].
  - split; [lia|]. intros r ev ->%list_elem_of_singleton. cbn [wr_events].
    intros (m' & -> & [Hlt Hin]%list_elem_of_filter)%list_elem_of_fmap. split; [exact Hlt|by exists m'].
  - split; [lia|]. by intros r ev ?%elem_of_nil.
Qed.

Lemma receive_turn_ok y : thread_ok y → stream_ok y → thread_ok (receive_turn y) ∧ stream_ok (receive_turn y).
Proof.
  intros Ht Hs. unfold receive_turn. destruct (b_stream y) eqn:Hst; try by split.
  destruct (channel y) as [|x q] eqn:Hq.
  { split; [by apply (thread_ok_stream y)|]. apply stream_ok_moves; [|done]. split; [lia|].
    split; [apply Ht|]. intros m Hm. rewrite Hq in Hm. by apply elem_of_nil in Hm. }
  change (take 1000 (x :: q)) with (x :: take 999 q).
  destruct (received_step (b_sess y) x (take 999 q)) as (sess' & out & -> & Hmax & Hev).
  set (y' := mkBeside _ _ _ _ _ _ _ _ _).
  assert (∀ m, m ∈ channel y' → m ∈ channel y) as Hch.
  { intros m. unfold channel at 1. subst y'. cbn [b_world chans]. rewrite Hq. unfold channel in Hq.
    destruct (chans (b_world y) !! c) as [ch|] eqn:Hc; [|done].
    rewrite list_lookup_insert_eq by (by eapply lookup_lt_Some). simpl. intros Hm.
    apply elem_of_cons. right. rewrite <- (take_drop 999 q). apply elem_of_app. by right. }
  split; [by apply (thread_ok_stream y)|].
  apply (stream_ok_out y y' ((λ r, (r, None)) <$> out)); try done; [by left| |].
  - intros o ev (r & -> & Hr)%list_elem_of_fmap Hin. destruct (Hev r ev Hr Hin) as [Hlt (m & Hm & He)]. split; [done|].
    exists m. split; [|done]. rewrite Hq. apply elem_of_cons in Hm as [->|Hm]; [by left|right].
    rewrite <- (take_drop 999 q). apply elem_of_app. by left.
  - by intros resp seen load (r & ? & _)%list_elem_of_fmap.
Qed.

(** A message that does not ask for progress sends nothing. *)
Lemma client_step sess m :
  m ≠ Message (Some ProgressRequest) →
  ∃ s', watch_step s sess (FromClient m) = (s', None, []) ∨ watch_step s sess (FromClient m) = (s', Some sess, []).
Proof.
  intros Hm. destruct m as [e| |[[r|id|]|]]; simpl; try done; try (eexists; by left); try (eexists; by right).
  destruct (id =? sess_id sess); eexists; [by left|by right].
Qed.

Lemma client_turn_ok y m : thread_ok y → stream_ok y → thread_ok (client_turn y m) ∧ stream_ok (client_turn y m).
Proof.
  intros Ht Hs. pose proof (so_seen _ Hs) as Hseen.
  assert (∀ pc, pc = Polling ∨ pc = Ended → thread_ok (with_stream y pc (b_sess y) (b_out y)) ∧
    stream_ok (with_stream y pc (b_sess y) (b_out y))) as Hquiet.
  { intros pc Hpc. split; [by apply (thread_ok_stream y)|]. apply stream_ok_moves; [by destruct Hpc as [-> | ->]|done]. }
  unfold client_turn. destruct (b_stream y) as [|seen|seen|] eqn:Hst; try by split.
  destruct m as [m|]; [|apply Hquiet; by left].
  assert (m = Message (Some ProgressRequest) ∨ m ≠ Message (Some ProgressRequest)) as [->|Hm]
    by (destruct m as [e| |[[r|id|]|]]; auto; by right).
  { split; [by apply (thread_ok_stream y)|]. by apply stream_ok_moves. }
  destruct (client_step (b_sess y) m Hm) as [s' [E|E]]; destruct m as [e| |[[r|id|]|]]; try done; rewrite E; csimpl;
    rewrite ?app_nil_r; apply Hquiet; auto.
Qed.

Lemma answer_turn_ok y : thread_ok y → stream_ok y → thread_ok (answer_turn y) ∧ stream_ok (answer_turn y).
Proof.
  intros Ht Hs. pose proof (so_seen _ Hs) as Hseen. unfold answer_turn.
  destruct (b_stream y) as [|seen|seen|] eqn:Hst; try by split. cbn -[take_turn].
  split; [by apply (thread_ok_stream y)|].
  eapply (stream_ok_out y); try done; [by left| |].
  - intros o ev ->%list_elem_of_singleton. simpl. by intros ?%elem_of_nil.
  - intros resp seen' load E%list_elem_of_singleton. injection E as -> -> ->. split.
    + exists (max_event_stream_rev (b_sess y)). destruct Hseen as [Hle Hb]. by split.
    + by intros o ->%list_elem_of_singleton.
Qed.

Lemma take_turns_ok y ts : thread_ok y → stream_ok y → thread_ok (take_turns y ts) ∧ stream_ok (take_turns y ts).
Proof.
  unfold take_turns. revert y. induction ts as [|t ts IH]; intros y Ht Hs; [done|]. simpl.
  assert (thread_ok (take_turn y t) ∧ stream_ok (take_turn y t)) as [Ht' Hs']; [|by apply IH].
  destruct t; simpl; [by apply thread_turn_ok|by apply receive_turn_ok|by apply client_turn_ok|by apply answer_turn_ok].
Qed.

(** Jobs as the writers queue them: one per revision, in any order, for a channel that the
    watcher has just been given. *)
Record beside_start (jobs : list NotifyJob) (w : World) : Prop := {
  bs_distinct : NoDup (job_rev <$> jobs);
  bs_revs : Forall (λ j, 1 ≤ job_rev j ∧ change_rev (job_msg j) = job_rev j) jobs;
  bs_room : 1 + Z.of_nat (length jobs) ≤ i64_max;
  bs_empty : from_option queue [] (chans w !! c) = [];
}.

Lemma beside_new_ok jobs w sess :
  beside_start jobs w → thread_ok (beside_new jobs w sess) ∧ stream_ok (beside_new jobs w sess).
Proof.
  intros [H1 H2 H3 H4]. split; split; unfold to_send, channel; simpl; rewrite ?app_nil_r, ?H4; try done; try lia.
  by intros m ?%elem_of_nil.
Qed.

(** ** The promise *)

(** C9: What a progress answer promises. However the thread and the stream take turns, no
    event after an answer is at or before the revision that was published when the channel
    was found empty, nor at or before the last one sent; so the answer holds unless the
    thread published more between the poll of the channel and the answer. *)
Theorem progress_promise jobs w sess ts i resp seen load :
  beside_start jobs w → b_out (take_turns (beside_new jobs w sess) ts) !! i = Some (resp, Some (seen, load)) →
  seen ≤ load ∧
  ∀ j o ev, (i < j)%nat → b_out (take_turns (beside_new jobs w sess) ts) !! j = Some o → ev ∈ wr_events o.1 →
    seen < kv_mod_revision (ev_kv ev) ∧ (load = seen → wr_revision resp < kv_mod_revision (ev_kv ev)).
Proof.
  intros Hb Hi. destruct (beside_new_ok jobs w sess Hb) as [Ht Hs].
  destruct (take_turns_ok _ ts Ht Hs) as [_ [_ Ho]]. destruct (Ho _ _ _ _ Hi) as (mm & [H1 H2 _ _] & Hall).
  split; [done|]. intros j o ev Hij Hj Hin. destruct (Hall j o ev Hij Hj Hin). split; [done|lia].
Qed.
End beside.

(** *** On concrete schedules *)

Definition sample_beside : Beside :=
  beside_new [sample_job 2; sample_job 1] sample_world (mkSession (bytes "k") 1 false 0).

Definition ask : Turn := ClientTurn (Some (Message (Some ProgressRequest))).

(** The client asks while the second change waits for the first; nothing is published, the
    answer is 0, and both changes come after it. *)
Definition in_time : list Turn :=
  [ThreadTurn; ReceiveTurn; ask; AnswerTurn] ++ replicate 6 ThreadTurn ++ [ReceiveTurn].

Lemma progress_promise_witness :
  (λ o, (wr_revision o.1, (kv_mod_revision ∘ ev_kv) <$> wr_events o.1, o.2)) <$>
    b_out (take_turns (new_store None) 0 sample_beside in_time) = [(0, [], Some (0, 0)); (2, [1; 2], None)] ∧
  ∀ ev, ev ∈ wr_events (default (mkWatchResponse 0 0 false 0 [])
    (fst <$> b_out (take_turns (new_store None) 0 sample_beside in_time) !! 1%nat)) → 0 < kv_mod_revision (ev_kv ev).
Proof.
  split; [vm_compute; reflexivity|]. intros ev Hev.
  refine (proj2 (proj2 (progress_promise (new_store None) 0 [sample_job 2; sample_job 1] sample_world
    (mkSession (bytes "k") 1 false 0) in_time 0 (mkWatchResponse 0 1 false 0 []) 0 0 _ _) 1%nat _ ev _ _ Hev) _).
  - split.
    + vm_compute. apply (bool_decide_unpack _). vm_compute. exact I.
    + repeat constructor; discriminate.
    + vm_compute. discriminate.
    + reflexivity.
  - vm_compute. reflexivity.
  - lia.
  - vm_compute. reflexivity.
  - reflexivity.
Defined.

(** The promise of the comment fails when the thread publishes between the poll of the
    channel and the answer: the answer is 2, and then the stream returns revision 1. *)
Example progress_overtaken :
  (λ o, (wr_revision o.1, (kv_mod_revision ∘ ev_kv) <$> wr_events o.1, o.2)) <$>
    b_out (take_turns (new_store None) 0 sample_beside
      ([ReceiveTurn] ++ replicate 7 ThreadTurn ++ [ask; AnswerTurn; ReceiveTurn]))
  = [(2, [], Some (0, 2)); (2, [1; 2], None)].
Proof. vm_compute. reflexivity. Qed.
