(* ===== verification/WatchFlow.v ===== *)
(** * From a write to a watching client

    The composition of the store and its table of watchers (src/store.rs), the
    notification thread and the watch service (src/watch_service.rs): what a client that
    opened a watch stream is sent, from the requests the other clients make. *)
From S2P Require Import Prelude Bytes BTreeMap BlockDeque Types Prefix History Store StoreSpec WatchSpec StoreTrace StoreProps Notify WatchService.
Import StoreTrace.

(** What a watcher is to be told of a change. *)
Definition wanted (w : Watcher) (c : change) : option KeyValue :=
  '(k, v) ← c; if watcher_wants k (mod_revision v) w then Some (as_mvcc_key_value v k) else None.

(** The requests that leave the watch [id] open. *)
Definition keeps_watch (start : ByteArray) (id : Z) (o : op) : Prop :=
  match o with OUnwatch b i => (b, i) ≠ (start, id) | _ => True end.

Section flow.
Context `{!BlockSize}.
Implicit Types (s : Store) (a : AStore).

(** A channel has one watcher. *)
Lemma channel_owner s start id wt key rev :
  watchers_wf s → ((start, id), wt) ∈ watchers s →
  (∃ k id' w, ((k, id'), w) ∈ watchers s ∧ ch w = ch wt ∧ start_revision w ≤ rev ∧ watches_key w key) ↔
  watcher_wants key rev wt = true.
Proof.
  intros Hwf Hin. rewrite watcher_wants_spec. split; [|by eauto 10].
  intros (k & id' & w & Hw & Hc & Hrest). by rewrite (channel_unique _ _ _ _ _ _ _ Hwf Hin Hw (eq_sym Hc)).
Qed.

Lemma watch_registers s start end_ rev want s' r :
  watch s start end_ rev want = Ret (s', r) → s' = s ∨ ∃ sr, s' = register s start end_ sr.
Proof.
  unfold watch. destruct (_ && _); [intros [= <- _]; by left|]. intros Hw. right.
  destruct (0 <? rev); [|injection Hw as <- _; by eexists].
  destruct (prefix_and_range_of_key start end_) as [[p b]|e]; [|injection Hw as <- _; by eexists].
  destruct (prefix_map _ !! p) as [i|]; [|injection Hw as <- _; by eexists].
  apply bind_ret_inv in Hw as (es & _ & (chs & _ & [= <- _])%bind_ret_inv). by eexists.
Qed.

Lemma register_keeps s b e sr start id wt :
  watchers_wf s → Z.of_nat (length (channels s)) < i64_max → ((start, id), wt) ∈ watchers s →
  ((start, id), wt) ∈ watchers (register s b e sr).
Proof.
  intros [Hwf Hc He _] Hlt Hin. simpl. apply bt_insert_elem; [done|]. right. split; [|done].
  destruct (He _ _ _ Hin) as (_ & Hid & ?). rewrite Hc, i64_add_id by width. intros [= _ ?]. lia.
Qed.

(** A write is announced to the watcher exactly when it wants the change. *)
Lemma set_watched s a key new req s' r start id wt :
  implements s a → Z.of_nat (length (hist a)) < i64_max → Z.of_nat (length (channels s)) < i64_max →
  set s key new req = Ret (s', r) → ((start, id), wt) ∈ watchers s →
  ((start, id), wt) ∈ watchers s' ∧
  ∃ js hs, notify_tx s' = notify_tx s ++ js ∧ hist (awrite a key new req) = hist a ++ hs ∧
    kv <$> due (ch wt) js = omap (wanted wt) hs.
Proof.
  intros [Hr Hf Hj Hw] Hlt Hch Hset Hin. destruct (set_same _ _ _ _ _ _ Hset) as (Hws & _ & _).
  split; [by rewrite Hws|]. destruct (set_spec s _ key new req Hr Hlt) as (s2 & Hset2 & _ & _ & Hm).
  rewrite Hset in Hset2. injection Hset2 as <- Er. unfold awrite. rewrite <- Er in Hm |- *.
  destruct r as [rev|e]; [|exists [], []; by rewrite !app_nil_r].
  destruct (set_announces _ _ _ _ _ _ _ Hr Hw Hlt Hch Hset) as (job & Hn & Hrev & Hkv & _ & Hc).
  unfold hist_set in *. destruct (guard (hist a) key new req) eqn:Eg; [done|]. simpl in Er |- *. injection Er as ->.
  eexists [job], _. split; [done|]. split; [done|]. unfold due. rewrite filter_cons, filter_nil. csimpl.
  specialize (Hc (ch wt)). rewrite (channel_owner s start id wt _ _ Hw Hin) in Hc.
  destruct (watcher_wants key (Z.of_nat (length (hist a)) + 1) wt) eqn:E.
  - rewrite decide_True by (by apply Hc). csimpl. by rewrite Hkv.
  - rewrite decide_False; [done|]. intros ?%Hc. done.
Qed.

Lemma step_watched s a o s' r start id wt :
  implements s a → Z.of_nat (length (hist a)) < i64_max → Z.of_nat (length (channels s)) < i64_max →
  step s o = Ret (s', r) → no_replay o = true → keeps_watch start id o → ((start, id), wt) ∈ watchers s →
  ((start, id), wt) ∈ watchers s' ∧
  ∃ js hs, notify_tx s' = notify_tx s ++ js ∧ hist (anext a o) = hist a ++ hs ∧
    kv <$> due (ch wt) js = omap (wanted wt) hs.
Proof.
  intros Hi Hlt Hch Hs Hno Hk Hin.
  assert (∀ a', hist a' = hist a → ((start, id), wt) ∈ watchers s' → notify_tx s' = notify_tx s →
    ((start, id), wt) ∈ watchers s' ∧ ∃ js hs, notify_tx s' = notify_tx s ++ js ∧
      hist a' = hist a ++ hs ∧ kv <$> due (ch wt) js = omap (wanted wt) hs) as Hsame.
  { intros a' Ha Hw Hj. split; [done|]. exists [], []. by rewrite !app_nil_r, Ha, Hj. }
  pose proof (im_watchers _ _ Hi) as Hw.
  destruct o as [k v req|k req|k new|b e rev lim|b e rev want|b i|rev]; simpl in Hs; try done;
    try (apply bind_ret_inv in Hs as (x & Hx & [= <- _])).
  - destruct x. by eapply set_watched.
  - destruct x. by eapply set_watched.
  - by apply Hsame.
  - destruct x as [s1 r1]. apply Hsame; [done| |by eapply watch_jobs].
    destruct (watch_registers _ _ _ _ _ _ _ Hx) as [->|[sr ->]]; [done|by apply register_keeps].
  - injection Hs as <- _. apply Hsame; [done| |done]. destruct Hw as [Hwf _ _ _]. simpl in *.
    apply bt_get_Some_elem in Hin; [|done]. apply bt_get_Some_elem; [by apply bt_remove_wf|].
    rewrite bt_get_remove by done. destruct (cmp _ _) eqn:E; [|done..]. apply cmp_eq in E. by destruct Hk.
  - destruct x as [s1 r1]. destruct (compact_same _ _ _ _ Hx) as (Heq & _ & _).
    apply Hsame; simpl; [by case_match|by rewrite Heq|by eapply compact_jobs].
Qed.

Lemma run_watched s a ops s' rs start id wt :
  implements s a → legal_run a ops →
  Z.of_nat (length (hist a)) + Z.of_nat (length ops) ≤ i64_max →
  Z.of_nat (length (channels s)) + Z.of_nat (length ops) ≤ i64_max →
  run s ops = Ret (s', rs) → Forall (λ o, no_replay o = true) ops → Forall (keeps_watch start id) ops →
  ((start, id), wt) ∈ watchers s →
  ∃ js hs, notify_tx s' = notify_tx s ++ js ∧ hist (final a ops) = hist a ++ hs ∧
    kv <$> due (ch wt) js = omap (wanted wt) hs.
Proof.
  revert s a rs. induction ops as [|o ops IH]; intros s a rs Hi Hleg Hh Hc Hrun Hno Hk Hin; simpl in *.
  { injection Hrun as <- _. exists [], []. by rewrite !app_nil_r. }
  destruct Hleg as [Ho Hleg]. inversion Hno; inversion Hk; subst.
  destruct (step_implements s a o Hi Ho) as (s1 & r & Hs & Hi1 & _ & Hch); [lia|lia|].
  rewrite Hs, bind_ret in Hrun. apply bind_ret_inv in Hrun as ([s2 rs2] & Hrun & [= <- _]).
  destruct (step_watched s a o s1 r start id wt) as (Hin1 & js1 & hs1 & Hj1 & Hh1 & Hd1); try done; [lia|lia|].
  pose proof (anext_length a o).
  destruct (IH s1 (anext a o) rs2) as (js & hs & Hj & Hhs & Hd); try done; [lia|simpl in *; lia|].
  exists (js1 ++ js), (hs1 ++ hs). simpl in Hj. rewrite Hj, Hj1, Hhs, Hh1, <- !app_assoc. split; [done|]. split; [done|].
  unfold due in *. by rewrite filter_app, !fmap_app, omap_app, Hd1, Hd.
Qed.

(** Jobs are addressed to channels that exist. *)
Definition jobs_known s : Prop :=
  Forall (λ j, Forall (λ c, (c < length (channels s))%nat) (job_watchers j)) (notify_tx s).

Lemma jobs_known_grow s s' :
  notify_tx s' = notify_tx s → (length (channels s) ≤ length (channels s'))%nat → jobs_known s → jobs_known s'.
Proof.
  unfold jobs_known. intros -> Hle Hj. eapply Forall_impl; [exact Hj|]. simpl. intros j Hc.
  eapply Forall_impl; [exact Hc|]. simpl. lia.
Qed.

Lemma set_known s a key new req s' r :
  implements s a → Z.of_nat (length (hist a)) < i64_max → Z.of_nat (length (channels s)) < i64_max →
  set s key new req = Ret (s', r) → jobs_known s → jobs_known s'.
Proof.
  intros [Hr _ _ Hw] Hlt Hch Hset Hj. destruct (set_same _ _ _ _ _ _ Hset) as (_ & _ & Hc).
  destruct r as [rev|e].
  - destruct (set_announces _ _ _ _ _ _ _ Hr Hw Hlt Hch Hset) as (job & Hn & _ & _ & _ & Hjw).
    unfold jobs_known. rewrite Hn, Hc. apply Forall_app. split; [done|]. constructor; [|done].
    apply Forall_forall. intros c (k & id & w & Hin & <- & _)%Hjw.
    by apply (ww_entry _ Hw) in Hin as (_ & _ & ?).
  - destruct (set_spec s _ key new req Hr Hlt) as (s2 & Hset2 & _ & _ & Hm).
    rewrite Hset in Hset2. injection Hset2 as <- Er. rewrite <- Er in Hm.
    apply (jobs_known_grow s); [done|by rewrite Hc|done].
Qed.

Lemma step_known s a o s' r :
  implements s a → legal a o → Z.of_nat (length (hist a)) < i64_max → Z.of_nat (length (channels s)) < i64_max →
  step s o = Ret (s', r) → jobs_known s → jobs_known s'.
Proof.
  intros Hi _ Hlt Hch Hs Hj.
  destruct o as [k v req|k req|k new|b e rev lim|b e rev want|b i|rev]; simpl in Hs;
    try (apply bind_ret_inv in Hs as (x & Hx & [= <- _])).
  - destruct x. by eapply set_known.
  - destruct x. by eapply set_known.
  - destruct (set_for_replay_spec s _ k new (im_repr _ _ Hi) Hlt) as (s2 & Hset2 & _ & Hj2 & _).
    rewrite Hx in Hset2. injection Hset2 as <-. destruct (set_for_replay_same _ _ _ _ Hx) as (_ & _ & Hc).
    apply (jobs_known_grow s); [done|by rewrite Hc|done].
  - done.
  - destruct x as [s1 r1]. apply (jobs_known_grow s); [by eapply watch_jobs| |done].
    destruct (watch_registers _ _ _ _ _ _ _ Hx) as [->|[sr ->]]; [done|]. simpl. rewrite length_app. lia.
  - by injection Hs as <- _.
  - destruct x as [s1 r1]. destruct (compact_same _ _ _ _ Hx) as (_ & _ & Hc).
    apply (jobs_known_grow s); [by eapply compact_jobs|simpl; by rewrite Hc|done].
Qed.

(** ** Opening the stream *)

(** The past a request asks for. *)
Definition past_for (a : AStore) (req : WatchCreateRequest) (past : list KeyValueWithPrev) : Prop :=
  if wc_start_revision req <=? 0 then past = []
  else ∃ p r, prefix_and_range_of_key (wc_key req) (wc_range_end req) = Ok (p, r) ∧
         past_of (hist a) (floor a) (wc_prev_kv req) (wc_start_revision req) p r past.

Definition watcher_for s (req : WatchCreateRequest) : Watcher :=
  {| start_revision := if wc_start_revision req <=? 0 then current_revision s else wc_start_revision req;
     key_range_start := wc_key req; key_range_end := wc_range_end req; ch := length (channels s) |}.

(** What came before the stream was opened is not newer than the store. *)
Lemma past_for_bound s a req past :
  implements s a → floor a < wc_start_revision req ∨ wc_start_revision req ≤ 0 → past_for a req past →
  default 0 (change_rev <$> last past) ≤ Z.of_nat (length (hist a)).
Proof.
  intros Hi Hrev Hp. pose proof (sr_hist _ _ (im_repr _ _ Hi)) as Hok. unfold past_for in Hp.
  destruct (Z.leb_spec (wc_start_revision req) 0); [subst; simpl; lia|].
  destruct Hrev as [Hrev|]; [|lia]. destruct Hp as (p & r & _ & ks & _ & -> & _).
  destruct (last _) as [x|] eqn:El; simpl; [|lia]. apply last_Some_elem_of, list_elem_of_bind in El as (k & Hx & _).
  apply (list_elem_of_fmap_2 kv) in Hx. unfold key_changes in Hx. rewrite changes_from_kvs in Hx by done.
  apply list_elem_of_fmap in Hx as (v & Heq & [_ Hv]%list_elem_of_filter). unfold change_rev. rewrite Heq. simpl.
  apply event_lookup in Hv as [[_ Hle] _]; done.
Qed.

Lemma watch_open_spec s a req s' resps sess :
  implements s a → Z.of_nat (length (channels s)) < i64_max → bounds_ok (wc_key req) (wc_range_end req) →
  watch_open (Message (Some (CreateRequest req))) s = Ret (s', Ok (resps, Some sess)) →
  implements s' a ∧ s' = register s (wc_key req) (wc_range_end req) (start_revision (watcher_for s req)) ∧
  sess_key sess = wc_key req ∧ sess_id sess = Z.of_nat (length (channels s)) + 1 ∧
  sess_prev_kv sess = wc_prev_kv req ∧ max_event_stream_rev sess ≤ Z.of_nat (length (hist a)) ∧
  ∃ past, past_for a req past ∧ sent_events resps = event_of (wc_prev_kv req) <$> past.
Proof.
  intros Hi Hch Hb Hopen. pose proof Hi as [Hr Hf _ Hw].
  assert (i64_add (watch_counter s) 1 = Z.of_nat (length (channels s)) + 1) as Hid.
  { rewrite (ww_counter _ Hw). apply i64_add_id. width. }
  assert (∀ past id c, past_for a req past → floor a < wc_start_revision req ∨ wc_start_revision req ≤ 0 →
    watch s (wc_key req) (wc_range_end req) (wc_start_revision req) (wc_prev_kv req) =
      Ret (register s (wc_key req) (wc_range_end req) (start_revision (watcher_for s req)), Ok (past, id, c)) →
    id = Z.of_nat (length (channels s)) + 1 →
    s' = register s (wc_key req) (wc_range_end req) (start_revision (watcher_for s req)) ∧
    sess_key sess = wc_key req ∧ sess_id sess = Z.of_nat (length (channels s)) + 1 ∧
    sess_prev_kv sess = wc_prev_kv req ∧ max_event_stream_rev sess ≤ Z.of_nat (length (hist a)) ∧
    ∃ past, past_for a req past ∧ sent_events resps = event_of (wc_prev_kv req) <$> past) as Hgo.
  { intros past id c Hp Hrev Hwt ->. simpl in Hopen. rewrite Hwt, bind_ret in Hopen. simpl in Hopen.
    injection Hopen as <- <- <-. do 4 (split; [done|]). split; [by eapply past_for_bound|].
    exists past. split; [done|]. unfold sent_events. destruct past; csimpl; [done|]. by rewrite app_nil_r. }
  assert (implements s' a ∧ ∃ r, watch s (wc_key req) (wc_range_end req) (wc_start_revision req) (wc_prev_kv req) = Ret (s', r))
    as [Hi' [r Hwr]].
  { destruct (watch_implements s a (wc_key req) (wc_range_end req) (wc_start_revision req) (wc_prev_kv req) Hi Hch Hb)
      as (s1 & r & Hwt & Hi1 & _). simpl in Hopen. rewrite Hwt, bind_ret in Hopen. simpl in Hopen.
    assert (s' = s1) as -> by (destruct r as [[[past id] c]|]; by injection Hopen as <-). eauto. }
  split; [done|]. unfold past_for, watcher_for in *.
  destruct (Z.leb_spec (wc_start_revision req) 0) as [Hle|Hgt]; simpl in Hgo |- *.
  { eapply (Hgo []); [done|by right| |exact Hid].
    rewrite (watch_future_spec s (hist a)) by done. simpl. by rewrite (repr_current _ _ Hr). }
  destruct (Z.leb_spec (wc_start_revision req) (floor a)).
  { exfalso. rewrite (watch_compacted_spec s (hist a)) in Hwr by (done || lia). injection Hwr as <- <-.
    simpl in Hopen. rewrite (watch_compacted_spec s (hist a)), bind_ret in Hopen by (done || lia). done. }
  unfold bounds_ok in Hb.
  destruct (prefix_and_range_of_key (wc_key req) (wc_range_end req)) as [[p b]|e] eqn:Ep.
  - destruct (watch_past_spec s (hist a) (wc_key req) (wc_range_end req) (wc_start_revision req) (wc_prev_kv req) p b)
      as (changes & Hwt & Hp); [done|lia|lia|done|done|]. rewrite Hf in Hp.
    eapply (Hgo changes); [by eauto|by left|exact Hwt|exact Hid].
  - exfalso. simpl in Hopen. rewrite (watch_error_spec s (hist a) _ _ _ _ e), bind_ret in Hopen by (done || lia). done.
Qed.
End flow.

(** ** Delivery *)

(** What the channel of a new watcher is due after the requests that follow. *)
Lemma due_after_open `{!BlockSize} s1 a1 req s2 ops s3 rs3 :
  implements s1 a1 → implements s2 a1 → jobs_known s1 → legal_run a1 ops →
  s2 = register s1 (wc_key req) (wc_range_end req) (start_revision (watcher_for s1 req)) →
  Z.of_nat (length (hist a1)) + Z.of_nat (length ops) ≤ i64_max →
  Z.of_nat (length (channels s1)) + 1 + Z.of_nat (length ops) < i64_max →
  Forall (λ o, no_replay o = true) ops →
  Forall (keeps_watch (wc_key req) (Z.of_nat (length (channels s1)) + 1)) ops →
  run s2 ops = Ret (s3, rs3) →
  kv <$> due (length (channels s1)) (notify_tx s3) =
    omap (wanted (watcher_for s1 req)) (drop (length (hist a1)) (hist (final a1 ops))).
Proof.
  intros Hi1 Hi2 Hkn Hleg Hs2 Hh Hc Hno Hk Hrun. pose proof (im_watchers _ _ Hi1) as Hw.
  assert (((wc_key req, Z.of_nat (length (channels s1)) + 1), watcher_for s1 req) ∈ watchers s2) as Hin.
  { rewrite Hs2. simpl. rewrite (ww_counter _ Hw), i64_add_id by width.
    apply bt_insert_elem; [apply (ww_sorted _ Hw)|]. by left. }
  assert (length (channels s2) = S (length (channels s1))) as Hch2 by (rewrite Hs2; simpl; rewrite length_app; simpl; lia).
  destruct (run_watched s2 a1 ops s3 rs3 (wc_key req) (Z.of_nat (length (channels s1)) + 1) (watcher_for s1 req)
    Hi2 Hleg Hh) as (js & hs & Hj & Hhs & Hd); [lia|done..|].
  rewrite Hhs, drop_app_length, <- Hd, Hj. unfold due. rewrite filter_app, (filter_none _ (notify_tx s2)); [done|].
  rewrite Hs2. simpl. eapply Forall_impl; [exact Hkn|]. simpl. intros j Hall Hcj. rewrite Forall_forall in Hall.
  specialize (Hall _ Hcj). simpl in Hall. lia.
Qed.

Lemma wanted_sorted w h n : hist_ok h → StronglySorted Z.lt (kv_mod_revision <$> omap (wanted w) (drop n h)).
Proof.
  intros Hok. apply (StronglySorted_app_1_r _ (kv_mod_revision <$> omap (wanted w) (take n h))).
  rewrite <- fmap_app, <- omap_app, take_drop. apply omap_revs_sorted; [|done].
  intros [[k v]|] x; simpl; [|done]. destruct (watcher_wants _ _ _); [|done]. intros [= <-]. eauto.
Qed.

Lemma wanted_newer w h n :
  hist_ok h → Forall (λ x, Z.of_nat n < kv_mod_revision x) (omap (wanted w) (drop n h)).
Proof.
  intros Hok. apply Forall_forall. intros x ([[k v]|] & Hin & Hx)%list_elem_of_omap; [|done]. simpl in Hx.
  destruct (watcher_wants _ _ _); [|done]. injection Hx as <-. simpl.
  by apply (events_drop_newer h k), elem_of_events.
Qed.

(** ** Properties *)


(** The stream of a range, opened at revision 1 when there are two changes, one of them in
    the range; then three more requests. *)
Definition flow_req : WatchCreateRequest :=
  mkWatchCreateRequest (bytes "/registry/pods/") (bytes "/registry/pods0") 1 false.

Definition flow_before : list op :=
  [OPut (bytes "/registry/pods/a") (bytes "1") None; OPut (bytes "b") (bytes "2") None].

Definition flow_after : list op :=
  [OPut (bytes "/registry/pods/c") (bytes "3") None; ODelete (bytes "b") None;
   ODelete (bytes "/registry/pods/a") None].

Definition flow_world : World := mkWorld None [mkChannel [] true] [].

Lemma flow_run :
  ∃ s1 rs1 s2 resps sess s3 rs3 m1 m2,
    run (H:=block_size_2) (new_store None) flow_before = Ret (s1, rs1) ∧
    watch_open (H:=block_size_2) (Message (Some (CreateRequest flow_req))) s1 = Ret (s2, Ok (resps, Some sess)) ∧
    run (H:=block_size_2) s2 flow_after = Ret (s3, rs3) ∧ length (channels s1) = 0%nat ∧ sess_id sess = 1 ∧
    chans (world (process (start_thread flow_world) (reverse (notify_tx s3)))) !! 0%nat
      = Some (mkChannel (concat [[m1]; [m2]]) true) ∧
    (length (omap (wanted (watcher_for s1 flow_req))
       (drop (length (hist (final empty flow_before))) (hist (final (final empty flow_before) flow_after))))
     ≤ WATCH_CHANNEL_SIZE)%nat ∧
    kv_mod_revision <$> omap (wanted (watcher_for s1 flow_req))
       (drop (length (hist (final empty flow_before))) (hist (final (final empty flow_before) flow_after))) = [3; 5].
Proof.
  assert (match run (H:=block_size_2) (new_store None) flow_before with
    | Ret (s1, _) =>
        match watch_open (H:=block_size_2) (Message (Some (CreateRequest flow_req))) s1 with
        | Ret (s2, Ok (_, Some sess)) =>
            match run (H:=block_size_2) s2 flow_after with
            | Ret (s3, _) =>
                let later := omap (wanted (watcher_for s1 flow_req))
                  (drop (length (hist (final empty flow_before))) (hist (final (final empty flow_before) flow_after))) in
                bool_decide (length (channels s1) = 0%nat) && bool_decide (sess_id sess = 1) &&
                bool_decide (length later ≤ WATCH_CHANNEL_SIZE)%nat &&
                bool_decide (kv_mod_revision <$> later = [3; 5]) &&
                match chans (world (process (start_thread flow_world) (reverse (notify_tx s3)))) !! 0%nat with
                | Some (mkChannel [_; _] true) => true
                | _ => false
                end
            | Panic _ => false
            end
        | _ => false
        end
    | Panic _ => false
    end = true) as Hc by (vm_compute; reflexivity).
  destruct (run _ flow_before) as [[s1 rs1]|]; [|done].
  destruct (watch_open _ s1) as [[s2 [[resps [sess|]]|]]|] eqn:E2; try done.
  destruct (run s2 flow_after) as [[s3 rs3]|] eqn:E3; [|done]. cbv zeta in Hc.
  apply andb_true_iff in Hc as [(((H1%bool_decide_eq_true & H2%bool_decide_eq_true)%andb_true_iff
    & H3%bool_decide_eq_true)%andb_true_iff & H4%bool_decide_eq_true)%andb_true_iff H5].
  destruct (_ !! 0%nat) as [[q o]|] eqn:E5; [|done]. destruct q as [|m1 [|m2 [|]]], o; try done.
  exists s1, rs1, s2, resps, sess, s3, rs3, m1, m2. by split_and!.
Qed.


(** ** Departures *)

(** A key that never existed has a previous value in its first event, when a write to it
    was refused before: the refused write leaves an item without a value behind. And so
    has a key that is created again after its deletion. *)
Example first_event_has_previous_value :
  match run (H:=block_size_2) (new_store None)
          [ODelete (bytes "k") None; OPut (bytes "k") (bytes "1") None; ODelete (bytes "k") None;
           OPut (bytes "k") (bytes "2") None] with
  | Ret (s, _) => (fmap kv_version ∘ prev_kv ∘ job_msg) <$> notify_tx s = [Some 0; Some 1; Some 0]
  | Panic _ => False
  end.
Proof. vm_compute. reflexivity. Qed.
