(* ===== verification/Watchers.v ===== *)
(** * Watches beside writers (src/store.rs, [Store::watch])

    Opening a watch is not one step either: it takes the current revision, compares the
    revision asked for with the compacted one, takes an id, registers the watcher, and then
    reads the past of its range, item after item under the item's read lock and one revision
    after the other, while [set] calls and compactions go on. Here these are the steps of a
    watch next to the writers of [Concurrent]; the theorem is that no change falls between
    the past that is read and the notifications that follow. *)
From stdpp Require Import relations.
From S2P Require Import Prelude Bytes BTreeMap BlockDeque Heap Types Wal Prefix History Store StoreSpec WatchSpec StoreTrace StoreProps Notify Recovery Concurrent Readers WatchService.

(** ** The parts of a watch *)

Record WatchArgs := mkWatchArgs {
  a_start : ByteArray;
  a_end : ByteArray;
  a_rev : Z;
  a_prev : bool;
}.

(** The item being read: its location, its content under the read lock, the revisions
    still to be looked at and the loop's [prev_kv]. *)
Record Reading := mkReading {
  rd_loc : loc;
  rd_item : TreeItem;
  rd_revs : list Z;
  rd_prev : option KeyValue;
}.

(** Where a watch is. [compact] is the compacted revision it has read, which it answers
    when the range is not supported. While it scans it holds the guard of its prefix. *)
Inductive Wc :=
| WStarting
| WChecking (start_rev : Z)
| WCounting (start_rev compact : Z)
| WRegistering (start_rev compact id : Z) (c : nat)
| WOpening (start_rev compact id : Z) (c : nat)
| WScanning (start_rev id : Z) (c : nat) (prefix : ByteArray) (cur : option Reading)
    (todo : list (ByteArray * loc)) (past : list KeyValueWithPrev)
| WDone (start_rev : Z) (r : Result (list KeyValueWithPrev * Z * nat) Z).

(** [watch_counter.fetch_add(1)]; the channel is the watch's own from the start, and is
    numbered here. *)
Definition watch_count (s : Store) : Store :=
  with_watchers s (watchers s) (i64_add (watch_counter s) 1)
    (channels s ++ [{| queue := []; rx_open := true |}]).

Definition watcher_of (a : WatchArgs) (start_rev : Z) (c : nat) : Watcher :=
  {| start_revision := start_rev; key_range_start := a_start a; key_range_end := a_end a; ch := c |}.

(** [watchers.write().insert(..)] *)
Definition watch_register (s : Store) (a : WatchArgs) (start_rev id : Z) (c : nat) : Store :=
  with_watchers s (bt_insert (watchers s) (a_start a, id) (watcher_of a start_rev c))
    (watch_counter s) (channels s).

Section parts.
Context `{!BlockSize}.

Definition watch_begin (s : Store) (a : WatchArgs) : Wc :=
  WChecking (if a_rev a <=? 0 then current_revision s else a_rev a).

Definition watch_check (s : Store) (a : WatchArgs) (start_rev : Z) : Wc :=
  let compact_revision := as_i64 (Deque.earliest_revision (values_by_revision s)) in
  if (0 <? a_rev a) && (a_rev a <=? compact_revision) then WDone start_rev (Err compact_revision)
  else WCounting start_rev compact_revision.

(** [prefix_map.get(prefix)] and [btree.range(range)] *)
Definition watch_open_scan (s : Store) (a : WatchArgs) (start_rev compact id : Z) (c : nat) : outcome Wc :=
  if 0 <? a_rev a then
    match prefix_and_range_of_key (a_start a) (a_end a) with
    | Ok (prefix, bounds) =>
        match prefix_map s !! prefix with
        | Some prefix_map_item =>
            entries ← bt_range (btree prefix_map_item) bounds;
            Ret (WScanning start_rev id c prefix None entries [])
        | None => Ret (WDone start_rev (Ok ([], id, c)))
        end
    | Err _ => Ret (WDone start_rev (Err compact))
    end
  else Ret (WDone start_rev (Ok ([], id, c))).

(** [item.read()] and the search for the first revision to look at. *)
Definition watch_item (s : Store) (a : WatchArgs) (start_rev : Z) (l : loc) : outcome Reading :=
  item ← get_item s l;
  let pos := match binary_search (revisions item) start_rev with inl i => i | inr i => i end in
  let start_pos := if bool_decide (0 < pos)%nat && a_prev a then (pos - 1)%nat else pos in
  Ret (mkReading l item (drop start_pos (revisions item)) None).

(** One turn of the loop over the revisions: [values_by_revision.get(..)]. *)
Definition watch_revision (s : Store) (a : WatchArgs) (start_rev : Z) (cur : Reading) (item_rev : Z)
    (revs : list Z) (past : list KeyValueWithPrev) : outcome (Reading * list KeyValueWithPrev) :=
  v ← Deque.get (values_by_revision s) (usize_sub (as_usize item_rev) 1);
  Ret match v with
      | Some v =>
          (mkReading (rd_loc cur) (rd_item cur) revs
             (if a_prev a then Some (as_mvcc_key_value v (item_key (rd_item cur))) else None),
           if start_rev <=? item_rev
           then past ++ [{| prev_kv := rd_prev cur; kv := as_mvcc_key_value v (item_key (rd_item cur)) |}]
           else past)
      | None => (mkReading (rd_loc cur) (rd_item cur) revs None, past)
      end.

(** The loops run to their end without interference. *)
Fixpoint revisions_alone (s : Store) (a : WatchArgs) (start_rev : Z) (revs : list Z) (cur : Reading)
    (past : list KeyValueWithPrev) : outcome (list KeyValueWithPrev) :=
  match revs with
  | [] => Ret past
  | r :: revs' =>
      x ← watch_revision s a start_rev cur r revs' past;
      revisions_alone s a start_rev revs' x.1 x.2
  end.

Fixpoint items_alone (s : Store) (a : WatchArgs) (start_rev : Z) (todo : list (ByteArray * loc))
    (past : list KeyValueWithPrev) : outcome (list KeyValueWithPrev) :=
  match todo with
  | [] => Ret past
  | e :: todo' =>
      cur ← watch_item s a start_rev e.2;
      past' ← revisions_alone s a start_rev (rd_revs cur) cur past;
      items_alone s a start_rev todo' past'
  end.

(** A watch without interference. *)
Definition watch_alone (s : Store) (a : WatchArgs) :
    outcome (Store * Result (list KeyValueWithPrev * Z * nat) Z) :=
  match watch_begin s a with
  | WChecking start_rev =>
      match watch_check s a start_rev with
      | WCounting start_rev compact =>
          let s1 := watch_count s in
          let id := watch_counter s1 in
          let c := length (channels s) in
          let s2 := watch_register s1 a start_rev id c in
          r ← watch_open_scan s2 a start_rev compact id c;
          match r with
          | WScanning start_rev id c _ _ todo past =>
              past' ← items_alone s2 a start_rev todo past; Ret (s2, Ok (past', id, c))
          | WDone _ r => Ret (s2, r)
          | _ => Panic ""
          end
      | WDone _ r => Ret (s, r)
      | _ => Panic ""
      end
  | _ => Panic ""
  end.

Lemma revisions_alone_loop s a start_rev revs cur past :
  revisions_alone s a start_rev revs cur past =
    past_changes_loop s (rd_item cur) (a_prev a) start_rev revs (rd_prev cur) past.
Proof.
  revert cur past. induction revs as [|r revs IH]; intros cur past; simpl; [done|].
  unfold watch_revision. destruct (Deque.get _ _) as [[v|]|m]; [..|done]; rewrite !bind_ret; apply IH.
Qed.

Lemma items_alone_past s a start_rev todo past :
  items_alone s a start_rev todo past = past_changes s (a_prev a) start_rev todo past.
Proof.
  revert past. induction todo as [|[x l] todo IH]; intros past; simpl; [done|].
  unfold watch_item. simpl. destruct (get_item s l) as [it|m]; [|done]. rewrite !bind_ret, revisions_alone_loop.
  cbn [rd_item rd_prev rd_revs]. unfold item_past_changes. destruct (past_changes_loop _ _ _ _ _ _ _); [|done].
  rewrite !bind_ret. apply IH.
Qed.

(** The parts make up the call. *)
Lemma watch_parts s a : watch_alone s a = watch s (a_start a) (a_end a) (a_rev a) (a_prev a).
Proof.
  unfold watch_alone, watch_begin, watch, watch_check, watch_open_scan.
  destruct (_ && _); [done|]. cbn [watch_counter watch_count]. unfold watch_count, watch_register, watcher_of.
  simpl. destruct (0 <? a_rev a); [|done].
  destruct (prefix_and_range_of_key _ _) as [[p b]|e]; [|done].
  destruct (prefix_map s !! p); [|done].
  destruct (bt_range _ _) as [es|m]; [|done]. rewrite !bind_ret, items_alone_past. done.
Qed.
End parts.

(** ** Steps *)

(** The writers and the watches that are opened beside them. *)
Record WSys := mkWSys {
  ww : Writers;
  wcs : list Wc;
}.

Definition on_store (w : Writers) (s : Store) : Writers := mkWriters s (pcs w) (order w).

Definition wmove (y : WSys) (s : Store) (i : nat) (wc : Wc) : WSys :=
  mkWSys (on_store (ww y) s) (<[i := wc]> (wcs y)).

(** A watch that scans holds its prefix, and the item it reads. *)
Definition scanned (y : WSys) (p : ByteArray) : Prop :=
  ∃ i sr id c cur todo past, wcs y !! i = Some (WScanning sr id c p cur todo past).

Definition read_locked (y : WSys) (l : loc) : Prop :=
  ∃ i sr id c p cur todo past, wcs y !! i = Some (WScanning sr id c p (Some cur) todo past) ∧ rd_loc cur = l.

Inductive wsstep `{!BlockSize} (calls : list Call) (args : list WatchArgs) (y : WSys) : WSys → Prop :=
(** A writer or a compaction; [prefix_map.entry] and [item_arc.write()] wait for watches. *)
| ws_write w' :
    cstep calls (ww y) w' →
    (∀ p, scanned y p → prefix_map (st w') !! p = prefix_map (st (ww y)) !! p) →
    (∀ l, read_locked y l → unlocked w' l) →
    wsstep calls args y (mkWSys w' (wcs y))
| ws_begin i a :
    args !! i = Some a → wcs y !! i = Some WStarting →
    wsstep calls args y (wmove y (st (ww y)) i (watch_begin (st (ww y)) a))
| ws_check i a sr :
    args !! i = Some a → wcs y !! i = Some (WChecking sr) →
    wsstep calls args y (wmove y (st (ww y)) i (watch_check (st (ww y)) a sr))
| ws_count i sr compact :
    wcs y !! i = Some (WCounting sr compact) →
    let s' := watch_count (st (ww y)) in
    wsstep calls args y (wmove y s' i (WRegistering sr compact (watch_counter s') (length (channels (st (ww y))))))
| ws_register i a sr compact id c :
    args !! i = Some a → wcs y !! i = Some (WRegistering sr compact id c) →
    wsstep calls args y (wmove y (watch_register (st (ww y)) a sr id c) i (WOpening sr compact id c))
| ws_open i a sr compact id c wc :
    args !! i = Some a → wcs y !! i = Some (WOpening sr compact id c) →
    watch_open_scan (st (ww y)) a sr compact id c = Ret wc →
    wsstep calls args y (wmove y (st (ww y)) i wc)
(** [item.read()] waits for a writer that holds the item. *)
| ws_item i a sr id c p e todo past cur :
    args !! i = Some a → wcs y !! i = Some (WScanning sr id c p None (e :: todo) past) →
    unlocked (ww y) e.2 → watch_item (st (ww y)) a sr e.2 = Ret cur →
    wsstep calls args y (wmove y (st (ww y)) i (WScanning sr id c p (Some cur) todo past))
| ws_revision i a sr id c p cur r revs todo past cur' past' :
    args !! i = Some a → wcs y !! i = Some (WScanning sr id c p (Some cur) todo past) →
    rd_revs cur = r :: revs → watch_revision (st (ww y)) a sr cur r revs past = Ret (cur', past') →
    wsstep calls args y (wmove y (st (ww y)) i (WScanning sr id c p (Some cur') todo past'))
| ws_item_end i sr id c p cur todo past :
    wcs y !! i = Some (WScanning sr id c p (Some cur) todo past) → rd_revs cur = [] →
    wsstep calls args y (wmove y (st (ww y)) i (WScanning sr id c p None todo past))
| ws_end i sr id c p past :
    wcs y !! i = Some (WScanning sr id c p None [] past) →
    wsstep calls args y (wmove y (st (ww y)) i (WDone sr (Ok (past, id, c)))).

Definition ws_start (s : Store) (calls : list Call) (args : list WatchArgs) : WSys :=
  mkWSys (start s calls) (replicate (length args) WStarting).

(** ** What the watches leave alone *)

(** A watch changes nothing of the store but the table of watchers and the channels. *)
Definition same_data (s s' : Store) : Prop :=
  prefix_map s' = prefix_map s ∧ tree_map s' = tree_map s ∧ arcs s' = arcs s ∧
  values_by_revision s' = values_by_revision s ∧ notify_tx s' = notify_tx s.

Lemma same_data_refl s : same_data s s.
Proof. done. Qed.

Section system.
Context `{!BlockSize} (calls : list Call) (args : list WatchArgs) (s0 : Store) (h0 : history).
Hypothesis Hroom : Z.of_nat (length h0) + Z.of_nat (length calls) ≤ i64_max.

Lemma cinv_same w s' : same_data (st w) s' → cinv calls s0 h0 w → cinv calls s0 h0 (on_store w s').
Proof.
  intros (Hp & Ht & Ha & Hv & Hj) [(held & hidden & Hr & Hlk & Hix) Hlen Hpcs Hnd Hord Hjobs].
  split; simpl; try done; [exists held, hidden; split; [by eapply partial_ext|done]| |by rewrite Hj].
  intros i c pc Hc Hi. pose proof (Hpcs _ _ _ Hc Hi) as Hok. destruct pc; simpl in *; by rewrite ?Ht.
Qed.

(** The ids that are taken and not registered yet. *)
Definition taken (wc : Wc) : option (Z * nat) :=
  match wc with WRegistering _ _ id c => Some (id, c) | _ => None end.

(** A watch that has not taken an id yet. *)
Definition uncounted (wc : Wc) : bool :=
  match wc with WStarting | WChecking _ | WCounting _ _ => true | _ => false end.

Record wtable (y : WSys) : Prop := {
  wt_wf : watchers_wf (st (ww y));
  wt_taken : ∀ i wc id c, wcs y !! i = Some wc → taken wc = Some (id, c) →
    Z.of_nat c + 1 = id ∧ (c < length (channels (st (ww y))))%nat ∧
    ∀ k w, ((k, id), w) ∉ watchers (st (ww y));
  wt_distinct : ∀ i j wc wc' id c c', wcs y !! i = Some wc → wcs y !! j = Some wc' →
    taken wc = Some (id, c) → taken wc' = Some (id, c') → i = j;
  wt_room : (length (channels (st (ww y))) + length (filter (λ wc, uncounted wc = true) (wcs y))
             ≤ length (channels s0) + length args)%nat;
}.

Hypothesis Hchan : Z.of_nat (length (channels s0)) + Z.of_nat (length args) < i64_max.

(** A move that takes no id. *)
Lemma wtable_quiet y s' i wc wc' :
  wtable y → wcs y !! i = Some wc → same_watchers (st (ww y)) s' → taken wc' = None →
  (uncounted wc' = true → uncounted wc = true) → wtable (wmove y s' i wc').
Proof.
  intros [Hwf Ht Hd Hr] Hi (Hw & Hc & Hch) Hn Hu. split; simpl.
  - by eapply watchers_wf_ext.
  - rewrite Hw, Hch. intros j x id c [(_ & <- & _)|[_ Hj]]%list_lookup_insert_Some Hx; [congruence|by eapply Ht].
  - intros j k x x' id c c' [(_ & <- & _)|[_ Hj]]%list_lookup_insert_Some
      [(_ & <- & _)|[_ Hk]]%list_lookup_insert_Some; try congruence. by eapply Hd.
  - rewrite Hch. etrans; [|exact Hr]. apply Nat.add_le_mono_l.
    rewrite <- (list_insert_id (wcs y) i wc Hi) at 2.
    rewrite !insert_take_drop by (by eapply lookup_lt_Some). rewrite !filter_app, !filter_cons, !length_app.
    repeat case_decide; simpl; naive_solver lia.
Qed.

Lemma wtable_count y i sr compact :
  wtable y → wcs y !! i = Some (WCounting sr compact) →
  let s' := watch_count (st (ww y)) in
  wtable (wmove y s' i (WRegistering sr compact (watch_counter s') (length (channels (st (ww y)))))).
Proof.
  intros [Hwf Ht Hd Hr] Hi s'.
  assert (length (filter (λ wc, uncounted wc = true) (wcs y)) =
    S (length (filter (λ wc, uncounted wc = true) (<[i:=WOpening 0 0 0 0]> (wcs y))))) as Hn.
  { rewrite <- (list_insert_id (wcs y) i _ Hi) at 1.
    rewrite !insert_take_drop by (by eapply lookup_lt_Some). rewrite !filter_app, !filter_cons, !length_app.
    simpl. lia. }
  destruct (watchers_wf_count (st (ww y)) {| queue := []; rx_open := true |} Hwf) as [Hid Hwf']; [lia|].
  split; simpl.
  - exact Hwf'.
  - rewrite length_app. simpl. intros j x id c [(_ & <- & _)|[_ Hj]]%list_lookup_insert_Some Hx.
    + injection Hx as <- <-. split; [lia|]. split; [lia|]. intros k w Hin.
      destruct (ww_entry _ Hwf _ _ _ Hin) as (_ & Heq & Hlt). rewrite Hid in Heq. lia.
    + destruct (Ht _ _ _ _ Hj Hx) as (? & ? & ?). split; [done|]. split; [lia|done].
  - assert (∀ j x c, wcs y !! j = Some x → taken x ≠ Some (i64_add (watch_counter (st (ww y))) 1, c)) as Hfresh.
    { intros j x c Hj Hx. destruct (Ht _ _ _ _ Hj Hx) as (Heq & Hlt & _). rewrite Hid in Heq. lia. }
    intros j k x x' id c c' [(-> & <- & _)|[_ Hj]]%list_lookup_insert_Some
      [(-> & <- & _)|[_ Hk]]%list_lookup_insert_Some Hx Hx'; [done|..].
    + simpl in Hx. injection Hx as <- <-. by eapply Hfresh in Hx'.
    + simpl in Hx'. injection Hx' as <- <-. by eapply Hfresh in Hx.
    + by eapply Hd.
  - rewrite length_app. simpl. rewrite Hn in Hr.
    rewrite !insert_take_drop in * by (by eapply lookup_lt_Some). rewrite !filter_app, !filter_cons, !length_app in *.
    simpl in *. lia.
Qed.

Lemma wtable_register y i a sr compact id c :
  wtable y → wcs y !! i = Some (WRegistering sr compact id c) →
  wtable (wmove y (watch_register (st (ww y)) a sr id c) i (WOpening sr compact id c)).
Proof.
  intros [Hwf Ht Hd Hr] Hi. destruct (Ht _ _ _ _ Hi eq_refl) as (Hid & Hlt & Hfree). split; simpl.
  - by apply (watchers_wf_insert _ id (watcher_of a sr c)).
  - intros j x id' c' [(_ & <- & _)|[Hne Hj]]%list_lookup_insert_Some Hx; [done|].
    destruct (Ht _ _ _ _ Hj Hx) as (? & ? & Hf). split; [done|]. split; [done|]. intros k w.
    rewrite bt_insert_elem by apply Hwf. intros [[[= -> ->] ->]|[_ Hin]]; [|by apply Hf in Hin].
    apply Hne. by eapply (Hd i j).
  - intros j k x x' id' c1 c2 [(_ & <- & _)|[_ Hj]]%list_lookup_insert_Some
      [(_ & <- & _)|[_ Hk]]%list_lookup_insert_Some; try done. by eapply Hd.
  - etrans; [|exact Hr]. apply Nat.add_le_mono_l.
    rewrite <- (list_insert_id (wcs y) i _ Hi) at 2.
    rewrite !insert_take_drop by (by eapply lookup_lt_Some). rewrite !filter_app, !filter_cons, !length_app.
    simpl. lia.
Qed.

(** A registration replaces no other watcher. *)
Lemma watch_register_keeps y i a sr compact id c e :
  wtable y → wcs y !! i = Some (WRegistering sr compact id c) →
  e ∈ watchers (st (ww y)) → e ∈ watchers (watch_register (st (ww y)) a sr id c).
Proof.
  intros Ht Hi Hin. destruct e as [k w]. simpl. apply bt_insert_elem; [apply Ht|].
  destruct (decide (k = (a_start a, id))) as [->|Hne]; [|by right].
  destruct (wt_taken _ Ht _ _ _ _ Hi eq_refl) as (_ & _ & Hfree). by apply Hfree in Hin.
Qed.

(** Writers leave the table of watchers alone and queue jobs at the end. *)
Lemma cstep_watchers w w' :
  cstep calls w w' → same_watchers (st w) (st w') ∧
  (notify_tx (st w') = notify_tx (st w) ∨
   ∃ i c rev v old chans job, calls !! i = Some c ∧ pcs w !! i = Some (Notifying rev v old) ∧
     watchers_to_notify (st w) (c_key c) (mod_revision v) = Ret chans ∧
     notify_tx (st w') = notify_tx (st w) ++ [job] ∧ job_rev job = mod_revision v ∧
     job_watchers job = chans ∧ kv (job_msg job) = as_mvcc_key_value v (c_key c)).
Proof.
  destruct 1 as [i Hi|i c latest l Hc Hi Hl|i c latest Hc Hi Hl|i c latest l Hc Hi|
    i c latest l n s e Hc Hi Hun Hres|i c latest l n s rev v old Hc Hi Hun Hres|
    i l rev v old s Hi Hcom|i c rev v old s Hc Hi Hn|rev s r Hcomp]; simpl.
  - by split; [|left].
  - by split; [|left].
  - by split; [|left].
  - unfold index_prefix. destruct (prefix_split _). by split; [|left].
  - unfold reserve in Hres. apply bind_ret_inv in Hres as (it & _ & H2). destruct (set_guard _ _ _ _); [by simplify_eq; split; [|left]|].
    by apply bind_ret_inv in H2 as (pd & _ & [=]).
  - unfold reserve in Hres. apply bind_ret_inv in Hres as (it & _ & H2). destruct (set_guard _ _ _ _); [done|].
    apply bind_ret_inv in H2 as (pd & _ & [= <- _ _ _]). by split; [|left].
  - unfold commit in Hcom. apply bind_ret_inv in Hcom as (it & _ & (r & _ & [= <-])%bind_ret_inv). by split; [|left].
  - split; [by eapply notify_watchers_same|]. right. unfold notify_watchers in Hn.
    apply bind_ret_inv in Hn as (chs & Hchs & [= <-]). exists i, c, rev, v, old, chs. eexists.
    split_and!; [done|done|done|done|done|done|done].
  - split; [by eapply compact_same|]. left. unfold compact in Hcomp. destruct (_ || _); [by simplify_eq|].
    apply bind_ret_inv in Hcomp as ([[u|u] d] & _ & [= <- _]); done.
Qed.

Lemma wtable_write y w' : wtable y → cstep calls (ww y) w' → wtable (mkWSys w' (wcs y)).
Proof.
  intros [Hwf Ht Hd Hr] Hstep. destruct (cstep_watchers _ _ Hstep) as [(Hw & Hc & Hch) _].
  split; simpl; rewrite ?Hw, ?Hch; try done. by eapply watchers_wf_ext.
Qed.

Record winv (y : WSys) : Prop := {
  wi_writers : cinv calls s0 h0 (ww y) ∧ vinv (ww y);
  wi_table : wtable y;
}.

Lemma watch_open_moves s a sr compact id c wc :
  watch_open_scan s a sr compact id c = Ret wc → taken wc = None ∧ uncounted wc = false.
Proof.
  unfold watch_open_scan. destruct (0 <? a_rev a); [|by intros [= <-]].
  destruct (prefix_and_range_of_key _ _) as [[p b]|]; [|by intros [= <-]].
  destruct (prefix_map s !! p); [|by intros [= <-]]. by intros (es & _ & [= <-])%bind_ret_inv.
Qed.

Lemma winv_step y y' : winv y → wsstep calls args y y' → winv y'.
Proof.
  intros [[Hc Hv] Ht] Hstep.
  assert (∀ s' i wc, same_data (st (ww y)) s' → cinv calls s0 h0 (ww (wmove y s' i wc)) ∧ vinv (ww (wmove y s' i wc))) as Hsame.
  { intros s' i wc Hs. split; [by apply cinv_same|exact Hv]. }
  destruct Hstep as [w' Hw _ _|i a _ Hi|i a sr _ Hi|i sr cr Hi s'|i a sr cr id c _ Hi|i a sr cr id c wc _ Hi Ho
    |i a sr id c p e todo past cur _ Hi _ _|i a sr id c p cur r revs todo past cur' past' _ Hi _ _
    |i sr id c p cur todo past Hi _|i sr id c p past Hi]; split;
    try (by apply Hsame); try (by eapply wtable_quiet).
  - by apply (cinv_cstep calls s0 h0 Hroom (ww y)).
  - by apply wtable_write.
  - eapply wtable_quiet; try done; unfold watch_check; by destruct (_ && _).
  - by apply wtable_count.
  - by apply wtable_register.
  - destruct (watch_open_moves _ _ _ _ _ _ _ Ho) as [Hn Hu]. eapply wtable_quiet; try done. by rewrite Hu.
Qed.

Lemma winv_start : store_repr s0 h0 → watchers_wf s0 → winv (ws_start s0 calls args).
Proof.
  intros Hr Hwf. split; [by apply cinv_start|]. split; simpl; [done|..].
  - by intros i wc id c [-> _]%lookup_replicate.
  - by intros i j wc wc' id c c' [-> _]%lookup_replicate.
  - etrans; [apply Nat.add_le_mono_l, length_filter|]. by rewrite length_replicate.
Qed.

Lemma winv_run y y' : winv y → rtc (wsstep calls args) y y' → winv y'.
Proof. intros Hy Hs. revert Hy. induction Hs as [|x z w Hxz _ IH]; [done|]. intros Hx. apply IH. by eapply winv_step. Qed.

Lemma hist_run y y' : rtc (wsstep calls args) y y' → hist_of calls h0 (ww y) `prefix_of` hist_of calls h0 (ww y').
Proof.
  induction 1 as [|y y2 y3 Hstep _ IH]; [done|]. etrans; [|exact IH].
  destruct Hstep; try done. by apply after_calls_grow, (order_grows calls), rtc_once.
Qed.

(** ** Registered watchers *)

(** The watcher is in the table since the writers were at [w0]; every job queued since names
    its channel exactly when the change is one it watches. *)
Record registered (w0 : Writers) (y : WSys) (a : WatchArgs) (sr id : Z) (c : nat) : Prop := {
  rg_inv : cinv calls s0 h0 w0;
  rg_hist : hist_of calls h0 w0 `prefix_of` hist_of calls h0 (ww y);
  rg_jobs : notify_tx (st w0) `prefix_of` notify_tx (st (ww y));
  rg_table : ((a_start a, id), watcher_of a sr c) ∈ watchers (st (ww y));
  rg_named : ∀ job, job ∈ drop (length (notify_tx (st w0))) (notify_tx (st (ww y))) →
    c ∈ job_watchers job ↔
      sr ≤ job_rev job ∧ watches_key (watcher_of a sr c) (kv_key (kv (job_msg job)));
}.

Lemma registered_write w0 y w' a sr id c :
  winv y → cstep calls (ww y) w' → registered w0 y a sr id c → registered w0 (mkWSys w' (wcs y)) a sr id c.
Proof.
  intros [_ Ht] Hstep [Hi0 Hh Hj Htab Hn]. destruct (cstep_watchers _ _ Hstep) as [(Hw & _ & _) Hjobs].
  split; simpl; [done| | |by rewrite Hw|].
  - etrans; [exact Hh|]. by apply after_calls_grow, (order_grows calls), rtc_once.
  - destruct Hjobs as [->|(? & ? & ? & ? & ? & ? & ? & _ & _ & _ & -> & _)]; [done|by apply prefix_app_r].
  - destruct Hjobs as [->|(i & cl & rev & v & old & chans & job & _ & _ & Hch & -> & Hr & Hjw & Hkv)]; [done|].
    intros j. pose proof (prefix_length _ _ Hj). rewrite drop_app_le, elem_of_app, list_elem_of_singleton by lia.
    intros [Hin| ->]; [by apply Hn|]. rewrite Hjw, Hr, Hkv.
    pose proof (wt_room _ Ht) as Hrm.
    destruct (watchers_to_notify_spec (st (ww y)) (c_key cl) (mod_revision v) (wt_wf _ Ht)) as (chans' & Hch' & Hspec); [lia|].
    rewrite Hch in Hch'. injection Hch' as <-. rewrite Hspec. split.
    + intros (k & id' & w & Hin & Hc & Hle & Hk).
      assert (w = watcher_of a sr c) as -> by (by eapply channel_unique; [apply Ht|..]). done.
    + intros [Hle Hk]. by exists (a_start a), id, (watcher_of a sr c).
Qed.

(** Other watches only add to the table. *)
Lemma registered_move w0 y s' i wc a sr id c :
  registered w0 y a sr id c → same_data (st (ww y)) s' →
  (∀ e, e ∈ watchers (st (ww y)) → e ∈ watchers s') → registered w0 (wmove y s' i wc) a sr id c.
Proof.
  intros [Hi0 Hh Hj Htab Hn] (_ & _ & _ & _ & Hjs) Hsub. split; simpl; rewrite ?Hjs; [done..|by apply Hsub|done].
Qed.

Lemma registered_new y i a sr compact id c :
  winv y → wcs y !! i = Some (WRegistering sr compact id c) →
  registered (ww y) (wmove y (watch_register (st (ww y)) a sr id c) i (WOpening sr compact id c)) a sr id c.
Proof.
  intros [[Hc _] Ht] Hi. split; simpl; try done.
  - apply bt_insert_elem; [apply Ht|]. by left.
  - intros job. rewrite drop_all. by intros ?%elem_of_nil.
Qed.

(** ** Reading the past of a key *)

(** What a watch has collected of a key: [o] are changes of the key from [sr] on, and those
    of some history not older than [n0] are among them, but for the values [left] it has
    still to look at and those a compaction has dropped. *)
Record past_ok (n0 : nat) (hn : history) (c sr : Z) (k : ByteArray) (left : list Value)
    (o : list KeyValue) : Prop := {
  po_complete : ∃ hs, hs `prefix_of` hn ∧ (n0 ≤ length hs)%nat ∧
    ∀ v, v ∈ events hs k → sr ≤ mod_revision v → c < mod_revision v → v ∈ left ∨ as_mvcc_key_value v k ∈ o;
  po_sound : ∀ x, x ∈ o → ∃ v, v ∈ events hn k ∧ sr ≤ mod_revision v ∧ x = as_mvcc_key_value v k;
  po_left : Forall (λ v, v ∈ events hn k) left;
  po_sorted : StronglySorted Z.lt ((kv_mod_revision <$> o) ++ (mod_revision <$> left));
}.

Lemma events_prefix h hn k v : h `prefix_of` hn → v ∈ events h k → v ∈ events hn k.
Proof. intros [t ->]. rewrite events_app. set_solver. Qed.

Lemma past_ok_grow n0 hn hn' c c' sr k left o :
  hn `prefix_of` hn' → c ≤ c' → past_ok n0 hn c sr k left o → past_ok n0 hn' c' sr k left o.
Proof.
  intros Hp Hc [(hs & Hhs & Hn & Hco) Hso Hl Hsort]. split; [| | |done].
  - exists hs. split; [by etrans|]. split; [done|]. intros v Hv Hsr Hlt. apply Hco; [done|done|lia].
  - intros x (v & Hv & ? & ?)%Hso. exists v. split; [by eapply events_prefix|done].
  - eapply Forall_impl; [exact Hl|]. intros v. by apply events_prefix.
Qed.

(** The start of an item. *)
Lemma past_ok_open s h held hidden a sr k l cur n0 :
  partial_repr s h held hidden → tree_map s !! k = Some l → held !! l = None →
  (n0 ≤ length h)%nat → watch_item s a sr l = Ret cur →
  rd_loc cur = l ∧ item_key (rd_item cur) = k ∧
  ∃ left, rd_revs cur = mod_revision <$> left ∧ past_ok n0 h (first_index s) sr k left [].
Proof.
  intros Hr Hl Hfree Hn Hitem. destruct (pr_items _ _ _ _ Hr _ _ Hl) as (it & Ha & Hi). rewrite Hfree in Hi.
  unfold watch_item, get_item in Hitem. rewrite (index_or_panic_ret _ _ _ Ha), bind_ret in Hitem.
  injection Hitem as <-. simpl. split; [done|]. split; [apply Hi|].
  destruct (item_values _ _ _ _ Hi) as (vs & ws & Hev & Hrv & Hold).
  pose proof (item_revisions_sorted _ _ _ _ (pr_hist _ _ _ _ Hr) Hi) as Hs.
  rewrite binary_search_pos.
  set (pos := partition_point _ _).
  pose proof (partition_point_take (λ v, v <? sr) (revisions it)) as Ht. fold pos in Ht.
  set (sp := if bool_decide (0 < pos)%nat && a_prev a then (pos - 1)%nat else pos). assert (sp ≤ pos)%nat as Hsp by (subst sp; destruct (_ && _); lia).
  exists (drop sp ws). rewrite Hrv, fmap_drop. split; [done|]. split; simpl.
  - exists h. split; [done|]. split; [done|]. intros v Hv Hsr Hlt. left.
    rewrite Hev in Hv. apply elem_of_app in Hv as [Hv|Hv].
    { rewrite Forall_forall in Hold. apply Hold in Hv. lia. }
    rewrite <- (take_drop sp ws) in Hv. apply elem_of_app in Hv as [Hv|Hv]; [|done].
    rewrite Hrv, <- fmap_take, Forall_fmap, Forall_forall in Ht.
    specialize (Ht v). simpl in Ht. rewrite Z.ltb_lt in Ht.
    replace (take sp ws) with (take sp (take pos ws)) in Hv by (rewrite take_take; f_equal; lia).
    apply subseteq_take in Hv. apply Ht in Hv. lia.
  - by intros x ?%elem_of_nil.
  - apply Forall_forall. intros v Hv. rewrite Hev. apply elem_of_app. right. by eapply subseteq_drop.
  - rewrite Hrv in Hs. rewrite fmap_drop. by apply StronglySorted_drop.
Qed.

(** One more revision. *)
Lemma past_ok_read s h held hidden a sr k cur v left r revs past n0 o cur' past' :
  partial_repr s h held hidden → tree_map s !! k = Some (rd_loc cur) → held !! rd_loc cur = None →
  item_key (rd_item cur) = k → r :: revs = mod_revision <$> v :: left →
  past_ok n0 h (first_index s) sr k (v :: left) o →
  watch_revision s a sr cur r revs past = Ret (cur', past') →
  rd_loc cur' = rd_loc cur ∧ item_key (rd_item cur') = k ∧ rd_revs cur' = mod_revision <$> left ∧
  ∃ o', kv <$> past' = (kv <$> past) ++ o' ∧ past_ok n0 h (first_index s) sr k left (o ++ o').
Proof.
  intros Hr Hl Hfree Hk [= -> ->] [(hs & Hhs & Hn & Hco) Hso Hle Hsort] Hrev.
  apply Forall_cons in Hle as [Hv Hle]. unfold watch_revision, Deque.get in Hrev.
  rewrite (partial_slots _ _ _ _ _ _ Hr Hl Hfree _ _ v Hv), bind_ret in Hrev.
  assert (∀ o', (∀ x, x ∈ o' → x = as_mvcc_key_value v k ∧ sr ≤ mod_revision v) →
    (sr ≤ mod_revision v → first_index s < mod_revision v → as_mvcc_key_value v k ∈ o') →
    (o' = [] ∨ o' = [as_mvcc_key_value v k]) → past_ok n0 h (first_index s) sr k left (o ++ o')) as Hnext.
  { intros o' Hs Hc Ho'. split; [| |done|].
    - exists hs. split; [done|]. split; [done|]. intros u Hu Hsr Hlt.
      destruct (Hco u Hu Hsr Hlt) as [[->|?]%elem_of_cons|?]; [right|by left|right];
        apply elem_of_app; [right; by apply Hc|by left].
    - intros x [Hx|Hx]%elem_of_app; [by apply Hso|]. apply Hs in Hx as [-> ?]. by exists v.
    - simpl in Hsort. destruct Ho' as [->| ->]; rewrite ?app_nil_r.
      + by apply StronglySorted_skip in Hsort.
      + rewrite fmap_app, <- app_assoc. exact Hsort. }
  destruct (first_index s <? mod_revision v) eqn:Ec; injection Hrev as <- <-; simpl; split_and!; try done.
  - destruct (sr <=? mod_revision v) eqn:Es.
    + exists [as_mvcc_key_value v k]. rewrite fmap_app, Hk. split; [done|]. apply Hnext; [|set_solver|by right].
      intros x ->%list_elem_of_singleton. split; [done|lia].
    + exists []. rewrite app_nil_r. split; [done|]. apply Hnext; [by intros x ?%elem_of_nil|lia|by left].
  - exists []. rewrite app_nil_r. split; [done|]. apply Hnext; [by intros x ?%elem_of_nil|lia|by left].
Qed.

(** ** The invariant of a watch *)

Notation hist_at w := (hist_of calls h0 w).

Definition start_ok (w : Writers) (a : WatchArgs) (sr : Z) : Prop :=
  if decide (0 < a_rev a) then sr = a_rev a else sr ≤ Z.of_nat (length (hist_at w)).

(** The keys that were read to the end. *)
Definition scan_ok (w0 w : Writers) (sr : Z) (p : ByteArray) (es : list (ByteArray * loc))
    (os : list (list KeyValue)) : Prop :=
  Forall2 (λ e o, past_ok (length (hist_at w0)) (hist_at w) (first_index (st w)) sr (p ++ e.1) [] o) es os.

(** The key that is being read. *)
Definition reading_ok (w0 w : Writers) (sr : Z) (p x : ByteArray) (r : Reading) (o : list KeyValue) : Prop :=
  unlocked w (rd_loc r) ∧ item_key (rd_item r) = p ++ x ∧
  ∃ left, rd_revs r = mod_revision <$> left ∧
    past_ok (length (hist_at w0)) (hist_at w) (first_index (st w)) sr (p ++ x) left o.

Definition scanning_ok (w0 w : Writers) (a : WatchArgs) (sr : Z) (p : ByteArray) (cur : option Reading)
    (todo : list (ByteArray * loc)) (past : list KeyValueWithPrev) : Prop :=
  ∃ b i es os, prefix_and_range_of_key (a_start a) (a_end a) = Ok (p, b) ∧
    prefix_map (st w) !! p = Some i ∧ scan_ok w0 w sr p es os ∧
    match cur with
    | None => bt_range (btree i) b = Ret (es ++ todo) ∧ kv <$> past = concat os
    | Some r => ∃ x o, bt_range (btree i) b = Ret (es ++ (x, rd_loc r) :: todo) ∧
        reading_ok w0 w sr p x r o ∧ kv <$> past = concat os ++ o
    end.

(** The past a watch that began after [w1] was given. *)
Definition answer_past (w1 w0 w : Writers) (a : WatchArgs) (sr : Z) (past : list KeyValueWithPrev) : Prop :=
  ∃ p b es os, prefix_and_range_of_key (a_start a) (a_end a) = Ok (p, b) ∧ scan_ok w0 w sr p es os ∧
    kv <$> past = concat os ∧ bt_wf (es : BTreeMap ByteArray loc) ∧ (∀ x l, (x, l) ∈ es → in_bounds b x = true) ∧
    (∀ x, listed w1 p x → in_bounds b x = true → ∃ l, (x, l) ∈ es).

Definition watch_ok (w1 : Writers) (y : WSys) (a : WatchArgs) (wc : Wc) : Prop :=
  match wc with
  | WStarting | WDone _ (Err _) => True
  | WChecking sr | WCounting sr _ | WRegistering sr _ _ _ => start_ok (ww y) a sr
  | WOpening sr _ id c => start_ok (ww y) a sr ∧ ∃ w0, registered w0 y a sr id c
  | WScanning sr id c p cur todo past =>
      0 < a_rev a ∧ start_ok (ww y) a sr ∧
      ∃ w0, registered w0 y a sr id c ∧ scanning_ok w0 (ww y) a sr p cur todo past
  | WDone sr (Ok (past, id, c)) =>
      start_ok (ww y) a sr ∧ ∃ w0, registered w0 y a sr id c ∧
      if decide (0 < a_rev a) then answer_past w1 w0 (ww y) a sr past else past = []
  end.

Lemma scan_ok_grow w0 w w' sr p es os :
  hist_at w `prefix_of` hist_at w' → first_index (st w) ≤ first_index (st w') →
  scan_ok w0 w sr p es os → scan_ok w0 w' sr p es os.
Proof. intros Hh Hf Hs. eapply Forall2_impl; [exact Hs|]. intros e o. by apply past_ok_grow. Qed.

Lemma start_ok_grow w w' a sr : hist_at w `prefix_of` hist_at w' → start_ok w a sr → start_ok w' a sr.
Proof. intros Hh%prefix_length. unfold start_ok. case_decide; [done|lia]. Qed.

(** What the writers do keeps what a watch has found. *)
Lemma watch_ok_write w1 y w' a wc :
  winv y → cstep calls (ww y) w' → watch_ok w1 y a wc →
  (∀ sr id c p cur todo past, wc = WScanning sr id c p cur todo past →
     prefix_map (st w') !! p = prefix_map (st (ww y)) !! p ∧ ∀ r, cur = Some r → unlocked w' (rd_loc r)) →
  watch_ok w1 (mkWSys w' (wcs y)) a wc.
Proof.
  intros Hinv Hstep Hok Hg. pose proof Hinv as [[Hc _] _].
  assert (hist_at (ww y) `prefix_of` hist_at w') as Hh by (by apply after_calls_grow, (order_grows calls), rtc_once).
  destruct (cstep_frame _ _ _ _ _ Hc Hstep) as [Hf _].
  pose proof (λ w0 sr id c, registered_write w0 y w' a sr id c Hinv Hstep) as Hreg.
  destruct wc as [|sr|sr cr|sr cr id c|sr cr id c|sr id c p cur todo past|sr [[[past id] c]|e]]; simpl in *; try done;
    try (by eapply start_ok_grow).
  - destruct Hok as (Hs & w0 & Hw0). split; [by eapply start_ok_grow|]. exists w0. by apply Hreg.
  - destruct Hok as (Hpos & Hs & w0 & Hw0 & b & i & es & os & Hpr & Hi & Hsc & Hcur).
    destruct (Hg _ _ _ _ _ _ _ eq_refl) as [Hpm Hun].
    split; [done|]. split; [by eapply start_ok_grow|]. exists w0. split; [by apply Hreg|].
    exists b, i, es, os. split; [done|]. split; [by rewrite Hpm|]. split; [by eapply scan_ok_grow|].
    destruct cur as [r|]; [|done]. destruct Hcur as (x & o & Hes & (_ & Hk & left & Hl & Hp) & Hkv).
    exists x, o. split; [done|]. split; [|done]. split; [by apply Hun|]. split; [done|]. exists left.
    split; [done|]. by eapply past_ok_grow.
  - destruct Hok as (Hs & w0 & Hw0 & Hpast). split; [by eapply start_ok_grow|]. exists w0. split; [by apply Hreg|].
    case_decide; [|done]. destruct Hpast as (p & b & es & os & Hpr & Hsc & Hrest).
    exists p, b, es, os. split; [done|]. split; [by eapply scan_ok_grow|done].
Qed.

(** A watch that moves leaves the others as they are. *)
Lemma watch_ok_move w1 y s' i wc' a wc :
  watch_ok w1 y a wc → same_data (st (ww y)) s' →
  (∀ e, e ∈ watchers (st (ww y)) → e ∈ watchers s') → watch_ok w1 (wmove y s' i wc') a wc.
Proof.
  intros Hok Hs Hsub.
  assert (first_index s' = first_index (st (ww y))) as Hf by (unfold first_index; by destruct Hs as (_ & _ & _ & -> & _)).
  assert (prefix_map s' = prefix_map (st (ww y))) as Hp by apply Hs.
  pose proof (λ w0 sr id c, registered_move w0 y s' i wc' a sr id c) as Hreg.
  assert (∀ w0 sr p es os, scan_ok w0 (ww y) sr p es os → scan_ok w0 (on_store (ww y) s') sr p es os) as Hsc.
  { intros w0 sr p es os. unfold scan_ok. simpl. by rewrite Hf. }
  destruct wc as [|sr|sr cr|sr cr id c|sr cr id c|sr id c p cur todo past|sr [[[past id] c]|e]]; simpl in *; try done.
  - destruct Hok as (? & w0 & Hw0). split; [done|]. exists w0. by apply Hreg.
  - destruct Hok as (? & ? & w0 & Hw0 & b & it & es & os & Hpr & Hi & Hok & Hcur). split; [done|]. split; [done|].
    exists w0. split; [by apply Hreg|]. exists b, it, es, os. simpl. rewrite Hp. split_and!; [done|done|by apply Hsc|].
    destruct cur as [r|]; [|done]. destruct Hcur as (x & o & ? & Hr & ?). exists x, o. split_and!; [done| |done].
    unfold reading_ok. simpl. by rewrite Hf.
  - destruct Hok as (? & w0 & Hw0 & Hpast). split; [done|]. exists w0. split; [by apply Hreg|]. case_decide; [|done].
    destruct Hpast as (p & b & es & os & ? & ? & ?). exists p, b, es, os. split_and!; [done|by apply Hsc|naive_solver..].
Qed.

(** The index of an earlier state is part of that of a later one. *)
Lemma index_grows y1 y :
  winv y1 → rtc (wsstep calls args) y1 y → ∀ p x l,
  prefix_lookup (prefix_map (st (ww y1))) p x = Some l → prefix_lookup (prefix_map (st (ww y))) p x = Some l.
Proof.
  intros Hinv Hs. induction Hs as [y|y1 y2 y3 Hstep Hs IH]; intros p x l Hl; [done|].
  apply IH; [by eapply winv_step|]. destruct Hstep; try done. simpl.
  by eapply cstep_frame; [apply Hinv|eassumption|].
Qed.

(** The start of the scan. *)
Lemma watch_ok_open w1 y i a sr cr id c wc :
  watch_ok w1 y a (WOpening sr cr id c) → watch_open_scan (st (ww y)) a sr cr id c = Ret wc →
  (∀ p x l, prefix_lookup (prefix_map (st w1)) p x = Some l → prefix_lookup (prefix_map (st (ww y))) p x = Some l) →
  watch_ok w1 (wmove y (st (ww y)) i wc) a wc.
Proof.
  intros (Hs & w0 & Hw0) Ho Hix. unfold watch_open_scan in Ho.
  assert (∀ s' wc, s' = st (ww y) → registered w0 (wmove y s' i wc) a sr id c) as Hreg.
  { intros s' wc' ->. by apply registered_move. }
  destruct (0 <? a_rev a) eqn:Epos; [|injection Ho as <-; simpl; split; [done|]; exists w0; split; [by apply Hreg|]; by rewrite decide_False by lia].
  destruct (prefix_and_range_of_key _ _) as [[p b]|] eqn:Hpr; [|by injection Ho as <-].
  destruct (prefix_map (st (ww y)) !! p) as [it|] eqn:Hp.
  - apply bind_ret_inv in Ho as (es & Hes & [= <-]). simpl. split; [lia|]. split; [done|]. exists w0.
    split; [by apply Hreg|]. exists b, it, [], []. split_and!; try done. constructor.
  - injection Ho as <-. simpl. split; [done|]. exists w0. split; [by apply Hreg|]. rewrite decide_True by lia.
    exists p, b, [], []. split_and!; try done; [constructor|apply bt_wf_nil|by intros x l ?%elem_of_nil|].
    intros x [l Hl%Hix] _. unfold prefix_lookup in Hl. by rewrite Hp in Hl.
Qed.

(** An item is opened, read on and left. *)
Lemma watch_ok_item w1 y i a sr id c p e todo past cur :
  winv y → unlocked (ww y) e.2 → watch_item (st (ww y)) a sr e.2 = Ret cur →
  watch_ok w1 y a (WScanning sr id c p None (e :: todo) past) →
  watch_ok w1 (wmove y (st (ww y)) i (WScanning sr id c p (Some cur) todo past)) a
    (WScanning sr id c p (Some cur) todo past).
Proof.
  intros [[Hc _] _] Hu Hitem (Hpos & Hs & w0 & Hw0 & b & it & es & os & Hpr & Hp & Hsc & Hes & Hkv).
  pose proof Hc as [(held & hidden & Hr & Hlk & _) _ _ _ _ _]. destruct e as [x l]. simpl in *.
  pose proof (proj1 (unlocked_held _ _ _ Hlk) Hu) as Hfree.
  destruct (scanned_entry _ _ _ _ _ _ _ _ x l Hr Hp Hes) as [Htm _]; [set_solver|].
  destruct (past_ok_open _ _ _ _ a sr _ l cur (length (hist_at w0)) Hr Htm Hfree) as (Hl & Hk & left & Hrv & Hpo);
    [by apply prefix_length, Hw0|done|].
  split; [done|]. split; [done|]. exists w0. split; [by apply registered_move|].
  exists b, it, es, os. split_and!; try done. exists x, []. rewrite Hl, app_nil_r. split_and!; try done.
  split; [by rewrite Hl|]. split; [done|]. by exists left.
Qed.

Lemma watch_ok_revision w1 y i a sr id c p cur r revs todo past cur' past' :
  winv y → rd_revs cur = r :: revs → watch_revision (st (ww y)) a sr cur r revs past = Ret (cur', past') →
  watch_ok w1 y a (WScanning sr id c p (Some cur) todo past) →
  watch_ok w1 (wmove y (st (ww y)) i (WScanning sr id c p (Some cur') todo past')) a
    (WScanning sr id c p (Some cur') todo past').
Proof.
  intros [[Hc _] _] Hrv Hrev (Hpos & Hs & w0 & Hw0 & b & it & es & os & Hpr & Hp & Hsc & x & o & Hes & (Hu & Hk & left & Hl & Hpo) & Hkv).
  pose proof Hc as [(held & hidden & Hr & Hlk & _) _ _ _ _ _].
  pose proof (proj1 (unlocked_held _ _ _ Hlk) Hu) as Hfree.
  destruct (scanned_entry _ _ _ _ _ _ _ _ x (rd_loc cur) Hr Hp Hes) as [Htm _]; [set_solver|].
  rewrite Hrv in Hl. destruct left as [|v left]; [done|].
  destruct (past_ok_read _ _ _ _ _ _ _ _ _ _ _ _ _ _ _ _ _ Hr Htm Hfree Hk Hl Hpo Hrev)
    as (Hloc & Hk' & Hrv' & o' & Hkv' & Hpo').
  split; [done|]. split; [done|]. exists w0. split; [by apply registered_move|].
  exists b, it, es, os. split_and!; try done. exists x, (o ++ o'). rewrite Hloc. split; [done|].
  split; [|by rewrite Hkv', Hkv, <- app_assoc]. split; [by rewrite Hloc|]. split; [done|]. by exists left.
Qed.

Lemma watch_ok_item_end w1 y i a sr id c p cur todo past :
  rd_revs cur = [] → watch_ok w1 y a (WScanning sr id c p (Some cur) todo past) →
  watch_ok w1 (wmove y (st (ww y)) i (WScanning sr id c p None todo past)) a (WScanning sr id c p None todo past).
Proof.
  intros Hrv (Hpos & Hs & w0 & Hw0 & b & it & es & os & Hpr & Hp & Hsc & x & o & Hes & (Hu & Hk & left & Hl & Hpo) & Hkv).
  rewrite Hrv in Hl. symmetry in Hl. apply fmap_nil_inv in Hl as ->.
  split; [done|]. split; [done|]. exists w0. split; [by apply registered_move|].
  exists b, it, (es ++ [(x, rd_loc cur)]), (os ++ [o]). rewrite <- app_assoc, concat_app. simpl. rewrite app_nil_r.
  split_and!; try done. apply Forall2_app; [done|]. by constructor.
Qed.

Lemma watch_ok_end w1 y i a sr id c p past :
  winv y →
  (∀ p x l, prefix_lookup (prefix_map (st w1)) p x = Some l → prefix_lookup (prefix_map (st (ww y))) p x = Some l) →
  watch_ok w1 y a (WScanning sr id c p None [] past) →
  watch_ok w1 (wmove y (st (ww y)) i (WDone sr (Ok (past, id, c)))) a (WDone sr (Ok (past, id, c))).
Proof.
  intros [[Hc _] _] Hix (Hpos & Hs & w0 & Hw0 & b & it & es & os & Hpr & Hp & Hsc & Hes & Hkv).
  pose proof Hc as [(held & hidden & Hr & Hlk & _) _ _ _ _ _]. rewrite app_nil_r in Hes.
  split; [done|]. exists w0. split; [by apply registered_move|]. rewrite decide_True by done.
  assert (bt_wf (btree it)) as Hwf by (by eapply (pr_sorted _ _ _ _ Hr)).
  exists p, b, es, os. split_and!; try done.
  - by eapply bt_range_wf.
  - intros x l Hx. by apply (bt_range_elem _ _ _ _ _ Hes) in Hx as [_ Hb].
  - intros x [l Hl%Hix] Hb. exists l. unfold prefix_lookup in Hl. rewrite Hp in Hl. simpl in Hl.
    apply bt_get_Some_elem in Hl; [|done]. by apply (bt_range_elem _ _ _ _ _ Hes).
Qed.

Lemma watch_ok_step y1 y y' i a wc :
  winv y1 → rtc (wsstep calls args) y1 y → args !! i = Some a → wsstep calls args y y' →
  wcs y !! i = Some wc → watch_ok (ww y1) y a wc →
  ∃ wc', wcs y' !! i = Some wc' ∧ watch_ok (ww y1) y' a wc'.
Proof.
  intros Hinv1 Hs Ha Hstep Hi Hok. pose proof (winv_run _ _ Hinv1 Hs) as Hinv.
  pose proof (index_grows y1 y Hinv1 Hs) as Hix.
  assert (∀ s' j wc', same_data (st (ww y)) s' → (∀ e, e ∈ watchers (st (ww y)) → e ∈ watchers s') →
    (j = i → watch_ok (ww y1) (wmove y s' j wc') a wc') → is_Some (wcs y !! j) →
    ∃ wc'', wcs (wmove y s' j wc') !! i = Some wc'' ∧ watch_ok (ww y1) (wmove y s' j wc') a wc'') as Hmove.
  { intros s' j wc' Hsd Hsub Hj [z Hz]. simpl. destruct (decide (j = i)) as [->|Hne].
    - exists wc'. split; [|by apply Hj]. apply list_lookup_insert_eq. by eapply lookup_lt_Some.
    - exists wc. rewrite list_lookup_insert_ne by done. split; [done|]. by apply watch_ok_move. }
  pose proof Hinv as [[Hc _] Ht]. pose proof Hc as [(held & hidden & Hr & _) _ _ _ _ _].
  destruct (partial_latest _ _ _ _ Hr) as (_ & Hcur & _). fold (hist_at (ww y)) in Hcur.
  destruct Hstep as [w' Hw Hg Hu|j a' Ha' Hj|j a' sr Ha' Hj|j sr cr Hj s'|j a' sr cr id c Ha' Hj|j a' sr cr id c wc' Ha' Hj Ho
    |j a' sr id c p e todo past cur Ha' Hj Hun Hit|j a' sr id c p cur r revs todo past cur' past' Ha' Hj Hrv Hrd
    |j sr id c p cur todo past Hj Hrv|j sr id c p past Hj].
  { exists wc. split; [done|]. apply watch_ok_write; [done..|]. intros sr id c p cur todo past ->. split.
    - apply Hg. by exists i, sr, id, c, cur, todo, past.
    - intros r ->. apply Hu. by exists i, sr, id, c, p, r, todo, past. }
  all: apply Hmove; [done| |intros ->; rewrite Hi in Hj; injection Hj as ->; try (assert (a' = a) as -> by congruence)|by eexists]; try done.
  - simpl. unfold start_ok. rewrite Hcur. case_decide as Hd.
    + by rewrite (proj2 (Z.leb_gt _ _)) by lia.
    + by rewrite (proj2 (Z.leb_le _ _)) by lia.
  - unfold watch_check. by destruct (_ && _).
  - intros e. by eapply watch_register_keeps.
  - split; [done|]. exists (ww y). by apply registered_new.
  - by eapply watch_ok_open.
  - by eapply watch_ok_item.
  - by eapply watch_ok_revision.
  - by eapply watch_ok_item_end.
  - by eapply watch_ok_end.
Qed.

Lemma watch_ok_run y1 y i a :
  winv y1 → rtc (wsstep calls args) y1 y → args !! i = Some a → wcs y1 !! i = Some WStarting →
  ∃ wc, wcs y !! i = Some wc ∧ watch_ok (ww y1) y a wc.
Proof.
  intros Hinv Hs Ha Hi. revert Hs.
  assert (∀ z, rtc (wsstep calls args) y1 z → rtc (wsstep calls args) y1 z ∧
    ∃ wc, wcs z !! i = Some wc ∧ watch_ok (ww y1) z a wc) as Hall; [|intros Hs; by apply Hall].
  apply rtc_ind_r; [split; [done|by exists WStarting]|].
  intros z z' _ Hstep [Hz (wc & Hwc & Hok)]. split; [by eapply rtc_r|]. by eapply watch_ok_step.
Qed.

(** ** After the answer *)

Lemma registered_run w0 y y' a sr id c :
  winv y → rtc (wsstep calls args) y y' → registered w0 y a sr id c → registered w0 y' a sr id c.
Proof.
  intros Hinv Hs. revert Hinv. induction Hs as [|y y2 y3 Hstep _ IH]; [done|]. intros Hinv Hreg.
  apply IH; [by eapply winv_step|]. pose proof Hinv as [_ Ht].
  destruct Hstep; try (by apply registered_move); [by apply registered_write|].
  apply registered_move; [done|done|]. intros e. by eapply watch_register_keeps.
Qed.

(** When the calls have finished, every change made since the registration is announced
    by a job queued since. *)
Lemma announced_since w0 y k v :
  cinv calls s0 h0 w0 → cinv calls s0 h0 (ww y) → notify_tx (st w0) `prefix_of` notify_tx (st (ww y)) →
  Forall is_finished (pcs (ww y)) → v ∈ events (hist_at (ww y)) k → Z.of_nat (length (hist_at w0)) < mod_revision v →
  ∃ job, job ∈ drop (length (notify_tx (st w0))) (notify_tx (st (ww y))) ∧
    StoreTrace.announcement job = (mod_revision v, as_mvcc_key_value v k).
Proof.
  intros H0 Hy [new Hnew] Hfin Hv Hlt.
  destruct (ci_jobs _ _ _ _ H0) as (js0 & Hj0 & Hp0). destruct (ci_jobs _ _ _ _ Hy) as (js & Hj & Hp).
  rewrite (finished_pending _ _ Hfin), app_nil_r in Hp.
  assert (js = js0 ++ new) as -> by (apply (app_inv_head (notify_tx s0)); by rewrite app_assoc, <- Hj0, <- Hnew).
  rewrite Hnew, drop_app_length.
  pose proof Hy as [(held & hidden & Hr & _) _ _ _ _ _].
  destruct (event_lookup _ _ _ (pr_hist _ _ _ _ Hr) Hv) as [Hm Hat]. fold (hist_at (ww y)) in Hm, Hat.
  pose proof (after_calls_length calls h0 (order w0)) as Hl0. fold (hist_at w0) in Hl0.
  assert ((mod_revision v, as_mvcc_key_value v k) ∈ StoreTrace.announcement <$> js0 ++ new) as Hin.
  { rewrite Hp. apply list_elem_of_omap. exists (Some (k, v)). split; [|done].
    apply list_elem_of_lookup. exists (Z.to_nat (mod_revision v - 1) - length h0)%nat.
    rewrite lookup_drop. replace (_ + _)%nat with (Z.to_nat (mod_revision v - 1)) by lia. exact Hat. }
  apply list_elem_of_fmap in Hin as (job & Hann & [Hold|Hin]%elem_of_app); [exfalso|by exists job].
  assert (mod_revision v ∈ (history_announced (drop (length h0) (hist_at w0))).*1) as Hrev.
  { unfold hist_at. rewrite <- Hp0. apply list_elem_of_fmap. exists (StoreTrace.announcement job). split; [by rewrite <- Hann|].
    apply elem_of_app. left. by apply list_elem_of_fmap_2. }
  unfold hist_of in *. rewrite after_calls_announced, elem_of_seqZ in Hrev. lia.
Qed.

Lemma named_since w0 y a sr id c k v :
  winv y → registered w0 y a sr id c → Forall is_finished (pcs (ww y)) →
  v ∈ events (hist_at (ww y)) k → Z.of_nat (length (hist_at w0)) < mod_revision v →
  sr ≤ mod_revision v → watches_key (watcher_of a sr c) k →
  ∃ job, job ∈ notify_tx (st (ww y)) ∧ StoreTrace.announcement job = (mod_revision v, as_mvcc_key_value v k) ∧
    c ∈ job_watchers job.
Proof.
  intros [[Hc _] _] Hreg Hfin Hv Hlt Hsr Hk.
  destruct (announced_since w0 y k v) as (job & Hin & Hann); try done; [apply Hreg..|].
  exists job. split; [by eapply subseteq_drop|]. split; [done|]. apply (rg_named _ _ _ _ _ _ Hreg); [done|].
  unfold StoreTrace.announcement in Hann. injection Hann as -> ->. done.
Qed.
End system.

(** ** The past in order *)

Lemma past_in_order (p : ByteArray) (es : list (ByteArray * loc)) (os : list (list KeyValue)) k :
  Forall2 (λ e o, Forall (λ x, kv_key x = p ++ e.1) o ∧ StronglySorted Z.lt (kv_mod_revision <$> o)) es os →
  NoDup es.*1 → StronglySorted Z.lt (kv_mod_revision <$> filter (λ x, kv_key x = k) (concat os)).
Proof.
  intros Hall. induction Hall as [|e o es os [Hk Hs] Hall IH]; simpl; [constructor|].
  intros [Hfresh Hnd]%NoDup_cons. rewrite filter_app, fmap_app.
  destruct (decide (k = p ++ e.1)) as [->|Hne].
  - rewrite (filter_all _ o) by done. rewrite (filter_none _ (concat os)), app_nil_r; [done|].
    apply Forall_concat. eapply Forall2_Forall_r; [exact Hall|]. apply Forall_forall. intros e' He' o' [Ho' _].
    eapply Forall_impl; [exact Ho'|]. intros x -> Heq%(inj (app p)). apply Hfresh. rewrite <- Heq.
    by apply list_elem_of_fmap_2.
  - rewrite (filter_none _ o); [by apply IH|]. eapply Forall_impl; [exact Hk|]. by intros x -> <-.
Qed.

Lemma elem_of_concat {A} (x : A) ls : x ∈ concat ls ↔ ∃ l, l ∈ ls ∧ x ∈ l.
Proof. setoid_rewrite list_elem_of_In. apply in_concat. Qed.

(** A change of a longer history is one of the shorter or a newer one. *)
Lemma event_old_or_new h told new k v :
  h = told ++ new → hist_ok h → v ∈ events h k → v ∈ events told k ∨ Z.of_nat (length told) < mod_revision v.
Proof.
  intros -> Hok Hv. rewrite events_app in Hv. apply elem_of_app in Hv as [Hv|Hv]; [by left|right].
  apply (events_drop_newer (told ++ new) k); [done|]. by rewrite drop_app_length.
Qed.

Section answers.
Context `{!BlockSize} (calls : list Call) (args : list WatchArgs) (h0 : history).

Lemma answer_sound w1 w0 w a sr past x :
  answer_past calls h0 w1 w0 w a sr past → x ∈ kv <$> past →
  ∃ p b y v, prefix_and_range_of_key (a_start a) (a_end a) = Ok (p, b) ∧ in_bounds b y = true ∧
    v ∈ events (hist_of calls h0 w) (p ++ y) ∧ sr ≤ mod_revision v ∧ x = as_mvcc_key_value v (p ++ y).
Proof.
  intros (p & b & es & os & Hpr & Hsc & -> & _ & Hb & _) Hx.
  apply elem_of_concat in Hx as (o & Ho & Hx). apply list_elem_of_lookup in Ho as [n Ho].
  destruct (Forall2_lookup_r _ _ _ _ _ Hsc Ho) as ([y l] & He & Hpo). simpl in Hpo.
  destruct (po_sound _ _ _ _ _ _ _ Hpo _ Hx) as (v & Hv & Hsr & Heq).
  exists p, b, y, v. split_and!; try done. apply (Hb y l). by eapply list_elem_of_lookup_2.
Qed.

Lemma answer_in_order w1 w0 w a sr past k :
  answer_past calls h0 w1 w0 w a sr past →
  StronglySorted Z.lt (kv_mod_revision <$> filter (λ x, kv_key x = k) (kv <$> past)).
Proof.
  intros (p & b & es & os & Hpr & Hsc & -> & Hwf & _). apply (past_in_order p es); [|by apply bt_wf_keys_distinct].
  eapply Forall2_impl; [exact Hsc|]. intros e o [_ Hso _ Hsort]. rewrite app_nil_r in Hsort. split; [|done].
  apply Forall_forall. intros x (v & _ & _ & ->)%Hso. done.
Qed.

Lemma answer_complete w1 w0 w a sr past p b x v :
  answer_past calls h0 w1 w0 w a sr past →
  prefix_and_range_of_key (a_start a) (a_end a) = Ok (p, b) → in_bounds b x = true → listed w1 p x →
  hist_ok (hist_of calls h0 w) → v ∈ events (hist_of calls h0 w) (p ++ x) → sr ≤ mod_revision v →
  first_index (st w) < mod_revision v →
  as_mvcc_key_value v (p ++ x) ∈ kv <$> past ∨ Z.of_nat (length (hist_of calls h0 w0)) < mod_revision v.
Proof.
  intros (p' & b' & es & os & Hpr & Hsc & -> & _ & _ & Hlist) Hpr' Hb Hli Hok Hv Hsr Hfi.
  rewrite Hpr in Hpr'. injection Hpr' as -> ->. destruct (Hlist _ Hli Hb) as [l Hl].
  apply list_elem_of_lookup in Hl as [n Hl]. destruct (Forall2_lookup_l _ _ _ _ _ Hsc Hl) as (o & Ho & Hpo).
  destruct (po_complete _ _ _ _ _ _ _ Hpo) as (hs & [t Ht] & Hn & Hc). simpl in Hc.
  destruct (event_old_or_new _ _ _ _ _ Ht Hok Hv) as [Hold|]; [left|right; lia].
  apply elem_of_concat. exists o. split; [by eapply list_elem_of_lookup_2|].
  by destruct (Hc v) as [?%elem_of_nil|].
Qed.
End answers.

(** ** Properties *)


(** ** Schedules *)

(** The next step is one of a call or one of a watch. *)
Inductive wturn := NextCall (i : nat) | NextWatch (i : nat).

(** What a watch waiting for its turn asks of a writer's step. *)
Definition lets_write (s : Store) (w' : Writers) (wc : Wc) : bool :=
  match wc with
  | WScanning _ _ _ p cur _ _ =>
      bool_decide (prefix_map (st w') !! p = prefix_map s !! p) &&
      match cur with Some r => negb (existsb (holds_lock (rd_loc r)) (pcs w')) | None => true end
  | _ => true
  end.

Definition returned {A} (o : outcome A) : option A := match o with Ret x => Some x | Panic _ => None end.

Definition watch_turn `{!BlockSize} (w : Writers) (a : WatchArgs) (wc : Wc) : option (Store * Wc) :=
  let s := st w in
  match wc with
  | WStarting => Some (s, watch_begin s a)
  | WChecking sr => Some (s, watch_check s a sr)
  | WCounting sr compact =>
      Some (watch_count s, WRegistering sr compact (watch_counter (watch_count s)) (length (channels s)))
  | WRegistering sr compact id c => Some (watch_register s a sr id c, WOpening sr compact id c)
  | WOpening sr compact id c => wc' ← returned (watch_open_scan s a sr compact id c); Some (s, wc')
  | WScanning sr id c p None (e :: todo) past =>
      if existsb (holds_lock e.2) (pcs w) then None
      else cur ← returned (watch_item s a sr e.2); Some (s, WScanning sr id c p (Some cur) todo past)
  | WScanning sr id c p None [] past => Some (s, WDone sr (Ok (past, id, c)))
  | WScanning sr id c p (Some cur) todo past =>
      match rd_revs cur with
      | r :: revs =>
          x ← returned (watch_revision s a sr cur r revs past);
          Some (s, WScanning sr id c p (Some x.1) todo x.2)
      | [] => Some (s, WScanning sr id c p None todo past)
      end
  | WDone _ _ => None
  end.

Definition ws_next `{!BlockSize} (calls : list Call) (args : list WatchArgs) (y : WSys) (t : wturn) : option WSys :=
  match t with
  | NextCall i =>
      w' ← exec_step calls (ww y) i;
      if forallb (lets_write (st (ww y)) w') (wcs y) then Some (mkWSys w' (wcs y)) else None
  | NextWatch i =>
      wc ← wcs y !! i; a ← args !! i; x ← watch_turn (ww y) a wc; Some (wmove y x.1 i x.2)
  end.

Fixpoint ws_exec `{!BlockSize} (calls : list Call) (args : list WatchArgs) (y : WSys) (ts : list wturn) : option WSys :=
  match ts with
  | [] => Some y
  | t :: ts' => y' ← ws_next calls args y t; ws_exec calls args y' ts'
  end.

Section schedules.
Context `{!BlockSize} (calls : list Call) (args : list WatchArgs).

Lemma returned_Some {A} (o : outcome A) x : returned o = Some x → o = Ret x.
Proof. destruct o; simpl; congruence. Qed.

Lemma lets_write_scan y w' sr id c p cur todo past i :
  forallb (lets_write (st (ww y)) w') (wcs y) = true → wcs y !! i = Some (WScanning sr id c p cur todo past) →
  prefix_map (st w') !! p = prefix_map (st (ww y)) !! p ∧ ∀ r, cur = Some r → unlocked w' (rd_loc r).
Proof.
  intros Hall Hi. rewrite forallb_forall in Hall.
  specialize (Hall _ (proj1 (list_elem_of_In _ _) (list_elem_of_lookup_2 _ _ _ Hi))). simpl in Hall.
  apply andb_prop in Hall as [Hp Hu]. split; [by apply bool_decide_eq_true in Hp|]. intros r ->.
  apply holds_lock_unlocked. by apply negb_true_iff.
Qed.

Lemma ws_next_sound y t y' : ws_next calls args y t = Some y' → wsstep calls args y y'.
Proof.
  destruct t as [i|i]; simpl.
  - intros (w' & Hw & Hif)%bind_Some. destruct (forallb _ _) eqn:Hg; [|done]. injection Hif as <-.
    apply ws_write; [by eapply exec_step_sound|..].
    + intros p (j & sr & id & c & cur & todo & past & Hj). by apply (lets_write_scan _ _ _ _ _ _ _ _ _ _ Hg Hj).
    + intros l (j & sr & id & c & p & cur & todo & past & Hj & <-).
      by apply (lets_write_scan _ _ _ _ _ _ _ _ _ _ Hg Hj).
  - intros (wc & Hi & (a & Ha & ([s' wc'] & Hx & [= <-])%bind_Some)%bind_Some)%bind_Some. simpl.
    destruct wc as [|sr|sr cr|sr cr id c|sr cr id c|sr id c p [cur|] todo past|sr r]; simpl in Hx; try done.
    + injection Hx as <- <-. by apply ws_begin.
    + injection Hx as <- <-. by apply ws_check.
    + injection Hx as <- <-. by apply ws_count.
    + injection Hx as <- <-. by apply ws_register.
    + apply bind_Some in Hx as (wc1 & Ho%returned_Some & [= <- <-]). by eapply ws_open.
    + destruct (rd_revs cur) as [|r revs] eqn:Hrv.
      * injection Hx as <- <-. by eapply ws_item_end.
      * apply bind_Some in Hx as ([cur' past'] & Hr%returned_Some & [= <- <-]). by eapply ws_revision.
    + destruct todo as [|e todo]; [injection Hx as <- <-; by eapply ws_end|].
      destruct (existsb _ _) eqn:Hl; [done|]. apply bind_Some in Hx as (cur & Hr%returned_Some & [= <- <-]).
      eapply ws_item; [done|done|by apply holds_lock_unlocked|done].
Qed.

Lemma ws_exec_sound ts y y' : ws_exec calls args y ts = Some y' → rtc (wsstep calls args) y y'.
Proof.
  revert y. induction ts as [|t ts IH]; intros y; simpl; [by intros [= ->]|].
  intros (y1 & H1 & H2)%bind_Some. eapply rtc_l; [by eapply ws_next_sound|by apply IH].
Qed.
End schedules.

(** ** A concrete run *)

(** Two calls overwrite the pods "a" and "b" while a watch of all pods from revision 1 on is
    opened. *)
Definition watch_calls : list Call :=
  [mkCall (bytes "/registry/pods/a") (Some (bytes "3")) None;
   mkCall (bytes "/registry/pods/b") (Some (bytes "4")) None].

Definition pods_watch : WatchArgs := mkWatchArgs (bytes "/registry/pods/") (bytes "/registry/pods0") 1 false.

Definition watch_system (ts : list wturn) : WSys :=
  default (ws_start watch_store watch_calls [pods_watch])
    (ws_exec (H:=block_size_2) watch_calls [pods_watch] (ws_start watch_store watch_calls [pods_watch]) ts).

(** The watch has read "a" when the calls change first "a" and then "b"; then it reads "b". *)
Definition watch_turns : list wturn :=
  replicate 8 (NextWatch 0) ++ replicate 5 (NextCall 0) ++ replicate 5 (NextCall 1) ++ replicate 5 (NextWatch 0).

Lemma watch_system_reached :
  rtc (wsstep (H:=block_size_2) watch_calls [pods_watch]) (ws_start watch_store watch_calls [pods_watch])
    (watch_system watch_turns).
Proof.
  destruct (ws_exec (H:=block_size_2) watch_calls [pods_watch]
    (ws_start watch_store watch_calls [pods_watch]) watch_turns) as [y|] eqn:E.
  - unfold watch_system. rewrite E. by apply (ws_exec_sound (H:=block_size_2) _ _ watch_turns).
  - vm_compute in E. discriminate E.
Qed.

Lemma watch_store_watchers : watchers_wf watch_store.
Proof.
  destruct (StoreTrace.run_implements (H:=block_size_2) (new_store None) StoreTrace.empty watch_ops)
    as (s & rs & Hrun & Hi & _).
  - apply StoreTrace.new_implements.
  - vm_compute. repeat split.
  - vm_compute. discriminate.
  - vm_compute. discriminate.
  - unfold watch_store. rewrite Hrun. apply Hi.
Qed.

Definition pod_change (name value : string) (create rev ver : Z) : KeyValueWithPrev :=
  {| prev_kv := None; kv := mkKeyValue (bytes ("/registry/pods/" ++ name)) create rev ver (bytes value) 0 |}.

Definition watch_past : list KeyValueWithPrev :=
  [pod_change "a" "1" 1 1 1; pod_change "b" "2" 2 2 1; pod_change "b" "4" 2 4 2].

Lemma watch_system_answer :
  wcs (watch_system watch_turns) = [WDone 1 (Ok (watch_past, 2, 1%nat))] ∧
  bool_decide (Forall is_finished (pcs (ww (watch_system watch_turns)))) = true.
Proof. vm_compute. done. Qed.


(** ** Where changes are missed *)

(** In this run the change of "a" was announced after its item was read, and the past ends
    with the newer change of "b": the stream takes revision 4 for the newest it has sent, and
    the announcement of revision 3 is filtered out with its duplicates. The change is neither
    in the past nor ever sent. *)
Example change_between_reads_is_filtered :
  let y := watch_system watch_turns in
  let sess := mkSession (a_start pods_watch) 2 false (default 0 (change_rev <$> last watch_past)) in
  let received := job_msg <$> filter (λ j, 1%nat ∈ job_watchers j) (notify_tx (st (ww y))) in
  change_rev <$> received = [3; 4] ∧ kv (pod_change "a" "3" 1 3 2) ∉ (kv <$> watch_past) ∧
  watch_step (st (ww y)) sess (Received received) = (st (ww y), Some sess, []).
Proof.
  split; [vm_compute; reflexivity|]. split; [|vm_compute; reflexivity].
  apply (bool_decide_unpack _). vm_compute. exact I.
Qed.

(** A key that is in [tree_map] and not in [prefix_map] yet can be written and the write
    answered and announced; a watch opened then, from revision 1 on, neither finds it in the
    past nor is named in its notification. *)
Example unindexed_change_is_missed :
  match ws_exec (H:=block_size_2) sample_calls [pods_watch] (ws_start watch_store sample_calls [pods_watch])
          (replicate 2 (NextCall 0) ++ replicate 5 (NextCall 1) ++ replicate 12 (NextWatch 0) ++
           replicate 2 (NextCall 0) ++ replicate 5 (NextCall 2)) with
  | Some y =>
      wcs y = [WDone 1 (Ok ([pod_change "a" "1" 1 1 1; pod_change "b" "2" 2 2 1], 2, 1%nat))] ∧
      (λ j, (job_rev j, job_watchers j)) <$> notify_tx (st (ww y)) =
        [(1, [0%nat]); (2, [0%nat]); (3, [0%nat]); (4, [0%nat; 1%nat])]
  | None => False
  end.
Proof. vm_compute. done. Qed.
