(* ===== verification/Tests.v ===== *)
(** * The repository's tests

    The tests the developers wrote (the test modules of src/block_deque.rs and src/store.rs,
    and the integration tests of the store, the watches and the services under tests/), as
    programs of the model: a test that passes on the code passes here. [test_range_large],
    which writes a million keys, is left out, and so are the tests of a cluster, whose
    consensus is openraft's. *)
From S2P Require Import Prelude Bytes BTreeMap BlockDeque Heap Types Wal Prefix History Store StoreSpec WatchSpec StoreTrace StoreProps Accounting Notify KvService WatchService.

#[local] Existing Instance block_size_2.

(** ** Tests as programs *)

(** A test of the store: a panic is a failure. *)
Definition test (A : Type) : Type := Store → outcome (Store * A).

Definition tret {A} (x : A) : test A := λ s, Ret (s, x).
Definition tbind {A B} (m : test A) (f : A → test B) : test B := λ s, r ← m s; f r.2 r.1.

Declare Scope test_scope.
Notation "'let*' x := m 'in' k" := (tbind m (λ x, k)) (at level 200, x pattern, right associativity) : test_scope.
Notation "m ;; k" := (tbind m (λ _, k)) (at level 100, k at level 200, right associativity) : test_scope.
#[local] Open Scope test_scope.

Definition run_test {A} (s : Store) (t : test A) : bool := match t s with Ret _ => true | Panic _ => false end.

(** On a store made by [Store::new(None)]. *)
Definition passes (t : test unit) : bool := run_test (new_store None) t.

Definition assert (b : bool) : outcome unit := if b then Ret () else Panic "assertion failed".
Definition assert_eq {A} `{!EqDecision A} (x y : A) : outcome unit := assert (bool_decide (x = y)).

Definition check {A} (m : outcome A) : test A := λ s, x ← m; Ret (s, x).
Definition tassert (b : bool) : test unit := check (assert b).
Definition tassert_eq {A} `{!EqDecision A} (x y : A) : test unit := check (assert_eq x y).

Definition ok {A E} (r : Result A E) : test A := λ s, match r with Ok x => Ret (s, x) | Err _ => Panic "unwrap" end.
Definition err {A E} (r : Result A E) : test E := λ s, match r with Err e => Ret (s, e) | Ok _ => Panic "unwrap_err" end.
Definition at_index {A} (l : list A) (i : nat) : test A := check (index_or_panic l i).
Definition some {A} (o : option A) : test A := λ s, match o with Some x => Ret (s, x) | None => Panic "unwrap" end.

Fixpoint for_each {A} (l : list A) (f : A → test unit) : test unit :=
  match l with [] => tret () | x :: l' => f x;; for_each l' f end.

Definition tset (key value : string) (required : option SetRequired) : test (Result Z SetError) :=
  λ s, set s (bytes key) (Some (bytes value)) required.
Definition tdelete (key : string) (required : option SetRequired) : test (Result Z SetError) :=
  λ s, delete_key s (bytes key) required.
Definition trange (start end_ : string) (rev : Z) (limit : option Z) : test (Result RangeResult Status) :=
  λ s, r ← range s (bytes start) (bytes end_) rev limit; Ret (s, r).
Definition tcompact (rev : Z) : test unit := λ s, r ← compact s rev; ok r.2 r.1.
Definition twatch (start end_ : string) (rev : Z) (want_prev : bool) : test (Result (list KeyValueWithPrev * Z * nat) Z) :=
  λ s, watch s (bytes start) (bytes end_) rev want_prev.

(** [set_with_revision!]: the macro drops its last argument. *)
Definition set_with_revision (key value : string) : test Z := let* r := tset key value None in ok r.

(** What the notification thread has put in a channel. *)
Definition delivered (s : Store) (c : nat) : list KeyValueWithPrev :=
  from_option queue [] (chans (world (process (start_thread (mkWorld None (channels s) [])) (notify_tx s))) !! c).

(** The [n]-th receive on a channel: a message, or a timeout. *)
Definition recv (c n : nat) : test (option KeyValueWithPrev) := λ s, Ret (s, delivered s c !! n).

Definition silent (c n : nat) : test unit := let* m := recv c n in tassert (bool_decide (m = None)).

Definition rev_required (rev : Z) : option SetRequired :=
  Some {| required_last_revision := Some rev; required_version := None; compare_result := 0 |}.
Definition version_required (v : Z) : option SetRequired :=
  Some {| required_last_revision := None; required_version := Some v; compare_result := 0 |}.

(** ** src/block_deque.rs *)

Definition block_size (n : Z) (Hn : 0 < n) : BlockSize := {| BLOCK_SIZE := n; BLOCK_SIZE_pos := Hn |}.

Fixpoint push_all `{!BlockSize} (d : BlockDeque Z) (l : list Z) : outcome (BlockDeque Z) :=
  match l with [] => Ret d | x :: l' => r ← Deque.push d x; push_all r.2 l' end.

Fixpoint get_all `{!BlockSize} (d : BlockDeque Z) (l : list (Z * option Z)) : outcome unit :=
  match l with
  | [] => Ret ()
  | (i, x) :: l' => r ← Deque.get d i; _ ← assert_eq r x; get_all d l'
  end.

Definition removed `{!BlockSize} (d : BlockDeque Z) (i : Z) : outcome (BlockDeque Z) :=
  r ← Deque.remove_before d i; match r.1 with Ok _ => Ret r.2 | Err _ => Panic "unwrap" end.

Definition basic_test : outcome unit :=
  let B := block_size 4 eq_refl in
  d ← push_all Deque.new (seqZ 16 8);
  _ ← assert_eq (Deque.len d) 8;
  _ ← get_all d ((λ i, (i, Some (i + 16))) <$> seqZ 0 8);
  _ ← get_all d [(8, None)];
  r ← Deque.set d 3 999;
  get_all r.2 [(3, Some 999)].

Definition remove_before_test_one_block : outcome unit :=
  let B := block_size 4 eq_refl in
  d ← push_all Deque.new [1; 2];
  d ← removed d 1;
  _ ← assert_eq (Deque.len d) 1;
  get_all d [(0, None); (1, Some 2)].

Definition remove_before_test_two_blocks : outcome unit :=
  let B := block_size 4 eq_refl in
  d ← push_all Deque.new (seqZ 0 11);
  _ ← assert_eq (Deque.len d) 11;
  d ← removed d 10;
  _ ← assert_eq (Deque.len d) 1;
  _ ← get_all d [(10, Some 10)];
  d ← push_all d [11; 12; 13];
  _ ← get_all d [(10, Some 10); (11, Some 11); (12, Some 12); (13, Some 13)];
  d ← removed d 12;
  _ ← assert_eq (Deque.len d) 2;
  get_all d [(12, Some 12); (13, Some 13)].

Definition remove_before_test_across_blocks : outcome unit :=
  let B := block_size 10 eq_refl in
  d ← push_all Deque.new (seqZ 0 15);
  d ← removed d 9;
  d ← removed d 13;
  Ret ().

Example block_deque_tests :
  [basic_test; remove_before_test_one_block; remove_before_test_two_blocks; remove_before_test_across_blocks]
  = [Ret (); Ret (); Ret (); Ret ()].
Proof. vm_compute. reflexivity. Qed.

(** ** src/store.rs *)

#[local] Instance Bound_eq_dec {K} `{!EqDecision K} : EqDecision (Bound K).
Proof. solve_decision. Defined.

Definition split_is (x : string * (string * string)) : bool :=
  bool_decide (prefix_split (bytes x.1) = (bytes x.2.1, bytes x.2.2)).

Definition test_prefix_split : bool :=
  forallb split_is
    [("abc", ("", "abc")); ("abc/", ("", "abc/")); ("a/b", ("", "a/b")); ("/a/b", ("", "/a/b"));
     ("a/b/c", ("", "a/b/c")); ("/a/b/c", ("", "/a/b/c"));
     ("/registry/serviceaccounts/", ("/registry/serviceaccounts/", ""));
     ("/registry/pods/kube-system/foo", ("/registry/pods/", "kube-system/foo"));
     ("/registry/roles/foo", ("/registry/roles/", "foo"));
     ("/registry/apigroup-example.com/my-resources/foo", ("/registry/apigroup-example.com/my-resources/", "foo"));
     ("/registry/apigroup-example.com/my-resources/my-namespace/foo",
       ("/registry/apigroup-example.com/my-resources/", "my-namespace/foo"))]%string.

Definition range_is (start end_ prefix : string) (r : Bound ByteArray * Bound ByteArray) : bool :=
  match prefix_and_range_of_key (bytes start) (bytes end_) with
  | Ok (p, b) => bool_decide (p = bytes prefix) && bool_decide (b = r)
  | Err _ => false
  end.

Definition test_prefix_and_range_of_key : bool :=
  range_is "/registry/serviceaccounts/" "/registry/serviceaccounts0" "/registry/serviceaccounts/" (Included [], Unbounded) &&
  range_is "/registry/apiextensions.k8s.io/customresourcedefinitions/"
    "/registry/apiextensions.k8s.io/customresourcedefinitions0"
    "/registry/apiextensions.k8s.io/customresourcedefinitions/" (Included [], Unbounded) &&
  range_is "/bootstrap" "/bootstraq" "" (Included (bytes "/bootstrap"), Excluded (bytes "/bootstraq")).

(** When the notification thread has handled each write before the next step, as the test
    expects without waiting for it. *)
Definition test_bytes_metrics : bool :=
  let gauge_after ops := match grun (new_store None, no_buffers) ops with Ret (_, b) => Some (gauge b) | Panic _ => None end in
  let put v := GSet (bytes "foo") (Some (bytes v)) None in
  let ops := [put "beep"; GRelease 1; put "boop"; GRelease 2; GRelease 1; GSet (bytes "foo") None None; GRelease 2; GCompact 3]%string in
  forallb (λ x, bool_decide (gauge_after (take x.1 ops) = Some x.2)) [(0%nat, 0); (2%nat, 4); (5%nat, 8); (7%nat, 8); (8%nat, 0)].

(** When it is late, the values are still counted after the compaction, and the test fails. *)
Definition test_bytes_metrics_late : bool :=
  let put v := GSet (bytes "foo") (Some (bytes v)) None in
  match grun (new_store None, no_buffers) [put "beep"; put "boop"; GSet (bytes "foo") None None; GCompact 3]%string with
  | Ret (_, b) => negb (gauge b =? 0)
  | Panic _ => false
  end.

Example test_bytes_metrics_races : test_bytes_metrics_late = true.
Proof. vm_compute. reflexivity. Qed.

Example store_unit_tests : [test_prefix_split; test_prefix_and_range_of_key; test_bytes_metrics] = [true; true; true].
Proof. vm_compute. reflexivity. Qed.

(** ** tests/store_test.rs *)

(** A range that has to succeed: its length, its revision, and some of its key-values. *)
Definition range_has (start end_ : string) (rev : Z) (len : nat) (latest : option Z) (at_ : list (nat * string * option string)) :
    test unit :=
  let* r := trange start end_ rev None in
  let* res := ok r in
  tassert_eq (length (kvs res)) len;;
  tassert (from_option (λ z, latest_rev res =? z) true latest);;
  for_each at_ (λ '(i, key, value),
    let* kv := at_index (kvs res) i in
    tassert_eq (kv_key kv) (bytes key);;
    tassert (from_option (λ v, bool_decide (kv_value kv = bytes v)) true value)).

Definition test_range_revision : test unit :=
  let* r := tset "foo" "bar" (rev_required 0) in
  let* rev := ok r in
  tassert_eq rev 1;;
  range_has "foo" "" 0 1 (Some 1) [(0%nat, "foo", Some "bar")]%string;;
  let* r := tset "foo" "baz" None in
  let* rev := ok r in
  tassert_eq rev 2;;
  range_has "foo" "" 0 1 (Some 2) [(0%nat, "foo", Some "baz")]%string;;
  range_has "foo" "" 1 1 (Some 2) [(0%nat, "foo", Some "bar")]%string;;
  let* r := trange "foo" "" 3 None in
  tassert (negb (is_ok r)).

Definition test_range : test unit :=
  for_each [("foo", "bar"); ("foo1", "bar1"); ("foo2", "bar2"); ("foo3", "bar3"); ("foo4", "bar4"); ("foo", "baz")]%string
    (λ x, let* _ := set_with_revision x.1 x.2 in tret ());;
  range_has "foo" "fooz" 0 5 (Some 6) [(0%nat, "foo", Some "baz"); (1%nat, "foo1", None); (4%nat, "foo4", None)]%string;;
  range_has "foo" "fooz" 3 3 (Some 6) [(0%nat, "foo", None); (1%nat, "foo1", None); (2%nat, "foo2", None)]%string.

(** On an empty store [range] asserts that the revision it reads at is positive, unless the
    prefix has no key. *)
Definition test_range_slashes : test unit :=
  range_has "/a/b/c/" "/a/b/c0" 0 0 None [];;
  let* _ := set_with_revision "/registry/apiextensions.k8s.io/customresourcedefinitions/addons" "bar" in
  range_has "/registry/apiextensions.k8s.io/customresourcedefinitions/addons" "" 0 1 None [];;
  let* _ := set_with_revision "/bootstrap/aaa" "bar" in
  range_has "/bootstrap" "/bootstraq" 0 1 None [].

Definition test_compaction_one : test unit :=
  let* rev := set_with_revision "foo" "bar" in
  tassert_eq rev 1;;
  tcompact 1;;
  range_has "foo" "" 0 1 (Some 1) [(0%nat, "foo", Some "bar")]%string.

Definition test_compaction : test unit :=
  for_each [("foo", "bar1"); ("foo2", "v2"); ("foo", "bar2"); ("foo", "bar3"); ("foo", "bar4"); ("foo", "bar5")]%string
    (λ x, let* _ := set_with_revision x.1 x.2 in tret ());;
  range_has "foo" "" 0 1 (Some 6) [];;
  tcompact 3;;
  let* r := trange "foo" "" 2 None in
  tassert (negb (is_ok r));;
  range_has "foo2" "" 3 1 (Some 6) [(0%nat, "foo2", Some "v2")]%string.

Definition test_set_txn_revision : test unit :=
  let* rev := set_with_revision "foo" "r1" in
  tassert_eq rev 1;;
  let* rev := set_with_revision "foo" "r2" in
  tassert_eq rev 2;;
  let* rev := set_with_revision "foo" "r3" in
  tassert_eq rev 3;;
  let* r := tset "foo" "r4" (rev_required 1) in
  let* e := err r in
  tassert_eq e.1 3;;
  range_has "foo" "" 0 1 None [(0%nat, "foo", Some "r3")]%string.

Definition test_set_txn_version : test unit :=
  let* r := tset "a" "r1" None in
  let* _ := ok r in
  let* r := tset "foo" "r2" None in
  let* _ := ok r in
  let* rev := set_with_revision "foo" "r3" in
  tassert_eq rev 3;;
  let* rev := set_with_revision "foo" "r4" in
  tassert_eq rev 4;;
  let* r := tset "foo" "r5" (version_required 1) in
  let* e := err r in
  tassert_eq e.1 4;;
  let* r := tdelete "foo" None in
  let* _ := ok r in
  let* rev := set_with_revision "foo" "r6" in
  tassert_eq rev 6;;
  let* rev := set_with_revision "bar" "r7" in
  tassert_eq rev 7.

Definition test_delete : test unit :=
  let* _ := set_with_revision "a" "r1" in
  let* _ := set_with_revision "a" "r2" in
  let* r := tdelete "b" None in
  let* e := err r in
  tassert_eq e.1 2;;
  let* r := tdelete "a" None in
  let* rev := ok r in
  tassert_eq rev 3;;
  range_has "a" "" 0 0 None [];;
  let* r := tdelete "a" None in
  let* e := err r in
  tassert_eq e.1 3;;
  let* _ := set_with_revision "a" "r3" in
  let* r := trange "a" "" 0 None in
  let* res := ok r in
  let* kv := at_index (kvs res) 0 in
  tassert_eq (kv_create_revision kv) 4;;
  tassert_eq (kv_value kv) (bytes "r3").

Definition test_delete_revision : test unit :=
  let* _ := set_with_revision "a" "r1" in
  let* _ := set_with_revision "a" "r2" in
  let* r := tdelete "a" (rev_required 1) in
  let* e := err r in
  tassert_eq e.1 2;;
  tassert (bool_decide (is_Some e.2));;
  let* r := tdelete "a" (rev_required 2) in
  let* rev := ok r in
  tassert_eq rev 3.

Example store_tests :
  passes <$> [test_range_revision; test_range; test_range_slashes; test_compaction_one; test_compaction;
              test_set_txn_revision; test_set_txn_version; test_delete; test_delete_revision]
  = replicate 9 true.
Proof. vm_compute. reflexivity. Qed.

(** The macro does not pass the condition on, so three of the writes above that are meant to
    be conditional are not; with their conditions they succeed all the same. *)
Definition test_set_txn_conditional : test unit :=
  let* r := tset "foo" "r1" None in let* _ := ok r in
  let* r := tset "foo" "r2" (rev_required 1) in let* rev := ok r in tassert_eq rev 2;;
  let* r := tset "foo" "r3" (version_required 2) in let* rev := ok r in tassert_eq rev 3;;
  let* r := tdelete "foo" None in let* _ := ok r in
  let* r := tset "foo" "r6" (version_required 0) in let* rev := ok r in tassert_eq rev 5;;
  let* r := tset "bar" "r7" (version_required 0) in let* rev := ok r in tassert_eq rev 6.

(** A read at the revision of the compaction is still answered. *)
Definition test_compacted_revision_readable : test unit :=
  for_each ["bar1"; "bar2"; "bar3"]%string (λ v, let* _ := set_with_revision "foo" v in tret ());;
  tcompact 2;;
  range_has "foo" "" 2 1 (Some 3) [(0%nat, "foo", Some "bar2")]%string.

Example store_tests_amended : passes <$> [test_set_txn_conditional; test_compacted_revision_readable] = [true; true].
Proof. vm_compute. reflexivity. Qed.

(** ** tests/watch_test.rs *)

Definition past_has (start end_ : string) (rev : Z) (len : nat) : test unit :=
  let* r := twatch start end_ rev false in
  let* w := ok r in
  tassert_eq (length w.1.1) len.

Definition test_watch_past_results : test unit :=
  for_each [("a", "a1"); ("a", "a2"); ("a", "a3"); ("b", "b1"); ("a", "a4")]%string
    (λ x, let* _ := set_with_revision x.1 x.2 in tret ());;
  past_has "a" "" 0 0;;
  past_has "a" "" 1 4;;
  past_has "b" "" 1 1;;
  past_has "b" "" 4 1;;
  past_has "b" "" 5 0;;
  past_has "a" "c" 1 5.

Definition values_are (l : list KeyValueWithPrev) (vs : list string) : test unit :=
  tassert_eq ((λ c, kv_value (kv c)) <$> l) (bytes <$> vs).

Definition test_watch_at_compaction : test unit :=
  for_each [("a", "a1"); ("a", "a2"); ("a", "a3"); ("b", "b4")]%string
    (λ x, let* _ := set_with_revision x.1 x.2 in tret ());;
  tcompact 3;;
  let* r := twatch "a" "c" 3 false in
  let* w := ok r in
  values_are w.1.1 ["a3"; "b4"]%string.

(** The [n]-th message has the value. *)
Definition receives (c n : nat) (key value : string) : test unit :=
  let* m := recv c n in
  let* m := some m in
  tassert_eq (kv_key (kv m)) (bytes key);;
  tassert_eq (kv_value (kv m)) (bytes value).

Definition test_watch_single : test unit :=
  let* _ := set_with_revision "foo" "v1" in
  let* _ := set_with_revision "foo" "v2" in
  let* r := twatch "foo" "" 0 false in
  let* w := ok r in
  silent w.2 0;;
  let* _ := set_with_revision "foo" "v3" in
  let* _ := set_with_revision "foo" "v4" in
  receives w.2 0 "foo" "v3";;
  receives w.2 1 "foo" "v4".

Definition test_watch_range : test unit :=
  let* _ := set_with_revision "a" "a1" in
  let* _ := set_with_revision "b" "b1" in
  let* r := twatch "a" "" 0 false in
  let* a := ok r in
  let* r := twatch "b" "" 0 false in
  let* b := ok r in
  let* r := twatch "a" "c" 0 false in
  let* ac := ok r in
  silent a.2 0;; silent b.2 0;; silent ac.2 0;;
  let* _ := set_with_revision "c" "c1" in
  silent a.2 0;; silent b.2 0;; silent ac.2 0;;
  let* _ := set_with_revision "a" "a2" in
  receives a.2 0 "a" "a2";; receives ac.2 0 "a" "a2";; silent b.2 0;;
  let* _ := set_with_revision "b" "b2" in
  silent a.2 1;; receives b.2 0 "b" "b2";; receives ac.2 1 "b" "b2";; silent a.2 1.

Definition test_watch_revision_error : test unit :=
  for_each ["a1"; "a2"; "a3"]%string (λ v, let* _ := set_with_revision "a" v in tret ());;
  tcompact 2;;
  let* r := twatch "a" "" 1 false in
  tassert (negb (is_ok r)).

Definition test_watch_future_revision : test unit :=
  for_each ["a1"; "a2"; "a3"]%string (λ v, let* _ := set_with_revision "a" v in tret ());;
  let* r := twatch "a" "" 4 false in
  let* a := ok r in
  silent a.2 0;;
  let* _ := set_with_revision "a" "a4" in
  receives a.2 0 "a" "a4".

Definition test_watch_delete : test unit :=
  let* _ := set_with_revision "a" "r1" in
  let* _ := set_with_revision "a" "r2" in
  let* r := tdelete "a" None in
  let* rev := ok r in
  tassert_eq rev 3;;
  let* r := twatch "a" "" 1 false in
  let* w := ok r in
  values_are w.1.1 ["r1"; "r2"; ""]%string;;
  let* _ := set_with_revision "a" "r3" in
  let* r := twatch "a" "" 4 false in
  let* w := ok r in
  silent w.2 0;;
  let* r := tdelete "a" None in
  let* _ := ok r in
  receives w.2 0 "a" "".

Example watch_tests :
  passes <$> [test_watch_past_results; test_watch_at_compaction; test_watch_single; test_watch_range;
              test_watch_revision_error; test_watch_future_revision; test_watch_delete]
  = replicate 7 true.
Proof. vm_compute. reflexivity. Qed.

(** ** tests/kv_service_test.rs *)

Definition handled_ok {A} (m : handler A) : test A := let* r := m in ok r.

Definition put_req (key value : string) : PutRequest := mkPutRequest (bytes key) (bytes value) false false.
Definition range_req (key end_ : string) (limit rev : Z) (count_only : bool) : RangeRequest :=
  mkRangeRequest (bytes key) (bytes end_) limit rev count_only.

Definition kv_test_put_and_range : test unit :=
  let* p := handled_ok (kv_put None (put_req "foo" "bar")) in
  tassert_eq (hdr_revision (presp_header p)) 1;;
  let* r := handled_ok (kv_range (range_req "foo" "" 0 0 false)) in
  tassert_eq (length (rresp_kvs r)) 1%nat;;
  tassert_eq (rresp_count r) 1;;
  let* kv := at_index (rresp_kvs r) 0 in
  tassert_eq (kv_key kv) (bytes "foo");;
  tassert_eq (kv_value kv) (bytes "bar").

Definition kv_test_delete_range : test unit :=
  let* _ := handled_ok (kv_put None (put_req "foo" "bar")) in
  let* _ := handled_ok (kv_delete_range None (mkDeleteRangeRequest (bytes "foo") [] false)) in
  let* r := handled_ok (kv_range (range_req "foo" "" 0 0 false)) in
  tassert_eq (length (rresp_kvs r)) 0%nat.

Definition kv_test_range_count_only : test unit :=
  let* _ := handled_ok (kv_put None (put_req "foo" "bar")) in
  let* r := handled_ok (kv_range (range_req "foo" "" 0 0 true)) in
  tassert_eq (rresp_count r) 1;;
  tassert_eq (length (rresp_kvs r)) 0%nat.

Definition counted_range (limit : Z) (len : nat) (more : bool) : test unit :=
  let* r := handled_ok (kv_range (range_req "a" "z" limit 0 false)) in
  tassert_eq (rresp_count r) 10;;
  tassert_eq (length (rresp_kvs r)) len;;
  tassert_eq (rresp_more r) more.

Definition nth_byte (n : nat) : byte := default Byte.x00 (Byte.of_nat n).

Definition kv_test_range_limit : test unit :=
  for_each (seq 0 10)
    (λ i, let* _ := handled_ok (kv_put None (mkPutRequest [nth_byte (97 + i)] [Byte.x72; nth_byte i] false false)) in tret ());;
  counted_range 4 4 true;;
  counted_range 10 10 false;;
  counted_range 15 10 false.

Definition foo_txn (rev : Z) (failure : list (option TxnOp)) : TxnRequest :=
  mkTxnRequest [mkCompare 0 (bytes "foo") (Some (TModRevision rev))]
    [Some (RequestPut (put_req "foo" "baz"))] failure.

Definition kv_test_txn : test unit :=
  let* p := handled_ok (kv_put None (put_req "foo" "bar")) in
  let rev := hdr_revision (presp_header p) in
  let* t := handled_ok (kv_txn None (foo_txn rev [Some (RequestRange (range_req "foo" "" 0 0 false))])) in
  tassert (tresp_succeeded t);;
  tassert_eq (length (tresp_responses t)) 1%nat.

Definition kv_test_txn_failure : test unit :=
  let* _ := handled_ok (kv_put None (put_req "foo" "bar")) in
  let* t := handled_ok (kv_txn None (foo_txn 0 [])) in
  tassert_eq (tresp_succeeded t) false;;
  tassert_eq (length (tresp_responses t)) 0%nat.

Definition kv_test_compaction : test unit :=
  let* _ := handled_ok (kv_put None (put_req "foo" "bar1")) in
  let* _ := handled_ok (kv_put None (put_req "foo" "bar2")) in
  let* _ := handled_ok (kv_compact 2) in
  let* r := kv_range (range_req "foo" "" 0 1 false) in
  tassert (negb (is_ok r)).

Example kv_service_tests :
  passes <$> [kv_test_put_and_range; kv_test_delete_range; kv_test_range_count_only; kv_test_range_limit;
              kv_test_txn; kv_test_txn_failure; kv_test_compaction]
  = replicate 7 true.
Proof. vm_compute. reflexivity. Qed.

(** ** tests/watch_service_test.rs *)

Definition create_req (key end_ : string) (rev : Z) (prev : bool) : ClientMessage :=
  Message (Some (CreateRequest (mkWatchCreateRequest (bytes key) (bytes end_) rev prev))).

(** The stream is opened; its first responses, and the session if it goes on. *)
Definition open_stream (first : ClientMessage) : test (list WatchResponse * option Session) :=
  let* r := watch_open first in ok r.

(** The next response, after the messages from the [n]-th on were received together. *)
Definition next_response (sess : Session) (c n : nat) : test (Session * WatchResponse) := λ s,
  match watch_step s sess (Received (drop n (delivered s c))) with
  | (s', Some sess', [r]) => Ret (s', (sess', r))
  | _ => Panic "no response"
  end.

Definition event_is (e : Event) (key value : string) : test unit :=
  tassert_eq (kv_key (ev_kv e)) (bytes key);; tassert_eq (kv_value (ev_kv e)) (bytes value).

(** One event, of the key. *)
Definition one_event (r : WatchResponse) (key value : string) : test Event :=
  tassert_eq (length (wr_events r)) 1%nat;;
  let* e := at_index (wr_events r) 0 in
  event_is e key value;;
  tret e.

Definition ws_test_create_request_success : test unit :=
  let* o := open_stream (create_req "foo" "" 0 false) in
  let* first := at_index o.1 0 in
  tassert (wr_created first);;
  tassert (negb (wr_watch_id first =? 0));;
  tassert_eq (length (wr_events first)) 0%nat;;
  let* sess := some o.2 in
  let* _ := set_with_revision "foo" "bar" in
  let* r := next_response sess 0 0 in
  tassert_eq (wr_watch_id r.2) (wr_watch_id first);;
  let* _ := one_event r.2 "foo" "bar" in tret ().

Definition ws_test_invalid_argument : test unit :=
  let* r := watch_open (Message None) in
  let* e := err r in
  tassert (match e with mkStatus InvalidArgument msg _ => bool_decide (msg = "Not supported"%string) | _ => false end).

Definition ws_test_compacted_revision : test unit :=
  for_each ["v1"; "v2"; "v3"]%string (λ v, let* _ := set_with_revision "foo" v in tret ());;
  tcompact 3;;
  let* o := open_stream (create_req "foo" "" 1 false) in
  let* first := at_index o.1 0 in
  tassert (negb (wr_compact_revision first =? 0));;
  tassert_eq (length (wr_events first)) 0%nat.

Definition events_are (r : WatchResponse) (vs : list string) : test unit :=
  tassert_eq ((λ e, kv_value (ev_kv e)) <$> wr_events r) (bytes <$> vs).

Definition ws_test_past_changes_on_create : test unit :=
  for_each [("a", "a1"); ("a", "a2"); ("a", "a3"); ("b", "b1")]%string
    (λ x, let* _ := set_with_revision x.1 x.2 in tret ());;
  let* o := open_stream (create_req "a" "z" 2 false) in
  let* first := at_index o.1 0 in
  tassert (wr_created first);;
  tassert_eq (length (wr_events first)) 0%nat;;
  let* second := at_index o.1 1 in
  events_are second ["a2"; "a3"; "b1"]%string;;
  let* sess := some o.2 in
  let* _ := set_with_revision "a" "a4" in
  let* r := next_response sess 0 0 in
  let* _ := one_event r.2 "a" "a4" in tret ().

Definition ws_delete_event (prev : bool) : test Event :=
  let* _ := set_with_revision "foo" "bar" in
  let* o := open_stream (create_req "foo" "" 0 prev) in
  let* _ := at_index o.1 0 in
  let* sess := some o.2 in
  let* r := tdelete "foo" None in
  let* rev := ok r in
  tassert_eq rev 2;;
  let* m := next_response sess 0 0 in
  one_event m.2 "foo" "".

Definition ws_test_delete_event : test unit := let* _ := ws_delete_event false in tret ().

Definition ws_test_prev_kv_delete : test unit :=
  let* e := ws_delete_event true in tassert (bool_decide (is_Some (ev_prev_kv e))).

Definition ws_test_prev_kv_put : test unit :=
  let* _ := set_with_revision "foo" "bar" in
  let* o := open_stream (create_req "foo" "" 0 true) in
  let* _ := at_index o.1 0 in
  let* sess := some o.2 in
  let* _ := set_with_revision "foo" "baz" in
  let* m := next_response sess 0 0 in
  let* e := one_event m.2 "foo" "baz" in
  let* p := some (ev_prev_kv e) in
  tassert_eq (kv_value p) (bytes "bar").

Definition ws_test_prev_kv_put_latest_rev : test unit :=
  for_each [("a", "a1"); ("a", "a2"); ("z", "z3"); ("a", "a4"); ("a", "a5")]%string
    (λ x, let* _ := set_with_revision x.1 x.2 in tret ());;
  for_each [3; 4] (λ start,
    let* o := open_stream (create_req "a" "b" start true) in
    let* first := at_index o.1 0 in
    tassert (wr_created first);;
    tassert_eq (length (wr_events first)) 0%nat;;
    let* second := at_index o.1 1 in
    events_are second ["a4"; "a5"]%string;;
    let* e1 := at_index (wr_events second) 1 in
    let* p1 := some (ev_prev_kv e1) in
    tassert_eq (kv_mod_revision p1) 4;;
    let* e0 := at_index (wr_events second) 0 in
    let* p0 := some (ev_prev_kv e0) in
    tassert_eq (kv_mod_revision p0) 2;;
    tassert_eq (kv_value p0) (bytes "a2")).

Example watch_service_tests :
  passes <$> [ws_test_create_request_success; ws_test_invalid_argument; ws_test_compacted_revision;
              ws_test_past_changes_on_create; ws_test_delete_event; ws_test_prev_kv_delete; ws_test_prev_kv_put;
              ws_test_prev_kv_put_latest_rev]
  = replicate 8 true.
Proof. vm_compute. reflexivity. Qed.
