(* ===== verification/Mock.v ===== *)
(** * Mock streams of the tests (src/extern/tonic-mock)

    The streaming requests the tests of the services are built from: a body that holds one
    frame per message, in the length-prefixed format of gRPC, the decoder that goes with it,
    and the two functions that take a streamed response apart. Prost's codec is a parameter:
    a message can be encoded, and decoding gives it back. tonic's reader of a stream is not
    part of the repository; the format it reads is given by [read_message]. *)
From S2P Require Import Prelude Bytes Types Wal.

(** [prost::Message] *)
Class Message (M : Type) := {
  msg_encode : M → ByteArray;
  msg_decode : ByteArray → Result M string;
}.

Class MessageLaws (M : Type) `{!Message M} := {
  msg_roundtrip : ∀ m : M, msg_decode (msg_encode m) = Ok m;
}.

(** ** The body (mock.rs) *)

Record MockBody := mkMockBody { data : list ByteArray }.

(** [put_u32]: big-endian. *)
Definition to_be_bytes (n : nat) (z : Z) : ByteArray := reverse (to_le_bytes n z).
Definition from_be_bytes (l : ByteArray) : Z := from_le_bytes (reverse l).

Section body.
Context {M : Type} `{!Message M}.

(** [MockBody::encode]: five bytes are set aside and filled in when the message is there:
    the flag 0 and the length as a [u32]. *)
Definition encode (msg : M) : ByteArray :=
  let reserved := replicate 5 Byte.x00 in
  let buf := reserved ++ msg_encode msg in
  let len := Z.of_nat (length buf) - 5 in
  ([Byte.x00] ++ to_be_bytes 4 (as_u32 len)) ++ drop 5 buf.

Definition new (msgs : list M) : MockBody := mkMockBody (foldl (λ queue msg, queue ++ [encode msg]) [] msgs).

(** [streaming_request]: tonic's [Streaming] reads the body and hands the messages to the
    decoder. *)
Definition streaming_request (messages : list M) : MockBody := new messages.

Definition len (b : MockBody) : nat := length (data b).

Definition is_empty (b : MockBody) : bool := match data b with [] => true | _ => false end.

(** [poll_frame]: always ready; [None] at the end. *)
Definition poll_frame (b : MockBody) : outcome (option (Result ByteArray Status) * MockBody) :=
  if negb (is_empty b) then
    match data b with
    | msg :: rest => Ret (Some (Ok msg), mkMockBody rest)
    | [] => Panic "called `Option::unwrap()` on a `None` value"
    end
  else Ret (None, b).

(** ** The decoder *)

(** [ProstDecoder::decode] on a buffer of chunks: it decodes the first chunk and moves past
    it, unless there is an error. *)
Definition decode (buf : list ByteArray) : Result (option M) Status * list ByteArray :=
  let chunk := default [] (head buf) in
  match msg_decode chunk with
  | Ok item => (Ok (Some item), tail buf)
  | Err e => (Err (mkStatus Internal "{}" [AText e]), buf)
  end.
End body.

(** ** Responses (lib.rs) *)

(** A response stream is the list of what [next] yields. *)
Definition next {A} (stream : list A) : option A * list A :=
  match stream with [] => (None, []) | x :: rest => (Some x, rest) end.

(** [stream_to_vec]; the loop turns once more than the stream is long at most. *)
Fixpoint stream_to_vec_loop {A} (fuel : nat) (messages : list A) (result : list A) : option (list A) :=
  match fuel with
  | O => None
  | S fuel' =>
      match next messages with
      | (Some v, messages') => stream_to_vec_loop fuel' messages' (result ++ [v])
      | (None, _) => Some result
      end
  end.

Definition stream_to_vec {A} (response : list A) : option (list A) :=
  stream_to_vec_loop (S (length response)) response [].

(** [process_streaming_response]: the calls of the callback, each with its index. *)
Fixpoint process_loop {A} (fuel : nat) (messages : list A) (i : Z) : option (list (A * Z)) :=
  match fuel with
  | O => None
  | S fuel' =>
      match next messages with
      | (Some v, messages') => calls ← process_loop fuel' messages' (usize_add i 1); Some ((v, i) :: calls)
      | (None, _) => Some []
      end
  end.

Definition process_streaming_response {A} (response : list A) : option (list (A * Z)) :=
  process_loop (S (length response)) response 0.

(** ** The format *)

(** A length-prefixed message of gRPC: a flag, 0 for a message that is not compressed, the
    length in four bytes, big-endian, and the message. *)
Definition read_message (buf : ByteArray) : option (ByteArray * ByteArray) :=
  match buf with
  | Byte.x00 :: rest =>
      let n := Z.to_nat (from_be_bytes (take 4 rest)) in
      if bool_decide (4 + n ≤ length rest)%nat then Some (take n (drop 4 rest), drop (4 + n) rest) else None
  | _ => None
  end.

Fixpoint read_messages (fuel : nat) (buf : ByteArray) : option (list ByteArray) :=
  match buf, fuel with
  | [], _ => Some []
  | _, O => None
  | _, S fuel' => '(msg, rest) ← read_message buf; msgs ← read_messages fuel' rest; Some (msg :: msgs)
  end.

(** Every frame of a body, polled to its end. *)
Fixpoint frames (fuel : nat) (b : MockBody) : option (list (Result ByteArray Status)) :=
  match fuel with
  | O => None
  | S fuel' =>
      match poll_frame b with
      | Ret (Some f, b') => fs ← frames fuel' b'; Some (f :: fs)
      | Ret (None, _) => Some []
      | Panic _ => None
      end
  end.

(** ** Lemmas *)

Section lemmas.
Context {M : Type} `{!Message M}.

Lemma new_data (msgs : list M) : data (new msgs) = encode <$> msgs.
Proof.
  unfold new. simpl. induction msgs as [|m msgs IH] using rev_ind; [done|].
  by rewrite foldl_app, IH, fmap_app.
Qed.

Lemma to_be_bytes_length n z : length (to_be_bytes n z) = n.
Proof. unfold to_be_bytes. by rewrite length_reverse, to_le_bytes_length. Qed.

Lemma encode_shape (m : M) :
  encode m = Byte.x00 :: to_be_bytes 4 (as_u32 (Z.of_nat (length (msg_encode m)))) ++ msg_encode m.
Proof.
  unfold encode. rewrite length_app, length_replicate, drop_app_length'; [|by rewrite length_replicate].
  by replace (Z.of_nat (5 + length (msg_encode m)) - 5) with (Z.of_nat (length (msg_encode m))) by lia.
Qed.

(** A frame is read back, and what follows it is left. *)
Lemma read_encode (m : M) rest :
  Z.of_nat (length (msg_encode m)) < u32_modulus →
  read_message (encode m ++ rest) = Some (msg_encode m, rest).
Proof.
  intros Hlen. rewrite encode_shape. unfold read_message. cbn [app].
  set (be := to_be_bytes 4 _). rewrite <- app_assoc.
  assert (length be = 4%nat) as Hbe by apply to_be_bytes_length.
  assert (from_be_bytes be = Z.of_nat (length (msg_encode m))) as Hn.
  { unfold be, to_be_bytes, from_be_bytes. rewrite reverse_involutive. apply u32_round_trip. lia. }
  rewrite (take_app_length' be) by done. rewrite Hn, Nat2Z.id.
  rewrite bool_decide_eq_true_2 by (rewrite !length_app; lia).
  rewrite drop_app_length' by done. rewrite take_app_length, <- drop_drop, drop_app_length' by done.
  by rewrite drop_app_length.
Qed.

Lemma read_frames_encoded (msgs : list M) :
  Forall (λ m, Z.of_nat (length (msg_encode m)) < u32_modulus) msgs →
  read_messages (length msgs) (concat (encode <$> msgs)) = Some (msg_encode <$> msgs).
Proof.
  induction 1 as [|m msgs Hm _ IH]; [done|]. rewrite !fmap_cons. cbn [concat length].
  pose proof (read_encode m (concat (encode <$> msgs)) Hm) as Hr.
  destruct (encode m ++ concat (encode <$> msgs)) as [|x l] eqn:E; [by rewrite encode_shape in E|].
  cbn [read_messages]. rewrite Hr. unfold mbind at 1. cbn [option_bind]. by rewrite IH.
Qed.

Lemma frames_all (fs : list ByteArray) : frames (S (length fs)) (mkMockBody fs) = Some (Ok <$> fs).
Proof. induction fs as [|f fs IH]; [done|]. simpl in *. by rewrite IH. Qed.

Lemma stream_to_vec_loop_all {A} (fuel : nat) (l acc : list A) :
  (length l < fuel)%nat → stream_to_vec_loop fuel l acc = Some (acc ++ l).
Proof.
  revert fuel acc. induction l as [|x l IH]; intros [|fuel] acc Hf; simpl in *; try lia; [by rewrite app_nil_r|].
  rewrite IH by lia. by rewrite <- app_assoc.
Qed.

(** The response is the vector, and the callback sees each item with its place. *)
Lemma stream_to_vec_all {A} (l : list A) : stream_to_vec l = Some l.
Proof. apply (stream_to_vec_loop_all _ l []). lia. Qed.

Lemma process_loop_all {A} (fuel : nat) (l : list A) i :
  (length l < fuel)%nat → 0 ≤ i → i + Z.of_nat (length l) ≤ usize_max →
  process_loop fuel l i = Some (zip l (seqZ i (Z.of_nat (length l)))).
Proof.
  revert fuel i. induction l as [|x l IH]; intros [|fuel] i Hf Hi Hm; try (simpl in *; lia); [done|].
  simpl length in *. rewrite seqZ_cons by lia. simpl. rewrite usize_add_id by width. rewrite IH by lia. simpl.
  do 4 f_equal; lia.
Qed.
End lemmas.

(** ** Properties *)

(** A mock request is what it was made of. The body made of messages, polled to its end,
    gives one frame per message and no error; the frames, read as one stream in the format
    of gRPC, are the encoded messages, as long as each is shorter than 2^32 bytes, and the
    decoder turns each back into its message and leaves nothing behind. A response of any
    length is handed over whole and in order. *)
Theorem mock_stream_roundtrip {M : Type} `{!Message M, !MessageLaws M} (msgs : list M) (response : list (Result M Status)) :
  Forall (λ m, Z.of_nat (length (msg_encode m)) < u32_modulus) msgs →
  Z.of_nat (length response) ≤ usize_max →
  ∃ fs, frames (S (len (streaming_request msgs))) (streaming_request msgs) = Some (Ok <$> fs) ∧ length fs = length msgs ∧
    read_messages (length msgs) (concat fs) = Some (msg_encode <$> msgs) ∧
    (∀ m, m ∈ msgs → decode [msg_encode m] = (Ok (Some m), [])) ∧
    stream_to_vec response = Some response ∧
    process_streaming_response response = Some (zip response (seqZ 0 (Z.of_nat (length response)))).
Proof.
  intros Hlen Hresp. exists (encode <$> msgs). unfold streaming_request, len. rewrite new_data. split.
  { rewrite <- (frames_all (encode <$> msgs)). do 2 f_equal. unfold new.
    destruct (new msgs) as [d] eqn:E. pose proof (new_data msgs) as Hd. rewrite E in Hd. simpl in Hd. subst d. exact E. }
  rewrite length_fmap. split; [done|]. split; [by apply read_frames_encoded|]. split.
  { intros m _. unfold decode. simpl. by rewrite msg_roundtrip. }
  split; [apply stream_to_vec_all|]. apply process_loop_all; lia.
Qed.

(** The bytes themselves as messages. *)
#[export] Instance bytes_message : Message ByteArray := {| msg_encode := id; msg_decode := Ok |}.
#[export] Instance bytes_message_laws : MessageLaws ByteArray.
Proof. by split. Qed.

Lemma mock_stream_roundtrip_witness :
  ∃ fs, frames 3 (streaming_request [bytes "ab"; bytes ""]) = Some (Ok <$> fs) ∧ length fs = 2%nat.
Proof.
  destruct (mock_stream_roundtrip [bytes "ab"; bytes ""] []) as (fs & Hf & Hl & _).
  - repeat constructor.
  - vm_compute. discriminate.
  - exists fs. split; [exact Hf|exact Hl].
Defined.

Example mock_frame : encode (bytes "ab") = [Byte.x00; Byte.x00; Byte.x00; Byte.x00; Byte.x02; Byte.x61; Byte.x62].
Proof. vm_compute. reflexivity. Qed.

(** A message of 2^32 bytes or more gets the length it has modulo 2^32: its frame says that
    it is shorter than it is. *)
Lemma oversized_frame {M : Type} `{!Message M} (m : M) :
  u32_modulus ≤ Z.of_nat (length (msg_encode m)) →
  from_be_bytes (take 4 (drop 1 (encode m))) = Z.of_nat (length (msg_encode m)) mod u32_modulus ∧
  from_be_bytes (take 4 (drop 1 (encode m))) < Z.of_nat (length (msg_encode m)).
Proof.
  intros Hbig. rewrite encode_shape. rewrite skipn_cons, drop_0, take_app_length' by (by rewrite to_be_bytes_length).
  unfold to_be_bytes, from_be_bytes. rewrite reverse_involutive, from_to_le_bytes.
  pose proof (Z.mod_pos_bound (Z.of_nat (length (msg_encode m))) u32_modulus ltac:(done)) as Hmod.
  unfold as_u32. rewrite (Z.mod_small _ (256 ^ Z.of_nat 4)) by exact Hmod. split; [done|lia].
Qed.
