(* ===== verification/Services.v ===== *)
(** * Lease and maintenance services

    src/lease_service.rs and src/maintenance_service.rs: the lease service hands out ids
    from a counter and keeps no lease; the maintenance service reports on the store. The
    gauge of the stored bytes is a parameter. *)
From S2P Require Import Prelude Bytes BTreeMap BlockDeque Heap Types Wal Prefix History Store KvService.

(** ** Leases *)

Module Lease.
(** [LeaseService]; the store it also holds is never used. *)
Record LeaseService := mkLeaseService { lease_id : Z }.

Record LeaseGrantRequest := mkGrant { ttl : Z; id : Z }.
Record LeaseGrantResponse := mkGranted {
  granted_header : ResponseHeader;
  granted_id : Z;
  granted_ttl : Z;
  granted_error : string;
}.
Record LeaseKeepAliveResponse := mkKeptAlive {
  kept_header : ResponseHeader;
  kept_id : Z;
  kept_ttl : Z;
}.

Definition new : LeaseService := mkLeaseService 1.

(** [fetch_add] answers the counter before the addition, which wraps. *)
Definition lease_grant (s : LeaseService) (req : LeaseGrantRequest) :
    LeaseService * Result LeaseGrantResponse Status :=
  let '(s', granted) :=
    if id req =? 0 then (mkLeaseService (i64_add (lease_id s) 1), lease_id s) else (s, id req) in
  (s', Ok {| granted_header := header 1; granted_id := granted; granted_ttl := ttl req;
             granted_error := "" |}).

Definition lease_revoke (s : LeaseService) (req_id : Z) :
    LeaseService * Result ResponseHeader Status :=
  (s, Ok (header 2)).

Definition lease_time_to_live (s : LeaseService) : LeaseService * Result unit Status :=
  (s, Err (mkStatus Unimplemented "lease_time_to_live not implemented" [])).

Definition lease_leases (s : LeaseService) : LeaseService * Result unit Status :=
  (s, Err (mkStatus Unimplemented "lease_leases not implemented" [])).

(** The stream holds the one answer that was sent before the sender was dropped. *)
Definition lease_keep_alive (s : LeaseService) :
    LeaseService * Result (list (Result LeaseKeepAliveResponse Status)) Status :=
  (s, Ok [Ok {| kept_header := header 1; kept_id := 0; kept_ttl := 0 |}]).

(** ** Ids the service chose *)

(** The ids answered to a sequence of requests that leave the choice to the service. *)
Fixpoint grants (s : LeaseService) (ttls : list Z) : list Z :=
  match ttls with
  | [] => []
  | t :: ttls' =>
      match lease_grant s (mkGrant t 0) with
      | (s', Ok r) => granted_id r :: grants s' ttls'
      | (s', Err _) => grants s' ttls'
      end
  end.

Lemma grants_seq n ttls : 0 < n → n + Z.of_nat (length ttls) ≤ i64_max →
  grants (mkLeaseService n) ttls = seqZ n (Z.of_nat (length ttls)).
Proof.
  revert n. induction ttls as [|t ttls IH]; intros n Hn Hl; [done|].
  simpl length in *. rewrite seqZ_cons by lia. cbn [grants lease_grant id].
  change (lease_grant (mkLeaseService n) (mkGrant t 0)) with
    (mkLeaseService (i64_add n 1), Ok (E:=Status) (mkGranted (header 1) n t "")).
  simpl. rewrite i64_add_id by width. rewrite IH by lia. f_equal. f_equal; lia.
Qed.

(** Ids the service chooses are distinct and never zero, until the counter wraps. *)
Lemma granted_ids_distinct ttls : 1 + Z.of_nat (length ttls) ≤ i64_max →
  NoDup (grants new ttls) ∧ Forall (λ i, i ≠ 0) (grants new ttls).
Proof.
  intros Hl. unfold new. rewrite grants_seq by lia. split; [apply NoDup_seqZ|].
  apply Forall_forall. intros i Hi%elem_of_seqZ. lia.
Qed.

(** An id a client picked is not set aside: the service can hand it out again. *)
Example chosen_id_handed_out_twice :
  let '(s1, r1) := lease_grant new (mkGrant 10 1) in
  let '(_, r2) := lease_grant s1 (mkGrant 10 0) in
  match r1, r2 with
  | Ok a, Ok b => granted_id a = 1 ∧ granted_id b = 1
  | _, _ => False
  end.
Proof. vm_compute. done. Qed.
End Lease.

(** ** Maintenance *)

Module Maintenance.
Section handlers.
Context `{!BlockSize}.

(** [metrics::TREE_MAP_SIZE_BYTES.get()] *)
Variable tree_map_size_bytes : Z.

Record AlarmResponse := mkAlarm { alarm_header : ResponseHeader; alarms : list Z }.
Record StatusResponse := mkStatusResponse {
  status_header : ResponseHeader;
  status_version : string;
  db_size : Z;
  db_size_in_use : Z;
}.

Definition alarm : handler AlarmResponse := λ s,
  Ret (s, Ok {| alarm_header := header (current_revision s); alarms := [] |}).

Definition status : handler StatusResponse := λ s,
  Ret (s, Ok {| status_header := header (current_revision s); status_version := "3.5.16";
                db_size := tree_map_size_bytes; db_size_in_use := tree_map_size_bytes |}).

Definition defragment : handler ResponseHeader := λ s,
  Ret (s, Ok (header (current_revision s))).

(** [hash], [hash_kv], [snapshot], [move_leader] and [downgrade]. *)
Definition unimplemented (message : string) : handler unit := λ s,
  Ret (s, Err (mkStatus Unimplemented message [])).
End handlers.
End Maintenance.
