(* ===== verification/Server.v ===== *)
(** * The server (src/main.rs)

    What [main] puts together after start-up: the key-value, watch, lease and maintenance
    services on one store, in single-node or in Raft mode, and the metrics endpoint. A
    request is handled by its service; a watch stays open as a stream that takes turns
    later. The theorem is that the store of a running server goes through runs of its own
    operations only, so that what [StoreTrace], [Notify] and [Crash] show of such runs holds
    of the server. *)
From S2P Require Import Prelude Bytes BTreeMap BlockDeque Heap Types Wal Prefix History Store StoreSpec WatchSpec StoreTrace StoreProps Notify Metrics Recovery Raft Peers Startup KvService WatchService Services.

Import StoreTrace.

(** ** Requests *)

Inductive ApiRequest :=
| KvRange (req : RangeRequest)
| KvPut (req : PutRequest)
| KvDeleteRange (req : DeleteRangeRequest)
| KvTxn (req : TxnRequest)
| KvCompact (revision : Z)
(** A new watch stream with its first message, and a turn of the loop of an open one. *)
| WatchOpen (first : ClientMessage)
| WatchTurn (stream : nat) (i : Input)
| LeaseGrant (req : Lease.LeaseGrantRequest)
| LeaseRevoke (id : Z)
| LeaseTimeToLive
| LeaseLeases
| LeaseKeepAlive
| MaintAlarm
(** The gauge of the stored bytes is read when the request comes. *)
| MaintStatus (tree_map_size_bytes : Z)
| MaintDefragment
| MaintHash | MaintHashKv | MaintSnapshot | MaintMoveLeader | MaintDowngrade
| GetMetrics
(** Entries that openraft has committed, applied between the requests of the clients. *)
| RaftEntries (entries : list RaftRequest).

Inductive ApiReply :=
| KvRanged (r : Result RangeResponse Status)
| KvWritten (r : Result PutResponse Status)
| KvDeleted (r : Result DeleteRangeResponse Status)
| KvTxnDone (r : Result TxnResponse Status)
| KvCompacted (r : Result ResponseHeader Status)
| WatchAnswer (r : Result (list WatchResponse) Status)
| LeaseGranted (r : Result Lease.LeaseGrantResponse Status)
| LeaseRevoked (r : Result ResponseHeader Status)
| LeaseRefused (r : Result unit Status)
| LeaseKept (r : Result (list (Result Lease.LeaseKeepAliveResponse Status)) Status)
| MaintAlarms (r : Result Maintenance.AlarmResponse Status)
| MaintStatusIs (r : Result Maintenance.StatusResponse Status)
| MaintDone (r : Result ResponseHeader Status)
| MaintRefused (r : Result unit Status)
| Metrics (m : Scrape)
| RaftApplied.

(** What the services share: the store, the counter of the lease service and the streams
    that were opened, [None] once ended. *)
Record Server := mkServer {
  sv_store : Store;
  sv_lease : Lease.LeaseService;
  sv_streams : list (option Session);
}.

Definition server_new (s : Store) : Server := mkServer s Lease.new [].

(** ** Handling a request *)

(** The state machine on entries that carry requests. *)
Fixpoint apply_requests `{!BlockSize} (s : Store) (reqs : list RaftRequest) : outcome Store :=
  match reqs with
  | [] => Ret s
  | req :: reqs' => r ← StateMachine.apply_request s req; apply_requests r.1 reqs'
  end.

Section server.
Context `{!BlockSize} (raft : option RaftNode).

(** A handler of the store answers and leaves the rest of the server alone. *)
Definition on_handler {A} (v : Server) (m : handler A) (answer : Result A Status → ApiReply) :
    outcome (Server * ApiReply) :=
  r ← m (sv_store v); Ret (mkServer r.1 (sv_lease v) (sv_streams v), answer r.2).

Definition on_lease {A} (v : Server) (r : Lease.LeaseService * Result A Status)
    (answer : Result A Status → ApiReply) : outcome (Server * ApiReply) :=
  Ret (mkServer (sv_store v) r.1 (sv_streams v), answer r.2).

Definition open_stream (v : Server) (first : ClientMessage) : outcome (Server * ApiReply) :=
  r ← watch_open first (sv_store v);
  Ret match r.2 with
      | Err e => (mkServer r.1 (sv_lease v) (sv_streams v), WatchAnswer (Err e))
      | Ok (responses, session) =>
          (mkServer r.1 (sv_lease v) (sv_streams v ++ [session]), WatchAnswer (Ok responses))
      end.

(** A turn of a stream that has ended, or was never opened, does not happen. *)
Definition turn_stream (v : Server) (n : nat) (i : Input) : Server * ApiReply :=
  match sv_streams v !! n with
  | Some (Some sess) =>
      let '(s', sess', responses) := watch_step (sv_store v) sess i in
      (mkServer s' (sv_lease v) (<[n := sess']> (sv_streams v)), WatchAnswer (Ok responses))
  | _ => (v, WatchAnswer (Ok []))
  end.

Definition handle (v : Server) (req : ApiRequest) : outcome (Server * ApiReply) :=
  match req with
  | KvRange req => on_handler v (kv_range req) KvRanged
  | KvPut req => on_handler v (kv_put raft req) KvWritten
  | KvDeleteRange req => on_handler v (kv_delete_range raft req) KvDeleted
  | KvTxn req => on_handler v (kv_txn raft req) KvTxnDone
  | KvCompact revision => on_handler v (kv_compact revision) KvCompacted
  | WatchOpen first => open_stream v first
  | WatchTurn n i => Ret (turn_stream v n i)
  | LeaseGrant req => on_lease v (Lease.lease_grant (sv_lease v) req) LeaseGranted
  | LeaseRevoke id => on_lease v (Lease.lease_revoke (sv_lease v) id) LeaseRevoked
  | LeaseTimeToLive => on_lease v (Lease.lease_time_to_live (sv_lease v)) LeaseRefused
  | LeaseLeases => on_lease v (Lease.lease_leases (sv_lease v)) LeaseRefused
  | LeaseKeepAlive => on_lease v (Lease.lease_keep_alive (sv_lease v)) LeaseKept
  | MaintAlarm => on_handler v Maintenance.alarm MaintAlarms
  | MaintStatus size => on_handler v (Maintenance.status size) MaintStatusIs
  | MaintDefragment => on_handler v Maintenance.defragment MaintDone
  | MaintHash => on_handler v (Maintenance.unimplemented "hash not implemented") MaintRefused
  | MaintHashKv => on_handler v (Maintenance.unimplemented "hash_kv not implemented") MaintRefused
  | MaintSnapshot => on_handler v (Maintenance.unimplemented "snapshot not implemented") MaintRefused
  | MaintMoveLeader => on_handler v (Maintenance.unimplemented "move_leader not implemented") MaintRefused
  | MaintDowngrade => on_handler v (Maintenance.unimplemented "downgrade not implemented") MaintRefused
  | GetMetrics => Ret (v, Metrics (scrape (sv_store v)))
  | RaftEntries entries =>
      match raft with
      | Some _ => s' ← apply_requests (sv_store v) entries; Ret (mkServer s' (sv_lease v) (sv_streams v), RaftApplied)
      | None => Ret (v, RaftApplied)
      end
  end.

Fixpoint serve (v : Server) (reqs : list ApiRequest) : outcome (Server * list ApiReply) :=
  match reqs with
  | [] => Ret (v, [])
  | req :: reqs' => r ← handle v req; rs ← serve r.1 reqs'; Ret (rs.1, r.2 :: rs.2)
  end.
End server.

(** The tasks [main] spawns, each with the nanoseconds it sleeps first: the cluster is
    initialized with the peers, the leader is reported, requests in flight are counted and
    the metrics are served. *)
Inductive Task :=
| InitCluster (nodes : gmap Z ByteArray)
| ReportLeader (timeout : Z)
| EmitInFlight (period : Z)
| ServeMetrics.

Definition seconds (n : Z) : Z := n * 1000000000.

Definition spawned (cli : Cli) (config : option (Z * list (Z * ByteArray))) : list (Z * Task) :=
  match config with
  | Some (_, peers) =>
      (if raft_init cli then [(seconds 3, InitCluster (init_nodes peers))] else []) ++
      [(seconds 5, ReportLeader (seconds 15)); (0, EmitInFlight (seconds 5)); (0, ServeMetrics)]
  | None => [(0, ServeMetrics); (0, EmitInFlight (seconds 5))]
  end.

(** [main]: the store is started, and in Raft mode the node that [create_grpc_raft_node]
    makes goes to the key-value service. *)
Definition main `{!BlockSize} (raft_node : Z → list (Z * ByteArray) → RaftNode) (cli : Cli)
    (entries : list DirEntry) (reqs : list ApiRequest) :
    outcome (Result (list (Z * Task) * (Server * list ApiReply)) StartError) :=
  b ← boot cli entries;
  match b with
  | Err e => Ret (Err e)
  | Ok (s, config) =>
      let raft := (λ c, raft_node c.1 c.2) <$> config in
      r ← serve raft (server_new s) reqs; Ret (Ok (spawned cli config, r))
  end.

(** ** Requests the server answers *)

(** Revisions are not negative, the bounds of a range are in order, the operation of a
    transaction is there, and at most [k] entries come at a time. *)
Definition request_ok (k : nat) (req : ApiRequest) : Prop :=
  match req with
  | KvRange r => bounds_ok (rr_key r) (rr_range_end r) ∧ 0 ≤ rr_revision r
  | KvTxn r => None ∉ txn_success r
  | WatchOpen (Message (Some (CreateRequest r))) => bounds_ok (wc_key r) (wc_range_end r)
  | RaftEntries entries => (length entries ≤ k)%nat
  | _ => True
  end.

(** ** What a request is to do *)

(** Operations of the store with their replies, in order. *)
Notation trace := (list (op * reply)).

Definition write_op (key : ByteArray) (new : option ByteArray) (required : option SetRequired) : op :=
  match new with Some v => OPut key v required | None => ODelete key required end.

(** The read of a key before it is written. *)
Definition get_op (key : ByteArray) : op := ORange key [] 0 (Some 1).

(** What the state machine does for a request, and the revision it answers. *)
Definition entry_op (req : RaftRequest) : op :=
  match req with RaftSet key value => OPut key value None | RaftDelete key => ODelete key None end.

Definition write_revision (x : Result Z SetError) : Z := match x with Ok rev => rev | Err e => e.1 end.

(** Entries of other clients may be applied with a write that goes through Raft. *)
Definition entries_only (t : trace) : Prop := ∃ reqs, t.*1 = entry_op <$> reqs.

(** A write through Raft: when it succeeds it was applied, among others, and its revision is
    the answer. *)
Definition proposed (o : op) (t : trace) (r : Result Z Status) : Prop :=
  match r with
  | Ok rev => ∃ before after x, t = before ++ [(o, RWrite x)] ++ after ∧
      entries_only before ∧ entries_only after ∧ rev = write_revision x
  | Err _ => entries_only t
  end.

Definition range_response (req : RangeRequest) (res : RangeResult) : RangeResponse :=
  {| rresp_header := header (latest_rev res); rresp_kvs := kvs res;
     rresp_more := match range_limit req with
                   | None => false
                   | Some l => if rr_count_only req then false else as_i64 l <? count res
                   end;
     rresp_count := count res |}.

Definition range_does (req : RangeRequest) (t : trace) (r : Result RangeResponse Status) : Prop :=
  ∃ x, t = [(ORange (rr_key req) (rr_range_end req) (rr_revision req) (range_limit req), RRange x)] ∧
    r = match x with Ok res => Ok (range_response req res) | Err e => Err e end.

Definition result_ok {A E} (r : Result A E) : option A := match r with Ok x => Some x | Err _ => None end.

Definition result_map {A B} (f : A → B) (r : Result A Status) : Result B Status :=
  match r with Ok x => Ok (f x) | Err e => Err e end.

(** A put: the key is read when that is asked for; then, unless the value is to be kept and
    there is none, the write. Its revision is answered. *)
Definition put_does (raft : bool) (req : PutRequest) (t : trace) (r : Result PutResponse Status) : Prop :=
  ∃ reads prev,
    (if pr_prev_kv req || pr_ignore_value req
     then ∃ x, reads = [(get_op (pr_key req), RRange x)] ∧ prev = (λ res, head (kvs res)) <$> result_ok x
     else reads = [] ∧ prev = Some None) ∧
    match prev with
    | None => t = reads ∧ ∃ e, r = Err e
    | Some prev =>
        match (if pr_ignore_value req then kv_value <$> prev else Some (pr_value req)) with
        | None => t = reads ∧ r = Err (invalid_argument "ignore_value set but key does not exist")
        | Some value =>
            ∃ t' w, t = reads ++ t' ∧
              (if raft then proposed (OPut (pr_key req) value None) t' w
               else ∃ x, t' = [(OPut (pr_key req) value None, RWrite x)] ∧ ∀ rev, x = Ok rev → w = Ok rev) ∧
              r = result_map (λ rev, mkPutResponse (header rev) (if pr_prev_kv req then prev else None)) w
        end
    end.

(** A delete of one key reads it first; the answer tells whether it was there. *)
Definition delete_does (raft : bool) (req : DeleteRangeRequest) (t : trace) (r : Result DeleteRangeResponse Status) : Prop :=
  if decide (dr_range_end req = []) then
    ∃ x, match x with
         | Err e => t = [(get_op (dr_key req), RRange x)] ∧ r = Err e
         | Ok res =>
             ∃ t' w, t = (get_op (dr_key req), RRange x) :: t' ∧
               (if raft then proposed (ODelete (dr_key req) None) t' w
                else ∃ y, t' = [(ODelete (dr_key req) None, RWrite y)] ∧ w = Ok (write_revision y)) ∧
               r = result_map (λ rev, mkDeleteRangeResponse (header rev)
                     (Z.of_nat (length (option_list (head (kvs res)))))
                     (if dr_prev_kv req then option_list (head (kvs res)) else [])) w
         end
  else t = [] ∧ r = Err (invalid_argument "range end not supported in deleteRange").

(** The write of a transaction that is accepted: the compared key, with the new value, and
    whether it is a delete. *)
Definition success_plan (c : Compare) (op : TxnOp) : option (ByteArray * option ByteArray * bool) :=
  match op with
  | RequestPut put =>
      if bool_decide (pr_key put ≠ [] ∧ pr_key put = cmp_key c)
      then Some (pr_key put, Some (pr_value put), false) else None
  | RequestDeleteRange del =>
      if bool_decide (dr_key del ≠ [] ∧ dr_range_end del = [] ∧ dr_key del = cmp_key c)
      then Some (dr_key del, None, true) else None
  | _ => None
  end.

Definition txn_plan (req : TxnRequest) : option (SetRequired * (ByteArray * option ByteArray * bool)) :=
  match txn_compare req, txn_success req with
  | [c], [Some op] =>
      match txn_required c, txn_check_failure c (txn_failure req) with
      | Ok required, Ok _ => pair required <$> success_plan c op
      | _, _ => None
      end
  | _, _ => None
  end.

(** One conditional write of the store, whose result is answered. Through Raft, unless the
    node does not lead: a read, and when the condition holds of what it found a write without
    condition. *)
Definition success_does {A} (raft : bool) (key : ByteArray) (new : option ByteArray) (required : SetRequired)
    (f : Result Z SetError → A) (t : trace) (r : Result A Status) : Prop :=
  if raft then
    (t = [] ∧ ∃ e, r = Err e) ∨
    ∃ x t', t = (get_op key, RRange x) :: t' ∧
      match x with
      | Err e => t' = [] ∧ r = Err e
      | Ok res =>
          if check_compare (head (kvs res)) (Some required)
          then ∃ w, proposed (write_op key new None) t' w ∧ r = result_map (λ rev, f (Ok rev)) w
          else t' = [] ∧ r = Ok (f (Err (latest_rev res, head (kvs res))))
      end
  else ∃ x, t = [(write_op key new (Some required), RWrite x)] ∧ r = Ok (f x).

Definition txn_does (raft : bool) (req : TxnRequest) (t : trace) (r : Result TxnResponse Status) : Prop :=
  match txn_plan req with
  | None => t = [] ∧ ∃ e, r = Err e
  | Some (required, (key, new, is_delete)) =>
      success_does raft key new required (λ x, txn_response (txn_failure req) x is_delete) t r
  end.

Definition compact_does (revision : Z) (t : trace) (r : Result ResponseHeader Status) : Prop :=
  ∃ x, t = [(OCompact revision, RCompact x)] ∧ (is_ok r = is_ok x).

(** A stream begins with the watch of the store: its id, and the past as events. *)
Definition watch_does (first : ClientMessage) (t : trace) (rep : ApiReply) : Prop :=
  match first with
  | Message (Some (CreateRequest req)) =>
      ∃ x, t = [(OWatch (wc_key req) (wc_range_end req) (wc_start_revision req) (wc_prev_kv req), RWatch x)] ∧
        match x with
        | Err compact_revision => rep = WatchAnswer (Ok [mkWatchResponse 0 0 false compact_revision []])
        | Ok (past, id, _) => ∃ created rest, rep = WatchAnswer (Ok (created :: rest)) ∧
            wr_created created = true ∧ Forall (λ w, wr_watch_id w = id) (created :: rest) ∧
            sent_events (created :: rest) = event_of (wc_prev_kv req) <$> past
        end
  | _ => t = [] ∧ ∃ e, rep = WatchAnswer (Err e)
  end.

(** What a request does to the store, and what it answers. *)
Definition handled (raft : bool) (req : ApiRequest) (t : trace) (rep : ApiReply) : Prop :=
  match req with
  | KvRange req => ∃ r, rep = KvRanged r ∧ range_does req t r
  | KvPut req => ∃ r, rep = KvWritten r ∧ put_does raft req t r
  | KvDeleteRange req => ∃ r, rep = KvDeleted r ∧ delete_does raft req t r
  | KvTxn req => ∃ r, rep = KvTxnDone r ∧ txn_does raft req t r
  | KvCompact revision => ∃ r, rep = KvCompacted r ∧ compact_does revision t r
  | WatchOpen first => watch_does first t rep
  | WatchTurn _ _ => t = [] ∨ ∃ key id, t = [(OUnwatch key id, RUnit)]
  | RaftEntries entries => t.*1 = if raft then entry_op <$> entries else []
  | _ => t = []
  end.

(** ** Handlers as runs of the store's operations *)

(** There is room for [n] more operations. *)
Definition room (s : Store) (a : AStore) (n : nat) : Prop :=
  Z.of_nat (length (hist a)) + Z.of_nat n ≤ i64_max ∧ Z.of_nat (length (channels s)) + Z.of_nat n ≤ i64_max.

(** The store goes from [s] to [s'] by the operations of [t], at most [n], which are legal
    and of the kind [P]. *)
Record moves `{!BlockSize} (P : op → bool) (n : nat) (s : Store) (a : AStore) (t : trace) (s' : Store) : Prop := {
  mv_run : run s t.*1 = Ret (s', t.*2);
  mv_legal : legal_run a t.*1;
  mv_kind : Forall (λ o, P o = true) t.*1;
  mv_length : (length t ≤ n)%nat;
}.

(** A computation on a store in use answers; it moves the store by at most [n] operations,
    which stand to the answer as [Φ] says. *)
Definition does `{!BlockSize} (P : op → bool) {A} (n : nat) (m : Store → outcome (Store * A))
    (Φ : trace → A → Prop) : Prop :=
  ∀ s a, implements s a → hist a ≠ [] → room s a n →
    ∃ s' r t, m s = Ret (s', r) ∧ moves P n s a t s' ∧ Φ t r.

(** What openraft promises of [client_write]: it may apply entries of other clients with
    the one proposed, [k] in all at most, by the state machine and in order; and a success
    is the answer of the state machine to the entry proposed. *)
Definition applies_entries `{!BlockSize} (k : nat) (node : RaftNode) : Prop :=
  ∀ req s,
    (∃ entries e, (length entries ≤ k)%nat ∧
       client_write node req s = (s' ← apply_requests s entries; Ret (s', Err e))) ∨
    (∃ before after, (length before + (1 + length after) ≤ k)%nat ∧
       client_write node req s =
         (s1 ← apply_requests s before; r ← StateMachine.apply_request s1 req;
          s2 ← apply_requests r.1 after; Ret (s2, Ok r.2))).

Section runs.
Context `{!BlockSize} {P : op → bool}.
Implicit Types (s : Store) (a : AStore) (t : trace).

Lemma moves_refl s a n : moves P n s a [] s.
Proof. split; [done|done|constructor|simpl; lia]. Qed.

Lemma moves_mono s a t s' n m : (n ≤ m)%nat → moves P n s a t s' → moves P m s a t s'.
Proof. intros Hle [? ? ? ?]. split; try done. lia. Qed.

(** What is left after a move. *)
Lemma moves_implements s a t s' n m :
  implements s a → hist a ≠ [] → room s a (n + m) → moves P n s a t s' →
  ∃ a', implements s' a' ∧ hist a' ≠ [] ∧ room s' a' m ∧
    ∀ t' s'', moves P m s' a' t' s'' → moves P (n + m) s a (t ++ t') s''.
Proof.
  intros Hi Hne [Hh Hc] [Hrun Hleg Hno Hlen]. set (ops := t.*1) in *.
  assert (length ops = length t) as Hl1 by (unfold ops; by rewrite length_fmap).
  destruct (run_implements s a ops) as (s1 & rs1 & Hrun1 & Hi' & _); [done|done|lia|lia|].
  rewrite Hrun in Hrun1. injection Hrun1 as <- _.
  pose proof (run_channels s a ops s' _ Hi Hleg ltac:(lia) ltac:(lia) Hrun) as Hch.
  pose proof (final_length a ops) as Hl. pose proof (final_grows a ops) as Hg.
  exists (final a ops). split; [done|]. split.
  { intros E. rewrite E in Hg. by apply prefix_nil_inv in Hg. }
  split; [split; lia|].
  intros t' s'' [Hrun2 Hleg2 Hno2 Hlen2]. split; rewrite ?fmap_app, ?length_app; [|by apply legal_run_app|by apply Forall_app|lia].
  rewrite run_app. unfold ops in *. rewrite Hrun, bind_ret. simpl. by rewrite Hrun2, bind_ret.
Qed.

Lemma does_mono {A} n m (f : Store → outcome (Store * A)) Φ Ψ :
  (n ≤ m)%nat → (∀ t r, Φ t r → Ψ t r) → does P n f Φ → does P m f Ψ.
Proof.
  intros Hle HΦ Hf s a Hi Hne [Hh Hc]. destruct (Hf s a Hi Hne) as (s' & r & t & Hr & Hm & Ht); [split; lia|].
  exists s', r, t. split; [done|]. split; [by eapply moves_mono|by apply HΦ].
Qed.

Lemma does_still {A} n (m : Store → outcome (Store * A)) (Φ : trace → A → Prop) :
  (∀ s, ∃ r, m s = Ret (s, r) ∧ Φ [] r) → does P n m Φ.
Proof. intros Hm s a _ _ _. destruct (Hm s) as (r & Hr & Ht). exists s, r, []. split; [done|]. by split; [apply moves_refl|]. Qed.

Lemma does_answer {A} n (x : A) (Φ : trace → Result A Status → Prop) : Φ [] (Ok x) → does P n (answer x) Φ.
Proof. intros Hx. apply does_still. intros s. by eexists. Qed.

Lemma does_fail {A} n (e : Status) (Φ : trace → Result A Status → Prop) : Φ [] (Err e) → does P n (fail e) Φ.
Proof. intros Hx. apply does_still. intros s. by eexists. Qed.

Lemma does_ext {A} n (f g : Store → outcome (Store * A)) Φ : (∀ s, f s = g s) → does P n f Φ → does P n g Φ.
Proof. intros Heq Hf s a Hi Hne Hroom. rewrite <- Heq. by apply Hf. Qed.

Lemma does_seq {A B} n m (f : Store → outcome (Store * A)) (g : A → Store → outcome (Store * B)) Φ Ξ :
  does P n f Φ → (∀ x t, Φ t x → does P m (g x) (λ t' r, Ξ (t ++ t') r)) → does P (n + m) (λ s, r ← f s; g r.2 r.1) Ξ.
Proof.
  intros Hf Hg s a Hi Hne Hroom.
  destruct (Hf s a Hi Hne) as (s1 & x & t & Hr & Hm & Ht); [destruct Hroom; split; lia|].
  rewrite Hr, bind_ret. destruct (moves_implements _ _ _ _ _ _ Hi Hne Hroom Hm) as (a1 & Hi1 & Hne1 & Hroom1 & Hnext).
  destruct (Hg x t Ht s1 a1 Hi1 Hne1 Hroom1) as (s2 & r2 & t2 & Hr2 & Hm2 & Ht2).
  exists s2, r2, (t ++ t2). split; [done|]. split; [by apply Hnext|done].
Qed.

(** [?] *)
Lemma does_and_then {A B} n m (f : handler A) (g : A → handler B) Φ Ξ :
  does P n f Φ → (∀ x t, Φ t (Ok x) → does P m (g x) (λ t' r, Ξ (t ++ t') r)) →
  (∀ e t, Φ t (Err e) → Ξ t (Err e)) → does P (n + m) (and_then f g) Ξ.
Proof.
  intros Hf Hg He.
  apply (does_ext _ (λ s, r ← f s; (match r.2 with Ok x => g x | Err e => fail e end) r.1)).
  { intros s. unfold and_then. destruct (f s) as [[s' [x|e]]|]; by rewrite ?bind_ret. }
  apply (does_seq n m f (λ x, match x with Ok x => g x | Err e => fail e end) Φ Ξ Hf).
  intros [x|e] t Ht; [by apply Hg|]. apply does_fail. rewrite app_nil_r. by apply He.
Qed.

(** One operation, whatever is made of its reply. *)
Lemma does_op {A} o (m : Store → outcome (Store * A)) Φ :
  P o = true → (∀ a, hist a ≠ [] → legal a o) →
  (∀ s s' rep, step s o = Ret (s', rep) → ∃ r, m s = Ret (s', r) ∧ Φ [(o, rep)] r) → does P 1 m Φ.
Proof.
  intros Hno Hleg Hm s a Hi Hne [Hh Hc].
  destruct (step_implements s a o) as (s' & rep & Hs & _); [done|by apply Hleg|lia|lia|].
  destruct (Hm _ _ _ Hs) as (r & Hr & Ht). exists s', r, [(o, rep)]. split; [done|]. split; [|done].
  split; simpl; [by rewrite Hs, bind_ret|by split; [apply Hleg|]|by constructor|lia].
Qed.
End runs.

(** ** The services *)

(** Operations that leave the table of watchers alone, and those of them a service calls. *)
Definition keeps_table (o : op) : bool :=
  match o with OWatch _ _ _ _ | OUnwatch _ _ => false | _ => true end.

Definition quiet (o : op) : bool :=
  match o with OPut _ _ _ | ODelete _ _ | ORange _ _ _ _ | OCompact _ => true | _ => false end.

Section services.
Context `{!BlockSize}.
Implicit Types (s : Store) (a : AStore) (t : trace).

Lemma does_store_range start end_ rev limit :
  bounds_ok start end_ → 0 ≤ default usize_max limit → 0 ≤ rev →
  does quiet 1 (store_range start end_ rev limit) (λ t x, t = [(ORange start end_ rev limit, RRange x)]).
Proof.
  intros Hb Hl Hr. apply (does_op (ORange start end_ rev limit)); [done| |].
  - intros a Hne. split; [done|]. split; [done|]. destruct (decide (0 < rev)); [by left|right]. split; [lia|done].
  - intros s s' rep (r & Hs & [= <- <-])%bind_ret_inv. exists r. unfold store_range. by rewrite Hs.
Qed.

Lemma bounds_ok_key key : bounds_ok key [].
Proof.
  unfold bounds_ok, prefix_and_range_of_key. destruct (prefix_split key) as [p x]. simpl.
  unfold bad_bounds. simpl. by rewrite oltb_oleb, (proj2 (oleb_le x x) (ole_refl x)).
Qed.

Lemma does_get key : does quiet 1 (store_range key [] 0 (Some 1)) (λ t x, t = [(get_op key, RRange x)]).
Proof. apply does_store_range; [apply bounds_ok_key|simpl; lia|lia]. Qed.

Lemma does_set {A} key new required (f : Result Z SetError → A) :
  does quiet 1 (λ s, r ← set s key new required; Ret (r.1, f r.2))
    (λ t r, ∃ x, t = [(write_op key new required, RWrite x)] ∧ r = f x).
Proof.
  apply (does_op (write_op key new required)); [by destruct new|by destruct new|].
  intros s s' rep Hs. destruct new as [v|]; simpl in Hs;
    apply bind_ret_inv in Hs as ([s1 r] & Hs & [= <- <-]); exists (f r).
  - rewrite Hs. eauto.
  - unfold delete_key in Hs. rewrite Hs. eauto.
Qed.

Lemma does_apply_request req :
  does quiet 1 (λ s, StateMachine.apply_request s req)
    (λ t rev, ∃ x, t = [(entry_op req, RWrite x)] ∧ rev = write_revision x).
Proof.
  unfold StateMachine.apply_request.
  destruct req as [key v|key]; [apply (does_set key (Some v) None write_revision)|apply (does_set key None None write_revision)].
Qed.

Lemma does_apply_requests {A} reqs (x : A) :
  does quiet (length reqs) (λ s, s' ← apply_requests s reqs; Ret (s', x)) (λ t r, r = x ∧ t.*1 = entry_op <$> reqs).
Proof.
  induction reqs as [|req reqs IH]; [apply does_still; intros s; by exists x|].
  apply (does_ext _ (λ s, r ← StateMachine.apply_request s req; (λ _ s1, s' ← apply_requests s1 reqs; Ret (s', x)) r.2 r.1)).
  { intros s. simpl. by destruct (StateMachine.apply_request s req) as [[s1 z]|]. }
  apply (does_seq 1 _ _ (λ _ s1, s' ← apply_requests s1 reqs; Ret (s', x)) _ _ (does_apply_request req)).
  intros z t (y & -> & _). eapply does_mono; [done| |exact IH]. intros t' r [-> Ht]. csimpl. by rewrite Ht.
Qed.

(** A proposed entry that was applied, with what came before and after it. *)
Lemma does_committed req before after :
  does quiet (length before + (1 + length after))
    (λ s, s1 ← apply_requests s before; r ← StateMachine.apply_request s1 req;
          s2 ← apply_requests r.1 after; Ret (s2, r.2))
    (λ t rev, ∃ t1 t2 x, t = t1 ++ [(entry_op req, RWrite x)] ++ t2 ∧
       entries_only t1 ∧ entries_only t2 ∧ rev = write_revision x).
Proof.
  apply (does_ext _ (λ s, r ← (s1 ← apply_requests s before; Ret (s1, tt));
    (λ _ s1, r ← StateMachine.apply_request s1 req;
       (λ rev s2, s3 ← apply_requests s2 after; Ret (s3, rev)) r.2 r.1) r.2 r.1)).
  { intros s. by destruct (apply_requests s before) as [s1|]. }
  apply (does_seq _ _ _ (λ _ s1, r ← StateMachine.apply_request s1 req;
    (λ rev s2, s3 ← apply_requests s2 after; Ret (s3, rev)) r.2 r.1) _ _ (does_apply_requests before tt)).
  intros _ t1 [_ Ht1].
  apply (does_seq 1 _ _ (λ rev s2, s3 ← apply_requests s2 after; Ret (s3, rev)) _ _ (does_apply_request req)).
  intros rev t (x & -> & ->). eapply does_mono; [done| |apply does_apply_requests].
  intros t2 r [-> Ht2]. exists t1, t2, x. split; [done|]. split; [by exists before|]. split; [by exists after|done].
Qed.
End services.

(** The handlers of a key-value service whose Raft node, if any, applies [k] entries at most
    for a write. *)
#[local] Open Scope etcd_scope.

Section handlers.
Context `{!BlockSize} (raft : option RaftNode) (k : nat).
Hypothesis Hraft : ∀ node, raft = Some node → applies_entries k node.

Notation raft_on := (bool_decide (is_Some raft)).

Lemma does_ensure_leader : does quiet 0 (ensure_leader raft) (λ t _, t = []).
Proof.
  unfold ensure_leader. destruct raft as [node|]; [|by apply does_answer].
  destruct (current_leader node); [|by apply does_fail]. destruct (_ =? _); [by apply does_answer|by apply does_fail].
Qed.

Lemma does_raft_write req : does quiet k (raft_write raft req) (proposed (entry_op req)).
Proof.
  unfold raft_write. destruct raft as [node|] eqn:E; [|apply does_fail; by exists []].
  intros s a Hi Hne [Hh Hc].
  destruct (Hraft node eq_refl req s) as [(entries & e & Hlen & ->)|(before & after & Hlen & ->)].
  - destruct (does_apply_requests entries (Err (A:=Z) e) s a Hi Hne) as (s' & r & t & Hr & Hm & -> & Ht); [split; lia|].
    eexists s', _, t. rewrite Hr, bind_ret. split; [done|]. split; [by eapply moves_mono|by exists entries].
  - destruct (does_committed req before after s a Hi Hne) as (s' & r & t & Hr & Hm & t1 & t2 & x & -> & H1 & H2 & ->);
      [split; lia|].
    eexists s', (Ok (write_revision x)), _. split; [|split; [by eapply moves_mono|by exists t1, t2, x]].
    destruct (apply_requests s before) as [s1|]; [|done]. rewrite !bind_ret in *.
    destruct (StateMachine.apply_request s1 req) as [[s2 z]|]; [|done]. rewrite !bind_ret in *. simpl in *.
    destruct (apply_requests s2 after) as [s3|]; [|done]. rewrite !bind_ret in *. by injection Hr as -> ->.
Qed.

Lemma does_proposed req :
  does quiet k (let? _ := ensure_leader raft in raft_write raft req) (proposed (entry_op req)).
Proof.
  apply (does_and_then 0 k _ _ (λ t _, t = [])); [apply does_ensure_leader| |intros e t ->; by exists []].
  intros _ t ->. apply does_raft_write.
Qed.

Lemma does_kv_range req :
  bounds_ok (rr_key req) (rr_range_end req) → 0 ≤ rr_revision req → does quiet (k + 2) (kv_range req) (range_does req).
Proof.
  intros Hb Hr. eapply (does_mono (1 + 0)); [lia|by intros t r Ht|].
  eapply does_and_then; [apply does_store_range; [done| |done]| |].
  - unfold range_limit. destruct (rr_count_only req); [done|].
    destruct (_ =? 0); simpl; [width|]. unfold as_usize. apply Z.mod_pos_bound. width.
  - intros x t ->. apply does_answer. by exists (Ok x).
  - intros e t ->. by exists (Err e).
Qed.

Lemma does_kv_put req : does quiet (k + 2) (kv_put raft req) (put_does raft_on req).
Proof.
  pose proof does_proposed as Hp. unfold kv_put. apply (does_mono (1 + (0 + ((k + 1) + 0))) _ _ (put_does raft_on req)); [lia|done|].
  set (Φ := λ t (r : Result (option KeyValue) Status),
    if pr_prev_kv req || pr_ignore_value req
    then ∃ x, t = [(get_op (pr_key req), RRange x)] ∧
      match x with Ok res => r = Ok (head (kvs res)) | Err e => r = Err e end
    else t = [] ∧ r = Ok None).
  apply (does_and_then _ _ _ _ Φ); unfold Φ.
  { destruct (_ || _); [|by apply does_answer]. eapply (does_and_then 1 0); [apply does_get| |].
    - intros x t ->. apply does_answer. by exists (Ok x).
    - intros e t ->. by exists (Err e). }
  2: { intros e t Ht. destruct (_ || _) eqn:Eb; [|by destruct Ht]. destruct Ht as (x & -> & Hx).
       exists [(get_op (pr_key req), RRange x)], None. rewrite Eb. split; [|by split; [|exists e]].
       exists x. split; [done|]. by destruct x. }
  intros prev reads Hreads.
  assert (∃ p, (if pr_prev_kv req || pr_ignore_value req
     then ∃ x, reads = [(get_op (pr_key req), RRange x)] ∧ p = (λ res, head (kvs res)) <$> result_ok x
     else reads = [] ∧ p = Some None) ∧ p = Some prev) as (p & Hpre & ->).
  { exists (Some prev). split; [|done]. destruct (_ || _); [|by destruct Hreads as [-> [= ->]]].
    destruct Hreads as ([res|e] & -> & Hx); [|done]. injection Hx as ->. by exists (Ok res). }
  eapply (does_and_then _ _ _ _ (λ t r, t = [] ∧
    match (if pr_ignore_value req then kv_value <$> prev else Some (pr_value req)) with
    | Some v => r = Ok v
    | None => r = Err (invalid_argument "ignore_value set but key does not exist")
    end)).
  { destruct (pr_ignore_value req); [|by apply does_answer]. destruct prev; [by apply does_answer|by apply does_fail]. }
  2: { intros e t [-> He]. exists reads, (Some prev). split; [done|]. rewrite app_nil_r.
       destruct (if pr_ignore_value req then kv_value <$> prev else Some (pr_value req)); [done|].
       injection He as ->. done. }
  intros v t [-> Hv]. simpl.
  assert ((if pr_ignore_value req then kv_value <$> prev else Some (pr_value req)) = Some v) as Hval.
  { destruct (if pr_ignore_value req then _ else _); [by injection Hv as ->|done]. }
  eapply (does_and_then _ _ _ _ (λ t w, if raft_on then proposed (OPut (pr_key req) v None) t w else
    ∃ x, t = [(OPut (pr_key req) v None, RWrite x)] ∧ ∀ rev, x = Ok rev → w = Ok rev)).
  - destruct raft as [node|]; simpl.
    + eapply (does_mono k); [lia| |apply (Hp (RaftSet _ v))]. done.
    + eapply (does_mono 1); [lia| |apply (does_set _ (Some v) None (λ r, match r with Ok rev => Ok rev | Err e => _ end))].
      intros t r (x & -> & ->). exists x. split; [done|]. by intros rev ->.
  - intros rev t Ht. apply does_answer. rewrite app_nil_r. exists reads, (Some prev). split; [done|]. rewrite Hval.
    by exists t, (Ok rev).
  - intros e t Ht. exists reads, (Some prev). split; [done|]. rewrite Hval. by exists t, (Err e).
Qed.

Lemma does_kv_delete_range req : does quiet (k + 2) (kv_delete_range raft req) (delete_does raft_on req).
Proof.
  pose proof does_proposed as Hp. unfold kv_delete_range, delete_does.
  destruct (decide (dr_range_end req = [])) as [Hend|Hend].
  2: { rewrite bool_decide_true by done. by apply does_fail. }
  rewrite bool_decide_false by (intros Hn; by apply Hn).
  eapply (does_mono (1 + ((k + 1) + 0))); [lia|intros t r Ht; exact Ht|].
  eapply does_and_then; [apply does_get| |intros e t ->; by exists (Err e)].
  intros res t ->. eapply (does_and_then _ _ _ _ (λ t w, if raft_on then proposed (ODelete (dr_key req) None) t w else
    ∃ y, t = [(ODelete (dr_key req) None, RWrite y)] ∧ w = Ok (write_revision y))).
  - destruct raft as [node|]; simpl.
    + eapply (does_mono k); [lia| |apply (Hp (RaftDelete _))]. done.
    + eapply (does_mono 1); [lia| |apply (does_set _ None None (λ r, Ok (write_revision r)))]. done.
  - intros rev t Ht. apply does_answer. rewrite app_nil_r. exists (Ok res), t, (Ok rev). split; [done|]. split; [done|].
    simpl. by destruct (head (kvs res)).
  - intros e t Ht. exists (Ok res), t, (Err e). done.
Qed.

Lemma does_txn_write key new req required :
  entry_op req = write_op key new None →
  does quiet (k + 1) (txn_write raft key new req required) (success_does raft_on key new required id).
Proof.
  intros Hreq. pose proof does_ensure_leader as Hl. pose proof does_raft_write as Hw. unfold txn_write, success_does.
  destruct raft as [node|]; simpl.
  - eapply (does_mono (0 + (1 + (k + 0)))); [lia|intros t r Ht; exact Ht|].
    eapply does_and_then; [apply Hl| |intros e t ->; left; by eauto].
    intros _ t ->. eapply does_and_then; [apply does_get| |].
    2: { intros e t ->. right. by exists (Err e), []. }
    intros x t ->. destruct (check_compare _ _) eqn:Hc; simpl.
    + eapply does_and_then; [apply Hw| |].
      * intros rev t Ht. apply does_answer. rewrite app_nil_r. right. exists (Ok x), t. split; [done|]. rewrite Hc.
        exists (Ok rev). by rewrite <- Hreq.
      * intros e t Ht. right. exists (Ok x), t. split; [done|]. rewrite Hc. exists (Err e). by rewrite <- Hreq.
    + apply does_answer. right. exists (Ok x), []. split; [done|]. by rewrite Hc.
  - eapply (does_mono 1); [lia| |apply (does_set key new (Some required) Ok)]. done.
Qed.

(** The result of a write, put in an answer. *)
Lemma does_success_map {A B} n key new required (m : handler A) (f : Result Z SetError → A) (g : A → B) :
  does quiet n m (success_does raft_on key new required f) →
  does quiet n (let? x := m in answer (g x)) (success_does raft_on key new required (g ∘ f)).
Proof.
  intros Hm. eapply (does_mono (n + 0)); [lia|intros t r Ht; exact Ht|].
  assert (∀ t (r : Result A Status), success_does raft_on key new required f t r →
    success_does raft_on key new required (g ∘ f) t (result_map g r)) as Hmap.
  { intros t r. unfold success_does. destruct (bool_decide _); [|by intros (x & -> & ->); exists x].
    intros [[-> [e ->]]|(x & t' & -> & Hx)]; [left; by eauto|right]. exists x, t'. split; [done|].
    destruct x as [res|e]; [|by destruct Hx as [-> ->]]. destruct (check_compare _ _); [|by destruct Hx as [-> ->]].
    destruct Hx as (w & Hw & ->). exists w. split; [done|]. by destruct w. }
  eapply does_and_then; [exact Hm| |].
  - intros x t Ht. apply does_answer. rewrite app_nil_r. by apply (Hmap t (Ok x)).
  - intros e t Ht. by apply (Hmap t (Err e)).
Qed.

Lemma does_txn_success_op c required op :
  match success_plan c op with
  | Some (key, new, is_delete) =>
      does quiet (k + 1) (txn_success_op raft c required op)
        (success_does raft_on key new required (λ x, (x, is_delete)))
  | None => ∃ e, txn_success_op raft c required op = fail e
  end.
Proof.
  destruct op as [rr|put|del|]; simpl; eauto.
  - destruct (decide (pr_key put = [])) as [H1|H1];
      [rewrite (bool_decide_true (_ = [])), bool_decide_false by naive_solver; by eauto|].
    rewrite (bool_decide_false (_ = [])) by done. destruct (decide (pr_key put = cmp_key c)) as [H2|H2];
      [|rewrite (bool_decide_true (_ ≠ _)), bool_decide_false by naive_solver; by eauto].
    rewrite (bool_decide_false (_ ≠ _)), bool_decide_true by naive_solver. by apply (does_success_map _ _ _ _ _ id (λ x, (x, false))), does_txn_write.
  - destruct (decide (dr_key del = [])) as [H1|H1];
      [rewrite (bool_decide_true (dr_key del = [])), bool_decide_false by naive_solver; by eauto|].
    rewrite (bool_decide_false (dr_key del = [])) by done. destruct (decide (dr_range_end del = [])) as [H2|H2];
      [|rewrite (bool_decide_true (dr_range_end del ≠ _)), bool_decide_false by naive_solver; by eauto].
    rewrite (bool_decide_false (dr_range_end del ≠ _)) by naive_solver. destruct (decide (dr_key del = cmp_key c)) as [H3|H3];
      [|rewrite (bool_decide_true (dr_key del ≠ _)), bool_decide_false by naive_solver; by eauto].
    rewrite (bool_decide_false (dr_key del ≠ _)), bool_decide_true by naive_solver. by apply (does_success_map _ _ _ _ _ id (λ x, (x, true))), does_txn_write.
Qed.

Lemma does_kv_txn req : None ∉ txn_success req → does quiet (k + 2) (kv_txn raft req) (txn_does raft_on req).
Proof.
  intros Hs. unfold kv_txn, txn_does, txn_plan.
  destruct (txn_compare req) as [|c [|]]; try (apply does_fail; by eauto).
  destruct (txn_required c) as [required|er] eqn:Ereq.
  2: { apply does_fail. destruct (txn_success req) as [|[op|] [|]]; eauto. }
  destruct (txn_success req) as [|[op|] [|]]; try (apply does_fail; by eauto); [|by destruct Hs; constructor].
  destruct (txn_check_failure c (txn_failure req)) as [[]|ef] eqn:Ef; [|apply does_fail; by eauto].
  eapply (does_mono (0 + (k + 1))); [lia|intros t r Ht; exact Ht|].
  eapply (does_and_then _ _ _ _ (λ t r, t = [] ∧ r = Ok op)); [apply does_still; intros s; by eexists| |by intros e t [_ [=]]].
  intros op' t [-> [= ->]]. simpl. pose proof (does_txn_success_op c required op) as Hop.
  destruct (success_plan c op) as [[[key new] b]|]; simpl.
  - by eapply (does_mono (k + 1)); [lia| |apply does_success_map, Hop].
  - destruct Hop as [e ->]. apply does_still. intros s. eexists. split; [done|]. by eauto.
Qed.

Lemma does_kv_compact rev : does quiet (k + 2) (kv_compact rev) (compact_does rev).
Proof.
  apply (does_mono 1 _ _ (compact_does rev)); [lia|done|]. apply (does_op (OCompact rev)); [done|done|].
  intros s s' rep ([s1 r] & Hs & [= <- <-])%bind_ret_inv. unfold kv_compact. rewrite Hs, bind_ret. simpl.
  destruct r as [u|e]; eexists; (split; [done|]); by eexists.
Qed.

(** ** Streams *)

(** The answer a stream is opened with. *)
Definition open_reply (r : Result (list WatchResponse * option Session) Status) : ApiReply :=
  match r with Ok (out, _) => WatchAnswer (Ok out) | Err e => WatchAnswer (Err e) end.

Lemma does_watch_open first :
  request_ok k (WatchOpen first) →
  does no_replay (k + 2) (watch_open first) (λ t r, watch_does first t (open_reply r)).
Proof.
  intros Hok. eapply (does_mono 1); [lia|intros t r Ht; exact Ht|].
  destruct first as [e| |[[req|id|]|]]; try (apply does_still; intros s; eexists; (split; [done|]); split; by eauto).
  apply (does_op (OWatch (wc_key req) (wc_range_end req) (wc_start_revision req) (wc_prev_kv req))); [done| |].
  { intros a _. exact Hok. }
  intros s s' rep ([s1 r] & Hs & [= <- <-])%bind_ret_inv. unfold watch_open. rewrite Hs, bind_ret. simpl.
  destruct r as [[[past id] c]|]; (eexists; split; [done|]); eexists; (split; [done|]); [|done].
  simpl. eexists _, _. split; [done|]. split; [done|]. split; [by destruct past; repeat constructor|].
  destruct past; [done|]. unfold sent_events. csimpl. by rewrite app_nil_r.
Qed.

Lemma does_watch_step sess i :
  does no_replay 1 (λ s, let '(s', sess', out) := watch_step s sess i in Ret (s', (sess', out)))
    (λ t _, t = [] ∨ ∃ key id, t = [(OUnwatch key id, RUnit)]).
Proof.
  assert (∀ r, does no_replay 1
    (λ s, Ret (unwatch s (sess_key sess) (sess_id sess), (None : option Session, r : list WatchResponse)))
    (λ t _, t = [] ∨ ∃ key id, t = [(OUnwatch key id, RUnit)])) as Hun.
  { intros r. apply (does_op (OUnwatch (sess_key sess) (sess_id sess))); [done|done|].
    intros s s' rep [= <- <-]. eexists. split; [done|]. right. by eauto. }
  destruct i as [[|c l]|[e| |[[req|id|]|]]]; simpl; try apply Hun;
    try (apply does_still; intros s; eexists; split; [done|by left]).
  - destruct (last _); apply does_still; intros s; eexists; (split; [done|by left]).
  - destruct (id =? _); [apply Hun|]. apply does_still; intros s; eexists; split; [done|by left].
Qed.
End handlers.
(** ** Streams and the table of watchers *)

Lemma bt_insert_fresh {K V} `{!Ord K, !OrdLaws K} (m : BTreeMap K V) (k : K) (v : V) :
  k ∉ m.*1 → (bt_insert m k v).*1 ≡ₚ k :: m.*1.
Proof.
  induction m as [|[k' v'] m IH]; simpl; [done|]. intros [Hne Hn]%not_elem_of_cons.
  destruct (cmp k k') eqn:E; simpl; [by apply cmp_eq in E|done|]. rewrite IH by done. by rewrite perm_swap.
Qed.

Lemma bt_remove_present {K V} `{!Ord K, !OrdLaws K} (m : BTreeMap K V) (k : K) :
  bt_wf m → k ∈ m.*1 → m.*1 ≡ₚ k :: (bt_remove m k).*1.
Proof.
  induction m as [|[k' v'] m IH]; simpl; [by intros _ ?%elem_of_nil|]. rewrite bt_wf_cons. intros [Hwf Hall].
  rewrite elem_of_cons. destruct (cmp k k') eqn:E; simpl.
  - apply cmp_eq in E as ->. done.
  - intros [->|Hin]; [by rewrite cmp_refl in E|]. rewrite Forall_forall in Hall.
    destruct (olt_antisym k k'); [exact E|by apply Hall].
  - intros [->|Hin]; [by rewrite cmp_refl in E|]. rewrite perm_swap. by rewrite <- IH.
Qed.

Definition stream_key (o : option Session) : option (ByteArray * Z) :=
  (λ sess, (sess_key sess, sess_id sess)) <$> o.

(** The watchers of the store are those of the open streams. *)
Definition streams_ok (v : Server) : Prop :=
  omap stream_key (sv_streams v) ≡ₚ (watchers (sv_store v)).*1.

(** A watch of the past whose range the store does not support leaves its watcher behind. *)
Definition leaves_no_watcher (req : ApiRequest) : bool :=
  match req with
  | WatchOpen (Message (Some (CreateRequest r))) =>
      (wc_start_revision r <=? 0) ||
      match prefix_and_range_of_key (wc_key r) (wc_range_end r) with Ok _ => true | Err _ => false end
  | _ => true
  end.

Section streams.
Context `{!BlockSize}.

Lemma table_run_same s ops s' rs :
  run s ops = Ret (s', rs) → Forall (λ o, keeps_table o = true) ops → same_watchers s s'.
Proof.
  revert s rs. induction ops as [|o ops IH]; intros s rs; simpl; [by intros [= <- _]|].
  intros ([s1 r] & Hs & ([s2 rs2] & Hrun & [= <- _])%bind_ret_inv)%bind_ret_inv [Ho Hall]%Forall_cons.
  destruct (IH _ _ Hrun Hall) as (Ew & Ec & Eh). simpl in Ew, Ec, Eh.
  assert (same_watchers s s1) as (Fw & Fc & Fh); [|by split_and!; congruence].
  destruct o; simpl in Hs; try done; apply bind_ret_inv in Hs as (x & Hx & [= <- _]).
  - destruct x. by eapply set_same.
  - destruct x. unfold delete_key in Hx. by eapply set_same.
  - by eapply set_for_replay_same.
  - done.
  - destruct x. by eapply compact_same.
Qed.

(** A watch adds one watcher, under a new id, unless it fails. *)
Lemma watch_streams s start end_ rev want s' r :
  watchers_wf s → Z.of_nat (length (channels s)) < i64_max → watch s start end_ rev want = Ret (s', r) →
  (rev <=? 0) || (match prefix_and_range_of_key start end_ with Ok _ => true | Err _ => false end) = true →
  match r with
  | Ok (_, id, _) => (watchers s').*1 ≡ₚ (start, id) :: (watchers s).*1
  | Err _ => s' = s
  end.
Proof.
  intros Hwf Hlt Hw Hok.
  assert ((start, i64_add (watch_counter s) 1) ∉ (watchers s).*1) as Hfresh.
  { intros ([[k id] w] & Heq & Hin)%list_elem_of_fmap. injection Heq as <- <-.
    destruct (watchers_wf_count s {| queue := []; rx_open := true |} Hwf Hlt) as [Hid _].
    destruct (ww_entry _ Hwf _ _ _ Hin) as (_ & Heq & Hl). lia. }
  unfold watch in Hw. destruct (_ && _); [by injection Hw as <- <-|].
  destruct (0 <? rev) eqn:Er; [|injection Hw as <- <-; by apply bt_insert_fresh].
  rewrite (proj2 (Z.leb_gt _ _)) in Hok by lia. simpl in Hok.
  destruct (prefix_and_range_of_key _ _) as [[p b]|]; [|done]. simpl in Hw.
  destruct (prefix_map s !! p); [|injection Hw as <- <-; by apply bt_insert_fresh].
  apply bind_ret_inv in Hw as (es & _ & (cs & _ & [= <- <-])%bind_ret_inv). by apply bt_insert_fresh.
Qed.

Lemma omap_insert_stream (l : list (option Session)) n o o' :
  l !! n = Some o → ∃ l', omap stream_key l ≡ₚ option_list (stream_key o) ++ l' ∧
    omap stream_key (<[n := o']> l) ≡ₚ option_list (stream_key o') ++ l'.
Proof.
  intros Hn. exists (omap stream_key (take n l ++ drop (S n) l)).
  rewrite insert_take_drop by (by eapply lookup_lt_Some). rewrite <- (take_drop_middle l n o Hn) at 1.
  rewrite !omap_app. csimpl. destruct (stream_key o), (stream_key o'); simpl; rewrite <- ?Permutation_middle; done.
Qed.

Lemma turn_streams v n i : watchers_wf (sv_store v) → streams_ok v → streams_ok (turn_stream v n i).1.
Proof.
  intros Hwf Hok. unfold turn_stream. destruct (sv_streams v !! n) as [[sess|]|] eqn:Hn; try done.
  assert (∃ s' sess' out, watch_step (sv_store v) sess i = (s', sess', out) ∧
    (sess' = None ∧ s' = unwatch (sv_store v) (sess_key sess) (sess_id sess) ∨
     stream_key sess' = stream_key (Some sess) ∧ s' = sv_store v)) as (s' & sess' & out & -> & Hcase).
  { destruct i as [[|c l]|[e| |[[req|id|]|]]]; simpl; try (by eexists _, _, _; split; [done|]; (by left) || by right).
    - destruct (last _); eexists _, _, _; (split; [done|]); by right.
    - destruct (id =? _); eexists _, _, _; (split; [done|]); [by left|by right]. }
  unfold streams_ok in *. simpl. destruct (omap_insert_stream _ n (Some sess) sess' Hn) as (l' & Hl & ->).
  rewrite Hl in Hok. destruct Hcase as [[-> ->]|[-> ->]]; [|exact Hok]. simpl in *.
  apply (Permutation_cons_inv (a := (sess_key sess, sess_id sess))). rewrite Hok.
  apply bt_remove_present; [apply Hwf|]. rewrite <- Hok. by left.
Qed.
End streams.

(** ** Serving *)

Section serving.
Context `{!BlockSize} (raft : option RaftNode) (k : nat).
Hypothesis Hraft : ∀ node, raft = Some node → applies_entries k node.

Notation raft_on := (bool_decide (is_Some raft)).

Lemma quiet_moves n s a t s' : moves quiet n s a t s' → moves no_replay n s a t s' ∧ same_watchers s s'.
Proof.
  intros [Hrun Hleg Hq Hlen]. split.
  - split; try done. eapply Forall_impl; [exact Hq|]. by intros [].
  - eapply table_run_same; [done|]. eapply Forall_impl; [exact Hq|]. by intros [].
Qed.

(** What a request comes to. *)
Definition served (v : Server) (a : AStore) (req : ApiRequest) (x : outcome (Server * ApiReply)) : Prop :=
  ∃ v' rep t, x = Ret (v', rep) ∧ moves no_replay (k + 2) (sv_store v) a t (sv_store v') ∧ handled raft_on req t rep ∧
    (leaves_no_watcher req = true → streams_ok v → streams_ok v').

Lemma on_handler_served {A} v a req (m : handler A) ans Φ :
  does quiet (k + 2) m Φ → (∀ t r, Φ t r → handled raft_on req t (ans r)) →
  implements (sv_store v) a → hist a ≠ [] → room (sv_store v) a (k + 2) → served v a req (on_handler v m ans).
Proof.
  intros Hm HΦ Hi Hne Hroom. destruct (Hm _ _ Hi Hne Hroom) as (s' & r & t & Hr & [Hmv (Hw & _)]%quiet_moves & Ht).
  unfold on_handler. rewrite Hr, bind_ret. eexists _, _, t. split; [done|]. split; [done|]. split; [by apply HΦ|].
  intros _ Hok. unfold streams_ok in *. simpl. by rewrite Hw.
Qed.

(** A stream is opened on the watcher the store has registered. *)
Lemma open_streams v a first s' out sess :
  implements (sv_store v) a → room (sv_store v) a (k + 2) → leaves_no_watcher (WatchOpen first) = true →
  watch_open first (sv_store v) = Ret (s', Ok (out, sess)) → streams_ok v →
  streams_ok (mkServer s' (sv_lease v) (sv_streams v ++ [sess])).
Proof.
  intros Hi [_ Hch] Hl Hr Hok. unfold streams_ok in *. simpl. rewrite omap_app.
  destruct first as [e'| |[[req|id|]|]]; simpl in Hr; try done.
  apply bind_ret_inv in Hr as ([s1 [[[past id] c]|e']] & Hw & Hx); injection Hx as <- <- <-; simpl;
    pose proof (watch_streams _ _ _ _ _ _ _ (im_watchers _ _ Hi) ltac:(lia) Hw Hl) as Hs.
  - rewrite Hs, <- Hok. by rewrite Permutation_app_comm.
  - simpl in Hs. rewrite Hs. by rewrite app_nil_r.
Qed.

Lemma open_stream_served v a first :
  request_ok k (WatchOpen first) → implements (sv_store v) a → hist a ≠ [] → room (sv_store v) a (k + 2) →
  served v a (WatchOpen first) (open_stream v first).
Proof.
  intros Hreq Hi Hne Hroom. destruct (does_watch_open k first Hreq _ _ Hi Hne Hroom) as (s' & r & t & Hr & Hm & Ht).
  unfold open_stream. rewrite Hr, bind_ret. destruct r as [[out sess]|e]; simpl.
  - eexists _, _, t. split; [done|]. split; [done|]. split; [done|]. intros Hl Hok. by eapply open_streams.
  - eexists _, _, t. split; [done|]. split; [done|]. split; [done|]. intros _ Hok. unfold streams_ok in *. simpl.
    destruct first as [e'| |[[req|id|]|]]; simpl in Hr; try by injection Hr as <- _.
    apply bind_ret_inv in Hr as ([s1 [[[past id] c]|e']] & _ & Hx); by injection Hx.
Qed.

Lemma turn_stream_served v a n i :
  implements (sv_store v) a → hist a ≠ [] → room (sv_store v) a (k + 2) →
  served v a (WatchTurn n i) (Ret (turn_stream v n i)).
Proof.
  intros Hi Hne [Hh Hc]. pose proof (turn_streams v n i (im_watchers _ _ Hi)) as Hs.
  destruct (turn_stream v n i) as [v' rep] eqn:E. unfold turn_stream in E.
  destruct (sv_streams v !! n) as [[sess|]|];
    try (injection E as <- <-; eexists _, _, []; split; [done|]; split; [apply moves_refl|]; split; [by left|done]).
  destruct (does_watch_step sess i (sv_store v) a Hi Hne) as (s' & r & t & Hr & Hm & Ht); [split; lia|].
  destruct (watch_step (sv_store v) sess i) as [[s1 sess1] out]. injection Hr as <- <-. injection E as <- <-.
  eexists _, _, t. split; [done|]. split; [eapply moves_mono; [|exact Hm]; lia|]. by split.
Qed.

Lemma raft_entries_served v a entries :
  (length entries ≤ k)%nat → implements (sv_store v) a → hist a ≠ [] → room (sv_store v) a (k + 2) →
  served v a (RaftEntries entries) (handle raft v (RaftEntries entries)).
Proof.
  intros Hl Hi Hne [Hh Hc]. unfold served. clear Hraft. destruct raft as [node|]; simpl.
  2: { exists v, RaftApplied, []. split; [done|]. split; [apply moves_refl|done]. }
  destruct (does_apply_requests entries tt (sv_store v) a Hi Hne)
    as (s' & r & t & Hr & [Hm (Hw & _)]%quiet_moves & _ & Ht); [split; lia|].
  destruct (apply_requests (sv_store v) entries) as [s1|]; [|done]. injection Hr as -> _. rewrite bind_ret.
  eexists _, _, t. split; [done|]. split; [eapply moves_mono; [|exact Hm]; lia|]. split; [done|].
  intros _ Hok. unfold streams_ok in *. simpl. by rewrite Hw.
Qed.

Lemma handle_served v a req :
  request_ok k req → implements (sv_store v) a → hist a ≠ [] → room (sv_store v) a (k + 2) →
  served v a req (handle raft v req).
Proof.
  intros Hreq Hi Hne Hroom.
  assert (∀ v' rep, sv_store v' = sv_store v → sv_streams v' = sv_streams v → handled raft_on req [] rep →
    served v a req (Ret (v', rep))) as Hstill.
  { intros v' rep Hs Hst Hh. exists v', rep, []. split; [done|]. rewrite Hs. split; [apply moves_refl|]. split; [done|].
    intros _ Hok. unfold streams_ok in *. by rewrite Hs, Hst. }
  destruct req; simpl;
    try (by apply Hstill);
    try (apply (on_handler_served _ _ _ _ _ (λ t _, t = [])); [|done..]; apply does_still; intros s; by eexists).
  - destruct Hreq. eapply on_handler_served; [by apply does_kv_range| |done..]. simpl. by eauto.
  - eapply on_handler_served; [by apply does_kv_put| |done..]. simpl. by eauto.
  - eapply on_handler_served; [by apply does_kv_delete_range| |done..]. simpl. by eauto.
  - eapply on_handler_served; [by apply does_kv_txn| |done..]. simpl. by eauto.
  - eapply on_handler_served; [by apply does_kv_compact| |done..]. simpl. by eauto.
  - by apply open_stream_served.
  - by apply turn_stream_served.
  - by apply raft_entries_served.
Qed.

Lemma serve_moves v a reqs :
  Forall (request_ok k) reqs → implements (sv_store v) a → hist a ≠ [] →
  room (sv_store v) a (length reqs * (k + 2)) →
  ∃ v' reps ts, serve raft v reqs = Ret (v', reps) ∧ Forall3 (handled raft_on) reqs ts reps ∧
    moves no_replay (length reqs * (k + 2)) (sv_store v) a (concat ts) (sv_store v') ∧
    (Forall (λ req, leaves_no_watcher req = true) reqs → streams_ok v → streams_ok v').
Proof.
  revert v a. induction reqs as [|req reqs IH]; intros v a Hreq Hi Hne Hroom; simpl.
  { exists v, [], []. split_and!; try done. constructor. }
  apply Forall_cons in Hreq as [Hreq Hreqs]. simpl in Hroom.
  destruct (handle_served v a req Hreq Hi Hne) as (v1 & rep & t & -> & Hm & Hh & Hs); [destruct Hroom; split; lia|].
  destruct (moves_implements _ _ _ _ _ _ Hi Hne Hroom Hm) as (a1 & Hi1 & Hne1 & Hroom1 & Hnext).
  destruct (IH v1 a1 Hreqs Hi1 Hne1 Hroom1) as (v2 & reps & ts & Hv2 & Hall & Hm2 & Hs2). rewrite bind_ret. simpl.
  rewrite Hv2, bind_ret. simpl.
  exists v2, (rep :: reps), (t :: ts). split; [done|]. split; [by constructor|]. split; [by apply Hnext|].
  intros [Hl Hls]%Forall_cons Hok. by apply Hs2, Hs.
Qed.
End serving.

(** ** Start-up as a run *)

Definition replay_op (rec : WalRecord) : op := OReplay (rec_key rec) (rec_value rec).

(** What a start does to a new store: the records, then the key that takes a revision. *)
Definition start_ops (recs : list WalRecord) : list op := (replay_op <$> recs) ++ [OPut first_key [] None].

Lemma start_ops_legal a recs : legal_run a (start_ops recs).
Proof. unfold start_ops. revert a. by induction recs as [|rec recs IH]; intros a; simpl. Qed.

Lemma first_put_history a :
  hist (anext a (OPut first_key [] None)) = hist_write (hist a) first_key (Some []).
Proof.
  simpl. unfold awrite, hist_set, guard. by rewrite (bool_decide_eq_true_2 (is_Some (Some []))), orb_true_r.
Qed.

Lemma replay_history_rebuilt a recs :
  hist (final a (replay_op <$> recs)) = foldl (λ g rec, hist_replay g (rec_key rec) (rec_value rec)) (hist a) recs.
Proof. revert a. induction recs as [|rec recs IH]; intros a; simpl; [done|]. by rewrite IH. Qed.

Lemma start_history recs :
  hist (final empty (start_ops recs)) = hist_write (rebuilt recs) first_key (Some []).
Proof.
  unfold start_ops. rewrite final_app. cbn [final]. by rewrite first_put_history, replay_history_rebuilt.
Qed.

Section start_up.
Context `{!BlockSize}.

Lemma replay_run s recs s' :
  replay_records s recs = Ret s' → run s (replay_op <$> recs) = Ret (s', replicate (length recs) RUnit).
Proof.
  revert s. induction recs as [|rec recs IH]; intros s; csimpl; [by intros [= ->]|].
  intros (s1 & Hs1 & Hrep)%bind_ret_inv. rewrite Hs1, !bind_ret. simpl. by rewrite (IH _ Hrep), bind_ret.
Qed.

(** The records a start replays, and the run it comes to. *)
Lemma start_run cli dir :
  dir_holds dir → Z.of_nat (length (concat (logs_of dir))) < i64_max →
  ∃ recs s rs, start_store (wal_settings cli) dir.*1 = Ret s ∧ recs ≡ₚ replayed cli dir ∧ rev_sorted recs ∧
    (length recs ≤ length (concat (logs_of dir)))%nat ∧
    run (new_store (Some (wal_mode_from (wal_default cli)))) (start_ops recs) = Ret (s, rs).
Proof.
  intros Hd Hl. set (s0 := new_store (Some (wal_mode_from (wal_default cli)))).
  assert (∃ recs s1, store_new (Some (ws_default_mode (wal_settings cli)))
      (if ws_load_wal_dir (wal_settings cli) then Some dir.*1 else None) = Ret s1 ∧
    recs ≡ₚ replayed cli dir ∧ rev_sorted recs ∧ (length recs ≤ length (concat (logs_of dir)))%nat ∧
    replay_records s0 recs = Ret s1) as (recs & s1 & Hnew & Hp & Hs & Hlen & Hrep).
  { unfold replayed. simpl. destruct (raft_enabled cli); simpl.
    - exists [], s0. split_and!; try done; [constructor|simpl; lia].
    - destruct (load_wal_dir_spec dir Hd) as (recs & Hload & Hp & Hs).
      assert (length recs = length (concat (logs_of dir))) as Hlen by (by rewrite Hp, length_fmap).
      destruct (replay_records_repr s0 [] recs) as (s1 & Hrep & _);
        [apply (im_repr _ _ (new_implements _))|simpl; lia|].
      exists recs, s1. unfold store_new. fold s0. rewrite Hload, bind_ret, Hrep, bind_ret. split_and!; try done. lia. }
  pose proof (replay_run _ _ _ Hrep) as Hrun.
  destruct (run_implements s0 empty (start_ops recs)) as (s & rs & Hall & _);
    [apply new_implements|apply start_ops_legal| | |]; [unfold start_ops; rewrite length_app, length_fmap; simpl; lia..|].
  exists recs, s, rs. split; [|done]. unfold start_store. rewrite Hnew, bind_ret.
  unfold start_ops in Hall. rewrite run_app, Hrun, bind_ret in Hall. simpl in Hall.
  apply bind_ret_inv in Hall as ([s2 rs2] & H2 & [= -> _]).
  apply bind_ret_inv in H2 as ([s3 rep] & (r & Hset & [= <- _])%bind_ret_inv & [= <- _]).
  rewrite Hset, bind_ret. destruct r as [s3 [rev|e]]; [done|]. by apply put_not_refused in Hset.
Qed.
End start_up.

Section main_run.
Context `{!BlockSize} (raft_node : Z → list (Z * ByteArray) → RaftNode) (k : nat).
Hypothesis Hnode : ∀ id peers, applies_entries k (raft_node id peers).

(** In Raft mode there is a node. *)
Lemma raft_config_mode cli config :
  raft_config cli = Ok config → bool_decide (is_Some ((λ c, raft_node c.1 c.2) <$> config)) = raft_enabled cli.
Proof.
  unfold raft_config. destruct (raft_enabled cli); [|by intros [= <-]].
  destruct (raft_node_id cli), (raft_peers cli); try done. destruct (parse_peers _); [|done]. by intros [= <-].
Qed.

Lemma main_run cli dir reqs config :
  dir_holds dir → raft_config cli = Ok config → Forall (request_ok k) reqs →
  Z.of_nat (length (concat (logs_of dir))) + 1 + Z.of_nat (length reqs * (k + 2)) ≤ i64_max →
  ∃ v reps recs ts rs,
    main raft_node cli dir.*1 reqs = Ret (Ok (spawned cli config, (v, reps))) ∧
    recs ≡ₚ replayed cli dir ∧ rev_sorted recs ∧ Forall3 (handled (raft_enabled cli)) reqs ts reps ∧
    legal_run empty (start_ops recs ++ (concat ts).*1) ∧
    run (new_store (Some (wal_mode_from (wal_default cli)))) (start_ops recs ++ (concat ts).*1) =
      Ret (sv_store v, rs ++ (concat ts).*2) ∧
    (length (start_ops recs ++ (concat ts).*1) ≤
       length (concat (logs_of dir)) + 1 + length reqs * (k + 2))%nat ∧
    (Forall (λ req, leaves_no_watcher req = true) reqs → streams_ok v).
Proof.
  intros Hd Hconf Hreq Hroom. destruct (start_run cli dir Hd) as (recs & s & rs & Hst & Hp & Hs & Hlen & Hrun); [lia|].
  set (s0 := new_store (Some (wal_mode_from (wal_default cli)))) in *.
  pose proof (start_ops_legal empty recs) as Hleg.
  assert (length (start_ops recs) = length recs + 1)%nat as Hso
    by (unfold start_ops; by rewrite length_app, length_fmap).
  destruct (run_implements s0 empty (start_ops recs)) as (s1 & rs1 & Hrun1 & Hi & _);
    [apply new_implements|done|simpl; lia|simpl; lia|].
  rewrite Hrun in Hrun1. injection Hrun1 as <- <-.
  pose proof (run_channels s0 empty (start_ops recs) s rs (new_implements _) Hleg) as Hch. simpl in Hch.
  specialize (Hch ltac:(lia) ltac:(lia) Hrun). pose proof (final_length empty (start_ops recs)) as Hfl. simpl in Hfl.
  set (raft := (λ c, raft_node c.1 c.2) <$> config).
  destruct (serve_moves raft k) with (v := server_new s) (a := final empty (start_ops recs)) (reqs := reqs)
    as (v & reps & ts & Hserve & Hall & [Hrun2 Hleg2 _ Hlo] & Hstr); try done.
  { intros node. unfold raft. destruct config as [[id peers]|]; simpl; [|done]. by intros [= <-]. }
  { rewrite start_history. unfold hist_write. by destruct (rebuilt recs). }
  { split; simpl; lia. }
  exists v, reps, recs, ts, rs. split.
  { unfold main, boot. rewrite Hst, !bind_ret, Hconf. fold raft. by rewrite Hserve, bind_ret. }
  unfold raft in Hall. rewrite (raft_config_mode cli) in Hall by done.
  do 3 (split; [done|]). rewrite legal_run_app, run_app, Hrun, bind_ret, length_app, length_fmap, Hso. simpl in *.
  rewrite Hrun2, bind_ret. split; [done|]. split; [done|]. split; [lia|].
  intros Hnl. apply Hstr; [done|]. unfold streams_ok. simpl.
  destruct (table_run_same _ _ _ _ Hrun) as (-> & _); [|done]. unfold start_ops.
  apply Forall_app. split; [by apply Forall_fmap, Forall_true|by constructor].
Qed.
End main_run.

(** ** Properties *)



(** ** A concrete server *)

(** A Raft node that leads and applies nothing but what is proposed. *)
Definition leading_node (id : Z) (peers : list (Z * ByteArray)) : RaftNode :=
  mkRaftNode id (Some id) (client_write (alone (H:=block_size_2))).

Lemma leading_node_applies id peers : applies_entries (H:=block_size_2) 1 (leading_node id peers).
Proof.
  intros req s. right. exists [], []. split; [simpl; lia|].
  simpl. by destruct (StateMachine.apply_request (H:=block_size_2) s req) as [[s' z]|m].
Qed.

Definition raft_cli : Cli := mkCli CliBuffered [] true (Some 1) (Some (bytes "1@a:1,2@b:2")) true.

(** Two watches are opened, one is cancelled; meanwhile a key is put and read, and an entry
    of another client is applied. *)
Definition sample_requests : list ApiRequest :=
  [WatchOpen (Message (Some (CreateRequest (mkWatchCreateRequest (bytes "/r/p/") (bytes "/r/p0") 0 false))));
   KvPut (mkPutRequest (bytes "/r/p/x") (bytes "1") true false);
   WatchOpen (Message (Some (CreateRequest (mkWatchCreateRequest (bytes "/r/p/") (bytes "/r/p0") 1 false))));
   KvRange (mkRangeRequest (bytes "/r/p/x") [] 0 0 false);
   LeaseGrant (Lease.mkGrant 10 0);
   WatchTurn 0 (FromClient (Message (Some (CancelRequest 1))));
   RaftEntries [RaftSet (bytes "/r/p/y") (bytes "2")];
   GetMetrics].

Lemma sample_requests_ok : Forall (request_ok 1) sample_requests.
Proof.
  repeat (apply Forall_cons_2; [vm_compute; first [exact (le_n _)|repeat split; discriminate]|]). apply Forall_nil_2.
Qed.


Definition sample_server : Server :=
  match main (H:=block_size_2) leading_node raft_cli sample_logs.*1 sample_requests with
  | Ret (Ok (_, (v, _))) => v
  | _ => server_new (new_store None)
  end.

