(* ===== verification/Requests.v ===== *)
(** * Key-value requests side by side (src/kv_service.rs)

    [Server] takes one request after the other. A handler is a few calls of the store with
    code in between, and the server runs many of them at once: here a handler is a program
    whose steps are those calls, and a system of programs takes them in any order. Each call
    is one step; that calls of the store may overlap is the matter of [Concurrent], [Readers]
    and [Watchers]. *)
From stdpp Require Import relations.
From S2P Require Import Prelude Bytes BTreeMap BlockDeque Heap Types Wal Prefix History Store StoreSpec WatchSpec StoreTrace StoreProps Notify Metrics Recovery Raft Peers Startup KvService WatchService Services Server.

Import StoreTrace.

(** ** Handlers as programs *)

Inductive prog (A : Type) :=
| Done (x : A)
| Read (start end_ : ByteArray) (rev : Z) (limit : option Z) (k : Result RangeResult Status → prog A)
| Write (key : ByteArray) (new : option ByteArray) (required : option SetRequired) (k : Result Z SetError → prog A)
| Compact (rev : Z) (k : Result unit Status → prog A)
(** [Store::current_revision] *)
| Current (k : Z → prog A)
| Propose (req : RaftRequest) (k : Result Z Status → prog A)
| Panics (msg : string).

Arguments Done {A}.
Arguments Read {A}.
Arguments Write {A}.
Arguments Compact {A}.
Arguments Current {A}.
Arguments Propose {A}.
Arguments Panics {A}.

(** The read of one key before it is written. *)
Definition Get {A} (key : ByteArray) : (Result RangeResult Status → prog A) → prog A := Read key [] 0 (Some 1).

Definition range_prog (req : RangeRequest) : prog (Result RangeResponse Status) :=
  Read (rr_key req) (rr_range_end req) (rr_revision req) (range_limit req)
    (λ r, Done (result_map (range_response req) r)).

Definition compact_prog (revision : Z) : prog (Result ResponseHeader Status) :=
  Compact revision (λ r,
    match r with
    | Err e => Done (Err (mkStatus Internal "Compaction operation failed: {:?}" [AStatus e]))
    | Ok _ => Current (λ rev, Done (Ok (header rev)))
    end).

Section programs.
Context (raft : option RaftNode).

(** [ensure_leader], which looks at the metrics of the node alone. *)
Definition leader_check : Result unit Status :=
  match raft with
  | Some node =>
      match current_leader node with
      | Some leader =>
          if leader =? raft_id node then Ok ()
          else Err (mkStatus FailedPrecondition "not leader, current leader is node {}" [AInt leader])
      | None => Err (mkStatus Unavailable "no leader elected" [])
      end
  | None => Ok ()
  end.

Definition lead {A} (p : prog (Result A Status)) : prog (Result A Status) :=
  match leader_check with Ok _ => p | Err e => Done (Err e) end.

Definition put_write (req : PutRequest) (prev : option KeyValue) (value : ByteArray) :
    prog (Result PutResponse Status) :=
  let respond rev := mkPutResponse (header rev) (if pr_prev_kv req then prev else None) in
  match raft with
  | Some _ => lead (Propose (RaftSet (pr_key req) value) (λ w, Done (result_map respond w)))
  | None =>
      Write (pr_key req) (Some value) None (λ x,
        Done match x with
             | Ok rev => Ok (respond rev)
             | Err e => Err (mkStatus Internal "Put operation failed: {:?}" [ASetError e.1 e.2])
             end)
  end.

Definition put_value (req : PutRequest) (prev : option KeyValue) : prog (Result PutResponse Status) :=
  if pr_ignore_value req then
    match prev with
    | Some kv => put_write req prev (kv_value kv)
    | None => Done (Err (invalid_argument "ignore_value set but key does not exist"))
    end
  else put_write req prev (pr_value req).

Definition put_prog (req : PutRequest) : prog (Result PutResponse Status) :=
  if pr_prev_kv req || pr_ignore_value req then
    Get (pr_key req) (λ r, match r with Ok res => put_value req (head (kvs res)) | Err e => Done (Err e) end)
  else put_value req None.

Definition delete_prog (req : DeleteRangeRequest) : prog (Result DeleteRangeResponse Status) :=
  if bool_decide (dr_range_end req ≠ []) then
    Done (Err (invalid_argument "range end not supported in deleteRange"))
  else
    Get (dr_key req) (λ r,
      match r with
      | Err e => Done (Err e)
      | Ok res =>
          let existing := head (kvs res) in
          let respond rev :=
            mkDeleteRangeResponse (header rev) (match existing with Some _ => 1 | None => 0 end)
              (if dr_prev_kv req then option_list existing else []) in
          match raft with
          | Some _ => lead (Propose (RaftDelete (dr_key req)) (λ w, Done (result_map respond w)))
          | None => Write (dr_key req) None None (λ x, Done (Ok (respond (write_revision x))))
          end
      end).

(** The write of a transaction; [respond] makes the answer from its result. *)
Definition txn_write_prog {A} (key : ByteArray) (new : option ByteArray) (req : RaftRequest) (required : SetRequired)
    (respond : Result Z SetError → A) : prog (Result A Status) :=
  match raft with
  | Some _ =>
      lead (Get key (λ r,
        match r with
        | Err e => Done (Err e)
        | Ok res =>
            if check_compare (head (kvs res)) (Some required)
            then Propose req (λ w, Done (result_map (λ rev, respond (Ok rev)) w))
            else Done (Ok (respond (Err (latest_rev res, head (kvs res)))))
        end))
  | None => Write key new (Some required) (λ x, Done (Ok (respond x)))
  end.

Definition txn_op_prog (c : Compare) (required : SetRequired) (failure : list (option TxnOp)) (op : TxnOp) :
    prog (Result TxnResponse Status) :=
  match op with
  | RequestPut put =>
      if bool_decide (pr_key put = []) then Done (Err (invalid_argument "key required in success put"))
      else if bool_decide (pr_key put ≠ cmp_key c) then
        Done (Err (invalid_argument "compare key must match put key"))
      else txn_write_prog (pr_key put) (Some (pr_value put)) (RaftSet (pr_key put) (pr_value put)) required
             (λ x, txn_response failure x false)
  | RequestDeleteRange del =>
      if bool_decide (dr_key del = []) then Done (Err (invalid_argument "key required in success deleteRange"))
      else if bool_decide (dr_range_end del ≠ []) then
        Done (Err (invalid_argument "range end not supported in deleteRange"))
      else if bool_decide (dr_key del ≠ cmp_key c) then
        Done (Err (invalid_argument "compare key must match deleteRange key"))
      else txn_write_prog (dr_key del) None (RaftDelete (dr_key del)) required (λ x, txn_response failure x true)
  | _ => Done (Err (invalid_argument "only put and deleteRange supported in success"))
  end.

Definition txn_prog (req : TxnRequest) : prog (Result TxnResponse Status) :=
  match txn_compare req with
  | [c] =>
      match txn_required c with
      | Err e => Done (Err e)
      | Ok required =>
          match txn_success req with
          | [success] =>
              match txn_check_failure c (txn_failure req) with
              | Err e => Done (Err e)
              | Ok _ =>
                  match success with
                  | Some op => txn_op_prog c required (txn_failure req) op
                  | None => Panics "called `Option::unwrap()` on a `None` value"
                  end
              end
          | _ => Done (Err (invalid_argument "only one success supported"))
          end
      end
  | _ => Done (Err (invalid_argument "only one compare supported"))
  end.

Inductive KvRequest :=
| Range (req : RangeRequest)
| Put (req : PutRequest)
| DeleteRange (req : DeleteRangeRequest)
| Txn (req : TxnRequest)
| Compaction (revision : Z).

Definition api (req : KvRequest) : ApiRequest :=
  match req with
  | Range req => KvRange req
  | Put req => KvPut req
  | DeleteRange req => KvDeleteRange req
  | Txn req => KvTxn req
  | Compaction revision => KvCompact revision
  end.

Fixpoint pmap {A B} (f : A → B) (p : prog A) : prog B :=
  match p with
  | Done x => Done (f x)
  | Read start end_ rev limit k => Read start end_ rev limit (λ r, pmap f (k r))
  | Write key new required k => Write key new required (λ r, pmap f (k r))
  | Compact rev k => Compact rev (λ r, pmap f (k r))
  | Current k => Current (λ r, pmap f (k r))
  | Propose req k => Propose req (λ r, pmap f (k r))
  | Panics msg => Panics msg
  end.

Definition kv_prog (req : KvRequest) : prog ApiReply :=
  match req with
  | Range req => pmap KvRanged (range_prog req)
  | Put req => pmap KvWritten (put_prog req)
  | DeleteRange req => pmap KvDeleted (delete_prog req)
  | Txn req => pmap KvTxnDone (txn_prog req)
  | Compaction revision => pmap KvCompacted (compact_prog revision)
  end.
End programs.

(** ** A program alone *)

Fixpoint run_prog `{!BlockSize} (raft : option RaftNode) {A} (p : prog A) (s : Store) : outcome (Store * A) :=
  match p with
  | Done x => Ret (s, x)
  | Read start end_ rev limit k => r ← range s start end_ rev limit; run_prog raft (k r) s
  | Write key new required k => r ← set s key new required; run_prog raft (k r.2) r.1
  | Compact rev k => r ← compact s rev; run_prog raft (k r.2) r.1
  | Current k => run_prog raft (k (current_revision s)) s
  | Propose req k => r ← raft_write raft req s; run_prog raft (k r.2) r.1
  | Panics msg => Panic msg
  end.

Section alone.
Context `{!BlockSize} (raft : option RaftNode).

Lemma run_pmap {A B} (f : A → B) (p : prog A) s :
  run_prog raft (pmap f p) s = (r ← run_prog raft p s; Ret (r.1, f r.2)).
Proof.
  revert s. induction p as [x|a b rev limit k IH|key new req k IH|rev k IH|k IH|req k IH|m]; intros s; simpl.
  - done.
  - destruct (range _ _ _ _ _); [|done]. rewrite !bind_ret. apply IH.
  - destruct (set _ _ _ _); [|done]. rewrite !bind_ret. apply IH.
  - destruct (compact _ _); [|done]. rewrite !bind_ret. apply IH.
  - apply IH.
  - destruct (raft_write _ _ _); [|done]. rewrite !bind_ret. apply IH.
  - done.
Qed.

Lemma ensure_leader_check s : ensure_leader raft s = Ret (s, leader_check raft).
Proof.
  unfold ensure_leader, leader_check. destruct raft as [node|]; [|done].
  destruct (current_leader node); [|done]. by destruct (_ =? _).
Qed.

Lemma run_lead {A B} (p : prog (Result A Status)) (m : handler B) (f : B → handler A) s :
  (∀ s, run_prog raft p s = and_then m f s) →
  run_prog raft (lead raft p) s = and_then (and_then (ensure_leader raft) (λ _, m)) f s.
Proof.
  intros Hp. unfold lead. unfold and_then. rewrite ensure_leader_check, !bind_ret. simpl.
  destruct (leader_check raft) as [[]|e]; [apply Hp|done].
Qed.

(** The programs are the handlers. *)
Lemma range_prog_alone req s : run_prog raft (range_prog req) s = kv_range req s.
Proof.
  unfold kv_range, and_then, store_range. simpl. destruct (range _ _ _ _ _) as [[res|e]|m]; [..|done]; by rewrite !bind_ret.
Qed.

Lemma compact_prog_alone rev s : run_prog raft (compact_prog rev) s = kv_compact rev s.
Proof. unfold kv_compact. simpl. destruct (compact s rev) as [[s' [u|e]]|m]; [..|done]; by rewrite !bind_ret. Qed.

Lemma put_write_alone req prev value s :
  run_prog raft (put_write raft req prev value) s =
  and_then (match raft with
    | Some _ => and_then (ensure_leader raft) (λ _, raft_write raft (RaftSet (pr_key req) value))
    | None => λ s,
        r ← set s (pr_key req) (Some value) None;
        Ret (r.1, match r.2 with
                  | Ok rev => Ok rev
                  | Err e => Err (mkStatus Internal "Put operation failed: {:?}" [ASetError e.1 e.2])
                  end)
    end) (λ rev, answer (mkPutResponse (header rev) (if pr_prev_kv req then prev else None))) s.
Proof.
  pose proof (@run_lead PutResponse Z) as Hl. unfold put_write. destruct raft as [node|].
  - apply Hl. intros s1. cbn [run_prog]. unfold and_then.
    destruct (raft_write _ _ _) as [[s2 [rev|e]]|m]; [..|done]; by rewrite !bind_ret.
  - simpl. unfold and_then. destruct (set _ _ _ _) as [[s2 [rev|e]]|m]; [..|done]; by rewrite !bind_ret.
Qed.

Lemma put_prog_alone req s : run_prog raft (put_prog raft req) s = kv_put raft req s.
Proof.
  assert (∀ prev s, run_prog raft (put_value raft req prev) s =
    and_then (if pr_ignore_value req then match prev with
        | Some kv => answer (kv_value kv)
        | None => fail (invalid_argument "ignore_value set but key does not exist") end
      else answer (pr_value req))
      (λ value s, run_prog raft (put_write raft req prev value) s) s) as Hv.
  { intros prev s1. unfold put_value, and_then. destruct (pr_ignore_value req); [|done]. by destruct prev. }
  unfold put_prog, kv_put. destruct (_ || _).
  - simpl. destruct (range s (pr_key req) [] 0 (Some 1)) as [[res|e]|m] eqn:E; rewrite ?bind_ret.
    + erewrite and_then_ok by (erewrite and_then_ok; [done|]; unfold store_range; by rewrite E).
      rewrite Hv. apply and_then_ext. intros value t. apply put_write_alone.
    + erewrite and_then_err; [done|]. erewrite and_then_err; [done|]. unfold store_range. by rewrite E.
    + unfold and_then, store_range. by rewrite E.
  - erewrite and_then_ok by done. rewrite Hv. apply and_then_ext. intros value t. apply put_write_alone.
Qed.

Lemma delete_prog_alone req s : run_prog raft (delete_prog raft req) s = kv_delete_range raft req s.
Proof.
  pose proof (@run_lead DeleteRangeResponse Z) as Hl. unfold delete_prog, kv_delete_range. case_bool_decide; [done|].
  simpl. unfold and_then at 1, store_range. destruct (range _ _ _ _ _) as [[res|e]|m]; [..|done]; rewrite !bind_ret; [|done].
  simpl. destruct raft as [node|].
  - apply Hl. intros s1. cbn [run_prog]. unfold and_then.
    destruct (raft_write _ _ _) as [[s2 [rev|e]]|m]; [..|done]; by rewrite !bind_ret.
  - simpl. unfold and_then, delete_key. destruct (set _ _ _ _) as [[s2 x]|m]; [|done]. rewrite !bind_ret. by destruct x.
Qed.

Lemma txn_write_alone {A} key new req required (respond : Result Z SetError → A) s :
  run_prog raft (txn_write_prog raft key new req required respond) s =
  and_then (txn_write raft key new req required) (λ x, answer (respond x)) s.
Proof.
  unfold txn_write_prog, txn_write. pose proof ensure_leader_check as Hl. unfold lead, leader_check in *. destruct raft as [node|].
  - unfold and_then at 1 2. rewrite Hl, !bind_ret. simpl.
    destruct (match current_leader node with Some _ => _ | None => _ end) as [u|e]; [|done].
    simpl. unfold and_then, store_range. destruct (range _ _ _ _ _) as [[res|e]|m]; [..|done]; rewrite !bind_ret; [|done].
    simpl. destruct (check_compare _ _); simpl; [|done].
    destruct (client_write _ _ _) as [[s2 [rev|e]]|m]; [..|done]; by rewrite !bind_ret.
  - simpl. unfold and_then. destruct (set _ _ _ _) as [[s2 x]|m]; [|done]. by rewrite !bind_ret.
Qed.

Lemma txn_prog_alone req s : run_prog raft (txn_prog raft req) s = kv_txn raft req s.
Proof.
  unfold txn_prog, kv_txn. destruct (txn_compare req) as [|c [|]]; try done. destruct (txn_required c) as [required|]; [|done].
  destruct (txn_success req) as [|[op|] [|]]; try done; destruct (txn_check_failure _ _); try done.
  assert (∀ key new rq (b : bool), run_prog raft (txn_write_prog raft key new rq required (λ x, txn_response (txn_failure req) x b)) s =
    and_then (and_then (txn_write raft key new rq required) (λ x, answer (x, b)))
      (λ r, answer (txn_response (txn_failure req) r.1 r.2)) s) as Hw.
  { intros key new rq b. rewrite txn_write_alone. unfold and_then.
    destruct (txn_write _ _ _ _ _ _) as [[s2 [x|e]]|m]; [..|done]; by rewrite !bind_ret. }
  erewrite and_then_ok by done.
  unfold txn_op_prog, txn_success_op. destruct op; try done; repeat (case_bool_decide; [done|]); apply Hw.
Qed.

Lemma kv_prog_alone v req :
  (r ← run_prog raft (kv_prog raft req) (sv_store v); Ret (mkServer r.1 (sv_lease v) (sv_streams v), r.2)) =
  handle raft v (api req).
Proof.
  destruct req; cbn [kv_prog api handle]; unfold on_handler; rewrite run_pmap;
    rewrite ?range_prog_alone, ?put_prog_alone, ?delete_prog_alone, ?txn_prog_alone, ?compact_prog_alone;
    match goal with |- (_ ← (_ ← ?m; _); _) = _ => by destruct m as [[s' x]|] end.
Qed.
End alone.

(** ** Traces *)

(** The part of a program behind it: the operations it called, with the replies. What is
    applied for a proposal is as [proposed] says. *)
Inductive leads {A} : prog A → trace → prog A → Prop :=
| leads_refl p : leads p [] p
| leads_read start end_ rev limit k r t p :
    leads (k r) t p → leads (Read start end_ rev limit k) ((ORange start end_ rev limit, RRange r) :: t) p
| leads_write key new required k x t p :
    leads (k x) t p → leads (Write key new required k) ((write_op key new required, RWrite x) :: t) p
| leads_compact rev k r t p :
    leads (k r) t p → leads (Compact rev k) ((OCompact rev, RCompact r) :: t) p
| leads_current k z t p : leads (k z) t p → leads (Current k) t p
| leads_propose req k w t1 t p :
    proposed (entry_op req) t1 w → leads (k w) t p → leads (Propose req k) (t1 ++ t) p.

Lemma leads_trans {A} (p q r : prog A) t t' : leads p t q → leads q t' r → leads p (t ++ t') r.
Proof.
  intros Hp Hq. induction Hp; simpl; rewrite <- ?app_assoc; eauto using @leads.
Qed.

Lemma leads_done {A} (x : A) t q : leads (Done x) t q → t = [] ∧ q = Done x.
Proof. by inversion 1. Qed.

Lemma leads_pmap {A B} (f : A → B) p t y : leads (pmap f p) t (Done y) → ∃ x, y = f x ∧ leads p t (Done x).
Proof.
  revert t. induction p as [x|a b rev limit k IH|key new req k IH|rev k IH|k IH|req k IH|m]; intros t Hl;
    inversion Hl; subst;
    try (match goal with H : leads (pmap _ (k _)) _ _ |- _ => apply IH in H as (ans & -> & Hans) end;
      exists ans; split; [done|]; by eauto using @leads).
  exists x. split; [done|apply leads_refl].
Qed.

(** The one way a program with a trace to its end can go. *)
Ltac follow :=
  repeat match goal with
  | H : leads (Done _) _ _ |- _ => apply leads_done in H as [? ?]; simplify_eq/=
  | H : leads (Read _ _ _ _ _) _ (Done _) |- _ => inversion H; clear H; subst
  | H : leads (Write _ _ _ _) _ (Done _) |- _ => inversion H; clear H; subst
  | H : leads (Compact _ _) _ (Done _) |- _ => inversion H; clear H; subst
  | H : leads (Current _) _ (Done _) |- _ => inversion H; clear H; subst
  | H : leads (Propose _ _) _ (Done _) |- _ => inversion H; clear H; subst
  | H : leads (Panics _) _ (Done _) |- _ => by inversion H
  end.

Section traces.
Context (raft : option RaftNode).

Notation raft_on := (bool_decide (is_Some raft)).

Lemma lead_trace {A} (p : prog (Result A Status)) t r :
  leads (lead raft p) t (Done r) → (t = [] ∧ ∃ e, r = Err e) ∨ leads p t (Done r).
Proof. unfold lead. destruct (leader_check raft) as [u|e]; [by right|]. intros Hl. follow. left. by eauto. Qed.

Lemma range_trace req t r : leads (range_prog req) t (Done r) → range_does req t r.
Proof. unfold range_prog. intros Hl. follow. eexists. split; [done|]. by destruct r0. Qed.

Lemma compact_trace rev t r : leads (compact_prog rev) t (Done r) → compact_does rev t r.
Proof. unfold compact_prog. intros Hl. follow. destruct r0 as [u|e]; follow; by eexists. Qed.

Lemma put_write_trace req prev value t r :
  leads (put_write raft req prev value) t (Done r) →
  ∃ w, (if raft_on then proposed (OPut (pr_key req) value None) t w
        else ∃ x, t = [(OPut (pr_key req) value None, RWrite x)] ∧ ∀ rev, x = Ok rev → w = Ok rev) ∧
    r = result_map (λ rev, mkPutResponse (header rev) (if pr_prev_kv req then prev else None)) w.
Proof.
  unfold put_write. pose proof (@lead_trace PutResponse) as Hlead. destruct raft as [node|]; simpl; intros Hl.
  - apply Hlead in Hl as [[-> [e ->]]|Hl]; [exists (Err e); split; [by exists []|done]|]. follow.
    rewrite app_nil_r. eexists. split; [eassumption|done].
  - follow. destruct x as [rev|e]; [exists (Ok rev)|eexists (Err _)]; (split; [|done]); eexists; (split; [done|]); by intros rev' [= ->].
Qed.

Lemma put_trace req t r : leads (put_prog raft req) t (Done r) → put_does raft_on req t r.
Proof.
  assert (∀ prev t r, leads (put_value raft req prev) t (Done r) →
    match (if pr_ignore_value req then kv_value <$> prev else Some (pr_value req)) with
    | None => t = [] ∧ r = Err (invalid_argument "ignore_value set but key does not exist")
    | Some value => leads (put_write raft req prev value) t (Done r)
    end) as Hv.
  { intros prev t1 r1. unfold put_value. destruct (pr_ignore_value req); [|done]. destruct prev; simpl; [done|].
    intros Hl. by follow. }
  unfold put_prog, put_does. destruct (_ || _); intros Hl.
  - unfold Get in Hl. follow. eexists [_], (_ <$> result_ok r0). split; [by eexists|]. destruct r0 as [res|e]; simpl; [|follow; by eauto].
    match goal with H : leads (put_value _ _ _) _ _ |- _ => apply Hv in H as Hw end.
    destruct (if pr_ignore_value req then _ else _); [|destruct Hw as [-> ->]; done].
    apply put_write_trace in Hw as (w & Hw & ->). by exists t0, w.
  - exists [], (Some None). split; [done|]. apply Hv in Hl.
    destruct (if pr_ignore_value req then _ else _); [|done]. apply put_write_trace in Hl as (w & Hw & ->). by exists t, w.
Qed.

Lemma delete_trace req t r : leads (delete_prog raft req) t (Done r) → delete_does raft_on req t r.
Proof.
  unfold delete_prog, delete_does. pose proof (@lead_trace DeleteRangeResponse) as Hlead.
  destruct (decide (dr_range_end req = [])) as [He|He].
  2: { rewrite bool_decide_true by done. intros Hl. by follow. }
  rewrite bool_decide_false by (intros Hn; by apply Hn). unfold Get. intros Hl. follow. exists r0.
  destruct r0 as [res|e]; [|by follow].
  assert (Z.of_nat (length (option_list (head (kvs res)))) = match head (kvs res) with Some _ => 1 | None => 0 end) as ->
    by (by destruct (head (kvs res))).
  destruct raft as [node|]; simpl in *.
  - match goal with H : leads (lead _ _) _ _ |- _ => apply Hlead in H as [[-> [e ->]]|Hl] end.
    + exists [], (Err e). split; [done|]. split; [by exists []|done].
    + follow. rewrite app_nil_r. by eexists _, _.
  - follow. eexists _, (Ok _). split; [done|]. split; [|done]. eexists. split; done.
Qed.

Lemma txn_write_trace {A} key new req required (f : Result Z SetError → A) t r :
  entry_op req = write_op key new None →
  leads (txn_write_prog raft key new req required f) t (Done r) → success_does raft_on key new required f t r.
Proof.
  unfold txn_write_prog, success_does. pose proof (@lead_trace A) as Hlead. intros Hreq.
  destruct raft as [node|]; simpl; intros Hl; [|follow; by eexists].
  apply Hlead in Hl as [?|Hl]; [by left|right]. unfold Get in Hl. follow. eexists _, _. split; [done|].
  destruct r0 as [res|e]; [|by follow]. destruct (check_compare _ _); [|by follow].
  follow. rewrite app_nil_r, <- Hreq. by eexists.
Qed.

Lemma txn_op_trace c required failure op t r :
  leads (txn_op_prog raft c required failure op) t (Done r) →
  match success_plan c op with
  | None => t = [] ∧ ∃ e, r = Err e
  | Some (key, new, is_delete) => success_does raft_on key new required (λ x, txn_response failure x is_delete) t r
  end.
Proof.
  destruct op as [rr|put|del|]; simpl; intros Hl; try (follow; by eauto).
  - destruct (decide (pr_key put = [])) as [H1|H1].
    { rewrite (bool_decide_true (_ = [])) in Hl by done. rewrite bool_decide_false by naive_solver. follow. by eauto. }
    rewrite (bool_decide_false (_ = [])) in Hl by done. destruct (decide (pr_key put = cmp_key c)) as [H2|H2].
    + rewrite (bool_decide_false (_ ≠ _)) in Hl by naive_solver. rewrite bool_decide_true by done. by apply txn_write_trace in Hl.
    + rewrite (bool_decide_true (_ ≠ _)) in Hl by done. rewrite bool_decide_false by naive_solver. follow. by eauto.
  - destruct (decide (dr_key del = [])) as [H1|H1].
    { rewrite (bool_decide_true (dr_key del = [])) in Hl by done. rewrite bool_decide_false by naive_solver. follow. by eauto. }
    rewrite (bool_decide_false (dr_key del = [])) in Hl by done. destruct (decide (dr_range_end del = [])) as [H2|H2].
    2: { rewrite (bool_decide_true (dr_range_end del ≠ _)) in Hl by done. rewrite bool_decide_false by naive_solver. follow. by eauto. }
    rewrite (bool_decide_false (dr_range_end del ≠ _)) in Hl by naive_solver. destruct (decide (dr_key del = cmp_key c)) as [H3|H3].
    + rewrite (bool_decide_false (dr_key del ≠ _)) in Hl by naive_solver. rewrite bool_decide_true by done.
      by apply txn_write_trace in Hl.
    + rewrite (bool_decide_true (dr_key del ≠ _)) in Hl by done. rewrite bool_decide_false by naive_solver. follow. by eauto.
Qed.

Lemma txn_trace req t r : leads (txn_prog raft req) t (Done r) → txn_does raft_on req t r.
Proof.
  unfold txn_prog, txn_does, txn_plan. intros Hl.
  destruct (txn_compare req) as [|c [|]]; try (follow; by eauto).
  destruct (txn_required c) as [required|er]; [|follow; destruct (txn_success req) as [|[op|] [|]]; by eauto].
  destruct (txn_success req) as [|[op|] [|]]; try (follow; by eauto);
    (destruct (txn_check_failure c (txn_failure req)) as [[]|ef]; [|follow; by eauto]); [|by follow].
  apply txn_op_trace in Hl. by destruct (success_plan c op) as [[[key new] b]|].
Qed.

(** A program that has come to its end has done what its request is to do. *)
Lemma kv_prog_trace req t rep : leads (kv_prog raft req) t (Done rep) → handled raft_on (api req) t rep.
Proof.
  destruct req; cbn [kv_prog api handled]; intros (x & -> & Hl)%leads_pmap; exists x; (split; [done|]).
  - by apply range_trace.
  - by apply put_trace.
  - by apply delete_trace.
  - by apply txn_trace.
  - by apply compact_trace.
Qed.
End traces.

(** ** A system of programs *)

(** A turn goes to a request; or, in Raft mode, entries that openraft has committed are
    applied. A request that is answered, or was never made, lets its turn pass. *)
Inductive Turn :=
| Go (i : nat)
| Entries (entries : list RaftRequest).

Record System := mkSystem { sys_store : Store; sys_progs : list (prog ApiReply) }.

(** One call of a program. *)
Definition advance `{!BlockSize} (raft : option RaftNode) {A} (p : prog A) (s : Store) : outcome (Store * prog A) :=
  match p with
  | Done x => Ret (s, Done x)
  | Read start end_ rev limit k => r ← range s start end_ rev limit; Ret (s, k r)
  | Write key new required k => r ← set s key new required; Ret (r.1, k r.2)
  | Compact rev k => r ← compact s rev; Ret (r.1, k r.2)
  | Current k => Ret (s, k (current_revision s))
  | Propose req k => r ← raft_write raft req s; Ret (r.1, k r.2)
  | Panics msg => Panic msg
  end.

Definition take_turn `{!BlockSize} (raft : option RaftNode) (y : System) (t : Turn) : outcome System :=
  match t with
  | Go i =>
      match sys_progs y !! i with
      | Some p => r ← advance raft p (sys_store y); Ret (mkSystem r.1 (<[i := r.2]> (sys_progs y)))
      | None => Ret y
      end
  | Entries entries =>
      match raft with
      | Some _ => s' ← apply_requests (sys_store y) entries; Ret (mkSystem s' (sys_progs y))
      | None => Ret y
      end
  end.

Fixpoint exec `{!BlockSize} (raft : option RaftNode) (y : System) (schedule : list Turn) : outcome System :=
  match schedule with
  | [] => Ret y
  | t :: schedule' => y' ← take_turn raft y t; exec raft y' schedule'
  end.

Definition system_new (raft : option RaftNode) (s : Store) (reqs : list KvRequest) : System :=
  mkSystem s (kv_prog raft <$> reqs).

Definition goes (i : nat) (t : Turn) : bool := match t with Go j => bool_decide (j = i) | Entries _ => false end.

(** The turns a request had, and what it called in them. *)
Fixpoint turns (i : nat) (schedule : list Turn) : nat :=
  match schedule with
  | [] => 0
  | t :: schedule' => (if goes i t then 1 else 0) + turns i schedule'
  end.

Fixpoint calls (i : nat) (schedule : list Turn) (ts : list trace) : trace :=
  match schedule, ts with
  | t :: schedule', l :: ts' => (if goes i t then l else []) ++ calls i schedule' ts'
  | _, _ => []
  end.

Definition turn_ok (k : nat) (t : Turn) : Prop :=
  match t with Go _ => True | Entries entries => (length entries ≤ k)%nat end.

(** What a turn may do: nothing when there is no such request, and the entries when they are
    applied. *)
Definition turn_does (raft : bool) (n : nat) (t : Turn) (l : trace) : Prop :=
  match t with
  | Go i => (n ≤ i)%nat → l = []
  | Entries entries => l.*1 = if raft then entry_op <$> entries else []
  end.

(** A program that calls at most [n] times, and never so that the store panics. *)
Fixpoint within {A} (n : nat) (p : prog A) {struct p} : Prop :=
  match p with
  | Done _ => True
  | Read start end_ rev limit k =>
      match n with
      | S n' => bounds_ok start end_ ∧ 0 ≤ default usize_max limit ∧ 0 ≤ rev ∧ ∀ r, within n' (k r)
      | O => False
      end
  | Write _ _ _ k => match n with S n' => ∀ r, within n' (k r) | O => False end
  | Compact _ k => match n with S n' => ∀ r, within n' (k r) | O => False end
  | Current k => match n with S n' => ∀ r, within n' (k r) | O => False end
  | Propose _ k => match n with S n' => ∀ r, within n' (k r) | O => False end
  | Panics _ => False
  end.

Lemma within_mono {A} n m (p : prog A) : (n ≤ m)%nat → within n p → within m p.
Proof.
  revert n m. induction p as [x|a b rev limit k IH|key new req k IH|rev k IH|k IH|req k IH|msg]; intros [|n] [|m] Hle;
    simpl; try done; try lia; intros Hw; try (intros r; apply (IH r n); [lia|apply Hw]).
  destruct Hw as (? & ? & ? & Hk). split_and!; try done. intros r. apply (IH r n); [lia|apply Hk].
Qed.

Lemma within_pmap {A B} (f : A → B) n p : within n p → within n (pmap f p).
Proof.
  revert n. induction p as [x|a b rev limit k IH|key new req k IH|rev k IH|k IH|req k IH|msg]; intros [|n]; simpl;
    try done; intros Hw; try (intros r; apply IH, Hw).
  destruct Hw as (? & ? & ? & Hk). split_and!; try done. intros r. apply IH, Hk.
Qed.

Lemma within_done {A} (p : prog A) : within 0 p → ∃ x, p = Done x.
Proof. destruct p; simpl; try done. by eexists. Qed.

Section budget.
Context (raft : option RaftNode).

Lemma within_lead {A} n (p : prog (Result A Status)) : within n p → within n (lead raft p).
Proof. unfold lead. by destruct (leader_check raft). Qed.

Lemma within_get {A} n key (k : Result RangeResult Status → prog A) : (∀ r, within n (k r)) → within (S n) (Get key k).
Proof. intros Hk. unfold Get. simpl. split_and!; [apply bounds_ok_key|lia|lia|done]. Qed.

Lemma put_within req : within 2 (put_prog raft req).
Proof.
  assert (∀ prev value, within 1 (put_write raft req prev value)) as Hw.
  { intros prev value. unfold put_write. pose proof (@within_lead PutResponse) as Hl. by destruct raft; [apply Hl|]. }
  assert (∀ prev, within 1 (put_value raft req prev)) as Hv.
  { intros prev. unfold put_value. destruct (pr_ignore_value req); [|done]. by destruct prev. }
  unfold put_prog. destruct (_ || _).
  - apply within_get. intros [res|e]; [apply Hv|done].
  - apply (within_mono 1); [lia|apply Hv].
Qed.

Lemma delete_within req : within 2 (delete_prog raft req).
Proof.
  unfold delete_prog. case_bool_decide; [done|]. apply within_get. intros [res|e]; [|done]. cbn zeta.
  pose proof (@within_lead DeleteRangeResponse) as Hl. by destruct raft; [apply Hl|].
Qed.

Lemma txn_write_within {A} key new req required (f : Result Z SetError → A) :
  within 2 (txn_write_prog raft key new req required f).
Proof.
  unfold txn_write_prog. pose proof (@within_lead A) as Hl. destruct raft; [|done].
  apply Hl, within_get. intros [res|e]; [|done]. by destruct (check_compare _ _).
Qed.

Lemma txn_within req : None ∉ txn_success req → within 2 (txn_prog raft req).
Proof.
  intros Hs. unfold txn_prog. destruct (txn_compare req) as [|c [|]]; try done. destruct (txn_required c); [|done].
  destruct (txn_success req) as [|[op|] [|]]; try done; [|by destruct Hs; constructor].
  destruct (txn_check_failure _ _); [|done]. unfold txn_op_prog.
  destruct op; try done; repeat (case_bool_decide; [done|]); apply txn_write_within.
Qed.

(** Two calls are enough for any request. *)
Lemma kv_prog_within k req : request_ok k (api req) → within 2 (kv_prog raft req).
Proof.
  destruct req as [r|r|r|r|rev]; intros Hok; apply within_pmap.
  - destruct Hok as [Hb Hr]. split_and!; try done. unfold range_limit. destruct (rr_count_only r); [done|].
    destruct (_ =? 0); simpl; [width|]. unfold as_usize. apply Z.mod_pos_bound. width.
  - apply put_within.
  - apply delete_within.
  - by apply txn_within.
  - simpl. by intros [].
Qed.
End budget.

(** A program alone is its turns one after the other. *)
Lemma advance_run `{!BlockSize} raft {A} (p : prog A) s :
  run_prog raft p s = (r ← advance raft p s; run_prog raft r.2 r.1).
Proof.
  destruct p; cbn [run_prog advance]; try done.
  - by destruct (range _ _ _ _ _).
  - by destruct (set _ _ _ _).
  - by destruct (compact _ _).
  - by destruct (raft_write _ _ _).
Qed.

Section interleaving.
Context `{!BlockSize} (raft : option RaftNode) (k : nat).
Hypothesis Hraft : ∀ node, raft = Some node → applies_entries k node.

Notation raft_on := (bool_decide (is_Some raft)).

(** A turn calls what the program is at, and answers. *)
Lemma advance_does {A} n (p : prog A) :
  within (S n) p → does quiet (k + 1) (advance raft p) (λ t p', leads p t p' ∧ within n p').
Proof.
  pose proof (does_raft_write raft k Hraft) as Hprop.
  destruct p as [x|start end_ rev limit f|key new required f|rev f|f|req f|msg]; simpl; intros Hw.
  - apply does_still. intros s. eexists. split; [done|]. by split; [apply leads_refl|].
  - destruct Hw as (Hb & Hl & Hr & Hf). eapply (does_mono 1); [lia|intros t r Ht; exact Ht|].
    apply (does_op (ORange start end_ rev limit)); [done| |].
    + intros a Hne. split; [done|]. split; [done|]. destruct (decide (0 < rev)); [by left|right]. split; [lia|done].
    + intros s s' rep (r & Hs & [= <- <-])%bind_ret_inv. exists (f r). cbn [advance]. rewrite Hs, bind_ret. split; [done|].
      split; [apply leads_read, leads_refl|apply Hf].
  - eapply (does_mono 1); [lia| |apply (does_set key new required f)].
    intros t r (x & -> & ->). split; [apply leads_write, leads_refl|apply Hw].
  - eapply (does_mono 1); [lia|intros t r Ht; exact Ht|]. apply (does_op (OCompact rev)); [done|done|].
    intros s s' rep ([s1 r] & Hs & [= <- <-])%bind_ret_inv. exists (f r). cbn [advance]. rewrite Hs, bind_ret. split; [done|].
    split; [apply leads_compact, leads_refl|apply Hw].
  - apply does_still. intros s. eexists. split; [done|]. split; [eapply leads_current, leads_refl|apply Hw].
  - eapply (does_mono (k + 0)); [lia|intros t r Ht; exact Ht|].
    apply (does_seq k 0 _ (λ w s, Ret (s, f w)) _ _ (Hprop req)).
    intros w t Ht. apply does_still. intros s. eexists. split; [done|]. split; [|apply Hw].
    rewrite app_nil_r, <- (app_nil_r t). eapply leads_propose; [exact Ht|apply leads_refl].
  - done.
Qed.

(** What a turn does: the program it goes to takes a call, the others stay. *)
Lemma take_turn_moves y a t :
  turn_ok k t → Forall (λ p, ∃ n, within n p) (sys_progs y) →
  implements (sys_store y) a → hist a ≠ [] → room (sys_store y) a (k + 1) →
  ∃ y' l, take_turn raft y t = Ret y' ∧ moves quiet (k + 1) (sys_store y) a l (sys_store y') ∧
    length (sys_progs y') = length (sys_progs y) ∧ turn_does raft_on (length (sys_progs y)) t l ∧
    ∀ i p n, sys_progs y !! i = Some p → within n p →
      ∃ p', sys_progs y' !! i = Some p' ∧ leads p (if goes i t then l else []) p' ∧
        within (n - (if goes i t then 1 else 0)) p'.
Proof.
  intros Ht Hall Hi Hne Hroom.
  destruct t as [j|entries]; simpl.
  - destruct (sys_progs y !! j) as [q|] eqn:Hq.
    2: { exists y, []. split; [done|]. split; [apply moves_refl|]. split; [done|]. split; [done|]. intros i p n Hp Hw. exists p. split; [done|].
         case_bool_decide; [congruence|]. rewrite Nat.sub_0_r. by split; [apply leads_refl|]. }
    destruct (Forall_lookup_1 _ _ _ _ Hall Hq) as [m Hm].
    assert (∀ n, within n q → within (S (n - 1)) q) as Hpred by (intros n; apply within_mono; lia).
    destruct (advance_does _ q (Hpred m Hm) _ _ Hi Hne Hroom) as (s' & q' & l & Hr & Hmv & Hl & _).
    eexists _, l. rewrite Hr, bind_ret. split; [done|]. split; [done|]. simpl. split; [apply length_insert|].
    split; [intros Hge; apply lookup_lt_Some in Hq; lia|]. intros i p n Hp Hw.
    case_bool_decide as Hji.
    + subst j. rewrite Hp in Hq. injection Hq as <-. exists q'.
      rewrite list_lookup_insert_eq by (by eapply lookup_lt_Some). split; [done|]. split; [done|].
      destruct (advance_does _ p (Hpred n Hw) _ _ Hi Hne Hroom) as (s2 & q2 & l2 & Hr2 & _ & _ & Hw2).
      rewrite Hr in Hr2. by injection Hr2 as _ <-.
    + exists p. rewrite list_lookup_insert_ne by done. split; [done|]. rewrite Nat.sub_0_r. by split; [apply leads_refl|].
  - assert (∀ i p n y', sys_progs y' = sys_progs y → sys_progs y !! i = Some p → within n p →
      ∃ p', sys_progs y' !! i = Some p' ∧ leads p [] p' ∧ within (n - 0) p') as Hsame.
    { intros i p n y' -> Hp Hw. exists p. rewrite Nat.sub_0_r. split; [done|]. by split; [apply leads_refl|]. }
    clear Hraft. destruct raft as [node|]; [|exists y, []; split; [done|]; split; [apply moves_refl|]; split; [done|]; split; [done|]; eauto].
    simpl in Ht. destruct (does_apply_requests entries tt (sys_store y) a Hi Hne) as (s' & r & l & Hr & Hm & _ & Hl);
      [destruct Hroom; split; lia|].
    destruct (apply_requests (sys_store y) entries) as [s1|]; [|done]. injection Hr as -> _. rewrite bind_ret.
    eexists _, l. split; [done|]. split; [eapply moves_mono; [|exact Hm]; lia|]. split; [done|]. split; [done|]. intros i p n. by apply Hsame.
Qed.

Lemma exec_moves y a schedule :
  Forall (turn_ok k) schedule → Forall (λ p, ∃ n, within n p) (sys_progs y) →
  implements (sys_store y) a → hist a ≠ [] → room (sys_store y) a (length schedule * (k + 1)) →
  ∃ y' ts, exec raft y schedule = Ret y' ∧ Forall2 (turn_does raft_on (length (sys_progs y))) schedule ts ∧
    moves quiet (length schedule * (k + 1)) (sys_store y) a (concat ts) (sys_store y') ∧
    ∀ i p n, sys_progs y !! i = Some p → within n p →
      ∃ p', sys_progs y' !! i = Some p' ∧ leads p (calls i schedule ts) p' ∧ within (n - turns i schedule) p'.
Proof.
  revert y a. induction schedule as [|t schedule IH]; intros y a Hok Hall Hi Hne Hroom; simpl.
  { exists y, []. split; [done|]. split; [done|]. split; [apply moves_refl|]. intros i p n Hp Hw. exists p.
    rewrite Nat.sub_0_r. split; [done|]. by split; [apply leads_refl|]. }
  apply Forall_cons in Hok as [Ht Hok].
  destruct (take_turn_moves y a t Ht Hall Hi Hne) as (y1 & l & Hr & Hm & Hlen & Htd & Hp1); [destruct Hroom as [Hh Hc]; simpl in *; split; lia|].
  destruct (moves_implements _ _ _ _ _ _ Hi Hne Hroom Hm) as (a1 & Hi1 & Hne1 & Hroom1 & Hnext).
  destruct (IH y1 a1 Hok) as (y2 & ts & Hr2 & Hlen2 & Hm2 & Hp2); [|done..|].
  { apply Forall_lookup_2. intros i p1 Hp. destruct (lookup_lt_is_Some_2 (sys_progs y) i) as [p Hy];
      [rewrite <- Hlen; by eapply lookup_lt_Some|].
    destruct (Forall_lookup_1 _ _ _ _ Hall Hy) as [n Hn]. destruct (Hp1 i p n Hy Hn) as (p' & Hp' & _ & Hw).
    rewrite Hp in Hp'. injection Hp' as <-. by eexists. }
  exists y2, (l :: ts). rewrite Hr, bind_ret. split; [done|]. split; [constructor; [done|by rewrite <- Hlen]|]. split; [by apply Hnext|].
  intros i p n Hp Hw. destruct (Hp1 i p n Hp Hw) as (p1 & Hy1 & Hl1 & Hw1). destruct (Hp2 i p1 _ Hy1 Hw1) as (p2 & Hy2 & Hl2 & Hw2).
  exists p2. split; [done|]. split; [by eapply leads_trans|]. by rewrite Nat.sub_add_distr.
Qed.
End interleaving.

(** ** Two conditional writes *)

Lemma concat_two {A} (ts : list (list A)) n n' l l' e e' :
  ts !! n = Some l → ts !! n' = Some l' → (n < n')%nat → e ∈ l → e' ∈ l' →
  ∃ l1 l2 l3, concat ts = l1 ++ e :: l2 ++ e' :: l3.
Proof.
  intros Hl Hl' Hlt (a & b & ->)%list_elem_of_split (c & d & ->)%list_elem_of_split.
  rewrite <- (take_drop_middle ts n _ Hl), concat_app. simpl. set (rest := drop (S n) ts).
  assert (rest !! (n' - S n)%nat = Some (c ++ e' :: d)) as Hr
    by (unfold rest; rewrite lookup_drop; rewrite <- Hl'; f_equal; lia).
  rewrite <- (take_drop_middle rest _ _ Hr), concat_app. simpl.
  exists (concat (take n ts) ++ a), (b ++ concat (take (n' - S n) rest) ++ c), (d ++ concat (drop (S (n' - S n)) rest)).
  rewrite <- ?app_assoc. simpl. by rewrite <- ?app_assoc.
Qed.

(** A call of a request was made in a turn of it. *)
Lemma calls_turn i schedule ts e :
  e ∈ calls i schedule ts → ∃ n l, schedule !! n = Some (Go i) ∧ ts !! n = Some l ∧ e ∈ l.
Proof.
  revert ts. induction schedule as [|t schedule IH]; intros [|l ts]; simpl; try by intros ?%elem_of_nil.
  intros [He|He]%elem_of_app; [|destruct (IH _ He) as (n & l' & ? & ? & ?); by exists (S n), l'].
  destruct t as [j|entries]; simpl in He; [|by apply elem_of_nil in He].
  case_bool_decide; [subst j|by apply elem_of_nil in He]. by exists 0%nat, l.
Qed.

Lemma turn_calls i schedule ts n l e : schedule !! n = Some (Go i) → ts !! n = Some l → e ∈ l → e ∈ calls i schedule ts.
Proof.
  revert ts n. induction schedule as [|t schedule IH]; intros [|l' ts] [|n]; simpl; try done.
  - intros [= ->] [= ->] He. rewrite elem_of_app. left. simpl. by rewrite bool_decide_true.
  - intros Ht Hl He. rewrite elem_of_app. right. by eapply IH.
Qed.

Lemma replies_ok_app a t1 t2 :
  replies_ok a (t1 ++ t2 : trace).*1 (t1 ++ t2).*2 → replies_ok (final a t1.*1) t2.*1 t2.*2.
Proof. revert a. induction t1 as [|[o r] t1 IH]; intros a; csimpl; [done|]. intros [_ Hr]. by apply IH. Qed.

(** The latest change of a key only gets newer. *)
Lemma latest_newer h h' key v :
  hist_ok h' → h `prefix_of` h' → latest_of h key = Some v →
  ∃ v', latest_of h' key = Some v' ∧ mod_revision v ≤ mod_revision v'.
Proof.
  intros Hok [g ->] Hv. pose proof (hist_ok_app_l _ _ Hok) as Hok1.
  destruct (latest_of_lookup _ _ _ Hok1 Hv) as [Hb _]. unfold latest_of in *. rewrite events_app.
  destruct (last (events g key)) as [v'|] eqn:E.
  - exists v'. rewrite last_app, E. split; [done|]. pose proof (events_drop_newer (h ++ g) key (length h) v' Hok) as Hn.
    rewrite drop_app_length in Hn. specialize (Hn (last_Some_elem_of _ _ E)). lia.
  - apply last_None in E. rewrite E, app_nil_r. by exists v.
Qed.

Definition at_revision (m : Z) : SetRequired :=
  {| required_last_revision := Some m; required_version := None; compare_result := 0 |}.

Lemma set_at_revision h key v m rev :
  0 < m → (hist_set h key (Some v) (Some (at_revision m))).2 = Ok rev →
  ∃ w, latest_of h key = Some w ∧ mod_revision w = m.
Proof.
  intros Hm. unfold hist_set. pose proof (guard_equal h key (Some v) m ltac:(lia)) as Hg. fold (at_revision m) in Hg.
  rewrite Hg. unfold live_part, latest_or_null. simpl. destruct (latest_of h key) as [w|]; simpl.
  - destruct (is_live w); simpl; [|by rewrite (proj2 (Z.eqb_neq m 0)) by lia].
    destruct (Z.eqb_spec (mod_revision w) m); [by eauto|done].
  - by rewrite (proj2 (Z.eqb_neq m 0)) by lia.
Qed.

(** Of two writes of a key on the condition of one revision, one fails. *)
Lemma at_revision_once a t1 t2 t3 key v v' m rev rev' :
  hist_ok (hist (final a (t1 ++ (OPut key v (Some (at_revision m)), RWrite (Ok rev)) :: t2 : trace).*1)) → 0 < m →
  replies_ok a (t1 ++ (OPut key v (Some (at_revision m)), RWrite (Ok rev)) :: t2 ++
                  (OPut key v' (Some (at_revision m)), RWrite (Ok rev')) :: t3 : trace).*1
    (t1 ++ (OPut key v (Some (at_revision m)), RWrite (Ok rev)) :: t2 ++
                  (OPut key v' (Some (at_revision m)), RWrite (Ok rev')) :: t3).*2 → False.
Proof.
  intros Hok Hm Hr. apply replies_ok_app in Hr. rewrite fmap_app, final_app in Hok. csimpl in Hok.
  set (a1 := final a t1.*1) in *. csimpl in Hr. destruct Hr as [[= H1] Hr].
  apply (replies_ok_app _ t2) in Hr. csimpl in Hr. destruct Hr as [[= H2] _].
  set (a2 := anext a1 (OPut key v (Some (at_revision m)))) in *.
  pose proof (final_grows a2 t2.*1) as Hg. set (a3 := final a2 t2.*1) in *.
  change (hist_ok (hist a3)) in Hok. change (Ok rev' = (hist_set (hist a3) key (Some v') (Some (at_revision m))).2) in H2.
  assert (hist a2 = hist_write (hist a1) key (Some v)) as Hw.
  { unfold a2. simpl. unfold awrite. unfold hist_set in *. by destruct (guard _ _ _ _). }
  symmetry in H1, H2. destruct (set_at_revision _ _ _ _ _ Hm H1) as (w1 & Hl1 & E1).
  destruct (set_at_revision _ _ _ _ _ Hm H2) as (w3 & Hl3 & E3).
  rewrite Hw in Hg. destruct (latest_newer _ _ key _ Hok Hg (latest_of_snoc_eq _ _ _)) as (w & Hlw & Hle).
  rewrite Hl3 in Hlw. injection Hlw as <-. simpl in Hle.
  assert (hist_ok (hist a1)) as Hok1.
  { destruct Hg as [g Hg]. rewrite Hg in Hok. by apply hist_ok_app_l, hist_ok_app_l in Hok. }
  destruct (latest_of_lookup _ _ _ Hok1 Hl1) as [Hb _]. lia.
Qed.

Lemma at_revision_twice a (t : trace) t1 t2 key v v' m rev rev' :
  hist_ok (hist (final a t.*1)) → 0 < m → replies_ok a t.*1 t.*2 →
  t = t1 ++ (OPut key v (Some (at_revision m)), RWrite (Ok rev)) :: t2 →
  (OPut key v' (Some (at_revision m)), RWrite (Ok rev')) ∈ t2 → False.
Proof.
  intros Hok Hm Hrep -> (t3 & t4 & ->)%list_elem_of_split.
  apply (at_revision_once a t1 t3 t4 key v v' m rev rev'); [|done|done].
  rewrite app_comm_cons, app_assoc, fmap_app, final_app in Hok.
  destruct (final_grows (final a (t1 ++ (OPut key v (Some (at_revision m)), RWrite (Ok rev)) :: t3).*1)
    ((OPut key v' (Some (at_revision m)), RWrite (Ok rev')) :: t4).*1) as [g Hg].
  rewrite Hg in Hok. by apply hist_ok_app_l in Hok.
Qed.

(** What an update does, and what it answers. *)
Lemma update_does key v m t r :
  txn_does false (update_txn key v m) t r →
  match r with
  | Ok resp => ∃ x, t = [(OPut key v (Some (at_revision m)), RWrite x)] ∧ tresp_succeeded resp = is_ok x
  | Err _ => key = []
  end.
Proof.
  unfold txn_does, txn_plan, update_txn, txn_required, txn_check_failure. simpl.
  destruct (decide (key = [])) as [->|Hk]; [by intros [_ [e ->]]|].
  rewrite (bool_decide_false (key ≠ key)), (bool_decide_true (_ ∧ _)) by naive_solver.
  simpl. intros ([rev|[rev kv]] & -> & ->); by eexists.
Qed.

(** ** Requests side by side *)

Section requests.
Context `{!BlockSize} (raft : option RaftNode) (k : nat).
Hypothesis Hraft : ∀ node, raft = Some node → applies_entries k node.

Lemma requests_run s a reqs schedule :
  implements s a → hist a ≠ [] → room s a (length schedule * (k + 1)) →
  Forall (λ req, request_ok k (api req)) reqs → Forall (turn_ok k) schedule →
  ∃ y ts, let ops := (concat ts).*1 in
    exec raft (system_new raft s reqs) schedule = Ret y ∧
    Forall2 (turn_does (bool_decide (is_Some raft)) (length reqs)) schedule ts ∧
    run s ops = Ret (sys_store y, (concat ts).*2) ∧ legal_run a ops ∧
    replies_ok a ops (concat ts).*2 ∧ implements (sys_store y) (final a ops) ∧
    ∀ i req, reqs !! i = Some req →
      ∃ p, sys_progs y !! i = Some p ∧ leads (kv_prog raft req) (calls i schedule ts) p ∧
        ((2 ≤ turns i schedule)%nat → ∃ rep, p = Done rep) ∧
        ∀ rep, p = Done rep → handled (bool_decide (is_Some raft)) (api req) (calls i schedule ts) rep.
Proof.
  intros Hi Hne Hroom Hreqs Hok.
  destruct (exec_moves raft k Hraft (system_new raft s reqs) a schedule) as (y & ts & Hex & Hlen & [Hrun Hleg _ Hl] & Hp); try done.
  { apply Forall_fmap. eapply Forall_impl; [exact Hreqs|]. intros req Hr. exists 2%nat. by apply (kv_prog_within raft k). }
  simpl in *. rewrite length_fmap in Hlen. exists y, ts. split; [done|]. split; [done|]. split; [done|]. split; [done|]. destruct Hroom as [Hh Hc].
  assert (length (concat ts).*1 = length (concat ts)) as Hfl by apply length_fmap.
  destruct (run_implements s a (concat ts).*1) as (s' & rs & Hrun' & Himp & Hrep); [done|done|lia..|].
  rewrite Hrun in Hrun'. injection Hrun' as <- <-. split; [done|]. split; [done|].
  intros i req Hreq. pose proof (kv_prog_within raft k req (Forall_lookup_1 _ _ _ _ Hreqs Hreq)) as Hw.
  destruct (Hp i (kv_prog raft req) 2%nat) as (p & Hyp & Hlead & Hw2); [by rewrite list_lookup_fmap, Hreq|done|].
  exists p. split; [done|]. split; [done|]. split.
  - intros Ht. apply within_done. by replace 0%nat with (2 - turns i schedule)%nat by lia.
  - intros rep ->. by apply kv_prog_trace.
Qed.
End requests.

(** Of two updates on one condition the second to come finds it broken. *)
Lemma updates_exclusive `{!BlockSize} s a reqs schedule y i j key v v' m ri rj :
  implements s a → hist a ≠ [] → room s a (length schedule) →
  Forall (λ req, request_ok 0 (api req)) reqs → Forall (turn_ok 0) schedule → 0 < m → i ≠ j →
  reqs !! i = Some (Txn (update_txn key v m)) → reqs !! j = Some (Txn (update_txn key v' m)) →
  exec None (system_new None s reqs) schedule = Ret y →
  sys_progs y !! i = Some (Done (KvTxnDone (Ok ri))) → sys_progs y !! j = Some (Done (KvTxnDone (Ok rj))) →
  tresp_succeeded ri = true → tresp_succeeded rj = false.
Proof.
  intros Hi Hne Hroom Hreqs Hok Hm Hij Hri Hrj Hex Hpi Hpj Hwi.
  destruct (tresp_succeeded rj) eqn:Hwj; [exfalso|done].
  destruct (requests_run None 0) with (s := s) (a := a) (reqs := reqs) (schedule := schedule)
    as (y' & ts & Hex' & _ & _ & _ & Hrep & Himp & Hall); try done.
  { by rewrite Nat.mul_1_r. }
  rewrite Hex in Hex'. injection Hex' as <-.
  assert (∀ i v r, reqs !! i = Some (Txn (update_txn key v m)) → sys_progs y !! i = Some (Done (KvTxnDone (Ok r))) →
    tresp_succeeded r = true → ∃ n l rev, schedule !! n = Some (Go i) ∧ ts !! n = Some l ∧
      (OPut key v (Some (at_revision m)), RWrite (Ok rev)) ∈ l) as Hcall.
  { intros i0 v0 r Hr Hp Hw. destruct (Hall _ _ Hr) as (p & Hy & _ & _ & Hh). rewrite Hp in Hy. injection Hy as <-.
    destruct (Hh _ eq_refl) as (r' & [= <-] & Hd). destruct (update_does _ _ _ _ _ Hd) as ([rev|e] & Hc & Hs); [|by rewrite Hw in Hs].
    destruct (calls_turn i0 schedule ts (OPut key v0 (Some (at_revision m)), RWrite (Ok rev))) as (n & l & ? & ? & ?);
      [rewrite Hc; set_solver|]. by exists n, l, rev. }
  destruct (Hcall _ _ _ Hri Hpi Hwi) as (n & l & rev & Hn & Hl & Hin).
  destruct (Hcall _ _ _ Hrj Hpj Hwj) as (n' & l' & rev' & Hn' & Hl' & Hin').
  pose proof (λ t1 t2 v v' rev rev', at_revision_twice a (concat ts) t1 t2 key v v' m rev rev'
    (sr_hist _ _ (im_repr _ _ Himp)) Hm Hrep) as Honce.
  assert (n ≠ n') as Hnn by (intros ->; rewrite Hn in Hn'; congruence).
  destruct (decide (n < n')%nat) as [Hlt|Hlt].
  - destruct (concat_two ts n n' l l' _ _ Hl Hl' Hlt Hin Hin') as (t1 & t2 & t3 & Ht). eapply Honce; [exact Ht|]. apply elem_of_app. right. apply elem_of_cons. left. reflexivity.
  - destruct (concat_two ts n' n l' l _ _ Hl' Hl ltac:(lia) Hin' Hin) as (t1 & t2 & t3 & Ht).
    eapply Honce; [exact Ht|]. apply elem_of_app. right. apply elem_of_cons. left. reflexivity.
Qed.

(** ** Updates of one key *)

Lemma failing_keeps a (t : trace) :
  replies_ok a t.*1 t.*2 → Forall (λ e, ∃ key v req x, e = (OPut key v req, RWrite (Err x))) t → final a t.*1 = a.
Proof.
  revert a. induction t as [|e t IH]; intros a; csimpl; [done|]. intros [Hr Hrep] [(key & v & req & x & ->) Hall]%Forall_cons.
  simpl in Hr. injection Hr as Hr. assert (anext a (OPut key v req) = a) as Ha.
  { simpl. unfold awrite. destruct (hist_set _ _ _ _) as [h' [rev|e]]; [by simpl in Hr|done]. }
  simpl in Ha, Hrep |- *. rewrite Ha in Hrep |- *. by apply IH.
Qed.

Lemma live_kv_changed h key kv : hist_ok h → live_kv h key = Some kv → 0 < kv_mod_revision kv ∧ h ≠ [].
Proof.
  unfold live_kv, latest_or_null. intros Hh (w & Hw & ->)%fmap_Some.
  destruct (latest_of h key) as [u|] eqn:Hu; simpl in Hw; [|done]. destruct (latest_of_lookup _ _ _ Hh Hu) as [Hb _].
  destruct (is_live u); [|done]. injection Hw as <-. simpl. split; [lia|]. intros ->. by simpl in Hu.
Qed.

(** A condition that holds of the newest change. *)
Lemma set_at_revision_holds h key v kv :
  live_kv h key = Some kv → 0 ≤ kv_mod_revision kv →
  hist_set h key (Some v) (Some (at_revision (kv_mod_revision kv))) = (hist_write h key (Some v), Ok (Z.of_nat (length h) + 1)).
Proof.
  unfold live_kv. intros (w & Hw & ->)%fmap_Some Hm. unfold hist_set.
  pose proof (guard_equal h key (Some v) (kv_mod_revision (as_mvcc_key_value w key)) Hm) as Hg.
  fold (at_revision (kv_mod_revision (as_mvcc_key_value w key))) in Hg. rewrite Hg, Hw. by rewrite Z.eqb_refl.
Qed.

(** Updates that all had their turns: each has answered by one conditional write, and there
    is nothing else in the run. *)
Lemma updates_run `{!BlockSize} s a vs schedule key m :
  implements s a → hist a ≠ [] → room s a (length schedule) → Forall (turn_ok 0) schedule → key ≠ [] →
  (∀ j, (j < length vs)%nat → (2 ≤ turns j schedule)%nat) →
  let reqs := (λ v, Txn (update_txn key v m)) <$> vs in
  ∃ y ts, exec None (system_new None s reqs) schedule = Ret y ∧
    replies_ok a (concat ts).*1 (concat ts).*2 ∧ implements (sys_store y) (final a (concat ts).*1) ∧
    (∀ j v, vs !! j = Some v → ∃ resp x, sys_progs y !! j = Some (Done (KvTxnDone (Ok resp))) ∧
      tresp_succeeded resp = is_ok x ∧ (OPut key v (Some (at_revision m)), RWrite x) ∈ concat ts) ∧
    (∀ e, e ∈ concat ts → ∃ j v x resp, vs !! j = Some v ∧ e = (OPut key v (Some (at_revision m)), RWrite x) ∧
      sys_progs y !! j = Some (Done (KvTxnDone (Ok resp))) ∧ tresp_succeeded resp = is_ok x).
Proof.
  intros Hi Hne Hroom Hok Hk Hturns reqs.
  destruct (requests_run None 0) with (s := s) (a := a) (reqs := reqs) (schedule := schedule)
    as (y & ts & Hex & Htd & _ & _ & Hrep & Himp & Hall); try done.
  { by rewrite Nat.mul_1_r. }
  { apply Forall_fmap, Forall_true. intros v. by intros ?%list_elem_of_singleton. }
  assert (∀ j v, vs !! j = Some v → ∃ resp x, sys_progs y !! j = Some (Done (KvTxnDone (Ok resp))) ∧
    tresp_succeeded resp = is_ok x ∧ calls j schedule ts = [(OPut key v (Some (at_revision m)), RWrite x)]) as Hans.
  { intros j v Hj. destruct (Hall j (Txn (update_txn key v m))) as (p & Hp & _ & Hd & Hh);
      [unfold reqs; by rewrite list_lookup_fmap, Hj|].
    destruct Hd as [rep ->]; [apply Hturns; by eapply lookup_lt_Some|].
    destruct (Hh _ eq_refl) as (r & -> & Hdoes). apply update_does in Hdoes. destruct r as [resp|e]; [|done].
    destruct Hdoes as (x & Hc & Hs). by exists resp, x. }
  exists y, ts. split; [done|]. split; [done|]. split; [done|]. split.
  - intros j v Hj. destruct (Hans j v Hj) as (resp & x & Hp & Hs & Hc). exists resp, x. split; [done|]. split; [done|].
    destruct (calls_turn j schedule ts (OPut key v (Some (at_revision m)), RWrite x)) as (n & l & _ & Hl & Hin);
      [rewrite Hc; set_solver|]. apply list_elem_of_In, in_concat. exists l. rewrite <- !list_elem_of_In.
    split; [by eapply list_elem_of_lookup_2|done].
  - intros e He. apply list_elem_of_In, in_concat in He as (l & Hl & He). apply list_elem_of_In in Hl. apply list_elem_of_In in He.
    apply list_elem_of_lookup in Hl as [n Hl]. destruct (Forall2_lookup_r _ _ _ _ _ Htd Hl) as (t & Ht & Hdo).
    destruct t as [j|entries]; simpl in Hdo; [|destruct l; [by apply elem_of_nil in He|done]].
    destruct (decide (length reqs ≤ j)%nat) as [Hge|Hlt]; [rewrite (Hdo Hge) in He; by apply elem_of_nil in He|].
    destruct (lookup_lt_is_Some_2 vs j) as [v Hv]; [unfold reqs in Hlt; rewrite length_fmap in Hlt; lia|].
    destruct (Hans j v Hv) as (resp & x & Hp & Hs & Hc). exists j, v, x, resp. split; [done|]. split; [|done].
    pose proof (turn_calls j schedule ts n l e Ht Hl He) as Hin. rewrite Hc in Hin. by apply list_elem_of_singleton in Hin.
Qed.

(** ** Properties *)


(** C19: an update is decided once. Of transactions that run side by side without Raft, among
    any other requests and in any order, and write a key on the condition of the same
    modification revision, at most one succeeds. *)
Theorem one_update_wins `{!BlockSize} s a reqs schedule y i j key v v' m ri rj :
  implements s a → hist a ≠ [] → room s a (length schedule) →
  Forall (λ req, request_ok 0 (api req)) reqs → Forall (turn_ok 0) schedule → 0 < m → i ≠ j →
  reqs !! i = Some (Txn (update_txn key v m)) → reqs !! j = Some (Txn (update_txn key v' m)) →
  exec None (system_new None s reqs) schedule = Ret y →
  sys_progs y !! i = Some (Done (KvTxnDone (Ok ri))) → sys_progs y !! j = Some (Done (KvTxnDone (Ok rj))) →
  tresp_succeeded ri = true → tresp_succeeded rj = false.
Proof. apply updates_exclusive. Qed.

(** C20: one update is decided. Any number of clients update one key on the condition of the
    modification revision it has, side by side and without Raft: however their calls
    interleave, once each had two turns all are answered, exactly one of them has succeeded,
    and the key has its value. *)
Theorem updates_decided `{!BlockSize} s a vs schedule key kv :
  implements s a → room s a (length schedule) → Forall (turn_ok 0) schedule → key ≠ [] → vs ≠ [] →
  live_kv (hist a) key = Some kv → (∀ j, (j < length vs)%nat → (2 ≤ turns j schedule)%nat) →
  let reqs := (λ v, Txn (update_txn key v (kv_mod_revision kv))) <$> vs in
  ∃ y i v, exec None (system_new None s reqs) schedule = Ret y ∧ vs !! i = Some v ∧
    store_repr (sys_store y) (hist_write (hist a) key (Some v)) ∧
    ∀ j, (j < length vs)%nat → ∃ resp, sys_progs y !! j = Some (Done (KvTxnDone (Ok resp))) ∧
      tresp_succeeded resp = bool_decide (j = i).
Proof.
  intros Hi Hroom Hok Hk Hvs Hlive Hturns reqs. pose proof (sr_hist _ _ (im_repr _ _ Hi)) as Hh.
  destruct (live_kv_changed _ _ _ Hh Hlive) as [Hm Hne].
  destruct (updates_run s a vs schedule key (kv_mod_revision kv)) as (y & ts & Hex & Hrep & Himp & Hans & Hlog); try done.
  pose proof (λ t1 t2 v v' rev rev', at_revision_twice a (concat ts) t1 t2 key v v' _ rev rev'
    (sr_hist _ _ (im_repr _ _ Himp)) Hm Hrep) as Honce.
  destruct (lookup_lt_is_Some_2 vs 0) as [v0 Hv0]; [destruct vs; simpl; [done|lia]|].
  destruct (concat ts) as [|e rest] eqn:Hts; [destruct (Hans _ _ Hv0) as (? & ? & _ & _ & []%elem_of_nil)|].
  destruct (Hlog e) as (i & v & x & resp & Hv & -> & Hp & Hs); [by left|].
  destruct Hrep as [Hr Hrep]. simpl in Hr. pose proof (set_at_revision_holds (hist a) key v kv Hlive ltac:(lia)) as Hset.
  rewrite Hset in Hr. injection Hr as ->. exists y, i, v. split; [done|]. split; [done|]. split.
  - assert (hist (anext a (OPut key v (Some (at_revision (kv_mod_revision kv))))) = hist_write (hist a) key (Some v)) as Hw
      by (simpl; unfold awrite; by rewrite Hset).
    rewrite <- Hw. pose proof (im_repr _ _ Himp) as Hst. csimpl in Hst. rewrite failing_keeps in Hst; [done|done|].
    apply Forall_forall. intros e He. destruct (Hlog e) as (j & v' & x & resp' & _ & -> & _); [by right|].
    destruct x as [rev'|er]; [|by eauto]. exfalso. by eapply (Honce [] rest).
  - intros j Hj. destruct (lookup_lt_is_Some_2 vs j Hj) as [v' Hv']. destruct (Hans _ _ Hv') as (resp' & x & Hp' & Hs' & _).
    exists resp'. split; [done|]. case_bool_decide as Hji; [subst j; rewrite Hp in Hp'; by injection Hp' as <-|].
    eapply (updates_exclusive s a reqs schedule y i j); try done; unfold reqs; rewrite ?list_lookup_fmap, ?Hv, ?Hv'; try done.
    apply Forall_fmap, Forall_true. intros u. by intros ?%list_elem_of_singleton.
Qed.

(** ** Sample systems *)

(** Two updates of one key on the condition of its revision, and a read. *)
Definition pod_a : ByteArray := bytes "/registry/pods/a".

Definition sample_side : list KvRequest :=
  [Txn (update_txn pod_a (bytes "mine") 3); Txn (update_txn pod_a (bytes "yours") 3);
   Range (mkRangeRequest pod_a [] 0 0 false)].

Definition sample_turns : list Turn := [Go 0; Go 1; Go 2; Go 0; Go 1; Go 2].

Definition won (p : option (prog ApiReply)) : option bool :=
  match p with Some (Done (KvTxnDone (Ok resp))) => Some (tresp_succeeded resp) | _ => None end.

Lemma sample_side_ok : Forall (λ req, request_ok 0 (api req)) sample_side.
Proof.
  do 2 (apply Forall_cons_2; [by intros ?%list_elem_of_singleton|]).
  apply Forall_cons_2; [vm_compute; repeat split; discriminate|apply Forall_nil_2].
Qed.

Lemma sample_room n : Z.of_nat n ≤ 100 → room sample_store sample_spec n.
Proof.
  intros Hn. assert (length (hist sample_spec) = 5%nat) as E1 by (vm_compute; reflexivity).
  assert (length (channels sample_store) = 1%nat) as E2 by (vm_compute; reflexivity).
  unfold room. rewrite E1, E2. unfold i64_max. lia.
Qed.


(** The requests, after their turns. *)
Definition sample_end : list (prog ApiReply) :=
  match exec (H:=block_size_2) None (system_new None sample_store sample_side) sample_turns with
  | Ret y => sys_progs y
  | Panic _ => []
  end.

Lemma one_update_wins_witness : won (sample_end !! 0%nat) = Some true ∧ won (sample_end !! 1%nat) = Some false.
Proof.
  destruct (exec (H:=block_size_2) None (system_new None sample_store sample_side) sample_turns) as [y|m] eqn:E;
    [|vm_compute in E; discriminate E].
  assert (sample_end = sys_progs y) as Hy by (unfold sample_end; by rewrite E).
  assert (won (sys_progs y !! 0%nat) = Some true) as H0 by (rewrite <- Hy; vm_compute; reflexivity).
  assert (is_Some (won (sys_progs y !! 1%nat))) as [b H1] by (rewrite <- Hy; vm_compute; by eexists).
  rewrite Hy. split; [exact H0|]. unfold won in *.
  destruct (sys_progs y !! 0%nat) as [[[| | |[ri|]| | | | | | | | | | | |]| | | | | |]|] eqn:E0; try discriminate H0.
  destruct (sys_progs y !! 1%nat) as [[[| | |[rj|]| | | | | | | | | | | |]| | | | | |]|] eqn:E1; try discriminate H1.
  f_equal. apply (@one_update_wins block_size_2 sample_store sample_spec sample_side sample_turns y 0 1 pod_a
    (bytes "mine") (bytes "yours") 3 ri rj).
  - exact sample_implements.
  - vm_compute. discriminate.
  - apply sample_room. vm_compute. discriminate.
  - exact sample_side_ok.
  - repeat constructor.
  - lia.
  - lia.
  - reflexivity.
  - reflexivity.
  - exact E.
  - exact E0.
  - exact E1.
  - by injection H0.
Defined.

Definition pod_a_now : KeyValue := default (as_mvcc_key_value null_value pod_a) (live_kv (hist sample_spec) pod_a).

Lemma updates_decided_witness :
  ∃ y i v, exec (H:=block_size_2) None
      (system_new None sample_store ((λ v, Txn (update_txn pod_a v (kv_mod_revision pod_a_now))) <$> [bytes "x"; bytes "y"; bytes "z"]))
      [Go 0; Go 1; Go 2; Go 2; Go 1; Go 0] = Ret y ∧
    store_repr (H:=block_size_2) (sys_store y) (hist_write (hist sample_spec) pod_a (Some v)) ∧ (i < 3)%nat.
Proof.
  destruct (@updates_decided block_size_2 sample_store sample_spec [bytes "x"; bytes "y"; bytes "z"]
    [Go 0; Go 1; Go 2; Go 2; Go 1; Go 0] pod_a pod_a_now) as (y & i & v & Hex & Hv & Hst & _).
  - exact sample_implements.
  - apply sample_room. vm_compute. discriminate.
  - repeat constructor.
  - discriminate.
  - discriminate.
  - vm_compute. reflexivity.
  - intros [|[|[|j]]] Hj; [vm_compute; lia..|simpl in Hj; lia].
  - exists y, i, v. split; [exact Hex|]. split; [exact Hst|]. exact (lookup_lt_Some _ _ _ Hv).
Defined.

(** In Raft mode the condition is checked on a read before the write is proposed, so both
    updates win when their reads come first. *)
Example raft_updates_both_win :
  match exec (H:=block_size_2) (Some (leading_node 1 [])) (system_new (Some (leading_node 1 [])) sample_store sample_side)
          [Go 0; Go 1; Go 0; Go 1] with
  | Ret y => won (sys_progs y !! 0%nat) = Some true ∧ won (sys_progs y !! 1%nat) = Some true
  | Panic _ => False
  end.
Proof. vm_compute. split; reflexivity. Qed.

(** A put that keeps the value writes back the one it has read: a put in between is undone. *)
Example ignore_value_reverts_put :
  match exec (H:=block_size_2) None
          (system_new None sample_store
             [Put (mkPutRequest pod_a [] false true); Put (mkPutRequest pod_a (bytes "new") false false);
              Range (mkRangeRequest pod_a [] 0 0 false); Range (mkRangeRequest pod_a [] 5 0 false)])
          [Go 0; Go 1; Go 0; Go 2; Go 3] with
  | Ret y =>
      match sys_progs y !! 2%nat, sys_progs y !! 3%nat with
      | Some (Done (KvRanged (Ok now))), Some (Done (KvRanged (Ok before))) =>
          kv_value <$> rresp_kvs now = kv_value <$> rresp_kvs before ∧ kv_mod_revision <$> rresp_kvs now = [7]
      | _, _ => False
      end
  | Panic _ => False
  end.
Proof. vm_compute. split; reflexivity. Qed.

(** Two deletes of one key that read it before either writes both answer that they deleted
    it. *)
Example delete_counted_twice :
  match exec (H:=block_size_2) None
          (system_new None sample_store
             [DeleteRange (mkDeleteRangeRequest pod_a [] false); DeleteRange (mkDeleteRangeRequest pod_a [] false)])
          [Go 0; Go 1; Go 0; Go 1] with
  | Ret y =>
      match sys_progs y !! 0%nat, sys_progs y !! 1%nat with
      | Some (Done (KvDeleted (Ok r1))), Some (Done (KvDeleted (Ok r2))) => dresp_deleted r1 = 1 ∧ dresp_deleted r2 = 1
      | _, _ => False
      end
  | Panic _ => False
  end.
Proof. vm_compute. split; reflexivity. Qed.
