(* ===== verification/Stress.v ===== *)
(** * The stress client (src/stress-client/src/main.rs)

    The load generator beside the server: rounds of puts of the same keys, each round with
    its puts in any order, then one range query per 500 keys at a revision of the past. The
    client is run against the key-value service of a single node. Connections, the prompt
    and the clock are left out. *)
From S2P Require Import Prelude Bytes BTreeMap BlockDeque Heap Types Wal Prefix History Store StoreSpec WatchSpec StoreTrace StoreProps Notify Recovery Raft Peers KvService.

Record Args := mkArgs { keys : Z; iterations : Z; threads : Z }.

(** [format!("/registry/minions/node-{}", i)] *)
Definition client_key (i : Z) : ByteArray := bytes "/registry/minions/node-" ++ show_u64 i.

(** "hello", padded with zeros to 4096 bytes. *)
Definition client_value : ByteArray := bytes "hello" ++ replicate (4096 - 5) Byte.x00.

Definition put_request (i : Z) : PutRequest := mkPutRequest (client_key i) client_value false false.

(** [((iterations - 2) * keys) as i64], in the width of [usize] *)
Definition query_revision (args : Args) : Z :=
  as_i64 (as_usize (usize_sub (iterations args) 2 * keys args)).

Definition query (args : Args) (i : Z) : RangeRequest :=
  mkRangeRequest (client_key i) (bytes "/registry/minions/z") 500 (query_revision args) false.

(** [(0..keys).step_by(500)] *)
Definition query_starts (args : Args) : list Z :=
  (λ n, 500 * n) <$> seqZ 0 ((keys args + 499) / 500).

Section client.
Context `{!BlockSize}.

(** The puts in the order the server takes them; an error is printed. *)
Fixpoint put_all (s : Store) (ids : list Z) : outcome Store :=
  match ids with
  | [] => Ret s
  | i :: ids' => r ← kv_put None (put_request i) s; put_all r.1 ids'
  end.

(** The queries; an error ends the client. *)
Fixpoint query_all (args : Args) (s : Store) (ids : list Z) : outcome (Result (list RangeResponse) Status) :=
  match ids with
  | [] => Ret (Ok [])
  | i :: ids' =>
      r ← kv_range (query args i) s;
      match r.2 with
      | Err e => Ret (Err e)
      | Ok resp =>
          rest ← query_all args r.1 ids';
          Ret (match rest with Ok resps => Ok (resp :: resps) | Err e => Err e end)
      end
  end.

(** [main]: [rounds] has the order of the puts of each iteration. The duration is divided
    by the number of full queries. *)
Definition stress (args : Args) (rounds : list (list Z)) (s : Store) :
    outcome (Store * Result (list RangeResponse) Status) :=
  if (threads args =? 0) && (0 <? keys args) then
    Panic "attempt to calculate the remainder with a divisor of zero"
  else
    s' ← put_all s (concat rounds);
    r ← query_all args s' (query_starts args);
    match r with
    | Err e => Ret (s', Err e)
    | Ok resps =>
        if as_u32 (keys args / 500) =? 0 then Panic "divide by zero error when dividing duration by scalar"
        else Ret (s', Ok resps)
    end.

(** ** The puts *)

Definition puts (h : history) (ids : list Z) : history :=
  foldl (λ g i, hist_write g (client_key i) (Some client_value)) h ids.

Lemma puts_length h ids : length (puts h ids) = (length h + length ids)%nat.
Proof.
  unfold puts. revert h. induction ids as [|i ids IH]; intros h; simpl; [lia|].
  rewrite IH. unfold hist_write. rewrite length_app. simpl. lia.
Qed.

Lemma puts_app h ids js : puts h (ids ++ js) = puts (puts h ids) js.
Proof. unfold puts. by rewrite foldl_app. Qed.

Lemma puts_grows h ids : h `prefix_of` puts h ids.
Proof.
  unfold puts. revert h. induction ids as [|i ids IH]; intros h; simpl; [done|].
  etrans; [|apply IH]. unfold hist_write. by apply prefix_app_r.
Qed.

(** The newest change of a key that was put is a put. *)
Lemma puts_latest h ids j :
  j ∈ ids → ∃ v, latest_of (puts h ids) (client_key j) = Some v ∧ value v = Some client_value ∧
    Z.of_nat (length h) < mod_revision v.
Proof.
  induction ids as [|i ids IH] using rev_ind; [by intros ?%elem_of_nil|].
  rewrite puts_app. cbn [puts foldl]. unfold hist_write. pose proof (puts_length h ids) as Hl.
  destruct (decide (client_key i = client_key j)) as [->|Hne].
  - intros _. rewrite latest_of_snoc_eq. eexists. split; [done|]. split; [done|]. simpl. lia.
  - rewrite latest_of_snoc_ne by done. intros [Hj|Hj%list_elem_of_singleton]%elem_of_app; [by apply IH|by subst].
Qed.

(** What a revision after the puts of [is] sees of their keys. *)
Lemma puts_found h ids js j rev c :
  j ∈ ids → Z.of_nat (length h) + Z.of_nat (length ids) ≤ rev → c ≤ Z.of_nat (length h) →
  ∃ v, found (puts h (ids ++ js)) c (client_key j) rev = Some v.
Proof.
  intros Hj Hrev Hc. set (n := (Z.to_nat rev - length h)%nat).
  assert (take (Z.to_nat rev) (puts h (ids ++ js)) = puts h (take n (ids ++ js))) as Htake.
  { rewrite <- (take_drop n (ids ++ js)) at 1. rewrite puts_app.
    destruct (puts_grows (puts h (take n (ids ++ js))) (drop n (ids ++ js))) as [t Ht]. rewrite Ht.
    pose proof (f_equal length Ht) as Hlt. rewrite length_app, !puts_length, length_take, length_drop in Hlt.
    destruct (decide (n ≤ length (ids ++ js))%nat) as [Hle|Hgt].
    - apply take_app_length'. rewrite puts_length, length_take. lia.
    - assert (t = []) as -> by (apply length_zero_iff_nil; lia).
      rewrite app_nil_r. apply take_ge. rewrite puts_length, length_take. lia. }
  destruct (puts_latest h (take n (ids ++ js)) j) as (v & Hv & Hval & Hm).
  { rewrite take_app_ge by lia. by apply elem_of_app; left. }
  exists v. unfold found, value_at. rewrite Htake, Hv. simpl. unfold is_live. rewrite Hval. simpl.
  by rewrite (proj2 (Z.ltb_lt _ _)) by lia.
Qed.

Lemma put_all_spec s h ids :
  store_repr s h → Z.of_nat (length h) + Z.of_nat (length ids) ≤ i64_max →
  ∃ s', put_all s ids = Ret s' ∧ store_repr s' (puts h ids) ∧ first_index s' = first_index s.
Proof.
  revert s h. induction ids as [|i ids IH]; intros s h Hr Hroom; [by exists s|]. simpl length in Hroom.
  destruct (set_spec s h (client_key i) (Some client_value) None Hr) as (s1 & Hs1 & Hr1 & Hf1 & _); [lia|].
  assert (hist_set h (client_key i) (Some client_value) None =
    (hist_write h (client_key i) (Some client_value), Ok (Z.of_nat (length h) + 1))) as Eh.
  { unfold hist_set, guard. by rewrite (bool_decide_eq_true_2 (is_Some (Some client_value))), orb_true_r. }
  rewrite Eh in Hs1, Hr1. simpl in Hs1, Hr1.
  destruct (IH s1 _ Hr1) as (s' & Hs' & Hr' & Hf').
  { unfold hist_write. rewrite length_app. simpl. lia. }
  exists s'. split; [|split; [done|by rewrite Hf']]. cbn [put_all].
  unfold kv_put, and_then, put_request, answer. cbn [pr_prev_kv pr_ignore_value pr_key pr_value orb].
  rewrite !bind_ret. cbn [snd fst]. rewrite Hs1, !bind_ret. exact Hs'.
Qed.

(** ** The queries *)

Definition client_prefix : ByteArray := bytes "/registry/minions/".
Definition client_name (i : Z) : ByteArray := bytes "node-" ++ show_u64 i.

Lemma client_key_split i : client_key i = client_prefix ++ client_name i.
Proof. done. Qed.

Lemma minions_owns z : prefix_split (client_prefix ++ z) = (client_prefix, z).
Proof. apply (resource_prefix_owns (bytes "minions")); apply (bool_decide_unpack _); vm_compute; exact I. Qed.

Lemma query_bounds i :
  prefix_and_range_of_key (client_key i) (bytes "/registry/minions/z") =
    Ok (client_prefix, (Included (client_name i), Excluded (bytes "z"))).
Proof.
  unfold prefix_and_range_of_key. rewrite client_key_split, minions_owns.
  change (bytes "/registry/minions/z") with (client_prefix ++ bytes "z"). rewrite minions_owns. reflexivity.
Qed.

Lemma client_name_below i : olt (client_name i) (bytes "z").
Proof. reflexivity. Qed.

(** The answer of one query: up to 500 of the keys it finds, and how many it finds. *)
Record query_answer (h : history) (c rev i : Z) (resp : RangeResponse) (full : list KeyValue) : Prop := {
  qa_header : hdr_revision (rresp_header resp) = Z.of_nat (length h);
  qa_kvs : rresp_kvs resp = take 500 full;
  qa_count : rresp_count resp = Z.of_nat (length full);
  qa_full : ∀ j v, ole (client_name i) (client_name j) →
    found h c (client_key j) (read_revision h rev) = Some v → as_mvcc_key_value v (client_key j) ∈ full;
}.

Lemma query_spec args s h i :
  store_repr s h → readable s h (query_revision args) →
  ∃ resp full, kv_range (query args i) s = Ret (s, Ok resp) ∧
    query_answer h (first_index s) (query_revision args) i resp full.
Proof.
  intros Hr Hrd.
  destruct (range_spec_gen s h (client_key i) (bytes "/registry/minions/z") (query_revision args) (Some 500)
    client_prefix (Included (client_name i), Excluded (bytes "z"))) as (full & Hres & _ & Hfull); try done.
  { apply query_bounds. }
  unfold kv_range, and_then, store_range, range_limit, query, answer. cbn [rr_count_only rr_limit rr_key rr_range_end rr_revision].
  change (500 =? 0) with false. cbv iota. change (as_usize 500) with 500. rewrite Hres, !bind_ret.
  eexists _, full. split; [done|]. split; simpl; try done.
  intros j v Hle Hv. apply Hfull. exists (client_name j), v. rewrite minions_owns. split; [done|]. split; [|done].
  unfold in_bounds. simpl. rewrite (proj2 (oleb_le _ _) Hle), (proj2 (oltb_lt _ _) (client_name_below j)). done.
Qed.

Lemma query_all_spec args s h ids :
  store_repr s h → readable s h (query_revision args) →
  ∃ resps, query_all args s ids = Ret (Ok resps) ∧
    Forall2 (λ i resp, ∃ full, query_answer h (first_index s) (query_revision args) i resp full) ids resps.
Proof.
  intros Hr Hrd. induction ids as [|i ids (resps & Hq & Hall)]; [exists []; split; [done|constructor]|].
  destruct (query_spec args s h i Hr Hrd) as (resp & full & Hk & Ha).
  exists (resp :: resps). cbn [query_all]. rewrite Hk, bind_ret. cbn [snd fst]. rewrite Hq, bind_ret.
  split; [done|]. constructor; [by exists full|done].
Qed.
End client.

Lemma rounds_length keys rounds :
  0 ≤ keys → Forall (λ r, r ≡ₚ seqZ 0 keys) rounds →
  Z.of_nat (length (concat rounds)) = Z.of_nat (length rounds) * keys.
Proof.
  intros Hk. induction 1 as [|r rounds Hr _ IH]; [done|]. cbn [concat length].
  rewrite length_app, (Permutation_length Hr), length_seqZ. lia.
Qed.

(** ** Properties *)



(** ** Arguments the client does not survive *)

(** One iteration makes the subtraction wrap: the revision asked for is negative, and the
    assertion of the server fails on the first query. Less than 500 keys are put and
    queried, and the average at the end divides by zero. No threads are refused by the
    remainder. *)
Example stress_bad_arguments :
  query_revision (mkArgs 500 1 4) = -500 ∧
  stress (H:=block_size_2) (mkArgs 1 1 1) [[0]] sample_store = Panic "find_value_for_revision called with rev == 0" ∧
  stress (H:=block_size_2) (mkArgs 1 2 1) [[0]; [0]] sample_store
    = Panic "divide by zero error when dividing duration by scalar" ∧
  stress (H:=block_size_2) (mkArgs 1 2 0) [[0]; [0]] sample_store
    = Panic "attempt to calculate the remainder with a divisor of zero".
Proof. vm_compute. split_and!; reflexivity. Qed.
